(* ===== verification/_CoqProject ===== *)
-Q . S2P
Prelude.v
Types.v
Json.v
Text.v
Holes.v
Wire.v
Policy.v
PolicyFacts.v
Scorer.v
Deps.v
Concrete.v
Db.v
Hash.v
Ledger.v
Scans.v
LedgerFacts.v
LedgerProps.v
Span.v
Approvals.v
ApprovalFacts.v
ApprovalProps.v
Outbox.v
Registry.v
Secrets.v
Oracle.v
RegistryFacts.v
RegistryProps.v
Checkpoint.v
CheckpointProps.v
Namespace.v
Rules.v
HardRedact.v
Redact.v
HardRedactProps.v
HardSpansProps.v
Ipc.v
IpcProps.v
Preflight.v
Firewall.v
FirewallProps.v
Extract.v
Files.v
Posture.v
HookEntries.v
Setup.v
Documents.v
SetupProps.v
SetupHooks.v
SetupHooksProps.v
SetupMcp.v
SetupMcpProps.v
SetupToml.v
SetupTomlProps.v
ExtractProps.v
PathProps.v
Lease.v
LeaseProps.v
Alias.v
AliasProps.v
Protocol.v
ToolResult.v
Hub.v
HubFacts.v
HubProps.v
HubServers.v
Guard.v
GuardProps.v
HookEvent.v
Hook.v
HookConcrete.v
HookProps.v
HookResultProps.v
Outbound.v
OutboundGate.v
OutboundProps.v
OutboundSetup.v
OutboundSetupProps.v
HttpAuth.v
HttpTransport.v
HttpAuthProps.v
