(* ===== verification/Prelude.v ===== *)
(** * Vigils: a verification development

    Vigils stands between an AI agent and the MCP servers whose tools the agent
    calls. It decides which calls pass, asks the user about the doubtful ones,
    keeps credentials out of what the agent sees, and writes everything to a
    hash-chained ledger. This library models its Rust crates under
    [src/crates] and proves what they promise to one another and to the user.

    ** The parts and how they interact

    The hub ([Hub]) receives JSON-RPC requests. A [tools/call] is routed by the
    router ([Namespace]), passes the raw-secret gate and the alias gate
    ([Alias]), is looked up among the approvals of the session ([Approvals]),
    and goes to the firewall ([Firewall]). The firewall extracts effects, scans
    the arguments ([Preflight], [Redact]), asks the descriptor oracle
    ([Oracle], over [Registry]), scores ([Scorer]) and evaluates the policy
    ([Policy], [PolicyDefaults]); it records its decision in the ledger
    ([Ledger]) and, when the policy asks, queues an approval ([Approvals]). An
    outgoing call that waits for the user is frozen in the outbox ([Outbox]).
    Only then are aliases replaced by their values and the upstream called; a
    span ([Span]) holds the order decided-before-executed. The answer is cleaned
    of values and credentials ([Alias], [ToolResult]). Servers are attached with
    the command and program the user approved ([Registry], [Drift]); secrets are
    leased to a call for a time ([Lease]); the head of the ledger is anchored
    outside the database ([Checkpoint]).

    ** How the code is rendered

    Every operation is an executable function in a state-and-error monad
    ([M] of [Prelude]) over the state the Rust object owns: [LedgerState] for the audit
    database (a table with a primary key is a [gmap], [events] the list of its
    rows), [BrokerState] for the lease broker, [HubState] for the hub. [throw] is
    [Err(..)], [let!] is [?], [ignore] is [let _ =]; state changes made before an
    error stay, as they do in the code, except inside a database transaction.
    Every reading of the clock and every fresh UUID is an argument in the order
    the code reads them, or comes from the streams of the hub's environment
    ([Env]). What other threads do while an approval is waited for is a list of
    arbitrary ledger operations per poll slice. Machine integers keep their
    width where they can wrap or saturate (sums of risks and counts, expiry
    times, the leak and failure counters; release arithmetic). Strings are byte strings (the UTF-8 the code holds).

    ** Interfaces

    [Deps.Crates] has the functions of third-party crates the sources call:
    SHA-256, hexadecimal, canonical JSON (serde_jcs), serde_json. Its laws
    ([CratesLaws]) are the documented behaviour the theorems use: fixed digest
    length, an injective hexadecimal, an injective canonical form; collision
    freedom is never assumed of a hash but stated for the rows at hand
    ([Hash.collision_free]). [Redaction] and [ResultRedaction] are what the
    ledger and the hub ask of vigil-redaction, whose rules are regular expressions of a
    third-party engine; [HardRules] the matches of those expressions. [PiiScanner],
    [DescriptorOracle], the effect extractors, the secret store and the upstream
    are traits in the source and classes or records here; [Oracle] and [Redact]
    discharge two of them. [Concrete] instantiates all of them with small
    functions, on which the witnesses run.

    ** Files

    - [Prelude]: the monad, its inversion lemmas and tactics, lists and strings.
    - [Types] (vigil-types), [Deps], [Concrete].
    - [Policy], [PolicyDefaults], [PolicyFacts] (vigil-policy): the verdict is
      the strictest action of the rules that fire, an error of a rule never
      allows, the order rules are loaded in is irrelevant, and what the default
      rules let through without asking.
    - [Scorer] (vigil-firewall/src/scorer.rs): the score is monotone and bounded.
    - [Db], [Hash], [Ledger], [Scans], [LedgerFacts], [LedgerProps]
      (vigil-audit/src/ledger.rs, hash.rs): what an append accepts, that it
      extends a verified chain, that the head determines every bound field of
      the history, the session risk and its bounds.
    - [Span], [SpanFacts] (span.rs): the typestate, as a language of programs
      that hold spans; execution only after a decision; every call accounted.
    - [Approvals], [ApprovalFacts], [ApprovalProps] (approvals.rs): one
      resolution per approval, what a waiter is told is what the table says,
      the sweep expires exactly the overdue rows.
    - [Outbox] (outbox.rs): a draft is executed only after its approval.
    - [Registry], [Drift], [Secrets], [RegistryFacts], [RegistryProps]
      (registry.rs), [Oracle] (vigil-mcp/src/oracle.rs): the registry as a
      labelled step relation; a pin moves only by an approval; a tool that counts as
      stable was approved with this descriptor.
    - [Checkpoint], [CheckpointProps] (checkpoint.rs): a log that passes the
      anchored verification was not rewritten up to the last anchor.
    - [Namespace] (vigil-mcp/src/namespace.rs): public names round trip on
      the ids where they do; the router never reroutes.
    - [Redact], [RedactProps] (vigil-redaction: label.rs, merge.rs, scan.rs):
      the redacted text does not depend on a covered byte; the scan fails closed.
    - [Preflight], [Firewall], [FirewallProps] (vigil-firewall): an outcome is
      what the policy decided on all that was inferred, and it is in the ledger
      before it is returned; what the default firewall can allow.
    - [Lease], [LeaseProps] (vigil-lease): a value comes out only through a
      lease minted for it, in its context, in time; the ledger learns no value.
    - [Alias], [AliasProps], [Protocol], [ToolResult], [Hub], [HubFacts],
      [HubProps], [HubServers] (vigil-mcp): the grammar of alias tokens, the
      gates, values stay with their server and do not come back; every upstream
      call is a listing or went through gates, decision and approval; a tool is
      listed only when approved; no process starts before its gates.

    ** Bounds and fuel

    Recursion is structural everywhere but in one function. Searches that
    jump ahead in a text ([Alias.pieces_from], [Alias.replace_from]) recurse on
    every byte and carry the number of bytes still to skip; loops over rows
    recurse on the rows; waiting for a resolution recurses on the poll slices of
    the wait. [ToolResult.scrub_leaf] reads a string as JSON and scrubs the
    strings within it in turn; its fuel is the length of the string, and a string
    inside a JSON text is shorter than the text.

    ** Not modelled

    Opening and migrating the SQLite file, FTS5 queries and the operating
    system's keyring (I/O and third-party query languages); the regular
    expressions and models of vigil-redaction; process and pipe I/O of the stdio
    upstream; HTTP, OAuth and the sandbox (network and kernel calls); the
    desktop application, the browser guard and the command line, which edit
    configuration files and glue the crates together. Planned next: the effect
    extractors of the firewall, the outbound rewriting of secrets, the hard-rule
    redactor of vigil-redaction over an abstract matcher, the IPC wire format. *)

From stdpp Require Export base gmap strings list.
From Stdlib Require Export ZArith Lia Bool.
From Stdlib Require Export Ascii.
From Stdlib Require Import Sorting.Sorted.

#[global] Open Scope string_scope.
#[global] Open Scope list_scope.

(** ** Results

    Rust's [Result<T, E>], with the [?] operator as [let?]. *)

Inductive result (E A : Type) : Type :=
| Ok (a : A)
| Err (e : E).
Arguments Ok {E A} _.
Arguments Err {E A} _.

#[export] Instance result_eq_dec {E A} `{EqDecision E, EqDecision A} :
  EqDecision (result E A).
Proof. solve_decision. Defined.

Definition res_bind {E A B} (r : result E A) (k : A → result E B) : result E B :=
  match r with
  | Ok a => k a
  | Err e => Err e
  end.

(** [opt.ok_or(e)] *)
Definition ok_or {E A} (o : option A) (e : E) : result E A :=
  match o with
  | Some a => Ok a
  | None => Err e
  end.

Definition is_ok {E A} (r : result E A) : bool :=
  match r with
  | Ok _ => true
  | Err _ => false
  end.

(** What a result says besides its value. *)
Definition erase {E A} (r : result E A) : result E unit :=
  match r with
  | Ok _ => Ok tt
  | Err e => Err e
  end.

(** ** A state-and-error computation

    A method of a stateful component: it may fail, and what it changed before
    it failed stays changed (Rust does not roll back). *)

Definition M (S E A : Type) : Type := S → result E A * S.

Definition ret {S E A} (a : A) : M S E A := λ s, (Ok a, s).
Definition throw {S E A} (e : E) : M S E A := λ s, (Err e, s).
Definition bind {S E A B} (m : M S E A) (k : A → M S E B) : M S E B :=
  λ s, match m s with
       | (Ok a, s') => k a s'
       | (Err e, s') => (Err e, s')
       end.
Definition gets {S E A} (f : S → A) : M S E A := λ s, (Ok (f s), s).
Definition modify {S E} (f : S → S) : M S E unit := λ s, (Ok tt, f s).
Definition lift {S E A} (r : result E A) : M S E A := λ s, (r, s).

(** [let _ = m;]: the error is dropped, the effect is kept. *)
Definition ignore {S E A} (m : M S E A) : M S E unit :=
  λ s, let '(_, s') := m s in (Ok tt, s').

(** [m.is_ok()] / [match m { ... }]: the error becomes a value. *)
Definition attempt {S E A} (m : M S E A) : M S E (result E A) :=
  λ s, let '(r, s') := m s in (Ok r, s').

(** What a function returns, early or at its end. *)
Definition returned {A} (r : result A A) : A :=
  match r with
  | Ok a => a
  | Err a => a
  end.

(** The call of a function whose body is [m]. *)
Definition call {S R A} (m : M S A A) : M S R A := λ s, let '(r, s') := m s in (Ok (returned r), s').

Declare Scope vigil_scope.
Delimit Scope vigil_scope with vigil.
#[global] Open Scope vigil_scope.

Notation "'let?' x ':=' r 'in' k" := (res_bind r (λ x, k))
  (at level 10, x pattern, r at level 100, k at level 200) : vigil_scope.
Notation "'let!' x ':=' m 'in' k" := (bind m (λ x, k))
  (at level 10, x pattern, m at level 100, k at level 200) : vigil_scope.
Notation "m ';!' k" := (bind m (λ _, k))
  (at level 199, k at level 200, right associativity) : vigil_scope.

(** ** Tactics *)

Create HintDb vigil.
Create Rewrite HintDb vigil.

(** Split a hypothesis or the goal along every [match] it is stuck on. *)
Ltac split_match :=
  repeat (case_match; simplify_eq/=; try done).

(** Turn boolean facts into propositions. *)
Ltac bool_to_prop :=
  repeat match goal with
  | H : _ && _ = true |- _ => apply andb_true_iff in H as [? ?]
  | H : negb _ = true |- _ => apply negb_true_iff in H
  | H : negb _ = false |- _ => apply negb_false_iff in H
  | H : _ || _ = false |- _ => apply orb_false_iff in H as [? ?]
  | H : bool_decide _ = true |- _ => apply bool_decide_eq_true_1 in H
  | H : bool_decide _ = false |- _ => apply bool_decide_eq_false_1 in H
  | H : String.eqb _ _ = true |- _ => apply String.eqb_eq in H
  | H : String.eqb _ _ = false |- _ => apply String.eqb_neq in H
  end.

(** Open a state computation on a given state. *)
Ltac run_m :=
  unfold bind, ret, throw, gets, modify, lift, ignore, attempt in *; simpl in *.

(** ** Invariants of a computation

    [preserves R m]: whatever [m] returns, it relates the state before to the
    state after by [R]. With [R] a preorder this composes along [bind], and the
    hints below prove it for a computation from its [modify]s. *)

Definition preserves {S E A} (R : S → S → Prop) (m : M S E A) : Prop :=
  ∀ s, R s (m s).2.

(** The relation that an invariant, or an observation, makes of itself. *)
Definition keeps {S} (P : S → Prop) (s s' : S) : Prop := P s → P s'.
Definition same {S B} (f : S → B) (s s' : S) : Prop := f s' = f s.

#[export] Instance keeps_preorder {S} (P : S → Prop) : PreOrder (keeps P).
Proof. split; unfold keeps; [by intros s | by intros s t u; auto]. Qed.

#[export] Instance same_preorder {S B} (f : S → B) : PreOrder (same f).
Proof. split; unfold same; [by intros s | by intros s t u -> ->]. Qed.

Definition both {S} (R1 R2 : S → S → Prop) (s s' : S) : Prop := R1 s s' ∧ R2 s s'.

#[export] Instance both_preorder {S} (R1 R2 : S → S → Prop) `{!PreOrder R1, !PreOrder R2} :
  PreOrder (both R1 R2).
Proof.
  split; unfold both.
  - intros s. split; reflexivity.
  - intros s t u [Ha Hb] [Hc Hd]. split; etransitivity; eauto.
Qed.

Section Preserves.
Context {S E : Type} (R : S → S → Prop) `{!PreOrder R}.

Lemma preserves_ret {A} (a : A) : preserves R (ret a : M S E A).
Proof. intros s. reflexivity. Qed.

Lemma preserves_throw {A} (e : E) : preserves R (throw e : M S E A).
Proof. intros s. reflexivity. Qed.

Lemma preserves_gets {A} (f : S → A) : preserves R (gets f : M S E A).
Proof. intros s. reflexivity. Qed.

Lemma preserves_lift {A} (r : result E A) : preserves R (lift r : M S E A).
Proof. intros s. reflexivity. Qed.

Lemma preserves_modify (f : S → S) :
  (∀ s, R s (f s)) → preserves R (modify f : M S E unit).
Proof. intros Hf s. apply Hf. Qed.

Lemma preserves_bind {A B} (m : M S E A) (k : A → M S E B) :
  preserves R m → (∀ a, preserves R (k a)) → preserves R (bind m k).
Proof.
  intros Hm Hk s. specialize (Hm s). unfold bind.
  destruct (m s) as [[a|e] s1]; simpl in *; [|done].
  etransitivity; [exact Hm|apply Hk].
Qed.

Lemma preserves_ignore {A} (m : M S E A) : preserves R m → preserves R (ignore m).
Proof. intros Hm s. specialize (Hm s). unfold ignore. by destruct (m s). Qed.

Lemma preserves_attempt {A} (m : M S E A) : preserves R m → preserves R (attempt m).
Proof. intros Hm s. specialize (Hm s). unfold attempt. by destruct (m s). Qed.

Lemma preserves_read {A} (f : S → result E A) : preserves R (λ s, (f s, s)).
Proof. intros s. reflexivity. Qed.
End Preserves.

#[export] Hint Resolve preserves_ret preserves_throw preserves_gets preserves_lift
  preserves_bind preserves_ignore preserves_attempt preserves_read : vigil.

(** Reduce [preserves R m] to the [modify]s and the named calls of [m]. *)
Ltac preserve :=
  repeat (intros; first
    [ solve [auto with vigil nocore typeclass_instances]
    | apply preserves_bind; [typeclasses eauto| |]
    | apply preserves_ignore | apply preserves_attempt
    | apply preserves_modify
    | match goal with
      | |- preserves _ (let '_ := ?x in _) => destruct x
      | |- preserves _ (match ?x with _ => _ end) => destruct x
      | |- preserves _ (if ?x then _ else _) => destruct x
      end ]).

(** ** Histories

    Where a fact about a state came from, along the operations that led to it. *)

Section History.
Context {S O : Type} (step : S → O → S).

(** A fact that does not hold at first was made true by some operation. *)
Lemma run_history (P : S → Prop) (Q : S → O → Prop) s0 ops :
  (∀ s op, P (step s op) → P s ∨ Q s op) → ¬ P s0 → P (foldl step s0 ops) →
  ∃ ops1 op ops2, ops = ops1 ++ op :: ops2 ∧ Q (foldl step s0 ops1) op.
Proof.
  intros Hstep H0. induction ops as [|op ops IH] using rev_ind; [done|].
  rewrite foldl_snoc. intros HP. destruct (Hstep _ _ HP) as [HP'|HQ].
  - destruct (IH HP') as (ops1 & op' & ops2 & -> & HQ).
    exists ops1, op', (ops2 ++ [op]). by rewrite <- app_assoc.
  - by exists ops, op, [].
Qed.

(** What every operation keeps, a program keeps. *)
Lemma run_keeps (P : S → Prop) (ok : O → Prop) s0 ops :
  (∀ s op, ok op → P s → P (step s op)) → Forall ok ops → P s0 →
  P (foldl step s0 ops).
Proof.
  intros Hstep Hok. revert s0. induction Hok as [|op ops Hop _ IH]; simpl; auto.
Qed.
End History.

(** ** Strings (byte strings, as a Rust [&str] is) *)

Module Str.
Fixpoint starts_with (p s : string) : bool :=
  match p, s with
  | EmptyString, _ => true
  | String a p', String b s' => Ascii.eqb a b && starts_with p' s'
  | String _ _, EmptyString => false
  end.

Fixpoint ends_with (p s : string) : bool :=
  String.eqb p s
  || match s with
     | EmptyString => false
     | String _ s' => ends_with p s'
     end.

(** [&s[n..]] *)
Fixpoint drop (n : nat) (s : string) : string :=
  match n, s with
  | O, _ => s
  | S n', String _ s' => drop n' s'
  | S _, EmptyString => EmptyString
  end.

(** [&s[..n]] *)
Fixpoint take (n : nat) (s : string) : string :=
  match n, s with
  | S n', String a s' => String a (take n' s')
  | _, _ => EmptyString
  end.

(** [s.find(p)]: the first byte offset at which [p] occurs. *)
Fixpoint find (p s : string) : option nat :=
  if starts_with p s then Some O
  else match s with
       | EmptyString => None
       | String _ s' => S <$> find p s'
       end.

Fixpoint all (f : ascii → bool) (s : string) : bool :=
  match s with
  | EmptyString => true
  | String a s' => f a && all f s'
  end.

Fixpoint map (f : ascii → ascii) (s : string) : string :=
  match s with
  | EmptyString => EmptyString
  | String a s' => String (f a) (map f s')
  end.

Definition between (lo hi : nat) (a : ascii) : bool :=
  (lo <=? nat_of_ascii a)%nat && (nat_of_ascii a <=? hi)%nat.

Definition is_ascii_digit : ascii → bool := between 48 57.
Definition is_ascii_lower : ascii → bool := between 97 122.
Definition is_ascii_upper : ascii → bool := between 65 90.

(** [b'a'..=b'f'] *)
Definition is_hex_lower (a : ascii) : bool := is_ascii_digit a || between 97 102 a.
Definition is_ascii_hexdigit (a : ascii) : bool := is_hex_lower a || between 65 70 a.

Definition to_ascii_lowercase (a : ascii) : ascii :=
  if is_ascii_upper a then ascii_of_nat (nat_of_ascii a + 32) else a.

Definition eq_ignore_ascii_case (s t : string) : bool :=
  String.eqb (map to_ascii_lowercase s) (map to_ascii_lowercase t).

Definition is_empty (s : string) : bool := String.eqb s "".

(** [Ord for str]: lexicographic on bytes. *)
Fixpoint leb (s t : string) : bool :=
  match s, t with
  | EmptyString, _ => true
  | String _ _, EmptyString => false
  | String a s', String b t' =>
      (nat_of_ascii a <? nat_of_ascii b)%nat
      || (Ascii.eqb a b && leb s' t')
  end.

Fixpoint join (sep : string) (l : list string) : string :=
  match l with
  | [] => ""
  | [x] => x
  | x :: l' => x +:+ sep +:+ join sep l'
  end.

Lemma starts_with_spec p s : starts_with p s = true ↔ ∃ t, s = p +:+ t.
Proof.
  revert s; induction p as [|a p IH]; intros s; simpl.
  { split; [by eauto | done]. }
  destruct s as [|b s].
  { split; [done | by intros [t [=]]]. }
  rewrite andb_true_iff, IH, Ascii.eqb_eq.
  split.
  - intros [-> [t ->]]. by exists t.
  - intros [t [= -> ->]]. by eauto.
Qed.

Lemma append_cons a s t : String a s +:+ t = String a (s +:+ t).
Proof. done. Qed.

Lemma length_append s t :
  String.length (s +:+ t) = (String.length s + String.length t)%nat.
Proof.
  induction s as [|a s IH]; [done|].
  rewrite append_cons; simpl. by rewrite IH.
Qed.

Lemma append_assoc s t u : s +:+ (t +:+ u) = (s +:+ t) +:+ u.
Proof. induction s as [|a s IH]; [done|]. by rewrite !append_cons, IH. Qed.

Lemma append_nil_r s : s +:+ "" = s.
Proof. induction s as [|a s IH]; [done|]. by rewrite append_cons, IH. Qed.

(** Two concatenations whose heads have one length agree part by part. *)
Lemma append_inj_len s1 s2 t1 t2 :
  String.length s1 = String.length s2 →
  s1 +:+ t1 = s2 +:+ t2 → s1 = s2 ∧ t1 = t2.
Proof.
  revert s2; induction s1 as [|a s1 IH]; intros [|b s2] Hl H; try done.
  rewrite !append_cons in H. simplify_eq/=.
  destruct (IH s2) as [-> ->]; auto.
Qed.

Lemma take_length_append s t : take (String.length s) (s +:+ t) = s.
Proof.
  induction s as [|a s IH]; [by destruct t|].
  rewrite append_cons; simpl. by rewrite IH.
Qed.

Lemma drop_length_append s t : drop (String.length s) (s +:+ t) = t.
Proof. induction s as [|a s IH]; [done|]. by rewrite append_cons. Qed.

Lemma length_take n s : (n ≤ String.length s)%nat → String.length (take n s) = n.
Proof.
  revert s; induction n as [|n IH]; intros [|a s]; simpl; try done; [lia|].
  intros Hn. f_equal. apply IH. lia.
Qed.

Lemma append_eq_nil s t : s +:+ t = "" → s = "" ∧ t = "".
Proof. by destruct s. Qed.

Lemma ends_with_spec p s : ends_with p s = true ↔ ∃ t, s = t +:+ p.
Proof.
  induction s as [|a s IH]; simpl; rewrite orb_true_iff, String.eqb_eq.
  - split; [by intros [->|?]; [exists ""|]|].
    intros [t H]. symmetry in H. apply append_eq_nil in H as [_ ->]. by left.
  - rewrite IH. split.
    + intros [->|[t ->]]; [by exists ""|by exists (String a t)].
    + intros [[|b t] H]; [by left|].
      rewrite append_cons in H. simplify_eq. right; by eauto.
Qed.

Lemma all_append f s t : all f (s +:+ t) = all f s && all f t.
Proof.
  induction s as [|a s IH]; [done|].
  rewrite append_cons; simpl. by rewrite IH, andb_assoc.
Qed.

Lemma is_empty_spec s : is_empty s = true ↔ s = "".
Proof. apply String.eqb_eq. Qed.

Lemma leb_refl s : leb s s = true.
Proof.
  induction s as [|a s IH]; simpl; [done|].
  by rewrite Ascii.eqb_refl, IH, orb_true_r.
Qed.

Lemma nat_of_ascii_inj a b : nat_of_ascii a = nat_of_ascii b → a = b.
Proof.
  intros H. rewrite <- (ascii_nat_embedding a), <- (ascii_nat_embedding b).
  by rewrite H.
Qed.

Lemma leb_total s t : leb s t = true ∨ leb t s = true.
Proof.
  revert t; induction s as [|a s IH]; intros [|b t]; simpl; auto.
  destruct (Nat.lt_trichotomy (nat_of_ascii a) (nat_of_ascii b)) as [H|[H|H]].
  - apply Nat.ltb_lt in H. rewrite H. by left.
  - apply nat_of_ascii_inj in H as ->. rewrite Ascii.eqb_refl.
    destruct (IH t) as [-> | ->]; rewrite orb_true_r; auto.
  - apply Nat.ltb_lt in H. rewrite H. by right.
Qed.

Lemma leb_trans s t u : leb s t = true → leb t u = true → leb s u = true.
Proof.
  revert t u; induction s as [|a s IH]; intros [|b t] [|c u]; simpl; try done.
  rewrite !orb_true_iff, !andb_true_iff, !Nat.ltb_lt, !Ascii.eqb_eq.
  intros [H1|[-> H1]] [H2|[-> H2]]; [left; lia|left; lia|left; lia|].
  right; split; [done|]. by eapply IH.
Qed.

Lemma leb_antisym s t : leb s t = true → leb t s = true → s = t.
Proof.
  revert t; induction s as [|a s IH]; intros [|b t]; simpl; try done.
  rewrite !orb_true_iff, !andb_true_iff, !Nat.ltb_lt, !Ascii.eqb_eq.
  intros [H1|[-> H1]] [H2|[? H2]]; try lia; [subst; lia|].
  f_equal. by apply IH.
Qed.
End Str.

(** ** Stable sorting

    [slice::sort_by] / [sort_by_key] and SQL's [ORDER BY]: a stable sort for a
    total preorder given as a boolean. *)

Module Sort.
Section Sort.
Context {A : Type} (leb : A → A → bool).

Fixpoint insert (x : A) (l : list A) : list A :=
  match l with
  | [] => [x]
  | y :: l' => if leb x y then x :: l else y :: insert x l'
  end.

Definition sort (l : list A) : list A := foldr insert [] l.

Definition Sorted : list A → Prop := StronglySorted (λ x y, leb x y = true).

Lemma insert_perm x l : insert x l ≡ₚ x :: l.
Proof.
  induction l as [|y l IH]; simpl; [done|].
  case_match; [done|]. rewrite IH. apply Permutation_swap.
Qed.

Lemma sort_perm l : sort l ≡ₚ l.
Proof.
  induction l as [|x l IH]; simpl; [done|].
  by rewrite insert_perm, IH.
Qed.

Lemma elem_of_sort x l : x ∈ sort l ↔ x ∈ l.
Proof. by rewrite sort_perm. Qed.

Lemma length_sort l : length (sort l) = length l.
Proof. by rewrite sort_perm. Qed.

Context (leb_total : ∀ x y, leb x y = true ∨ leb y x = true).
Context (leb_trans : ∀ x y z, leb x y = true → leb y z = true → leb x z = true).

Lemma insert_sorted x l : Sorted l → Sorted (insert x l).
Proof.
  unfold Sorted. induction 1 as [|y l Hl IH Hy]; simpl; [by repeat constructor|].
  destruct (leb x y) eqn:E.
  - constructor; [by constructor|]. constructor; [done|].
    eapply Forall_impl; [done|]. intros z Hz. by eapply leb_trans.
  - constructor; [done|]. rewrite insert_perm. constructor; [|done].
    by destruct (leb_total x y) as [?|?]; [congruence|].
Qed.

Lemma sort_sorted l : Sorted (sort l).
Proof.
  induction l as [|x l IH]; simpl; [constructor|]. by apply insert_sorted.
Qed.

(** Elements the order does not separate keep their relative order. *)
Lemma insert_stable (P : A → bool) x l :
  (∀ y z, P y = true → P z = true → leb y z = true) →
  List.filter P (insert x l) = List.filter P (x :: l).
Proof.
  intros HP. induction l as [|y l IH]; simpl in *; [done|].
  destruct (leb x y) eqn:E; simpl; [done|]. rewrite IH.
  destruct (P x) eqn:Ex, (P y) eqn:Ey; try done.
  by rewrite HP in E.
Qed.

Lemma sort_stable (P : A → bool) l :
  (∀ y z, P y = true → P z = true → leb y z = true) →
  List.filter P (sort l) = List.filter P l.
Proof.
  intros HP. induction l as [|x l IH]; simpl; [done|].
  rewrite insert_stable by done. simpl. by rewrite IH.
Qed.

(** A sorted arrangement of elements the order tells apart is unique. *)
Lemma sorted_unique l1 l2 :
  (∀ x y, x ∈ l1 → y ∈ l1 → leb x y = true → leb y x = true → x = y) →
  Sorted l1 → Sorted l2 → l1 ≡ₚ l2 → l1 = l2.
Proof.
  unfold Sorted. intros Hanti H1. revert l2.
  induction H1 as [|x l1 H1 IH Hx]; intros l2 H2 Hp.
  { by apply Permutation_nil_l in Hp. }
  destruct H2 as [|y l2 H2 Hy].
  { by apply Permutation_nil_r in Hp. }
  assert (x = y) as ->.
  { rewrite Forall_forall in Hx, Hy.
    assert (y ∈ x :: l1) as Hyin by (rewrite Hp; by left).
    assert (x ∈ y :: l2) as Hxin by (rewrite <- Hp; by left).
    apply elem_of_cons in Hyin as [->|Hyin]; [done|].
    apply elem_of_cons in Hxin as [->|Hxin]; [done|].
    apply Hanti; [by left|by right|by apply Hx|by apply Hy]. }
  f_equal. apply Permutation_cons_inv in Hp.
  apply IH; [|done..]. intros; apply Hanti; try done; by right.
Qed.

Lemma sorted_head_le l x y : sort l = x :: y → Forall (λ z, leb x z = true) y.
Proof.
  intros H. pose proof (sort_sorted l) as Hs. rewrite H in Hs.
  by inversion Hs.
Qed.
(** [ORDER BY ... LIMIT 1] *)
Lemma sort_head l :
  match head (sort l) with
  | Some x => x ∈ l ∧ ∀ y, y ∈ l → leb x y = true
  | None => l = []
  end.
Proof.
  destruct (sort l) as [|x t] eqn:E; simpl.
  - apply length_zero_iff_nil. rewrite <- length_sort, E. done.
  - split; [rewrite <- elem_of_sort, E; by left|].
    intros y Hy. rewrite <- elem_of_sort, E in Hy.
    apply elem_of_cons in Hy as [->|Hy].
    + by destruct (leb_total x x).
    + apply sorted_head_le in E. rewrite Forall_forall in E. by apply E.
Qed.
End Sort.
End Sort.

(** ** Big-endian bytes *)

Module Bytes.
Definition byte (x : Z) : ascii := ascii_of_nat (Z.to_nat (x `mod` 256)).

(** [x.to_be_bytes()] of an [8*n]-bit integer; a negative [x] in two's
    complement. *)
Fixpoint be_bytes (n : nat) (x : Z) : string :=
  match n with
  | O => EmptyString
  | S n' => be_bytes n' (x `div` 256) +:+ String (byte x) EmptyString
  end.

Definition u32_be : Z → string := be_bytes 4.
Definition u64_be : Z → string := be_bytes 8.
Definition i64_be (x : Z) : string := be_bytes 8 (x `mod` 2 ^ 64).

Definition is_i64 (x : Z) : Prop := (- 2 ^ 63 ≤ x < 2 ^ 63)%Z.

Lemma length_be_bytes n x : String.length (be_bytes n x) = n.
Proof.
  revert x; induction n as [|n IH]; intros x; simpl; [done|].
  rewrite Str.length_append, IH. simpl. lia.
Qed.

Lemma byte_inj x y : byte x = byte y → (x `mod` 256 = y `mod` 256)%Z.
Proof.
  unfold byte. intros H%(f_equal nat_of_ascii).
  pose proof (Z.mod_pos_bound x 256). pose proof (Z.mod_pos_bound y 256).
  rewrite !nat_ascii_embedding in H; lia.
Qed.

Lemma be_bytes_inj n x y :
  (0 ≤ x < 256 ^ Z.of_nat n)%Z → (0 ≤ y < 256 ^ Z.of_nat n)%Z →
  be_bytes n x = be_bytes n y → x = y.
Proof.
  revert x y; induction n as [|n IH]; intros x y Hx Hy H.
  { simpl in *. lia. }
  rewrite Nat2Z.inj_succ, Z.pow_succ_r in Hx, Hy by lia.
  simpl in H. apply Str.append_inj_len in H as [H1 H2];
    [|by rewrite !length_be_bytes].
  injection H2 as H2%byte_inj.
  apply IH in H1.
  - rewrite (Z.div_mod x 256), (Z.div_mod y 256) by lia. lia.
  - split; [apply Z.div_pos; lia|apply Z.div_lt_upper_bound; lia].
  - split; [apply Z.div_pos; lia|apply Z.div_lt_upper_bound; lia].
Qed.

Lemma u64_be_inj x y :
  (0 ≤ x < 2 ^ 64)%Z → (0 ≤ y < 2 ^ 64)%Z → u64_be x = u64_be y → x = y.
Proof. intros. by apply (be_bytes_inj 8). Qed.

Lemma i64_be_inj x y : is_i64 x → is_i64 y → i64_be x = i64_be y → x = y.
Proof.
  unfold is_i64, i64_be. intros Hx Hy H.
  apply (be_bytes_inj 8) in H; [|apply Z.mod_pos_bound; lia..].
  destruct (Z.mod_pos_bound x (2 ^ 64)), (Z.mod_pos_bound y (2 ^ 64)); try lia.
  pose proof (Z.div_mod x (2 ^ 64)). pose proof (Z.div_mod y (2 ^ 64)). nia.
Qed.
End Bytes.

(** ** Machine integers *)

Module Int.
Definition i64_max : Z := 2 ^ 63 - 1.
Definition i64_min : Z := - 2 ^ 63.
Definition u32_max : Z := 2 ^ 32 - 1.

(** [i64::saturating_add] *)
Definition i64_saturating_add (x y : Z) : Z := Z.max i64_min (Z.min i64_max (x + y)).

(** [x + y] on i64 in a release build. *)
Definition i64_wrapping_add (x y : Z) : Z := (x + y + 2 ^ 63) `mod` 2 ^ 64 - 2 ^ 63.

Lemma i64_saturating_add_range x y : Bytes.is_i64 (i64_saturating_add x y).
Proof. unfold i64_saturating_add, i64_min, i64_max, Bytes.is_i64. lia. Qed.
End Int.

#[export] Hint Resolve Sort.sort_perm Int.i64_saturating_add_range : vigil.
#[export] Hint Rewrite @Sort.elem_of_sort @Sort.length_sort Bytes.length_be_bytes : vigil.

(** ** Searching a list *)

(** [iter().find_map(..)] *)
Fixpoint find_map {A B} (f : A → option B) (l : list A) : option B :=
  match l with
  | [] => None
  | x :: l' =>
      match f x with
      | Some y => Some y
      | None => find_map f l'
      end
  end.

Lemma find_map_some {A B} (f : A → option B) l y :
  find_map f l = Some y → ∃ x, x ∈ l ∧ f x = Some y.
Proof.
  induction l as [|x l IH]; [done|]. cbn [find_map]. destruct (f x) as [z|] eqn:E.
  - intros [= ->]. exists x. split; [left|done].
  - intros (x' & Hx & Hf)%IH. exists x'. split; [by right|done].
Qed.

Lemma find_map_none {A B} (f : A → option B) l :
  find_map f l = None ↔ ∀ x, x ∈ l → f x = None.
Proof.
  induction l as [|x l IH]; cbn [find_map].
  { split; [|done]. by intros _ y []%elem_of_nil. }
  destruct (f x) eqn:E.
  - split; [done|]. intros Hf. by rewrite (Hf x) in E by left.
  - rewrite IH. split; [|by intros Hf y Hy; apply Hf; right].
    intros Hf y [->|Hy]%elem_of_cons; auto.
Qed.
