(* ===== verification/Types.v ===== *)
(** * Shared domain types

    The data of [src/crates/vigil-types]: what an agent asks for
    ([ToolInvocation]), what the firewall infers from it ([EffectVector]), what
    it decides ([DecisionRecord]) and what the user is asked
    ([ApprovalRequest], [ApprovalResolution]). An enum keeps the constructors
    of the source inside a module of its own name. JSON values are those of
    serde_json; the fractional numbers it also has are kept as their text. *)

From S2P Require Export Prelude.

(** ** JSON *)

Unset Elimination Schemes.
Inductive Value : Type :=
| JNull
| JBool (b : bool)
| JNum (z : Z)
| JFloat (text : string)
| JStr (s : string)
| JArr (l : list Value)
| JObj (fields : list (string * Value)).
Set Elimination Schemes.

Fixpoint value_ind (P : Value → Prop)
    (Hnull : P JNull) (Hbool : ∀ b, P (JBool b)) (Hnum : ∀ z, P (JNum z))
    (Hfloat : ∀ t, P (JFloat t)) (Hstr : ∀ s, P (JStr s))
    (Harr : ∀ l, Forall P l → P (JArr l))
    (Hobj : ∀ fs, Forall (λ kv, P kv.2) fs → P (JObj fs))
    (v : Value) : P v :=
  let rec := value_ind P Hnull Hbool Hnum Hfloat Hstr Harr Hobj in
  match v with
  | JNull => Hnull
  | JBool b => Hbool b
  | JNum z => Hnum z
  | JFloat t => Hfloat t
  | JStr s => Hstr s
  | JArr l =>
      Harr l ((fix go l : Forall P l :=
                 match l with
                 | [] => Forall_nil_2 P
                 | x :: l' => Forall_cons_2 P x l' (rec x) (go l')
                 end) l)
  | JObj fs =>
      Hobj fs ((fix go fs : Forall (λ kv, P kv.2) fs :=
                  match fs with
                  | [] => Forall_nil_2 _
                  | kv :: fs' => Forall_cons_2 (λ kv, P kv.2) kv fs' (rec kv.2) (go fs')
                  end) fs)
  end.

Definition json_opt_str (o : option string) : Value :=
  match o with
  | Some s => JStr s
  | None => JNull
  end.

(** [v.get(key)] of an object, [v.as_str()], [v.as_bool()]. *)
Fixpoint assoc_get (key : string) (fields : list (string * Value)) : option Value :=
  match fields with
  | [] => None
  | (k, v) :: rest => if String.eqb k key then Some v else assoc_get key rest
  end.

Definition json_get (key : string) (v : Value) : option Value :=
  match v with
  | JObj fields => assoc_get key fields
  | _ => None
  end.

Definition as_str (v : Value) : option string :=
  match v with
  | JStr s => Some s
  | _ => None
  end.

Definition as_bool (v : Value) : option bool :=
  match v with
  | JBool b => Some b
  | _ => None
  end.

Definition json_strs (l : list string) : Value := JArr (JStr <$> l).

(** ** Enums *)

Module EffectKind.
Inductive EffectKind :=
| FsRead | FsWrite | DbRead | DbWrite | NetOutbound | ExecWasm | ExecNative
| SecretUse | BrowserSubmit | CommSend | CredentialExchange.

#[global] Instance EffectKind_eq_dec : EqDecision EffectKind.
Proof. solve_decision. Defined.

(** [#[serde(rename_all = "PascalCase")]] *)
Definition to_str (k : EffectKind) : string :=
  match k with
  | FsRead => "FsRead" | FsWrite => "FsWrite" | DbRead => "DbRead"
  | DbWrite => "DbWrite" | NetOutbound => "NetOutbound" | ExecWasm => "ExecWasm"
  | ExecNative => "ExecNative" | SecretUse => "SecretUse"
  | BrowserSubmit => "BrowserSubmit" | CommSend => "CommSend"
  | CredentialExchange => "CredentialExchange"
  end.
End EffectKind.
Abbreviation EffectKind := EffectKind.EffectKind.

Module DecisionKind.
Inductive DecisionKind := Allow | Deny | Approve.

#[global] Instance DecisionKind_eq_dec : EqDecision DecisionKind.
Proof. solve_decision. Defined.

Definition to_str (k : DecisionKind) : string :=
  match k with
  | Allow => "Allow" | Deny => "Deny" | Approve => "Approve"
  end.
End DecisionKind.
Abbreviation DecisionKind := DecisionKind.DecisionKind.

Module ApprovalStatus.
Inductive ApprovalStatus := Pending | Approved | Denied | Expired | Cancelled.

#[global] Instance ApprovalStatus_eq_dec : EqDecision ApprovalStatus.
Proof. solve_decision. Defined.
End ApprovalStatus.
Abbreviation ApprovalStatus := ApprovalStatus.ApprovalStatus.

Module ApprovalScope.
Inductive ApprovalScope :=
| Once | ThisSession | ForToolWithSameArgsHash | ForPolicyTemplate.

#[global] Instance ApprovalScope_eq_dec : EqDecision ApprovalScope.
Proof. solve_decision. Defined.
End ApprovalScope.
Abbreviation ApprovalScope := ApprovalScope.ApprovalScope.

Module TrustLevel.
Inductive TrustLevel := Untrusted | Limited | Trusted.

#[global] Instance TrustLevel_eq_dec : EqDecision TrustLevel.
Proof. solve_decision. Defined.
End TrustLevel.
Abbreviation TrustLevel := TrustLevel.TrustLevel.

Module TransportKind.
Inductive TransportKind := Stdio | Http.

#[global] Instance TransportKind_eq_dec : EqDecision TransportKind.
Proof. solve_decision. Defined.
End TransportKind.
Abbreviation TransportKind := TransportKind.TransportKind.

Module InjectionMethod.
Inductive InjectionMethod := HttpHeader | ChildEnv | Pipe | TempFile | HookCommand.

#[global] Instance InjectionMethod_eq_dec : EqDecision InjectionMethod.
Proof. solve_decision. Defined.

Definition to_str (m : InjectionMethod) : string :=
  match m with
  | HttpHeader => "HttpHeader" | ChildEnv => "ChildEnv" | Pipe => "Pipe"
  | TempFile => "TempFile" | HookCommand => "HookCommand"
  end.
End InjectionMethod.
Abbreviation InjectionMethod := InjectionMethod.InjectionMethod.

(** ** Records *)

Record ToolInvocation := mkToolInvocation {
  ti_invocation_id : string;
  ti_session_id : string;
  ti_server_id : string;
  ti_tool_name : string;
  ti_args : Value;
  ti_descriptor_hash : string;
  ti_requested_at : Z;
}.

Record EffectVector := mkEffectVector {
  effects : list EffectKind;
  paths_read : list string;
  paths_write : list string;
  network_hosts : list string;
  secret_refs : list string;
  recipients : list string;
  destructive : bool;
  reversible : bool;
}.

(** [#[derive(Default)]] *)
Definition effect_vector_default : EffectVector :=
  mkEffectVector [] [] [] [] [] [] false false.

#[global] Instance EffectVector_eq_dec : EqDecision EffectVector.
Proof. solve_decision. Defined.

Record DecisionRecord := mkDecisionRecord {
  dr_decision_id : string;
  dr_invocation_id : string;
  dr_decision : DecisionKind;
  dr_risk_score : Z;
  dr_reasons : list string;
  dr_policy_ids : list string;
  dr_created_at : Z;
}.

Record ApprovalRequest := mkApprovalRequest {
  ar_approval_id : string;
  ar_decision_id : string;
  ar_invocation_id : string;
  ar_session_id : string;
  ar_title : string;
  ar_summary : string;
  ar_effect_vector : EffectVector;
  ar_expires_at : Z;
  ar_status : ApprovalStatus;
}.

Record ApprovalResolution := mkApprovalResolution {
  res_approval_id : string;
  res_invocation_id : string;
  res_status : ApprovalStatus;
  res_scope : option ApprovalScope;
  res_resolved_by : option string;
  res_resolved_at : Z;
}.

#[global] Instance ApprovalResolution_eq_dec : EqDecision ApprovalResolution.
Proof. solve_decision. Defined.

Record SecretLease := mkSecretLease {
  lease_id : string;
  lease_secret_ref : string;
  bound_session_id : string;
  bound_server_id : string;
  bound_tool_name : string;
  lease_approval_id : option string;
  lease_injection_method : InjectionMethod;
  lease_expires_at : Z;
}.

Record ServerProfile := mkServerProfile {
  sp_server_id : string;
  sp_transport : TransportKind;
  sp_command : option (list string);
  sp_url : option string;
  sp_first_seen_at : Z;
  sp_command_hash : option string;
  sp_descriptor_hash : option string;
  sp_trust_level : TrustLevel;
  sp_sandbox_profile_id : option string;
}.
