(* ===== verification/Json.v ===== *)
(** * JSON maps

    [serde_json::Map] with the order of insertion kept: the operations on maps and
    values the components share. Keys of a map are distinct. *)

From S2P Require Import Prelude Types.

(** [serde_json::Map::insert]: in place if the key is there, else at the end. *)
Fixpoint map_insert (k : string) (v : Value) (fields : list (string * Value))
    : list (string * Value) :=
  match fields with
  | [] => [(k, v)]
  | (k', v') :: rest =>
      if String.eqb k' k then (k, v) :: rest else (k', v') :: map_insert k v rest
  end.

(** [.collect::<Map<_, _>>()] *)
Definition collect_map (l : list (string * Value)) : list (string * Value) :=
  foldl (λ m kv, map_insert kv.1 kv.2 m) [] l.

(** [==] of values; objects are equal whatever the order of their keys. *)
Fixpoint json_eqb (v w : Value) : bool :=
  match v, w with
  | JNull, JNull => true
  | JBool a, JBool b => Bool.eqb a b
  | JNum a, JNum b => (a =? b)%Z
  | JFloat a, JFloat b => String.eqb a b
  | JStr a, JStr b => String.eqb a b
  | JArr a, JArr b =>
      (fix go a b :=
         match a, b with
         | [], [] => true
         | x :: a', y :: b' => json_eqb x y && go a' b'
         | _, _ => false
         end) a b
  | JObj a, JObj b =>
      (length a =? length b)%nat
      && forallb (λ kv, match assoc_get kv.1 b with
                        | Some y => json_eqb kv.2 y
                        | None => false
                        end) a
  | _, _ => false
  end.

(** [Map::remove] of an order-keeping map: the last entry takes the place of the
    one removed. *)
Fixpoint remove_swapping (k : string) (lst : option (string * Value)) (fields : list (string * Value))
    : list (string * Value) :=
  match fields with
  | [] => []
  | (k', v') :: rest =>
      if String.eqb k' k then
        match rest, lst with
        | [], _ => []
        | _, Some e => e :: removelast rest
        | _, None => rest
        end
      else (k', v') :: remove_swapping k lst rest
  end.

Definition map_remove (k : string) (fields : list (string * Value)) : list (string * Value) :=
  remove_swapping k (last fields) fields.

Definition as_object (v : Value) : option (list (string * Value)) :=
  match v with
  | JObj fields => Some fields
  | _ => None
  end.

Definition as_array (v : Value) : option (list Value) :=
  match v with
  | JArr l => Some l
  | _ => None
  end.

Definition is_object (v : Value) : bool := bool_decide (is_Some (as_object v)).
Definition is_array (v : Value) : bool := bool_decide (is_Some (as_array v)).
Definition is_string (v : Value) : bool := bool_decide (is_Some (as_str v)).

(** [v.get_mut(k)], changed in place; the count says what was done ([unwrap_or(0)]). *)
Fixpoint update_field (k : string) (f : Value → Value * nat) (fields : list (string * Value))
    : list (string * Value) * nat :=
  match fields with
  | [] => ([], 0%nat)
  | (k', v) :: rest =>
      if String.eqb k' k then let '(v', n) := f v in ((k', v') :: rest, n)
      else let '(rest', n) := update_field k f rest in ((k', v) :: rest', n)
  end.

(** [v.get_mut(k)...as_object_mut()]: what is no object is left alone. *)
Definition update_object (f : list (string * Value) → list (string * Value) * nat) (v : Value)
    : Value * nat :=
  match v with
  | JObj fields => let '(fields', n) := f fields in (JObj fields', n)
  | _ => (v, 0%nat)
  end.

Definition update_at (k : string) (f : Value → Value * nat) : Value → Value * nat :=
  update_object (update_field k f).

(** [map.iter_mut()] with a count. *)
Fixpoint update_all (f : string → Value → Value * nat) (fields : list (string * Value))
    : list (string * Value) * nat :=
  match fields with
  | [] => ([], 0%nat)
  | (k, v) :: rest =>
      let '(v', n) := f k v in
      let '(rest', m) := update_all f rest in
      ((k, v') :: rest', (n + m)%nat)
  end.

(** ** Facts *)

Lemma assoc_get_insert k v fields : assoc_get k (map_insert k v fields) = Some v.
Proof.
  induction fields as [|[k' v'] rest IH]; simpl; [by rewrite String.eqb_refl|].
  destruct (String.eqb_spec k' k) as [->|Hne]; simpl; [by rewrite String.eqb_refl|].
  destruct (String.eqb_spec k' k); [done|apply IH].
Qed.

Lemma assoc_get_insert_ne k k' v fields :
  k ≠ k' → assoc_get k (map_insert k' v fields) = assoc_get k fields.
Proof.
  intros Hne. induction fields as [|[k0 v0] rest IH]; simpl.
  - by destruct (String.eqb_spec k' k).
  - destruct (String.eqb_spec k0 k') as [->|]; simpl.
    + by destruct (String.eqb_spec k' k).
    + destruct (String.eqb_spec k0 k); [done|apply IH].
Qed.

Lemma map_insert_insert k v w fields :
  map_insert k v (map_insert k w fields) = map_insert k v fields.
Proof.
  induction fields as [|[k' v'] rest IH]; simpl; [by rewrite String.eqb_refl|].
  destruct (String.eqb_spec k' k) as [->|Hne]; simpl; [by rewrite String.eqb_refl|].
  destruct (String.eqb_spec k' k); [done|]. by rewrite IH.
Qed.

(** Two keys of which the first is there already change places. *)
Lemma map_insert_comm k k' v w fields :
  k ≠ k' → is_Some (assoc_get k fields) →
  map_insert k v (map_insert k' w fields) = map_insert k' w (map_insert k v fields).
Proof.
  intros Hne. induction fields as [|[k0 v0] rest IH]; simpl; [by intros [? [=]]|].
  destruct (String.eqb_spec k0 k) as [->|H0].
  - intros _. destruct (String.eqb_spec k k'); [done|]. simpl.
    rewrite !String.eqb_refl. by destruct (String.eqb_spec k k').
  - intros Hs. destruct (String.eqb_spec k0 k') as [->|H1]; simpl.
    + destruct (String.eqb_spec k' k); [by subst|]. by rewrite String.eqb_refl.
    + destruct (String.eqb_spec k0 k); [done|]. destruct (String.eqb_spec k0 k'); [done|].
      by rewrite IH.
Qed.

Lemma map_insert_same k v fields : assoc_get k fields = Some v → map_insert k v fields = fields.
Proof.
  induction fields as [|[k' v'] rest IH]; simpl; [done|].
  destruct (String.eqb_spec k' k) as [->|]; [by intros [= ->]|]. intros Hg. by rewrite IH.
Qed.

Lemma map_insert_keys k v fields :
  is_Some (assoc_get k fields) → (map_insert k v fields).*1 = fields.*1.
Proof.
  induction fields as [|[k' v'] rest IH]; simpl; [by intros [? [=]]|].
  destruct (String.eqb_spec k' k) as [->|]; [done|]. intros Hs. cbn [fst fmap list_fmap]. f_equal. by apply IH.
Qed.

Lemma assoc_get_elem k v fields :
  NoDup fields.*1 → (k, v) ∈ fields ↔ assoc_get k fields = Some v.
Proof.
  induction fields as [|[k' v'] rest IH]; simpl; intros Hd; [by rewrite elem_of_nil|].
  apply NoDup_cons in Hd as [Hn Hd]. rewrite elem_of_cons.
  destruct (String.eqb_spec k' k) as [->|Hne].
  - split; [|intros [= ->]; by left]. intros [[= ->]|He]; [done|]. destruct Hn.
    apply list_elem_of_fmap. by exists (k, v).
  - rewrite <- IH by done. split; [|by right]. by intros [[= -> ->]|?].
Qed.

Lemma update_all_spec f fields :
  (update_all f fields).1 = map (λ kv, (kv.1, (f kv.1 kv.2).1)) fields.
Proof.
  induction fields as [|[k v] rest IH]; [done|]. simpl. destruct (f k v) as [v' n] eqn:E.
  destruct (update_all f rest) as [rest' m]. simpl in *. by rewrite IH.
Qed.

(** ** Well-formed values

    The keys of every map are distinct, as a parser leaves them. *)
Fixpoint wf_json (v : Value) : Prop :=
  match v with
  | JArr l => (fix go l := match l with [] => True | x :: r => wf_json x ∧ go r end) l
  | JObj fields =>
      NoDup fields.*1 ∧
      (fix go l := match l with [] => True | kv :: r => wf_json (snd kv) ∧ go r end) fields
  | _ => True
  end.

Lemma wf_arr l : wf_json (JArr l) ↔ Forall wf_json l.
Proof.
  cbn [wf_json]. induction l as [|x l IH]; [by rewrite Forall_nil|]. by rewrite Forall_cons, IH.
Qed.

Lemma wf_obj fields : wf_json (JObj fields) ↔ NoDup fields.*1 ∧ Forall (λ kv, wf_json kv.2) fields.
Proof.
  cbn [wf_json]. apply and_iff_compat_l. induction fields as [|kv l IH]; [by rewrite Forall_nil|].
  by rewrite Forall_cons, IH.
Qed.

Lemma wf_get k v w : wf_json v → json_get k v = Some w → wf_json w.
Proof.
  destruct v as [| | | | | |fields]; simpl; try done. intros [_ Hw]%wf_obj Hg.
  induction fields as [|[k' v'] rest IH]; [done|]. apply Forall_cons in Hw as [? ?].
  simpl in Hg. destruct (String.eqb k' k); [by injection Hg as <-|]. by apply IH.
Qed.

Lemma elem_insert_keys k v fields x :
  x ∈ (map_insert k v fields).*1 → x = k ∨ x ∈ fields.*1.
Proof.
  induction fields as [|[k' v'] rest IH]; simpl.
  - intros [->|[]%elem_of_nil]%elem_of_cons. by left.
  - destruct (String.eqb_spec k' k) as [->|].
    + cbn [fmap list_fmap fst]. rewrite !elem_of_cons. tauto.
    + cbn [fmap list_fmap fst]. rewrite !elem_of_cons. intros [->|[->|?]%IH]; auto.
Qed.

Lemma wf_insert k v fields :
  wf_json (JObj fields) → wf_json v → wf_json (JObj (map_insert k v fields)).
Proof.
  rewrite !wf_obj. intros [Hd Hw] Hv. induction fields as [|[k' v'] rest IH]; cbn [map_insert].
  - split; [apply NoDup_singleton|by constructor].
  - rewrite fmap_cons in Hd. apply NoDup_cons in Hd as [Hn Hd]. apply Forall_cons in Hw as [Hv' Hw].
    destruct (String.eqb_spec k' k) as [->|Hne]; rewrite fmap_cons.
    + split; [by apply NoDup_cons|by constructor].
    + destruct (IH Hd Hw) as [Hd' Hw']. split; [|by constructor]. apply NoDup_cons. split; [|done].
      intros [E|E]%elem_insert_keys; [by apply Hne|by apply Hn].
Qed.

(** Removing takes one entry out, whatever the order of the rest. *)
Lemma map_insert_new k v fields : k ∉ fields.*1 → map_insert k v fields = fields ++ [(k, v)].
Proof.
  induction fields as [|[k' v'] fields IH]; intros Hk; [done|]. rewrite fmap_cons in Hk.
  apply not_elem_of_cons in Hk as [Hne Hk]. simpl in *.
  destruct (String.eqb_spec k' k); [by subst|]. by rewrite IH.
Qed.

(** Distinct keys are collected in their order. *)
Lemma collect_map_nodup l : NoDup l.*1 → collect_map l = l.
Proof.
  unfold collect_map. induction l as [|[k v] l IH] using rev_ind; [done|].
  rewrite fmap_app, foldl_snoc. intros (Hd & Hk & _)%NoDup_app. rewrite (IH Hd).
  apply map_insert_new. intros Hin. apply (Hk _ Hin). by left.
Qed.

Lemma remove_present k v l1 l2 :
  k ∉ l1.*1 → (k, v) :: map_remove k (l1 ++ (k, v) :: l2) ≡ₚ l1 ++ (k, v) :: l2.
Proof.
  intros Hn. unfold map_remove.
  assert (∀ lst, (l2 ≠ [] → lst = last l2) →
    (k, v) :: remove_swapping k lst (l1 ++ (k, v) :: l2) ≡ₚ l1 ++ (k, v) :: l2) as Hg.
  { intros lst Hl. induction l1 as [|[k' v'] l1 IH]; simpl.
    - rewrite String.eqb_refl. destruct l2 as [|e l2]; [done|].
      rewrite Hl by done. destruct (exists_last (l := e :: l2)) as (l' & x & El); [done|].
      rewrite El, last_snoc, removelast_last. constructor. apply Permutation_cons_append.
    - rewrite fmap_cons in Hn. apply not_elem_of_cons in Hn as [Hne Hn].
      simpl in Hne. destruct (String.eqb_spec k' k); [congruence|]. etrans; [apply perm_swap|]. constructor. by apply IH. }
  apply Hg. intros Hne. rewrite last_app_cons.
  destruct l2; [done|]. by simpl.
Qed.

Lemma assoc_get_split k v fields :
  assoc_get k fields = Some v → ∃ l1 l2, fields = l1 ++ (k, v) :: l2 ∧ k ∉ l1.*1.
Proof.
  induction fields as [|[k' v'] rest IH]; simpl; [done|].
  destruct (String.eqb_spec k' k) as [->|Hne].
  - intros [= ->]. exists [], rest. split; [done|apply not_elem_of_nil].
  - intros (l1 & l2 & -> & Hn)%IH. exists ((k', v') :: l1), l2. split; [done|].
    cbn [fmap list_fmap fst]. rewrite not_elem_of_cons. auto.
Qed.

Lemma assoc_get_perm k l l' : NoDup l.*1 → l ≡ₚ l' → assoc_get k l = assoc_get k l'.
Proof.
  intros Hd Hp. assert (NoDup l'.*1) as Hd' by by rewrite <- Hp.
  destruct (assoc_get k l) as [v|] eqn:E.
  - apply assoc_get_elem in E; [|done]. symmetry. apply assoc_get_elem; [done|]. by rewrite <- Hp.
  - destruct (assoc_get k l') as [v|] eqn:E'; [|done]. apply assoc_get_elem in E'; [|done].
    rewrite <- Hp in E'. apply assoc_get_elem in E'; [|done]. congruence.
Qed.

Lemma map_remove_perm k v fields :
  assoc_get k fields = Some v → (k, v) :: map_remove k fields ≡ₚ fields.
Proof. intros (l1 & l2 & -> & Hn)%assoc_get_split. by apply remove_present. Qed.

Lemma map_remove_keys k v fields :
  NoDup fields.*1 → assoc_get k fields = Some v →
  NoDup (map_remove k fields).*1 ∧ k ∉ (map_remove k fields).*1.
Proof.
  intros Hd Hp%map_remove_perm. rewrite <- Hp, fmap_cons in Hd.
  by apply NoDup_cons in Hd as [? ?].
Qed.

Lemma assoc_get_none k fields : k ∉ fields.*1 → assoc_get k fields = None.
Proof.
  induction fields as [|[k' v'] rest IH]; [done|]. rewrite fmap_cons.
  intros [Hne Hn]%not_elem_of_cons. simpl in *. destruct (String.eqb_spec k' k); [congruence|auto].
Qed.

Lemma assoc_get_remove k v fields x :
  NoDup fields.*1 → assoc_get k fields = Some v →
  assoc_get x (map_remove k fields) = if String.eqb x k then None else assoc_get x fields.
Proof.
  intros Hd Hg. destruct (map_remove_keys _ _ _ Hd Hg) as [Hd' Hn].
  destruct (String.eqb_spec x k) as [->|Hne]; [by apply assoc_get_none|].
  assert (NoDup ((k, v) :: map_remove k fields).*1) as Hd2 by (rewrite fmap_cons; by apply NoDup_cons).
  rewrite <- (assoc_get_perm x _ _ Hd2 (map_remove_perm _ _ _ Hg)). simpl.
  by destruct (String.eqb_spec k x); [congruence|].
Qed.

Lemma wf_remove k v fields :
  wf_json (JObj fields) → assoc_get k fields = Some v → wf_json (JObj (map_remove k fields)).
Proof.
  rewrite !wf_obj. intros [Hd Hw] Hg. split; [by eapply map_remove_keys|].
  rewrite <- (map_remove_perm _ _ _ Hg) in Hw. by apply Forall_cons in Hw as [_ ?].
Qed.
