(* ===== verification/Text.v ===== *)
(** * Text

    The functions of [std::str] and [char] the components share, on strings of
    UTF-8 bytes. Separators and patterns are ASCII in the sources, and no byte of
    a longer character is ASCII, so a search by bytes finds what a search by
    characters does. *)

From S2P Require Import Prelude.

Definition newline : ascii := "010"%char.
Definition newline_str : string := String newline "".

(** ** Searching and replacing *)

(** [s.replace(p, r)] for a non-empty [p]; [skip] bytes are already consumed. *)
Fixpoint replace_from (skip : nat) (p r s : string) : string :=
  match s with
  | EmptyString => EmptyString
  | String a s' =>
      match skip with
      | S k => replace_from k p r s'
      | O => if Str.starts_with p s then r +:+ replace_from (String.length p - 1) p r s'
             else String a (replace_from 0 p r s')
      end
  end.

Definition str_replace (p r s : string) : string := replace_from 0 p r s.

(** [s.matches(p).count()] *)
Fixpoint count_from (skip : nat) (p s : string) : nat :=
  match s with
  | EmptyString => 0
  | String a s' =>
      match skip with
      | S k => count_from k p s'
      | O => if Str.starts_with p s then S (count_from (String.length p - 1) p s')
             else count_from 0 p s'
      end
  end.

Definition str_matches (p s : string) : nat := count_from 0 p s.

(** [s.contains(p)] *)
Definition str_contains (p s : string) : bool :=
  match Str.find p s with
  | Some _ => true
  | None => false
  end.

(** The longest prefix whose bytes satisfy [f]. *)
Fixpoint take_while (f : ascii → bool) (s : string) : string :=
  match s with
  | EmptyString => EmptyString
  | String a s' => if f a then String a (take_while f s') else EmptyString
  end.

(** [s.chars().count()]: the bytes that begin a character. *)
Fixpoint char_count (s : string) : nat :=
  match s with
  | EmptyString => 0
  | String a s' => (if Str.between 128 191 a then 0 else 1) + char_count s'
  end.

(** [s.rfind(c)]: the last byte offset at which [c] occurs. *)
Fixpoint rfind (c : ascii) (s : string) : option nat :=
  match s with
  | EmptyString => None
  | String a s' =>
      match rfind c s' with
      | Some i => Some (S i)
      | None => if Ascii.eqb a c then Some 0 else None
      end
  end.

(** [s.split_once(c)], [s.rsplit_once(c)] *)
Definition split_once (c : ascii) (s : string) : option (string * string) :=
  match Str.find (String c EmptyString) s with
  | Some i => Some (Str.take i s, Str.drop (S i) s)
  | None => None
  end.

Definition rsplit_once (c : ascii) (s : string) : option (string * string) :=
  match rfind c s with
  | Some i => Some (Str.take i s, Str.drop (S i) s)
  | None => None
  end.

(** [s.split(c)] *)
Fixpoint split_char (c : ascii) (s : string) : list string :=
  match s with
  | EmptyString => [""]
  | String a s' =>
      if Ascii.eqb a c then "" :: split_char c s'
      else match split_char c s' with
           | x :: rest => String a x :: rest
           | [] => [String a EmptyString]
           end
  end.

(** [s.strip_prefix(p)], [s.strip_suffix(p)] *)
Definition strip_prefix (p s : string) : option string :=
  if Str.starts_with p s then Some (Str.drop (String.length p) s) else None.

Definition strip_suffix (p s : string) : option string :=
  if Str.ends_with p s then Some (Str.take (String.length s - String.length p) s) else None.

Definition to_ascii_lowercase (s : string) : string := Str.map Str.to_ascii_lowercase s.

Definition is_ascii_alphabetic (a : ascii) : bool := Str.is_ascii_lower a || Str.is_ascii_upper a.
Definition is_ascii_alphanumeric (a : ascii) : bool := is_ascii_alphabetic a || Str.is_ascii_digit a.

(** Some byte of [s] satisfies [f]. *)
Fixpoint any (f : ascii → bool) (s : string) : bool :=
  match s with
  | EmptyString => false
  | String a s' => f a || any f s'
  end.

(** [s.trim_start_matches(f)], [s.trim_end_matches(f)], [s.trim_matches(f)] for a
    set of ASCII characters. *)
Fixpoint trim_start_matches (f : ascii → bool) (s : string) : string :=
  match s with
  | EmptyString => EmptyString
  | String a s' => if f a then trim_start_matches f s' else s
  end.

Fixpoint trim_end_matches (f : ascii → bool) (s : string) : string :=
  match s with
  | EmptyString => EmptyString
  | String a s' => if Str.all f s then EmptyString else String a (trim_end_matches f s')
  end.

Definition trim_matches (f : ascii → bool) (s : string) : string :=
  trim_end_matches f (trim_start_matches f s).

(** ** White space *)

Definition byte_is (n : nat) (a : ascii) : bool := (nat_of_ascii a =? n)%nat.

(** A single or a double quote. *)
Definition is_quote (a : ascii) : bool := byte_is 39 a || byte_is 34 a.

(** The length in bytes of the white-space character at the head of [s]
    ([char::is_whitespace]); 0 if there is none. *)
Definition ws_len (s : string) : nat :=
  match s with
  | EmptyString => 0
  | String a r =>
      if Str.between 9 13 a || byte_is 32 a then 1
      else match r with
           | EmptyString => 0
           | String b r' =>
               if byte_is 194 a && (byte_is 133 b || byte_is 160 b) then 2
               else match r' with
                    | EmptyString => 0
                    | String c _ =>
                        if (byte_is 225 a && byte_is 154 b && byte_is 128 c)
                           || (byte_is 226 a && byte_is 128 b
                               && (Str.between 128 138 c || byte_is 168 c || byte_is 169 c
                                   || byte_is 175 c))
                           || (byte_is 226 a && byte_is 129 b && byte_is 159 c)
                           || (byte_is 227 a && byte_is 128 b && byte_is 128 c)
                        then 3 else 0
                    end
           end
  end.

(** [s.chars().any(char::is_whitespace)] *)
Fixpoint has_whitespace (s : string) : bool :=
  match s with
  | EmptyString => false
  | String _ s' => (0 <? ws_len s)%nat || has_whitespace s'
  end.

(** [s.trim_start()]; [skip] bytes of a white-space character are left. *)
Fixpoint trim_from (skip : nat) (s : string) : string :=
  match s with
  | EmptyString => EmptyString
  | String _ s' =>
      match skip with
      | S k => trim_from k s'
      | O => match ws_len s with
             | O => s
             | S k => trim_from k s'
             end
      end
  end.

Definition trim_start (s : string) : string := trim_from 0 s.

(** [s.trim().is_empty()] *)
Definition is_blank (s : string) : bool := Str.is_empty (trim_start s).

Fixpoint trim_end (s : string) : string :=
  match s with
  | EmptyString => EmptyString
  | String a s' => if is_blank s then EmptyString else String a (trim_end s')
  end.

Definition trim (s : string) : string := trim_end (trim_start s).

(** [s.split_whitespace()]; [cur] is the word that has begun, [skip] bytes of a
    white-space character are left. *)
Definition finish_word (cur : string) : list string := if Str.is_empty cur then [] else [cur].

Fixpoint words_from (skip : nat) (cur s : string) : list string :=
  match s with
  | EmptyString => finish_word cur
  | String a s' =>
      match skip with
      | S k => words_from k cur s'
      | O => match ws_len s with
             | O => words_from 0 (cur +:+ String a "") s'
             | S k => finish_word cur ++ words_from k "" s'
             end
      end
  end.

Definition split_whitespace (s : string) : list string := words_from 0 "" s.

(** [s.split_once(p)] *)
Definition split_once_str (p s : string) : option (string * string) :=
  n ← Str.find p s; Some (Str.take n s, Str.drop (n + String.length p) s).

(** [s.lines()]: a line feed ends a line, and takes one carriage return before it
    along. *)
Definition carriage_return : ascii := "013"%char.

Fixpoint lines (s : string) : list string :=
  match s with
  | EmptyString => []
  | String a s' =>
      if Ascii.eqb a newline then "" :: lines s'
      else if Ascii.eqb a carriage_return && Str.starts_with newline_str s' then lines s'
      else match lines s' with
           | [] => [String a ""]
           | l :: ls => String a l :: ls
           end
  end.

(** ** Facts *)

Lemma str_contains_spec p s : str_contains p s = true ↔ ∃ u w, s = u +:+ p +:+ w.
Proof.
  unfold str_contains. split.
  - induction s as [|a s IH]; cbn [Str.find]; intros Hc.
    + destruct (Str.starts_with p "") eqn:E; [|done].
      apply Str.starts_with_spec in E as [t ->]. by exists "", t.
    + destruct (Str.starts_with p (String a s)) eqn:E.
      * apply Str.starts_with_spec in E as [t ->]. by exists "", t.
      * destruct (Str.find p s); [|done]. destruct (IH eq_refl) as (u & w & ->).
        by exists (String a u), w.
  - intros (u & w & ->). induction u as [|a u IH].
    + change ("" +:+ p +:+ w) with (p +:+ w).
      assert (Str.starts_with p (p +:+ w) = true) as E by (apply Str.starts_with_spec; eauto).
      destruct (p +:+ w); cbn [Str.find]; by rewrite E.
    + rewrite Str.append_cons. cbn [Str.find].
      destruct (Str.starts_with p _); [done|]. by destruct (Str.find p (u +:+ p +:+ w)).
Qed.

Lemma starts_with_append p s t : Str.starts_with p s = true → Str.starts_with p (s +:+ t) = true.
Proof.
  intros [u ->]%Str.starts_with_spec. apply Str.starts_with_spec. exists (u +:+ t).
  by rewrite Str.append_assoc.
Qed.

Lemma trim_from_idem skip s : trim_from 0 (trim_from skip s) = trim_from skip s.
Proof.
  revert skip. induction s as [|a s IH]; intros skip; [by destruct skip|].
  cbn [trim_from]. destruct skip as [|k]; [|apply IH].
  destruct (ws_len (String a s)) as [|k] eqn:E; [|apply IH]. cbn [trim_from]. by rewrite E.
Qed.

(** [s.trim().is_empty()] *)
Lemma trim_empty s : Str.is_empty (trim s) = is_blank s.
Proof.
  unfold trim, is_blank, trim_start. pose proof (trim_from_idem 0 s) as Hi.
  destruct (trim_from 0 s) as [|a t]; [done|]. cbn [trim_end].
  unfold is_blank, trim_start. by rewrite Hi.
Qed.

Lemma drop_add n m s : Str.drop (n + m) s = Str.drop m (Str.drop n s).
Proof.
  revert s. induction n as [|n IH]; intros s; [by destruct s|].
  destruct s as [|a s]; simpl; [by destruct m|apply IH].
Qed.

Lemma drop_empty n : Str.drop n "" = "".
Proof. by destruct n. Qed.

Lemma take_while_split f s :
  ∃ rest, s = take_while f s +:+ rest ∧ Str.all f (take_while f s) = true ∧
    match rest with EmptyString => True | String a _ => f a = false end.
Proof.
  induction s as [|a s (rest & Hs & Hall & Hr)]; simpl; [by exists ""|].
  destruct (f a) eqn:Hf.
  - exists rest. cbn [Str.all]. rewrite Hf. split; [|done]. by rewrite Str.append_cons, <- Hs.
  - by exists (String a s).
Qed.


(** ** UTF-8 *)

(** The bytes that may follow: how many, and the range of the next one. *)
Definition utf8_lead (a : ascii) : option (nat * nat * nat) :=
  if Str.between 0 127 a then Some (0, 128, 191)%nat
  else if Str.between 194 223 a then Some (1, 128, 191)%nat
  else if byte_is 224 a then Some (2, 160, 191)%nat
  else if byte_is 237 a then Some (2, 128, 159)%nat
  else if Str.between 225 239 a then Some (2, 128, 191)%nat
  else if byte_is 240 a then Some (3, 144, 191)%nat
  else if Str.between 241 243 a then Some (3, 128, 191)%nat
  else if byte_is 244 a then Some (3, 128, 143)%nat
  else None.

Fixpoint utf8_from (more lo hi : nat) (s : string) : bool :=
  match s with
  | EmptyString => (more =? 0)%nat
  | String a s' =>
      match more with
      | O => match utf8_lead a with
             | Some (n, l, h) => utf8_from n l h s'
             | None => false
             end
      | S n => Str.between lo hi a && utf8_from n 128 191 s'
      end
  end.

(** [String::from_utf8(bytes).is_ok()] *)
Definition is_utf8 (s : string) : bool := utf8_from 0 128 191 s.

(** [c.is_control()] of the first character: C0, DEL, and C1, which in UTF-8 is
    the byte C2 and one below A0. *)
Definition is_control (a : ascii) (rest : string) : bool :=
  Str.between 0 31 a || byte_is 127 a
  || (byte_is 194 a && match rest with
                       | String b _ => Str.between 128 159 b
                       | EmptyString => false
                       end).

(** [all(|c| !c.is_control() || matches!(c, '\n' | '\r' | '\t'))] *)
Fixpoint is_plain_text (s : string) : bool :=
  match s with
  | EmptyString => true
  | String a s' =>
      (negb (is_control a s') || byte_is 10 a || byte_is 13 a || byte_is 9 a) && is_plain_text s'
  end.
