(* ===== verification/Holes.v ===== *)
(** * Texts with holes

    Replacing byte ranges of a text by placeholders, as the redaction of findings
    (vigil-redaction), of what a model reports (vigil-daemon-ipc) and of the
    credentials in a request (vigil-outbound) do: ranges are sorted, overlapping
    ones united, and replaced from right to left. *)

From Stdlib Require Import Sorting.Sorted.
From S2P Require Import Prelude Text.

(** [s.is_char_boundary(i)]: not past the end, and not inside a character. *)
Definition is_char_boundary (s : string) (i : nat) : bool :=
  if (i =? 0)%nat then true
  else if (i =? String.length s)%nat then true
  else match String.get i s with
       | Some a => negb (Str.between 128 191 a)
       | None => false
       end.

(** The largest boundary at or below [end_]. *)
Fixpoint boundary_below (text : string) (end_ : nat) : nat :=
  match end_ with
  | O => O
  | S n => if is_char_boundary text end_ then end_ else boundary_below text n
  end.

(** An interval to replace, with the kind that names it. *)
Record Hole := mkHole { h_start : nat; h_end : nat; h_kind : string }.

(** Start ascending, then end descending. *)
Definition hole_leb (a b : Hole) : bool :=
  (h_start a <? h_start b)%nat
  || ((h_start a =? h_start b)%nat && (h_end b <=? h_end a)%nat).

(** The union of overlapping holes; [last] is [merged.last_mut()]. *)
Fixpoint union_spans (last : Hole) (hs : list Hole) : list Hole :=
  match hs with
  | [] => [last]
  | h :: rest =>
      if (h_start h <? h_end last)%nat then
        union_spans
          (if (h_end last <? h_end h)%nat
           then mkHole (h_start last) (h_end h) (h_kind last) else last)
          rest
      else last :: union_spans h rest
  end.

Definition union_of (hs : list Hole) : list Hole :=
  match hs with
  | [] => []
  | h :: rest => union_spans h rest
  end.

(** [out.replace_range(start..end, placeholder)], from right to left. *)
Definition replace_hole (ph : string → string) (h : Hole) (out : string) : string :=
  Str.take (h_start h) out +:+ ph (h_kind h) +:+ Str.drop (h_end h) out.

Definition replace_holes (ph : string → string) (hs : list Hole) (out : string) : string :=
  foldr (replace_hole ph) out hs.
#[global] Arguments replace_holes : simpl never.

(** ** Vocabulary *)

(** The texts hold the same bytes at the positions of [P]. *)
Definition agree_on (P : nat → Prop) (s t : string) : Prop :=
  String.length s = String.length t ∧ ∀ i, P i → String.get i s = String.get i t.



Definition in_hole (i : nat) (h : Hole) : Prop := (h_start h ≤ i < h_end h)%nat.

(** Holes in order, each after the one before. *)
Fixpoint ordered (p : nat) (hs : list Hole) : Prop :=
  match hs with
  | [] => True
  | h :: rest => (p ≤ h_start h ≤ h_end h)%nat ∧ ordered (h_end h) rest
  end.

(** The text between two positions. *)
Definition slice (p q : nat) (s : string) : string := Str.drop p (Str.take q s).

(** What replacing the holes makes of the bytes from [p] on: the text between the
    holes is kept, each hole is its placeholder. *)
Fixpoint assembled (ph : string → string) (p : nat) (hs : list Hole) (s : string) : string :=
  match hs with
  | [] => Str.drop p s
  | h :: rest =>
      slice p (h_start h) s +:+ ph (h_kind h) +:+ assembled ph (h_end h) rest s
  end.

Definition within (n : nat) (hs : list Hole) : Prop := Forall (λ h, h_end h ≤ n)%nat hs.

(** ** Bytes of a text *)

Lemma get_ext s t :
  String.length s = String.length t → (∀ i, String.get i s = String.get i t) → s = t.
Proof.
  revert t; induction s as [|a s IH]; intros [|b t]; simpl; try done.
  intros [= Hl] Hi. f_equal; [by specialize (Hi 0%nat) as [= ->]|].
  apply IH; [done|]. intros i. apply (Hi (S i)).
Qed.

Lemma get_lt i s a : String.get i s = Some a → (i < String.length s)%nat.
Proof.
  revert i; induction s as [|b s IH]; intros [|i]; simpl; try done; [lia|].
  intros Hg%IH. lia.
Qed.

Lemma drop_ext n s t :
  agree_on (λ i, n ≤ i)%nat s t → Str.drop n s = Str.drop n t.
Proof.
  revert s t; induction n as [|n IH]; intros s t [Hl Hi]; simpl.
  - apply get_ext; [done|]. intros i. apply Hi. lia.
  - destruct s as [|a s], t as [|b t]; try done. injection Hl as Hl. apply IH. split; [done|].
    intros i Hn. apply (Hi (S i)). lia.
Qed.

Lemma window_ext p q s t :
  agree_on (λ i, p ≤ i < q)%nat s t → Str.drop p (Str.take q s) = Str.drop p (Str.take q t).
Proof.
  revert p s t; induction q as [|q IH]; intros p s t [Hl Hi].
  { by destruct s, t. }
  destruct s as [|a s], t as [|b t]; try done. injection Hl as Hl. cbn [Str.take].
  destruct p as [|p]; cbn [Str.drop].
  - assert (a = b) as <- by (specialize (Hi 0%nat); simpl in Hi; injection Hi; [done|lia]).
    f_equal. apply (IH 0%nat). split; [done|]. intros i Hn. apply (Hi (S i)). lia.
  - apply IH. split; [done|]. intros i Hn. apply (Hi (S i)). lia.
Qed.

Lemma drop_append n s t :
  (n ≤ String.length s)%nat → Str.drop n (s +:+ t) = Str.drop n s +:+ t.
Proof.
  revert s; induction n as [|n IH]; intros s Hn; [done|].
  destruct s as [|a s]; simpl in Hn; [lia|]. rewrite Str.append_cons. cbn [Str.drop].
  apply IH. lia.
Qed.

Lemma take_append n s t :
  (n ≤ String.length s)%nat → Str.take n (s +:+ t) = Str.take n s.
Proof.
  revert s; induction n as [|n IH]; intros s Hn; [by destruct s, t|].
  destruct s as [|a s]; simpl in Hn; [lia|]. rewrite Str.append_cons. cbn [Str.take].
  f_equal. apply IH. lia.
Qed.

Lemma take_take n m s : (n ≤ m)%nat → Str.take n (Str.take m s) = Str.take n s.
Proof.
  revert m s; induction n as [|n IH]; intros m s Hn; [by destruct m, s|].
  destruct m as [|m]; [lia|]. destruct s as [|a s]; [done|]. cbn [Str.take]. f_equal.
  apply IH. lia.
Qed.

Lemma take_drop_split n s : s = Str.take n s +:+ Str.drop n s.
Proof.
  revert s; induction n as [|n IH]; intros [|a s]; try done. cbn [Str.take Str.drop].
  rewrite Str.append_cons. by rewrite <- IH.
Qed.

Lemma drop_drop n m s : Str.drop n (Str.drop m s) = Str.drop (m + n) s.
Proof. revert s; induction m as [|m IH]; intros [|a s]; try done; [by destruct n|apply IH]. Qed.

Lemma length_drop n s : String.length (Str.drop n s) = (String.length s - n)%nat.
Proof. revert s; induction n as [|n IH]; intros [|a s]; try done. apply IH. Qed.

Lemma slice_split p a b s :
  (p ≤ a ≤ b)%nat → (a ≤ String.length s)%nat → slice p b s = slice p a s +:+ slice a b s.
Proof.
  intros Hp Ha. unfold slice. rewrite <- (take_take a b) by lia.
  rewrite (take_drop_split a (Str.take b s)) at 1. rewrite take_take by lia.
  rewrite drop_append; [done|]. rewrite Str.length_take; lia.
Qed.

Lemma slice_empty a s : slice a a s = "".
Proof.
  unfold slice. revert s; induction a as [|a IH]; intros [|c s]; try done. apply IH.
Qed.

Lemma drop_slice p a b s :
  (p ≤ a ≤ b)%nat → (b ≤ String.length s)%nat →
  Str.drop p s = slice p a s +:+ slice a b s +:+ Str.drop b s.
Proof.
  intros Hp Hb. rewrite Str.append_assoc, <- slice_split by lia.
  rewrite (take_drop_split b s) at 1. rewrite drop_append; [done|]. rewrite Str.length_take; lia.
Qed.

Lemma slice_slice p a b q s :
  (p ≤ a ≤ b)%nat → (b ≤ q)%nat → (q ≤ String.length s)%nat →
  slice p q s = slice p a s +:+ slice a b s +:+ slice b q s.
Proof.
  intros Hp Hb Hq. rewrite (slice_split p a q), (slice_split a b q) by lia. done.
Qed.

(** ** Replacing holes *)

Lemma ordered_weaken p q hs : (q ≤ p)%nat → ordered p hs → ordered q hs.
Proof. destruct hs; [done|]. simpl. intros ? [? ?]. split; [lia|done]. Qed.

Lemma ordered_covers p hs i : ordered p hs → Exists (in_hole i) hs → (p ≤ i)%nat.
Proof.
  revert p; induction hs as [|h hs IH]; intros p; simpl.
  - intros _ Hex. by inversion Hex.
  - intros [Hp Ho] [Hi|Hi]%Exists_cons; [unfold in_hole in Hi; lia|].
    specialize (IH _ Ho Hi). lia.
Qed.

Lemma ordered_app p q hs hs' :
  ordered p hs → within q hs → (p ≤ q)%nat → ordered q hs' → ordered p (hs ++ hs').
Proof.
  revert p; induction hs as [|h hs IH]; intros p; simpl.
  - intros _ _ Hq. by apply ordered_weaken.
  - intros [Hp Ho] [Hh Hw]%Forall_cons Hq Ho'. split; [done|]. by apply IH.
Qed.

Lemma boundary_le s i : is_char_boundary s i = true → (i ≤ String.length s)%nat.
Proof.
  unfold is_char_boundary. destruct (Nat.eqb_spec i 0); [lia|].
  destruct (Nat.eqb_spec i (String.length s)); [lia|].
  destruct (String.get i s) eqn:E; [|done]. intros _. apply get_lt in E. lia.
Qed.

(** A stretch that shares no byte with holes that are not empty lies between them. *)
Lemma disjoint_holes a b hs :
  (a < b)%nat → Forall (λ h, h_start h < h_end h)%nat hs →
  (∀ i, (a ≤ i < b)%nat → ¬ Exists (in_hole i) hs) →
  Forall (λ h, b ≤ h_start h ∨ h_end h ≤ a)%nat hs.
Proof.
  intros Hab Hne Hd. apply Forall_forall. intros h Hh. rewrite Forall_forall in Hne.
  specialize (Hne h Hh). destruct (decide (b ≤ h_start h)%nat); [by left|].
  destruct (decide (h_end h ≤ a)%nat); [by right|].
  destruct (Hd (Nat.max a (h_start h))); [lia|]. apply Exists_exists. exists h.
  split; [done|]. unfold in_hole. lia.
Qed.

Lemma replace_holes_cons ph h hs s :
  replace_holes ph (h :: hs) s
  = Str.take (h_start h) (replace_holes ph hs s) +:+ ph (h_kind h)
    +:+ Str.drop (h_end h) (replace_holes ph hs s).
Proof. done. Qed.

Section Replace.
Context (ph : string → string).

(** Replacing the holes does not touch what is before the first. *)
Lemma replaced_prefix p input hs :
  ordered p hs → within (String.length input) hs → (p ≤ String.length input)%nat →
  Str.take p (replace_holes ph hs input) = Str.take p input.
Proof.
  revert p; induction hs as [|h hs IH]; intros p; [done|]. simpl.
  intros [Hp Ho] [Hw Hws]%Forall_cons Hlen.
  assert (Str.take (h_start h) (replace_holes ph hs input) = Str.take (h_start h) input) as E.
  { apply IH; [by eapply ordered_weaken; [|exact Ho]; lia|done|lia]. }
  rewrite (replace_holes_cons ph h hs), E, take_append.
  - apply take_take. lia.
  - rewrite Str.length_take; lia.
Qed.

(** Right to left is left to right: the text is assembled from what is between
    the holes. *)
Lemma replaced_assembled p s hs :
  ordered p hs → within (String.length s) hs → (p ≤ String.length s)%nat →
  Str.drop p (replace_holes ph hs s) = assembled ph p hs s.
Proof.
  revert p; induction hs as [|h hs IH]; intros p; [done|]. simpl.
  intros [Hp Ho] [Hw Hws]%Forall_cons Hlen. rewrite (replace_holes_cons ph h hs).
  rewrite replaced_prefix; [|by eapply ordered_weaken; [|exact Ho]; lia|done|lia].
  rewrite drop_append by (rewrite Str.length_take; lia). by rewrite IH by (done || lia).
Qed.

Lemma replaced_whole s hs :
  ordered 0 hs → within (String.length s) hs →
  replace_holes ph hs s = assembled ph 0 hs s.
Proof. intros Ho Hw. apply (replaced_assembled 0); [done|done|lia]. Qed.

(** It depends on no byte of a hole. *)
Lemma assembled_agree p s t hs :
  ordered p hs → agree_on (λ i, p ≤ i ∧ ¬ Exists (in_hole i) hs)%nat s t →
  assembled ph p hs s = assembled ph p hs t.
Proof.
  revert p; induction hs as [|h hs IH]; intros p; simpl.
  - intros _ [Hl Hi]. apply drop_ext. split; [done|]. intros i Hn. apply Hi. split; [done|].
    intros Hex. by inversion Hex.
  - intros [Hp Ho] [Hl Hi]. f_equal; [|f_equal].
    + apply window_ext. split; [done|]. intros i Hn. apply Hi. split; [lia|].
      intros [Hin|Hin]%Exists_cons; [unfold in_hole in Hin; lia|].
      apply (ordered_covers _ _ _ Ho) in Hin. lia.
    + apply IH; [done|]. split; [done|]. intros i [Hn Hni]. apply Hi. split; [lia|].
      intros [Hin|Hin]%Exists_cons; [unfold in_hole in Hin; lia|done].
Qed.

(** A stretch of text that no hole touches is still there. *)
Lemma assembled_keeps p s hs a b :
  ordered p hs → within (String.length s) hs → (p ≤ a ≤ b)%nat → (b ≤ String.length s)%nat →
  Forall (λ h, b ≤ h_start h ∨ h_end h ≤ a)%nat hs →
  ∃ u w, assembled ph p hs s = u +:+ slice a b s +:+ w.
Proof.
  revert p; induction hs as [|h hs IH]; intros p; simpl.
  - intros _ _ Hp Hb _. rewrite (drop_slice p a b) by lia. eauto.
  - intros [Hp Ho] [Hw Hws]%Forall_cons Ha Hb [Hh Hhs]%Forall_cons.
    destruct (decide (h_end h ≤ a)%nat) as [Hle|Hle].
    + destruct (IH (h_end h)) as (u & w & ->); [done|done|lia|done|done|].
      exists (slice p (h_start h) s +:+ ph (h_kind h) +:+ u), w. by rewrite !Str.append_assoc.
    + destruct Hh as [Hh|]; [|lia]. rewrite (slice_slice p a b) by lia.
      rewrite <- !Str.append_assoc. eauto.
Qed.
End Replace.

(** ** The union of the spans *)

Definition starts_from (p : nat) (hs : list Hole) : Prop :=
  StronglySorted (λ a b, h_start a ≤ h_start b)%nat hs
  ∧ Forall (λ h, p ≤ h_start h ≤ h_end h)%nat hs.

Lemma starts_from_cons p h hs :
  starts_from p (h :: hs) → (p ≤ h_start h ≤ h_end h)%nat ∧ starts_from (h_start h) hs.
Proof.
  intros [Hs [Hf Hfs]%Forall_cons]. inversion_clear Hs as [|? ? Hs' Hle]. split; [done|].
  split; [done|]. rewrite Forall_forall in *. intros x Hx.
  specialize (Hfs x Hx). specialize (Hle x Hx). lia.
Qed.

Lemma union_spans_spec last hs n :
  starts_from (h_start last) hs → (h_start last ≤ h_end last ≤ n)%nat → within n hs →
  ordered (h_start last) (union_spans last hs) ∧ within n (union_spans last hs) ∧
  ∀ i, Exists (in_hole i) (union_spans last hs) ↔ in_hole i last ∨ Exists (in_hole i) hs.
Proof.
  revert last; induction hs as [|[s e k] hs IH]; intros last Hs Hl Hn; simpl.
  { split; [lia|]. split; [constructor; [lia|constructor]|].
    intros i. rewrite Exists_cons, !Exists_nil. naive_solver. }
  apply starts_from_cons in Hs as [Hf Hfs]. apply Forall_cons in Hn as [Hnf Hn]. simpl in *.
  destruct (s <? h_end last)%nat eqn:E1.
  - apply Nat.ltb_lt in E1.
    set (last' := if (h_end last <? e)%nat then _ else _).
    assert (h_start last' = h_start last ∧ h_end last' = Nat.max (h_end last) e) as [Es Ee].
    { unfold last'. destruct (h_end last <? e)%nat eqn:E2; simpl.
      - apply Nat.ltb_lt in E2. lia.
      - apply Nat.ltb_ge in E2. lia. }
    destruct (IH last') as (Ho & Hw & Hi).
    + rewrite Es. destruct Hfs as [Hs Hf']. split; [done|].
      eapply Forall_impl; [exact Hf'|]. simpl. lia.
    + rewrite Es, Ee. lia.
    + done.
    + rewrite Es in Ho. split_and!; [done|done|]. intros i.
      rewrite Hi, Exists_cons. unfold in_hole. simpl. rewrite Es, Ee. split.
      * intros [?|?]; [|by right; right]. destruct (decide (i < h_end last)%nat); [left; lia|].
        right. left. lia.
      * intros [?|[?|?]]; [left; lia|left; lia|by right].
  - apply Nat.ltb_ge in E1.
    destruct (IH (mkHole s e k)) as (Ho & Hw & Hi); simpl in *; [done|lia|done|].
    split_and!.
    + lia.
    + lia.
    + eapply ordered_weaken; [|exact Ho]. lia.
    + constructor; [lia|done].
    + intros i. rewrite Exists_cons, Hi, Exists_cons. tauto.
Qed.

Lemma union_of_spec hs n :
  starts_from 0 hs → within n hs →
  ordered 0 (union_of hs) ∧ within n (union_of hs) ∧
  ∀ i, Exists (in_hole i) (union_of hs) ↔ Exists (in_hole i) hs.
Proof.
  destruct hs as [|h hs]; [intros _ _; split_and!; [done|constructor|done]|]. intros Hs [Hh Hn]%Forall_cons.
  apply starts_from_cons in Hs as [Hl Hs].
  destruct (union_spans_spec h hs n) as (Ho & Hw & Hi); [done|lia|done|].
  split_and!; [eapply ordered_weaken; [|exact Ho]; lia|done|].
  intros i. unfold union_of. by rewrite Hi, Exists_cons.
Qed.

(** A union begins where one of its parts begins and ends where one ends. *)
Lemma union_of_bounds (P : nat → Prop) hs :
  Forall (λ h, P (h_start h) ∧ P (h_end h)) hs →
  Forall (λ h, P (h_start h) ∧ P (h_end h)) (union_of hs).
Proof.
  destruct hs as [|h hs]; [done|]. intros [Hh Hhs]%Forall_cons. unfold union_of. revert h Hh.
  induction Hhs as [|x hs Hx _ IH]; intros h Hh; cbn [union_spans]; [by constructor|].
  destruct (h_start x <? h_end h)%nat; [|constructor; [done|by apply IH]].
  apply IH. destruct (h_end h <? h_end x)%nat; [split; [apply Hh|apply Hx]|done].
Qed.

(** Non-empty holes have a non-empty union. *)
Lemma union_of_nonempty hs :
  Forall (λ h, h_start h < h_end h)%nat hs → Forall (λ h, h_start h < h_end h)%nat (union_of hs).
Proof.
  destruct hs as [|h hs]; [done|]. intros [Hh Hhs]%Forall_cons. unfold union_of. revert h Hh.
  induction Hhs as [|x hs Hx _ IH]; intros h Hh; cbn [union_spans]; [by constructor|].
  destruct (h_start x <? h_end h)%nat; [|constructor; [done|by apply IH]].
  apply IH. destruct (h_end h <? h_end x)%nat eqn:E; [|done]. apply Nat.ltb_lt in E. simpl. lia.
Qed.

Lemma hole_leb_total a b : hole_leb a b = true ∨ hole_leb b a = true.
Proof.
  unfold hole_leb. rewrite !orb_true_iff, !andb_true_iff, !Nat.ltb_lt, !Nat.eqb_eq, !Nat.leb_le.
  lia.
Qed.

Lemma hole_leb_trans a b c : hole_leb a b = true → hole_leb b c = true → hole_leb a c = true.
Proof.
  unfold hole_leb. rewrite !orb_true_iff, !andb_true_iff, !Nat.ltb_lt, !Nat.eqb_eq, !Nat.leb_le.
  lia.
Qed.

Lemma hole_leb_le a b : hole_leb a b = true → (h_start a ≤ h_start b)%nat.
Proof.
  unfold hole_leb. rewrite orb_true_iff, andb_true_iff, Nat.ltb_lt, Nat.eqb_eq. lia.
Qed.

Lemma sorted_filter {A} (R : A → A → Prop) (p : A → bool) l :
  StronglySorted R l → StronglySorted R (List.filter p l).
Proof.
  induction 1 as [|x l Hs IH Hf]; simpl; [constructor|].
  destruct (p x); [|done]. constructor; [done|]. rewrite Forall_forall in *.
  intros y Hy%list_elem_of_In. apply filter_In in Hy as [Hy _]. apply Hf. by apply list_elem_of_In.
Qed.

Lemma sorted_impl {A} (R S : A → A → Prop) l :
  (∀ x y, R x y → S x y) → StronglySorted R l → StronglySorted S l.
Proof.
  intros Himp. induction 1 as [|x l Hs IH Hf]; constructor; [done|].
  eapply Forall_impl; [exact Hf|]. intros y. apply Himp.
Qed.

Lemma sorted_map {A B} (R : B → B → Prop) (f : A → B) l :
  StronglySorted (λ x y, R (f x) (f y)) l → StronglySorted R (f <$> l).
Proof.
  induction 1 as [|x l Hs IH Hf]; simpl; constructor; [done|]. by apply Forall_fmap.
Qed.

(** ** Positions in an assembled text

    Where the placeholders of a text with holes are, and where a position of the
    text before has moved to. *)


(** Every hole begins at or after where the first may. *)
Lemma ordered_later p hs h : ordered p hs → h ∈ hs → (p ≤ h_start h)%nat.
Proof.
  revert p; induction hs as [|x hs IH]; intros p; [by intros _ []%elem_of_nil|].
  intros [Hp Ho] [->|Hh]%elem_of_cons; [lia|]. specialize (IH _ Ho Hh). lia.
Qed.

Section Places.
Context (ph : string → string).

(** What is written up to the end of the last hole, and that end. *)
Fixpoint emitted (p : nat) (hs : list Hole) (s : string) : string :=
  match hs with
  | [] => ""
  | h :: rest => slice p (h_start h) s +:+ ph (h_kind h) +:+ emitted (h_end h) rest s
  end.

Fixpoint end_of (p : nat) (hs : list Hole) : nat :=
  match hs with
  | [] => p
  | h :: rest => end_of (h_end h) rest
  end.

(** The ranges of the placeholders, [n] being the position where the text from [p]
    on is written. *)
Fixpoint places (n p : nat) (hs : list Hole) : list (nat * nat) :=
  match hs with
  | [] => []
  | h :: rest =>
      let a := (n + (h_start h - p))%nat in
      let b := (a + String.length (ph (h_kind h)))%nat in
      (a, b) :: places b (h_end h) rest
  end.

(** Where position [q] of the text is written. *)
Fixpoint moved (n p : nat) (hs : list Hole) (q : nat) : nat :=
  match hs with
  | [] => (n + (q - p))%nat
  | h :: rest =>
      if (h_end h <=? q)%nat
      then moved (n + (h_start h - p) + String.length (ph (h_kind h))) (h_end h) rest q
      else (n + (q - p))%nat
  end.

Definition outside (q : nat) (hs : list Hole) : Prop :=
  Forall (λ h, q ≤ h_start h ∨ h_end h ≤ q)%nat hs.

Lemma length_slice a b s :
  (a ≤ b)%nat → (b ≤ String.length s)%nat → String.length (slice a b s) = (b - a)%nat.
Proof. intros Ha Hb. unfold slice. rewrite length_drop, Str.length_take by done. done. Qed.

Lemma assembled_emitted p hs s :
  assembled ph p hs s = emitted p hs s +:+ Str.drop (end_of p hs) s.
Proof.
  revert p; induction hs as [|h hs IH]; intros p; cbn [assembled emitted end_of]; [done|].
  by rewrite IH, !Str.append_assoc.
Qed.

Lemma slice_append_r u v a b :
  slice (String.length u + a) (String.length u + b) (u +:+ v) = slice a b v.
Proof.
  unfold slice. induction u as [|c u IH]; [done|]. rewrite Str.append_cons. apply IH.
Qed.

Lemma slice_append_l u v a b :
  (b ≤ String.length u)%nat → slice a b (u +:+ v) = slice a b u.
Proof. intros Hb. unfold slice. by rewrite take_append. Qed.

Lemma slice_of_slice p q a b s :
  (p ≤ a ≤ b)%nat → (b ≤ q)%nat → (q ≤ String.length s)%nat →
  slice (a - p) (b - p) (slice p q s) = slice a b s.
Proof.
  intros Ha Hb Hq. rewrite (slice_slice p a b q) by lia.
  rewrite <- (length_slice p a s) at 1 by lia.
  replace (b - p)%nat with (String.length (slice p a s) + (b - a))%nat
    by (rewrite length_slice by lia; lia).
  replace (String.length (slice p a s)) with (String.length (slice p a s) + 0)%nat at 1 by lia.
  rewrite slice_append_r, slice_append_l by (rewrite length_slice by lia; lia).
  unfold slice at 1. cbn [Str.drop]. rewrite <- (length_slice a b s) by lia.
  rewrite <- (Str.append_nil_r (slice a b s)) at 2. by rewrite Str.take_length_append.
Qed.

Lemma slice_whole s : slice 0 (String.length s) s = s.
Proof.
  unfold slice. cbn [Str.drop]. rewrite <- (Str.append_nil_r s) at 2.
  by rewrite Str.take_length_append.
Qed.

Lemma drop_slice_end p s : Str.drop p s = slice p (String.length s) s.
Proof.
  unfold slice. f_equal. rewrite <- (Str.append_nil_r s) at 3. by rewrite Str.take_length_append.
Qed.

(** A stretch that no hole touches is found where its ends have moved to. *)
Lemma moved_text n p hs s u a b :
  String.length u = n → ordered p hs → Forall (λ h, h_start h < h_end h)%nat hs →
  within (String.length s) hs → (p ≤ a < b)%nat → (b ≤ String.length s)%nat →
  Forall (λ h, b ≤ h_start h ∨ h_end h ≤ a)%nat hs →
  slice (moved n p hs a) (moved n p hs b) (u +:+ assembled ph p hs s) = slice a b s.
Proof.
  revert n p u; induction hs as [|h hs IH]; intros n p u Hu Ho Hne Hw Ha Hb Hd;
    cbn [moved assembled].
  - rewrite <- Hu, slice_append_r, drop_slice_end. by apply slice_of_slice; lia.
  - destruct Ho as [Hp Ho]. apply Forall_cons in Hne as [Hh Hne]. apply Forall_cons in Hw as [Hwh Hw].
    apply Forall_cons in Hd as [Hdh Hd].
    assert (String.length (slice p (h_start h) s) = h_start h - p)%nat as Hl
      by (apply length_slice; lia).
    destruct (Nat.leb_spec (h_end h) a) as [Hle|Hlt].
    + rewrite (proj2 (Nat.leb_le _ b)) by lia. rewrite (Str.append_assoc (slice _ _ _)), Str.append_assoc.
      apply IH; try done; [|lia]. rewrite !Str.length_append, Hl. lia.
    + destruct Hdh as [Hdh|]; [|lia]. rewrite (proj2 (Nat.leb_gt _ b)) by lia.
      rewrite <- Hu, slice_append_r, slice_append_l by lia. by apply slice_of_slice; lia.
Qed.

(** The placeholders are where their holes have moved to. *)
Lemma places_moved n p hs :
  ordered p hs → Forall (λ h, h_start h < h_end h)%nat hs →
  places n p hs = (λ h, (moved n p hs (h_start h), moved n p hs (h_end h))) <$> hs.
Proof.
  revert n p; induction hs as [|h hs IH]; intros n p; [done|]. intros [Hp Ho] [Hh Hne]%Forall_cons.
  rewrite fmap_cons. cbn [places moved]. rewrite (proj2 (Nat.leb_gt _ _)) by done.
  rewrite Nat.leb_refl. f_equal.
  - f_equal. destruct hs as [|h' hs]; cbn [moved]; [lia|]. destruct Ho as [Hp' _].
    apply Forall_cons in Hne as [? _]. rewrite (proj2 (Nat.leb_gt _ _)) by lia. lia.
  - rewrite (IH _ _ Ho Hne). apply list_fmap_ext. intros i h' Hi.
    apply list_elem_of_lookup_2 in Hi.
    assert (h_end h ≤ h_start h')%nat as Hge by (by eapply ordered_later).
    assert (h_start h' < h_end h')%nat by (by eapply Forall_forall in Hne).
    by rewrite !(proj2 (Nat.leb_le _ _)) by lia.
Qed.

(** Positions keep their order. *)
Lemma moved_ge n p hs q : (n ≤ moved n p hs q)%nat.
Proof.
  revert n p; induction hs as [|h hs IH]; intros n p; cbn [moved]; [lia|].
  destruct (h_end h <=? q)%nat; [|lia]. etransitivity; [|apply IH]. lia.
Qed.

Lemma moved_mono n p hs a b :
  ordered p hs → outside a hs → (p ≤ a ≤ b)%nat → (moved n p hs a ≤ moved n p hs b)%nat.
Proof.
  revert n p; induction hs as [|h hs IH]; intros n p; cbn [moved]; [lia|].
  intros [Hp Ho] [Hh Hout]%Forall_cons Ha.
  destruct (Nat.leb_spec (h_end h) a), (Nat.leb_spec (h_end h) b); [|lia| |lia].
  - apply IH; [done|done|lia].
  - etransitivity; [|apply moved_ge]. lia.
Qed.

Lemma moved_le n p hs s q :
  ordered p hs → within (String.length s) hs → outside q hs → (p ≤ q ≤ String.length s)%nat →
  (moved n p hs q ≤ n + String.length (assembled ph p hs s))%nat.
Proof.
  revert n p; induction hs as [|h hs IH]; intros n p; cbn [moved assembled].
  - intros _ _ _ Hq. rewrite length_drop. lia.
  - intros [Hp Ho] [Hwh Hw]%Forall_cons [Hh Hout]%Forall_cons Hq.
    rewrite !Str.length_append, length_slice by lia.
    destruct (Nat.leb_spec (h_end h) q); [|lia].
    etransitivity; [apply IH; [done|done|done|lia]|]. lia.
Qed.

(** Each placeholder stands in its place. *)
Lemma places_text n p hs s u v :
  String.length u = n → ordered p hs → within (String.length s) hs → (p ≤ String.length s)%nat →
  Forall2 (λ r h, slice r.1 r.2 (u +:+ emitted p hs s +:+ v) = ph (h_kind h)) (places n p hs) hs.
Proof.
  revert n p u; induction hs as [|h hs IH]; intros n p u Hu Ho Hw Hp; cbn [places emitted]; [done|].
  destruct Ho as [Hp' Ho]. apply Forall_cons in Hw as [Hwh Hw].
  assert (String.length (slice p (h_start h) s) = h_start h - p)%nat as Hl
    by (apply length_slice; lia).
  constructor.
  - cbn [fst snd]. rewrite <- !Str.append_assoc, <- Hu, <- Hl.
    rewrite (Str.append_assoc u), <- (Str.length_append u).
    set (w := u +:+ _). replace (String.length w) with (String.length w + 0)%nat at 1 by lia.
    rewrite slice_append_r, slice_append_l by done. apply slice_whole.
  - specialize (IH (n + (h_start h - p) + String.length (ph (h_kind h)))%nat (h_end h)
      (u +:+ slice p (h_start h) s +:+ ph (h_kind h))).
    rewrite <- !Str.append_assoc in IH. rewrite <- !Str.append_assoc. apply IH; [|done|done|lia].
    rewrite !Str.length_append, Hl. lia.
Qed.
End Places.
