(* ===== verification/Wire.v ===== *)
(** * Applying what the daemon found

    [src/crates/vigil-daemon-ipc/src/wire.rs]: a resident process runs the
    privacy model and reports spans of a text; its client replaces them. Spans
    may overlap, and may reach into placeholders the client itself has written
    before ([protected]), which are to stay whole. *)

From Stdlib Require Import Sorting.Sorted.
From S2P Require Import Prelude Text Holes.

Record WireFinding := mkWireFinding {
  wf_label : string;
  wf_start : nat;
  wf_end : nat;
}.

Definition cap_to_char_boundary (s : string) (cap : nat) : string :=
  if (String.length s <=? cap)%nat then s else Str.take (boundary_below s cap) s.

(** The ASCII letters, digits and underscores of a text. *)
Fixpoint label_chars (s : string) : string :=
  match s with
  | EmptyString => EmptyString
  | String c s' =>
      if is_ascii_alphanumeric c || Ascii.eqb c "_" then String c (label_chars s')
      else label_chars s'
  end.

Definition safe_label (label : string) : string :=
  let cleaned := Str.take 32 (label_chars label) in
  if Str.is_empty cleaned then "pii" else cleaned.

(** ** Ranges *)

Definition clamp (start end_ : nat) (p : nat * nat) : nat * nat :=
  (Nat.max p.1 start, Nat.min p.2 end_).

Definition range_leb (a b : nat * nat) : bool :=
  (a.1 <? b.1)%nat || ((a.1 =? b.1)%nat && (a.2 <=? b.2)%nat).

(** What is left of [cursor..end] between the blocks. *)
Fixpoint gaps (cursor end_ : nat) (blocks : list (nat * nat)) : list (nat * nat) :=
  match blocks with
  | [] => if (cursor <? end_)%nat then [(cursor, end_)] else []
  | (a, b) :: rest =>
      (if (cursor <? a)%nat then [(cursor, a)] else [])
      ++ gaps (if (cursor <? b)%nat then b else cursor) end_ rest
  end.

Definition blocks_within (start end_ : nat) (protected : list (nat * nat)) : list (nat * nat) :=
  List.filter (λ b, b.1 <? b.2)%nat (clamp start end_ <$> protected).

Definition subtract_ranges (start end_ : nat) (protected : list (nat * nat))
    : list (nat * nat) :=
  if (end_ <=? start)%nat then []
  else
    match blocks_within start end_ protected with
    | [] => [(start, end_)]
    | blocks => gaps start end_ (Sort.sort range_leb blocks)
    end.

(** ** Findings *)

Definition wire_valid (seg : string) (scanned_len : nat) (f : WireFinding) : bool :=
  (wf_start f <? wf_end f)%nat && (wf_end f <=? scanned_len)%nat
  && is_char_boundary seg (wf_start f) && is_char_boundary seg (wf_end f).

Definition wire_hole (f : WireFinding) : Hole := mkHole (wf_start f) (wf_end f) (wf_label f).

Definition wire_spans (seg : string) (scanned_len : nat) (findings : list WireFinding)
    : list Hole :=
  wire_hole <$> List.filter (wire_valid seg scanned_len) findings.

Definition range_hole (label : string) (r : nat * nat) : Hole := mkHole r.1 r.2 label.

(** What of a united span is outside the protected ranges. *)
Definition exposed (protected : list (nat * nat)) (h : Hole) : list Hole :=
  range_hole (h_kind h) <$> subtract_ranges (h_start h) (h_end h) protected.

Definition final_spans (protected : list (nat * nat)) (spans : list Hole) : list Hole :=
  flat_map (exposed protected) (union_of (Sort.sort hole_leb spans)).

Definition label_placeholder (label : string) : string :=
  "[REDACTED " +:+ safe_label label +:+ "]".

(** The new text, and in how many places it was changed. *)
Definition apply_wire_spans (seg : string) (scanned_len : nat) (findings : list WireFinding)
    (protected : list (nat * nat)) : string * nat :=
  match wire_spans seg scanned_len findings with
  | [] => (seg, 0%nat)
  | spans =>
      let final := final_spans protected spans in
      (replace_holes label_placeholder final seg, length final)
  end.

(** ** What the ranges are *)

Definition in_range (i : nat) (r : nat * nat) : Prop := (r.1 ≤ i < r.2)%nat.

Lemma range_leb_total a b : range_leb a b = true ∨ range_leb b a = true.
Proof.
  unfold range_leb. rewrite !orb_true_iff, !andb_true_iff, !Nat.ltb_lt, !Nat.eqb_eq, !Nat.leb_le.
  lia.
Qed.

Lemma range_leb_trans a b c : range_leb a b = true → range_leb b c = true → range_leb a c = true.
Proof.
  unfold range_leb. rewrite !orb_true_iff, !andb_true_iff, !Nat.ltb_lt, !Nat.eqb_eq, !Nat.leb_le.
  lia.
Qed.

Lemma range_leb_le a b : range_leb a b = true → (a.1 ≤ b.1)%nat.
Proof. unfold range_leb. rewrite orb_true_iff, andb_true_iff, Nat.ltb_lt, Nat.eqb_eq. lia. Qed.

Lemma gaps_spec k cursor end_ blocks :
  (cursor ≤ end_)%nat → StronglySorted (λ a b, a.1 ≤ b.1)%nat blocks →
  Forall (λ b, b.1 ≤ b.2 ≤ end_)%nat blocks →
  ordered cursor (range_hole k <$> gaps cursor end_ blocks) ∧
  within end_ (range_hole k <$> gaps cursor end_ blocks) ∧
  ∀ i, Exists (in_range i) (gaps cursor end_ blocks) ↔
       (cursor ≤ i < end_)%nat ∧ ¬ Exists (in_range i) blocks.
Proof.
  intros Hc Hs Hb. revert cursor Hc. induction Hs as [|[a b] blocks Hs IH Ha]; intros cursor Hc.
  - cbn [gaps]. destruct (Nat.ltb_spec cursor end_); cbn [fmap list_fmap].
    + split; [split; [simpl; lia|done]|]. split; [constructor; [simpl; lia|constructor]|].
      intros i. rewrite Exists_cons, !Exists_nil. unfold in_range. simpl. naive_solver lia.
    + split; [done|]. split; [constructor|]. intros i. rewrite !Exists_nil. lia.
  - apply Forall_cons in Hb as [Hab Hb]. simpl in Hab, Ha. cbn [gaps].
    set (c := if (cursor <? b)%nat then b else cursor).
    assert (c = Nat.max cursor b) as Ec
      by (unfold c; destruct (Nat.ltb_spec cursor b); lia).
    destruct (IH Hb c) as (Ho & Hw & Hi); [lia|]. rewrite Ec in *. clear c Ec.
    assert (∀ i, Exists (in_range i) blocks → a ≤ i)%nat as Hai.
    { intros i (r & Hr & Hin)%Exists_exists. rewrite Forall_forall in Ha.
      specialize (Ha r Hr). unfold in_range in Hin. lia. }
    destruct (Nat.ltb_spec cursor a) as [Hlt|Hge]; cbn [app fmap list_fmap].
    + split; [|split].
      * split; [simpl; lia|]. eapply ordered_weaken; [|exact Ho]. simpl. lia.
      * constructor; [simpl; lia|done].
      * intros i. rewrite Exists_cons, Exists_cons, Hi. unfold in_range at 1 3. simpl. split.
        -- intros [?|?]; [|naive_solver lia]. split; [lia|]. intros [?|?%Hai]; lia.
        -- intros [? Hn]. destruct (decide (i < a)%nat); [left; lia|right].
           split; [|tauto]. destruct (decide (i < b)%nat); [|lia]. destruct Hn. left. lia.
    + split; [eapply ordered_weaken; [|exact Ho]; lia|]. split; [done|].
      intros i. rewrite Hi, Exists_cons. unfold in_range at 2. simpl. split.
      * intros [? Hn]. split; [lia|]. intros [?|?]; [lia|done].
      * intros [? Hn]. split; [|tauto]. destruct (decide (i < b)%nat); [|lia].
        destruct Hn. left. lia.
Qed.

Lemma in_blocks_within start end_ protected i :
  Exists (in_range i) (blocks_within start end_ protected) ↔
  (start ≤ i < end_)%nat ∧ Exists (in_range i) protected.
Proof.
  unfold blocks_within. rewrite !Exists_exists. split.
  - intros (r & Hr & Hi). apply list_elem_of_In, filter_In in Hr as [Hr _].
    apply list_elem_of_In, list_elem_of_fmap in Hr as (q & -> & Hq).
    unfold in_range, clamp in *. simpl in Hi. split; [lia|]. exists q. split; [done|lia].
  - intros [Hse (q & Hq & Hi)]. exists (clamp start end_ q). split.
    + apply list_elem_of_In, filter_In. split; [|unfold in_range, clamp in *; simpl; apply Nat.ltb_lt; lia].
      apply list_elem_of_In, list_elem_of_fmap. by exists q.
    + unfold in_range, clamp in *. simpl. lia.
Qed.

(** Subtracting is subtracting. *)
Lemma subtract_ranges_spec k start end_ protected :
  ordered start (range_hole k <$> subtract_ranges start end_ protected) ∧
  within end_ (range_hole k <$> subtract_ranges start end_ protected) ∧
  ∀ i, Exists (in_range i) (subtract_ranges start end_ protected) ↔
       (start ≤ i < end_)%nat ∧ ¬ Exists (in_range i) protected.
Proof.
  unfold subtract_ranges. destruct (Nat.leb_spec end_ start).
  { split; [done|]. split; [constructor|]. intros i. rewrite Exists_nil. lia. }
  pose proof (in_blocks_within start end_ protected) as Hin.
  assert (∀ b, b ∈ blocks_within start end_ protected → b.1 ≤ b.2 ≤ end_)%nat as Hb.
  { intros b Hb. apply list_elem_of_In, filter_In in Hb as [Hb Hlt%Nat.ltb_lt].
    apply list_elem_of_In, list_elem_of_fmap in Hb as (q & -> & _). unfold clamp in *. simpl in *.
    lia. }
  assert (∀ i, (start ≤ i < end_)%nat ∧ ¬ Exists (in_range i) (blocks_within start end_ protected)
    ↔ (start ≤ i < end_)%nat ∧ ¬ Exists (in_range i) protected) as Heq.
  { intros i. rewrite Hin. tauto. }
  destruct (blocks_within start end_ protected) as [|b0 blocks] eqn:Eb.
  - split_and!; [split; [simpl; lia|done]|constructor; [simpl; lia|constructor]|].
    intros i. rewrite <- Heq, Exists_cons, !Exists_nil. unfold in_range. simpl. tauto.
  - rewrite <- Eb in *. clear b0 blocks Eb.
    destruct (gaps_spec k start end_ (Sort.sort range_leb (blocks_within start end_ protected)))
      as (Ho & Hw & Hi).
    + lia.
    + eapply sorted_impl; [intros x y; apply range_leb_le|].
      apply (Sort.sort_sorted range_leb range_leb_total range_leb_trans).
    + apply Forall_forall. intros b. rewrite Sort.elem_of_sort. apply Hb.
    + split_and!; [done|done|]. intros i. rewrite Hi, <- Heq, !Exists_exists.
      by setoid_rewrite Sort.elem_of_sort.
Qed.

(** A property of positions that the arguments' bounds have, the results' bounds have. *)
Lemma subtract_ranges_bounds (P : nat → Prop) start end_ protected :
  P start → P end_ → Forall (λ r, P r.1 ∧ P r.2) protected →
  Forall (λ r, P r.1 ∧ P r.2) (subtract_ranges start end_ protected).
Proof.
  intros Hs He Hp. unfold subtract_ranges. destruct (end_ <=? start)%nat; [done|].
  assert (Forall (λ r, P r.1 ∧ P r.2) (blocks_within start end_ protected)) as Hb.
  { apply Forall_forall. intros b Hb. apply list_elem_of_In, filter_In in Hb as [Hb _].
    apply list_elem_of_In, list_elem_of_fmap in Hb as (q & -> & Hq).
    rewrite Forall_forall in Hp. destruct (Hp q Hq). unfold clamp. simpl.
    split; [destruct (Nat.max_spec q.1 start) as [[_ ->]|[_ ->]]
           |destruct (Nat.min_spec q.2 end_) as [[_ ->]|[_ ->]]]; done. }
  destruct (blocks_within start end_ protected) as [|b0 blocks] eqn:Eb; [by constructor|].
  rewrite <- Eb in *. clear b0 blocks Eb.
  assert (Forall (λ r, P r.1 ∧ P r.2) (Sort.sort range_leb (blocks_within start end_ protected)))
    as Hsort by (by rewrite Sort.sort_perm).
  clear Hb. revert Hsort. generalize (Sort.sort range_leb (blocks_within start end_ protected)).
  intros blocks Hsort. revert start Hs.
  induction Hsort as [|[a b] l [Ha Hb] _ IH]; intros cursor Hc; cbn [gaps].
  - destruct (cursor <? end_)%nat; by repeat constructor.
  - apply Forall_app. split; [destruct (cursor <? a)%nat; by repeat constructor|].
    apply IH. by destruct (cursor <? b)%nat.
Qed.

Lemma subtract_ranges_nonempty start end_ protected :
  Forall (λ r, r.1 < r.2)%nat (subtract_ranges start end_ protected).
Proof.
  unfold subtract_ranges. destruct (Nat.leb_spec end_ start); [constructor|].
  destruct (blocks_within start end_ protected) as [|b0 blocks]; [by repeat constructor|].
  generalize (Sort.sort range_leb (b0 :: blocks)). intros l. revert start H.
  clear. intros start _. revert start. induction l as [|[a b] l IH]; intros cursor; cbn [gaps].
  - destruct (Nat.ltb_spec cursor end_); by repeat constructor.
  - apply Forall_app. split; [|apply IH].
    destruct (Nat.ltb_spec cursor a); by repeat constructor.
Qed.

Lemma final_spans_nonempty protected spans :
  Forall (λ h, h_start h < h_end h)%nat (final_spans protected spans).
Proof.
  apply Forall_flat_map, Forall_forall. intros h _.
  apply Forall_fmap, subtract_ranges_nonempty.
Qed.

Lemma final_spans_spec protected hs n :
  ordered 0 hs → within n hs →
  ordered 0 (flat_map (exposed protected) hs) ∧ within n (flat_map (exposed protected) hs) ∧
  ∀ i, Exists (in_hole i) (flat_map (exposed protected) hs) ↔
       Exists (in_hole i) hs ∧ ¬ Exists (in_range i) protected.
Proof.
  assert (∀ k i l, Exists (in_hole i) (range_hole k <$> l) ↔ Exists (in_range i) l) as Hfm.
  { intros k i l. rewrite Exists_fmap. done. }
  assert (∀ hs p, ordered p hs → within n hs →
    ordered p (flat_map (exposed protected) hs) ∧ within n (flat_map (exposed protected) hs) ∧
    ∀ i, Exists (in_hole i) (flat_map (exposed protected) hs) ↔
         Exists (in_hole i) hs ∧ ¬ Exists (in_range i) protected) as Hgen; [|by apply Hgen].
  clear hs. intros hs. induction hs as [|h hs IH]; intros p.
  { intros _ _. split; [done|]. split; [constructor|]. intros i. simpl. rewrite !Exists_nil. tauto. }
  intros [Hp Ho] [Hh Hw]%Forall_cons. simpl in Hp.
  destruct (IH _ Ho Hw) as (Ho' & Hw' & Hi').
  destruct (subtract_ranges_spec (h_kind h) (h_start h) (h_end h) protected) as (Hoh & Hwh & Hih).
  cbn [flat_map]. fold (exposed protected h) in *. split; [|split].
  - apply (ordered_app p (h_end h)); try done; [eapply ordered_weaken; [|exact Hoh]; lia|lia].
  - apply Forall_app. split; [|done]. eapply Forall_impl; [exact Hwh|]. simpl. lia.
  - intros i. rewrite Exists_app, Hi', Exists_cons. unfold exposed at 1. rewrite Hfm, Hih.
    unfold in_hole at 2. tauto.
Qed.

Lemma wire_spans_spec seg n findings :
  Forall (λ h, h_start h < h_end h ≤ String.length seg)%nat (wire_spans seg n findings) ∧
  Forall (λ h, is_char_boundary seg (h_start h) = true ∧ is_char_boundary seg (h_end h) = true)
    (wire_spans seg n findings) ∧
  ∀ i, Exists (in_hole i) (wire_spans seg n findings) ↔
       ∃ f, f ∈ findings ∧ wire_valid seg n f = true ∧ (wf_start f ≤ i < wf_end f)%nat.
Proof.
  unfold wire_spans. rewrite !Forall_fmap, !Forall_forall.
  assert (∀ f, f ∈ List.filter (wire_valid seg n) findings ↔ f ∈ findings ∧ wire_valid seg n f = true)
    as Hf by (intros f; by rewrite list_elem_of_In, filter_In, <- list_elem_of_In).
  split_and!.
  - intros f [_ Hv]%Hf. revert Hv. unfold wire_valid. rewrite !andb_true_iff, Nat.ltb_lt.
    intros (((? & _) & _) & Hb%boundary_le). simpl. lia.
  - intros f [_ Hv]%Hf. revert Hv. unfold wire_valid. rewrite !andb_true_iff. simpl. tauto.
  - intros i. rewrite Exists_fmap, Exists_exists. setoid_rewrite Hf. unfold in_hole, compose.
    simpl. naive_solver.
Qed.

(** C25. Daemon spans hide what they cover and leave placeholders whole. The new
    text is the old one with disjoint holes replaced, counted by the second result;
    the holes are exactly the bytes that a span within the scanned prefix covers
    and no protected range does, so two texts that differ only there become the
    same text, and the text of a protected range is still in the result. If the
    protected ranges begin and end between characters so does every replaced range
    (the replacement does not panic). *)
Theorem wire_spans_hide_and_protect seg n findings protected :
  ∃ hs,
    apply_wire_spans seg n findings protected
      = (replace_holes label_placeholder hs seg, length hs) ∧
    ordered 0 hs ∧ within (String.length seg) hs ∧
    (∀ i, Exists (in_hole i) hs ↔
       (∃ f, f ∈ findings ∧ wire_valid seg n f = true ∧ (wf_start f ≤ i < wf_end f)%nat)
       ∧ ¬ Exists (in_range i) protected) ∧
    (∀ other, agree_on (λ i, ¬ Exists (in_hole i) hs) seg other →
       replace_holes label_placeholder hs seg = replace_holes label_placeholder hs other) ∧
    (∀ a b, (a, b) ∈ protected → (a ≤ b ≤ String.length seg)%nat →
       ∃ u w, (apply_wire_spans seg n findings protected).1 = u +:+ slice a b seg +:+ w) ∧
    (Forall (λ r, is_char_boundary seg r.1 = true ∧ is_char_boundary seg r.2 = true) protected →
     Forall (λ h, is_char_boundary seg (h_start h) = true ∧ is_char_boundary seg (h_end h) = true) hs).
Proof.
  destruct (wire_spans_spec seg n findings) as (Hlen & Hbd & Hcov).
  set (spans := wire_spans seg n findings) in *.
  set (hs := final_spans protected spans).
  assert (Sort.sort hole_leb spans ≡ₚ spans) as Hperm by apply Sort.sort_perm.
  destruct (union_of_spec (Sort.sort hole_leb spans) (String.length seg)) as (Ho & Hw & Hi).
  { split.
    - eapply sorted_impl; [intros x y; apply hole_leb_le|].
      apply (Sort.sort_sorted hole_leb hole_leb_total hole_leb_trans).
    - rewrite Hperm. eapply Forall_impl; [exact Hlen|]. simpl. lia. }
  { unfold within. rewrite Hperm. eapply Forall_impl; [exact Hlen|]. simpl. lia. }
  destruct (final_spans_spec protected _ _ Ho Hw) as (Ho' & Hw' & Hi').
  fold (final_spans protected spans) in Ho', Hw', Hi'. fold hs in Ho', Hw', Hi'.
  assert (apply_wire_spans seg n findings protected
    = (replace_holes label_placeholder hs seg, length hs)) as Happ.
  { unfold apply_wire_spans. fold spans. unfold hs. by destruct spans. }
  exists hs. split_and!; [done|done|done| | | |].
  - intros i. rewrite Hi', Hi, <- Hcov, !Exists_exists. setoid_rewrite Hperm. done.
  - intros other Hag. rewrite !replaced_whole by (done || by rewrite <- (proj1 Hag)).
    apply assembled_agree; [done|]. destruct Hag as [Hl Hag]. split; [done|].
    intros i [_ Hn]. by apply Hag.
  - intros a b Hab Hb. rewrite Happ. simpl. destruct (decide (a = b)) as [->|Hne].
    { exists "", (replace_holes label_placeholder hs seg). by rewrite slice_empty. }
    rewrite replaced_whole by done. apply assembled_keeps; [done|done|lia|lia|].
    apply disjoint_holes; [lia|apply final_spans_nonempty|].
    intros i Hin Hex. apply Hi' in Hex as [_ Hn]. apply Hn, Exists_exists.
    exists (a, b). by split.
  - intros Hp. unfold hs, final_spans.
    assert (Forall (λ h, is_char_boundary seg (h_start h) = true
      ∧ is_char_boundary seg (h_end h) = true) (union_of (Sort.sort hole_leb spans))) as Hu.
    { apply (union_of_bounds (λ i, is_char_boundary seg i = true)). by rewrite Hperm. }
    rewrite Forall_forall in Hu. apply Forall_flat_map, Forall_forall. intros h [Hs He]%Hu.
    apply Forall_fmap. by apply (subtract_ranges_bounds (λ i, is_char_boundary seg i = true)).
Qed.

(** A span that reaches over a placeholder is replaced on both sides of it. *)
Example span_across_placeholder :
  apply_wire_spans "aa [REDACTED email] bb" 22 [mkWireFinding "p" 0 22] [(3, 19)%nat]
  = ("[REDACTED p][REDACTED email][REDACTED p]", 2%nat).
Proof. reflexivity. Qed.

(** A placeholder of the text itself is not protected. *)
Example forged_placeholder :
  apply_wire_spans "[REDACTED x]alice@evil.com[REDACTED y]" 38 [mkWireFinding "email" 12 26] []
  = ("[REDACTED x][REDACTED email][REDACTED y]", 1%nat).
Proof. reflexivity. Qed.
