(* ===== verification/Policy.v ===== *)
(** * The policy engine

    [src/crates/vigil-policy]: the rule language ([Condition], [PolicyRule]),
    the evaluation of a rule set over the effects inferred for a call, and the
    two default rule sets. [PolicyEngine] keeps its rules sorted by descending
    priority, then by id; [evaluate] collects every rule that matches and takes
    the strictest action, or denies when none does.

    The code is modelled as it is compiled on a non-Windows target (paths are
    compared exactly) with release arithmetic (a [u32] sum wraps). *)

From S2P Require Import Prelude Types.

Module PolicyError.
Inductive PolicyError :=
| UnknownContextKey (key : string)
| TypeMismatch (reason : string).

#[global] Instance PolicyError_eq_dec : EqDecision PolicyError.
Proof. solve_decision. Defined.
End PolicyError.
Abbreviation PolicyError := PolicyError.PolicyError.

Module PolicyAction.
Inductive PolicyAction := Allow | Deny | Approve.

#[global] Instance PolicyAction_eq_dec : EqDecision PolicyAction.
Proof. solve_decision. Defined.

(** Fail-closed order: [Deny > Approve > Allow]. *)
Definition severity (a : PolicyAction) : Z :=
  match a with
  | Deny => 2
  | Approve => 1
  | Allow => 0
  end.

Definition debug (a : PolicyAction) : string :=
  match a with
  | Allow => "Allow"
  | Deny => "Deny"
  | Approve => "Approve"
  end.
End PolicyAction.
Abbreviation PolicyAction := PolicyAction.PolicyAction.

Module EffectField.
Inductive EffectField :=
| PathsRead | PathsWrite | NetworkHosts | SecretRefs | Recipients
| Destructive | Reversible.
End EffectField.
Abbreviation EffectField := EffectField.EffectField.

Module PolicyValue.
Inductive PolicyValue := Bool (b : bool) | Str (s : string).
End PolicyValue.
Abbreviation PolicyValue := PolicyValue.PolicyValue.

Module DescriptorState.
Inductive DescriptorState := ApprovedStable | FirstSeen | Drifted.

#[global] Instance DescriptorState_eq_dec : EqDecision DescriptorState.
Proof. solve_decision. Defined.
End DescriptorState.
Abbreviation DescriptorState := DescriptorState.DescriptorState.

Module Condition.
Inductive Condition :=
| Inside (field : EffectField) (roots_key : string)
| Outside (field : EffectField) (roots_key : string)
| Eq (field : EffectField) (value : PolicyValue)
| HostNotInAllowList (allowlist_key : string)
| RiskScoreAtLeast (threshold : Z)
| EffectIncludes (kind : EffectKind)
| DescriptorIs (state : DescriptorState)
| ScopeNotInAllowList (allowlist_key : string)
| PiiContains (label : string) (min_count : Z).
End Condition.
Abbreviation Condition := Condition.Condition.

Record PolicyRule := mkPolicyRule {
  rule_id : string;
  match_effects : list EffectKind;
  conditions : list Condition;
  rule_action : PolicyAction;
  priority : Z;
}.

Record PolicyDecision := mkPolicyDecision {
  pd_action : PolicyAction;
  pd_policy_ids : list string;
  pd_reasons : list string;
}.

Record PiiFindingSummary := mkPiiFindingSummary {
  pii_label : string;
  pii_count : Z;
}.

Record PolicyContext := mkPolicyContext {
  roots : gmap string (list string);
  allowlists : gmap string (list string);
  ctx_risk_score : Z;
  ctx_descriptor : DescriptorState;
  pii_findings : list PiiFindingSummary;
  requested_scopes : option (list string);
}.

Definition policy_context_default : PolicyContext :=
  mkPolicyContext ∅ ∅ 0 DescriptorState.ApprovedStable [] None.

(** ** Matching *)

Definition is_under (p root : string) : bool :=
  let normalized_root :=
    if Str.ends_with "/" root then root else root +:+ "/" in
  String.eqb p root || Str.starts_with normalized_root p.

Definition under_any_root (p : string) (rs : list string) : bool :=
  existsb (λ r, is_under p r) rs.

Definition host_matches (host pattern : string) : bool :=
  if Str.starts_with "." pattern
  then Str.ends_with pattern host || String.eqb host (Str.drop 1 pattern)
  else Str.eq_ignore_ascii_case host pattern.

Definition read_path_field (eff : EffectVector) (f : EffectField) :
    result PolicyError (list string) :=
  match f with
  | EffectField.PathsRead => Ok (paths_read eff)
  | EffectField.PathsWrite => Ok (paths_write eff)
  | _ => Err (PolicyError.TypeMismatch
                "Inside/Outside only applies to PathsRead/PathsWrite")
  end.

Definition contains_effect (k : EffectKind) (l : list EffectKind) : bool :=
  existsb (λ k', bool_decide (k = k')) l.

Definition contains_str (s : string) (l : list string) : bool :=
  existsb (String.eqb s) l.

Definition lookup_key (m : gmap string (list string)) (key : string) :
    result PolicyError (list string) :=
  ok_or (m !! key) (PolicyError.UnknownContextKey key).

(** The [u32] sum of the counts reported for [label]. *)
Definition pii_hits (label : string) (fs : list PiiFindingSummary) : Z :=
  foldr (λ f acc, (pii_count f + acc) `mod` 2 ^ 32)%Z 0%Z
    (List.filter (λ f, String.eqb (pii_label f) label) fs).

Definition condition_matches (c : Condition) (eff : EffectVector)
    (ctx : PolicyContext) : result PolicyError bool :=
  match c with
  | Condition.Inside field roots_key =>
      let? rs := lookup_key (roots ctx) roots_key in
      let? items := read_path_field eff field in
      match items with
      | [] => Ok false
      | _ => Ok (forallb (λ p, under_any_root p rs) items)
      end
  | Condition.Outside field roots_key =>
      let? rs := lookup_key (roots ctx) roots_key in
      match rs with
      | [] => Ok false
      | _ =>
          let? items := read_path_field eff field in
          Ok (existsb (λ p, negb (under_any_root p rs)) items)
      end
  | Condition.Eq field value =>
      match field, value with
      | EffectField.Destructive, PolicyValue.Bool b => Ok (Bool.eqb (destructive eff) b)
      | EffectField.Reversible, PolicyValue.Bool b => Ok (Bool.eqb (reversible eff) b)
      | _, _ => Err (PolicyError.TypeMismatch
                       "Eq only supports Destructive/Reversible bool")
      end
  | Condition.HostNotInAllowList allowlist_key =>
      let? allow := lookup_key (allowlists ctx) allowlist_key in
      Ok (existsb (λ h, negb (existsb (host_matches h) allow)) (network_hosts eff))
  | Condition.RiskScoreAtLeast t => Ok (t <=? ctx_risk_score ctx)%Z
  | Condition.EffectIncludes k => Ok (contains_effect k (effects eff))
  | Condition.DescriptorIs s => Ok (bool_decide (ctx_descriptor ctx = s))
  | Condition.ScopeNotInAllowList allowlist_key =>
      match requested_scopes ctx with
      | None => Ok false
      | Some scopes =>
          let? allow := lookup_key (allowlists ctx) allowlist_key in
          match scopes with
          | [] => Ok true
          | _ => Ok (existsb (λ s, negb (contains_str s allow)) scopes)
          end
      end
  | Condition.PiiContains label min_count =>
      Ok (min_count <=? pii_hits label (pii_findings ctx))%Z
  end.

Fixpoint all_conditions (cs : list Condition) (eff : EffectVector)
    (ctx : PolicyContext) : result PolicyError bool :=
  match cs with
  | [] => Ok true
  | c :: cs' =>
      let? b := condition_matches c eff ctx in
      if b then all_conditions cs' eff ctx else Ok false
  end.

Definition rule_matches (r : PolicyRule) (eff : EffectVector)
    (ctx : PolicyContext) : result PolicyError bool :=
  let any := existsb (λ me, contains_effect me (effects eff)) (match_effects r) in
  match match_effects r with
  | [] => all_conditions (conditions r) eff ctx
  | _ => if any then all_conditions (conditions r) eff ctx else Ok false
  end.

(** ** The engine *)

Definition DEFAULT_DENY_POLICY_ID : string := "default-deny".

Record PolicyEngine := mkPolicyEngine { rules : list PolicyRule }.

(** [b.priority.cmp(&a.priority).then_with(|| a.id.cmp(&b.id))] *)
Definition rule_leb (a b : PolicyRule) : bool :=
  (priority b <? priority a)%Z
  || ((priority a =? priority b)%Z && Str.leb (rule_id a) (rule_id b)).

Definition engine_new (rs : list PolicyRule) : PolicyEngine :=
  mkPolicyEngine
    (Sort.sort rule_leb
       (List.filter (λ r, negb (String.eqb (rule_id r) DEFAULT_DENY_POLICY_ID)) rs)).

Definition add_rule (e : PolicyEngine) (r : PolicyRule) : PolicyEngine :=
  if String.eqb (rule_id r) DEFAULT_DENY_POLICY_ID then e
  else mkPolicyEngine (Sort.sort rule_leb (rules e ++ [r])).

(** The loop of [evaluate]: every matching rule, in order; the first error wins. *)
Fixpoint collect_hits (rs : list PolicyRule) (eff : EffectVector)
    (ctx : PolicyContext) : result PolicyError (list PolicyRule) :=
  match rs with
  | [] => Ok []
  | r :: rs' =>
      let? m := rule_matches r eff ctx in
      let? hits := collect_hits rs' eff ctx in
      Ok (if m then r :: hits else hits)
  end.

(** [iter().max_by_key(severity)]: of equal keys the last. *)
Definition strictest (acts : list PolicyAction) : option PolicyAction :=
  foldl (λ best a,
           match best with
           | None => Some a
           | Some b => if (PolicyAction.severity a <? PolicyAction.severity b)%Z
                       then Some b else Some a
           end) None acts.

Definition evaluate (e : PolicyEngine) (eff : EffectVector) (ctx : PolicyContext) :
    result PolicyError PolicyDecision :=
  let? hits := collect_hits (rules e) eff ctx in
  match hits with
  | [] =>
      Ok (mkPolicyDecision PolicyAction.Deny [DEFAULT_DENY_POLICY_ID]
            ["no rule matched; fail-closed default deny"])
  | _ =>
      Ok (mkPolicyDecision
            (default PolicyAction.Deny (strictest (rule_action <$> hits)))
            (rule_id <$> hits)
            ((λ r, "rule `" +:+ rule_id r +:+ "` → "
                   +:+ PolicyAction.debug (rule_action r)) <$> hits))
  end.

(** ** The default rule sets

    [src/crates/vigil-policy/src/defaults.rs]: the rules a hub is started with,
    the eleven rules of v0.3 followed by the five rules on PII findings. *)


Definition default_ruleset_v03_only : list PolicyRule :=
  [ mkPolicyRule "deny-destructive-shell" [EffectKind.ExecNative]
      [Condition.Eq EffectField.Destructive (PolicyValue.Bool true)]
      PolicyAction.Deny 200;
    mkPolicyRule "deny-destructive-sql" [EffectKind.DbWrite]
      [Condition.Eq EffectField.Destructive (PolicyValue.Bool true)]
      PolicyAction.Deny 200;
    mkPolicyRule "deny-outside-project" [EffectKind.FsWrite]
      [Condition.Outside EffectField.PathsWrite "project_roots"]
      PolicyAction.Deny 150;
    mkPolicyRule "approve-repo-write" [EffectKind.FsWrite]
      [Condition.Inside EffectField.PathsWrite "project_roots"]
      PolicyAction.Approve 80;
    mkPolicyRule "approve-unknown-host" [EffectKind.NetOutbound]
      [Condition.HostNotInAllowList "allowed_hosts"]
      PolicyAction.Approve 70;
    mkPolicyRule "approve-comm-send" [EffectKind.CommSend; EffectKind.BrowserSubmit]
      [] PolicyAction.Approve 70;
    mkPolicyRule "approve-secret-use" [EffectKind.SecretUse]
      [] PolicyAction.Approve 70;
    mkPolicyRule "approve-exec-native" [EffectKind.ExecNative]
      [] PolicyAction.Approve 60;
    mkPolicyRule "approve-descriptor-drift" []
      [Condition.DescriptorIs DescriptorState.Drifted]
      PolicyAction.Approve 140;
    mkPolicyRule "approve-descriptor-first-seen" []
      [Condition.DescriptorIs DescriptorState.FirstSeen]
      PolicyAction.Approve 130;
    mkPolicyRule "allow-repo-read" [EffectKind.FsRead]
      [Condition.Inside EffectField.PathsRead "project_roots";
       Condition.DescriptorIs DescriptorState.ApprovedStable]
      PolicyAction.Allow 10 ].

Definition default_pii_rules : list PolicyRule :=
  [ mkPolicyRule "secret_outbound_network_deny" []
      [Condition.PiiContains "secret" 1;
       Condition.EffectIncludes EffectKind.NetOutbound]
      PolicyAction.Deny 100;
    mkPolicyRule "secret_shell_exec_deny" []
      [Condition.PiiContains "secret" 1;
       Condition.EffectIncludes EffectKind.ExecNative]
      PolicyAction.Deny 90;
    mkPolicyRule "email_new_host_approve" []
      [Condition.PiiContains "email" 1;
       Condition.HostNotInAllowList "allowed_hosts"]
      PolicyAction.Approve 60;
    mkPolicyRule "secret_email_body_approve" []
      [Condition.PiiContains "secret" 1;
       Condition.EffectIncludes EffectKind.CommSend]
      PolicyAction.Approve 55;
    mkPolicyRule "multi_pii_firstseen_approve" []
      [Condition.PiiContains "email" 1;
       Condition.PiiContains "phone" 1;
       Condition.DescriptorIs DescriptorState.FirstSeen]
      PolicyAction.Approve 50 ].

Definition default_ruleset : list PolicyRule :=
  default_ruleset_v03_only ++ default_pii_rules.
