(* ===== verification/PolicyFacts.v ===== *)
(** * What the policy engine guarantees

    The properties of [Policy] and [PolicyDefaults]: the verdict as a function
    of the rules that fire, the reserved floor id, independence of the order
    rules are loaded in, and what the default rule set lets through. *)

From Stdlib Require Import Btauto.
From S2P Require Import Prelude Types Policy.

(** A rule fires when [rule_matches] says so without an error. *)
Definition Fires (r : PolicyRule) (eff : EffectVector) (ctx : PolicyContext) : Prop :=
  rule_matches r eff ctx = Ok true.

Definition fires (eff : EffectVector) (ctx : PolicyContext) (r : PolicyRule) : bool :=
  match rule_matches r eff ctx with
  | Ok b => b
  | Err _ => false
  end.

(** ** The rule order *)

Lemma rule_leb_spec a b :
  rule_leb a b = true ↔
  (priority b < priority a)%Z
  ∨ priority a = priority b ∧ Str.leb (rule_id a) (rule_id b) = true.
Proof.
  unfold rule_leb. rewrite orb_true_iff, andb_true_iff, Z.ltb_lt, Z.eqb_eq. done.
Qed.

Lemma rule_leb_total a b : rule_leb a b = true ∨ rule_leb b a = true.
Proof.
  rewrite !rule_leb_spec.
  destruct (Z.lt_trichotomy (priority a) (priority b)) as [?|[?|?]];
    destruct (Str.leb_total (rule_id a) (rule_id b)); auto.
Qed.

Lemma rule_leb_trans a b c :
  rule_leb a b = true → rule_leb b c = true → rule_leb a c = true.
Proof.
  rewrite !rule_leb_spec. intros [?|[? ?]] [?|[? ?]]; try (left; lia).
  right; split; [lia|]. by eapply Str.leb_trans.
Qed.

Lemma rule_leb_same_id a b :
  rule_leb a b = true → rule_leb b a = true → rule_id a = rule_id b.
Proof.
  rewrite !rule_leb_spec. intros [?|[? ?]] [?|[? ?]]; try lia.
  by apply Str.leb_antisym.
Qed.

#[export] Hint Resolve rule_leb_total rule_leb_trans : vigil.

Lemma engine_new_sorted rs : Sort.Sorted rule_leb (rules (engine_new rs)).
Proof. apply Sort.sort_sorted; eauto with vigil. Qed.

Lemma elem_of_engine_new r rs :
  r ∈ rules (engine_new rs) ↔ r ∈ rs ∧ rule_id r ≠ DEFAULT_DENY_POLICY_ID.
Proof.
  simpl. rewrite Sort.elem_of_sort, !list_elem_of_In, filter_In, negb_true_iff,
    String.eqb_neq. done.
Qed.

(** ** The hits *)

Lemma collect_hits_ok rs eff ctx hits :
  collect_hits rs eff ctx = Ok hits →
  hits = List.filter (fires eff ctx) rs.
Proof.
  unfold fires. revert hits; induction rs as [|r rs IH]; simpl; intros hits H.
  { by simplify_eq. }
  destruct (rule_matches r eff ctx) as [b|]; simplify_eq/=.
  destruct (collect_hits rs eff ctx) as [hs|]; simplify_eq/=.
  rewrite <- (IH hs) by done. done.
Qed.

Lemma collect_hits_total rs eff ctx :
  Forall (λ r, is_ok (rule_matches r eff ctx) = true) rs →
  ∃ hits, collect_hits rs eff ctx = Ok hits.
Proof.
  induction 1 as [|r rs Hr _ [hs IH]]; simpl; [by eauto|].
  destruct (rule_matches r eff ctx); [|done]. rewrite IH; simpl. eauto.
Qed.

Lemma elem_of_fires r rs eff ctx :
  r ∈ List.filter (fires eff ctx) rs ↔ r ∈ rs ∧ Fires r eff ctx.
Proof.
  rewrite !list_elem_of_In, filter_In. unfold fires, Fires.
  destruct (rule_matches r eff ctx) as [[]|]; naive_solver.
Qed.

(** ** The verdict *)

(** The abstract verdict on the actions of the rules that fired. *)
Definition has (a : PolicyAction) (acts : list PolicyAction) : bool :=
  existsb (λ b, bool_decide (a = b)) acts.

Definition verdict (acts : list PolicyAction) : PolicyAction :=
  if has PolicyAction.Deny acts then PolicyAction.Deny
  else if has PolicyAction.Approve acts then PolicyAction.Approve
  else if has PolicyAction.Allow acts then PolicyAction.Allow
  else PolicyAction.Deny.

Lemma has_spec a acts : has a acts = true ↔ a ∈ acts.
Proof.
  unfold has. rewrite existsb_exists. setoid_rewrite <- list_elem_of_In.
  setoid_rewrite bool_decide_eq_true. naive_solver.
Qed.

Lemma has_false a acts : has a acts = false ↔ a ∉ acts.
Proof. rewrite <- has_spec. by destruct (has a acts). Qed.

Lemma verdict_spec acts :
  (verdict acts = PolicyAction.Allow ↔
     acts ≠ [] ∧ ∀ a, a ∈ acts → a = PolicyAction.Allow) ∧
  (verdict acts = PolicyAction.Approve ↔
     PolicyAction.Approve ∈ acts ∧ PolicyAction.Deny ∉ acts) ∧
  (verdict acts = PolicyAction.Deny ↔ acts = [] ∨ PolicyAction.Deny ∈ acts).
Proof.
  unfold verdict.
  destruct (has PolicyAction.Deny acts) eqn:Ed; [apply has_spec in Ed|apply has_false in Ed].
  { split_and!; split; naive_solver. }
  destruct (has PolicyAction.Approve acts) eqn:Ea;
    [apply has_spec in Ea|apply has_false in Ea].
  { split_and!; split; try done; [by naive_solver|].
    intros [->|?]; [by apply not_elem_of_nil in Ea|done]. }
  destruct (has PolicyAction.Allow acts) eqn:El;
    [apply has_spec in El|apply has_false in El].
  { split_and!; split; try done; [|by naive_solver|].
    - intros _. split; [by intros ->; apply not_elem_of_nil in El|].
      intros []; naive_solver.
    - intros [->|?]; [by apply not_elem_of_nil in El|done]. }
  assert (acts = []) as -> by (apply elem_of_nil_inv; by intros []).
  split_and!; split; try done; [by intros [? _]|by intros [?%not_elem_of_nil _]|by left].
Qed.

Lemma verdict_fold acts b :
  foldl (λ best a,
           match best with
           | None => Some a
           | Some b => if (PolicyAction.severity a <? PolicyAction.severity b)%Z
                       then Some b else Some a
           end) (Some b) acts = Some (verdict (b :: acts)).
Proof.
  revert b; induction acts as [|a acts IH]; intros b; simpl; [by destruct b|].
  destruct a, b; simpl; rewrite IH; unfold verdict; simpl; by repeat case_match.
Qed.

Lemma strictest_verdict acts :
  default PolicyAction.Deny (strictest acts) = verdict acts.
Proof. destruct acts as [|a acts]; [done|]. unfold strictest. simpl. by rewrite verdict_fold. Qed.

(** [evaluate] refines the verdict on the rules that fire. *)
Lemma evaluate_verdict e eff ctx d :
  evaluate e eff ctx = Ok d →
  pd_action d = verdict (rule_action <$> List.filter (fires eff ctx) (rules e)).
Proof.
  unfold evaluate. intros H.
  destruct (collect_hits _ _ _) as [hits|] eqn:E; simplify_eq/=.
  apply collect_hits_ok in E as <-.
  destruct hits as [|h hits]; simplify_eq/=; [done|].
  apply (strictest_verdict (rule_action h :: (rule_action <$> hits))).
Qed.

Lemma evaluate_policy_ids e eff ctx d :
  evaluate e eff ctx = Ok d →
  pd_policy_ids d =
    match List.filter (fires eff ctx) (rules e) with
    | [] => [DEFAULT_DENY_POLICY_ID]
    | hits => rule_id <$> hits
    end.
Proof.
  unfold evaluate. intros H.
  destruct (collect_hits _ _ _) as [hits|] eqn:E; simplify_eq/=.
  apply collect_hits_ok in E as <-. by destruct hits; simplify_eq/=.
Qed.

Lemma evaluate_total e eff ctx :
  (∀ r, r ∈ rules e → is_ok (rule_matches r eff ctx) = true) →
  ∃ d, evaluate e eff ctx = Ok d.
Proof.
  intros H. unfold evaluate.
  destruct (collect_hits_total (rules e) eff ctx) as [hits ->]; [by apply Forall_forall|].
  simpl. destruct hits; eauto.
Qed.

(** C35. The engine fails closed. A decision allows a call only when some rule
    fires and every rule that fires allows it; it asks for approval when a rule
    that fires asks and none denies; it denies when a rule that fires denies,
    or when no rule fires at all. *)
Theorem evaluate_fail_closed e eff ctx d :
  evaluate e eff ctx = Ok d →
  (pd_action d = PolicyAction.Allow ↔
     (∃ r, r ∈ rules e ∧ Fires r eff ctx) ∧
     (∀ r, r ∈ rules e → Fires r eff ctx → rule_action r = PolicyAction.Allow)) ∧
  (pd_action d = PolicyAction.Approve ↔
     (∃ r, r ∈ rules e ∧ Fires r eff ctx ∧ rule_action r = PolicyAction.Approve) ∧
     (∀ r, r ∈ rules e → Fires r eff ctx → rule_action r ≠ PolicyAction.Deny)) ∧
  (pd_action d = PolicyAction.Deny ↔
     (∀ r, r ∈ rules e → ¬ Fires r eff ctx) ∨
     (∃ r, r ∈ rules e ∧ Fires r eff ctx ∧ rule_action r = PolicyAction.Deny)).
Proof.
  intros H%evaluate_verdict. rewrite H. clear H d.
  assert (∀ a, a ∈ rule_action <$> List.filter (fires eff ctx) (rules e) ↔
               ∃ r, r ∈ rules e ∧ Fires r eff ctx ∧ rule_action r = a) as Hin.
  { intros a. rewrite list_elem_of_fmap. setoid_rewrite elem_of_fires. naive_solver. }
  assert (rule_action <$> List.filter (fires eff ctx) (rules e) = [] ↔
          ∀ r, r ∈ rules e → ¬ Fires r eff ctx) as Hnil.
  { split.
    - intros E r Hr Hf. apply (not_elem_of_nil (rule_action r)). rewrite <- E.
      apply Hin; eauto.
    - intros Hn. apply elem_of_nil_inv. intros a (r & ? & ? & ?)%Hin. by eapply Hn. }
  destruct (verdict_spec (rule_action <$> List.filter (fires eff ctx) (rules e)))
    as (-> & -> & ->).
  rewrite Hnil. setoid_rewrite Hin. split_and!; [|by naive_solver..].
  destruct (List.filter (fires eff ctx) (rules e)) as [|r l] eqn:E; simpl in *.
  - assert (∀ r, r ∈ rules e → ¬ Fires r eff ctx) by by apply Hnil. naive_solver.
  - assert (r ∈ rules e ∧ Fires r eff ctx) by (apply elem_of_fires; rewrite E; by left).
    naive_solver.
Qed.

(** A read inside the project, as a concrete input. *)
Definition sample_read : EffectVector :=
  mkEffectVector [EffectKind.FsRead] ["/p/a"] [] [] [] [] false true.

Definition sample_ctx : PolicyContext :=
  mkPolicyContext (<["project_roots" := ["/p"]]> ∅) (<["allowed_hosts" := []]> ∅)
    0 DescriptorState.ApprovedStable [] None.

Lemma evaluate_fail_closed_witness :
  ∃ d,
    evaluate (engine_new default_ruleset) sample_read sample_ctx = Ok d ∧
    pd_action d = PolicyAction.Allow ∧
    ∃ r, r ∈ rules (engine_new default_ruleset) ∧ Fires r sample_read sample_ctx.
Proof.
  destruct (evaluate (engine_new default_ruleset) sample_read sample_ctx) as [d|] eqn:E;
    [|vm_compute in E; discriminate].
  exists d. split; [reflexivity|].
  destruct (evaluate_fail_closed _ _ _ _ E) as [[H _] _].
  assert (pd_action d = PolicyAction.Allow) as Ha.
  { vm_compute in E. injection E as <-. reflexivity. }
  split; [exact Ha|]. exact (proj1 (H Ha)).
Defined.

(** ** The floor id *)

(** An engine as the hub builds one: [new], then any number of [add_rule]. *)
Definition build (rs adds : list PolicyRule) : PolicyEngine :=
  foldl add_rule (engine_new rs) adds.

Lemma elem_of_add_rule e r r' :
  r ∈ rules (add_rule e r') ↔
  r ∈ rules e ∨ (r = r' ∧ rule_id r' ≠ DEFAULT_DENY_POLICY_ID).
Proof.
  unfold add_rule. destruct (String.eqb_spec (rule_id r') DEFAULT_DENY_POLICY_ID); simpl.
  - naive_solver.
  - rewrite Sort.elem_of_sort, elem_of_app, list_elem_of_singleton. naive_solver.
Qed.

Lemma elem_of_build r rs adds :
  r ∈ rules (build rs adds) ↔ r ∈ rs ++ adds ∧ rule_id r ≠ DEFAULT_DENY_POLICY_ID.
Proof.
  unfold build. induction adds as [|a adds IH] using rev_ind.
  - rewrite app_nil_r. apply elem_of_engine_new.
  - rewrite foldl_snoc, elem_of_add_rule, IH, !elem_of_app, list_elem_of_singleton.
    naive_solver.
Qed.

Lemma build_sorted rs adds : Sort.Sorted rule_leb (rules (build rs adds)).
Proof.
  unfold build. induction adds as [|a adds IH] using rev_ind; [apply engine_new_sorted|].
  rewrite foldl_snoc. unfold add_rule. case_match; [done|].
  apply Sort.sort_sorted; eauto with vigil.
Qed.

(** The floor id cannot be forged: whatever rules an engine is built from,
    a decision carries exactly the reserved id [default-deny] when, and only
    when, no rule fired. *)
Theorem floor_id_unforgeable rs adds eff ctx d :
  evaluate (build rs adds) eff ctx = Ok d →
  (pd_policy_ids d = [DEFAULT_DENY_POLICY_ID] ↔
   ∀ r, r ∈ rs ++ adds → rule_id r ≠ DEFAULT_DENY_POLICY_ID → ¬ Fires r eff ctx).
Proof.
  intros H%evaluate_policy_ids. rewrite H. clear H d.
  destruct (List.filter (fires eff ctx) (rules (build rs adds))) as [|r l] eqn:E.
  - split; [intros _ r Hr Hid Hf|done].
    assert (r ∈ List.filter (fires eff ctx) (rules (build rs adds))) as Hin.
    { apply elem_of_fires. by rewrite elem_of_build. }
    rewrite E in Hin. by apply not_elem_of_nil in Hin.
  - assert (r ∈ rules (build rs adds) ∧ Fires r eff ctx) as [[Hr Hid]%elem_of_build Hf].
    { apply elem_of_fires. rewrite E. by left. }
    split; [intros [=]; done|]. intros Hn. by destruct (Hn r Hr Hid).
Qed.

Lemma floor_id_unforgeable_witness :
  ∃ d,
    evaluate (build [mkPolicyRule DEFAULT_DENY_POLICY_ID [] [] PolicyAction.Allow 9] [])
      effect_vector_default policy_context_default = Ok d ∧
    pd_policy_ids d = [DEFAULT_DENY_POLICY_ID].
Proof.
  eexists. split; [vm_compute; reflexivity|].
  apply (floor_id_unforgeable [mkPolicyRule DEFAULT_DENY_POLICY_ID [] [] PolicyAction.Allow 9]
           [] effect_vector_default policy_context_default); [vm_compute; reflexivity|].
  intros r Hr Hid. apply list_elem_of_singleton in Hr. subst. destruct (Hid eq_refl).
Defined.

(** ** Load order *)

(** The order in which rules are loaded does not matter. For rules with
    distinct ids, an engine built from any rearrangement of them, in one go or
    rule by rule, is the same engine, so it decides every call alike, errors
    included. *)
Theorem load_order_irrelevant rs rs' adds' eff ctx :
  NoDup (rule_id <$> rs) →
  rs ≡ₚ rs' ++ adds' →
  evaluate (build rs' adds') eff ctx = evaluate (engine_new rs) eff ctx.
Proof.
  intros Hnd Hp.
  assert (rules (engine_new rs) = rules (build rs' adds')) as Heq.
  { apply (Sort.sorted_unique rule_leb).
    - intros a b [Ha _]%elem_of_engine_new [Hb _]%elem_of_engine_new Hab Hba.
      assert (rule_id a = rule_id b) as Hid by by apply rule_leb_same_id.
      apply list_elem_of_lookup in Ha as [i Hi], Hb as [j Hj].
      assert (i = j) as <-; [|congruence].
      eapply (NoDup_lookup _ _ _ _ Hnd); rewrite list_lookup_fmap;
        [by rewrite Hi|by rewrite Hj; simpl; f_equal].
    - apply engine_new_sorted.
    - apply build_sorted.
    - apply NoDup_Permutation.
      + simpl. rewrite Sort.sort_perm. apply NoDup_ListNoDup, List.NoDup_filter.
        apply NoDup_ListNoDup. by eapply NoDup_fmap_1.
      + assert (NoDup (rs' ++ adds')) as Hnd'.
        { rewrite <- Hp. by eapply NoDup_fmap_1. }
        clear Hp Hnd. unfold build.
        induction adds' as [|a adds' IH] using rev_ind.
        * rewrite app_nil_r in Hnd'. simpl. rewrite Sort.sort_perm.
          by apply NoDup_ListNoDup, List.NoDup_filter, NoDup_ListNoDup.
        * rewrite app_assoc in Hnd'. apply NoDup_app in Hnd' as (Hnd & Ha & _).
          specialize (IH Hnd). rewrite foldl_snoc. unfold add_rule at 1.
          case_match; [done|]. simpl. rewrite Sort.sort_perm.
          apply NoDup_app. split_and!; [done| |apply NoDup_singleton].
          intros x Hx. apply (elem_of_build x rs' adds') in Hx as [Hx _]. by apply Ha.
      + intros r. rewrite elem_of_engine_new, elem_of_build. by rewrite Hp. }
  unfold evaluate. by rewrite Heq.
Qed.

Lemma load_order_irrelevant_witness :
  evaluate (build default_pii_rules default_ruleset_v03_only)
    effect_vector_default policy_context_default =
  evaluate (engine_new default_ruleset) effect_vector_default policy_context_default.
Proof.
  apply (load_order_irrelevant default_ruleset default_pii_rules default_ruleset_v03_only).
  - vm_compute. repeat constructor; set_solver.
  - unfold default_ruleset. apply Permutation_app_comm.
Defined.

(** ** Conditions, as propositions *)

Lemma contains_effect_spec k l : contains_effect k l = true ↔ k ∈ l.
Proof.
  unfold contains_effect. rewrite existsb_exists. setoid_rewrite <- list_elem_of_In.
  setoid_rewrite bool_decide_eq_true. naive_solver.
Qed.

Lemma contains_effect_false k l : contains_effect k l = false ↔ k ∉ l.
Proof. rewrite <- contains_effect_spec. by destruct (contains_effect k l). Qed.

Lemma forallb_elem {A} (f : A → bool) l :
  forallb f l = true ↔ ∀ x, x ∈ l → f x = true.
Proof. rewrite forallb_forall. by setoid_rewrite list_elem_of_In. Qed.

Lemma existsb_elem {A} (f : A → bool) l :
  existsb f l = true ↔ ∃ x, x ∈ l ∧ f x = true.
Proof. rewrite existsb_exists. by setoid_rewrite list_elem_of_In. Qed.

Lemma existsb_negb {A} (f : A → bool) l :
  existsb (λ x, negb (f x)) l = negb (forallb f l).
Proof. induction l as [|x l IH]; simpl; [done|]. by rewrite IH, negb_andb. Qed.

(** ** Paths *)

(** A path is under a root when it is the root or continues it after a ["/"]:
    a sibling that merely shares the root's spelling is outside. *)
Lemma is_under_spec p root :
  is_under p root = true ↔
  p = root ∨
  ∃ rest, p = (if Str.ends_with "/" root then root else root +:+ "/") +:+ rest.
Proof.
  unfold is_under. by rewrite orb_true_iff, String.eqb_eq, Str.starts_with_spec.
Qed.

(** ** The default rules *)

Section Defaults.
Context (eff : EffectVector) (ctx : PolicyContext) (rs hs : list string).
Context (Hroots : roots ctx !! "project_roots" = Some rs).
Context (Hhosts : allowlists ctx !! "allowed_hosts" = Some hs).

(** Every host the call reaches is in the allow list. *)
Definition hosts_allowed : bool :=
  forallb (λ h, existsb (host_matches h) hs) (network_hosts eff).

Lemma default_rules_decide r :
  r ∈ default_ruleset → is_ok (rule_matches r eff ctx) = true.
Proof using Hroots Hhosts.
  intros Hr. unfold default_ruleset, default_ruleset_v03_only, default_pii_rules in Hr.
  unfold rule_matches, lookup_key.
  repeat (apply elem_of_cons in Hr as [->|Hr]; [
    simpl; unfold lookup_key; rewrite ?Hroots, ?Hhosts; simpl;
    repeat (case_match; simplify_eq/=; try done) |]).
  by apply not_elem_of_nil in Hr.
Qed.

Lemma default_ids r : r ∈ default_ruleset → rule_id r ≠ DEFAULT_DENY_POLICY_ID.
Proof using.
  intros Hr. unfold default_ruleset, default_ruleset_v03_only, default_pii_rules in Hr.
  repeat (apply elem_of_cons in Hr as [->|Hr]; [done|]).
  by apply not_elem_of_nil in Hr.
Qed.
End Defaults.

(** ** What the default rules let through without asking *)

(** Splitting a list on [ok] separates "some fires" from "none fires". *)
Lemma existsb_forallb_split {A} (f ok : A → bool) l :
  existsb f l && forallb (λ x, negb (f x) || ok x) l =
  existsb (λ x, ok x && f x) l && negb (existsb (λ x, negb (ok x) && f x) l).
Proof.
  assert (existsb f l = existsb (λ x, ok x && f x) l
            || existsb (λ x, negb (ok x) && f x) l ∧
          forallb (λ x, negb (f x) || ok x) l =
            negb (existsb (λ x, negb (ok x) && f x) l)) as [-> ->].
  { induction l as [|x l [IH1 IH2]]; simpl; [done|].
    rewrite IH1, IH2. destruct (ok x); simpl; split; btauto. }
  btauto.
Qed.

Definition is_allow (r : PolicyRule) : bool :=
  match rule_action r with
  | PolicyAction.Allow => true
  | _ => false
  end.

Lemma is_allow_spec r : is_allow r = true ↔ rule_action r = PolicyAction.Allow.
Proof. unfold is_allow. by destruct (rule_action r). Qed.

Definition is_nil {A} (l : list A) : bool :=
  match l with
  | [] => true
  | _ => false
  end.

(** Decide a boolean equation atom by atom, simplifying in between. *)
Ltac settle :=
  cbn [negb andb orb];
  rewrite ?andb_false_r, ?orb_true_r, ?andb_true_r, ?orb_false_r;
  cbn [negb andb orb];
  try reflexivity;
  match goal with
  | |- context [contains_effect ?k ?l] => destruct (contains_effect k l); settle
  | |- context [destructive ?e] => destruct (destructive e); cbn [Bool.eqb]; settle
  | |- context [(?x <=? ?y)%Z] => destruct (x <=? y)%Z; settle
  | |- context [forallb ?f ?l] => destruct (forallb f l); settle
  end.

Section DefaultAllow.
Context (eff : EffectVector) (ctx : PolicyContext) (rs hs : list string).

Let has_effect k := contains_effect k (effects eff).
Let finds label := (1 <=? pii_hits label (pii_findings ctx))%Z.

(** The calls the default rules allow outright, as one formula. *)
Definition default_allows : bool :=
  (has_effect EffectKind.FsRead
   && negb (is_nil (paths_read eff))
   && forallb (λ p, under_any_root p rs) (paths_read eff)
   && bool_decide (ctx_descriptor ctx = DescriptorState.ApprovedStable))
  && negb (has_effect EffectKind.ExecNative || has_effect EffectKind.SecretUse
           || has_effect EffectKind.CommSend || has_effect EffectKind.BrowserSubmit)
  && negb (has_effect EffectKind.DbWrite && destructive eff)
  && (negb (has_effect EffectKind.FsWrite) || is_nil (paths_write eff))
  && (hosts_allowed eff hs
      || negb (has_effect EffectKind.NetOutbound || finds "email"))
  && negb (has_effect EffectKind.NetOutbound && finds "secret").

Context (Hroots : roots ctx !! "project_roots" = Some rs).
Context (Hhosts : allowlists ctx !! "allowed_hosts" = Some hs).

Definition only_allow_fires : bool :=
  existsb (fires eff ctx) default_ruleset
  && forallb (λ r, negb (fires eff ctx r)
                   || is_allow r) default_ruleset.

Lemma fires_split r :
  fires eff ctx r =
  (is_nil (match_effects r)
   || existsb (λ me, contains_effect me (effects eff)) (match_effects r))
  && match all_conditions (conditions r) eff ctx with
     | Ok b => b
     | Err _ => false
     end.
Proof using.
  unfold fires, rule_matches. destruct (match_effects r); simpl; [done|].
  by destruct (_ || _).
Qed.

Lemma if_ok (b : bool) (k : result PolicyError bool) :
  match (if b then k else Ok false) with Ok b => b | Err _ => false end =
  b && match k with Ok b => b | Err _ => false end.
Proof using. by destruct b. Qed.

Lemma only_allow_fires_eq : only_allow_fires = default_allows.
Proof using Hroots Hhosts.
  unfold only_allow_fires, default_allows, hosts_allowed, has_effect, finds.
  rewrite existsb_forallb_split.
  cbn [existsb app default_ruleset default_ruleset_v03_only default_pii_rules
       is_allow rule_action negb andb orb].
  rewrite !fires_split.
  cbn [match_effects conditions all_conditions condition_matches existsb
       read_path_field res_bind].
  unfold lookup_key. rewrite Hroots, Hhosts.
  cbn [ok_or res_bind is_nil].
  rewrite ?if_ok, !(existsb_negb (λ p, under_any_root p rs)),
    !(existsb_negb (λ h, existsb (host_matches h) hs)).
  assert (forallb (λ p, under_any_root p []) (paths_read eff) =
          is_nil (paths_read eff)) as Hnone by by destruct (paths_read eff).
  destruct rs as [|r rs'].
  { rewrite Hnone. destruct (paths_read eff); cbn [is_nil res_bind negb andb orb];
      rewrite ?andb_false_r; reflexivity. }
  clear Hnone. destruct (paths_read eff), (paths_write eff), (ctx_descriptor ctx);
    cbn -[contains_effect pii_hits under_any_root Z.leb forallb];
    rewrite ?if_ok; settle.
Qed.

Lemma default_verdict :
  ∃ d, evaluate (engine_new default_ruleset) eff ctx = Ok d ∧
       (pd_action d = PolicyAction.Allow ↔ default_allows = true).
Proof using Hroots Hhosts.
  destruct (evaluate_total (engine_new default_ruleset) eff ctx) as [d Hd].
  { intros r [Hr _]%elem_of_engine_new. by eapply default_rules_decide. }
  exists d. split; [done|]. rewrite <- only_allow_fires_eq.
  rewrite (evaluate_verdict _ _ _ _ Hd).
  destruct (verdict_spec (rule_action <$>
    List.filter (fires eff ctx) (rules (engine_new default_ruleset)))) as [-> _].
  unfold only_allow_fires. rewrite andb_true_iff, existsb_elem, forallb_elem.
  assert (∀ r, r ∈ List.filter (fires eff ctx) (rules (engine_new default_ruleset)) ↔
               r ∈ default_ruleset ∧ fires eff ctx r = true) as Hin.
  { intros r. rewrite list_elem_of_In, filter_In, <- list_elem_of_In,
      elem_of_engine_new. pose proof (default_ids r). naive_solver. }
  f_equiv.
  - split.
    + intros Hne. destruct (List.filter _ _) as [|r l] eqn:E; [done|].
      exists r. apply Hin. by left.
    + intros (r & Hr) E%fmap_nil_inv. apply Hin in Hr. rewrite E in Hr.
      by apply not_elem_of_nil in Hr.
  - split.
    + intros H r Hr. destruct (fires eff ctx r) eqn:E; [simpl|done].
      apply is_allow_spec, H, list_elem_of_fmap. exists r.
      split; [done|]. by apply Hin.
    + intros H a (r & -> & [Hr Hf]%Hin)%list_elem_of_fmap.
      specialize (H r Hr). rewrite Hf in H. by apply is_allow_spec in H.
Qed.

(** Under the default rules, once the project roots and the host list are
    configured, evaluation never errors, and a call passes without a human
    exactly when it reads files, all of them inside the project, from a tool
    whose descriptor is approved and unchanged, and it does none of: running
    a process, using a secret, sending a message, submitting a form,
    a destructive database write, writing to a recognised path, reaching an
    unlisted host, or sending text in which a secret was found. *)
Theorem default_ruleset_allows :
  ∃ d, evaluate (engine_new default_ruleset) eff ctx = Ok d ∧
       (pd_action d = PolicyAction.Allow ↔ default_allows = true).
Proof using Hroots Hhosts. exact default_verdict. Qed.
End DefaultAllow.

Lemma default_ruleset_allows_witness :
  ∃ d, evaluate (engine_new default_ruleset) sample_read sample_ctx = Ok d ∧
       pd_action d = PolicyAction.Allow.
Proof.
  destruct (default_ruleset_allows sample_read sample_ctx ["/p"] []
              ltac:(vm_compute; reflexivity) ltac:(vm_compute; reflexivity))
    as (d & Hd & Ha).
  exists d. split; [exact Hd|]. apply Ha. vm_compute. reflexivity.
Defined.
