(* ===== verification/Scorer.v ===== *)
(** * The risk scorer

    [src/crates/vigil-firewall/src/scorer.rs]: the weights that turn the effects
    of a call and the trust in its descriptor into a score from 0 to 100, with
    the reasons it gives. [DescriptorOracle] is the interface the firewall asks
    for that trust; [RegistryDescriptorOracle] (file Oracle) implements it. *)

From stdpp Require Import pretty.
From S2P Require Import Prelude Types Policy.

Module DescriptorStatus.
Inductive DescriptorStatus := ApprovedStable | FirstSeen | Drifted.

#[global] Instance DescriptorStatus_eq_dec : EqDecision DescriptorStatus.
Proof. solve_decision. Defined.
End DescriptorStatus.
Abbreviation DescriptorStatus := DescriptorStatus.DescriptorStatus.

(** [trait DescriptorOracle]: what is known of the tool's descriptor when the
    call is made; it reads the state [S] of its owner. *)
Class DescriptorOracle (S : Type) := {
  status : S → string → string → string → DescriptorStatus;
}.

Record RiskScorer := mkRiskScorer {
  allowed_hosts : gset string;
  project_roots : list string;
}.

Definition scorer_new (hosts roots : list string) : RiskScorer :=
  mkRiskScorer (list_to_set hosts) roots.

(** [u.to_string()] of a length. *)
Definition len_str {A} (l : list A) : string := pretty (length l).

(** [format!("{:?}", v)] of texts of printable ASCII: quoted, with the quote and
    the backslash escaped. *)
Fixpoint escape_debug (s : string) : string :=
  match s with
  | EmptyString => ""
  | String a s' =>
      if Ascii.eqb a "034" || Ascii.eqb a "092" then String "092" (String a (escape_debug s'))
      else String a (escape_debug s')
  end.

Definition debug_str (s : string) : string :=
  String "034" (escape_debug s) +:+ String "034" "".

Definition debug_strs (l : list string) : string :=
  "[" +:+ Str.join ", " (debug_str <$> l) +:+ "]".

Definition scorer_under_any_root (sc : RiskScorer) (p : string) : bool :=
  existsb (λ r,
    if String.eqb p r then true
    else
      let prefix := if Str.ends_with "/" r then r else r +:+ "/" in
      Str.starts_with prefix p) (project_roots sc).

(** The running total and the reasons pushed so far. *)
Definition Tally : Type := Z * list (Z * string).

(** [s += w; reasons.push((w, r))] *)
Definition add_reason (w : Z) (r : string) (t : Tally) : Tally :=
  (t.1 + w, t.2 ++ [(w, r)])%Z.

Definition score_descriptor (d : DescriptorStatus) (t : Tally) : Tally :=
  match d with
  | DescriptorStatus.FirstSeen => add_reason 15 "first-seen MCP server" t
  | DescriptorStatus.Drifted =>
      add_reason 25 "descriptor hash drifted since last approval" t
  | DescriptorStatus.ApprovedStable => t
  end.

Definition score_fs_write (sc : RiskScorer) (e : EffectVector) (t : Tally) : Tally :=
  if contains_effect EffectKind.FsWrite (effects e) then
    let t := add_reason 20 ("writes local files: " +:+ len_str (paths_write e)) t in
    match project_roots sc with
    | [] => t
    | _ =>
        match List.filter (λ p, negb (scorer_under_any_root sc p)) (paths_write e) with
        | [] => t
        | p :: _ => add_reason 30 ("writes OUTSIDE project: " +:+ p) t
        end
    end
  else t.

Definition score_network (sc : RiskScorer) (e : EffectVector) (t : Tally) : Tally :=
  if contains_effect EffectKind.NetOutbound (effects e) then
    let t := add_reason 15 ("outbound network: " +:+ debug_strs (network_hosts e)) t in
    match List.filter (λ h, negb (bool_decide (h ∈ allowed_hosts sc))) (network_hosts e) with
    | [] => t
    | h :: _ => add_reason 20 ("unknown host: " +:+ h) t
    end
  else t.

Definition score_secret (e : EffectVector) (t : Tally) : Tally :=
  if contains_effect EffectKind.SecretUse (effects e)
  then add_reason 25 ("uses credential lease: " +:+ debug_strs (secret_refs e)) t else t.

Definition score_native (e : EffectVector) (t : Tally) : Tally :=
  if contains_effect EffectKind.ExecNative (effects e)
  then add_reason 30 "runs native subprocess" t else t.

Definition score_destructive (e : EffectVector) (t : Tally) : Tally :=
  if destructive e then add_reason 35 "destructive operation detected" t else t.

Definition score_send (e : EffectVector) (t : Tally) : Tally :=
  if contains_effect EffectKind.CommSend (effects e)
     || contains_effect EffectKind.BrowserSubmit (effects e)
  then add_reason 25 ("sends to recipients / submits form: " +:+ len_str (recipients e)) t
  else t.

Definition tally (sc : RiskScorer) (e : EffectVector) (d : DescriptorStatus) : Tally :=
  score_send e (score_destructive e (score_native e (score_secret e
    (score_network sc e (score_fs_write sc e (score_descriptor d (0%Z, []))))))).

(** [s.clamp(0, 100) as u8] and the reasons, heaviest first (a stable sort). *)
Definition score (sc : RiskScorer) (e : EffectVector) (d : DescriptorStatus)
    : Z * list string :=
  let t := tally sc e d in
  (Z.max 0 (Z.min 100 t.1), (Sort.sort (λ a b, (b.1 <=? a.1)%Z) t.2).*2).

(** ** The tally *)

Definition sum_weights (rs : list (Z * string)) : Z := foldr (λ r acc, (r.1 + acc)%Z) 0%Z rs.

Lemma sum_weights_perm rs1 rs2 : rs1 ≡ₚ rs2 → sum_weights rs1 = sum_weights rs2.
Proof. unfold sum_weights. induction 1; simpl; lia. Qed.

Lemma sum_weights_app rs1 rs2 : sum_weights (rs1 ++ rs2) = (sum_weights rs1 + sum_weights rs2)%Z.
Proof. unfold sum_weights. induction rs1; simpl; lia. Qed.

Lemma sum_weights_pos rs :
  Forall (λ r, 0 < r.1)%Z rs → (0 ≤ sum_weights rs)%Z ∧ (sum_weights rs = 0%Z ↔ rs = []).
Proof.
  unfold sum_weights. intros Hrs. induction Hrs as [|r l Hr Hl [IH _]]; simpl; [done|].
  split; [lia|]. split; [lia|done].
Qed.

(** The total is the sum of the weights of the reasons. *)
Definition tally_ok (t : Tally) : Prop :=
  t.1 = sum_weights t.2 ∧ Forall (λ r, 0 < r.1)%Z t.2.

Lemma add_reason_ok w r t : (0 < w)%Z → tally_ok t → tally_ok (add_reason w r t).
Proof.
  unfold tally_ok, add_reason. intros Hw [E F]. simpl. split.
  - rewrite sum_weights_app, E. unfold sum_weights at 3. simpl. lia.
  - apply Forall_app. split; [done|]. by repeat constructor.
Qed.

Ltac tally :=
  repeat match goal with
  | |- tally_ok (match ?x with _ => _ end) => destruct x
  | |- tally_ok (if ?x then _ else _) => destruct x
  | |- tally_ok (add_reason _ _ _) => apply add_reason_ok; [lia|]
  end; try done.

Lemma tally_is_ok sc e d : tally_ok (tally sc e d).
Proof.
  unfold tally, score_send, score_destructive, score_native, score_secret, score_network,
    score_fs_write, score_descriptor. cbv zeta.
  assert (tally_ok (0%Z, [])) as H0 by (by split; [|constructor]). tally.
Qed.

(** What each step adds to the total, on its own. *)
Definition descriptor_weight (d : DescriptorStatus) : Z :=
  match d with
  | DescriptorStatus.ApprovedStable => 0
  | DescriptorStatus.FirstSeen => 15
  | DescriptorStatus.Drifted => 25
  end.

Definition has (k : EffectKind) (e : EffectVector) : bool := contains_effect k (effects e).

Definition weight_if (w : Z) (b : bool) : Z := if b then w else 0.

Definition writes_outside (sc : RiskScorer) (e : EffectVector) : bool :=
  negb (bool_decide (project_roots sc = []))
  && existsb (λ p, negb (scorer_under_any_root sc p)) (paths_write e).

Definition unknown_host (sc : RiskScorer) (e : EffectVector) : bool :=
  existsb (λ h, negb (bool_decide (h ∈ allowed_hosts sc))) (network_hosts e).

(** The weight table of the scorer. *)
Definition total_weight (sc : RiskScorer) (e : EffectVector) (d : DescriptorStatus) : Z :=
  (descriptor_weight d
   + weight_if 20 (has EffectKind.FsWrite e)
   + weight_if 30 (has EffectKind.FsWrite e && writes_outside sc e)
   + weight_if 15 (has EffectKind.NetOutbound e)
   + weight_if 20 (has EffectKind.NetOutbound e && unknown_host sc e)
   + weight_if 25 (has EffectKind.SecretUse e)
   + weight_if 30 (has EffectKind.ExecNative e)
   + weight_if 35 (destructive e)
   + weight_if 25 (has EffectKind.CommSend e || has EffectKind.BrowserSubmit e))%Z.

Lemma existsb_filter {A} (p : A → bool) (l : list A) :
  existsb p l = match List.filter p l with [] => false | _ => true end.
Proof. induction l as [|x l IH]; simpl; [done|]. by destruct (p x). Qed.

Lemma tally_total sc e d : (tally sc e d).1 = total_weight sc e d.
Proof.
  unfold tally, total_weight, score_send, score_destructive, score_native, score_secret,
    score_network, score_fs_write, score_descriptor, has, writes_outside, unknown_host,
    weight_if. cbv zeta. rewrite !existsb_filter.
  destruct (project_roots sc); destruct (List.filter _ (paths_write e));
    destruct (List.filter _ (network_hosts e));
    destruct (contains_effect EffectKind.FsWrite _), (contains_effect EffectKind.NetOutbound _),
      (contains_effect EffectKind.SecretUse _), (contains_effect EffectKind.ExecNative _),
      (destructive e), (contains_effect EffectKind.CommSend _),
      (contains_effect EffectKind.BrowserSubmit _), d; reflexivity.
Qed.

(** ** More effects, more risk *)

(** [e2] says at least what [e1] says. *)
Record effects_le (e1 e2 : EffectVector) : Prop := {
  le_effects : effects e1 ⊆ effects e2;
  le_paths_write : paths_write e1 ⊆ paths_write e2;
  le_hosts : network_hosts e1 ⊆ network_hosts e2;
  le_destructive : destructive e1 = true → destructive e2 = true;
}.

Definition status_le (d1 d2 : DescriptorStatus) : Prop :=
  (descriptor_weight d1 ≤ descriptor_weight d2)%Z.

Lemma contains_effect_elem k l : contains_effect k l = true ↔ k ∈ l.
Proof.
  unfold contains_effect. rewrite existsb_exists. split.
  - intros (x & Hx & E). apply bool_decide_eq_true_1 in E. subst.
    by apply list_elem_of_In.
  - intros Hk. exists k. split; [by apply list_elem_of_In|]. by apply bool_decide_eq_true_2.
Qed.

Lemma existsb_subset {A} (p : A → bool) l1 l2 :
  l1 ⊆ l2 → existsb p l1 = true → existsb p l2 = true.
Proof.
  intros Hs. rewrite !existsb_exists. intros (x & Hx & E). exists x. split; [|done].
  apply list_elem_of_In. apply Hs. by apply list_elem_of_In.
Qed.

Lemma has_le k e1 e2 : effects_le e1 e2 → has k e1 = true → has k e2 = true.
Proof.
  intros Hle. unfold has. rewrite !contains_effect_elem. apply (le_effects _ _ Hle).
Qed.

Lemma weight_if_le w b1 b2 :
  (0 ≤ w)%Z → (b1 = true → b2 = true) → (weight_if w b1 ≤ weight_if w b2)%Z.
Proof.
  intros Hw Hb. destruct b1, b2; simpl; try lia.
Qed.

Lemma total_weight_mono sc e1 e2 d1 d2 :
  effects_le e1 e2 → status_le d1 d2 →
  (total_weight sc e1 d1 ≤ total_weight sc e2 d2)%Z.
Proof.
  intros He Hd. unfold total_weight, status_le in *.
  assert (∀ k, has k e1 = true → has k e2 = true) as Hh by (intros k; by apply has_le).
  repeat apply Z.add_le_mono; try done; apply weight_if_le; try lia; auto.
  - rewrite !andb_true_iff. intros [Ha Hb]. split; [auto|]. revert Hb.
    unfold writes_outside. rewrite !andb_true_iff. intros [? Hb]. split; [done|].
    by apply (existsb_subset _ _ _ (le_paths_write _ _ He)).
  - rewrite !andb_true_iff. intros [Ha Hb]. split; [auto|]. revert Hb.
    by apply (existsb_subset _ _ _ (le_hosts _ _ He)).
  - apply He.
  - rewrite !orb_true_iff. intros [|]; auto.
Qed.

(** The score is accounted for: it is the weight table's total, capped at
    100 and never negative; the reasons are those that added to the total, no
    more and no fewer, each with a positive weight, heaviest first; and the
    score is 0 only when there is no reason. *)
Theorem score_is_explained sc e d :
  ∃ rs, (score sc e d).2 = rs.*2 ∧ Sort.Sorted (λ a b, (b.1 <=? a.1)%Z) rs
    ∧ Forall (λ r, 0 < r.1)%Z rs
    ∧ total_weight sc e d = sum_weights rs
    ∧ (score sc e d).1 = Z.min 100 (total_weight sc e d)
    ∧ ((score sc e d).1 = 0%Z ↔ (score sc e d).2 = []).
Proof.
  destruct (tally_is_ok sc e d) as [Ht Hp]. rewrite tally_total in Ht.
  pose proof (Sort.sort_perm (λ a b : Z * string, (b.1 <=? a.1)%Z) (tally sc e d).2) as P.
  rewrite <- P in Hp. rewrite <- (sum_weights_perm _ _ P) in Ht.
  destruct (sum_weights_pos _ Hp) as [H1 H2]. rewrite <- Ht in H1, H2.
  unfold score. rewrite tally_total. simpl. eexists. split; [reflexivity|].
  split_and!; try done.
  - apply Sort.sort_sorted; intros; lia.
  - lia.
  - rewrite <- length_zero_iff_nil, length_fmap, length_zero_iff_nil, <- H2. lia.
Qed.

(** Inferring more can only raise the score: a call with at least the
    effects, the written paths and the hosts of another, destructive if the
    other is, and whose descriptor is no better known, scores at least as much. *)
Theorem score_monotone sc e1 e2 d1 d2 :
  effects_le e1 e2 → status_le d1 d2 →
  ((score sc e1 d1).1 ≤ (score sc e2 d2).1)%Z.
Proof.
  intros He Hd. unfold score. rewrite !tally_total. simpl.
  pose proof (total_weight_mono sc e1 e2 d1 d2 He Hd). lia.
Qed.

Definition sample_effects (paths : list string) : EffectVector :=
  mkEffectVector [EffectKind.FsRead; EffectKind.FsWrite] [] paths [] [] [] false true.

Lemma score_monotone_witness :
  (15 ≤ (score (scorer_new [] ["/p"]) (sample_effects ["/p/a"; "/etc/x"])
           DescriptorStatus.Drifted).1)%Z.
Proof.
  change 15%Z with (score (scorer_new [] ["/p"]) effect_vector_default
    DescriptorStatus.FirstSeen).1.
  apply score_monotone; [split; simpl|]; try set_solver; done.
Defined.
