(* ===== verification/Deps.v ===== *)
(** * The code the sources call

    What [src/] relies on and does not contain, as the operations of a type
    class: SHA-256 (sha2), hexadecimal (hex), canonical JSON (serde_jcs), JSON
    text (serde_json, and the serialisation serde derives). [CratesLaws] states
    the documented behaviour the theorems use. [Redaction] is the interface the
    ledger has to vigil-redaction. *)

From S2P Require Import Prelude Text Types.

Class Crates := {
  sha256 : string → string;
  hex_encode : string → string;
  hex_decode : string → option string;
  jcs_to_vec : Value → option string;
  json_from_str : string → option Value;
  effects_to_json : EffectVector → string;
  effects_from_json : string → option EffectVector;
  argv_to_json : list string → string;
  argv_from_json : string → option (list string);
  (** [serde_json::to_string] and [Value::to_string]: compact JSON text. *)
  json_to_string : Value → string;
}.

Class CratesLaws `{Crates} : Prop := {
  sha256_length s : String.length (sha256 s) = 32%nat;
  hex_length s : String.length (hex_encode s) = (2 * String.length s)%nat;
  hex_decode_encode s : hex_decode (hex_encode s) = Some s;
  hex_lower s : Str.all Str.is_hex_lower (hex_encode s) = true;
  (** Canonical text is JSON, and reading it back gives a value with the same
      canonical text. *)
  jcs_parse v s :
    jcs_to_vec v = Some s →
    ∃ v', json_from_str s = Some v' ∧ jcs_to_vec v' = Some s;
  effects_roundtrip e : effects_from_json (effects_to_json e) = Some e;
  argv_roundtrip l : argv_from_json (argv_to_json l) = Some l;
}.

Class Redaction := {
  (** [vigil_redaction::detect_hard_secret]: the name of the rule that matches. *)
  detect_hard_secret : string → option string;
  (** [vigil_redaction::scrub_text] *)
  scrub_text : string → string;
  (** [redact_free_text] of a list of texts: one [vigil_redaction::redact] over
      the array of them. *)
  redact_free_text : list string → list string;
}.

(** What the gateway uses besides, on the results of tools. *)
Class ResultRedaction := {
  (** [vigil_redaction::redact]: the redacted value, and a line for the search index. *)
  redact : Value → Value * string;
  (** [vigil_redaction::is_secret_key_name] *)
  is_secret_key_name : string → bool;
  (** [vigil_redaction::scan_meta_instructions(text).len()] *)
  meta_instruction_count : string → nat;
}.

(** Text: regular expressions (regex, by the text of the pattern), URLs (url), the
    words of a command line (shlex). *)
Class TextCrates := {
  (** [Regex::new(pattern).is_match(s)], [.find_iter(s)] *)
  regex_is_match : string → string → bool;
  regex_find_iter : string → string → list string;
  (** [Url::parse(s).ok()] and its [host_str()] *)
  url_host : string → option string;
  (** [shlex::split(s)] *)
  shlex_split : string → option (list string);
}.

(** A document kept in a file: [serde_json::to_string_pretty], [from_str]. *)
Class Document (T : Type) := {
  to_string_pretty : T → option string;
  from_str : string → option T;
}.

(** The derived implementations read back what they write, which is not blank, and a
    line feed at the end does not matter. *)
Class DocumentLaws (T : Type) `{Document T} : Prop := {
  document_roundtrip m text :
    to_string_pretty m = Some text → from_str (text +:+ newline_str) = Some m;
  document_not_blank m text :
    to_string_pretty m = Some text → is_blank (text +:+ newline_str) = false;
}.

(** The file system of the host, as it is when it is asked. *)
Class FileSystem := {
  (** [dunce::canonicalize(p).ok()] *)
  fs_canonicalize : string → option string;
  (** [std::env::current_dir().ok()] *)
  current_dir : option string;
}.

Section CratesFacts.
Context `{CratesLaws}.

Lemma hex_encode_inj s t : hex_encode s = hex_encode t → s = t.
Proof.
  intros E. pose proof (hex_decode_encode s) as Hs. rewrite E, hex_decode_encode in Hs.
  congruence.
Qed.

(** The text of a digest: 64 lower-case hexadecimal digits. *)
Lemma digest_length s : String.length (hex_encode (sha256 s)) = 64%nat.
Proof. by rewrite hex_length, sha256_length. Qed.

Lemma digest_nonempty s : hex_encode (sha256 s) ≠ "".
Proof. intros E. pose proof (digest_length s) as Hl. by rewrite E in Hl. Qed.
End CratesFacts.

#[export] Hint Resolve digest_nonempty hex_encode_inj : vigil.
