(* ===== verification/Concrete.v ===== *)
(** * A concrete instance of the interfaces

    Small functions that satisfy [CratesLaws], on which the witnesses of the
    development run: hexadecimal as the crate writes it, a 40-bit polynomial
    checksum in 32 bytes in place of SHA-256, and a bracketed text notation in place of
    canonical JSON. Nothing here models the program. *)

From S2P Require Import Prelude Types Text Deps.

Module Toy.
Local Open Scope nat_scope.
(** ** Hexadecimal *)

Definition nibble (n : nat) : ascii :=
  ascii_of_nat (if (n <? 10)%nat then 48 + n else 87 + n).

Definition unnibble (a : ascii) : option nat :=
  let n := nat_of_ascii a in
  if Str.is_ascii_digit a then Some (n - 48)%nat
  else if Str.between 97 102 a then Some (n - 87)%nat
  else if Str.between 65 70 a then Some (n - 55)%nat
  else None.

Fixpoint to_hex (s : string) : string :=
  match s with
  | EmptyString => EmptyString
  | String a s' =>
      String (nibble (nat_of_ascii a / 16)) (String (nibble (nat_of_ascii a mod 16))
        (to_hex s'))
  end.

Fixpoint of_hex (s : string) : option string :=
  match s with
  | EmptyString => Some EmptyString
  | String a (String b s') =>
      h ← unnibble a; l ← unnibble b; rest ← of_hex s';
      Some (String (ascii_of_nat (16 * h + l)) rest)
  | String _ EmptyString => None
  end.

Lemma hex_byte a :
  (h ← unnibble (nibble (nat_of_ascii a / 16));
   l ← unnibble (nibble (nat_of_ascii a mod 16));
   Some (ascii_of_nat (16 * h + l))) = Some a.
Proof. by destruct a as [[] [] [] [] [] [] [] []]. Qed.

Lemma of_hex_to_hex s : of_hex (to_hex s) = Some s.
Proof.
  induction s as [|a s IH]; [done|]. cbn [to_hex of_hex]. rewrite IH.
  pose proof (hex_byte a) as Ha.
  destruct (unnibble (nibble (nat_of_ascii a / 16))) as [h|]; [|done].
  destruct (unnibble (nibble (nat_of_ascii a mod 16))) as [l|]; [|done].
  simpl in *. congruence.
Qed.

Lemma to_hex_length s : String.length (to_hex s) = (2 * String.length s)%nat.
Proof. induction s as [|a s IH]; simpl; [done|]. rewrite IH. lia. Qed.

Lemma to_hex_lower s : Str.all Str.is_hex_lower (to_hex s) = true.
Proof.
  induction s as [|a s IH]; [done|]. cbn [to_hex Str.all]. rewrite IH.
  by destruct a as [[] [] [] [] [] [] [] []].
Qed.

(** ** A checksum *)

Fixpoint poly (acc : Z) (s : string) : Z :=
  match s with
  | EmptyString => acc
  | String a s' => poly (Z.land (acc * 31 + Z.of_nat (nat_of_ascii a)) 1099511627775) s'
  end.

Definition checksum (s : string) : string := Bytes.be_bytes 32 (poly 7 s).

(** ** A text notation for values *)

Definition quote : ascii := "034"%char.
Definition special (a : ascii) : bool := Ascii.eqb a quote || Ascii.eqb a "\"%char.

Fixpoint w_str (s rest : string) : string :=
  match s with
  | EmptyString => String quote rest
  | String a s' =>
      if special a then String "\" (String a (w_str s' rest)) else String a (w_str s' rest)
  end.

Fixpoint r_str (s : string) : option (string * string) :=
  match s with
  | EmptyString => None
  | String a s' =>
      if Ascii.eqb a quote then Some (EmptyString, s')
      else if Ascii.eqb a "\" then
        match s' with
        | EmptyString => None
        | String b s'' => '(x, rest) ← r_str s''; Some (String b x, rest)
        end
      else '(x, rest) ← r_str s'; Some (String a x, rest)
  end.

Fixpoint w_pos (p : positive) (rest : string) : string :=
  match p with
  | xH => String "." rest
  | xO p' => String "0" (w_pos p' rest)
  | xI p' => String "1" (w_pos p' rest)
  end.

Fixpoint r_pos (s : string) : option (positive * string) :=
  match s with
  | EmptyString => None
  | String a s' =>
      if Ascii.eqb a "." then Some (xH, s')
      else '(p, rest) ← r_pos s';
           if Ascii.eqb a "0" then Some (xO p, rest)
           else if Ascii.eqb a "1" then Some (xI p, rest) else None
  end.

Fixpoint write (v : Value) (rest : string) : string :=
  match v with
  | JNull => String "n" rest
  | JBool true => String "t" rest
  | JBool false => String "f" rest
  | JNum Z0 => String "0" rest
  | JNum (Zpos p) => String "+" (w_pos p rest)
  | JNum (Zneg p) => String "-" (w_pos p rest)
  | JFloat t => String "~" (w_str t rest)
  | JStr s => String quote (w_str s rest)
  | JArr l => String "[" (foldr write (String "]" rest) l)
  | JObj fs =>
      String "{" (foldr (λ kv r, String quote (w_str kv.1 (write kv.2 r))) (String "}" rest) fs)
  end.

Section Many.
Context {A : Type} (close : ascii) (item : string → option (A * string)).

Fixpoint many (n : nat) (s : string) : option (list A * string) :=
  match n, s with
  | S n', String a s' =>
      if Ascii.eqb a close then Some ([], s')
      else '(x, r) ← item s; '(l, r') ← many n' r; Some (x :: l, r')
  | _, _ => None
  end.

(** The items are read back when each is, and none begins like the end. *)
Lemma many_ok (w : A → string → string) (l : list A) (n : nat) rest :
  length l < n →
  Forall (λ x, ∀ r, item (w x r) = Some (x, r)) l →
  Forall (λ x, ∀ r, ∃ a t, w x r = String a t ∧ Ascii.eqb a close = false) l →
  many n (foldr w (String close rest) l) = Some (l, rest).
Proof.
  revert n; induction l as [|x l IH]; intros [|n] Hn Hi Hc; simpl in *; try lia.
  { by rewrite Ascii.eqb_refl. }
  apply Forall_cons in Hi as [Hx Hi], Hc as [Hc Hcl].
  destruct (Hc (foldr w (String close rest) l)) as (a & t & Ew & Ea).
  specialize (Hx (foldr w (String close rest) l)).
  rewrite Ew in *. rewrite Ea. simpl in Hx. rewrite Hx. simpl.
  by rewrite IH by (done || lia).
Qed.
End Many.

Definition r_field (item : string → option (Value * string)) (s : string)
    : option ((string * Value) * string) :=
  match s with
  | String a s' =>
      '(k, r) ← r_str s'; '(v, r') ← item r; Some ((k, v), r')
  | EmptyString => None
  end.

Fixpoint read (n : nat) (s : string) : option (Value * string) :=
  match n, s with
  | S n', String a s' =>
      if Ascii.eqb a "n" then Some (JNull, s')
      else if Ascii.eqb a "t" then Some (JBool true, s')
      else if Ascii.eqb a "f" then Some (JBool false, s')
      else if Ascii.eqb a "0" then Some (JNum 0, s')
      else if Ascii.eqb a "+" then '(p, r) ← r_pos s'; Some (JNum (Zpos p), r)
      else if Ascii.eqb a "-" then '(p, r) ← r_pos s'; Some (JNum (Zneg p), r)
      else if Ascii.eqb a "~" then '(t, r) ← r_str s'; Some (JFloat t, r)
      else if Ascii.eqb a quote then '(t, r) ← r_str s'; Some (JStr t, r)
      else if Ascii.eqb a "[" then
        '(l, r) ← many "]" (read n') n s'; Some (JArr l, r)
      else if Ascii.eqb a "{" then
        '(l, r) ← many "}" (r_field (read n')) n s'; Some (JObj l, r)
      else None
  | _, _ => None
  end.

Lemma r_str_ok s rest : r_str (w_str s rest) = Some (s, rest).
Proof.
  induction s as [|a s IH]; [done|]. cbn [w_str].
  unfold special. destruct (Ascii.eqb a quote) eqn:Eq.
  { apply Ascii.eqb_eq in Eq as ->. cbn [orb r_str].
    change (Ascii.eqb "\" quote) with false. change (Ascii.eqb "\" "\") with true.
    cbv iota. by rewrite IH. }
  destruct (Ascii.eqb a "\") eqn:Eb; cbn [orb r_str].
  { apply Ascii.eqb_eq in Eb as ->.
    change (Ascii.eqb "\" quote) with false. change (Ascii.eqb "\" "\") with true.
    cbv iota. by rewrite IH. }
  by rewrite Eq, Eb, IH.
Qed.

Lemma r_pos_ok p rest : r_pos (w_pos p rest) = Some (p, rest).
Proof. induction p as [p IH|p IH|]; simpl; by rewrite ?IH. Qed.

Fixpoint size (v : Value) : nat :=
  match v with
  | JArr l => S (foldr (λ x n, size x + n) 0 l)
  | JObj fs => S (foldr (λ kv n, size kv.2 + n) 0 fs)
  | _ => 1
  end.

Lemma size_pos v : 1 ≤ size v.
Proof. destruct v; simpl; lia. Qed.

Lemma sum_bounds {A} (f : A → nat) (l : list A) :
  (∀ x, 1 ≤ f x) →
  length l ≤ foldr (λ x n, f x + n) 0 l ∧
  Forall (λ x, f x ≤ foldr (λ x n, f x + n) 0 l) l.
Proof.
  intros Hf. induction l as [|x l [IH1 IH2]]; simpl; [done|].
  specialize (Hf x). split; [lia|]. constructor; [lia|].
  eapply Forall_impl; [done|]. simpl. lia.
Qed.

Lemma write_head v rest :
  ∃ a t, write v rest = String a t ∧ Ascii.eqb a "]" = false.
Proof. by destruct v as [|[]|[]| | | |]; do 2 eexists. Qed.

Lemma read_write v : ∀ n rest, size v ≤ n → read n (write v rest) = Some (v, rest).
Proof.
  induction v as [|[]|[]| | |l IH|fs IH] using value_ind; intros [|n] rest Hn;
    try (pose proof (size_pos JNull); simpl in Hn; lia); try done.
  - simpl. by rewrite r_pos_ok.
  - simpl. by rewrite r_pos_ok.
  - simpl. by rewrite r_str_ok.
  - simpl. by rewrite r_str_ok.
  - cbn [write]. cbn [read]. cbn [size] in Hn.
    destruct (sum_bounds size l size_pos) as [Hl Hs].
    erewrite (many_ok "]" (read n) write); [done|lia| |].
    + rewrite Forall_forall in *. intros x Hx r. apply IH; [done|].
      specialize (Hs x Hx). simpl in Hs. lia.
    + rewrite Forall_forall. intros x _ r. apply write_head.
  - cbn [write]. cbn [read]. cbn [size] in Hn.
    destruct (sum_bounds (λ kv : string * Value, size kv.2) fs (λ kv, size_pos kv.2))
      as [Hl Hs].
    erewrite (many_ok "}" (r_field (read n))); [done|lia| |].
    + rewrite Forall_forall in *. intros [k x] Hx r. unfold r_field. simpl.
      rewrite r_str_ok. simpl. rewrite (IH (k, x)); [done|done|].
      specialize (Hs (k, x) Hx). simpl in *. lia.
    + rewrite Forall_forall. intros x _ r. by do 2 eexists.
Qed.

Lemma w_str_length s rest : String.length rest ≤ String.length (w_str s rest).
Proof. induction s as [|a s IH]; simpl; [lia|]. case_match; simpl; lia. Qed.

Lemma write_length v : ∀ rest, size v + String.length rest ≤ String.length (write v rest).
Proof.
  assert (Hp : ∀ p r, String.length r ≤ String.length (w_pos p r)).
  { intros p r. induction p; simpl; lia. }
  induction v as [|[]|[|p|p]|t|t|l IH|fs IH] using value_ind; intros rest; simpl;
    try (specialize (Hp p rest)); try (pose proof (w_str_length t rest)); try lia.
  - apply le_n_S. induction IH as [|x l Hx Hl IH]; simpl; [lia|].
    specialize (Hx (foldr write (String "]" rest) l)). lia.
  - apply le_n_S. induction IH as [|[k x] l Hx Hl IH]; simpl; [lia|].
    set (r := foldr _ (String "}" rest) l) in *. specialize (Hx r). pose proof (w_str_length k (write x r)).
    simpl in *. lia.
Qed.

Definition to_text (v : Value) : string := write v "".

Definition of_text (s : string) : option Value :=
  match read (String.length s) s with
  | Some (v, EmptyString) => Some v
  | _ => None
  end.

Lemma of_text_to_text v : of_text (to_text v) = Some v.
Proof.
  unfold of_text, to_text. rewrite read_write; [done|].
  pose proof (write_length v ""). simpl in *. lia.
Qed.

(** ** The records serde serialises *)

Definition kinds : list EffectKind :=
  [EffectKind.FsRead; EffectKind.FsWrite; EffectKind.DbRead; EffectKind.DbWrite;
   EffectKind.NetOutbound; EffectKind.ExecWasm; EffectKind.ExecNative;
   EffectKind.SecretUse; EffectKind.BrowserSubmit; EffectKind.CommSend;
   EffectKind.CredentialExchange].

Definition kind_of (s : string) : option EffectKind :=
  List.find (λ k, String.eqb (EffectKind.to_str k) s) kinds.

Definition strs_of (v : Value) : option (list string) :=
  match v with
  | JArr l => mapM as_str l
  | _ => None
  end.

Definition effects_value (e : EffectVector) : Value :=
  JArr [json_strs (EffectKind.to_str <$> effects e); json_strs (paths_read e);
        json_strs (paths_write e); json_strs (network_hosts e);
        json_strs (secret_refs e); json_strs (recipients e);
        JBool (destructive e); JBool (reversible e)].

Definition value_effects (v : Value) : option EffectVector :=
  match v with
  | JArr [ks; a; b; c; d; e; JBool x; JBool y] =>
      ks ← strs_of ks; ks ← mapM kind_of ks; a ← strs_of a; b ← strs_of b;
      c ← strs_of c; d ← strs_of d; e ← strs_of e;
      Some (mkEffectVector ks a b c d e x y)
  | _ => None
  end.

Lemma mapM_retract {A B} (f : A → B) (g : B → option A) l :
  (∀ x, g (f x) = Some x) → mapM g (f <$> l) = Some l.
Proof.
  intros Hg. apply mapM_Some. induction l as [|x l IH]; [constructor|].
  rewrite fmap_cons. by constructor.
Qed.

Lemma strs_of_json l : strs_of (json_strs l) = Some l.
Proof. by apply mapM_retract. Qed.

Lemma kind_of_to_str l : mapM kind_of (EffectKind.to_str <$> l) = Some l.
Proof. apply mapM_retract. by intros []. Qed.

Lemma value_effects_value e : value_effects (effects_value e) = Some e.
Proof.
  unfold value_effects, effects_value. rewrite !strs_of_json. simpl mbind.
  rewrite kind_of_to_str. by destruct e.
Qed.

#[export] Instance crates : Crates := {
  sha256 := checksum;
  hex_encode := to_hex;
  hex_decode := of_hex;
  jcs_to_vec v := Some (to_text v);
  json_from_str := of_text;
  effects_to_json e := to_text (effects_value e);
  effects_from_json s := v ← of_text s; value_effects v;
  argv_to_json l := to_text (json_strs l);
  argv_from_json s := v ← of_text s; strs_of v;
  json_to_string := to_text;
}.

#[export] Instance crates_laws : CratesLaws.
Proof.
  split; simpl.
  - intros s. exact (Bytes.length_be_bytes 32 (poly 7 s)).
  - apply to_hex_length.
  - apply of_hex_to_hex.
  - apply to_hex_lower.
  - intros v s [= <-]. exists v. by rewrite of_text_to_text.
  - intros e. rewrite of_text_to_text. apply value_effects_value.
  - intros l. rewrite of_text_to_text. apply strs_of_json.
Qed.

(** A detector of one rule, which the scrubber masks. *)
Fixpoint scrub (s : string) : string :=
  if Str.starts_with "ghp_" s then "[REDACTED]"
  else match s with
       | EmptyString => EmptyString
       | String a s' => String a (scrub s')
       end.

#[export] Instance redaction : Redaction := {
  detect_hard_secret s := if Str.find "ghp_" s is Some _ then Some "github_token" else None;
  scrub_text := scrub;
  redact_free_text l := scrub <$> l;
}.

#[export] Instance result_redaction : ResultRedaction := {
  redact v := (v, "");
  is_secret_key_name k := String.eqb k "password";
  meta_instruction_count s := if Str.find "ignore previous" s is Some _ then 1 else 0;
}.
#[export] Instance text_crates : TextCrates := {
  regex_is_match pattern s := str_contains "DROP" s;
  regex_find_iter pattern s := if str_contains "secret://" s then ["secret://tok"] else [];
  url_host s := take_while (λ a, negb (Ascii.eqb a "/")) <$> strip_prefix "https://" s;
  shlex_split s := Some (List.filter (λ w, negb (Str.is_empty w)) (split_char " " s));
}.

(** A file system with one symbolic link, from the project to [/etc]. *)
#[export] Instance file_system : FileSystem := {
  fs_canonicalize p := if String.eqb p "/p/link" then Some "/etc" else None;
  current_dir := Some "/p";
}.
End Toy.
