(* ===== verification/Db.v ===== *)
(** * The audit database

    The tables of [src/crates/vigil-audit/src/schema.sql] that the modelled
    operations touch, as one record, with the errors of vigil-audit. A table
    with a primary key is a finite map from the key to the row; [events], whose
    key is SQLite's rowid, is the list of its rows in rowid order. The state
    also holds what a [Ledger] keeps in memory: the results published to
    waiters and the counter of failed drops.

    A statement is modelled as the change it makes to the rows its WHERE clause
    selects. SQLite's own failures (I/O, a full disk), lock poisoning and
    schema migration are not modelled. *)

From S2P Require Import Prelude Types.

Module AuditError.
Inductive AuditError :=
| Sqlite (what : string)
| Json
| HardSecretDetected (rule : string)
| ChainBroken (event_id : Z)
| InvalidInput (reason : string)
| RegistryConflict (server_id : string)
| CheckpointMismatch (event_id : Z)
| CheckpointStoreCorrupt (reason : string).

#[global] Instance AuditError_eq_dec : EqDecision AuditError.
Proof. solve_decision. Defined.
End AuditError.
Abbreviation AuditError := AuditError.AuditError.

Record SessionRow := mkSessionRow {
  s_source : string;
  s_app_name : option string;
  s_started_at : Z;
  s_ended_at : option Z;
  s_risk_score : Z;
}.

Record EventRow := mkEventRow {
  e_event_id : Z;
  e_session_id : string;
  e_event_type : string;
  e_payload_json : string;
  e_redacted_text : option string;
  e_prev_hash : string;
  e_event_hash : string;
  e_created_at : Z;
  e_chain_version : Z;
}.

Record FtsRow := mkFtsRow {
  f_rowid : Z;
  f_session_id : string;
  f_event_type : string;
  f_redacted_text : string;
}.

Record ApprovalRow := mkApprovalRow {
  a_decision_id : string;
  a_invocation_id : string;
  a_session_id : string;
  a_title : string;
  a_summary : string;
  a_effect_json : string;
  a_status : string;
  a_scope : option string;
  a_args_hash : option string;
  a_server_id : option string;
  a_tool_name : option string;
  a_expires_at : Z;
  a_created_at : Z;
  a_resolved_at : option Z;
  a_resolved_by : option string;
}.

Record OutboxRow := mkOutboxRow {
  o_invocation_id : string;
  o_session_id : string;
  o_kind : string;
  o_preview_json : string;
  o_approval_id : option string;
  o_status : string;
  o_created_at : Z;
  o_approved_at : option Z;
  o_executed_at : option Z;
}.

Record ServerRow := mkServerRow {
  sv_transport : string;
  sv_command_json : option string;
  sv_url : option string;
  sv_first_seen_at : Z;
  sv_command_hash : option string;
  sv_descriptor_hash : option string;
  sv_trust_level : string;
  sv_sandbox_profile_id : option string;
  sv_pending_command_hash : option string;
  sv_last_drift_at : option Z;
  sv_pending_command_json : option string;
  sv_resolved_program_path : option string;
  sv_pending_resolved_program_path : option string;
}.

Record ToolRow := mkToolRow {
  t_descriptor_hash : string;
  t_first_seen_at : Z;
  t_approved_at : option Z;
  t_pending_hash : option string;
  t_last_seen_hash : string;
  t_last_seen_at : Z;
  t_last_drift_at : option Z;
}.

Record BindingRow := mkBindingRow {
  b_server_id : string;
  b_tool_name : string;
  b_secret_ref : string;
  b_injection_method : string;
  b_env_var_name : option string;
}.

Record SecretRefRow := mkSecretRefRow {
  sr_display_name : string;
  sr_provider : string;
  sr_fingerprint : string;
  sr_created_at : Z;
  sr_last_used_at : option Z;
}.

Record SandboxRow := mkSandboxRow {
  sb_profile_json : string;
  sb_profile_hash : string;
  sb_created_at : Z;
  sb_updated_at : Z;
}.

Record OAuthRow := mkOAuthRow {
  oa_resource : string;
  oa_authorization_server : string;
  oa_scope_set_json : string;
  oa_token_kind : string;
  oa_expires_at : option Z;
  oa_created_at : Z;
  oa_issuer : option string;
  oa_binding_event_id : option Z;
}.

Record ScanRow := mkScanRow {
  rs_session_id : string;
  rs_ts : Z;
  rs_source : string;
  rs_text_length_bucket : Z;
  rs_fingerprint : string;
}.

Record FindingRow := mkFindingRow {
  rf_finding_id : Z;
  rf_scan_id : string;
  rf_label : string;
  rf_offset_bucket : Z;
  rf_placeholder : string;
  rf_fingerprint : string;
  rf_action_taken : string;
}.

Record LedgerState := mkLedgerState {
  sessions : gmap string SessionRow;
  events : list EventRow;
  (** The highest event id ever given out ([sqlite_sequence]). *)
  event_seq : Z;
  event_fts : list FtsRow;
  approvals : gmap string ApprovalRow;
  outbox_items : gmap string OutboxRow;
  server_profiles : gmap string ServerRow;
  tool_descriptors : gmap (string * string) ToolRow;
  tool_secret_bindings : gmap (string * string * string * string) BindingRow;
  secret_refs : gmap string SecretRefRow;
  sandbox_profiles : gmap string SandboxRow;
  oauth_token_metadata : gmap string OAuthRow;
  redaction_scans : gmap string ScanRow;
  redaction_findings : list FindingRow;
  finding_seq : Z;
  (** [ApprovalBroker::waiters]: what was published for each approval. *)
  published : gmap string ApprovalResolution;
  drop_failure_count : Z;
}.

Definition empty_ledger : LedgerState :=
  mkLedgerState ∅ [] 0 [] ∅ ∅ ∅ ∅ ∅ ∅ ∅ ∅ ∅ [] 0 ∅ 0.

(** One table replaced, the others kept. *)
Definition set_sessions (x : gmap string SessionRow) (s : LedgerState) : LedgerState :=
  mkLedgerState x (events s) (event_seq s) (event_fts s) (approvals s) (outbox_items s)
    (server_profiles s) (tool_descriptors s) (tool_secret_bindings s) (secret_refs s)
    (sandbox_profiles s) (oauth_token_metadata s) (redaction_scans s)
    (redaction_findings s) (finding_seq s) (published s) (drop_failure_count s).
Definition set_approvals (x : gmap string ApprovalRow) (s : LedgerState) : LedgerState :=
  mkLedgerState (sessions s) (events s) (event_seq s) (event_fts s) x (outbox_items s)
    (server_profiles s) (tool_descriptors s) (tool_secret_bindings s) (secret_refs s)
    (sandbox_profiles s) (oauth_token_metadata s) (redaction_scans s)
    (redaction_findings s) (finding_seq s) (published s) (drop_failure_count s).
Definition set_outbox_items (x : gmap string OutboxRow) (s : LedgerState) : LedgerState :=
  mkLedgerState (sessions s) (events s) (event_seq s) (event_fts s) (approvals s) x
    (server_profiles s) (tool_descriptors s) (tool_secret_bindings s) (secret_refs s)
    (sandbox_profiles s) (oauth_token_metadata s) (redaction_scans s)
    (redaction_findings s) (finding_seq s) (published s) (drop_failure_count s).
Definition set_server_profiles (x : gmap string ServerRow)
    (s : LedgerState) : LedgerState :=
  mkLedgerState (sessions s) (events s) (event_seq s) (event_fts s) (approvals s)
    (outbox_items s) x (tool_descriptors s) (tool_secret_bindings s) (secret_refs s)
    (sandbox_profiles s) (oauth_token_metadata s) (redaction_scans s)
    (redaction_findings s) (finding_seq s) (published s) (drop_failure_count s).
Definition set_tool_descriptors (x : gmap (string * string) ToolRow)
    (s : LedgerState) : LedgerState :=
  mkLedgerState (sessions s) (events s) (event_seq s) (event_fts s) (approvals s)
    (outbox_items s) (server_profiles s) x (tool_secret_bindings s) (secret_refs s)
    (sandbox_profiles s) (oauth_token_metadata s) (redaction_scans s)
    (redaction_findings s) (finding_seq s) (published s) (drop_failure_count s).
Definition set_tool_secret_bindings (x : gmap (string * string * string * string) BindingRow)
    (s : LedgerState) : LedgerState :=
  mkLedgerState (sessions s) (events s) (event_seq s) (event_fts s) (approvals s)
    (outbox_items s) (server_profiles s) (tool_descriptors s) x (secret_refs s)
    (sandbox_profiles s) (oauth_token_metadata s) (redaction_scans s)
    (redaction_findings s) (finding_seq s) (published s) (drop_failure_count s).
Definition set_secret_refs (x : gmap string SecretRefRow) (s : LedgerState) : LedgerState :=
  mkLedgerState (sessions s) (events s) (event_seq s) (event_fts s) (approvals s)
    (outbox_items s) (server_profiles s) (tool_descriptors s) (tool_secret_bindings s) x
    (sandbox_profiles s) (oauth_token_metadata s) (redaction_scans s)
    (redaction_findings s) (finding_seq s) (published s) (drop_failure_count s).
Definition set_sandbox_profiles (x : gmap string SandboxRow)
    (s : LedgerState) : LedgerState :=
  mkLedgerState (sessions s) (events s) (event_seq s) (event_fts s) (approvals s)
    (outbox_items s) (server_profiles s) (tool_descriptors s) (tool_secret_bindings s)
    (secret_refs s) x (oauth_token_metadata s) (redaction_scans s)
    (redaction_findings s) (finding_seq s) (published s) (drop_failure_count s).
Definition set_oauth_token_metadata (x : gmap string OAuthRow)
    (s : LedgerState) : LedgerState :=
  mkLedgerState (sessions s) (events s) (event_seq s) (event_fts s) (approvals s)
    (outbox_items s) (server_profiles s) (tool_descriptors s) (tool_secret_bindings s)
    (secret_refs s) (sandbox_profiles s) x (redaction_scans s) (redaction_findings s)
    (finding_seq s) (published s) (drop_failure_count s).
Definition set_redaction_scans (x : gmap string ScanRow) (s : LedgerState) : LedgerState :=
  mkLedgerState (sessions s) (events s) (event_seq s) (event_fts s) (approvals s)
    (outbox_items s) (server_profiles s) (tool_descriptors s) (tool_secret_bindings s)
    (secret_refs s) (sandbox_profiles s) (oauth_token_metadata s) x
    (redaction_findings s) (finding_seq s) (published s) (drop_failure_count s).
Definition set_published (x : gmap string ApprovalResolution)
    (s : LedgerState) : LedgerState :=
  mkLedgerState (sessions s) (events s) (event_seq s) (event_fts s) (approvals s)
    (outbox_items s) (server_profiles s) (tool_descriptors s) (tool_secret_bindings s)
    (secret_refs s) (sandbox_profiles s) (oauth_token_metadata s) (redaction_scans s)
    (redaction_findings s) (finding_seq s) x (drop_failure_count s).
Definition set_drop_failure_count (x : Z) (s : LedgerState) : LedgerState :=
  mkLedgerState (sessions s) (events s) (event_seq s) (event_fts s) (approvals s)
    (outbox_items s) (server_profiles s) (tool_descriptors s) (tool_secret_bindings s)
    (secret_refs s) (sandbox_profiles s) (oauth_token_metadata s) (redaction_scans s)
    (redaction_findings s) (finding_seq s) (published s) x.
Definition set_events (x : list EventRow) (seq : Z) (fts : list FtsRow)
    (s : LedgerState) : LedgerState :=
  mkLedgerState (sessions s) x seq fts (approvals s) (outbox_items s)
    (server_profiles s) (tool_descriptors s) (tool_secret_bindings s) (secret_refs s)
    (sandbox_profiles s) (oauth_token_metadata s) (redaction_scans s)
    (redaction_findings s) (finding_seq s) (published s) (drop_failure_count s).
Definition set_redaction_findings (x : list FindingRow) (seq : Z)
    (s : LedgerState) : LedgerState :=
  mkLedgerState (sessions s) (events s) (event_seq s) (event_fts s) (approvals s)
    (outbox_items s) (server_profiles s) (tool_descriptors s) (tool_secret_bindings s)
    (secret_refs s) (sandbox_profiles s) (oauth_token_metadata s) (redaction_scans s) x
    seq (published s) (drop_failure_count s).

(** A method of [Ledger]. *)
Abbreviation LedgerM := (M LedgerState AuditError).

Definition invalid {A} (reason : string) : LedgerM A :=
  throw (AuditError.InvalidInput reason).

(** An [UPDATE ... WHERE key = k AND <p>]: the number of rows it changed. *)
Definition update_where {K V} `{Countable K} (k : K) (p : V → bool) (f : V → V)
    (m : gmap K V) : Z * gmap K V :=
  match m !! k with
  | Some v => if p v then (1%Z, <[k := f v]> m) else (0%Z, m)
  | None => (0%Z, m)
  end.

Section UpdateWhere.
Context {K V : Type} `{Countable K}.
Implicit Types (m : gmap K V) (k : K).

Lemma update_where_hit k p (f : V → V) m v :
  m !! k = Some v → p v = true → update_where k p f m = (1%Z, <[k := f v]> m).
Proof. intros Hm Hp. unfold update_where. by rewrite Hm, Hp. Qed.

Lemma update_where_miss k p (f : V → V) m :
  (∀ v, m !! k = Some v → p v = false) → update_where k p f m = (0%Z, m).
Proof.
  intros Hm. unfold update_where. destruct (m !! k) as [v|]; [|done].
  by rewrite Hm.
Qed.

(** The two outcomes of an update, by the number of rows it reports. *)
Lemma update_where_inv k p (f : V → V) m n m' :
  update_where k p f m = (n, m') →
  (n = 1%Z ∧ ∃ v, m !! k = Some v ∧ p v = true ∧ m' = <[k := f v]> m) ∨
  (n = 0%Z ∧ m' = m ∧ ∀ v, m !! k = Some v → p v = false).
Proof.
  unfold update_where. intros E.
  destruct (m !! k) as [v|] eqn:Hm; [|naive_solver].
  destruct (p v) eqn:Hp; simplify_eq; [left|right]; naive_solver.
Qed.
End UpdateWhere.
