(* ===== verification/Hash.v ===== *)
(** * The hash of an audit event

    [src/crates/vigil-audit/src/hash.rs]. The bytes given to SHA-256 are a
    definition of their own ([preimage_v1], [preimage_v2]): the updates the code
    makes to its hasher, in order. The facts are that this framing is injective
    and that the two versions never share a preimage. *)

From S2P Require Import Prelude Types Deps Db.

Definition DOMAIN_TAG : string := "vigil.ledger.event.v1".
Definition DOMAIN_TAG_V2 : string := "vigil.ledger.event.v2".
Definition CURRENT_CHAIN_VERSION : Z := 2.

Fixpoint zeros (n : nat) : string :=
  match n with
  | O => EmptyString
  | S n' => String "000"%char (zeros n')
  end.

Definition GENESIS_PREV_HASH_BYTES : string := zeros 32.

(** [update((x.len() as u64).to_be_bytes()); update(x)] *)
Definition framed (x : string) : string :=
  Bytes.u64_be (Z.of_nat (String.length x)) +:+ x.

Definition presence (o : option string) : string :=
  match o with
  | None => String "000"%char EmptyString
  | Some t => String "001"%char (framed t)
  end.

(** Fields 1 to 3, common to both versions. *)
Definition preimage_common (prev payload : string) (created_at : Z) (rest : string) : string :=
  Bytes.u32_be (Z.of_nat (String.length prev)) +:+ (prev +:+ (framed payload +:+
    (Bytes.u32_be 8 +:+ (Bytes.i64_be created_at +:+ rest)))).

Definition preimage_v1 (prev payload : string) (created_at : Z) : string :=
  DOMAIN_TAG +:+ preimage_common prev payload created_at "".

Definition preimage_v2 (prev payload : string) (created_at : Z)
    (session_id event_type : string) (redacted_text : option string) : string :=
  DOMAIN_TAG_V2 +:+ preimage_common prev payload created_at
    (framed session_id +:+ (framed event_type +:+ presence redacted_text)).

Section Hash.
Context `{Crates}.

Definition parse_prev_hash (hex_str : string) : result AuditError string :=
  if Str.is_empty hex_str then Ok GENESIS_PREV_HASH_BYTES
  else if negb (String.length hex_str =? 64)%nat then
    Err (AuditError.InvalidInput "prev_hash must be 64-char lower-hex or empty for genesis")
  else ok_or (hex_decode hex_str) (AuditError.InvalidInput "prev_hash is not valid hex").

Definition compute_event_hash (prev_hash_hex : string) (payload : Value)
    (created_at : Z) : result AuditError string :=
  let? prev_bytes := parse_prev_hash prev_hash_hex in
  let? payload_bytes := ok_or (jcs_to_vec payload) AuditError.Json in
  Ok (hex_encode (sha256 (preimage_v1 prev_bytes payload_bytes created_at))).

Definition compute_event_hash_v2 (prev_hash_hex : string) (payload : Value)
    (created_at : Z) (session_id event_type : string) (redacted_text : option string)
    : result AuditError string :=
  let? prev_bytes := parse_prev_hash prev_hash_hex in
  let? payload_bytes := ok_or (jcs_to_vec payload) AuditError.Json in
  Ok (hex_encode (sha256 (preimage_v2 prev_bytes payload_bytes created_at
    session_id event_type redacted_text))).
End Hash.

(** ** The framing is injective *)

(** The lengths a Rust slice can have ([isize::MAX]). *)
Definition slice_len (x : string) : Prop := (Z.of_nat (String.length x) < 2 ^ 63)%Z.

Lemma framed_inj x y s t :
  slice_len x → slice_len y → framed x +:+ s = framed y +:+ t → x = y ∧ s = t.
Proof.
  unfold slice_len, framed. rewrite <- !Str.append_assoc. intros Hx Hy E.
  apply Str.append_inj_len in E as [El E]; [|done].
  apply Bytes.u64_be_inj in El; [|lia..].
  apply Str.append_inj_len in E; [done|lia].
Qed.

Lemma presence_inj a b :
  from_option slice_len True a → from_option slice_len True b →
  presence a = presence b → a = b.
Proof.
  destruct a as [x|], b as [y|]; simpl; intros Hx Hy E; try done.
  assert (framed x +:+ "" = framed y +:+ "") as F by (rewrite !Str.append_nil_r; congruence).
  by apply framed_inj in F as [-> _].
Qed.

Lemma preimage_common_inj p1 p2 x1 x2 c1 c2 r1 r2 :
  String.length p1 = 32%nat → String.length p2 = 32%nat →
  slice_len x1 → slice_len x2 → Bytes.is_i64 c1 → Bytes.is_i64 c2 →
  preimage_common p1 x1 c1 r1 = preimage_common p2 x2 c2 r2 →
  p1 = p2 ∧ x1 = x2 ∧ c1 = c2 ∧ r1 = r2.
Proof.
  unfold preimage_common. intros L1 L2 X1 X2 C1 C2 E. rewrite L1, L2 in E.
  apply Str.append_inj_len in E as [_ E]; [|done].
  apply Str.append_inj_len in E as [-> E]; [|congruence].
  apply framed_inj in E as [-> E]; [|done..].
  apply Str.append_inj_len in E as [_ E]; [|done].
  apply Str.append_inj_len in E as [Ec ->]; [|done].
  by apply Bytes.i64_be_inj in Ec.
Qed.

(** One preimage never comes from both versions: the tags differ. *)
Lemma preimage_versions_disjoint p1 x1 c1 p2 x2 c2 s t r :
  preimage_v1 p1 x1 c1 ≠ preimage_v2 p2 x2 c2 s t r.
Proof. intros E. by apply Str.append_inj_len in E as [? _]. Qed.

Lemma preimage_v1_inj p1 p2 x1 x2 c1 c2 :
  String.length p1 = 32%nat → String.length p2 = 32%nat →
  slice_len x1 → slice_len x2 → Bytes.is_i64 c1 → Bytes.is_i64 c2 →
  preimage_v1 p1 x1 c1 = preimage_v1 p2 x2 c2 → p1 = p2 ∧ x1 = x2 ∧ c1 = c2.
Proof.
  intros L1 L2 X1 X2 C1 C2 E. apply Str.append_inj_len in E as [_ E]; [|done].
  apply preimage_common_inj in E; naive_solver.
Qed.

Lemma preimage_v2_inj p1 p2 x1 x2 c1 c2 s1 s2 t1 t2 r1 r2 :
  String.length p1 = 32%nat → String.length p2 = 32%nat →
  slice_len x1 → slice_len x2 → Bytes.is_i64 c1 → Bytes.is_i64 c2 →
  slice_len s1 → slice_len s2 → slice_len t1 → slice_len t2 →
  from_option slice_len True r1 → from_option slice_len True r2 →
  preimage_v2 p1 x1 c1 s1 t1 r1 = preimage_v2 p2 x2 c2 s2 t2 r2 →
  p1 = p2 ∧ x1 = x2 ∧ c1 = c2 ∧ s1 = s2 ∧ t1 = t2 ∧ r1 = r2.
Proof.
  intros L1 L2 X1 X2 C1 C2 S1 S2 T1 T2 R1 R2 E.
  apply Str.append_inj_len in E as [_ E]; [|done].
  apply preimage_common_inj in E as (-> & -> & -> & E); [|done..].
  apply framed_inj in E as [-> E]; [|done..].
  apply framed_inj in E as [-> E]; [|done..].
  apply presence_inj in E as ->; done.
Qed.

Section ParsePrev.
Context `{CratesLaws}.

Lemma parse_prev_hash_genesis : parse_prev_hash "" = Ok GENESIS_PREV_HASH_BYTES.
Proof. done. Qed.

(** The previous hash of a chain is a digest: it is read back exactly. *)
Lemma parse_prev_hash_digest s :
  parse_prev_hash (hex_encode (sha256 s)) = Ok (sha256 s).
Proof.
  unfold parse_prev_hash.
  assert (Str.is_empty (hex_encode (sha256 s)) = false) as ->.
  { apply String.eqb_neq, digest_nonempty. }
  by rewrite digest_length, hex_decode_encode.
Qed.

Lemma compute_event_hash_digest prev payload c h :
  compute_event_hash prev payload c = Ok h → ∃ p, h = hex_encode (sha256 p).
Proof.
  unfold compute_event_hash. intros E.
  destruct (parse_prev_hash prev); simplify_eq/=.
  destruct (jcs_to_vec payload); simplify_eq/=. by eauto.
Qed.

Lemma compute_event_hash_v2_digest prev payload c s t r h :
  compute_event_hash_v2 prev payload c s t r = Ok h → ∃ p, h = hex_encode (sha256 p).
Proof.
  unfold compute_event_hash_v2. intros E.
  destruct (parse_prev_hash prev); simplify_eq/=.
  destruct (jcs_to_vec payload); simplify_eq/=. by eauto.
Qed.
End ParsePrev.
