(* ===== verification/Ledger.v ===== *)
(** * The audit ledger

    [src/crates/vigil-audit/src/ledger.rs]: sessions and their risk score, the
    hash-chained event log, its verification and replay, the read-only
    summaries, and the redaction-scan tables. The clock ([now_secs]) and fresh
    identifiers ([Uuid::new_v4]) are arguments. Opening the database, its
    migrations, WAL checkpoints and full-text search are SQLite's and not
    modelled; where SQL leaves the order of ties open, the model picks one. *)

From S2P Require Import Prelude Types Deps Db Hash.

Definition RESERVED_EVENT_PREFIXES : list string :=
  ["tool_call."; "decision."; "approval."; "lease."].

Definition validate_nonempty (field v : string) : result AuditError unit :=
  if Str.is_empty v then
    Err (AuditError.InvalidInput
      (if String.eqb field "source" then "source must be non-empty"
       else if String.eqb field "session_id" then "session_id must be non-empty"
       else if String.eqb field "event_type" then "event_type must be non-empty"
       else if String.eqb field "approval_id" then "approval_id must be non-empty"
       else "non-empty field required"))
  else Ok tt.

(** ** Projections *)

Record AppendedEvent := mkAppendedEvent {
  ae_event_id : Z;
  ae_event_hash : string;
  ae_created_at : Z;
}.

Record EventHit := mkEventHit {
  eh_event_id : Z;
  eh_session_id : string;
  eh_event_type : string;
  eh_redacted_text : option string;
  eh_created_at : Z;
}.

Record ProtectionSummary := mkProtectionSummary {
  raw_secrets_blocked : Z;
  tool_result_leaks_detected : Z;
  secret_aliases_unresolved : Z;
  total_events_audited : Z;
  sessions_covered : Z;
  chain_intact : bool;
  recent : list EventHit;
}.

Record BrowserGuardCounts := mkBrowserGuardCounts {
  checks : Z;
  blocked : Z;
  redacted : Z;
}.

(** [ReplayEvent] and [EventDetailRow]: the row with its payload parsed. *)
Record EventDetailRow := mkEventDetailRow {
  ed_event_id : Z;
  ed_session_id : string;
  ed_event_type : string;
  ed_payload : Value;
  ed_redacted_text : option string;
  ed_prev_hash : string;
  ed_event_hash : string;
  ed_created_at : Z;
}.

Definition EVENT_TYPE_RAW_SECRET_BLOCKED : string := "raw_secret_attempt_detected".
Definition EVENT_TYPE_TOOL_RESULT_LEAK : string := "secret.leak_detected".
Definition EVENT_TYPE_SECRET_ALIAS_UNRESOLVED : string := "secret.alias_unresolved".
Definition BROWSER_GUARD_EVENT_TYPES : list string :=
  ["browser.paste_checked"; "browser.input_checked"; "browser.submit_checked"].

(** ** Sessions *)

Definition start_session (now : Z) (id source : string) (app_name : option string)
    : LedgerM string :=
  lift (validate_nonempty "source" source) ;!
  let! existing := gets (λ s, sessions s !! id) in
  match existing with
  | Some _ => throw (AuditError.Sqlite "UNIQUE constraint failed")
  | None =>
      modify (λ s, set_sessions
        (<[id := mkSessionRow source app_name now None 0]> (sessions s)) s) ;!
      ret id
  end.

(** [INSERT OR IGNORE INTO sessions] *)
Definition insert_or_ignore_session (now : Z) (session_id source : string)
    (m : gmap string SessionRow) : gmap string SessionRow :=
  match m !! session_id with
  | Some _ => m
  | None => <[session_id := mkSessionRow source None now None 0]> m
  end.

Definition add_risk (delta : Z) (r : SessionRow) : SessionRow :=
  mkSessionRow (s_source r) (s_app_name r) (s_started_at r) (s_ended_at r)
    (s_risk_score r + delta).

(** One immediate transaction. A sum outside the i64 range becomes a REAL in
    SQLite; reading it back as an i64 fails and the transaction rolls back. *)
Definition bump_session_risk (now : Z) (session_id : string) (delta : Z) : LedgerM Z :=
  lift (validate_nonempty "session_id" session_id) ;!
  let! ensured := gets (λ s, insert_or_ignore_session now session_id "unknown" (sessions s)) in
  let '(_, updated) := update_where session_id (λ _, true) (add_risk delta) ensured in
  match s_risk_score <$> updated !! session_id with
  | Some score =>
      if (Int.i64_min <=? score)%Z && (score <=? Int.i64_max)%Z then
        modify (set_sessions updated) ;! ret score
      else throw (AuditError.Sqlite "Invalid column type Real")
  | None => throw (AuditError.Sqlite "Query returned no rows")
  end.

Definition ensure_session (now : Z) (session_id source : string) : LedgerM unit :=
  lift (validate_nonempty "session_id" session_id) ;!
  lift (validate_nonempty "source" source) ;!
  modify (λ s, set_sessions (insert_or_ignore_session now session_id source (sessions s)) s).

Definition get_session_risk (session_id : string) : LedgerM Z :=
  lift (validate_nonempty "session_id" session_id) ;!
  gets (λ s, from_option s_risk_score 0%Z (sessions s !! session_id)).

(** Newest first, at most [limit]; of one source if given. *)
Definition list_sessions (source : option string) (limit : Z)
    : LedgerM (list (string * SessionRow)) :=
  gets (λ s, take (Z.to_nat limit)
    (Sort.sort (λ a b, (s_started_at b.2 <=? s_started_at a.2)%Z)
      (List.filter (λ kv, match source with
                          | Some src => String.eqb (s_source kv.2) src
                          | None => true
                          end) (map_to_list (sessions s))))).

(** ** The event log *)

Definition last_hash (l : list EventRow) : string :=
  from_option e_event_hash "" (last l).

Section Ledger.
Context `{Crates} `{Redaction}.

(** [if let Some(rule) = detect_hard_secret(..) { return Err(..) }] *)
Definition refuse_hard_secret (text : string) : result AuditError unit :=
  match detect_hard_secret text with
  | Some rule => Err (AuditError.HardSecretDetected rule)
  | None => Ok tt
  end.

Definition refuse_hard_secret_opt (text : option string) : result AuditError unit :=
  match text with
  | Some t => refuse_hard_secret t
  | None => Ok tt
  end.

Definition append_event_internal (now : Z) (session_id event_type : string)
    (payload : Value) (redacted_text : option string) : LedgerM AppendedEvent :=
  lift (validate_nonempty "session_id" session_id) ;!
  lift (validate_nonempty "event_type" event_type) ;!
  let! payload_str := lift (ok_or (jcs_to_vec payload) AuditError.Json) in
  lift (refuse_hard_secret payload_str) ;!
  lift (refuse_hard_secret_opt redacted_text) ;!
  let! prev_hash := gets (λ s, last_hash (events s)) in
  let! event_hash := lift
    (compute_event_hash_v2 prev_hash payload now session_id event_type redacted_text) in
  let! event_id := gets (λ s, event_seq s + 1)%Z in
  modify (λ s, set_events
    (events s ++ [mkEventRow event_id session_id event_type payload_str redacted_text
                    prev_hash event_hash now CURRENT_CHAIN_VERSION])
    event_id
    (event_fts s ++ [mkFtsRow event_id session_id event_type (default "" redacted_text)]) s) ;!
  ret (mkAppendedEvent event_id event_hash now).

Definition append_event (now : Z) (session_id event_type : string)
    (payload : Value) (redacted_text : option string) : LedgerM AppendedEvent :=
  if existsb (λ p, Str.starts_with p event_type) RESERVED_EVENT_PREFIXES then
    invalid "event_type uses a reserved prefix; use the typed Ledger API instead"
  else append_event_internal now session_id event_type payload redacted_text.

(** The loop body of [verify_chain]: the hash the row must carry. *)
Definition recompute (e : EventRow) (payload : Value) : result AuditError string :=
  if (e_chain_version e =? 1)%Z then
    compute_event_hash (e_prev_hash e) payload (e_created_at e)
  else if (e_chain_version e =? 2)%Z then
    compute_event_hash_v2 (e_prev_hash e) payload (e_created_at e)
      (e_session_id e) (e_event_type e) (e_redacted_text e)
  else Err (AuditError.ChainBroken (e_event_id e)).

Fixpoint verify_rows (expected_prev : string) (min_version : Z) (rows : list EventRow)
    : result AuditError unit :=
  match rows with
  | [] => Ok tt
  | e :: rest =>
      if negb (String.eqb (e_prev_hash e) expected_prev) then
        Err (AuditError.ChainBroken (e_event_id e))
      else if (e_chain_version e <? min_version)%Z then
        Err (AuditError.ChainBroken (e_event_id e))
      else
        let? payload := ok_or (json_from_str (e_payload_json e))
                          (AuditError.ChainBroken (e_event_id e)) in
        let? recomputed := recompute e payload in
        if negb (String.eqb recomputed (e_event_hash e)) then
          Err (AuditError.ChainBroken (e_event_id e))
        else verify_rows (e_event_hash e) (Z.max min_version (e_chain_version e)) rest
  end.

Definition verify_chain : LedgerM unit :=
  λ s, (verify_rows "" 1 (events s), s).

(** ** Reading events back *)

Definition detail (e : EventRow) (payload : Value) : EventDetailRow :=
  mkEventDetailRow (e_event_id e) (e_session_id e) (e_event_type e) payload
    (e_redacted_text e) (e_prev_hash e) (e_event_hash e) (e_created_at e).

Fixpoint replay_rows (rows : list EventRow) : result AuditError (list EventDetailRow) :=
  match rows with
  | [] => Ok []
  | e :: rest =>
      let? payload := ok_or (json_from_str (e_payload_json e))
                        (AuditError.ChainBroken (e_event_id e)) in
      let? out := replay_rows rest in
      Ok (detail e payload :: out)
  end.

Definition replay_session (session_id : string) : LedgerM (list EventDetailRow) :=
  lift (validate_nonempty "session_id" session_id) ;!
  λ s, (replay_rows (List.filter (λ e, String.eqb (e_session_id e) session_id) (events s)), s).

Definition replay_session_verified (session_id : string) : LedgerM (list EventDetailRow) :=
  verify_chain ;! replay_session session_id.

Definition row_detail (row : option EventRow) : result AuditError (option EventDetailRow) :=
  match row with
  | None => Ok None
  | Some e =>
      let? payload := ok_or (json_from_str (e_payload_json e)) AuditError.Json in
      Ok (Some (detail e payload))
  end.

Definition event_by_id (event_id : Z) (l : list EventRow) : option EventRow :=
  List.find (λ e, (e_event_id e =? event_id)%Z) l.

Definition get_event_detail (event_id : Z) : LedgerM (option EventDetailRow) :=
  λ s, (row_detail (event_by_id event_id (events s)), s).

(** The row of the highest [event_id]: the last of the log. *)
Definition head_detail : LedgerM (option EventDetailRow) :=
  λ s, (row_detail (last (events s)), s).
End Ledger.

(** ** What the log may hold *)

Definition fts_row (e : EventRow) : FtsRow :=
  mkFtsRow (e_event_id e) (e_session_id e) (e_event_type e) (default "" (e_redacted_text e)).

Section LogInv.
Context `{Crates} `{Redaction}.

Definition row_clean (e : EventRow) : Prop :=
  e_session_id e ≠ "" ∧ e_event_type e ≠ "" ∧
  detect_hard_secret (e_payload_json e) = None ∧
  refuse_hard_secret_opt (e_redacted_text e) = Ok tt.

(** The chain verifies, ids grow and none is above the sequence, the search
    table mirrors the log, and no row holds a hard secret. *)
Record log_inv (s : LedgerState) : Prop := {
  li_chain : verify_rows "" 1 (events s) = Ok tt;
  li_ids : Sort.Sorted Z.ltb (e_event_id <$> events s);
  li_seq : (0 ≤ event_seq s)%Z ∧
           Forall (λ e, 0 < e_event_id e ≤ event_seq s)%Z (events s);
  li_fts : event_fts s = fts_row <$> events s;
  li_clean : Forall row_clean (events s);
}.

(** How a writer may change the log: keep the invariant, only add rows. *)
Definition log_step (s s' : LedgerState) : Prop :=
  keeps log_inv s s' ∧ ∃ l, events s' = events s ++ l.
End LogInv.

(** ** Counts and recent events *)

Definition hit (e : EventRow) : EventHit :=
  mkEventHit (e_event_id e) (e_session_id e) (e_event_type e) (e_redacted_text e)
    (e_created_at e).

Definition str_in (x : string) (l : list string) : bool := existsb (String.eqb x) l.

Definition list_recent_events (session_id : option string)
    (event_type_filter : option (list string)) (limit : Z) : LedgerM (list EventHit) :=
  gets (λ s, hit <$> take (Z.to_nat limit) (reverse (List.filter
    (λ e, match session_id with
          | Some sid => String.eqb (e_session_id e) sid
          | None => true
          end &&
          match event_type_filter with
          | Some (t :: ts) => str_in (e_event_type e) (t :: ts)
          | _ => true
          end) (events s)))).

Definition event_count : LedgerM Z := gets (λ s, Z.of_nat (length (events s))).

Definition latest_event_id : LedgerM (option Z) :=
  gets (λ s, e_event_id <$> last (events s)).

Definition count_type (t : string) (l : list EventRow) : Z :=
  Z.of_nat (length (List.filter (λ e, String.eqb (e_event_type e) t) l)).

Definition protection_summary `{Crates} (recent_limit : Z) : LedgerM ProtectionSummary :=
  let! intact := attempt verify_chain in
  gets (λ s,
    let l := events s in
    mkProtectionSummary
      (count_type EVENT_TYPE_RAW_SECRET_BLOCKED l)
      (count_type EVENT_TYPE_TOOL_RESULT_LEAK l)
      (count_type EVENT_TYPE_SECRET_ALIAS_UNRESOLVED l)
      (Z.of_nat (length l))
      (Z.of_nat (length (remove_dups (e_session_id <$> l))))
      (is_ok intact)
      (if is_ok intact then
         hit <$> take (Z.to_nat recent_limit) (reverse (List.filter
           (λ e, str_in (e_event_type e)
              [EVENT_TYPE_RAW_SECRET_BLOCKED; EVENT_TYPE_TOOL_RESULT_LEAK;
               EVENT_TYPE_SECRET_ALIAS_UNRESOLVED]) l))
       else [])).

Definition browser_action `{Crates} (payload_json : string) : option string :=
  v ← json_from_str payload_json; a ← json_get "action" v; as_str a.

Definition count_action (c : BrowserGuardCounts) (action : option string)
    : BrowserGuardCounts :=
  mkBrowserGuardCounts (checks c + 1)
    (if bool_decide (action = Some "block") then blocked c + 1 else blocked c)
    (if bool_decide (action = Some "redact") then redacted c + 1 else redacted c).

Definition browser_guard_counts `{Crates} (since_epoch_secs : Z)
    : LedgerM BrowserGuardCounts :=
  gets (λ s, foldl (λ c e, count_action c (browser_action (e_payload_json e)))
    (mkBrowserGuardCounts 0 0 0)
    (List.filter (λ e, str_in (e_event_type e) BROWSER_GUARD_EVENT_TYPES
                       && (since_epoch_secs <=? e_created_at e)%Z) (events s))).
