(* ===== verification/Scans.v ===== *)
(** * The redaction-scan tables of the ledger

    [src/crates/vigil-audit/src/ledger.rs], lines 1152 to 1551: what a scan of a
    text found, without the text. Lengths and offsets are stored as bit widths,
    texts as fingerprints, and the placeholder is made here, never taken from
    the caller. *)

From S2P Require Import Prelude Types Db Ledger.

Definition ALLOWED_REDACTION_LABELS : list string :=
  ["secret"; "account_number"; "email"; "phone"; "person"; "address"; "date"; "url"].
Definition ALLOWED_SOURCES : list string := ["paste"; "tool_arg"; "tool_output"; "export"].
Definition ALLOWED_ACTIONS : list string := ["redacted"; "blocked"; "allowed_once"].

Record NewRedactionScan := mkNewRedactionScan {
  ns_session_id : string;
  ns_source : string;
  ns_text_length : Z;
  ns_fingerprint : string;
}.

Record NewRedactionFinding := mkNewRedactionFinding {
  nf_scan_id : string;
  nf_label : string;
  nf_offset : Z;
  nf_fingerprint : string;
  nf_action_taken : string;
}.

(** [u64::leading_zeros] *)
Definition leading_zeros (n : Z) : Z :=
  if (n =? 0)%Z then 64 else 63 - Z.log2 n.

Definition bit_width_bucket (n : Z) : Z :=
  if (n =? 0)%Z then 0 else 64 - leading_zeros n.

Definition validate_fingerprint (fp : string) : result AuditError unit :=
  if negb (String.length fp =? 32)%nat then
    Err (AuditError.InvalidInput "fingerprint_must_be_sha256_16byte_hex")
  else if negb (Str.all Str.is_hex_lower fp) then
    Err (AuditError.InvalidInput "fingerprint_must_be_lowercase_hex")
  else Ok tt.

Definition derive_placeholder (label action_taken : string) : string :=
  let verb :=
    if String.eqb action_taken "blocked" then "BLOCKED"
    else if String.eqb action_taken "allowed_once" then "ALLOWED_ONCE"
    else "REDACTED" in
  "[" +:+ verb +:+ " " +:+ label +:+ "]".

Definition insert_redaction_scan (now : Z) (id : string) (scan : NewRedactionScan)
    : LedgerM string :=
  if negb (str_in (ns_source scan) ALLOWED_SOURCES) then
    invalid "redaction_scan_source_not_allowed"
  else
    lift (validate_nonempty "session_id" (ns_session_id scan)) ;!
    lift (validate_fingerprint (ns_fingerprint scan)) ;!
    let! existing := gets (λ s, redaction_scans s !! id) in
    match existing with
    | Some _ => throw (AuditError.Sqlite "UNIQUE constraint failed")
    | None =>
        modify (λ s, set_redaction_scans
          (<[id := mkScanRow (ns_session_id scan) now (ns_source scan)
                     (bit_width_bucket (ns_text_length scan)) (ns_fingerprint scan)]>
             (redaction_scans s)) s) ;!
        ret id
    end.

(** [foreign_keys = ON]: the scan must exist. *)
Definition insert_redaction_finding (finding : NewRedactionFinding) : LedgerM Z :=
  if negb (str_in (nf_label finding) ALLOWED_REDACTION_LABELS) then
    invalid "redaction_finding_label_not_allowed"
  else if negb (str_in (nf_action_taken finding) ALLOWED_ACTIONS) then
    invalid "redaction_finding_action_not_allowed"
  else
    lift (validate_nonempty "scan_id" (nf_scan_id finding)) ;!
    lift (validate_fingerprint (nf_fingerprint finding)) ;!
    let! scan := gets (λ s, redaction_scans s !! nf_scan_id finding) in
    match scan with
    | None => throw (AuditError.Sqlite "FOREIGN KEY constraint failed")
    | Some _ =>
        let! id := gets (λ s, finding_seq s + 1)%Z in
        modify (λ s, set_redaction_findings
          (redaction_findings s ++
             [mkFindingRow id (nf_scan_id finding) (nf_label finding)
                (bit_width_bucket (nf_offset finding))
                (derive_placeholder (nf_label finding) (nf_action_taken finding))
                (nf_fingerprint finding) (nf_action_taken finding)]) id s) ;!
        ret id
    end.

(** [ORDER BY ts ASC, scan_id ASC] *)
Definition scan_leb (a b : string * ScanRow) : bool :=
  (rs_ts a.2 <? rs_ts b.2)%Z || ((rs_ts a.2 =? rs_ts b.2)%Z && Str.leb a.1 b.1).

Definition list_redaction_scans_by_session (session_id : string)
    : LedgerM (list (string * ScanRow)) :=
  lift (validate_nonempty "session_id" session_id) ;!
  gets (λ s, Sort.sort scan_leb
    (List.filter (λ kv, String.eqb (rs_session_id kv.2) session_id)
       (map_to_list (redaction_scans s)))).

(** [SELECT label, COUNT( * ) ... GROUP BY label ORDER BY cnt DESC, label ASC] *)
Definition label_leb (a b : string * Z) : bool :=
  (b.2 <? a.2)%Z || ((a.2 =? b.2)%Z && Str.leb a.1 b.1).

Definition aggregate_labels (l : list FindingRow) : list (string * Z) :=
  Sort.sort label_leb
    ((λ label, (label, Z.of_nat (length (List.filter
        (λ f, String.eqb (rf_label f) label) l)))) <$> remove_dups (rf_label <$> l)).

Definition aggregate_redaction_labels_by_session (session_id : string)
    : LedgerM (list (string * Z)) :=
  lift (validate_nonempty "session_id" session_id) ;!
  gets (λ s, aggregate_labels (List.filter
    (λ f, match redaction_scans s !! rf_scan_id f with
          | Some sc => String.eqb (rs_session_id sc) session_id
                       && String.eqb (rs_source sc) "tool_arg"
          | None => false
          end) (redaction_findings s))).

Definition aggregate_redaction_labels_global : LedgerM (list (string * Z)) :=
  gets (λ s, aggregate_labels (redaction_findings s)).

Definition list_recent_redaction_scans_with_counts (limit : Z)
    : LedgerM (list ((string * ScanRow) * Z)) :=
  let lim := if (limit =? 0)%Z then 50%Z else Z.min limit 500 in
  gets (λ s,
    (λ kv, (kv, Z.of_nat (length (List.filter
       (λ f, String.eqb (rf_scan_id f) kv.1) (redaction_findings s))))) <$>
    take (Z.to_nat lim) (reverse (Sort.sort scan_leb (map_to_list (redaction_scans s))))).

Definition list_redaction_findings_by_scan (scan_id : string) : LedgerM (list FindingRow) :=
  lift (validate_nonempty "scan_id" scan_id) ;!
  gets (λ s, List.filter (λ f, String.eqb (rf_scan_id f) scan_id) (redaction_findings s)).

(** ** What the tables may hold *)

Definition hex_fingerprint (fp : string) : Prop :=
  String.length fp = 32%nat ∧ Str.all Str.is_hex_lower fp = true.

Definition scan_clean (r : ScanRow) : Prop :=
  rs_source r ∈ ALLOWED_SOURCES ∧ hex_fingerprint (rs_fingerprint r)
  ∧ (0 ≤ rs_text_length_bucket r ≤ 64)%Z.

Definition finding_clean (r : FindingRow) : Prop :=
  rf_label r ∈ ALLOWED_REDACTION_LABELS ∧ rf_action_taken r ∈ ALLOWED_ACTIONS
  ∧ hex_fingerprint (rf_fingerprint r)
  ∧ rf_placeholder r = derive_placeholder (rf_label r) (rf_action_taken r)
  ∧ (0 ≤ rf_offset_bucket r ≤ 64)%Z.

Definition scans_clean (s : LedgerState) : Prop :=
  map_Forall (λ _, scan_clean) (redaction_scans s)
  ∧ Forall finding_clean (redaction_findings s)
  ∧ Forall (λ f, is_Some (redaction_scans s !! rf_scan_id f)) (redaction_findings s).

(** ** Lemmas *)

(** The bucket is the number of bits of [n]. *)
Lemma bit_width_bucket_spec n :
  (0 < n < 2 ^ 64)%Z →
  (2 ^ (bit_width_bucket n - 1) ≤ n < 2 ^ bit_width_bucket n)%Z.
Proof.
  intros Hn. unfold bit_width_bucket, leading_zeros.
  destruct (Z.eqb_spec n 0); [lia|].
  replace (64 - (63 - Z.log2 n))%Z with (Z.succ (Z.log2 n)) by lia.
  replace (Z.succ (Z.log2 n) - 1)%Z with (Z.log2 n) by lia.
  apply Z.log2_spec. lia.
Qed.

Lemma bit_width_bucket_range n :
  (0 ≤ n < 2 ^ 64)%Z → (0 ≤ bit_width_bucket n ≤ 64)%Z.
Proof.
  intros Hn. unfold bit_width_bucket, leading_zeros.
  destruct (Z.eqb_spec n 0); [lia|].
  pose proof (Z.log2_nonneg n). assert (Z.log2 n < 64)%Z; [|lia].
  apply Z.log2_lt_pow2; lia.
Qed.

Lemma str_in_spec x l : str_in x l = true ↔ x ∈ l.
Proof.
  unfold str_in. rewrite existsb_exists. split.
  - intros (y & Hy & ->%String.eqb_eq). by apply list_elem_of_In.
  - intros Hx. exists x. rewrite String.eqb_refl. split; [by apply list_elem_of_In|done].
Qed.

Lemma validate_fingerprint_ok fp u : validate_fingerprint fp = Ok u → hex_fingerprint fp.
Proof.
  unfold validate_fingerprint, hex_fingerprint. intros E.
  destruct (String.length fp =? 32)%nat eqn:El; [|done]. apply Nat.eqb_eq in El.
  by destruct (Str.all Str.is_hex_lower fp).
Qed.
