(* ===== verification/LedgerFacts.v ===== *)
(** * What the ledger guarantees

    The hash chain: an append keeps a verified chain verified, a verified chain
    never goes back to an older digest version, and two verified chains with one
    head agree on every field the digests bind. What an append refuses, and the
    invariant of the log that every writer keeps. *)

From S2P Require Import Prelude Types Deps Db Hash Ledger.

(** ** One append *)

Section Append.
Context `{CratesLaws} `{Redaction}.

(** Every way an append can go. *)
Lemma append_event_internal_inv now sid et p rt s :
  (∃ err, append_event_internal now sid et p rt s = (Err err, s)) ∨
  (∃ text h, sid ≠ "" ∧ et ≠ "" ∧ jcs_to_vec p = Some text
     ∧ detect_hard_secret text = None ∧ refuse_hard_secret_opt rt = Ok tt
     ∧ compute_event_hash_v2 (last_hash (events s)) p now sid et rt = Ok h
     ∧ append_event_internal now sid et p rt s =
       (Ok (mkAppendedEvent (event_seq s + 1) h now),
        set_events
          (events s ++ [mkEventRow (event_seq s + 1) sid et text rt
                          (last_hash (events s)) h now CURRENT_CHAIN_VERSION])
          (event_seq s + 1)
          (event_fts s ++ [mkFtsRow (event_seq s + 1) sid et (default "" rt)]) s)).
Proof.
  unfold append_event_internal, validate_nonempty, refuse_hard_secret.
  destruct (Str.is_empty sid) eqn:Es; [left; eexists; reflexivity|].
  destruct (Str.is_empty et) eqn:Ee; [left; eexists; reflexivity|].
  apply String.eqb_neq in Es, Ee. run_m.
  destruct (jcs_to_vec p) as [text|] eqn:Ej; simpl; [|left; eexists; reflexivity].
  destruct (detect_hard_secret text) eqn:Ed; simpl; [left; eexists; reflexivity|].
  destruct (refuse_hard_secret_opt rt) as [[]|] eqn:Er; simpl;
    [|left; eexists; reflexivity].
  destruct (compute_event_hash_v2 _ _ _ _ _ _) as [h|] eqn:Eh; simpl;
    [|left; eexists; reflexivity].
  right. exists text, h. done.
Qed.

Lemma append_event_cases now sid et p rt s :
  (∃ err, append_event now sid et p rt s = (Err err, s)) ∨
  append_event now sid et p rt s = append_event_internal now sid et p rt s.
Proof.
  unfold append_event. destruct (existsb _ _); [left; eexists; reflexivity | by right].
Qed.
End Append.

(** ** The chain *)

Section Chain.
Context `{CratesLaws} `{Redaction}.
Implicit Types (l : list EventRow) (e : EventRow).

(** One step of [verify_rows]. *)
Lemma verify_rows_cons prev v e l :
  verify_rows prev v (e :: l) = Ok tt ↔
  e_prev_hash e = prev ∧ (v ≤ e_chain_version e)%Z ∧
  (∃ payload, json_from_str (e_payload_json e) = Some payload
              ∧ recompute e payload = Ok (e_event_hash e)) ∧
  verify_rows (e_event_hash e) (Z.max v (e_chain_version e)) l = Ok tt.
Proof.
  simpl. split.
  - intros E. destruct (String.eqb_spec (e_prev_hash e) prev); [|done]. simpl in E.
    destruct (Z.ltb_spec (e_chain_version e) v); [done|].
    destruct (json_from_str (e_payload_json e)) as [payload|]; [|done]. simpl in E.
    destruct (recompute e payload) as [h|] eqn:Er; [|done]. simpl in E.
    destruct (String.eqb_spec h (e_event_hash e)) as [->|]; [|done].
    split_and!; eauto.
  - intros (-> & Hv & (payload & -> & Hr) & Hl). rewrite String.eqb_refl. simpl.
    destruct (Z.ltb_spec (e_chain_version e) v); [lia|]. rewrite Hr. simpl.
    by rewrite String.eqb_refl.
Qed.

Definition max_version (v : Z) l : Z := foldl (λ v e, Z.max v (e_chain_version e)) v l.
Definition end_hash (prev : string) l : string := from_option e_event_hash prev (last l).

Lemma end_hash_cons prev e l : end_hash prev (e :: l) = end_hash (e_event_hash e) l.
Proof. unfold end_hash. by destruct l using rev_ind; rewrite ?last_cons, ?last_snoc. Qed.

Lemma verify_rows_app prev v l1 l2 :
  verify_rows prev v (l1 ++ l2) = Ok tt ↔
  verify_rows prev v l1 = Ok tt ∧
  verify_rows (end_hash prev l1) (max_version v l1) l2 = Ok tt.
Proof.
  revert prev v; induction l1 as [|e l1 IH]; intros prev v; [naive_solver|].
  rewrite <- app_comm_cons, !verify_rows_cons, IH, end_hash_cons. simpl. tauto.
Qed.

(** A row that verifies is of version 1 or 2, and its hash is a digest. *)
Lemma recompute_ok e payload h :
  recompute e payload = Ok h →
  (e_chain_version e = 1 ∨ e_chain_version e = 2)%Z ∧ ∃ p, h = hex_encode (sha256 p).
Proof.
  unfold recompute. intros E.
  destruct (Z.eqb_spec (e_chain_version e) 1) as [->|].
  { split; [by left|]. by eapply compute_event_hash_digest. }
  destruct (Z.eqb_spec (e_chain_version e) 2) as [->|]; [|done].
  split; [by right|]. by eapply compute_event_hash_v2_digest.
Qed.

Lemma verified_version prev v l :
  verify_rows prev v l = Ok tt →
  Forall (λ e, (e_chain_version e = 1 ∨ e_chain_version e = 2) ∧ v ≤ e_chain_version e)%Z l.
Proof.
  revert prev v; induction l as [|e l IH]; intros prev v; [done|].
  rewrite verify_rows_cons. intros (_ & Hv & (payload & _ & Hr) & Hl).
  apply recompute_ok in Hr as [Hr _]. constructor; [done|].
  eapply Forall_impl; [by eapply IH|]. simpl. intros e' [? ?]. split; [done|lia].
Qed.

Lemma verified_max_version prev v l :
  (v ≤ 2)%Z → verify_rows prev v l = Ok tt → (max_version v l ≤ 2)%Z.
Proof.
  revert prev v; induction l as [|e l IH]; intros prev v Hv; [done|].
  rewrite verify_rows_cons. intros (_ & _ & (payload & _ & Hr) & Hl).
  apply recompute_ok in Hr as [Hr _]. eapply IH; [|done]. lia.
Qed.

(** The head of a verified log: nothing, or a digest. *)
Lemma verified_last_hash l :
  verify_rows "" 1 l = Ok tt →
  last_hash l = "" ∨ ∃ p, last_hash l = hex_encode (sha256 p).
Proof.
  unfold last_hash. destruct l as [|e l _] using rev_ind; [by left|].
  rewrite last_snoc, verify_rows_app, verify_rows_cons. simpl.
  intros (_ & _ & _ & (payload & _ & Hr) & _). right.
  by apply recompute_ok in Hr as [_ Hr].
Qed.

Lemma verified_prev_parses l :
  verify_rows "" 1 l = Ok tt → is_ok (parse_prev_hash (last_hash l)) = true.
Proof.
  intros [-> | [p ->]]%verified_last_hash; [done|]. by rewrite parse_prev_hash_digest.
Qed.

(** The row an append writes verifies behind the rows already there. *)
Lemma append_row_verifies now sid et p rt text h id l :
  verify_rows "" 1 l = Ok tt → jcs_to_vec p = Some text →
  compute_event_hash_v2 (last_hash l) p now sid et rt = Ok h →
  verify_rows "" 1 (l ++ [mkEventRow id sid et text rt (last_hash l) h now
                            CURRENT_CHAIN_VERSION]) = Ok tt.
Proof.
  intros Hl Hj Hh. apply verify_rows_app. split; [done|].
  apply verify_rows_cons. simpl.
  destruct (jcs_parse p text Hj) as (p' & Hp' & Hj').
  split_and!; [done| |exists p'; split; [done|]|done].
  - unfold CURRENT_CHAIN_VERSION. eapply verified_max_version; [|done]. lia.
  - unfold recompute, compute_event_hash_v2 in *. simpl. by rewrite Hj', <- Hj.
Qed.
End Chain.

(** ** What the head of a chain determines *)

Section Binding.
Context `{CratesLaws}.
Implicit Types (l : list EventRow) (e : EventRow) (p : string).

Definition canonical e : option string :=
  v ← json_from_str (e_payload_json e); jcs_to_vec v.

(** What the hash of a row is a digest of. *)
Definition row_preimage e : option string :=
  text ← canonical e;
  match parse_prev_hash (e_prev_hash e) with
  | Ok prev =>
      Some (if (e_chain_version e =? 1)%Z then preimage_v1 prev text (e_created_at e)
            else preimage_v2 prev text (e_created_at e) (e_session_id e)
                   (e_event_type e) (e_redacted_text e))
  | Err _ => None
  end.

(** The part of a row its digest binds. *)
Definition bound_fields e :=
  (e_chain_version e, e_prev_hash e, e_event_hash e, e_created_at e, canonical e,
   if (e_chain_version e =? 1)%Z then None
   else Some (e_session_id e, e_event_type e, e_redacted_text e)).

(** SHA-256 behaves on these texts: no two share a digest, none gives zeros. *)
Definition collision_free (ps : list string) : Prop :=
  (∀ p q, p ∈ ps → q ∈ ps → sha256 p = sha256 q → p = q) ∧
  (∀ p, p ∈ ps → sha256 p ≠ GENESIS_PREV_HASH_BYTES).

(** The values fit the machine types of the columns. *)
Definition row_fits e : Prop :=
  Bytes.is_i64 (e_created_at e) ∧ slice_len (e_session_id e)
  ∧ slice_len (e_event_type e) ∧ from_option slice_len True (e_redacted_text e)
  ∧ from_option slice_len True (canonical e).

Lemma collision_free_sub ps qs : ps ⊆ qs → collision_free qs → collision_free ps.
Proof. intros Hs [Hi Hz]. split; eauto. Qed.

Lemma recompute_preimage e payload h :
  json_from_str (e_payload_json e) = Some payload → recompute e payload = Ok h →
  ∃ p, row_preimage e = Some p ∧ h = hex_encode (sha256 p).
Proof.
  unfold row_preimage, canonical, recompute, compute_event_hash, compute_event_hash_v2.
  intros -> E. simpl.
  destruct (e_chain_version e =? 1)%Z; [|destruct (e_chain_version e =? 2)%Z; [|done]];
    destruct (parse_prev_hash _) as [prev|]; [|done| |done]; simpl in *;
    destruct (jcs_to_vec payload) as [text|]; [|done| |done]; simplify_eq/=; by eauto.
Qed.

(** The head of a verified log is the digest of a preimage of the log. *)
Lemma verified_head l :
  verify_rows "" 1 l = Ok tt →
  (l = [] ∧ last_hash l = "") ∨
  ∃ p, p ∈ omap row_preimage l ∧ last_hash l = hex_encode (sha256 p).
Proof.
  unfold last_hash. destruct l as [|e l _] using rev_ind; [by left|].
  rewrite last_snoc, verify_rows_app, verify_rows_cons. simpl.
  intros (_ & _ & _ & (payload & Hj & Hr) & _). right.
  destruct (recompute_preimage e payload _ Hj Hr) as (p & Hp & Hh).
  exists p. split; [|done]. apply list_elem_of_omap. exists e.
  split; [|done]. apply elem_of_app. right. by left.
Qed.

Lemma verified_prev_bytes l :
  verify_rows "" 1 l = Ok tt →
  ∃ b, parse_prev_hash (last_hash l) = Ok b ∧ String.length b = 32%nat ∧
    ((l = [] ∧ b = GENESIS_PREV_HASH_BYTES) ∨
     ∃ p, p ∈ omap row_preimage l ∧ last_hash l = hex_encode (sha256 p) ∧ b = sha256 p).
Proof.
  intros [[-> E]|(p & Hp & E)]%verified_head; rewrite E.
  - eexists. split_and!; [done|done|by left].
  - rewrite parse_prev_hash_digest. eexists. split_and!; [done|apply sha256_length|].
    right. by exists p.
Qed.

Lemma row_preimage_inj e1 e2 p b1 b2 :
  row_preimage e1 = Some p → row_preimage e2 = Some p → row_fits e1 → row_fits e2 →
  parse_prev_hash (e_prev_hash e1) = Ok b1 → parse_prev_hash (e_prev_hash e2) = Ok b2 →
  String.length b1 = 32%nat → String.length b2 = 32%nat →
  (e_chain_version e1 = 1 ∨ e_chain_version e1 = 2)%Z →
  (e_chain_version e2 = 1 ∨ e_chain_version e2 = 2)%Z →
  e_event_hash e1 = e_event_hash e2 →
  b1 = b2 ∧ (e_prev_hash e1 = e_prev_hash e2 → bound_fields e1 = bound_fields e2).
Proof.
  unfold row_preimage, row_fits, bound_fields.
  destruct (canonical e1) as [x1|], (canonical e2) as [x2|]; try done. simpl.
  intros E1 E2 (C1 & S1 & T1 & R1 & X1) (C2 & S2 & T2 & R2 & X2) P1 P2 L1 L2 V1 V2 Eh.
  rewrite P1 in E1. rewrite P2 in E2. rewrite <- E2 in E1. clear E2 p. injection E1 as E.
  destruct V1 as [V1|V1], V2 as [V2|V2]; rewrite V1, V2 in *; simpl in *.
  - apply preimage_v1_inj in E as (-> & -> & ->); [|done..].
    split; [done|]. by intros ->; rewrite Eh.
  - by apply preimage_versions_disjoint in E.
  - by apply symmetry, preimage_versions_disjoint in E.
  - apply preimage_v2_inj in E as (-> & -> & -> & -> & -> & ->); [|done..].
    split; [done|]. by intros ->; rewrite Eh.
Qed.

Lemma verified_last_row l e :
  verify_rows "" 1 (l ++ [e]) = Ok tt →
  verify_rows "" 1 l = Ok tt ∧ e_prev_hash e = last_hash l ∧
  (e_chain_version e = 1 ∨ e_chain_version e = 2)%Z ∧
  ∃ p, row_preimage e = Some p ∧ e_event_hash e = hex_encode (sha256 p).
Proof.
  rewrite verify_rows_app, verify_rows_cons.
  intros (Hl & Hp & _ & (payload & Hj & Hr) & _).
  split_and!; [done|done| |by eapply recompute_preimage].
  by apply recompute_ok in Hr as [? _].
Qed.

(** Two verified logs whose heads have one digest have one head text. *)
Lemma prev_bytes_determine l1 l2 b :
  verify_rows "" 1 l1 = Ok tt → verify_rows "" 1 l2 = Ok tt →
  collision_free (omap row_preimage (l1 ++ l2)) →
  parse_prev_hash (last_hash l1) = Ok b → parse_prev_hash (last_hash l2) = Ok b →
  last_hash l1 = last_hash l2.
Proof.
  intros H1 H2 [_ Hz] P1 P2. rewrite omap_app in Hz.
  destruct (verified_prev_bytes l1 H1) as (b1 & E1 & _ & [[-> ->]|(p & Hp & Hp1 & ->)]),
    (verified_prev_bytes l2 H2) as (b2 & E2 & _ & [[-> ->]|(q & Hq & Hq1 & ->)]);
    rewrite P1 in E1; rewrite P2 in E2; simplify_eq.
  - done.
  - edestruct Hz; [|by symmetry]. apply elem_of_app; by right.
  - edestruct Hz; [|done]. apply elem_of_app; by left.
  - congruence.
Qed.

(** One head, one history: the rows agree on everything their digests bind. *)
Lemma verified_agree l1 l2 :
  verify_rows "" 1 l1 = Ok tt → verify_rows "" 1 l2 = Ok tt →
  Forall row_fits l1 → Forall row_fits l2 →
  collision_free (omap row_preimage (l1 ++ l2)) →
  last_hash l1 = last_hash l2 → bound_fields <$> l1 = bound_fields <$> l2.
Proof.
  revert l2; induction l1 as [|e1 l1 IH] using rev_ind; intros l2 H1 H2 F1 F2 HC E.
  { destruct (verified_head l2 H2) as [[-> _]|(p & _ & Hp)]; [done|].
    rewrite <- E in Hp. by destruct (digest_nonempty p). }
  destruct l2 as [|e2 l2 _] using rev_ind.
  { destruct (verified_head _ H1) as [[? _]|(p & _ & Hp)]; [by destruct l1|].
    rewrite E in Hp. by destruct (digest_nonempty p). }
  apply Forall_app in F1 as [F1 [Fe1 _]%Forall_cons], F2 as [F2 [Fe2 _]%Forall_cons].
  apply verified_last_row in H1 as (H1 & P1 & V1 & p1 & Q1 & D1).
  apply verified_last_row in H2 as (H2 & P2 & V2 & p2 & Q2 & D2).
  unfold last_hash in E. rewrite !last_snoc in E. simpl in E.
  assert (p1 = p2) as <-.
  { rewrite D1, D2 in E. apply hex_encode_inj in E. apply HC; [| |done];
      apply list_elem_of_omap; [exists e1|exists e2]; set_solver. }
  destruct (verified_prev_bytes l1 H1) as (b1 & E1 & L1 & _).
  destruct (verified_prev_bytes l2 H2) as (b2 & E2 & L2 & _).
  rewrite <- P1 in E1. rewrite <- P2 in E2.
  destruct (row_preimage_inj e1 e2 p1 b1 b2) as [<- Hb]; try done.
  rewrite P1 in E1. rewrite P2 in E2.
  assert (last_hash l1 = last_hash l2) as Hl.
  { eapply prev_bytes_determine; try done.
    eapply collision_free_sub; [|done]. rewrite !omap_app. set_solver. }
  rewrite !fmap_app. simpl. f_equal; [|by rewrite Hb; [|congruence]].
  apply IH; try done.
  eapply collision_free_sub; [|done]. rewrite !omap_app. set_solver.
Qed.
End Binding.

(** ** Every writer keeps the log *)

Section LogStep.
Context `{CratesLaws} `{Redaction}.

#[export] Instance log_step_preorder : PreOrder log_step.
Proof.
  split; unfold log_step.
  - intros s. split; [reflexivity|]. exists []. by rewrite app_nil_r.
  - intros s t u [Ha [l1 E1]] [Hb [l2 E2]]. split; [by etransitivity|].
    exists (l1 ++ l2). by rewrite E2, E1, app_assoc.
Qed.

(** A change of the other tables. *)
Lemma log_step_other s s' :
  events s' = events s → event_seq s' = event_seq s → event_fts s' = event_fts s →
  log_step s s'.
Proof.
  intros E1 E2 E3. split; [|by exists []; rewrite app_nil_r].
  intros [? ? ? ? ?]. split; by rewrite ?E1, ?E2, ?E3.
Qed.

Lemma log_inv_empty : log_inv empty_ledger.
Proof. split; simpl; try done; constructor. Qed.

Lemma ids_snoc (l : list EventRow) e n :
  Sort.Sorted Z.ltb (e_event_id <$> l) → Forall (λ e, 0 < e_event_id e ≤ n)%Z l →
  (n < e_event_id e)%Z → Sort.Sorted Z.ltb (e_event_id <$> l ++ [e]).
Proof.
  unfold Sort.Sorted. intros Hl Hn He. rewrite fmap_app. simpl.
  induction l as [|x l IH]; simpl in *; [by repeat constructor|].
  apply Forall_cons in Hn as [Hx Hn]. inversion_clear Hl as [|? ? Hs Hf].
  constructor; [by apply IH|]. apply Forall_app. split; [done|].
  constructor; [|done]. apply Z.ltb_lt. lia.
Qed.

Lemma append_keeps_log now sid et p rt s s' ev :
  append_event_internal now sid et p rt s = (Ok ev, s') → log_inv s → log_inv s'.
Proof.
  destruct (append_event_internal_inv now sid et p rt s)
    as [[err E]|(text & h & Hs & Ht & Hj & Hd & Hr & Hh & E)]; rewrite E; [done|].
  intros [= <- <-] [Hc Hi [Hq1 Hq2] Hf Hl]. split; simpl.
  - by eapply append_row_verifies.
  - eapply ids_snoc; [done..|simpl; lia].
  - split; [lia|]. apply Forall_app. split; [|constructor; [simpl; lia|done]].
    eapply Forall_impl; [exact Hq2|]. simpl. lia.
  - rewrite Hf, fmap_app. done.
  - apply Forall_app. split; [done|]. by constructor.
Qed.

Lemma append_event_internal_step now sid et p rt :
  preserves log_step (append_event_internal now sid et p rt).
Proof.
  intros s. pose proof (append_keeps_log now sid et p rt s) as Hk.
  destruct (append_event_internal_inv now sid et p rt s)
    as [[err E]|(text & h & _ & _ & _ & _ & _ & _ & E)]; rewrite E in *; simpl.
  - reflexivity.
  - split; [exact (Hk _ _ eq_refl)|]. eexists. reflexivity.
Qed.

(** What a caller needs of an append: refused, or only the log changed. *)
Lemma append_event_internal_shape now sid et p rt s :
  (∃ err, append_event_internal now sid et p rt s = (Err err, s)) ∨
  (∃ ev l n f, append_event_internal now sid et p rt s = (Ok ev, set_events l n f s)
               ∧ log_step s (set_events l n f s)).
Proof.
  pose proof (append_event_internal_step now sid et p rt s) as Hs.
  destruct (append_event_internal_inv now sid et p rt s)
    as [[err E]|(text & h & _ & _ & _ & _ & _ & _ & E)]; rewrite E in *;
    [left; by eexists|right].
  do 4 eexists. split; [reflexivity|exact Hs].
Qed.

Lemma append_event_step now sid et p rt :
  preserves log_step (append_event now sid et p rt).
Proof.
  intros s. destruct (append_event_cases now sid et p rt s) as [[err ->]| ->].
  - reflexivity.
  - apply append_event_internal_step.
Qed.

Lemma verify_chain_step : preserves log_step verify_chain.
Proof. intros s. reflexivity. Qed.
End LogStep.

#[export] Hint Resolve append_event_internal_step append_event_step verify_chain_step
  log_step_other : vigil.

(** Split on the outcome of the append the goal runs. *)
Ltac append_cases err ev l n f Hlog :=
  match goal with
  | |- context [append_event_internal ?now ?sid ?et ?p ?rt ?s] =>
      let E := fresh "E" in
      destruct (append_event_internal_shape now sid et p rt s)
        as [[err E]|(ev & l & n & f & E & Hlog)]; rewrite E; clear E; simpl
  end.
