(* ===== verification/LedgerProps.v ===== *)
(** * The properties of the ledger

    The statements of [LedgerFacts] and [Scans] put on the ledger's methods,
    each with a witness on a small concrete ledger. *)

From S2P Require Import Prelude Types Deps Concrete Db Hash Ledger Scans LedgerFacts.

(** ** Deciding the hypotheses on concrete ledgers *)

Section Decide.
Context `{Crates}.

Definition collision_free_b (ps : list string) : bool :=
  forallb (λ p, negb (String.eqb (sha256 p) GENESIS_PREV_HASH_BYTES) &&
    forallb (λ q, negb (String.eqb (sha256 p) (sha256 q)) || String.eqb p q) ps) ps.

Lemma collision_free_check ps : collision_free_b ps = true → collision_free ps.
Proof.
  unfold collision_free_b. rewrite forallb_forall. intros Hb. split.
  - intros p q Hp Hq E. apply list_elem_of_In in Hp, Hq.
    specialize (Hb p Hp). apply andb_true_iff in Hb as [_ Hb].
    rewrite forallb_forall in Hb. specialize (Hb q Hq).
    rewrite E, String.eqb_refl in Hb. by apply String.eqb_eq.
  - intros p Hp E. apply list_elem_of_In in Hp. specialize (Hb p Hp).
    by rewrite E, String.eqb_refl in Hb.
Qed.

Definition row_fits_b (e : EventRow) : bool :=
  let len x := (Z.of_nat (String.length x) <? 2 ^ 63)%Z in
  ((- 2 ^ 63 <=? e_created_at e)%Z && (e_created_at e <? 2 ^ 63)%Z)
  && (len (e_session_id e) && (len (e_event_type e)
  && (from_option len true (e_redacted_text e) && from_option len true (canonical e)))).

Lemma row_fits_check l : forallb row_fits_b l = true → Forall row_fits l.
Proof.
  rewrite forallb_forall, Forall_forall. intros Hb e He%list_elem_of_In.
  specialize (Hb e He). unfold row_fits_b in Hb. bool_to_prop.
  unfold row_fits, Bytes.is_i64, slice_len.
  destruct (e_redacted_text e), (canonical e); simpl in *; split_and!;
    try done; by apply Z.ltb_lt || by apply Z.leb_le.
Qed.
End Decide.

Section Props.
Context `{CratesLaws} `{Redaction}.

(** On a verified ledger [append_event] accepts exactly the clean events:
    no reserved prefix, a session and a type, a payload with a canonical text,
    and no hard secret in that text or in the summary. Whenever it refuses, the
    ledger is unchanged. *)
Theorem append_event_accepts now sid et p rt s :
  (verify_chain s).1 = Ok tt →
  (is_ok (append_event now sid et p rt s).1 = true ↔
     (∀ pre, pre ∈ RESERVED_EVENT_PREFIXES → Str.starts_with pre et = false) ∧
     sid ≠ "" ∧ et ≠ "" ∧
     (∃ text, jcs_to_vec p = Some text ∧ detect_hard_secret text = None) ∧
     (∀ t, rt = Some t → detect_hard_secret t = None)) ∧
  (is_ok (append_event now sid et p rt s).1 = false →
     (append_event now sid et p rt s).2 = s).
Proof.
  intros Hv. split.
  - unfold append_event. split.
    + destruct (existsb _ _) eqn:Ep; [done|].
      destruct (append_event_internal_inv now sid et p rt s)
        as [[err ->]|(text & h & Hs & Ht & Hj & Hd & Hr & _ & _)]; [done|]. intros _.
      split_and!; [|done|done|by eauto|].
      * intros pre Hpre%list_elem_of_In.
        destruct (Str.starts_with pre et) eqn:E; [|done].
        rewrite <- not_true_iff_false, existsb_exists in Ep. destruct Ep; eauto.
      * intros t ->. unfold refuse_hard_secret_opt, refuse_hard_secret in Hr.
        by destruct (detect_hard_secret t).
    + intros (Hp & Hs & Ht & (text & Hj & Hd) & Hr).
      destruct (existsb _ _) eqn:Ep.
      { apply existsb_exists in Ep as (pre & Hpre%list_elem_of_In & E).
        by rewrite Hp in E. }
      apply String.eqb_neq in Hs, Ht.
      unfold append_event_internal, validate_nonempty, Str.is_empty. rewrite Hs, Ht.
      run_m. rewrite Hj. simpl. unfold refuse_hard_secret at 1. rewrite Hd. simpl.
      assert (refuse_hard_secret_opt rt = Ok tt) as ->.
      { destruct rt as [t|]; [|done]. unfold refuse_hard_secret_opt, refuse_hard_secret.
        by rewrite (Hr t). }
      pose proof (verified_prev_parses (events s) Hv) as Hprev.
      unfold compute_event_hash_v2. rewrite Hj.
      by destruct (parse_prev_hash (last_hash (events s))).
  - intros Hf. destruct (append_event_cases now sid et p rt s) as [[err E]|E];
      rewrite E in *; [done|].
    by destruct (append_event_internal_inv now sid et p rt s)
      as [[err ->]|(text & h & _ & _ & _ & _ & _ & _ & E')]; [|rewrite E' in Hf].
Qed.

(** C36. An append adds exactly one row, of the current digest version and linked
    to the previous head, returns its id and hash, touches no other table, and
    keeps the ledger's invariant: the chain verifies, ids grow, the search table
    mirrors the log, no row holds a hard secret. *)
Theorem append_event_extends now sid et p rt s s' ev :
  log_inv s → append_event now sid et p rt s = (Ok ev, s') →
  log_inv s' ∧ ∃ row,
    s' = set_events (events s ++ [row]) (ae_event_id ev) (event_fts s ++ [fts_row row]) s
    ∧ e_event_id row = ae_event_id ev ∧ e_event_hash row = ae_event_hash ev
    ∧ (event_seq s < ae_event_id ev)%Z
    ∧ e_prev_hash row = last_hash (events s) ∧ e_chain_version row = CURRENT_CHAIN_VERSION
    ∧ e_session_id row = sid ∧ e_event_type row = et ∧ e_redacted_text row = rt
    ∧ jcs_to_vec p = Some (e_payload_json row).
Proof.
  intros Hi. destruct (append_event_cases now sid et p rt s) as [[err ->]| ->]; [done|].
  intros E. pose proof (append_keeps_log _ _ _ _ _ _ _ _ E Hi) as Hi'.
  destruct (append_event_internal_inv now sid et p rt s)
    as [[err E']|(text & h & _ & _ & Hj & _ & _ & _ & E')]; rewrite E' in E; [done|].
  injection E as <- <-. split; [done|].
  exists (mkEventRow (event_seq s + 1) sid et text rt (last_hash (events s)) h now
            CURRENT_CHAIN_VERSION). split; [reflexivity|].
  simpl. split_and!; try done. lia.
Qed.

(** C37. One head, one history: two ledgers that verify and end in one hash
    agree, row by row, on every field the digests bind (for version 2 all of
    them but the row id), provided SHA-256 has no collision among the texts
    hashed in these two ledgers. *)
Theorem head_determines_history s1 s2 :
  (verify_chain s1).1 = Ok tt → (verify_chain s2).1 = Ok tt →
  Forall row_fits (events s1) → Forall row_fits (events s2) →
  collision_free (omap row_preimage (events s1 ++ events s2)) →
  last_hash (events s1) = last_hash (events s2) →
  bound_fields <$> events s1 = bound_fields <$> events s2.
Proof. intros. by apply verified_agree. Qed.

(** A verified log never goes back to the weaker digest: it is a run of
    version-1 rows followed by a run of version-2 rows, and nothing else. *)
Theorem no_version_downgrade s :
  (verify_chain s).1 = Ok tt →
  ∃ old new, events s = old ++ new ∧
    Forall (λ e, e_chain_version e = 1%Z) old ∧ Forall (λ e, e_chain_version e = 2%Z) new.
Proof.
  simpl. intros Hv. revert Hv. generalize "" at 1. generalize 1%Z at 1.
  induction (events s) as [|e l IH]; intros v prev.
  { intros _. by exists [], []. }
  intros Hv. pose proof Hv as Hall%verified_version.
  apply verify_rows_cons in Hv as (_ & _ & _ & Hl).
  apply Forall_cons in Hall as [[He ?] _]. destruct He as [He|He].
  - destruct (IH _ _ Hl) as (old & new & -> & Ho & Hn).
    exists (e :: old), new. split_and!; [done| |done]. by constructor.
  - exists [], (e :: l). split_and!; [done|done|]. constructor; [done|].
    eapply Forall_impl; [exact (verified_version _ _ _ Hl)|]. simpl. lia.
Qed.

(** Verified replay is all or nothing: on a chain that verifies it returns
    every event of the session, in order, with its payload parsed; on any other
    it returns the chain's error and no event. *)
Theorem replay_session_verified_spec sid s :
  sid ≠ "" →
  match (verify_chain s).1 with
  | Ok _ => ∃ out, replay_session_verified sid s = (Ok out, s) ∧
      Forall2 (λ e d, json_from_str (e_payload_json e) = Some (ed_payload d) ∧
                      d = detail e (ed_payload d))
        (List.filter (λ e, String.eqb (e_session_id e) sid) (events s)) out
  | Err err => replay_session_verified sid s = (Err err, s)
  end.
Proof.
  intros Hs. unfold replay_session_verified, replay_session, validate_nonempty, Str.is_empty.
  apply String.eqb_neq in Hs. rewrite Hs. unfold verify_chain. run_m.
  destruct (verify_rows "" 1 (events s)) as [[]|err] eqn:Hv; simpl; [|done].
  assert (Forall (λ e, is_Some (json_from_str (e_payload_json e))) (events s)) as Hp.
  { clear Hs. revert Hv. generalize "" 1%Z.
    induction (events s) as [|e l IH]; intros prev v; [done|].
    rewrite verify_rows_cons. intros (_ & _ & (p & Hp & _) & Hl). constructor; eauto. }
  clear Hv. induction Hp as [|e l [p Hp] Hl IH]; simpl.
  { exists []. by split; [|constructor]. }
  case_match; [|exact IH]. simpl. rewrite Hp. simpl.
  destruct IH as (out & E & Hout). injection E as E. rewrite E. simpl.
  eexists. split; [done|]. by constructor.
Qed.

(** The protection summary fails closed: it shows event texts only when the
    chain verifies, and then at most [limit] of them, the newest, each of one of
    the three protection types; the ledger is not changed. *)
Theorem protection_summary_fails_closed limit s :
  ∃ sum, protection_summary limit s = (Ok sum, s) ∧
    chain_intact sum = is_ok (verify_chain s).1 ∧
    (chain_intact sum = false → recent sum = []) ∧
    (length (recent sum) ≤ Z.to_nat limit)%nat ∧
    Forall (λ h, ∃ e, e ∈ events s ∧ h = hit e ∧
      e_event_type e ∈ [EVENT_TYPE_RAW_SECRET_BLOCKED; EVENT_TYPE_TOOL_RESULT_LEAK;
                        EVENT_TYPE_SECRET_ALIAS_UNRESOLVED]) (recent sum) ∧
    total_events_audited sum = Z.of_nat (length (events s)).
Proof.
  eexists. split; [reflexivity|]. simpl. split; [done|].
  destruct (is_ok (verify_rows "" 1 (events s))); split_and!; try done; try (simpl; lia).
  - rewrite length_fmap. apply firstn_le_length.
  - apply Forall_forall. intros h (e & -> & He)%list_elem_of_fmap.
    exists e. apply elem_of_take in He as (i & He%list_elem_of_lookup_2 & _).
    rewrite elem_of_reverse in He. apply list_elem_of_In, filter_In in He as [He Ht].
    split_and!; [by apply list_elem_of_In|done|]. by apply str_in_spec.
Qed.
End Props.

(** ** Sessions and scans *)

(** Bumping a session's risk is exact or a no-op: if the sum fits an i64 it
    is returned, stored, and read back by [get_session_risk], with every other
    session and the log untouched; if it does not fit, the call fails and the
    transaction leaves the ledger as it was. *)
Theorem bump_session_risk_exact now sid delta s :
  sid ≠ "" →
  let sum := (from_option s_risk_score 0 (sessions s !! sid) + delta)%Z in
  if (Int.i64_min <=? sum)%Z && (sum <=? Int.i64_max)%Z then
    ∃ s', bump_session_risk now sid delta s = (Ok sum, s') ∧
      get_session_risk sid s' = (Ok sum, s') ∧
      (∀ other, other ≠ sid → sessions s' !! other = sessions s !! other) ∧
      events s' = events s
  else ∃ err, bump_session_risk now sid delta s = (Err err, s).
Proof.
  intros Hs sum. apply String.eqb_neq in Hs.
  assert (insert_or_ignore_session now sid "unknown" (sessions s) !! sid =
    Some (default (mkSessionRow "unknown" None now None 0) (sessions s !! sid))) as Hi.
  { unfold insert_or_ignore_session. destruct (sessions s !! sid) eqn:E; [done|].
    by rewrite lookup_insert_eq. }
  unfold bump_session_risk, get_session_risk, validate_nonempty, Str.is_empty. rewrite Hs.
  run_m. erewrite update_where_hit by done. rewrite lookup_insert_eq. simpl.
  assert (s_risk_score (default (mkSessionRow "unknown" None now None 0) (sessions s !! sid))
    + delta = sum)%Z as -> by (unfold sum; by destruct (sessions s !! sid)).
  destruct ((Int.i64_min <=? sum)%Z && (sum <=? Int.i64_max)%Z); [|by eexists].
  eexists. split; [reflexivity|]. simpl. rewrite lookup_insert_eq. simpl. split_and!.
  - unfold sum. by destruct (sessions s !! sid).
  - intros other Ho. rewrite lookup_insert_ne by done. unfold insert_or_ignore_session.
    destruct (sessions s !! sid); [done|]. by rewrite lookup_insert_ne.
  - done.
Qed.

(** The redaction tables never hold text: whatever the caller passes, every
    scan and finding stored has an allow-listed source, label and action, a
    32-digit lower-case hexadecimal fingerprint, a bit width in place of a
    length, a placeholder derived from the label alone, and a finding always
    belongs to a stored scan. *)
Theorem redaction_tables_hold_no_text now id scan finding s :
  (0 ≤ ns_text_length scan < 2 ^ 64)%Z → (0 ≤ nf_offset finding < 2 ^ 64)%Z →
  scans_clean s →
  scans_clean (insert_redaction_scan now id scan s).2 ∧
  scans_clean (insert_redaction_finding finding s).2.
Proof.
  intros Hn Ho (Hs & Hf & Hp). split.
  - unfold insert_redaction_scan.
    destruct (str_in (ns_source scan) ALLOWED_SOURCES) eqn:Ea; [|done]. simpl. run_m.
    destruct (validate_nonempty _ _) as [[]|]; [|done].
    destruct (validate_fingerprint (ns_fingerprint scan)) as [u|] eqn:Ev; [|done].
    destruct (redaction_scans s !! id) eqn:Ei; [done|]. split_and!; simpl; [|done|].
    + apply map_Forall_insert_2; [|done].
      split_and!; simpl; [by apply str_in_spec|by eapply validate_fingerprint_ok|..];
        by apply bit_width_bucket_range.
    + eapply Forall_impl; [exact Hp|]. intros f [x Hx]. simpl in *.
      destruct (decide (id = rf_scan_id f)) as [->|Hne];
        [rewrite lookup_insert_eq|rewrite lookup_insert_ne by done]; eauto.
  - unfold insert_redaction_finding.
    destruct (str_in (nf_label finding) _) eqn:El; [|done].
    destruct (str_in (nf_action_taken finding) _) eqn:Ea; [|done]. simpl. run_m.
    destruct (validate_nonempty _ _) as [[]|]; [|done].
    destruct (validate_fingerprint (nf_fingerprint finding)) as [u|] eqn:Ev; [|done].
    destruct (redaction_scans s !! nf_scan_id finding) eqn:Ei; [|done].
    split_and!; simpl; [done| |]; apply Forall_app; (split; [done|]); constructor; try done.
    split_and!; simpl; try (by apply str_in_spec); try done;
      [by eapply validate_fingerprint_ok|..]; by apply bit_width_bucket_range.
Qed.

(** ** Witnesses *)

Import Toy.

(** A ledger of two events, and the same events under other row ids. *)
Definition sample_log : LedgerState :=
  (Ledger.append_event 7 "s1" "note" (JObj [("k", JNum 2)]) None
    (Ledger.append_event 5 "s1" "secret.leak_detected" (JObj [("k", JNum 1)]) (Some "masked")
       empty_ledger).2).2.

Definition renumber (s : LedgerState) : LedgerState :=
  set_events ((λ e, mkEventRow (e_event_id e + 10) (e_session_id e) (e_event_type e)
     (e_payload_json e) (e_redacted_text e) (e_prev_hash e) (e_event_hash e)
     (e_created_at e) (e_chain_version e)) <$> events s) 12 [] s.

Lemma append_event_accepts_witness :
  is_ok (append_event 9 "s1" "note" (JStr "hi") None sample_log).1 = true ∧
  (append_event 9 "s1" "note" (JStr "hi") (Some "ghp_x") sample_log).2 = sample_log.
Proof.
  split.
  - apply (append_event_accepts 9 "s1" "note" (JStr "hi") None sample_log); [vm_compute; reflexivity|].
    split_and!; [|done|done|by eexists|done].
    intros pre Hp. repeat (apply elem_of_cons in Hp as [->|Hp]; [done|]).
    by apply elem_of_nil in Hp.
  - apply (append_event_accepts 9 "s1" "note" (JStr "hi") (Some "ghp_x") sample_log);
      vm_compute; reflexivity.
Defined.

Lemma append_event_extends_witness :
  ∃ ev s', append_event 5 "s1" "note" (JStr "hi") None empty_ledger = (Ok ev, s')
           ∧ log_inv s'.
Proof.
  destruct (append_event 5 "s1" "note" (JStr "hi") None empty_ledger)
    as [[ev|err] s'] eqn:E; [|by vm_compute in E].
  exists ev, s'. split; [done|].
  by destruct (append_event_extends 5 "s1" "note" (JStr "hi") None empty_ledger s' ev
    log_inv_empty E).
Defined.

Lemma head_determines_history_witness :
  e_event_id <$> events sample_log = [1; 2]%Z ∧
  e_event_id <$> events (renumber sample_log) = [11; 12]%Z ∧
  bound_fields <$> events sample_log = bound_fields <$> events (renumber sample_log).
Proof.
  split; [vm_compute; reflexivity|]. split; [vm_compute; reflexivity|].
  apply (head_determines_history sample_log (renumber sample_log)).
  - vm_compute; reflexivity.
  - vm_compute; reflexivity.
  - apply row_fits_check. vm_compute; reflexivity.
  - apply row_fits_check. vm_compute; reflexivity.
  - apply collision_free_check. vm_compute; reflexivity.
  - vm_compute; reflexivity.
Defined.

Lemma no_version_downgrade_witness :
  ∃ old new, events sample_log = old ++ new ∧
    Forall (λ e, e_chain_version e = 1%Z) old ∧ Forall (λ e, e_chain_version e = 2%Z) new.
Proof. apply (no_version_downgrade sample_log). vm_compute; reflexivity. Defined.

Lemma replay_session_verified_spec_witness :
  ∃ out, replay_session_verified "s1" sample_log = (Ok out, sample_log).
Proof.
  assert ("s1" ≠ "") as Hs by done.
  pose proof (replay_session_verified_spec "s1" sample_log Hs) as Hr.
  assert ((verify_chain sample_log).1 = Ok tt) as Hv by (vm_compute; reflexivity).
  rewrite Hv in Hr. destruct Hr as (out & E & _). exists out. exact E.
Defined.

Lemma bump_session_risk_exact_witness :
  ∃ s', bump_session_risk 1 "s1" 40 empty_ledger = (Ok 40%Z, s').
Proof.
  assert ("s1" ≠ "") as Hs by done.
  destruct (bump_session_risk_exact 1 "s1" 40 empty_ledger Hs) as (s' & E & _).
  exists s'. exact E.
Defined.

Lemma redaction_tables_hold_no_text_witness :
  let fp := "0123456789abcdef0123456789abcdef" in
  let s := (insert_redaction_scan 3 "scan" (mkNewRedactionScan "s1" "paste" 100 fp)
              empty_ledger).2 in
  redaction_scans s ≠ ∅ ∧ scans_clean s.
Proof.
  split; [by vm_compute|].
  apply (redaction_tables_hold_no_text 3 "scan" _
           (mkNewRedactionFinding "scan" "email" 4 "" "redacted") empty_ledger).
  - simpl. lia.
  - simpl. lia.
  - by split_and!; [apply map_Forall_empty|constructor|constructor].
Defined.
