(* ===== verification/Span.v ===== *)
(** * Tool-call spans

    [src/crates/vigil-audit/src/span.rs]: the typestate that forces a decision
    to be recorded before an execution is. The phantom state is an index of the
    span's type, so that [executed] on a span that is not [Decided] does not
    type-check here either. A Rust method that consumes [self] drops it on every
    return: the drop is part of each operation. *)

From S2P Require Import Prelude Types Deps Concrete Db Hash Ledger LedgerFacts.

Inductive SpanState := Opened | Decided.

Record ToolCallSpan (st : SpanState) := mkSpan {
  span_invocation_id : string;
  span_session_id : string;
  span_finalized : bool;
}.
Arguments mkSpan {st} _ _ _.
Arguments span_invocation_id {st} _.
Arguments span_session_id {st} _.
Arguments span_finalized {st} _.

Definition finalize {st} (self : ToolCallSpan st) : ToolCallSpan st :=
  mkSpan (span_invocation_id self) (span_session_id self) true.

Definition opened_payload (inv : string) : Value := JObj [("invocation_id", JStr inv)].

Definition decided_payload (inv : string) (d : DecisionRecord) : Value :=
  JObj [("invocation_id", JStr inv);
        ("decision_id", JStr (dr_decision_id d));
        ("decision", JStr (DecisionKind.to_str (dr_decision d)));
        ("risk_score", JNum (dr_risk_score d));
        ("reasons", json_strs (dr_reasons d));
        ("policy_ids", json_strs (dr_policy_ids d))].

Definition executed_payload (inv summary : string) : Value :=
  JObj [("invocation_id", JStr inv); ("summary", JStr summary)].

Definition failed_payload (inv reason : string) : Value :=
  JObj [("invocation_id", JStr inv); ("reason", JStr reason)].

(** [fetch_add(1)] of an [AtomicU64]. *)
Definition count_drop_failure (s : LedgerState) : LedgerState :=
  set_drop_failure_count ((drop_failure_count s + 1) `mod` 2 ^ 64) s.

Section Span.
Context `{Crates} `{Redaction}.

(** [impl Drop] *)
Definition drop {st} (now : Z) (self : ToolCallSpan st) : LedgerM unit :=
  if span_finalized self then ret tt
  else
    let! r := attempt (append_event_internal now (span_session_id self)
      "tool_call.abandoned" (opened_payload (span_invocation_id self))
      (Some ("invocation_id:" +:+ span_invocation_id self))) in
    if is_ok r then ret tt else modify count_drop_failure.

(** [?] inside a method that owns [self]: the span is dropped before the error
    is returned; otherwise it is dropped finalized. *)
Definition consuming {st A} (now_drop : Z) (self : ToolCallSpan st)
    (write : LedgerM AppendedEvent) (out : A) : LedgerM A :=
  let! r := attempt write in
  match r with
  | Ok _ => drop now_drop (finalize self) ;! ret out
  | Err e => drop now_drop self ;! throw e
  end.

Definition tool_call_span (now : Z) (inv sid : string) : LedgerM (ToolCallSpan Opened) :=
  append_event_internal now sid "tool_call.opened" (opened_payload inv)
    (Some ("invocation_id:" +:+ inv)) ;!
  ret (mkSpan inv sid false).

Definition decision_recorded (now now_drop : Z) (self : ToolCallSpan Opened)
    (d : DecisionRecord) : LedgerM (ToolCallSpan Decided) :=
  let inv := span_invocation_id self in
  consuming now_drop self
    (append_event_internal now (span_session_id self) "tool_call.decided"
       (decided_payload inv d)
       (Some ("invocation_id:" +:+ inv +:+ " decision_id:" +:+ dr_decision_id d)))
    (mkSpan inv (span_session_id self) false).

Definition executed (now now_drop : Z) (self : ToolCallSpan Decided) (summary : string)
    : LedgerM unit :=
  let inv := span_invocation_id self in
  consuming now_drop self
    (append_event_internal now (span_session_id self) "tool_call.executed"
       (executed_payload inv summary) (Some ("invocation_id:" +:+ inv +:+ " " +:+ summary)))
    tt.

Definition execute_failed (now now_drop : Z) (self : ToolCallSpan Decided) (reason : string)
    : LedgerM unit :=
  let inv := span_invocation_id self in
  consuming now_drop self
    (append_event_internal now (span_session_id self) "tool_call.execute_failed"
       (failed_payload inv reason) (Some ("invocation_id:" +:+ inv +:+ " " +:+ reason)))
    tt.

(** ** Programs that hold spans

    A program holds the spans it opened and has not consumed; it may interleave
    their operations and anything else that writes the ledger without a
    [tool_call.] event (the public [append_event] refuses that prefix). *)

Inductive LiveSpan :=
| LiveOpened (sp : ToolCallSpan Opened)
| LiveDecided (sp : ToolCallSpan Decided).

Definition World : Type := LedgerState * gmap nat LiveSpan.

Definition other_write (s s' : LedgerState) : Prop :=
  drop_failure_count s' = drop_failure_count s ∧
  ∃ l, events s' = events s ++ l ∧
       Forall (λ e, Str.starts_with "tool_call." (e_event_type e) = false) l.

Inductive step : World → World → Prop :=
| StepOpen s live n now inv sid sp s' :
    live !! n = None → tool_call_span now inv sid s = (Ok sp, s') →
    step (s, live) (s', <[n := LiveOpened sp]> live)
| StepOpenErr s live now inv sid e s' :
    tool_call_span now inv sid s = (Err e, s') → step (s, live) (s', live)
| StepDecide s live n now now' d sp sp' s' :
    live !! n = Some (LiveOpened sp) → decision_recorded now now' sp d s = (Ok sp', s') →
    step (s, live) (s', <[n := LiveDecided sp']> live)
| StepDecideErr s live n now now' d sp e s' :
    live !! n = Some (LiveOpened sp) → decision_recorded now now' sp d s = (Err e, s') →
    step (s, live) (s', delete n live)
| StepExecuted s live n now now' sp summary r s' :
    live !! n = Some (LiveDecided sp) → executed now now' sp summary s = (r, s') →
    step (s, live) (s', delete n live)
| StepFailed s live n now now' sp reason r s' :
    live !! n = Some (LiveDecided sp) → execute_failed now now' sp reason s = (r, s') →
    step (s, live) (s', delete n live)
| StepDropOpened s live n now sp r s' :
    live !! n = Some (LiveOpened sp) → drop now sp s = (r, s') →
    step (s, live) (s', delete n live)
| StepDropDecided s live n now sp r s' :
    live !! n = Some (LiveDecided sp) → drop now sp s = (r, s') →
    step (s, live) (s', delete n live)
| StepOther s live s' :
    other_write s s' → step (s, live) (s', live).

(** Reachable from a ledger with no tool call and no span open. *)
Inductive reachable : World → Prop :=
| ReachInit s :
    drop_failure_count s = 0%Z →
    Forall (λ e, Str.starts_with "tool_call." (e_event_type e) = false) (events s) →
    reachable (s, ∅)
| ReachStep w w' : reachable w → step w w' → reachable w'.
End Span.

(** ** No execution without a decision

    Two theorems over every program that holds spans: a tool call that was
    executed had its decision recorded before, and every call that was opened is
    finished, abandoned, still held, or counted as lost. *)

Definition count (t : string) (l : list EventRow) : Z := count_type t l.

(** The rows that end a call. *)
Definition closed (l : list EventRow) : Z :=
  count "tool_call.executed" l + count "tool_call.execute_failed" l
  + count "tool_call.abandoned" l.

Section SpanFacts.
Context `{CratesLaws} `{Redaction}.
Implicit Types (s : LedgerState) (l : list EventRow) (e : EventRow).
Implicit Types (live : gmap nat LiveSpan).

Definition opened_row (inv sid : string) e : Prop :=
  e_event_type e = "tool_call.opened" ∧ e_session_id e = sid ∧
  jcs_to_vec (opened_payload inv) = Some (e_payload_json e).

Definition decided_row (inv sid : string) e : Prop :=
  e_event_type e = "tool_call.decided" ∧ e_session_id e = sid ∧
  ∃ d, jcs_to_vec (decided_payload inv d) = Some (e_payload_json e).

Definition finished_row (inv sid : string) e : Prop :=
  e_session_id e = sid ∧
  ((e_event_type e = "tool_call.executed" ∧
    ∃ summary, jcs_to_vec (executed_payload inv summary) = Some (e_payload_json e)) ∨
   (e_event_type e = "tool_call.execute_failed" ∧
    ∃ reason, jcs_to_vec (failed_payload inv reason) = Some (e_payload_json e))).

(** What the rows before a row must hold for it. *)
Definition justified (past : list EventRow) e : Prop :=
  (e_event_type e = "tool_call.decided" →
     ∃ inv o, o ∈ past ∧ opened_row inv (e_session_id e) o
              ∧ decided_row inv (e_session_id e) e) ∧
  (e_event_type e ∈ ["tool_call.executed"; "tool_call.execute_failed"] →
     ∃ inv d, d ∈ past ∧ decided_row inv (e_session_id e) d
              ∧ finished_row inv (e_session_id e) e).

Definition ordered l : Prop := ∀ i e, l !! i = Some e → justified (take i l) e.

Definition live_ok l (sp : LiveSpan) : Prop :=
  match sp with
  | LiveOpened sp =>
      span_finalized sp = false ∧
      ∃ o, o ∈ l ∧ opened_row (span_invocation_id sp) (span_session_id sp) o
  | LiveDecided sp =>
      span_finalized sp = false ∧
      ∃ d, d ∈ l ∧ decided_row (span_invocation_id sp) (span_session_id sp) d
  end.

Definition accounted s (live : gmap nat LiveSpan) : Prop :=
  ∃ lost : Z, (0 ≤ lost)%Z ∧
    (count "tool_call.opened" (events s) =
       closed (events s) + Z.of_nat (size live) + lost)%Z ∧
    drop_failure_count s = (lost `mod` 2 ^ 64)%Z.

Definition span_inv (w : World) : Prop :=
  ordered (events w.1) ∧ map_Forall (λ _, live_ok (events w.1)) w.2 ∧ accounted w.1 w.2.

(** *** What one operation does *)

Definition adds_row s s' (ty sid : string) (p : Value) : Prop :=
  drop_failure_count s' = drop_failure_count s ∧
  ∃ e, events s' = events s ++ [e] ∧ e_event_type e = ty ∧ e_session_id e = sid ∧
       jcs_to_vec p = Some (e_payload_json e).

(** A span dropped unfinished: the row, or the count. *)
Definition closes s s' : Prop :=
  (∃ sid p, adds_row s s' "tool_call.abandoned" sid p) ∨
  (events s' = events s ∧
   drop_failure_count s' = ((drop_failure_count s + 1) `mod` 2 ^ 64)%Z).

Lemma append_effect now sid ty p rt s r s' :
  append_event_internal now sid ty p rt s = (r, s') →
  (∃ err, r = Err err ∧ s' = s) ∨ (∃ ev, r = Ok ev ∧ adds_row s s' ty sid p).
Proof.
  destruct (append_event_internal_inv now sid ty p rt s)
    as [[err E]|(text & h & _ & _ & Hj & _ & _ & _ & E)]; rewrite E; intros [= <- <-];
    [left; by eexists|right].
  eexists. split; [done|]. split; [done|]. by eexists.
Qed.

Lemma drop_effect {st} now (sp : ToolCallSpan st) s r s' :
  span_finalized sp = false → drop now sp s = (r, s') → closes s s'.
Proof.
  intros Hf. unfold drop. rewrite Hf. unfold bind, attempt.
  destruct (append_event_internal _ _ _ _ _ s) as [r1 s1] eqn:E.
  apply append_effect in E as [(err & -> & ->)|(ev & -> & Ha)];
    intros [= <- <-]; [by right|left; by eauto].
Qed.

Lemma consuming_effect {st A} now' (sp : ToolCallSpan st) now sid ty p rt (out : A) s r s' :
  span_finalized sp = false →
  consuming now' sp (append_event_internal now sid ty p rt) out s = (r, s') →
  (r = Ok out ∧ adds_row s s' ty sid p) ∨ (∃ err, r = Err err ∧ closes s s').
Proof.
  intros Hf. unfold consuming, bind, attempt.
  destruct (append_event_internal now sid ty p rt s) as [r1 s1] eqn:E.
  apply append_effect in E as [(err & -> & ->)|(ev & -> & Ha)].
  - destruct (drop now' sp s) as [r2 s2] eqn:Ed.
    apply drop_effect in Ed; [|done]. destruct r2; intros [= <- <-]; right; by eauto.
  - unfold drop. simpl. intros [= <- <-]. by left.
Qed.

(** *** The invariant *)

Lemma count_app t l1 l2 : count t (l1 ++ l2) = (count t l1 + count t l2)%Z.
Proof. unfold count, count_type. rewrite List.filter_app, length_app. lia. Qed.

Lemma count_other t l :
  Str.starts_with "tool_call." t = true →
  Forall (λ e, Str.starts_with "tool_call." (e_event_type e) = false) l → count t l = 0%Z.
Proof.
  intros Ht Hl. unfold count, count_type. induction Hl as [|e l He Hl IH]; [done|].
  simpl. destruct (String.eqb_spec (e_event_type e) t) as [E|]; [congruence|done].
Qed.

Lemma ordered_snoc l e : ordered l → justified l e → ordered (l ++ [e]).
Proof.
  intros Hl He i x Hx. apply lookup_app_Some in Hx as [Hx|[Hlen Hx]].
  - rewrite take_app_le; [by apply Hl|]. apply lookup_lt_Some in Hx. lia.
  - apply list_lookup_singleton_Some in Hx as [Hi <-].
    replace i with (length l) by lia. by rewrite take_app_length.
Qed.

Lemma ordered_other l l' :
  ordered l → Forall (λ e, Str.starts_with "tool_call." (e_event_type e) = false) l' →
  ordered (l ++ l').
Proof.
  intros Hl Hl'. revert l Hl. induction Hl' as [|e l' He Hl' IH]; intros l Hl.
  { by rewrite app_nil_r. }
  change (e :: l') with ([e] ++ l'). rewrite app_assoc. apply IH. apply ordered_snoc; [done|]. split.
  - intros E. by rewrite E in He.
  - intros E. repeat (apply elem_of_cons in E as [E|E]; [by rewrite E in He|]).
    by apply elem_of_nil in E.
Qed.

Lemma live_ok_mono l l' sp : l ⊆ l' → live_ok l sp → live_ok l' sp.
Proof. intros Hl. destruct sp; simpl; intros (? & x & ? & ?); split; eauto. Qed.

Lemma lives_mono l l' (live : gmap nat LiveSpan) :
  l ⊆ l' → map_Forall (λ _, live_ok l) live → map_Forall (λ _, live_ok l') live.
Proof. intros Hl Hm n sp Hn. eapply live_ok_mono; [done|by eapply Hm]. Qed.

(** The count an added row makes. *)
Lemma count_adds s s' ty sid p t :
  adds_row s s' ty sid p →
  count t (events s') = (count t (events s) + if String.eqb ty t then 1 else 0)%Z.
Proof.
  intros (_ & e & -> & He & _ & _). rewrite count_app. unfold count at 2, count_type.
  simpl. rewrite He. by destruct (String.eqb ty t).
Qed.

Lemma closed_adds s s' ty sid p :
  adds_row s s' ty sid p →
  closed (events s') = (closed (events s) +
    if existsb (String.eqb ty) ["tool_call.executed"; "tool_call.execute_failed";
                                "tool_call.abandoned"] then 1 else 0)%Z.
Proof.
  intros Ha. unfold closed. rewrite !(count_adds _ _ _ _ _ _ Ha). cbn [existsb].
  destruct (String.eqb_spec ty "tool_call.executed") as [->|]; [simpl; lia|].
  destruct (String.eqb_spec ty "tool_call.execute_failed") as [->|]; [simpl; lia|].
  destruct (String.eqb_spec ty "tool_call.abandoned") as [->|]; simpl; lia.
Qed.

Lemma adds_row_step s s' ty sid p live :
  adds_row s s' ty sid p → ordered (events s) →
  map_Forall (λ _, live_ok (events s)) live →
  (∀ e, e_event_type e = ty → e_session_id e = sid →
        jcs_to_vec p = Some (e_payload_json e) → justified (events s) e) →
  ordered (events s') ∧ map_Forall (λ _, live_ok (events s')) live.
Proof.
  intros (_ & e & -> & Ht & Hs & Hp) Ho Hl Hj. split.
  - apply ordered_snoc; [done|by apply Hj].
  - eapply lives_mono; [|done]. set_solver.
Qed.

(** Rows of the other types need no justification. *)
Lemma justified_other l e ty :
  e_event_type e = ty →
  ty ∉ ["tool_call.decided"; "tool_call.executed"; "tool_call.execute_failed"] →
  justified l e.
Proof.
  intros Ht Hn. split; rewrite Ht; intros E; destruct Hn; set_solver.
Qed.

Lemma closes_step s s' live n sp :
  closes s s' → live !! n = Some sp → span_inv (s, live) → span_inv (s', delete n live).
Proof.
  intros Hc Hn (Ho & Hl & (lost & Hlost & Hcnt & Hdrop)). simpl in *.
  assert (Z.of_nat (size live) = Z.of_nat (size (delete n live)) + 1)%Z as Hsz.
  { rewrite <- (insert_delete_id live n sp) at 1 by done.
    rewrite map_size_insert_None by apply lookup_delete_eq. lia. }
  assert (map_Forall (λ _, live_ok (events s)) (delete n live)) as Hl'
    by (by apply map_Forall_delete).
  destruct Hc as [(sid & p & Ha)|[He Hd]].
  - destruct (adds_row_step _ _ _ _ _ _ Ha Ho Hl') as [Ho' Hl''].
    { intros e Ht _ _. eapply justified_other; [done|set_solver]. }
    split_and!; [done|done|]. exists lost. split; [done|]. simpl.
    rewrite (count_adds _ _ _ _ _ _ Ha), (closed_adds _ _ _ _ _ Ha). simpl.
    destruct Ha as [-> _]. split; [lia|done].
  - split_and!; simpl; rewrite ?He; try done. exists (lost + 1)%Z. simpl. rewrite He, Hd, Hdrop.
    split_and!; [lia|lia|]. by rewrite Zplus_mod_idemp_l.
Qed.

(** A decision moves its span on; a result ends it. *)
Lemma decides_step s s' live n sp d :
  adds_row s s' "tool_call.decided" (span_session_id sp)
    (decided_payload (span_invocation_id sp) d) →
  live !! n = Some (LiveOpened sp) → span_inv (s, live) →
  span_inv (s', <[n := LiveDecided (mkSpan (span_invocation_id sp) (span_session_id sp)
                                     false)]> live).
Proof.
  intros Ha Hn (Ho & Hl & (lost & Hlost & Hcnt & Hdrop)). simpl in *.
  destruct (Hl n _ Hn) as (Hf & o & Hin & Hrow).
  destruct (adds_row_step _ _ _ _ _ _ Ha Ho Hl) as [Ho' Hl'].
  { intros e Ht Hs Hp. split; [|rewrite Ht; set_solver]. intros _.
    rewrite Hs. exists (span_invocation_id sp), o. split; [done|]. split; [done|].
    split_and!; [done|done|]. by exists d. }
  split_and!; [done| |].
  - apply map_Forall_insert_2; [|done]. split; [done|].
    destruct Ha as (_ & e & He & Ht & Hs & Hp). exists e. simpl in *. rewrite He.
    split; [set_solver|]. split_and!; [done|done|]. by exists d.
  - exists lost. split; [done|]. simpl.
    rewrite (count_adds _ _ _ _ _ _ Ha), (closed_adds _ _ _ _ _ Ha). simpl.
    rewrite map_size_insert_Some by (by eexists). destruct Ha as [-> _]. split; [lia|done].
Qed.

Lemma finishes_step s s' live n sp ty p :
  adds_row s s' ty (span_session_id sp) p →
  ty ∈ ["tool_call.executed"; "tool_call.execute_failed"] →
  (∀ e, e_event_type e = ty → e_session_id e = span_session_id sp →
        jcs_to_vec p = Some (e_payload_json e) →
        finished_row (span_invocation_id sp) (span_session_id sp) e) →
  live !! n = Some (LiveDecided sp) → span_inv (s, live) → span_inv (s', delete n live).
Proof.
  intros Ha Hty Hfin Hn (Ho & Hl & (lost & Hlost & Hcnt & Hdrop)). simpl in *.
  destruct (Hl n _ Hn) as (Hf & d & Hin & Hrow).
  destruct (adds_row_step _ _ _ _ _ (delete n live) Ha Ho) as [Ho' Hl'].
  { by apply map_Forall_delete. }
  { intros e Ht Hs Hp. split.
    { rewrite Ht. intros ->. apply elem_of_cons in Hty as [?|Hty]; [done|].
      by apply list_elem_of_singleton in Hty. }
    intros _. rewrite Hs.
    exists (span_invocation_id sp), d. split_and!; [done|done|by apply Hfin]. }
  split_and!; [done|done|]. exists lost. split; [done|]. simpl.
  assert (Z.of_nat (size live) = Z.of_nat (size (delete n live)) + 1)%Z as Hsz.
  { rewrite <- (insert_delete_id live n _ Hn) at 1.
    rewrite map_size_insert_None by apply lookup_delete_eq. lia. }
  rewrite (count_adds _ _ _ _ _ _ Ha), (closed_adds _ _ _ _ _ Ha).
  destruct Ha as [-> _].
  apply elem_of_cons in Hty as [->| ->%list_elem_of_singleton]; simpl;
    (split; [lia|done]).
Qed.

Lemma span_inv_init s :
  drop_failure_count s = 0%Z →
  Forall (λ e, Str.starts_with "tool_call." (e_event_type e) = false) (events s) →
  span_inv (s, ∅).
Proof.
  intros Hd Hl. split_and!; simpl; [|apply map_Forall_empty|].
  - apply (ordered_other []); [|done]. by intros [].
  - exists 0%Z. split; [done|]. unfold closed. rewrite !count_other by done.
    rewrite map_size_empty. by rewrite Hd.
Qed.

Lemma span_inv_step w w' : span_inv w → step w w' → span_inv w'.
Proof.
  intros Hi Hs. destruct Hs as
    [s live n now inv sid sp s' Hn E|s live now inv sid e s' E
    |s live n now now' d sp sp' s' Hn E|s live n now now' d sp e s' Hn E
    |s live n now now' sp summary r s' Hn E|s live n now now' sp reason r s' Hn E
    |s live n now sp r s' Hn E|s live n now sp r s' Hn E|s live s' (Hd & l & He & Hl)].
  - unfold tool_call_span, bind, ret in E.
    destruct (append_event_internal _ _ _ _ _ s) as [r1 s1] eqn:Ea.
    apply append_effect in Ea as [(err & -> & ->)|(ev & -> & Ha)]; [done|].
    injection E as <- <-. destruct Hi as (Ho & Hl & (lost & Hlost & Hcnt & Hdrop)).
    destruct (adds_row_step _ _ _ _ _ _ Ha Ho Hl) as [Ho' Hl'].
    { intros e Ht _ _. eapply justified_other; [done|set_solver]. }
    split_and!; [done| |].
    + apply map_Forall_insert_2; [|done]. split; [done|].
      destruct Ha as (_ & e & He & Ht & Hs & Hp). exists e. simpl in *. rewrite He.
      split; [set_solver|by split_and!].
    + exists lost. split; [done|]. simpl in *.
      rewrite (count_adds _ _ _ _ _ _ Ha), (closed_adds _ _ _ _ _ Ha). simpl.
      rewrite map_size_insert_None by done. destruct Ha as [-> _]. split; [lia|done].
  - unfold tool_call_span, bind, ret in E.
    destruct (append_event_internal _ _ _ _ _ s) as [r1 s1] eqn:Ea.
    by apply append_effect in Ea as [(err & -> & ->)|(ev & -> & Ha)]; simplify_eq.
  - destruct (proj1 (proj2 Hi) n _ Hn) as (Hf & _).
    apply consuming_effect in E as [[[= ->] Ha]|(err & ? & _)]; [|done|done].
    by eapply decides_step.
  - destruct (proj1 (proj2 Hi) n _ Hn) as (Hf & _).
    apply consuming_effect in E as [[? _]|(err & _ & Hc)]; [done| |done].
    by eapply closes_step.
  - destruct (proj1 (proj2 Hi) n _ Hn) as (Hf & _).
    apply consuming_effect in E as [[_ Ha]|(err & _ & Hc)]; [| |done].
    + eapply finishes_step; [done|set_solver| |done|done].
      intros e Ht Hs Hp. split; [done|]. left. split; [done|]. by eexists.
    + by eapply closes_step.
  - destruct (proj1 (proj2 Hi) n _ Hn) as (Hf & _).
    apply consuming_effect in E as [[_ Ha]|(err & _ & Hc)]; [| |done].
    + eapply finishes_step; [done|set_solver| |done|done].
      intros e Ht Hs Hp. split; [done|]. right. split; [done|]. by eexists.
    + by eapply closes_step.
  - destruct (proj1 (proj2 Hi) n _ Hn) as (Hf & _). apply drop_effect in E; [|done].
    by eapply closes_step.
  - destruct (proj1 (proj2 Hi) n _ Hn) as (Hf & _). apply drop_effect in E; [|done].
    by eapply closes_step.
  - destruct Hi as (Ho & Hlive & (lost & Hlost & Hcnt & Hdrop)). simpl in *.
    split_and!; simpl; rewrite ?He; [by apply ordered_other| |].
    + eapply lives_mono; [|done]. set_solver.
    + exists lost. split; [done|]. simpl. unfold closed in *. rewrite He, !count_app.
      rewrite !(count_other _ l) by done. rewrite Hd. split; [lia|done].
Qed.

Lemma span_inv_reachable w : reachable w → span_inv w.
Proof.
  induction 1 as [s Hd Hl|w w' _ IH Hs]; [by apply span_inv_init|by eapply span_inv_step].
Qed.

(** The public [append_event] is one of the other writers. *)
Lemma append_event_other now sid ty p rt s :
  other_write s (append_event now sid ty p rt s).2.
Proof.
  unfold append_event. destruct (existsb _ RESERVED_EVENT_PREFIXES) eqn:Ep.
  { split; [done|]. exists []. simpl. by rewrite app_nil_r. }
  destruct (append_event_internal now sid ty p rt s) as [r s'] eqn:E.
  apply append_effect in E as [(err & -> & ->)|(ev & -> & (Hd & e & He & Ht & _))]; simpl.
  { split; [done|]. exists []. by rewrite app_nil_r. }
  split; [done|]. exists [e]. split; [done|]. constructor; [|done]. rewrite Ht.
  simpl in Ep. by apply orb_false_iff in Ep as [? _].
Qed.

(** No tool call is recorded as executed, or as failed, before its decision:
    whatever programs do with spans, interleaved with each other and with any
    other writer, each [tool_call.executed] or [tool_call.execute_failed] row of
    the ledger is preceded by a [tool_call.decided] row of the same invocation
    and session, which is itself preceded by its [tool_call.opened] row. *)
Theorem executed_only_after_decided s live i e :
  reachable (s, live) → events s !! i = Some e →
  e_event_type e ∈ ["tool_call.executed"; "tool_call.execute_failed"] →
  ∃ inv j k d o inv',
    (k < j < i)%nat ∧ events s !! j = Some d ∧ events s !! k = Some o ∧
    finished_row inv (e_session_id e) e ∧ decided_row inv (e_session_id e) d ∧
    decided_row inv' (e_session_id d) d ∧ opened_row inv' (e_session_id d) o.
Proof.
  intros Hr Hi Ht. destruct (span_inv_reachable _ Hr) as (Ho & _). simpl in Ho.
  destruct (Ho i e Hi) as [_ Hf]. destruct (Hf Ht) as (inv & d & Hd & Hdr & Hfin).
  apply elem_of_take in Hd as (j & Hj & Hlt).
  destruct (Ho j d Hj) as [Hdec _]. destruct (Hdec (proj1 Hdr)) as (inv' & o & Hin & Hop & Hdo).
  apply elem_of_take in Hin as (k & Hk & Hlt').
  exists inv, j, k, d, o, inv'. by split_and!.
Qed.

(** No call is lost silently: at every moment the calls opened are the calls
    finished or abandoned, those whose span is still held, and those whose
    abandon row could not be written, which [drop_failure_count] counts (as a
    u64). *)
Theorem opened_calls_are_accounted s live :
  reachable (s, live) →
  ∃ lost : Z, (0 ≤ lost)%Z ∧
    (count "tool_call.opened" (events s) =
       count "tool_call.executed" (events s) + count "tool_call.execute_failed" (events s)
       + count "tool_call.abandoned" (events s) + Z.of_nat (size live) + lost)%Z ∧
    drop_failure_count s = (lost `mod` 2 ^ 64)%Z.
Proof. intros Hr. by destruct (span_inv_reachable _ Hr) as (_ & _ & Ha). Qed.
End SpanFacts.

(** ** Witnesses: a call opened, decided and executed; another left open. *)

Import Toy.

Definition sample_decision : DecisionRecord :=
  mkDecisionRecord "d1" "inv1" DecisionKind.Allow 10 ["ok"] ["p"] 3.

Definition run_call : result AuditError (ToolCallSpan Opened) * LedgerState :=
  (let! a := tool_call_span 1 "inv1" "s1" in
   let! a := decision_recorded 2 2 a sample_decision in
   executed 3 3 a "done" ;!
   tool_call_span 4 "inv2" "s1") empty_ledger.

Lemma run_call_reachable :
  ∃ sp, run_call.1 = Ok sp ∧ reachable (run_call.2, <[1%nat := LiveOpened sp]> ∅).
Proof.
  destruct (tool_call_span 1 "inv1" "s1" empty_ledger) as [[a|?] s1] eqn:E1;
    [|by vm_compute in E1].
  destruct (decision_recorded 2 2 a sample_decision s1) as [[b|?] s2] eqn:E2;
    [|by vm_compute in E1; injection E1 as <- <-; vm_compute in E2].
  destruct (executed 3 3 b "done" s2) as [[[]|?] s3] eqn:E3;
    [|by vm_compute in E1; injection E1 as <- <-; vm_compute in E2;
       injection E2 as <- <-; vm_compute in E3].
  destruct (tool_call_span 4 "inv2" "s1" s3) as [r s4] eqn:E4.
  assert (run_call = (r, s4)) as Hrun by (unfold run_call, bind; by rewrite E1, E2, E3, E4).
  assert (is_ok run_call.1 = true) as Hok by (vm_compute; reflexivity).
  rewrite Hrun in *. destruct r as [sp|]; [|done]. exists sp. split; [done|]. simpl.
  pose proof (ReachInit empty_ledger eq_refl (Forall_nil_2 _)) as R0.
  assert (reachable (s1, <[0%nat := LiveOpened a]> ∅)) as R1.
  { eapply ReachStep; [exact R0|]. eapply StepOpen; [|exact E1]. reflexivity. }
  assert (reachable (s2, <[0%nat := LiveDecided b]> (<[0%nat := LiveOpened a]> ∅))) as R2.
  { eapply ReachStep; [exact R1|]. eapply StepDecide; [|exact E2]. reflexivity. }
  assert (reachable (s3, ∅)) as R3.
  { set (live := <[0%nat := LiveDecided b]> (<[0%nat := LiveOpened a]> ∅)) in *.
    assert (delete 0%nat live = ∅) as <- by (vm_compute; reflexivity).
    eapply ReachStep; [exact R2|]. eapply StepExecuted; [|exact E3]. reflexivity. }
  eapply ReachStep; [exact R3|]. eapply StepOpen; [|exact E4]. reflexivity.
Qed.

Lemma executed_only_after_decided_witness :
  ∃ sp e inv d, run_call.1 = Ok sp ∧ events run_call.2 !! 2%nat = Some e ∧
    e_event_type e = "tool_call.executed" ∧
    d ∈ events run_call.2 ∧ decided_row inv (e_session_id e) d.
Proof.
  destruct run_call_reachable as (sp & Hsp & Hr).
  destruct (events run_call.2 !! 2%nat) as [e|] eqn:He; [|by vm_compute in He].
  assert (e_event_type e = "tool_call.executed") as Ht.
  { vm_compute in He. injection He as <-. reflexivity. }
  destruct (executed_only_after_decided _ _ 2 e Hr He) as
    (inv & j & k & d & o & inv' & _ & Hj & _ & _ & Hd & _).
  { rewrite Ht. left. }
  exists sp, e, inv, d. split_and!; [exact Hsp|done|exact Ht| |apply Hd..].
  by eapply list_elem_of_lookup_2.
Defined.

Lemma opened_calls_are_accounted_witness :
  ∃ sp lost, run_call.1 = Ok sp ∧ count "tool_call.opened" (events run_call.2) = 2%Z ∧
    (2 = 1 + 0 + 0 + 1 + lost)%Z.
Proof.
  destruct run_call_reachable as (sp & Hsp & Hr).
  destruct (opened_calls_are_accounted _ _ Hr) as (lost & _ & E & _).
  exists sp, lost. split_and!; [exact Hsp|vm_compute; reflexivity|].
  vm_compute in E. exact E.
Defined.
