(* ===== verification/Approvals.v ===== *)
(** * The approval queue

    [src/crates/vigil-audit/src/approvals.rs]: the typed system events and the
    approval state machine over the [approvals] table. Each reading of the clock
    is an argument, in the order the code reads it. Waiting is a loop over what
    other parties do to the ledger between two looks at it. *)

From stdpp Require Import pretty.
From S2P Require Import Prelude Types Deps Db Hash Ledger.

(** ** Column texts *)

Definition status_str (st : ApprovalStatus) : string :=
  match st with
  | ApprovalStatus.Pending => "Pending"
  | ApprovalStatus.Approved => "Approved"
  | ApprovalStatus.Denied => "Denied"
  | ApprovalStatus.Expired => "Expired"
  | ApprovalStatus.Cancelled => "Cancelled"
  end.

Definition parse_status (s : string) : result AuditError ApprovalStatus :=
  if String.eqb s "Pending" then Ok ApprovalStatus.Pending
  else if String.eqb s "Approved" then Ok ApprovalStatus.Approved
  else if String.eqb s "Denied" then Ok ApprovalStatus.Denied
  else if String.eqb s "Expired" then Ok ApprovalStatus.Expired
  else if String.eqb s "Cancelled" then Ok ApprovalStatus.Cancelled
  else Err (AuditError.InvalidInput "approvals.status contains unknown variant").

Definition scope_to_str (sc : ApprovalScope) : string :=
  match sc with
  | ApprovalScope.Once => "Once"
  | ApprovalScope.ThisSession => "ThisSession"
  | ApprovalScope.ForToolWithSameArgsHash => "ForToolWithSameArgsHash"
  | ApprovalScope.ForPolicyTemplate => "ForPolicyTemplate"
  end.

Definition parse_scope (s : string) : option ApprovalScope :=
  if String.eqb s "Once" then Some ApprovalScope.Once
  else if String.eqb s "ThisSession" then Some ApprovalScope.ThisSession
  else if String.eqb s "ForToolWithSameArgsHash" then
    Some ApprovalScope.ForToolWithSameArgsHash
  else if String.eqb s "ForPolicyTemplate" then Some ApprovalScope.ForPolicyTemplate
  else None.

(** [n.to_string()] *)
Definition show_Z (n : Z) : string := pretty n.

Record ApprovalTargetContext := mkApprovalTargetContext {
  ctx_server_id : option string;
  ctx_tool_name : option string;
  ctx_args_hash : option string;
}.

Record EngineDegradedPayload := mkEngineDegradedPayload {
  engine_id : string;
  degraded_status : string;
  reason_code : string;
  budget_ms : option Z;
  elapsed_ms : option Z;
  fail_closed_decision : string;
  degraded_decision_id : string;
}.

Section Approvals.
Context `{Crates} `{Redaction}.

(** ** Typed system events *)

Definition decision_payload (d : DecisionRecord) (eff : EffectVector) : Value :=
  JObj [("decision_id", JStr (dr_decision_id d));
        ("invocation_id", JStr (dr_invocation_id d));
        ("decision", JStr (DecisionKind.to_str (dr_decision d)));
        ("risk_score", JNum (dr_risk_score d));
        ("reasons", json_strs (redact_free_text (dr_reasons d)));
        ("policy_ids", json_strs (dr_policy_ids d));
        ("effects", json_strs (EffectKind.to_str <$> effects eff));
        ("destructive", JBool (destructive eff));
        ("reversible", JBool (reversible eff))].

Definition record_decision (now : Z) (session_id : string) (d : DecisionRecord)
    (eff : EffectVector) : LedgerM AppendedEvent :=
  append_event_internal now session_id "decision.recorded" (decision_payload d eff)
    (Some ("decision_id:" +:+ dr_decision_id d +:+ " invocation_id:" +:+
           dr_invocation_id d +:+ " risk:" +:+ show_Z (dr_risk_score d))).

Definition record_approval_created (now : Z) (req : ApprovalRequest)
    : LedgerM AppendedEvent :=
  let redacted := redact_free_text [ar_title req; ar_summary req] in
  let red_title := default "" (redacted !! 0%nat) in
  let red_summary := default "" (redacted !! 1%nat) in
  append_event_internal now (ar_session_id req) "approval.created"
    (JObj [("approval_id", JStr (ar_approval_id req));
           ("decision_id", JStr (ar_decision_id req));
           ("title", JStr red_title);
           ("summary", JStr red_summary);
           ("effects", json_strs (EffectKind.to_str <$> effects (ar_effect_vector req)));
           ("expires_at", JNum (ar_expires_at req));
           ("status", JStr (status_str (ar_status req)))])
    (Some ("approval_id:" +:+ ar_approval_id req +:+ " decision_id:" +:+
           ar_decision_id req +:+ " " +:+ red_summary)).

Definition record_approval_resolved (now : Z) (req : ApprovalRequest)
    (r : ApprovalResolution) : LedgerM AppendedEvent :=
  append_event_internal now (ar_session_id req) "approval.resolved"
    (JObj [("approval_id", JStr (res_approval_id r));
           ("status", JStr (status_str (res_status r)));
           ("scope", json_opt_str (scope_to_str <$> res_scope r));
           ("resolved_by", json_opt_str (res_resolved_by r));
           ("resolved_at", JNum (res_resolved_at r))])
    (Some ("approval_id:" +:+ res_approval_id r +:+ " resolved:" +:+
           status_str (res_status r))).

Definition record_lease_minted (now : Z)
    (session_id lease_id secret_ref server_id tool_name : string) (expires_at : Z)
    : LedgerM AppendedEvent :=
  append_event_internal now session_id "lease.minted"
    (JObj [("lease_id", JStr lease_id); ("secret_ref", JStr secret_ref);
           ("server_id", JStr server_id); ("tool_name", JStr tool_name);
           ("expires_at", JNum expires_at)])
    (Some ("lease_id:" +:+ lease_id +:+ " secret_ref:" +:+ secret_ref +:+ " server:" +:+
           server_id +:+ " tool:" +:+ tool_name)).

Definition record_lease_revoked (now : Z) (session_id lease_id reason : string)
    : LedgerM AppendedEvent :=
  append_event_internal now session_id "lease.revoked"
    (JObj [("lease_id", JStr lease_id); ("reason", JStr reason)])
    (Some ("lease_id:" +:+ lease_id +:+ " reason:" +:+ reason)).

(** [#[serde(skip_serializing_if = "Option::is_none")]] *)
Definition opt_field (k : string) (o : option Z) : list (string * Value) :=
  match o with
  | Some z => [(k, JNum z)]
  | None => []
  end.

Definition record_engine_degraded (now : Z) (session_id : string)
    (p : EngineDegradedPayload) : LedgerM AppendedEvent :=
  append_event_internal now session_id "engine.degraded"
    (JObj ([("engine_id", JStr (engine_id p)); ("status", JStr (degraded_status p));
            ("reason_code", JStr (reason_code p))]
           ++ opt_field "budget_ms" (budget_ms p) ++ opt_field "elapsed_ms" (elapsed_ms p)
           ++ [("fail_closed_decision", JStr (fail_closed_decision p));
               ("decision_id", JStr (degraded_decision_id p))]))
    (Some ("engine_id:" +:+ engine_id p +:+ " status:" +:+ degraded_status p +:+
           " decision_id:" +:+ degraded_decision_id p +:+ " reason:" +:+ reason_code p)).

(** ** Reading the table *)

Definition row_request (id : string) (row : ApprovalRow) : result AuditError ApprovalRequest :=
  let? effect_vector := ok_or (effects_from_json (a_effect_json row)) AuditError.Json in
  let? st := parse_status (a_status row) in
  Ok (mkApprovalRequest id (a_decision_id row) (a_invocation_id row) (a_session_id row)
        (a_title row) (a_summary row) effect_vector (a_expires_at row) st).

Fixpoint row_requests (l : list (string * ApprovalRow))
    : result AuditError (list ApprovalRequest) :=
  match l with
  | [] => Ok []
  | (id, row) :: rest =>
      let? req := row_request id row in
      let? out := row_requests rest in
      Ok (req :: out)
  end.

Definition list_pending_approvals (session_id : option string)
    : LedgerM (list ApprovalRequest) :=
  λ s, (row_requests (Sort.sort (λ a b, (a_created_at a.2 <=? a_created_at b.2)%Z)
          (List.filter (λ kv, String.eqb (a_status kv.2) "Pending" &&
             match session_id with
             | Some sid => String.eqb (a_session_id kv.2) sid
             | None => true
             end) (map_to_list (approvals s)))), s).

Definition read_approval (approval_id : string) (s : LedgerState)
    : result AuditError (option ApprovalRequest) :=
  match approvals s !! approval_id with
  | None => Ok None
  | Some row => let? req := row_request approval_id row in Ok (Some req)
  end.

Definition get_approval (approval_id : string) : LedgerM (option ApprovalRequest) :=
  λ s, (read_approval approval_id s, s).

Definition approval_status (approval_id : string) : LedgerM (option string) :=
  gets (λ s, a_status <$> approvals s !! approval_id).

Definition read_persisted_resolution_meta (approval_id : string)
    : LedgerM (option string * Z) :=
  gets (λ s, match approvals s !! approval_id with
             | Some row => (a_resolved_by row, default 0%Z (a_resolved_at row))
             | None => (None, 0%Z)
             end).

(** ** Creating *)

Definition insert_approval (id : string) (row : ApprovalRow) : LedgerM unit :=
  let! existing := gets (λ s, approvals s !! id) in
  match existing with
  | Some _ => throw (AuditError.Sqlite "UNIQUE constraint failed")
  | None => modify (λ s, set_approvals (<[id := row]> (approvals s)) s)
  end.

Definition store_pending_approval_skeleton (now : Z)
    (approval_id decision_id session_id title summary effect_json : string) (expires_at : Z)
    : LedgerM unit :=
  lift (validate_nonempty "approval_id" approval_id) ;!
  insert_approval approval_id
    (mkApprovalRow decision_id "" session_id (scrub_text title) (scrub_text summary)
       (scrub_text effect_json) "Pending" None None None None expires_at now None None).

Definition create_approval (now now_ev : Z) (approval_id session_id : string)
    (d : DecisionRecord) (eff : EffectVector) (title summary : string) (ttl_secs : Z)
    (context : ApprovalTargetContext) : LedgerM ApprovalRequest :=
  let ttl_i64 := Z.min ttl_secs Int.i64_max in
  let expires_at := Int.i64_saturating_add now ttl_i64 in
  insert_approval approval_id
    (mkApprovalRow (dr_decision_id d) (dr_invocation_id d) session_id (scrub_text title)
       (scrub_text summary) (scrub_text (effects_to_json eff)) "Pending" None
       (ctx_args_hash context) (ctx_server_id context) (ctx_tool_name context)
       expires_at now None None) ;!
  let req := mkApprovalRequest approval_id (dr_decision_id d) (dr_invocation_id d)
               session_id title summary eff expires_at ApprovalStatus.Pending in
  record_approval_created now_ev req ;!
  ret req.

(** ** Resolving *)

Definition set_resolution (st : string) (now : Z) (by_ sc : option string)
    (row : ApprovalRow) : ApprovalRow :=
  mkApprovalRow (a_decision_id row) (a_invocation_id row) (a_session_id row) (a_title row)
    (a_summary row) (a_effect_json row) st sc (a_args_hash row) (a_server_id row)
    (a_tool_name row) (a_expires_at row) (a_created_at row) (Some now) by_.

(** The scope stored: only with [Approved]. *)
Definition scope_column (target : ApprovalStatus) (scope : option ApprovalScope)
    : option string :=
  match target, scope with
  | ApprovalStatus.Approved, Some sc => Some (scope_to_str sc)
  | _, _ => None
  end.

(** [self.approval_broker.publish] *)
Definition publish (approval_id : string) (r : ApprovalResolution) : LedgerM unit :=
  modify (λ s, set_published (<[approval_id := r]> (published s)) s).

Definition resolve (now now_ev : Z) (approval_id : string) (target : ApprovalStatus)
    (scope : option ApprovalScope) (resolved_by : option string)
    : LedgerM ApprovalResolution :=
  let! update := gets (λ s, update_where approval_id
    (λ row, String.eqb (a_status row) "Pending")
    (set_resolution (status_str target) now resolved_by (scope_column target scope))
    (approvals s)) in
  let updated_rows := update.1 in
  modify (set_approvals update.2) ;!
  let! found := get_approval approval_id in
  let! req := lift (ok_or found (AuditError.InvalidInput "approval not found")) in
  let effective_scope :=
    if (0 <? updated_rows)%Z && bool_decide (ar_status req = ApprovalStatus.Approved)
    then scope else None in
  let! meta :=
    if (0 <? updated_rows)%Z then ret (resolved_by, now)
    else read_persisted_resolution_meta approval_id in
  let resolution := mkApprovalResolution approval_id (ar_invocation_id req)
                      (ar_status req) effective_scope meta.1 meta.2 in
  (if (0 <? updated_rows)%Z then
     record_approval_resolved now_ev req resolution ;!
     publish approval_id resolution
   else ret tt) ;!
  ret resolution.

Definition approve (now now_ev : Z) (approval_id : string) (scope : ApprovalScope)
    (resolved_by : option string) : LedgerM ApprovalResolution :=
  resolve now now_ev approval_id ApprovalStatus.Approved (Some scope) resolved_by.

Definition cancel (now now_ev : Z) (approval_id : string) (resolved_by : option string)
    : LedgerM ApprovalResolution :=
  resolve now now_ev approval_id ApprovalStatus.Cancelled None resolved_by.

Definition deny (now now_ev now_note : Z) (approval_id : string)
    (reason resolved_by : option string) : LedgerM ApprovalResolution :=
  let! out := resolve now now_ev approval_id ApprovalStatus.Denied None resolved_by in
  (match reason with
   | Some r =>
       let! found := get_approval approval_id in
       let! req := lift (ok_or found
         (AuditError.InvalidInput "approval disappeared after deny")) in
       let red_r := default "" (head (redact_free_text [r])) in
       append_event_internal now_note (ar_session_id req) "approval.note"
         (JObj [("approval_id", JStr approval_id); ("reason", JStr red_r)]) (Some red_r) ;!
       ret tt
   | None => ret tt
   end) ;!
  ret out.

(** ** Session scope *)

(** [ORDER BY resolved_at DESC]: NULL sorts below every time. *)
Definition later_resolved (a b : string * ApprovalRow) : bool :=
  match a_resolved_at a.2, a_resolved_at b.2 with
  | Some x, Some y => (y <=? x)%Z
  | _, None => true
  | None, Some _ => false
  end.

Definition session_scope_match (now : Z) (session_id server_id tool_name args_hash : string)
    (row : ApprovalRow) : bool :=
  String.eqb (a_session_id row) session_id
  && bool_decide (a_server_id row = Some server_id)
  && bool_decide (a_tool_name row = Some tool_name)
  && bool_decide (a_args_hash row = Some args_hash)
  && bool_decide (a_scope row = Some "ThisSession")
  && String.eqb (a_status row) "Approved"
  && (now <? a_expires_at row)%Z.

Definition find_session_scope_allow (now : Z)
    (session_id server_id tool_name args_hash : string)
    : LedgerM (option ApprovalResolution) :=
  gets (λ s,
    (λ kv, mkApprovalResolution kv.1 (a_invocation_id kv.2) ApprovalStatus.Approved
             (Some ApprovalScope.ThisSession) (a_resolved_by kv.2)
             (default now (a_resolved_at kv.2))) <$>
    head (Sort.sort later_resolved
      (List.filter (λ kv, session_scope_match now session_id server_id tool_name args_hash kv.2)
         (map_to_list (approvals s))))).

(** ** Expiry *)

Definition expired_pending (now : Z) (row : ApprovalRow) : bool :=
  String.eqb (a_status row) "Pending" && (a_expires_at row <=? now)%Z.

(** The loop over the selected ids; [clock] gives its readings of the clock. *)
Fixpoint sweep_ids (clock : nat → Z) (ids : list string) : LedgerM (list ApprovalResolution) :=
  match ids with
  | [] => ret []
  | id :: rest =>
      let! res := resolve (clock 0%nat) (clock 1%nat) id ApprovalStatus.Expired None
                    (Some "auto-expired") in
      let! out := sweep_ids (λ n, clock (S (S n))) rest in
      ret (res :: out)
  end.

Definition sweep_expired (now : Z) (clock : nat → Z) : LedgerM (list ApprovalResolution) :=
  let! ids := gets (λ s, (List.filter (λ kv, expired_pending now kv.2)
                            (map_to_list (approvals s))).*1) in
  sweep_ids clock ids.

(** ** Waiting *)

Definition current_resolution (now : Z) (approval_id : string)
    : LedgerM (option ApprovalResolution) :=
  λ s,
    (match approvals s !! approval_id with
     | None => Ok None
     | Some row =>
         let? st := parse_status (a_status row) in
         if bool_decide (st = ApprovalStatus.Pending) then Ok None
         else Ok (Some (mkApprovalResolution approval_id (a_invocation_id row) st
                          (a_scope row ≫= parse_scope) (a_resolved_by row)
                          (default now (a_resolved_at row))))
     end, s).

(** One slice of the wait: the others act on the ledger, then the slot and the
    table are looked at. [slices] are the slices before the deadline. *)
Fixpoint wait_slices (now : Z) (approval_id : string)
    (slices : list (LedgerState → LedgerState)) : LedgerM (option ApprovalResolution) :=
  let! slot := gets (λ s, published s !! approval_id) in
  match slot, slices with
  | Some r, _ => ret (Some r)
  | None, [] => current_resolution now approval_id
  | None, others :: rest =>
      modify others ;!
      let! slot := gets (λ s, published s !! approval_id) in
      match slot with
      | Some r => ret (Some r)
      | None =>
          let! existing := current_resolution now approval_id in
          match existing with
          | Some r => ret (Some r)
          | None => wait_slices now approval_id rest
          end
      end
  end.

Definition wait_for_resolution (now : Z) (approval_id : string)
    (slices : list (LedgerState → LedgerState)) : LedgerM (option ApprovalResolution) :=
  let! existing := current_resolution now approval_id in
  match existing with
  | Some r => ret (Some r)
  | None => wait_slices now approval_id slices
  end.
End Approvals.
