(* ===== verification/ApprovalFacts.v ===== *)
(** * What the approval queue guarantees

    One resolution per approval: a row leaves [Pending] at most once, by one
    [UPDATE], and never changes after. The invariant ties the scope to
    [Approved], the timestamp to resolution, and what waiters are told to what
    the table says. *)

From S2P Require Import Prelude Types Deps Db Hash Ledger LedgerFacts Approvals.

(** ** Round trips of the column texts *)

Lemma parse_status_str st : parse_status (status_str st) = Ok st.
Proof. by destruct st. Qed.

Lemma parse_status_inv s st : parse_status s = Ok st → s = status_str st.
Proof.
  unfold parse_status. intros E.
  repeat match type of E with
         | context [String.eqb s ?x] => destruct (String.eqb_spec s x) as [->|]
         end; by simplify_eq.
Qed.

Lemma parse_scope_str sc : parse_scope (scope_to_str sc) = Some sc.
Proof. by destruct sc. Qed.

Lemma status_str_pending st : status_str st = "Pending" ↔ st = ApprovalStatus.Pending.
Proof. by destruct st. Qed.

(** ** Evolution of a row *)

Definition row_evolves (o o' : option ApprovalRow) : Prop :=
  match o, o' with
  | None, _ => True
  | Some _, None => False
  | Some r, Some r' =>
      r' = r ∨
      (a_status r = "Pending" ∧ ∃ st now by_ sc,
         st ≠ ApprovalStatus.Pending ∧ r' = set_resolution (status_str st) now by_ sc r)
  end.

Definition approvals_evolve (s s' : LedgerState) : Prop :=
  ∀ id, row_evolves (approvals s !! id) (approvals s' !! id).

#[export] Instance approvals_evolve_preorder : PreOrder approvals_evolve.
Proof.
  split.
  - intros s id. destruct (approvals s !! id); [by left|done].
  - intros s t u Ha Hb id. specialize (Ha id). specialize (Hb id).
    destruct (approvals s !! id) as [r|]; [|done].
    destruct (approvals t !! id) as [r'|]; [|done].
    destruct (approvals u !! id) as [r''|]; [|done]. simpl in *.
    destruct Ha as [->|(Hp & st & n & b & sc & Hst & ->)]; [done|].
    destruct Hb as [->|(Hp' & _)]; [right; by eauto 10|].
    simpl in Hp'. by apply status_str_pending in Hp'.
Qed.

(** ** The invariant *)

Record row_ok (row : ApprovalRow) : Prop := {
  ro_status : is_ok (parse_status (a_status row)) = true;
  ro_pending : a_status row = "Pending" →
    a_scope row = None ∧ a_resolved_at row = None ∧ a_resolved_by row = None;
  ro_resolved : a_status row ≠ "Pending" → is_Some (a_resolved_at row);
  ro_scope : ∀ x, a_scope row = Some x →
    a_status row = "Approved" ∧ ∃ sc, x = scope_to_str sc;
}.

(** What the table says of an approval that is not pending. *)
Definition resolution_of (id : string) (row : ApprovalRow) (r : ApprovalResolution) : Prop :=
  a_status row ≠ "Pending" ∧ a_status row = status_str (res_status r) ∧
  res_approval_id r = id ∧ res_invocation_id r = a_invocation_id row ∧
  res_scope r = a_scope row ≫= parse_scope ∧ res_resolved_by r = a_resolved_by row ∧
  Some (res_resolved_at r) = a_resolved_at row.

Definition approvals_inv (s : LedgerState) : Prop :=
  map_Forall (λ _, row_ok) (approvals s) ∧
  ∀ id r, published s !! id = Some r →
    ∃ row, approvals s !! id = Some row ∧ resolution_of id row r.

(** What every operation of the queue does to the ledger. *)
Definition approval_step `{Crates} `{Redaction} : LedgerState → LedgerState → Prop :=
  both log_step (both approvals_evolve (keeps approvals_inv)).

(** ** [resolve], case by case *)

Section Resolve.
Context `{CratesLaws} `{Redaction}.
Implicit Types (s : LedgerState) (row : ApprovalRow).

Lemma set_approvals_same s : set_approvals (approvals s) s = s.
Proof. by destruct s. Qed.

Lemma resolve_missing now now_ev id target scope by_ s :
  approvals s !! id = None →
  resolve now now_ev id target scope by_ s =
    (Err (AuditError.InvalidInput "approval not found"), s).
Proof.
  intros Hid. unfold resolve. run_m. unfold update_where. rewrite Hid. simpl.
  rewrite set_approvals_same. unfold get_approval, read_approval. by rewrite Hid.
Qed.

Lemma resolve_terminal now now_ev id target scope by_ s row :
  approvals s !! id = Some row → a_status row ≠ "Pending" →
  resolve now now_ev id target scope by_ s =
    match row_request id row with
    | Ok req => (Ok (mkApprovalResolution id (a_invocation_id row) (ar_status req) None
                       (a_resolved_by row) (default 0%Z (a_resolved_at row))), s)
    | Err e => (Err e, s)
    end.
Proof.
  intros Hid Hp. apply String.eqb_neq in Hp. unfold resolve. run_m. unfold update_where.
  rewrite Hid, Hp. simpl. rewrite set_approvals_same.
  unfold get_approval, read_approval. rewrite Hid.
  destruct (row_request id row) as [req|e] eqn:Er; simpl; [|done].
  unfold row_request in Er. destruct (effects_from_json _); [|done]. simpl in Er.
  destruct (parse_status (a_status row)); [|done]. by simplify_eq/=.
Qed.

(** The row a resolution writes. *)
Definition resolved_row now target scope by_ row : ApprovalRow :=
  set_resolution (status_str target) now by_ (scope_column target scope) row.

Lemma resolve_pending now now_ev id target scope by_ s row :
  approvals s !! id = Some row → a_status row = "Pending" →
  let row' := resolved_row now target scope by_ row in
  let s1 := set_approvals (<[id := row']> (approvals s)) s in
  resolve now now_ev id target scope by_ s =
    match row_request id row' with
    | Err e => (Err e, s1)
    | Ok req =>
        let r := mkApprovalResolution id (a_invocation_id row) target
          (if bool_decide (target = ApprovalStatus.Approved) then scope else None) by_ now in
        match record_approval_resolved now_ev req r s1 with
        | (Ok _, s2) => (Ok r, set_published (<[id := r]> (published s2)) s2)
        | (Err e, s2) => (Err e, s2)
        end
    end.
Proof.
  intros Hid Hp row' s1. unfold resolve, publish. run_m.
  erewrite update_where_hit by (done || by rewrite Hp). simpl.
  change (set_resolution (status_str target) now by_ (scope_column target scope) row)
    with row'.
  unfold get_approval, read_approval. simpl. rewrite lookup_insert_eq.
  destruct (row_request id row') as [req|e] eqn:Er; simpl; [|done].
  unfold row_request in Er. destruct (effects_from_json _); [|done]. simpl in Er.
  rewrite parse_status_str in Er. simplify_eq/=.
  by destruct (record_approval_resolved _ _ _ _) as [[] ?].
Qed.

(** *** Its relation *)

Lemma resolved_row_ok now target scope by_ row :
  target ≠ ApprovalStatus.Pending → row_ok (resolved_row now target scope by_ row).
Proof.
  intros Ht. unfold resolved_row. split; simpl.
  - by rewrite parse_status_str.
  - by rewrite status_str_pending.
  - by eauto.
  - unfold scope_column. intros x Hx. destruct target, scope; simplify_eq. by eauto.
Qed.

Lemma evolve_insert id row' s :
  row_evolves (approvals s !! id) (Some row') →
  approvals_evolve s (set_approvals (<[id := row']> (approvals s)) s).
Proof.
  intros Hr id'. simpl. destruct (decide (id' = id)) as [->|Hne].
  - by rewrite lookup_insert_eq.
  - rewrite lookup_insert_ne by done. destruct (approvals s !! id'); [by left|done].
Qed.

(** Writing a good row that waiters were told nothing else about. *)
Lemma keeps_insert id row' s :
  row_ok row' → published s !! id = None →
  approvals_inv s → approvals_inv (set_approvals (<[id := row']> (approvals s)) s).
Proof.
  intros Hr Hn [Ha Hp]. split; simpl; [by apply map_Forall_insert_2|].
  intros id' r Hr'. destruct (Hp id' r Hr') as (row & Hrow & Hres). exists row.
  rewrite lookup_insert_ne; [done|congruence].
Qed.

Lemma pending_unpublished id row s :
  approvals_inv s → approvals s !! id = Some row → a_status row = "Pending" →
  published s !! id = None.
Proof.
  intros [_ Hp] Hid Hs. destruct (published s !! id) as [r|] eqn:E; [|done].
  destruct (Hp id r E) as (row' & Hrow & Hne & _). congruence.
Qed.

Lemma resolve_step now now_ev id target scope by_ :
  target ≠ ApprovalStatus.Pending →
  preserves approval_step (resolve now now_ev id target scope by_).
Proof.
  intros Ht s. destruct (approvals s !! id) as [row|] eqn:Hid;
    [|rewrite resolve_missing by done; reflexivity].
  destruct (decide (a_status row = "Pending")) as [Hp|Hp];
    [|rewrite (resolve_terminal _ _ _ _ _ _ _ row) by done; case_match; reflexivity].
  rewrite (resolve_pending _ _ _ _ _ _ _ row) by done.
  set (row' := resolved_row now target scope by_ row).
  set (s1 := set_approvals _ s).
  assert (approval_step s s1) as Hs1.
  { split; [by apply log_step_other|]. split.
    - apply evolve_insert. rewrite Hid. right. split; [done|].
      unfold row', resolved_row. by eauto 10.
    - intros Hi. apply keeps_insert; [by apply resolved_row_ok| |done].
      by eapply pending_unpublished. }
  destruct (row_request id row') as [req|e]; [|done]. simpl.
  set (r := mkApprovalResolution _ _ _ _ _ _).
  unfold record_approval_resolved. append_cases err ev l n f Hlog; [done|].
  etransitivity; [exact Hs1|]. split;
    [etransitivity; [exact Hlog|by apply log_step_other]|split].
  - intros id'. change (row_evolves (approvals s1 !! id') (approvals s1 !! id')).
    destruct (approvals s1 !! id'); [by left|done].
  - intros [Ha Hpub]. split; [exact Ha|]. simpl. intros id' r'.
    destruct (decide (id' = id)) as [->|Hne].
    + rewrite !lookup_insert_eq. intros [= <-]. exists row'. split; [done|].
      unfold resolution_of, row', resolved_row, r. simpl. split_and!; try done.
      * by rewrite status_str_pending.
      * unfold scope_column. destruct target, scope; simpl; rewrite ?parse_scope_str; done.
    + rewrite lookup_insert_ne by done. apply Hpub.
Qed.
End Resolve.

(** ** Every operation *)

Section Steps.
Context `{CratesLaws} `{Redaction}.

#[export] Instance approval_step_preorder : PreOrder approval_step.
Proof. unfold approval_step. apply _. Qed.

(** Changes that leave the queue alone. *)
Lemma approval_step_log s s' :
  log_step s s' → approvals s' = approvals s → published s' = published s →
  approval_step s s'.
Proof.
  intros Hl Ha Hp. split; [done|]. split.
  - intros id. rewrite Ha. destruct (approvals s !! id); [by left|done].
  - intros [H1' H2']. split; rewrite ?Ha, ?Hp; done.
Qed.

Lemma append_event_internal_approval now sid et p rt :
  preserves approval_step (append_event_internal now sid et p rt).
Proof.
  intros s. append_cases err ev l n f Hlog; [reflexivity|]. by apply approval_step_log.
Qed.

Lemma append_event_approval now sid et p rt :
  preserves approval_step (append_event now sid et p rt).
Proof.
  intros s. destruct (append_event_cases now sid et p rt s) as [[err ->]| ->];
    [reflexivity|]. apply append_event_internal_approval.
Qed.

Lemma insert_approval_step id row :
  row_ok row → preserves approval_step (insert_approval id row).
Proof.
  intros Hr s. unfold insert_approval. run_m.
  destruct (approvals s !! id) eqn:Hid; simpl; [reflexivity|].
  split; [by apply log_step_other|]. split.
  - apply evolve_insert. by rewrite Hid.
  - intros Hi. apply keeps_insert; [done| |done].
    destruct Hi as [_ Hp]. destruct (published s !! id) as [r|] eqn:E; [|done].
    destruct (Hp id r E) as (row' & Hrow & _). congruence.
Qed.

Lemma new_row_ok did inv sid ti su ej ah sv tn ex ca :
  row_ok (mkApprovalRow did inv sid ti su ej "Pending" None ah sv tn ex ca None None).
Proof. by split. Qed.

Lemma get_approval_step id : preserves approval_step (get_approval id).
Proof. intros s. reflexivity. Qed.
End Steps.

#[export] Hint Resolve append_event_internal_approval append_event_approval
  insert_approval_step new_row_ok resolve_step get_approval_step : vigil.

Section Operations.
Context `{CratesLaws} `{Redaction}.

Lemma record_decision_approval now sid d eff :
  preserves approval_step (record_decision now sid d eff).
Proof. apply append_event_internal_approval. Qed.

Lemma create_approval_step now now' id sid d eff ti su ttl ctx :
  preserves approval_step (create_approval now now' id sid d eff ti su ttl ctx).
Proof. unfold create_approval, record_approval_created. preserve. Qed.

Lemma store_skeleton_step now id did sid ti su ej ex :
  preserves approval_step (store_pending_approval_skeleton now id did sid ti su ej ex).
Proof. unfold store_pending_approval_skeleton. preserve. Qed.

Lemma approve_step now now' id sc by_ : preserves approval_step (approve now now' id sc by_).
Proof. by apply resolve_step. Qed.

Lemma cancel_step now now' id by_ : preserves approval_step (cancel now now' id by_).
Proof. by apply resolve_step. Qed.

Lemma deny_step now now' now'' id reason by_ :
  preserves approval_step (deny now now' now'' id reason by_).
Proof.
  unfold deny. apply preserves_bind; [apply _|by apply resolve_step|]. preserve.
Qed.

Lemma sweep_ids_step clock ids : preserves approval_step (sweep_ids clock ids).
Proof.
  revert clock; induction ids as [|id ids IH]; intros clock; simpl; [preserve|].
  apply preserves_bind; [apply _|by apply resolve_step|]. preserve.
Qed.

Lemma sweep_expired_step now clock : preserves approval_step (sweep_expired now clock).
Proof. unfold sweep_expired. preserve. apply sweep_ids_step. Qed.
End Operations.

#[export] Hint Resolve record_decision_approval create_approval_step store_skeleton_step
  approve_step cancel_step deny_step sweep_expired_step : vigil.
