(* ===== verification/ApprovalProps.v ===== *)
(** * The properties of the approval queue *)

From S2P Require Import Prelude Types Deps Concrete Db Hash Ledger LedgerFacts Approvals ApprovalFacts.

Section Lemmas.
Context `{CratesLaws} `{Redaction}.

(** A resolution that succeeds on a pending row. *)
Lemma resolve_pending_ok now now' id target scope by_ s row r s' :
  target ≠ ApprovalStatus.Pending →
  approvals s !! id = Some row → a_status row = "Pending" →
  resolve now now' id target scope by_ s = (Ok r, s') →
  approvals s' = <[id := resolved_row now target scope by_ row]> (approvals s) ∧
  published s' = <[id := r]> (published s) ∧
  r = mkApprovalResolution id (a_invocation_id row) target
        (if bool_decide (target = ApprovalStatus.Approved) then scope else None) by_ now ∧
  ∃ e, events s' = events s ++ [e] ∧ e_event_type e = "approval.resolved" ∧
       e_session_id e = a_session_id row.
Proof.
  intros Ht Hid Hp E. rewrite (resolve_pending _ _ _ _ _ _ _ row) in E by done.
  set (row' := resolved_row now target scope by_ row) in *.
  destruct (row_request id row') as [req|e] eqn:Er; [|done]. revert E. cbv zeta.
  unfold record_approval_resolved.
  match goal with
  | |- context [append_event_internal ?now ?sid ?et ?p ?rt ?s] =>
      destruct (append_event_internal_inv now sid et p rt s)
        as [[err E]|(text & h & _ & _ & _ & _ & _ & _ & E)]; rewrite E; [done|]
  end.
  intros [= <- <-]. simpl. split_and!; try done. eexists. split; [done|]. simpl.
  split; [done|]. unfold row_request in Er.
  destruct (effects_from_json _); [|done]. simpl in Er.
  rewrite parse_status_str in Er. by simplify_eq/=.
Qed.

Lemma sweep_ids_ok clock ids s out s' :
  NoDup ids →
  (∀ id, id ∈ ids → ∃ row, approvals s !! id = Some row ∧ a_status row = "Pending") →
  sweep_ids clock ids s = (Ok out, s') →
  length out = length ids ∧
  (∀ id, id ∉ ids → approvals s' !! id = approvals s !! id) ∧
  (∀ id, id ∈ ids → ∃ row now, approvals s !! id = Some row ∧
     approvals s' !! id = Some (resolved_row now ApprovalStatus.Expired None
                                  (Some "auto-expired") row)).
Proof.
  revert clock s out; induction ids as [|id ids IH]; intros clock s out Hnd Hrows E.
  { injection E as <- <-. split_and!; [done|done|]. intros id Hid.
    by apply elem_of_nil in Hid. }
  simpl in E. unfold bind at 1 in E.
  destruct (resolve _ _ id _ _ _ s) as [[r|e] s1] eqn:E1; [|done].
  destruct (Hrows id) as (row & Hid & Hp); [by left|].
  apply NoDup_cons in Hnd as [Hni Hnd].
  assert (ApprovalStatus.Expired ≠ ApprovalStatus.Pending) as Hne by done.
  destruct (resolve_pending_ok _ _ _ _ _ _ _ _ _ _ Hne Hid Hp E1) as (Ha & _).
  unfold bind in E. destruct (sweep_ids _ ids s1) as [[out1|e] s2] eqn:E2; [|done].
  unfold ret in E. simplify_eq.
  apply IH in E2 as (Hlen & Hout & Hin); [|done|].
  2:{ intros id' Hid'. rewrite Ha, lookup_insert_ne by set_solver. apply Hrows. by right. }
  split_and!; [simpl; by rewrite Hlen| |].
  - intros id' Hn. rewrite Hout by set_solver. rewrite Ha, lookup_insert_ne; set_solver.
  - intros id' [->|Hid']%elem_of_cons.
    + exists row, (clock 0%nat). split; [done|]. by rewrite Hout, Ha, lookup_insert_eq.
    + destruct (Hin id' Hid') as (row' & now & Hr & Hr'). exists row', now.
      split; [|done]. rewrite Ha, lookup_insert_ne in Hr by set_solver. done.
Qed.

(** The ids a sweep selects. *)
Definition selected now s : list string :=
  (List.filter (λ kv, expired_pending now kv.2) (map_to_list (approvals s))).*1.

Lemma elem_of_selected now s id :
  id ∈ selected now s ↔
  ∃ row, approvals s !! id = Some row ∧ expired_pending now row = true.
Proof.
  unfold selected. rewrite list_elem_of_fmap. split.
  - intros ([id' row] & -> & Hin). apply list_elem_of_In, filter_In in Hin as [Hin Hp].
    exists row. split; [|done]. by apply list_elem_of_In, elem_of_map_to_list in Hin.
  - intros (row & Hid & Hp). exists (id, row). split; [done|].
    apply list_elem_of_In, filter_In. split; [|done].
    by apply list_elem_of_In, elem_of_map_to_list.
Qed.

Lemma NoDup_filter_fst {A B} (p : A * B → bool) (l : list (A * B)) :
  NoDup l.*1 → NoDup (List.filter p l).*1.
Proof.
  induction l as [|x l IH]; simpl; [done|]. intros [Hn Hl]%NoDup_cons.
  destruct (p x); [|by apply IH]. simpl. apply NoDup_cons. split; [|by apply IH].
  intros Hin. apply Hn. apply list_elem_of_fmap in Hin as (y & Hy & Hin).
  apply list_elem_of_In, filter_In in Hin as [Hin _]. apply list_elem_of_fmap.
  exists y. split; [done|]. by apply list_elem_of_In.
Qed.

Lemma later_resolved_total a b : later_resolved a b = true ∨ later_resolved b a = true.
Proof.
  unfold later_resolved. destruct (a_resolved_at a.2) as [x|], (a_resolved_at b.2) as [y|];
    auto. destruct (Z.leb_spec y x); [by left|right]. apply Z.leb_le. lia.
Qed.

Lemma later_resolved_trans a b c :
  later_resolved a b = true → later_resolved b c = true → later_resolved a c = true.
Proof.
  unfold later_resolved. destruct (a_resolved_at a.2), (a_resolved_at b.2),
    (a_resolved_at c.2); rewrite ?Z.leb_le; done || lia.
Qed.

(** *** Waiting *)

Definition told id s (o : option ApprovalResolution) : Prop :=
  match o with
  | Some r => ∃ row, approvals s !! id = Some row ∧ resolution_of id row r
  | None => ∀ row, approvals s !! id = Some row → a_status row = "Pending"
  end.

Lemma current_resolution_told now id s :
  approvals_inv s → ∃ o, current_resolution now id s = (Ok o, s) ∧ told id s o.
Proof.
  intros [Hrows _]. unfold current_resolution.
  destruct (approvals s !! id) as [row|] eqn:Hid.
  2:{ exists None. split; [done|]. simpl. by rewrite Hid. }
  destruct (Hrows id row Hid) as [Hs Hp Hr _].
  destruct (parse_status (a_status row)) as [st|] eqn:Est; [|done]. simpl.
  apply parse_status_inv in Est.
  case_bool_decide as Hst; (eexists; split; [reflexivity|]); simpl.
  - rewrite Hid. intros ? [= <-]. by rewrite Est, Hst.
  - exists row. split; [done|]. assert (a_status row ≠ "Pending") as Hne.
    { rewrite Est. by rewrite status_str_pending. }
    destruct (Hr Hne) as [t Ht]. unfold resolution_of. simpl. rewrite Ht.
    by split_and!.
Qed.

Lemma published_told id s r : approvals_inv s → published s !! id = Some r → told id s (Some r).
Proof. intros [_ Hp] Hr. apply (Hp id r Hr). Qed.

Lemma wait_slices_told now id slices s :
  Forall (λ f, ∀ s, approval_step s (f s)) slices → approvals_inv s →
  ∃ o s', wait_slices now id slices s = (Ok o, s') ∧ approvals_inv s' ∧ told id s' o.
Proof.
  intros Hsl. revert s; induction Hsl as [|f slices Hf _ IH]; intros s Hi; simpl; run_m.
  - destruct (published s !! id) as [r|] eqn:Hr.
    { exists (Some r), s. split_and!; [done|done|by apply published_told]. }
    destruct (current_resolution_told now id s Hi) as (o & -> & Ho). by exists o, s.
  - destruct (published s !! id) as [r|] eqn:Hr.
    { exists (Some r), s. split_and!; [done|done|by apply published_told]. }
    destruct (Hf s) as (_ & _ & Hk). specialize (Hk Hi).
    destruct (published (f s) !! id) as [r|] eqn:Hr'.
    { exists (Some r), (f s). split_and!; [done|done|by apply published_told]. }
    destruct (current_resolution_told now id (f s) Hk) as (o & E & Ho).
    injection E as E. rewrite E. destruct o as [r|].
    + by exists (Some r), (f s).
    + by apply IH.
Qed.

Lemma wait_told now id slices s :
  Forall (λ f, ∀ s, approval_step s (f s)) slices → approvals_inv s →
  ∃ o s', wait_for_resolution now id slices s = (Ok o, s') ∧ approvals_inv s' ∧ told id s' o.
Proof.
  intros Hsl Hi. unfold wait_for_resolution, bind.
  destruct (current_resolution_told now id s Hi) as ([r|] & -> & Ho).
  - by exists (Some r), s.
  - by apply wait_slices_told.
Qed.

(** The state after some slices. *)
Definition run_slices (slices : list (LedgerState → LedgerState)) (s : LedgerState) : LedgerState :=
  foldl (λ s f, f s) s slices.

Lemma wait_slices_heard now id pre others post s :
  Forall (λ f, ∀ s, approval_step s (f s)) (pre ++ others :: post) → approvals_inv s →
  (∃ row, approvals (run_slices (pre ++ [others]) s) !! id = Some row ∧ a_status row ≠ "Pending") →
  ∃ r k, let s' := run_slices (take k (pre ++ [others])) s in
    wait_slices now id (pre ++ others :: post) s = (Ok (Some r), s') ∧ told id s' (Some r).
Proof.
  revert s; induction pre as [|f pre IH]; intros s Hsl Hi Hrow; cbn [app wait_slices]; run_m.
  - destruct (published s !! id) as [r|] eqn:Hr; [by exists r, 0%nat; split; [|apply published_told]|].
    apply Forall_cons in Hsl as [Hf _]. destruct (Hf s) as (_ & _ & Hk). specialize (Hk Hi).
    destruct (published (others s) !! id) as [r|] eqn:Hr'; [by exists r, 1%nat; split; [|apply published_told]|].
    destruct (current_resolution_told now id (others s) Hk) as (o & E & Ho). injection E as E. rewrite E.
    destruct o as [r|]; [by exists r, 1%nat|]. destruct Hrow as (row & Hid & Hne). by destruct Hne; apply (Ho row).
  - destruct (published s !! id) as [r|] eqn:Hr; [by exists r, 0%nat; split; [|apply published_told]|].
    apply Forall_cons in Hsl as [Hf Hsl]. destruct (Hf s) as (_ & _ & Hk). specialize (Hk Hi).
    destruct (published (f s) !! id) as [r|] eqn:Hr'; [by exists r, 1%nat; split; [|apply published_told]|].
    destruct (current_resolution_told now id (f s) Hk) as (o & E & Ho). injection E as E. rewrite E.
    destruct o as [r|]; [by exists r, 1%nat|].
    destruct (IH (f s) Hsl Hk Hrow) as (r & k & Hw & Ht). by exists r, (S k).
Qed.

Lemma wait_step now id slices :
  Forall (λ f, ∀ s, approval_step s (f s)) slices →
  preserves approval_step (wait_for_resolution now id slices).
Proof.
  assert (preserves approval_step (current_resolution now id)) as Hc by (intros s; reflexivity).
  intros Hsl. unfold wait_for_resolution. apply preserves_bind; [apply _|done|].
  intros [r|]; [apply preserves_ret; apply _|].
  induction Hsl as [|f slices Hf _ IH]; simpl; preserve; auto.
Qed.

(** An approve of a pending row that returns has made the row an approved one. *)
Lemma approve_ok now now' id sc by_ s row r s' :
  approvals s !! id = Some row → a_status row = "Pending" →
  approve now now' id sc by_ s = (Ok r, s') →
  approvals s' !! id = Some (resolved_row now ApprovalStatus.Approved (Some sc) by_ row).
Proof.
  intros Hid Hp. unfold approve. rewrite (resolve_pending _ _ _ _ _ _ _ row) by done.
  destruct (row_request id _) as [req|e]; [|done]. cbv zeta. unfold record_approval_resolved.
  append_cases err ev l n f Hlog; [done|]. intros [= _ <-]. simpl. apply lookup_insert_eq.
Qed.
End Lemmas.

(** ** Properties *)

Section Props.
Context `{CratesLaws} `{Redaction}.

(** The first resolution wins. On an approval that is no longer pending,
    approving, cancelling, denying or expiring it changes nothing at all - no
    row, no event, no waiter - and reports the stored status, resolver and time;
    a late approver's scope is not granted. *)
Theorem resolve_first_writer_wins now now' id target scope by_ s row req :
  approvals s !! id = Some row → a_status row ≠ "Pending" → row_request id row = Ok req →
  resolve now now' id target scope by_ s =
    (Ok (mkApprovalResolution id (a_invocation_id row) (ar_status req) None
           (a_resolved_by row) (default 0%Z (a_resolved_at row))), s).
Proof. intros Hid Hp Hr. rewrite (resolve_terminal _ _ _ _ _ _ _ row) by done. by rewrite Hr. Qed.

(** A successful resolution of a pending approval writes its row once (the
    target, the time, the resolver, and a scope only when approved), leaves every
    other row alone, adds one [approval.resolved] event of the row's session and
    publishes to waiters exactly what it returns. *)
Theorem resolve_pending_exact now now' id target scope by_ s row r s' :
  target ≠ ApprovalStatus.Pending →
  approvals s !! id = Some row → a_status row = "Pending" →
  resolve now now' id target scope by_ s = (Ok r, s') →
  approvals s' = <[id := resolved_row now target scope by_ row]> (approvals s) ∧
  published s' = <[id := r]> (published s) ∧
  r = mkApprovalResolution id (a_invocation_id row) target
        (if bool_decide (target = ApprovalStatus.Approved) then scope else None) by_ now ∧
  ∃ e, events s' = events s ++ [e] ∧ e_event_type e = "approval.resolved" ∧
       e_session_id e = a_session_id row.
Proof. apply resolve_pending_ok. Qed.

(** A resolution commits before its audit event: if the ledger refuses the
    event (for one, because the resolver's name holds a hard secret), the call
    fails, no event is written and no waiter is told, yet the approval is
    resolved for good. *)
Theorem resolve_survives_audit_refusal now now' id target scope by_ s row req err s' :
  approvals s !! id = Some row → a_status row = "Pending" →
  row_request id (resolved_row now target scope by_ row) = Ok req →
  resolve now now' id target scope by_ s = (Err err, s') →
  approvals s' !! id = Some (resolved_row now target scope by_ row) ∧
  events s' = events s ∧ published s' = published s.
Proof.
  intros Hid Hp Hr. rewrite (resolve_pending _ _ _ _ _ _ _ row) by done. rewrite Hr.
  cbv zeta. unfold record_approval_resolved.
  match goal with
  | |- context [append_event_internal ?now ?sid ?et ?p ?rt ?s] =>
      destruct (append_event_internal_shape now sid et p rt s)
        as [[e E]|(ev & l & n & f & E & _)]; rewrite E; [|done]
  end.
  intros [= _ <-]. simpl. by rewrite lookup_insert_eq.
Qed.

(** The session fast path is sound and complete: [find_session_scope_allow]
    answers with an approval exactly when some row of this session, server, tool
    and argument hash is approved for the session and not expired, and then with
    the one resolved last. It changes nothing. *)
Theorem session_scope_allow_spec now sid srv tool ah s :
  let matches := session_scope_match now sid srv tool ah in
  match find_session_scope_allow now sid srv tool ah s with
  | (Ok (Some r), s') =>
      s' = s ∧ ∃ row, approvals s !! res_approval_id r = Some row ∧ matches row = true ∧
        a_status row = "Approved" ∧ a_scope row = Some "ThisSession" ∧
        (now < a_expires_at row)%Z ∧ a_session_id row = sid ∧
        r = mkApprovalResolution (res_approval_id r) (a_invocation_id row)
              ApprovalStatus.Approved (Some ApprovalScope.ThisSession) (a_resolved_by row)
              (default now (a_resolved_at row)) ∧
        ∀ id' row', approvals s !! id' = Some row' → matches row' = true →
          later_resolved (res_approval_id r, row) (id', row') = true
  | (Ok None, s') => s' = s ∧ ∀ id row, approvals s !! id = Some row → matches row = false
  | (Err _, _) => False
  end.
Proof.
  intros matches. unfold find_session_scope_allow, gets. fold matches.
  set (l := List.filter _ _).
  assert (∀ id row, (id, row) ∈ l ↔ approvals s !! id = Some row ∧ matches row = true) as Hl.
  { intros id row. unfold l. rewrite list_elem_of_In, filter_In, <- list_elem_of_In.
    by rewrite elem_of_map_to_list. }
  pose proof (Sort.sort_head later_resolved later_resolved_total later_resolved_trans l) as Hh.
  destruct (head (Sort.sort later_resolved l)) as [[id row]|]; simpl.
  - destruct Hh as [Hin Hmax]. apply Hl in Hin as [Hid Hm]. split; [done|].
    exists row. pose proof Hm as Hm'. unfold matches, session_scope_match in Hm'.
    bool_to_prop.
    match goal with Hlt : (_ <? _)%Z = true |- _ => apply Z.ltb_lt in Hlt end.
    split_and!; try done. intros id' row' Hid' Hm''. apply Hmax. by apply Hl.
  - split; [done|]. intros id row Hid. destruct (matches row) eqn:Em; [|done].
    assert ((id, row) ∈ l) as Hin by by apply Hl. rewrite Hh in Hin.
    by apply elem_of_nil in Hin.
Qed.

(** A sweep that succeeds expires exactly what was due: each pending row
    whose time has come becomes [Expired], no other row changes, one resolution
    is returned per row expired, and sweeping again at the same time finds
    nothing to do. *)
Theorem sweep_expires_exactly now clock clock' s out s' :
  sweep_expired now clock s = (Ok out, s') →
  (∀ id row, approvals s !! id = Some row → expired_pending now row = true →
     ∃ t, approvals s' !! id = Some (resolved_row t ApprovalStatus.Expired None
                                       (Some "auto-expired") row)) ∧
  (∀ id, (∀ row, approvals s !! id = Some row → expired_pending now row = false) →
     approvals s' !! id = approvals s !! id) ∧
  length out = length (selected now s) ∧
  sweep_expired now clock' s' = (Ok [], s').
Proof.
  unfold sweep_expired, bind, gets. fold (selected now s). intros E.
  apply sweep_ids_ok in E as (Hlen & Hout & Hin).
  2:{ apply NoDup_filter_fst, NoDup_fst_map_to_list. }
  2:{ intros id (row & Hid & Hp)%elem_of_selected. exists row. split; [done|].
      unfold expired_pending in Hp. by bool_to_prop. }
  assert (∀ id, (∀ row, approvals s !! id = Some row → expired_pending now row = false) →
    approvals s' !! id = approvals s !! id) as Hkeep.
  { intros id Hid. apply Hout. intros (row & Hrow & Hp)%elem_of_selected.
    by rewrite Hid in Hp. }
  split_and!; [|done|done|].
  - intros id row Hid Hp. destruct (Hin id) as (row' & t & Hr & Hr').
    { apply elem_of_selected. eauto. }
    exists t. congruence.
  - fold (selected now s'). assert (selected now s' = []) as ->; [|done].
    destruct (selected now s') as [|id ids] eqn:E; [done|].
    assert (id ∈ selected now s') as (row & Hid & Hp)%elem_of_selected by (rewrite E; by left).
    destruct (decide (id ∈ selected now s)) as [Hs|Hs].
    + destruct (Hin id Hs) as (row' & t & _ & Hr'). rewrite Hid in Hr'. by simplify_eq.
    + rewrite Hout in Hid by done. destruct Hs. apply elem_of_selected. eauto.
Qed.

(** Waiting tells the truth. Whatever the rest of the system does between two
    looks (through the queue's own operations), [wait_for_resolution] returns: a
    resolution it reports is the one the table holds, with its scope, resolver
    and time; a timeout means the approval is still pending, or unknown. *)
Theorem wait_for_resolution_truthful now id slices s :
  Forall (λ f, ∀ s, approval_step s (f s)) slices → approvals_inv s →
  ∃ o s', wait_for_resolution now id slices s = (Ok o, s') ∧ approvals_inv s' ∧
    match o with
    | Some r => ∃ row, approvals s' !! id = Some row ∧ resolution_of id row r
    | None => ∀ row, approvals s' !! id = Some row → a_status row = "Pending"
    end.
Proof. apply wait_told. Qed.

(** C39. A resolution is heard. If the approval is resolved at the end of some slice
    before the deadline, by whatever the rest of the system did until then, then the
    one who waits is answered, at the end of that slice at the latest and not at the
    deadline, with the resolution the table holds at that moment. *)
Theorem a_resolution_is_heard now id pre others post s row :
  Forall (λ f, ∀ s, approval_step s (f s)) (pre ++ others :: post) → approvals_inv s →
  approvals (run_slices (pre ++ [others]) s) !! id = Some row → a_status row ≠ "Pending" →
  ∃ r k, let s' := run_slices (take k (pre ++ [others])) s in
    wait_for_resolution now id (pre ++ others :: post) s = (Ok (Some r), s') ∧
    ∃ row', approvals s' !! id = Some row' ∧ resolution_of id row' r.
Proof.
  intros Hsl Hi Hid Hne. unfold wait_for_resolution, bind.
  destruct (current_resolution_told now id s Hi) as ([r|] & -> & Ho); [by exists r, 0%nat|].
  apply wait_slices_heard; [done..|]. by exists row.
Qed.

(** An approval that is created can be read back: if the ledger accepts it and
    masking finds nothing in the effects, the table holds a pending approval with
    the request's identifiers and effects, masked texts, and an expiry that is
    the creation time plus the ttl, cut off at the i64 range. *)
Theorem created_approval_reads_back now now' id sid d eff ti su ttl ctx req s s' :
  scrub_text (effects_to_json eff) = effects_to_json eff →
  create_approval now now' id sid d eff ti su ttl ctx s = (Ok req, s') →
  get_approval id s' =
    (Ok (Some (mkApprovalRequest id (dr_decision_id d) (dr_invocation_id d) sid
                 (scrub_text ti) (scrub_text su) eff (ar_expires_at req)
                 ApprovalStatus.Pending)), s') ∧
  ar_expires_at req = Int.i64_saturating_add now (Z.min ttl Int.i64_max) ∧
  Bytes.is_i64 (ar_expires_at req) ∧ approvals s !! id = None.
Proof.
  intros Hscrub. unfold create_approval, insert_approval, record_approval_created. run_m.
  destruct (approvals s !! id) eqn:Hid; [done|]. append_cases err ev l n f Hlog; [done|].
  intros [= <- <-]. simpl. split_and!; [|done|apply Int.i64_saturating_add_range|done].
  unfold get_approval, read_approval, row_request. simpl. rewrite lookup_insert_eq. simpl.
  by rewrite Hscrub, effects_roundtrip.
Qed.
End Props.

(** ** Witnesses *)

Import Toy.

Definition sample_effects : EffectVector :=
  mkEffectVector [EffectKind.FsWrite] [] ["/p/f"] [] [] [] false true.

Definition sample_dr : DecisionRecord :=
  mkDecisionRecord "d1" "inv1" DecisionKind.Approve 50 ["writes"] ["p"] 3.

Definition sample_target : ApprovalTargetContext :=
  mkApprovalTargetContext (Some "srv") (Some "tool") (Some "h").

(** An approval created at time 10 that expires at 70, and the same approved. *)
Definition queue : LedgerState :=
  (create_approval 10 10 "a1" "s1" sample_dr sample_effects "T" "S" 60 sample_target
     empty_ledger).2.

Definition approved_queue : LedgerState :=
  (approve 20 20 "a1" ApprovalScope.ThisSession (Some "user") queue).2.

Definition pending_row : ApprovalRow :=
  mkApprovalRow "d1" "inv1" "s1" "T" "S" (effects_to_json sample_effects) "Pending" None
    (Some "h") (Some "srv") (Some "tool") 70 10 None None.

Definition approved_row : ApprovalRow :=
  resolved_row 20 ApprovalStatus.Approved (Some ApprovalScope.ThisSession) (Some "user")
    pending_row.

Lemma queue_row : approvals queue !! "a1" = Some pending_row.
Proof. vm_compute; reflexivity. Qed.

Lemma approved_queue_row : approvals approved_queue !! "a1" = Some approved_row.
Proof. vm_compute; reflexivity. Qed.

Definition request_of (row : ApprovalRow) (st : ApprovalStatus) : ApprovalRequest :=
  mkApprovalRequest "a1" (a_decision_id row) (a_invocation_id row) (a_session_id row)
    (a_title row) (a_summary row) sample_effects (a_expires_at row) st.

Lemma queue_inv : approvals_inv queue ∧ log_inv queue.
Proof.
  destruct (create_approval_step 10 10 "a1" "s1" sample_dr sample_effects "T" "S" 60
    sample_target empty_ledger) as ([Hl _] & _ & Hk).
  split; [apply Hk|apply Hl, log_inv_empty].
  split; simpl; [apply map_Forall_empty|]. intros id r Hr. by rewrite lookup_empty in Hr.
Qed.

Lemma resolve_first_writer_wins_witness :
  resolve 30 30 "a1" ApprovalStatus.Denied None (Some "late") approved_queue =
    (Ok (mkApprovalResolution "a1" "inv1" ApprovalStatus.Approved None (Some "user") 20),
     approved_queue).
Proof.
  apply (resolve_first_writer_wins 30 30 "a1" ApprovalStatus.Denied None (Some "late")
    approved_queue approved_row (request_of approved_row ApprovalStatus.Approved)).
  - exact approved_queue_row.
  - discriminate.
  - vm_compute; reflexivity.
Defined.

Lemma resolve_pending_exact_witness :
  ∃ r, (approve 20 20 "a1" ApprovalScope.ThisSession (Some "user") queue).1 = Ok r ∧
       published approved_queue = <["a1" := r]> (published queue).
Proof.
  destruct (approve 20 20 "a1" ApprovalScope.ThisSession (Some "user") queue)
    as [[r|e] s'] eqn:E; [|vm_compute in E; discriminate].
  assert (ApprovalStatus.Approved ≠ ApprovalStatus.Pending) as Hne by discriminate.
  destruct (resolve_pending_exact 20 20 "a1" ApprovalStatus.Approved
    (Some ApprovalScope.ThisSession) (Some "user") queue pending_row r s' Hne queue_row
    eq_refl E) as (_ & Hp & _).
  exists r. split; [reflexivity|]. unfold approved_queue. rewrite E. exact Hp.
Defined.

(** The resolver's name looks like a token. *)
Lemma resolve_survives_audit_refusal_witness :
  ∃ s', resolve 20 20 "a1" ApprovalStatus.Denied None (Some "ghp_x") queue =
          (Err (AuditError.HardSecretDetected "github_token"), s') ∧
        a_status <$> approvals s' !! "a1" = Some "Denied" ∧ events s' = events queue.
Proof.
  destruct (resolve 20 20 "a1" ApprovalStatus.Denied None (Some "ghp_x") queue)
    as [r s'] eqn:E. exists s'.
  assert (r = Err (AuditError.HardSecretDetected "github_token")) as ->.
  { change r with (r, s').1. rewrite <- E. vm_compute; reflexivity. }
  destruct (resolve_survives_audit_refusal 20 20 "a1" ApprovalStatus.Denied None
    (Some "ghp_x") queue pending_row (request_of pending_row ApprovalStatus.Denied)
    (AuditError.HardSecretDetected "github_token") s') as (Ha & He & _).
  - exact queue_row.
  - reflexivity.
  - vm_compute; reflexivity.
  - exact E.
  - rewrite Ha. split_and!; [reflexivity|reflexivity|exact He].
Defined.

Lemma sweep_expires_exactly_witness :
  ∃ s', sweep_expired 70 (λ _, 71%Z) queue = (Ok [mkApprovalResolution "a1" "inv1"
          ApprovalStatus.Expired None (Some "auto-expired") 71], s') ∧
        sweep_expired 70 (λ _, 72%Z) s' = (Ok [], s').
Proof.
  destruct (sweep_expired 70 (λ _, 71%Z) queue) as [r s'] eqn:E. exists s'.
  assert (r = Ok [mkApprovalResolution "a1" "inv1" ApprovalStatus.Expired None
    (Some "auto-expired") 71]) as ->.
  { change r with (r, s').1. rewrite <- E. vm_compute; reflexivity. }
  destruct (sweep_expires_exactly 70 (λ _, 71%Z) (λ _, 72%Z) queue _ s' E)
    as (_ & _ & _ & Hs).
  split; [reflexivity|exact Hs].
Defined.

(** The user approves during the second slice. *)
Lemma wait_for_resolution_truthful_witness :
  let idle := λ s : LedgerState, s in
  let user := λ s, (approve 20 20 "a1" ApprovalScope.Once (Some "user") s).2 in
  ∃ o s', wait_for_resolution 15 "a1" [idle; user; idle] queue = (Ok o, s') ∧ o ≠ None.
Proof.
  intros idle user.
  destruct (wait_for_resolution_truthful 15 "a1" [idle; user; idle] queue)
    as (o & s' & E & _).
  - rewrite !Forall_cons. split_and!; [intros s; reflexivity| |intros s; reflexivity|constructor].
    intros s. apply approve_step.
  - apply queue_inv.
  - exists o, s'. split; [exact E|]. intros ->.
    assert ((wait_for_resolution 15 "a1" [idle; user; idle] queue).1 = Ok None) as Hn
      by (rewrite E; reflexivity).
    vm_compute in Hn. discriminate.
Defined.

Lemma a_resolution_is_heard_witness :
  let idle := λ s : LedgerState, s in
  let user := λ s, (approve 20 20 "a1" ApprovalScope.Once (Some "user") s).2 in
  ∃ r s', wait_for_resolution 15 "a1" [idle; user; idle; idle] queue = (Ok (Some r), s').
Proof.
  intros idle user.
  destruct (approvals (run_slices ([idle] ++ [user]) queue) !! "a1") as [row|] eqn:Hid.
  2:{ vm_compute in Hid. discriminate Hid. }
  destruct (a_resolution_is_heard 15 "a1" [idle] user [idle; idle] queue row) as (r & k & E & _).
  - cbn [app]. rewrite !Forall_cons. split_and!; [intros s; reflexivity| |intros s; reflexivity..|constructor].
    intros s. apply approve_step.
  - apply queue_inv.
  - exact Hid.
  - intros Hp. vm_compute in Hid. injection Hid as <-. vm_compute in Hp. discriminate Hp.
  - exists r. eexists. exact E.
Defined.

Lemma created_approval_reads_back_witness :
  ∃ req, (create_approval 10 10 "a1" "s1" sample_dr sample_effects "T" "S" 60 sample_target
            empty_ledger).1 = Ok req ∧ ar_expires_at req = 70%Z.
Proof.
  destruct (create_approval 10 10 "a1" "s1" sample_dr sample_effects "T" "S" 60 sample_target
    empty_ledger) as [[req|e] s'] eqn:E; [|vm_compute in E; discriminate].
  exists req. split; [reflexivity|].
  destruct (created_approval_reads_back 10 10 "a1" "s1" sample_dr sample_effects "T" "S" 60
    sample_target req empty_ledger s') as (_ & Hx & _).
  - vm_compute; reflexivity.
  - exact E.
  - rewrite Hx. vm_compute; reflexivity.
Defined.
