(* ===== verification/Outbox.v ===== *)
(** * The outbox

    [src/crates/vigil-audit/src/outbox.rs]: outgoing calls frozen as drafts,
    submitted for approval, and executed only once approved. Then the machine's
    transition graph, its invariant, and the theorems. *)

From S2P Require Import Prelude Types Deps Concrete Db Hash Ledger LedgerFacts.

Module OutboxKind.
Inductive OutboxKind := HttpPost | Email | BrowserSubmit.
End OutboxKind.
Abbreviation OutboxKind := OutboxKind.OutboxKind.

Module OutboxStatus.
Inductive OutboxStatus :=
| Drafted | PendingApproval | Approved | Denied | Expired | Executed | Failed | Cancelled.

#[global] Instance OutboxStatus_eq_dec : EqDecision OutboxStatus.
Proof. solve_decision. Defined.
End OutboxStatus.
Abbreviation OutboxStatus := OutboxStatus.OutboxStatus.

Record OutboxItem := mkOutboxItem {
  oi_outbox_id : string;
  oi_invocation_id : string;
  oi_session_id : string;
  oi_kind : OutboxKind;
  oi_preview_json : Value;
  oi_approval_id : option string;
  oi_status : OutboxStatus;
  oi_created_at : Z;
  oi_approved_at : option Z;
  oi_executed_at : option Z;
}.

Definition kind_to_str (k : OutboxKind) : string :=
  match k with
  | OutboxKind.HttpPost => "http_post"
  | OutboxKind.Email => "email"
  | OutboxKind.BrowserSubmit => "browser_submit"
  end.

Definition parse_kind (s : string) : result AuditError OutboxKind :=
  if String.eqb s "http_post" then Ok OutboxKind.HttpPost
  else if String.eqb s "email" then Ok OutboxKind.Email
  else if String.eqb s "browser_submit" then Ok OutboxKind.BrowserSubmit
  else Err (AuditError.InvalidInput "unknown outbox kind").

Definition parse_status (s : string) : result AuditError OutboxStatus :=
  if String.eqb s "Drafted" then Ok OutboxStatus.Drafted
  else if String.eqb s "PendingApproval" then Ok OutboxStatus.PendingApproval
  else if String.eqb s "Approved" then Ok OutboxStatus.Approved
  else if String.eqb s "Denied" then Ok OutboxStatus.Denied
  else if String.eqb s "Expired" then Ok OutboxStatus.Expired
  else if String.eqb s "Executed" then Ok OutboxStatus.Executed
  else if String.eqb s "Failed" then Ok OutboxStatus.Failed
  else if String.eqb s "Cancelled" then Ok OutboxStatus.Cancelled
  else Err (AuditError.InvalidInput "unknown outbox status").

(** The columns an [UPDATE] sets. *)
Definition set_status (to : string) (row : OutboxRow) : OutboxRow :=
  mkOutboxRow (o_invocation_id row) (o_session_id row) (o_kind row) (o_preview_json row)
    (o_approval_id row) to (o_created_at row) (o_approved_at row) (o_executed_at row).
Definition set_approval (approval_id : string) (row : OutboxRow) : OutboxRow :=
  mkOutboxRow (o_invocation_id row) (o_session_id row) (o_kind row) (o_preview_json row)
    (Some approval_id) (o_status row) (o_created_at row) (o_approved_at row)
    (o_executed_at row).
Definition set_approved_at (now : Z) (row : OutboxRow) : OutboxRow :=
  mkOutboxRow (o_invocation_id row) (o_session_id row) (o_kind row) (o_preview_json row)
    (o_approval_id row) (o_status row) (o_created_at row) (Some now) (o_executed_at row).
Definition set_executed_at (now : Z) (row : OutboxRow) : OutboxRow :=
  mkOutboxRow (o_invocation_id row) (o_session_id row) (o_kind row) (o_preview_json row)
    (o_approval_id row) (o_status row) (o_created_at row) (o_approved_at row) (Some now).

(** Run an [UPDATE] on one item; no row changed is an error. *)
Definition update_outbox (outbox_id : string) (p : OutboxRow → bool)
    (f : OutboxRow → OutboxRow) (reason : string) : LedgerM unit :=
  let! update := gets (λ s, update_where outbox_id p f (outbox_items s)) in
  modify (set_outbox_items update.2) ;!
  if (update.1 =? 0)%Z then invalid reason else ret tt.

Definition status_is (st : string) (row : OutboxRow) : bool := String.eqb (o_status row) st.

Section Outbox.
Context `{Crates} `{Redaction}.

Definition draft_outbox (now : Z) (outbox_id invocation_id session_id : string)
    (kind : OutboxKind) (preview : Value) : LedgerM OutboxItem :=
  let! preview_str := lift (ok_or (jcs_to_vec preview) AuditError.Json) in
  lift (refuse_hard_secret preview_str) ;!
  let! existing := gets (λ s, outbox_items s !! outbox_id) in
  match existing with
  | Some _ => throw (AuditError.Sqlite "UNIQUE constraint failed")
  | None =>
      modify (λ s, set_outbox_items
        (<[outbox_id := mkOutboxRow invocation_id session_id (kind_to_str kind) preview_str
                          None "Drafted" now None None]> (outbox_items s)) s) ;!
      ret (mkOutboxItem outbox_id invocation_id session_id kind preview None
             OutboxStatus.Drafted now None None)
  end.

Definition submit_outbox_for_approval (outbox_id approval_id : string) : LedgerM unit :=
  update_outbox outbox_id (status_is "Drafted")
    (λ row, set_approval approval_id (set_status "PendingApproval" row))
    "outbox not in Drafted state or not found".

Definition transition_outbox (now : Z) (outbox_id from to : string) (set_approved : bool)
    : LedgerM unit :=
  update_outbox outbox_id (status_is from)
    (λ row, if set_approved then set_approved_at now (set_status to row)
            else set_status to row)
    "outbox not in expected state or not found".

Definition mark_outbox_approved (now : Z) (outbox_id : string) : LedgerM unit :=
  transition_outbox now outbox_id "PendingApproval" "Approved" true.

Definition mark_outbox_denied (now : Z) (outbox_id : string) : LedgerM unit :=
  transition_outbox now outbox_id "PendingApproval" "Denied" false.

Definition mark_outbox_expired (now : Z) (outbox_id : string) : LedgerM unit :=
  transition_outbox now outbox_id "PendingApproval" "Expired" false.

Definition mark_outbox_executed (now : Z) (outbox_id : string) : LedgerM unit :=
  update_outbox outbox_id (status_is "Approved")
    (λ row, set_executed_at now (set_status "Executed" row))
    "outbox not in Approved state or not found".

Definition mark_outbox_failed (now : Z) (outbox_id : string) : LedgerM unit :=
  transition_outbox now outbox_id "Approved" "Failed" false.

Definition cancel_outbox (outbox_id : string) : LedgerM unit :=
  update_outbox outbox_id (λ row, status_is "Drafted" row || status_is "PendingApproval" row)
    (set_status "Cancelled") "outbox not in cancellable state or not found".

Definition get_outbox (outbox_id : string) : LedgerM (option OutboxItem) :=
  λ s,
    (match outbox_items s !! outbox_id with
     | None => Ok None
     | Some row =>
         let? kind := parse_kind (o_kind row) in
         let? preview := ok_or (json_from_str (o_preview_json row)) AuditError.Json in
         let? st := parse_status (o_status row) in
         Ok (Some (mkOutboxItem outbox_id (o_invocation_id row) (o_session_id row) kind
                     preview (o_approval_id row) st (o_created_at row) (o_approved_at row)
                     (o_executed_at row)))
     end, s).
End Outbox.

(** ** The machine *)

(** The edges of the status graph, with what each writes beside the status. *)
Inductive edge : OutboxRow → OutboxRow → Prop :=
| EdgeSubmit row a : o_status row = "Drafted" →
    edge row (set_approval a (set_status "PendingApproval" row))
| EdgeApprove row now : o_status row = "PendingApproval" →
    edge row (set_approved_at now (set_status "Approved" row))
| EdgeDeny row : o_status row = "PendingApproval" → edge row (set_status "Denied" row)
| EdgeExpire row : o_status row = "PendingApproval" → edge row (set_status "Expired" row)
| EdgeExecute row now : o_status row = "Approved" →
    edge row (set_executed_at now (set_status "Executed" row))
| EdgeFail row : o_status row = "Approved" → edge row (set_status "Failed" row)
| EdgeCancel row : o_status row = "Drafted" ∨ o_status row = "PendingApproval" →
    edge row (set_status "Cancelled" row).

Definition is_draft (row : OutboxRow) : Prop :=
  o_status row = "Drafted" ∧ o_approval_id row = None ∧ o_approved_at row = None ∧
  o_executed_at row = None.

(** One operation of the outbox: items appear as drafts, and each moves by at
    most one edge. *)
Definition outbox_step (s s' : LedgerState) : Prop :=
  ∀ id, match outbox_items s !! id, outbox_items s' !! id with
        | None, None => True
        | None, Some row' => is_draft row'
        | Some _, None => False
        | Some row, Some row' => row' = row ∨ edge row row'
        end.

(** What the columns of an item say of its past. *)
Definition item_ok (row : OutboxRow) : Prop :=
  let st := o_status row in
  st ∈ ["Drafted"; "PendingApproval"; "Approved"; "Denied"; "Expired"; "Executed";
        "Failed"; "Cancelled"] ∧
  (is_Some (o_executed_at row) ↔ st = "Executed") ∧
  (is_Some (o_approved_at row) ↔ st ∈ ["Approved"; "Executed"; "Failed"]) ∧
  (st ∉ ["Drafted"; "Cancelled"] → is_Some (o_approval_id row)) ∧
  (st = "Drafted" → o_approval_id row = None).

Definition outbox_inv (s : LedgerState) : Prop := map_Forall (λ _, item_ok) (outbox_items s).

Section Machine.
Context `{CratesLaws} `{Redaction}.

Lemma outbox_step_refl s : outbox_step s s.
Proof. intros id. destruct (outbox_items s !! id); [by left|done]. Qed.

Lemma update_outbox_step id p f reason s :
  (∀ row, p row = true → edge row (f row)) →
  outbox_step s (update_outbox id p f reason s).2.
Proof.
  intros Hf. unfold update_outbox. run_m.
  destruct (update_where id p f (outbox_items s)) as [n m] eqn:E. simpl.
  assert (∀ r : LedgerM unit, (∀ s, (r s).2 = s) →
    outbox_step s (set_outbox_items m s) → outbox_step s (r (set_outbox_items m s)).2) as Hr.
  { intros r Hr Hs. by rewrite Hr. }
  apply Hr; [by destruct (n =? 0)%Z|]. clear Hr.
  apply update_where_inv in E as [(_ & row & Hid & Hp & ->)|(_ & -> & _)].
  - intros id'. simpl. destruct (decide (id' = id)) as [->|Hne].
    + rewrite Hid, lookup_insert_eq. right. by apply Hf.
    + rewrite lookup_insert_ne by done. destruct (outbox_items s !! id'); [by left|done].
  - intros id'. simpl. destruct (outbox_items s !! id'); [by left|done].
Qed.

Lemma draft_outbox_step now id inv sid k p s :
  outbox_step s (draft_outbox now id inv sid k p s).2.
Proof.
  unfold draft_outbox. run_m. destruct (jcs_to_vec p) as [t|]; [|apply outbox_step_refl].
  simpl. destruct (refuse_hard_secret t) as [[]|]; [|apply outbox_step_refl].
  destruct (outbox_items s !! id) eqn:Hid; [apply outbox_step_refl|]. simpl.
  intros id'. simpl. destruct (decide (id' = id)) as [->|Hne].
  - by rewrite Hid, lookup_insert_eq.
  - rewrite lookup_insert_ne by done. destruct (outbox_items s !! id'); [by left|done].
Qed.

Lemma is_draft_ok row : is_draft row → item_ok row.
Proof.
  unfold item_ok. intros (-> & -> & -> & ->). split_and!; try (by intros []%is_Some_None).
  - set_solver.
  - split; [by intros []%is_Some_None|done].
  - split; [by intros []%is_Some_None|set_solver].
  - intros Hn. destruct Hn. set_solver.
  - done.
Qed.

Lemma edge_ok row row' : item_ok row → edge row row' → item_ok row'.
Proof.
  unfold item_ok. intros (Hst & Hex & Hap & Hid & Hdr) He.
  destruct He as [row a E|row now E|row E|row E|row now E|row E|row [E|E]];
    rewrite E in *; simpl; split_and!; try set_solver.
Qed.

Lemma outbox_step_inv s s' : outbox_step s s' → outbox_inv s → outbox_inv s'.
Proof.
  intros Hs Hi id row' Hid'. specialize (Hs id). rewrite Hid' in Hs.
  destruct (outbox_items s !! id) as [row|] eqn:Hid; [|by apply is_draft_ok].
  destruct Hs as [->|He]; [by apply (Hi id)|]. eapply edge_ok; [by apply (Hi id)|done].
Qed.
End Machine.

(** ** Programs over the outbox *)

Inductive outbox_op :=
| Draft (now : Z) (id inv sid : string) (k : OutboxKind) (preview : Value)
| Submit (id approval_id : string)
| MarkApproved (now : Z) (id : string)
| MarkDenied (now : Z) (id : string)
| MarkExpired (now : Z) (id : string)
| MarkExecuted (now : Z) (id : string)
| MarkFailed (now : Z) (id : string)
| Cancel (id : string).

Section Programs.
Context `{CratesLaws} `{Redaction}.

Definition run_outbox (s : LedgerState) (op : outbox_op) : LedgerState :=
  match op with
  | Draft now id inv sid k p => (draft_outbox now id inv sid k p s).2
  | Submit id a => (submit_outbox_for_approval id a s).2
  | MarkApproved now id => (mark_outbox_approved now id s).2
  | MarkDenied now id => (mark_outbox_denied now id s).2
  | MarkExpired now id => (mark_outbox_expired now id s).2
  | MarkExecuted now id => (mark_outbox_executed now id s).2
  | MarkFailed now id => (mark_outbox_failed now id s).2
  | Cancel id => (cancel_outbox id s).2
  end.

Lemma run_outbox_step s op : outbox_step s (run_outbox s op).
Proof.
  destruct op; simpl; unfold submit_outbox_for_approval, mark_outbox_approved,
    mark_outbox_denied, mark_outbox_expired, mark_outbox_executed, mark_outbox_failed,
    cancel_outbox, transition_outbox, status_is;
    try apply draft_outbox_step; apply update_outbox_step; intros row E; simpl;
    rewrite ?orb_true_iff, !String.eqb_eq in E; by constructor.
Qed.

Definition status_at (id : string) (s : LedgerState) : option string :=
  o_status <$> outbox_items s !! id.

(** Which status an item can have come from. *)
Definition comes_from (st : string) : list string :=
  if String.eqb st "Executed" then ["Approved"]
  else if String.eqb st "Approved" then ["PendingApproval"]
  else if String.eqb st "PendingApproval" then ["Drafted"] else [].

Lemma status_step s s' id st prev :
  outbox_step s s' → comes_from st = [prev] → status_at id s' = Some st →
  status_at id s = Some st ∨ status_at id s = Some prev.
Proof.
  unfold status_at. intros Hs Hst Hid. specialize (Hs id).
  destruct (outbox_items s' !! id) as [row'|]; [|done]. simpl in Hid. simplify_eq.
  destruct (outbox_items s !! id) as [row|]; simpl.
  - destruct Hs as [->|He]; [by left|right].
    destruct He as [row a E|row now E|row E|row E|row now E|row E|row E]; 
      unfold comes_from in Hst; simpl in Hst; simplify_eq; by rewrite ?E.
  - destruct Hs as (Hd & _). unfold comes_from in Hst.
    rewrite Hd in Hst. simpl in Hst. done.
Qed.

(** An item in a later status passed through the one before. *)
Lemma passed_through id st prev ops s0 :
  comes_from st = [prev] → status_at id s0 = None →
  status_at id (foldl run_outbox s0 ops) = Some st →
  ∃ ops1 ops2, ops = ops1 ++ ops2 ∧ status_at id (foldl run_outbox s0 ops1) = Some prev.
Proof.
  intros Hst H0'. induction ops as [|op ops IH] using rev_ind; intros E.
  { simpl in E. congruence. }
  rewrite foldl_snoc in E.
  destruct (status_step _ _ id st prev (run_outbox_step _ op) Hst E) as [E'|E'].
  - destruct (IH E') as (ops1 & ops2 & -> & Hp). exists ops1, (ops2 ++ [op]).
    by rewrite app_assoc.
  - by exists ops, [op].
Qed.

Lemma outbox_inv_run ops s : outbox_inv s → outbox_inv (foldl run_outbox s ops).
Proof.
  revert s; induction ops as [|op ops IH]; intros s Hs; [done|]. apply IH.
  eapply outbox_step_inv; [apply run_outbox_step|done].
Qed.

Definition final_status : list string :=
  ["Denied"; "Expired"; "Executed"; "Failed"; "Cancelled"].

(** Nothing is sent without approval. However the outbox operations are
    sequenced, and whatever their arguments, an item that is [Executed] was
    drafted, then pending approval, then approved, in that order, and its row
    carries the approval's id and both times. *)
Theorem outbox_executed_only_after_approval ops id row s0 :
  outbox_items s0 = ∅ →
  outbox_items (foldl run_outbox s0 ops) !! id = Some row → o_status row = "Executed" →
  (∃ ops1 ops2 ops3 ops4, ops = ops1 ++ ops2 ++ ops3 ++ ops4 ∧
     status_at id (foldl run_outbox s0 ops1) = Some "Drafted" ∧
     status_at id (foldl run_outbox s0 (ops1 ++ ops2)) = Some "PendingApproval" ∧
     status_at id (foldl run_outbox s0 (ops1 ++ ops2 ++ ops3)) = Some "Approved") ∧
  is_Some (o_approval_id row) ∧ is_Some (o_approved_at row) ∧ is_Some (o_executed_at row).
Proof.
  intros Hs0 Hid Hst.
  assert (status_at id s0 = None) as Hnone by (unfold status_at; by rewrite Hs0, lookup_empty).
  assert (outbox_inv s0) as Hi by (unfold outbox_inv; rewrite Hs0; apply map_Forall_empty).
  pose proof (outbox_inv_run ops s0 Hi id row Hid) as (_ & Hex & Hap & Happ & _).
  rewrite Hst in *. split.
  - assert (status_at id (foldl run_outbox s0 ops) = Some "Executed") as E
      by (unfold status_at; by rewrite Hid, <- Hst).
    destruct (passed_through id "Executed" _ ops s0 eq_refl Hnone E) as (a & o4 & -> & E3).
    destruct (passed_through id "Approved" _ a s0 eq_refl Hnone E3) as (b & o3 & -> & E2).
    destruct (passed_through id "PendingApproval" _ b s0 eq_refl Hnone E2)
      as (o1 & o2 & -> & E1).
    exists o1, o2, o3, o4. rewrite <- !app_assoc in *. done.
  - split_and!; [apply Happ|apply Hap|by apply Hex]; set_solver.
Qed.

(** The end states of the outbox are final: an item denied, expired,
    executed, failed or cancelled is never changed again, by any operations. *)
Theorem outbox_final_states_absorb ops s id row :
  outbox_items s !! id = Some row → o_status row ∈ final_status →
  outbox_items (foldl run_outbox s ops) !! id = Some row.
Proof.
  revert s; induction ops as [|op ops IH]; intros s Hid Hf; [done|]. simpl. apply IH; [|done].
  pose proof (run_outbox_step s op id) as Hs. rewrite Hid in Hs.
  destruct (outbox_items (run_outbox s op) !! id) as [row'|]; [|done].
  destruct Hs as [->|He]; [done|]. unfold final_status in Hf.
  destruct He as [row a E|row now E|row E|row E|row now E|row E|row [E|E]];
    rewrite E in Hf; set_solver.
Qed.

(** A draft holds what was given, or nothing: [draft_outbox] refuses a
    preview with a hard secret and stores nothing; otherwise the item reads back
    as a draft of the same kind whose preview has the canonical text of the one
    given, with no approval and no times. *)
Theorem outbox_draft_reads_back now id inv sid k p s :
  outbox_items s !! id = None →
  match draft_outbox now id inv sid k p s with
  | (Ok item, s') =>
      ∃ p', get_outbox id s' =
        (Ok (Some (mkOutboxItem id inv sid k p' None OutboxStatus.Drafted now None None)), s')
      ∧ jcs_to_vec p' = jcs_to_vec p ∧ oi_status item = OutboxStatus.Drafted
      ∧ ∃ text, jcs_to_vec p = Some text ∧ detect_hard_secret text = None
  | (Err err, s') =>
      s' = s ∧ (jcs_to_vec p = None ∨
                ∃ text, jcs_to_vec p = Some text ∧ detect_hard_secret text ≠ None)
  end.
Proof.
  intros Hid. unfold draft_outbox, refuse_hard_secret. run_m.
  destruct (jcs_to_vec p) as [text|] eqn:Hj; simpl; [|by split; [|left]].
  destruct (detect_hard_secret text) as [rule|] eqn:Hd; simpl.
  { split; [done|]. right. exists text. by rewrite Hd. }
  rewrite Hid. simpl. destruct (jcs_parse p text Hj) as (p' & Hp' & Hj').
  exists p'. split_and!; [|congruence|done|by eexists].
  unfold get_outbox. simpl. rewrite lookup_insert_eq. simpl. rewrite Hp'. by destruct k.
Qed.
End Programs.

(** ** Witnesses *)

Import Toy.

Definition sample_ops : list outbox_op :=
  [Draft 1 "o1" "inv1" "s1" OutboxKind.Email (JStr "hello"); MarkExecuted 2 "o1";
   Submit "o1" "a1"; MarkApproved 3 "o1"; Cancel "o1"; MarkExecuted 4 "o1"].

Definition sample_row : OutboxRow :=
  mkOutboxRow "inv1" "s1" "email" (to_text (JStr "hello")) (Some "a1") "Executed" 1
    (Some 3%Z) (Some 4%Z).

Lemma outbox_executed_only_after_approval_witness :
  outbox_items (foldl run_outbox empty_ledger sample_ops) !! "o1" = Some sample_row ∧
  is_Some (o_approval_id sample_row).
Proof.
  assert (outbox_items (foldl run_outbox empty_ledger sample_ops) !! "o1" = Some sample_row)
    as E by (vm_compute; reflexivity).
  split; [exact E|].
  destruct (outbox_executed_only_after_approval sample_ops "o1" sample_row empty_ledger
    eq_refl E eq_refl) as (_ & Ha & _). exact Ha.
Defined.

Lemma outbox_final_states_absorb_witness :
  outbox_items (foldl run_outbox (foldl run_outbox empty_ledger sample_ops)
    [Cancel "o1"; MarkFailed 9 "o1"; Submit "o1" "a2"]) !! "o1" = Some sample_row.
Proof.
  apply outbox_final_states_absorb.
  - vm_compute; reflexivity.
  - unfold final_status, sample_row. simpl. set_solver.
Defined.

Lemma outbox_draft_reads_back_witness :
  (draft_outbox 1 "o1" "i" "s" OutboxKind.Email (JStr "ghp_x") empty_ledger).2 = empty_ledger.
Proof.
  pose proof (outbox_draft_reads_back 1 "o1" "i" "s" OutboxKind.Email (JStr "ghp_x")
    empty_ledger eq_refl) as Hd.
  destruct (draft_outbox 1 "o1" "i" "s" OutboxKind.Email (JStr "ghp_x") empty_ledger)
    as [[item|err] s'] eqn:E; [vm_compute in E; discriminate|].
  destruct Hd as [Hs _]. exact Hs.
Defined.
