(* ===== verification/Registry.v ===== *)
(** * The server registry

    [src/crates/vigil-audit/src/registry.rs], servers and tool descriptors: who
    may be called, which command and which descriptor the user approved, and what
    happens when either drifts. Errors of the audit append that the code drops
    ([let _ = ...]) are dropped here. *)

From S2P Require Import Prelude Types Deps Db Hash Ledger.

Module PinOutcome.
Inductive PinOutcome := FirstSeen | Unchanged | Drifted (old new : string).
End PinOutcome.
Abbreviation PinOutcome := PinOutcome.PinOutcome.

Record CommandDrift := mkCommandDrift { cd_old : string; cd_new : string }.

Module ResolvedProgramOutcome.
Inductive ResolvedProgramOutcome :=
| Unchanged
| Pinned (resolved : string)
| Drifted (old new : string).
End ResolvedProgramOutcome.
Abbreviation ResolvedProgramOutcome := ResolvedProgramOutcome.ResolvedProgramOutcome.

Record StoredServerProfile := mkStoredServerProfile {
  ssp_server_id : string;
  ssp_transport : TransportKind;
  ssp_command : option (list string);
  ssp_url : option string;
  ssp_first_seen_at : Z;
  ssp_command_hash : option string;
  ssp_descriptor_hash : option string;
  ssp_trust_level : TrustLevel;
  ssp_sandbox_profile_id : option string;
  ssp_pending_command_hash : option string;
  ssp_last_drift_at : option Z;
}.

Record ToolApprovalCard := mkToolApprovalCard {
  tc_server_id : string;
  tc_tool_name : string;
  tc_current_hash : string;
  tc_proposed_hash : option string;
  tc_first_seen_at : Z;
  tc_approved_at : option Z;
  tc_last_drift_at : option Z;
}.

(** ** Column texts *)

Definition transport_to_str (t : TransportKind) : string :=
  match t with
  | TransportKind.Stdio => "Stdio"
  | TransportKind.Http => "Http"
  end.

Definition parse_transport (s : string) : result AuditError TransportKind :=
  if String.eqb s "Stdio" then Ok TransportKind.Stdio
  else if String.eqb s "Http" then Ok TransportKind.Http
  else Err (AuditError.InvalidInput "unknown transport kind").

Definition trust_to_str (l : TrustLevel) : string :=
  match l with
  | TrustLevel.Untrusted => "Untrusted"
  | TrustLevel.Limited => "Limited"
  | TrustLevel.Trusted => "Trusted"
  end.

Definition parse_trust (s : string) : result AuditError TrustLevel :=
  if String.eqb s "Untrusted" then Ok TrustLevel.Untrusted
  else if String.eqb s "Limited" then Ok TrustLevel.Limited
  else if String.eqb s "Trusted" then Ok TrustLevel.Trusted
  else Err (AuditError.InvalidInput "unknown trust level").

Definition secret_in_argv_reason (rule : string) : string :=
  if str_in rule ["github_token"; "anthropic_key"; "openai_key"; "slack_token";
                  "aws_access_key"; "google_api_key"; "pem_private_key"]
  then "argv_contains_secret:" +:+ rule
  else "argv_contains_secret:other".

(** ** Updates of one row *)

Definition sv_set_trust (lvl : string) (r : ServerRow) : ServerRow :=
  mkServerRow (sv_transport r) (sv_command_json r) (sv_url r) (sv_first_seen_at r)
    (sv_command_hash r) (sv_descriptor_hash r) lvl (sv_sandbox_profile_id r)
    (sv_pending_command_hash r) (sv_last_drift_at r) (sv_pending_command_json r)
    (sv_resolved_program_path r) (sv_pending_resolved_program_path r).

Definition sv_set_descriptor (h : string) (r : ServerRow) : ServerRow :=
  mkServerRow (sv_transport r) (sv_command_json r) (sv_url r) (sv_first_seen_at r)
    (sv_command_hash r) (Some h) (sv_trust_level r) (sv_sandbox_profile_id r)
    (sv_pending_command_hash r) (sv_last_drift_at r) (sv_pending_command_json r)
    (sv_resolved_program_path r) (sv_pending_resolved_program_path r).

Definition sv_set_sandbox (p : option string) (r : ServerRow) : ServerRow :=
  mkServerRow (sv_transport r) (sv_command_json r) (sv_url r) (sv_first_seen_at r)
    (sv_command_hash r) (sv_descriptor_hash r) (sv_trust_level r) p
    (sv_pending_command_hash r) (sv_last_drift_at r) (sv_pending_command_json r)
    (sv_resolved_program_path r) (sv_pending_resolved_program_path r).

(** The command, its pending candidate, and the time of the drift. *)
Definition sv_set_command (json hash pending_hash pending_json : option string)
    (drift_at : option Z) (r : ServerRow) : ServerRow :=
  mkServerRow (sv_transport r) json (sv_url r) (sv_first_seen_at r) hash
    (sv_descriptor_hash r) (sv_trust_level r) (sv_sandbox_profile_id r) pending_hash
    drift_at pending_json (sv_resolved_program_path r)
    (sv_pending_resolved_program_path r).

Definition sv_set_resolved (pinned pending : option string) (r : ServerRow) : ServerRow :=
  mkServerRow (sv_transport r) (sv_command_json r) (sv_url r) (sv_first_seen_at r)
    (sv_command_hash r) (sv_descriptor_hash r) (sv_trust_level r)
    (sv_sandbox_profile_id r) (sv_pending_command_hash r) (sv_last_drift_at r)
    (sv_pending_command_json r) pinned pending.

(** [UPDATE server_profiles ... WHERE server_id = ? AND p]; the rows changed. *)
Definition update_server (server_id : string) (p : ServerRow → bool)
    (f : ServerRow → ServerRow) : LedgerM Z :=
  let! u := gets (λ s, update_where server_id p f (server_profiles s)) in
  modify (set_server_profiles u.2) ;! ret u.1.

Definition update_tool (key : string * string) (p : ToolRow → bool)
    (f : ToolRow → ToolRow) : LedgerM Z :=
  let! u := gets (λ s, update_where key p f (tool_descriptors s)) in
  modify (set_tool_descriptors u.2) ;! ret u.1.

(** [if n == 0 { return Err(..) }] *)
Definition require_changed (n : Z) (reason : string) : LedgerM unit :=
  if (n =? 0)%Z then invalid reason else ret tt.

Section Registry.
Context `{Crates} `{Redaction}.

(** [sha256(JCS(argv))] *)
Definition argv_hash (argv : list string) : string :=
  hex_encode (sha256 (default "" (jcs_to_vec (json_strs argv)))).

(** The first argument that holds a hard secret is refused. *)
Fixpoint refuse_secret_argv (argv : list string) : result AuditError unit :=
  match argv with
  | [] => Ok tt
  | elem :: rest =>
      match detect_hard_secret elem with
      | Some rule => Err (AuditError.InvalidInput (secret_in_argv_reason rule))
      | None => refuse_secret_argv rest
      end
  end.

Definition parse_command (json : option string) : result AuditError (option (list string)) :=
  match json with
  | None => Ok None
  | Some s => let? argv := ok_or (argv_from_json s) AuditError.Json in Ok (Some argv)
  end.

(** ** Servers *)

Definition stored_profile (id : string) (r : ServerRow)
    : result AuditError StoredServerProfile :=
  let? command := parse_command (sv_command_json r) in
  let? transport := parse_transport (sv_transport r) in
  let? trust := parse_trust (sv_trust_level r) in
  Ok (mkStoredServerProfile id transport command (sv_url r) (sv_first_seen_at r)
        (sv_command_hash r) (sv_descriptor_hash r) trust (sv_sandbox_profile_id r)
        (sv_pending_command_hash r) (sv_last_drift_at r)).

Definition get_server (server_id : string) : LedgerM (option StoredServerProfile) :=
  λ s, (match server_profiles s !! server_id with
        | None => Ok None
        | Some r => let? p := stored_profile server_id r in Ok (Some p)
        end, s).

Definition register_server (p : ServerProfile) : LedgerM bool :=
  if bool_decide (sp_transport p = TransportKind.Stdio)
     && (bool_decide (sp_command p = None) || bool_decide (sp_command_hash p = None))
  then invalid "stdio server profile requires both command and command_hash"
  else
    lift (refuse_secret_argv (default [] (sp_command p))) ;!
    let! existing := get_server (sp_server_id p) in
    match existing with
    | Some ex =>
        if bool_decide (ssp_command_hash ex = sp_command_hash p) then ret false
        else throw (AuditError.RegistryConflict (sp_server_id p))
    | None =>
        modify (λ s, set_server_profiles
          (<[sp_server_id p :=
               mkServerRow (transport_to_str (sp_transport p))
                 (argv_to_json <$> sp_command p) (sp_url p) (sp_first_seen_at p)
                 (sp_command_hash p) (sp_descriptor_hash p)
                 (trust_to_str (sp_trust_level p)) (sp_sandbox_profile_id p)
                 None None None None None]> (server_profiles s)) s) ;!
        ret true
    end.

Definition approve_server (server_id : string) (level : TrustLevel) : LedgerM unit :=
  let! n := update_server server_id (λ _, true) (sv_set_trust (trust_to_str level)) in
  require_changed n "server_id not found".

Definition set_descriptor_hash (server_id hash : string) : LedgerM unit :=
  let! n := update_server server_id (λ _, true) (sv_set_descriptor hash) in
  require_changed n "server_id not found".

(** [SELECT ... ORDER BY first_seen_at] *)
Definition servers_where (p : ServerRow → bool) (s : LedgerState) : list (string * ServerRow) :=
  Sort.sort (λ a b, (sv_first_seen_at a.2 <=? sv_first_seen_at b.2)%Z)
    (List.filter (λ kv, p kv.2) (map_to_list (server_profiles s))).

(** Reads the rows in turn; the drift columns are not selected. *)
Fixpoint approved_profiles (l : list (string * ServerRow))
    : result AuditError (list StoredServerProfile) :=
  match l with
  | [] => Ok []
  | (id, r) :: rest =>
      let? command := parse_command (sv_command_json r) in
      let? transport := parse_transport (sv_transport r) in
      let? trust := parse_trust (sv_trust_level r) in
      let? out := approved_profiles rest in
      Ok (mkStoredServerProfile id transport command (sv_url r) (sv_first_seen_at r)
            (sv_command_hash r) (sv_descriptor_hash r) trust (sv_sandbox_profile_id r)
            None None :: out)
  end.

Definition list_approved_servers : LedgerM (list StoredServerProfile) :=
  λ s, (approved_profiles
          (servers_where (λ r, str_in (sv_trust_level r) ["Limited"; "Trusted"]) s), s).

(** ** Tool descriptors *)

Definition t_set (hash : string) (approved_at : option Z) (pending : option string)
    (last_hash : string) (last_at : Z) (drift_at : option Z) (r : ToolRow) : ToolRow :=
  mkToolRow hash (t_first_seen_at r) approved_at pending last_hash last_at drift_at.

Definition pin_tool_descriptor (now : Z) (server_id tool_name descriptor_hash : string)
    : LedgerM PinOutcome :=
  if Str.is_empty descriptor_hash then invalid "descriptor_hash must not be empty"
  else
    let key := (server_id, tool_name) in
    let! existing := gets (λ s, tool_descriptors s !! key) in
    match existing with
    | None =>
        modify (λ s, set_tool_descriptors
          (<[key := mkToolRow descriptor_hash now None None descriptor_hash now None]>
             (tool_descriptors s)) s) ;!
        ret PinOutcome.FirstSeen
    | Some r =>
        if String.eqb (t_descriptor_hash r) descriptor_hash then
          update_tool key (λ _, true) (λ r,
            match t_pending_hash r with
            | Some _ => t_set (t_descriptor_hash r) (t_approved_at r) None
                          descriptor_hash now None r
            | None => t_set (t_descriptor_hash r) (t_approved_at r) None
                        descriptor_hash now (t_last_drift_at r) r
            end) ;!
          ret PinOutcome.Unchanged
        else
          match t_approved_at r with
          | None =>
              update_tool key (λ _, true)
                (t_set descriptor_hash None None descriptor_hash now None) ;!
              ret PinOutcome.FirstSeen
          | Some _ =>
              update_tool key (λ _, true) (λ r,
                t_set (t_descriptor_hash r) (t_approved_at r) (Some descriptor_hash)
                  descriptor_hash now
                  (match t_pending_hash r with
                   | None => Some now
                   | Some _ => t_last_drift_at r
                   end) r) ;!
              ret (PinOutcome.Drifted (t_descriptor_hash r) descriptor_hash)
          end
    end.

Definition tool_event (server_id tool_name : string) (more : list (string * Value)) : Value :=
  JObj ([("server_id", JStr server_id); ("tool_name", JStr tool_name)] ++ more).

Definition approve_tool_descriptor (now now_ev : Z) (server_id tool_name : string)
    : LedgerM unit :=
  let! n := update_tool (server_id, tool_name)
    (λ r, bool_decide (t_approved_at r = None))
    (λ r, t_set (t_descriptor_hash r) (Some now) (t_pending_hash r) (t_last_seen_hash r)
            (t_last_seen_at r) (t_last_drift_at r) r) in
  require_changed n "tool descriptor not found or already approved" ;!
  ignore (append_event_internal now_ev "system" "tool_approval.first_approved"
    (tool_event server_id tool_name [])
    (Some ("tool_approval server:" +:+ server_id +:+ " tool:" +:+ tool_name))).

Definition approve_tool_descriptor_to (now now_ev : Z) (server_id tool_name new_hash : string)
    : LedgerM unit :=
  let! n := update_tool (server_id, tool_name)
    (λ r, bool_decide (t_pending_hash r = Some new_hash)
          && bool_decide (t_approved_at r ≠ None))
    (λ r, t_set new_hash (Some now) None (t_last_seen_hash r) (t_last_seen_at r) None r) in
  require_changed n "no matching drifted descriptor to re-approve (caller must first approve_tool_descriptor for FirstSeen)" ;!
  ignore (append_event_internal now_ev "system" "tool_approval.re_approved"
    (tool_event server_id tool_name [("new_hash", JStr new_hash)])
    (Some ("tool_approval re_approved server:" +:+ server_id +:+ " tool:" +:+ tool_name))).

Definition reject_tool_descriptor_drift (now_ev : Z) (server_id tool_name : string)
    : LedgerM unit :=
  let! n := update_tool (server_id, tool_name)
    (λ r, bool_decide (t_pending_hash r ≠ None))
    (λ r, t_set (t_descriptor_hash r) (t_approved_at r) None (t_last_seen_hash r)
            (t_last_seen_at r) None r) in
  require_changed n "no drift pending on this descriptor" ;!
  ignore (append_event_internal now_ev "system" "tool_approval.drift_rejected"
    (tool_event server_id tool_name [])
    (Some ("tool_approval drift_rejected server:" +:+ server_id +:+ " tool:" +:+ tool_name))).

Definition get_pinned_tool_hash (server_id tool_name : string) : LedgerM (option string) :=
  gets (λ s, match tool_descriptors s !! (server_id, tool_name) with
             | Some r =>
                 match t_approved_at r with
                 | Some _ => Some (t_descriptor_hash r)
                 | None => None
                 end
             | None => None
             end).

Definition list_tool_cards_where (p : ToolRow → bool) : LedgerM (list ToolApprovalCard) :=
  gets (λ s,
    (λ kv : (string * string) * ToolRow,
       mkToolApprovalCard kv.1.1 kv.1.2 (t_descriptor_hash kv.2) (t_pending_hash kv.2)
         (t_first_seen_at kv.2) (t_approved_at kv.2) (t_last_drift_at kv.2)) <$>
    Sort.sort (λ a b, (t_first_seen_at a.2 <=? t_first_seen_at b.2)%Z)
      (List.filter (λ kv, p kv.2) (map_to_list (tool_descriptors s)))).

Definition list_pending_tool_approvals : LedgerM (list ToolApprovalCard) :=
  list_tool_cards_where (λ r, bool_decide (t_approved_at r = None)).

Definition list_drifted_tools : LedgerM (list ToolApprovalCard) :=
  list_tool_cards_where (λ r, bool_decide (t_pending_hash r ≠ None)).
End Registry.

(** ** Drift of the command and of the program

    The argv a server is spawned with against the one approved, and the binary the
    host resolves it to against the one pinned. *)


Section Drift.
Context `{Crates} `{Redaction}.

Definition server_event (server_id : string) : Value := JObj [("server_id", JStr server_id)].

Definition check_server_command_drift (now : Z) (server_id : string)
    (new_argv : list string) (new_argv_hash : string) : LedgerM (option CommandDrift) :=
  if negb (String.eqb (argv_hash new_argv) new_argv_hash) then
    invalid "new_argv_hash does not match sha256(JCS(new_argv))"
  else
    lift (refuse_secret_argv new_argv) ;!
    let argv_json := argv_to_json new_argv in
    let! existing := gets (λ s, server_profiles s !! server_id) in
    match existing with
    | None => ret None
    | Some r =>
        match sv_command_hash r with
        | None => ret None
        | Some c =>
            if String.eqb c new_argv_hash then
              (match sv_pending_command_hash r with
               | Some _ =>
                   update_server server_id (λ _, true)
                     (λ r, sv_set_command (sv_command_json r) (sv_command_hash r) None None
                             None r) ;! ret tt
               | None => ret tt
               end) ;!
              ret None
            else
              update_server server_id (λ _, true)
                (λ r, sv_set_command (sv_command_json r) (sv_command_hash r)
                        (Some new_argv_hash) (Some argv_json)
                        (match sv_pending_command_hash r with
                         | None => Some now
                         | Some _ => sv_last_drift_at r
                         end) r) ;!
              ret (Some (mkCommandDrift c new_argv_hash))
        end
    end.

Definition has_pending_command (r : ServerRow) : bool :=
  bool_decide (sv_pending_command_hash r ≠ None).

(** [COALESCE(a, b)] *)
Definition coalesce {A} (a b : option A) : option A :=
  match a with
  | Some _ => a
  | None => b
  end.

Definition approve_server_command_drift (now_ev : Z) (server_id : string) : LedgerM unit :=
  let! n := update_server server_id has_pending_command
    (λ r, sv_set_command (coalesce (sv_pending_command_json r) (sv_command_json r))
            (sv_pending_command_hash r) None None None r) in
  require_changed n "server has no pending command drift" ;!
  ignore (append_event_internal now_ev "system" "server.command_re_approved"
    (server_event server_id) (Some ("server command_re_approved " +:+ server_id))).

Definition reject_server_command_drift (now_ev : Z) (server_id : string) : LedgerM unit :=
  let! n := update_server server_id has_pending_command
    (λ r, sv_set_command (sv_command_json r) (sv_command_hash r) None None None r) in
  require_changed n "server has no pending command drift" ;!
  ignore (append_event_internal now_ev "system" "server.command_drift_rejected"
    (server_event server_id) (Some ("server command_drift_rejected " +:+ server_id))).

Definition check_server_resolved_program_drift (server_id resolved_path : string)
    : LedgerM ResolvedProgramOutcome :=
  let! existing := gets (λ s, server_profiles s !! server_id) in
  match existing with
  | None => ret ResolvedProgramOutcome.Unchanged
  | Some r =>
      match sv_command_hash r with
      | None => ret ResolvedProgramOutcome.Unchanged
      | Some _ =>
          match sv_resolved_program_path r with
          | None =>
              update_server server_id (λ _, true)
                (λ r, sv_set_resolved (Some resolved_path)
                        (sv_pending_resolved_program_path r) r) ;!
              ret (ResolvedProgramOutcome.Pinned resolved_path)
          | Some p =>
              if String.eqb p resolved_path then
                (match sv_pending_resolved_program_path r with
                 | Some _ =>
                     update_server server_id (λ _, true)
                       (λ r, sv_set_resolved (sv_resolved_program_path r) None r) ;! ret tt
                 | None => ret tt
                 end) ;!
                ret ResolvedProgramOutcome.Unchanged
              else
                update_server server_id (λ _, true)
                  (λ r, sv_set_resolved (sv_resolved_program_path r) (Some resolved_path) r) ;!
                ret (ResolvedProgramOutcome.Drifted p resolved_path)
          end
      end
  end.

Definition has_pending_program (r : ServerRow) : bool :=
  bool_decide (sv_pending_resolved_program_path r ≠ None).

Definition approve_server_resolved_program_drift (now_ev : Z) (server_id : string)
    : LedgerM unit :=
  let! n := update_server server_id has_pending_program
    (λ r, sv_set_resolved (sv_pending_resolved_program_path r) None r) in
  require_changed n "server has no pending resolved-program drift" ;!
  ignore (append_event_internal now_ev "system" "server.resolved_program_re_approved"
    (server_event server_id) (Some ("server resolved_program_re_approved " +:+ server_id))).

Definition reject_server_resolved_program_drift (now_ev : Z) (server_id : string)
    : LedgerM unit :=
  let! n := update_server server_id has_pending_program
    (λ r, sv_set_resolved (sv_resolved_program_path r) None r) in
  require_changed n "server has no pending resolved-program drift" ;!
  ignore (append_event_internal now_ev "system" "server.resolved_program_drift_rejected"
    (server_event server_id)
    (Some ("server resolved_program_drift_rejected " +:+ server_id))).
End Drift.
