(* ===== verification/Secrets.v ===== *)
(** * Secret aliases, bindings, sandbox profiles and OAuth metadata

    [src/crates/vigil-audit/src/registry.rs], lines 861 to 1611: the tables that
    say which secret a tool may be given, under which name, what the onboarding
    card shows, and OAuth metadata bound into the hash chain. *)

From S2P Require Import Prelude Types Deps Db Hash Ledger Registry.

Record ServerOnboardingData := mkServerOnboardingData {
  so_server_id : string;
  so_transport : TransportKind;
  so_command : option (list string);
  so_url : option string;
  so_command_hash : option string;
  so_pending_command_hash : option string;
  so_requested_env_keys : option (list string);
  so_sandbox_profile_id : option string;
  so_first_seen_at : Z;
  so_trust_level : TrustLevel;
}.

Record OAuthTokenMetadataRow := mkOAuthTokenMetadataRow {
  om_token_ref : string;
  om_resource : string;
  om_authorization_server : string;
  om_scope_set : list string;
  om_token_kind : string;
  om_expires_at : option Z;
  om_created_at : Z;
  om_issuer : option string;
}.

Definition RESERVED_ENV_KEYS : list string :=
  ["SystemRoot"; "SYSTEMROOT"; "windir"; "WINDIR"; "SystemDrive"; "SYSTEMDRIVE"].

Definition is_reserved_env_key_name (key : string) : bool :=
  existsb (λ k, Str.eq_ignore_ascii_case k key) RESERVED_ENV_KEYS.

Definition EVENT_TYPE_OAUTH_METADATA_BOUND : string := "oauth.token_metadata_bound".

(** [ORDER BY tool_name, secret_ref] *)
Definition binding_leb (a b : BindingRow) : bool :=
  if String.eqb (b_tool_name a) (b_tool_name b) then
    Str.leb (b_secret_ref a) (b_secret_ref b)
  else Str.leb (b_tool_name a) (b_tool_name b).

Definition bindings_where (p : BindingRow → bool) (s : LedgerState) : list BindingRow :=
  List.filter p ((map_to_list (tool_secret_bindings s)).*2).

Section Secrets.
Context `{Crates} `{Redaction}.

(** ** Secret aliases *)

Definition secret_ref_fingerprint (secret_ref : string) : string :=
  hex_encode (sha256 ("vigil.secret_ref.fp.v1" +:+ String "000" secret_ref)).

Definition register_secret_ref (now : Z) (secret_ref display_name provider : string)
    : LedgerM bool :=
  if negb (Str.starts_with "secret://" secret_ref) then
    invalid "secret_ref must start with 'secret://'"
  else
    let! existing := gets (λ s, secret_refs s !! secret_ref) in
    match existing with
    | Some _ => ret false
    | None =>
        modify (λ s, set_secret_refs
          (<[secret_ref := mkSecretRefRow display_name provider
               (secret_ref_fingerprint secret_ref) now None]> (secret_refs s)) s) ;!
        ret true
    end.

Definition list_secret_refs : LedgerM (list (string * SecretRefRow)) :=
  gets (λ s, Sort.sort (λ a b, (sr_created_at a.2 <=? sr_created_at b.2)%Z)
               (map_to_list (secret_refs s))).

Definition touch_secret_ref (now : Z) (secret_ref : string) : LedgerM unit :=
  modify (λ s, set_secret_refs
    (update_where secret_ref (λ _, true)
       (λ r, mkSecretRefRow (sr_display_name r) (sr_provider r) (sr_fingerprint r)
               (sr_created_at r) (Some now)) (secret_refs s)).2 s).

(** ** Bindings *)

(** [INSERT OR REPLACE]; [foreign_keys = ON]: the alias must be registered. *)
Definition bind_tool_secret (b : BindingRow) : LedgerM unit :=
  if negb (Str.starts_with "secret://" (b_secret_ref b)) then
    invalid "binding.secret_ref must start with 'secret://'"
  else if negb (String.eqb (b_injection_method b) "ChildEnv") then
    invalid "I06 only supports injection_method='ChildEnv'; other methods delayed to I07+"
  else
    match b_env_var_name b with
    | None => invalid "ChildEnv binding requires env_var_name"
    | Some env_key =>
        if is_reserved_env_key_name env_key then
          invalid "env_var_name collides with reserved system env key"
        else
          let! alias := gets (λ s, secret_refs s !! b_secret_ref b) in
          match alias with
          | None => throw (AuditError.Sqlite "FOREIGN KEY constraint failed")
          | Some _ =>
              modify (λ s, set_tool_secret_bindings
                (<[(b_server_id b, b_tool_name b, b_secret_ref b, b_injection_method b) := b]>
                   (tool_secret_bindings s)) s)
          end
    end.

Definition list_tool_secret_bindings (server_id : string) : LedgerM (list BindingRow) :=
  gets (λ s, Sort.sort binding_leb
    (bindings_where (λ b, String.eqb (b_server_id b) server_id) s)).

Definition resolve_child_env_bindings (server_id tool_name : string)
    : LedgerM (list BindingRow) :=
  gets (λ s, Sort.sort binding_leb
    (bindings_where (λ b, String.eqb (b_server_id b) server_id
       && String.eqb (b_injection_method b) "ChildEnv"
       && (String.eqb (b_tool_name b) tool_name || String.eqb (b_tool_name b) "*")) s)).

Definition server_requested_env_keys (server_id : string) (s : LedgerState)
    : option (list string) :=
  match bindings_where (λ b, String.eqb (b_server_id b) server_id) s with
  | [] => None
  | _ =>
      Some (Sort.sort Str.leb (remove_dups (omap b_env_var_name
        (bindings_where (λ b, String.eqb (b_server_id b) server_id
           && String.eqb (b_injection_method b) "ChildEnv") s))))
  end.

(** ** Onboarding cards *)

Definition onboarding (id : string) (r : ServerRow) (s : LedgerState)
    : result AuditError ServerOnboardingData :=
  let? command := parse_command (sv_command_json r) in
  let? transport := parse_transport (sv_transport r) in
  let? trust := parse_trust (sv_trust_level r) in
  Ok (mkServerOnboardingData id transport command (sv_url r) (sv_command_hash r)
        (sv_pending_command_hash r) (server_requested_env_keys id s)
        (sv_sandbox_profile_id r) (sv_first_seen_at r) trust).

Definition get_onboarding_data (server_id : string) : LedgerM (option ServerOnboardingData) :=
  λ s, (match server_profiles s !! server_id with
        | None => Ok None
        | Some r => let? d := onboarding server_id r s in Ok (Some d)
        end, s).

Fixpoint onboardings (l : list (string * ServerRow)) (s : LedgerState)
    : result AuditError (list ServerOnboardingData) :=
  match l with
  | [] => Ok []
  | (id, r) :: rest =>
      let? d := onboarding id r s in
      let? out := onboardings rest s in
      Ok (d :: out)
  end.

Definition list_servers_where (p : ServerRow → bool) : LedgerM (list ServerOnboardingData) :=
  λ s, (onboardings (servers_where p s) s, s).

Definition list_pending_server_onboardings : LedgerM (list ServerOnboardingData) :=
  list_servers_where (λ r, String.eqb (sv_trust_level r) (trust_to_str TrustLevel.Untrusted)).

Definition list_drifted_servers : LedgerM (list ServerOnboardingData) :=
  list_servers_where (λ r, bool_decide (sv_pending_command_hash r ≠ None)).

(** ** Sandbox profiles *)

Definition upsert_sandbox_profile (now : Z) (profile_id profile_json : string)
    : LedgerM (bool * string) :=
  if Str.is_empty profile_id then invalid "profile_id must not be empty"
  else
    let! v := lift (ok_or (json_from_str profile_json)
      (AuditError.InvalidInput "sandbox_profile_json_parse_failed")) in
    let! env_inherit := lift (ok_or (x ← json_get "env_inherit" v; as_bool x)
      (AuditError.InvalidInput "sandbox_profile_missing_env_inherit")) in
    if (env_inherit : bool) then invalid "sandbox_profile_env_inherit_must_be_false"
    else
      let! canonical := lift (ok_or (jcs_to_vec v)
        (AuditError.InvalidInput "sandbox_profile_jcs_failed")) in
      let profile_hash := hex_encode (sha256 canonical) in
      let! existing := gets (λ s, sandbox_profiles s !! profile_id) in
      match existing with
      | Some r =>
          modify (λ s, set_sandbox_profiles
            (<[profile_id := mkSandboxRow canonical profile_hash (sb_created_at r) now]>
               (sandbox_profiles s)) s) ;!
          ret (false, profile_hash)
      | None =>
          modify (λ s, set_sandbox_profiles
            (<[profile_id := mkSandboxRow canonical profile_hash now now]>
               (sandbox_profiles s)) s) ;!
          ret (true, profile_hash)
      end.

Definition get_sandbox_profile (profile_id : string) : LedgerM (option SandboxRow) :=
  gets (λ s, sandbox_profiles s !! profile_id).

Definition list_sandbox_profiles : LedgerM (list (string * SandboxRow)) :=
  gets (λ s, Sort.sort (λ a b, (sb_created_at a.2 <=? sb_created_at b.2)%Z)
               (map_to_list (sandbox_profiles s))).

Definition bind_server_sandbox_profile (server_id : string) (profile_id : option string)
    : LedgerM unit :=
  let! known := gets (λ s, match profile_id with
                           | Some pid => bool_decide (is_Some (sandbox_profiles s !! pid))
                           | None => true
                           end) in
  if negb known then invalid "sandbox profile_id does not exist"
  else
    let! n := update_server server_id (λ _, true) (sv_set_sandbox profile_id) in
    require_changed n "server_id not found".

(** ** OAuth token metadata *)

Definition oauth_payload (token_ref resource authorization_server : string)
    (issuer : Value) (scope_set : list string) (token_kind : string) : Value :=
  JObj [("token_ref", JStr token_ref); ("resource", JStr resource);
        ("authorization_server", JStr authorization_server); ("issuer", issuer);
        ("scope_set", json_strs scope_set); ("token_kind", JStr token_kind)].

(** [ON CONFLICT(token_ref) DO UPDATE] keeps [created_at]. *)
Definition register_oauth_token_metadata (now_ev now : Z)
    (token_ref resource authorization_server : string) (scope_set : list string)
    (token_kind : string) (expires_at : option Z) (issuer : string) : LedgerM unit :=
  if Str.is_empty token_ref then invalid "token_ref_empty"
  else if negb (String.eqb token_kind "access") && negb (String.eqb token_kind "refresh")
  then invalid "unknown_token_kind"
  else if Str.is_empty issuer then invalid "issuer_empty"
  else
    let scope_json := argv_to_json scope_set in
    let! bound := append_event_internal now_ev "system" EVENT_TYPE_OAUTH_METADATA_BOUND
      (oauth_payload token_ref resource authorization_server (JStr issuer) scope_set
         token_kind) None in
    modify (λ s, set_oauth_token_metadata
      (<[token_ref := mkOAuthRow resource authorization_server scope_json token_kind
           expires_at
           (match oauth_token_metadata s !! token_ref with
            | Some old => oa_created_at old
            | None => now
            end) (Some issuer) (Some (ae_event_id bound))]> (oauth_token_metadata s)) s).

Definition oauth_row (token_ref : string) (r : OAuthRow) (scope_set : list string)
    : OAuthTokenMetadataRow :=
  mkOAuthTokenMetadataRow token_ref (oa_resource r) (oa_authorization_server r) scope_set
    (oa_token_kind r) (oa_expires_at r) (oa_created_at r) (oa_issuer r).

(** The payload of the binding event of this id, if it is one. *)
Definition event_payload_by_id (event_id : Z) : LedgerM (option Value) :=
  λ s, (match List.find (λ e, (e_event_id e =? event_id)%Z &&
                          String.eqb (e_event_type e) EVENT_TYPE_OAUTH_METADATA_BOUND)
                (events s) with
        | Some e => let? v := ok_or (json_from_str (e_payload_json e)) AuditError.Json in
                    Ok (Some v)
        | None => Ok None
        end, s).

Definition get_oauth_token_metadata (token_ref : string)
    : LedgerM (option OAuthTokenMetadataRow) :=
  let! row := gets (λ s, oauth_token_metadata s !! token_ref) in
  match row with
  | None => ret None
  | Some r =>
      let! scope_set := lift (ok_or (argv_from_json (oa_scope_set_json r)) AuditError.Json) in
      (match oa_binding_event_id r with
       | None => ret tt
       | Some eid =>
           verify_chain ;!
           let! found := event_payload_by_id eid in
           let! bound := lift (ok_or found
             (AuditError.InvalidInput "oauth_binding_event_missing")) in
           let expected := oauth_payload token_ref (oa_resource r)
             (oa_authorization_server r) (json_opt_str (oa_issuer r)) scope_set
             (oa_token_kind r) in
           let! a := lift (ok_or (jcs_to_vec bound) AuditError.Json) in
           let! b := lift (ok_or (jcs_to_vec expected) AuditError.Json) in
           if String.eqb a b then ret tt
           else invalid "oauth_metadata_integrity_mismatch"
       end) ;!
      ret (Some (oauth_row token_ref r scope_set))
  end.

Fixpoint oauth_rows (l : list (string * OAuthRow))
    : result AuditError (list OAuthTokenMetadataRow) :=
  match l with
  | [] => Ok []
  | (k, r) :: rest =>
      let? scope_set := ok_or (argv_from_json (oa_scope_set_json r)) AuditError.Json in
      let? out := oauth_rows rest in
      Ok (oauth_row k r scope_set :: out)
  end.

Definition list_oauth_token_metadata : LedgerM (list OAuthTokenMetadataRow) :=
  λ s, (oauth_rows (Sort.sort (λ a b, (oa_created_at a.2 <=? oa_created_at b.2)%Z)
                      (map_to_list (oauth_token_metadata s))), s).
End Secrets.
