(* ===== verification/Oracle.v ===== *)
(** * The registry's descriptor oracle

    [src/crates/vigil-mcp/src/oracle.rs]: the production [DescriptorOracle],
    which answers from the server registry. *)

From S2P Require Import Prelude Types Deps Db Scorer Registry.

Definition is_valid_descriptor_hash (h : string) : bool :=
  (String.length h =? 64)%nat && Str.all Str.is_ascii_hexdigit h.

Section Oracle.
Context `{Crates} `{Redaction}.

(** [RegistryDescriptorOracle::status] *)
Definition registry_status (s : LedgerState) (server_id tool_name descriptor_hash : string)
    : DescriptorStatus :=
  if negb (is_valid_descriptor_hash descriptor_hash) then DescriptorStatus.FirstSeen
  else
    match (get_server server_id s).1 with
    | Ok (Some profile) =>
        match ssp_trust_level profile with
        | TrustLevel.Limited | TrustLevel.Trusted =>
            match (get_pinned_tool_hash server_id tool_name s).1 with
            | Ok (Some h) =>
                if String.eqb h descriptor_hash then DescriptorStatus.ApprovedStable
                else DescriptorStatus.Drifted
            | _ => DescriptorStatus.FirstSeen
            end
        | TrustLevel.Untrusted => DescriptorStatus.FirstSeen
        end
    | _ => DescriptorStatus.FirstSeen
    end.

#[export] Instance RegistryDescriptorOracle : DescriptorOracle LedgerState :=
  {| status := registry_status |}.

(** What [ApprovedStable] means in a state. *)
Lemma approved_stable_iff s server_id tool_name hash :
  registry_status s server_id tool_name hash = DescriptorStatus.ApprovedStable ↔
  is_valid_descriptor_hash hash = true ∧
  (∃ r, server_profiles s !! server_id = Some r
     ∧ sv_trust_level r ∈ ["Limited"; "Trusted"]
     ∧ is_ok (parse_command (sv_command_json r)) = true
     ∧ is_ok (parse_transport (sv_transport r)) = true) ∧
  (∃ t, tool_descriptors s !! (server_id, tool_name) = Some t
     ∧ is_Some (t_approved_at t) ∧ t_descriptor_hash t = hash).
Proof.
  unfold registry_status, get_server, get_pinned_tool_hash, gets. simpl.
  destruct (is_valid_descriptor_hash hash); simpl; [|naive_solver].
  destruct (server_profiles s !! server_id) as [r|]; [|naive_solver].
  unfold stored_profile, parse_trust.
  destruct (parse_command (sv_command_json r)) as [c|] eqn:Hc; simpl;
    [|split; [done|]; intros (_ & (? & [= <-] & _ & E & _) & _); by rewrite Hc in E].
  destruct (parse_transport (sv_transport r)) as [tr|] eqn:Ht; simpl;
    [|split; [done|]; intros (_ & (? & [= <-] & _ & _ & E) & _); by rewrite Ht in E].
  assert ((∃ r0, Some r = Some r0 ∧ sv_trust_level r0 ∈ ["Limited"; "Trusted"]
     ∧ is_ok (parse_command (sv_command_json r0)) = true
     ∧ is_ok (parse_transport (sv_transport r0)) = true)
     ↔ sv_trust_level r ∈ ["Limited"; "Trusted"]) as ->.
  { split; [by intros (? & [= <-] & ? & _)|]. intros ?. exists r. by rewrite Hc, Ht. }
  destruct (String.eqb (sv_trust_level r) "Untrusted") eqn:E1.
  { apply String.eqb_eq in E1. rewrite E1. simpl. split; [done|set_solver]. }
  destruct (String.eqb (sv_trust_level r) "Limited") eqn:E2; simpl.
  2: destruct (String.eqb (sv_trust_level r) "Trusted") eqn:E3; simpl.
  3: { apply String.eqb_neq in E2, E3. split; [done|set_solver]. }
  all: assert (sv_trust_level r ∈ ["Limited"; "Trusted"]) as Hl
    by (bool_to_prop; set_solver).
  all: destruct (tool_descriptors s !! (server_id, tool_name)) as [t|]; [|naive_solver].
  all: destruct (t_approved_at t) as [at_|] eqn:Hat;
    [|split; [done|]; intros (_ & _ & ? & [= <-] & Ha & _); rewrite Hat in Ha;
      by destruct Ha].
  all: destruct (String.eqb (t_descriptor_hash t) hash) eqn:Hh; bool_to_prop;
    [|split; [done|]; intros (_ & _ & ? & [= <-] & _ & ?); done].
  all: split; [|done]; intros _; split_and!; [done|done|]; exists t; by rewrite Hat.
Qed.
End Oracle.
