(* ===== verification/RegistryFacts.v ===== *)
(** * The registry as a state machine

    Every way a row of [server_profiles] or [tool_descriptors] may change, as
    the edges of a step relation labelled by who asked for the change, with the
    invariant of the rows that the edges keep. *)

From S2P Require Import Prelude Types Deps Db Hash Ledger LedgerFacts Registry Secrets.

(** ** Programs over the registry *)

Inductive registry_op :=
| RegisterServer (p : ServerProfile)
| ApproveServer (server_id : string) (level : TrustLevel)
| SetDescriptorHash (server_id hash : string)
| BindSandbox (server_id : string) (profile_id : option string)
| PinTool (now : Z) (server_id tool_name hash : string)
| ApproveTool (now now_ev : Z) (server_id tool_name : string)
| ApproveToolTo (now now_ev : Z) (server_id tool_name new_hash : string)
| RejectTool (now_ev : Z) (server_id tool_name : string)
| CheckCommand (now : Z) (server_id : string) (argv : list string) (hash : string)
| ApproveCommand (now_ev : Z) (server_id : string)
| RejectCommand (now_ev : Z) (server_id : string)
| CheckProgram (server_id path : string)
| ApproveProgram (now_ev : Z) (server_id : string)
| RejectProgram (now_ev : Z) (server_id : string).

(** ** Edges *)

(** What the user decides about a tool, and what the hub merely observes. *)
Inductive tool_act := ToolApproved | ToolApprovedTo (h : string) | ToolObserved.

Inductive tool_edge : tool_act → option ToolRow → option ToolRow → Prop :=
| tool_same a o : tool_edge a o o
| tool_first now h :
    h ≠ "" → tool_edge ToolObserved None (Some (mkToolRow h now None None h now None))
| tool_seen now drift r :
    (t_pending_hash r = None → drift = t_last_drift_at r) →
    (is_Some (t_pending_hash r) → drift = None) →
    tool_edge ToolObserved (Some r)
      (Some (t_set (t_descriptor_hash r) (t_approved_at r) None (t_descriptor_hash r) now
               drift r))
| tool_replaced now h r :
    t_approved_at r = None → h ≠ "" →
    tool_edge ToolObserved (Some r) (Some (t_set h None None h now None r))
| tool_drift now h at_ r :
    is_Some (t_approved_at r) → h ≠ "" → h ≠ t_descriptor_hash r →
    (t_pending_hash r = None → at_ = Some now) →
    (is_Some (t_pending_hash r) → at_ = t_last_drift_at r) →
    tool_edge ToolObserved (Some r)
      (Some (t_set (t_descriptor_hash r) (t_approved_at r) (Some h) h now at_ r))
| tool_approved now r :
    t_approved_at r = None →
    tool_edge ToolApproved (Some r)
      (Some (t_set (t_descriptor_hash r) (Some now) (t_pending_hash r) (t_last_seen_hash r)
               (t_last_seen_at r) (t_last_drift_at r) r))
| tool_approved_to now h r :
    t_pending_hash r = Some h → is_Some (t_approved_at r) →
    tool_edge (ToolApprovedTo h) (Some r)
      (Some (t_set h (Some now) None (t_last_seen_hash r) (t_last_seen_at r) None r))
| tool_rejected r :
    is_Some (t_pending_hash r) →
    tool_edge ToolObserved (Some r)
      (Some (t_set (t_descriptor_hash r) (t_approved_at r) None (t_last_seen_hash r)
               (t_last_seen_at r) None r)).

Inductive server_act := ServerRegistered (p : ServerProfile) | ServerTrusted (l : TrustLevel)
  | CommandApproved | ProgramApproved | ServerObserved.

Section Edges.
Context `{Crates} `{Redaction}.

(** No argument matches a hard-secret rule. *)
Definition argv_clean (argv : list string) : Prop :=
  Forall (λ a, detect_hard_secret a = None) argv.

Inductive server_edge : server_act → option ServerRow → option ServerRow → Prop :=
| server_same a o : server_edge a o o
| server_registered p :
    argv_clean (default [] (sp_command p)) →
    (sp_transport p = TransportKind.Stdio →
       is_Some (sp_command p) ∧ is_Some (sp_command_hash p)) →
    server_edge (ServerRegistered p) None
      (Some (mkServerRow (transport_to_str (sp_transport p)) (argv_to_json <$> sp_command p)
               (sp_url p) (sp_first_seen_at p) (sp_command_hash p) (sp_descriptor_hash p)
               (trust_to_str (sp_trust_level p)) (sp_sandbox_profile_id p)
               None None None None None))
| server_trusted l r :
    server_edge (ServerTrusted l) (Some r) (Some (sv_set_trust (trust_to_str l) r))
| server_described h r : server_edge ServerObserved (Some r) (Some (sv_set_descriptor h r))
| server_sandboxed p r : server_edge ServerObserved (Some r) (Some (sv_set_sandbox p r))
| command_kept r :
    server_edge ServerObserved (Some r)
      (Some (sv_set_command (sv_command_json r) (sv_command_hash r) None None None r))
| command_drifted argv c at_ r :
    sv_command_hash r = Some c → argv_hash argv ≠ c → argv_clean argv →
    (sv_pending_command_hash r = None → is_Some at_) →
    (is_Some (sv_pending_command_hash r) → at_ = sv_last_drift_at r) →
    server_edge ServerObserved (Some r)
      (Some (sv_set_command (sv_command_json r) (sv_command_hash r) (Some (argv_hash argv))
               (Some (argv_to_json argv)) at_ r))
| command_approved r :
    is_Some (sv_pending_command_hash r) →
    server_edge CommandApproved (Some r)
      (Some (sv_set_command (coalesce (sv_pending_command_json r) (sv_command_json r))
               (sv_pending_command_hash r) None None None r))
| program_pinned p r :
    is_Some (sv_command_hash r) → sv_resolved_program_path r = None →
    server_edge ServerObserved (Some r)
      (Some (sv_set_resolved (Some p) (sv_pending_resolved_program_path r) r))
| program_kept r :
    server_edge ServerObserved (Some r)
      (Some (sv_set_resolved (sv_resolved_program_path r) None r))
| program_drifted p q r :
    sv_resolved_program_path r = Some q → q ≠ p →
    server_edge ServerObserved (Some r)
      (Some (sv_set_resolved (sv_resolved_program_path r) (Some p) r))
| program_approved r :
    is_Some (sv_pending_resolved_program_path r) →
    server_edge ProgramApproved (Some r)
      (Some (sv_set_resolved (sv_pending_resolved_program_path r) None r)).

(** ** The operations follow the edges *)

Definition run_registry (s : LedgerState) (op : registry_op) : LedgerState :=
  match op with
  | RegisterServer p => (register_server p s).2
  | ApproveServer id l => (approve_server id l s).2
  | SetDescriptorHash id h => (set_descriptor_hash id h s).2
  | BindSandbox id p => (bind_server_sandbox_profile id p s).2
  | PinTool now id t h => (pin_tool_descriptor now id t h s).2
  | ApproveTool now now_ev id t => (approve_tool_descriptor now now_ev id t s).2
  | ApproveToolTo now now_ev id t h => (approve_tool_descriptor_to now now_ev id t h s).2
  | RejectTool now_ev id t => (reject_tool_descriptor_drift now_ev id t s).2
  | CheckCommand now id argv h => (check_server_command_drift now id argv h s).2
  | ApproveCommand now_ev id => (approve_server_command_drift now_ev id s).2
  | RejectCommand now_ev id => (reject_server_command_drift now_ev id s).2
  | CheckProgram id p => (check_server_resolved_program_drift id p s).2
  | ApproveProgram now_ev id => (approve_server_resolved_program_drift now_ev id s).2
  | RejectProgram now_ev id => (reject_server_resolved_program_drift now_ev id s).2
  end.

(** Whom an operation speaks for, at a row. *)
Definition tool_act_of (op : registry_op) (key : string * string) : tool_act :=
  match op with
  | ApproveTool _ _ id t => if bool_decide (key = (id, t)) then ToolApproved else ToolObserved
  | ApproveToolTo _ _ id t h =>
      if bool_decide (key = (id, t)) then ToolApprovedTo h else ToolObserved
  | _ => ToolObserved
  end.

Definition server_act_of (op : registry_op) (id : string) : server_act :=
  let only (id' : string) a := if bool_decide (id = id') then a else ServerObserved in
  match op with
  | RegisterServer p => only (sp_server_id p) (ServerRegistered p)
  | ApproveServer id' l => only id' (ServerTrusted l)
  | ApproveCommand _ id' => only id' CommandApproved
  | ApproveProgram _ id' => only id' ProgramApproved
  | _ => ServerObserved
  end.

(** What one operation does to both tables. *)
Definition registry_step (op : registry_op) (s s' : LedgerState) : Prop :=
  (∀ key, tool_edge (tool_act_of op key) (tool_descriptors s !! key)
            (tool_descriptors s' !! key)) ∧
  (∀ id, server_edge (server_act_of op id) (server_profiles s !! id)
           (server_profiles s' !! id)).

Lemma registry_step_same op s s' :
  tool_descriptors s' = tool_descriptors s → server_profiles s' = server_profiles s →
  registry_step op s s'.
Proof. intros E1 E2. unfold registry_step. rewrite E1, E2. split; intros; constructor. Qed.

End Edges.

Section Steps.
Context `{CratesLaws} `{Redaction}.

Lemma refuse_secret_argv_clean argv : refuse_secret_argv argv = Ok tt ↔ argv_clean argv.
Proof.
  unfold argv_clean. induction argv as [|a argv IH]; simpl.
  - by split; [constructor|].
  - rewrite Forall_cons, <- IH. by destruct (detect_hard_secret a); split; [|intros []| |intros []].
Qed.

(** An audit append changes neither table. *)
Lemma registry_step_append op s s' now sid et p rt :
  registry_step op s s' →
  registry_step op s (ignore (append_event_internal now sid et p rt) s').2.
Proof.
  intros Hs. unfold ignore.
  append_cases err ev l n f Hlog; exact Hs.
Qed.

Lemma registry_step_tool op s s' key r r' :
  tool_descriptors s !! key = r →
  tool_descriptors s' = <[key := r']> (tool_descriptors s) →
  server_profiles s' = server_profiles s →
  tool_edge (tool_act_of op key) r (Some r') → registry_step op s s'.
Proof.
  intros Hr Ht Hs He. split; intros k; rewrite ?Hs, ?Ht; [|constructor].
  destruct (decide (k = key)) as [->|Hne].
  - by rewrite lookup_insert_eq, Hr.
  - rewrite lookup_insert_ne by done. constructor.
Qed.

Lemma registry_step_server op s s' id r r' :
  server_profiles s !! id = r →
  server_profiles s' = <[id := r']> (server_profiles s) →
  tool_descriptors s' = tool_descriptors s →
  server_edge (server_act_of op id) r (Some r') → registry_step op s s'.
Proof.
  intros Hr Ht Hs He. split; intros k; rewrite ?Hs, ?Ht; [constructor|].
  destruct (decide (k = id)) as [->|Hne].
  - by rewrite lookup_insert_eq, Hr.
  - rewrite lookup_insert_ne by done. constructor.
Qed.

(** An [UPDATE] of one row, and what is done with the row count. *)
Lemma update_tool_then {A} op s key p f (k : Z → LedgerM A) :
  (∀ n s', registry_step op s s' → registry_step op s (k n s').2) →
  (∀ r, tool_descriptors s !! key = Some r → p r = true →
     tool_edge (tool_act_of op key) (Some r) (Some (f r))) →
  registry_step op s ((let! n := update_tool key p f in k n) s).2.
Proof.
  intros Hk Hf. unfold update_tool. run_m.
  destruct (update_where key p f (tool_descriptors s)) as [n m] eqn:E. simpl.
  apply Hk. apply update_where_inv in E as [(-> & r & Hr & Hp & ->)|(-> & -> & _)]; simpl.
  - eapply registry_step_tool; [exact Hr|done|done|auto].
  - by apply registry_step_same.
Qed.

Lemma update_server_then {A} op s id p f (k : Z → LedgerM A) :
  (∀ n s', registry_step op s s' → registry_step op s (k n s').2) →
  (∀ r, server_profiles s !! id = Some r → p r = true →
     server_edge (server_act_of op id) (Some r) (Some (f r))) →
  registry_step op s ((let! n := update_server id p f in k n) s).2.
Proof.
  intros Hk Hf. unfold update_server. run_m.
  destruct (update_where id p f (server_profiles s)) as [n m] eqn:E. simpl.
  apply Hk. apply update_where_inv in E as [(-> & r & Hr & Hp & ->)|(-> & -> & _)]; simpl.
  - eapply registry_step_server; [exact Hr|done|done|auto].
  - by apply registry_step_same.
Qed.

(** [require_changed] and then an audit event. *)
Lemma audited_step op s n reason now sid et p rt s' :
  registry_step op s s' →
  registry_step op s
    ((require_changed n reason ;! ignore (append_event_internal now sid et p rt)) s').2.
Proof.
  intros Hs. unfold require_changed. destruct (n =? 0)%Z; [done|].
  unfold bind, ret. by apply registry_step_append.
Qed.

Lemma required_step op s n reason s' :
  registry_step op s s' → registry_step op s (require_changed n reason s').2.
Proof. unfold require_changed. by destruct (n =? 0)%Z. Qed.

Lemma kept_step {A} op s (r : A) s' :
  registry_step op s s' → registry_step op s ((ret r : LedgerM A) s').2.
Proof. done. Qed.

Lemma register_server_step p s : registry_step (RegisterServer p) s (register_server p s).2.
Proof.
  unfold register_server.
  destruct (_ && _) eqn:Hstdio; [by apply registry_step_same|]. run_m.
  destruct (refuse_secret_argv _) as [[]|e] eqn:Hc; [|by apply registry_step_same].
  destruct (server_profiles s !! sp_server_id p) as [r|] eqn:Hr; simpl.
  { destruct (stored_profile _ r) as [ex|]; simpl; [|by apply registry_step_same].
    destruct (bool_decide (ssp_command_hash _ = _)); by apply registry_step_same. }
  eapply registry_step_server; [exact Hr|done|done|]. simpl.
  rewrite bool_decide_true by done. constructor; [by apply refuse_secret_argv_clean|].
  intros Hst. rewrite bool_decide_true in Hstdio by done. simpl in Hstdio. bool_to_prop.
  split; by apply not_eq_None_Some.
Qed.

Lemma pin_tool_step now id t h s :
  registry_step (PinTool now id t h) s (pin_tool_descriptor now id t h s).2.
Proof.
  unfold pin_tool_descriptor. destruct (Str.is_empty h) eqn:Hh; [by apply registry_step_same|].
  assert (h ≠ "") as Hne by (intros ->; done).
  unfold bind at 1, gets at 1. simpl.
  destruct (tool_descriptors s !! (id, t)) as [r|] eqn:Hr.
  2: { eapply registry_step_tool; [exact Hr|done|done|]. by constructor. }
  destruct (String.eqb (t_descriptor_hash r) h) eqn:E; bool_to_prop; subst.
  - apply update_tool_then; [by intros|]. intros r' Hr' _. rewrite Hr in Hr'. injection Hr' as <-.
    destruct (t_pending_hash r) as [x|] eqn:Hp; apply tool_seen; rewrite Hp; try done;
      by intros [].
  - destruct (t_approved_at r) as [a|] eqn:Ha; apply update_tool_then; try by intros.
    + intros r' Hr' _. rewrite Hr in Hr'. injection Hr' as <-.
      apply tool_drift; try done;
        destruct (t_pending_hash r); try done; by intros [].
    + intros r' Hr' _. rewrite Hr in Hr'. injection Hr' as <-. by apply tool_replaced.
Qed.

Lemma check_command_step now id argv h s :
  registry_step (CheckCommand now id argv h) s (check_server_command_drift now id argv h s).2.
Proof.
  unfold check_server_command_drift.
  destruct (String.eqb (argv_hash argv) h) eqn:Hh; [|by apply registry_step_same]. simpl.
  apply String.eqb_eq in Hh. subst h. unfold bind at 1, lift at 1.
  destruct (refuse_secret_argv argv) as [[]|e] eqn:Hc; [|by apply registry_step_same].
  apply refuse_secret_argv_clean in Hc. unfold bind at 1, gets at 1. simpl.
  destruct (server_profiles s !! id) as [r|] eqn:Hr; [|by apply registry_step_same].
  destruct (sv_command_hash r) as [c|] eqn:Hch; [|by apply registry_step_same].
  destruct (String.eqb c (argv_hash argv)) eqn:E; bool_to_prop.
  - unfold bind at 1. destruct (sv_pending_command_hash r) eqn:Hp;
      [|by apply registry_step_same].
    set (m := bind _ _). assert (registry_step (CheckCommand now id argv (argv_hash argv)) s
      (m s).2) as Hm by (apply update_server_then; [by intros|]; intros; constructor).
    by destruct (m s) as [[[]|] s'].
  - apply update_server_then; [by intros|]. intros r' Hr' _. rewrite Hr in Hr'. injection Hr' as <-.
    eapply command_drifted; [done|congruence|done| |];
      destruct (sv_pending_command_hash r); try done; by intros [].
Qed.

Lemma check_program_step id p s :
  registry_step (CheckProgram id p) s (check_server_resolved_program_drift id p s).2.
Proof.
  unfold check_server_resolved_program_drift. unfold bind at 1, gets at 1. simpl.
  destruct (server_profiles s !! id) as [r|] eqn:Hr; [|by apply registry_step_same].
  destruct (sv_command_hash r) as [c|] eqn:Hch; [|by apply registry_step_same].
  destruct (sv_resolved_program_path r) as [q|] eqn:Hq.
  2: { apply update_server_then; [by intros|]. intros r' Hr' _. rewrite Hr in Hr'. injection Hr' as <-.
       apply program_pinned; [by eexists|done]. }
  destruct (String.eqb q p) eqn:E; bool_to_prop.
  - unfold bind at 1. destruct (sv_pending_resolved_program_path r) eqn:Hp;
      [|by apply registry_step_same].
    set (m := bind _ _). assert (registry_step (CheckProgram id p) s (m s).2) as Hm
      by (apply update_server_then; [by intros|]; intros; constructor).
    by destruct (m s) as [[[]|] s'].
  - apply update_server_then; [by intros|]. intros r' Hr' _. rewrite Hr in Hr'. injection Hr' as <-.
    by eapply program_drifted.
Qed.

Lemma run_registry_step s op : registry_step op s (run_registry s op).
Proof.
  destruct op; simpl; try apply register_server_step; try apply pin_tool_step;
    try apply check_command_step; try apply check_program_step.
  - apply update_server_then; [intros; by apply required_step|]. intros r _ _. simpl.
    rewrite bool_decide_true by done. constructor.
  - apply update_server_then; [intros; by apply required_step|]. intros. constructor.
  - unfold bind_server_sandbox_profile. unfold bind at 1, gets at 1.
    destruct (match profile_id with Some _ => _ | None => _ end); simpl;
      [|by apply registry_step_same].
    apply update_server_then; [intros; by apply required_step|]. intros. constructor.
  - apply update_tool_then; [intros; by apply audited_step|]. intros r _ Hr. simpl.
    rewrite bool_decide_true by done. bool_to_prop. by constructor.
  - apply update_tool_then; [intros; by apply audited_step|]. intros r _ Hr. simpl.
    rewrite bool_decide_true by done. bool_to_prop. constructor; [done|].
    by apply not_eq_None_Some.
  - apply update_tool_then; [intros; by apply audited_step|]. intros r _ Hr.
    bool_to_prop. constructor. by apply not_eq_None_Some.
  - apply update_server_then; [intros; by apply audited_step|]. intros r _ Hr. simpl.
    rewrite bool_decide_true by done. unfold has_pending_command in Hr. bool_to_prop.
    constructor. by apply not_eq_None_Some.
  - apply update_server_then; [intros; by apply audited_step|]. intros. constructor.
  - apply update_server_then; [intros; by apply audited_step|]. intros r _ Hr. simpl.
    rewrite bool_decide_true by done. unfold has_pending_program in Hr. bool_to_prop.
    constructor. by apply not_eq_None_Some.
  - apply update_server_then; [intros; by apply audited_step|]. intros. constructor.
Qed.
End Steps.
