(* ===== verification/RegistryProps.v ===== *)
(** * What the registry guarantees

    A tool or a command is trusted only as the user approved it, and what the
    registry shows is what it approves. *)

From S2P Require Import Prelude Types Deps Concrete Db Hash Ledger LedgerFacts Scorer Registry Oracle RegistryFacts.

(** ** The invariant *)

(** A pending candidate is a change of something approved. *)
Record tool_ok (r : ToolRow) : Prop := {
  to_hash : t_descriptor_hash r ≠ "";
  to_pending : ∀ h, t_pending_hash r = Some h →
    is_Some (t_approved_at r) ∧ h ≠ t_descriptor_hash r ∧ h ≠ ""
    ∧ is_Some (t_last_drift_at r);
  to_settled : t_pending_hash r = None → t_last_drift_at r = None;
  to_first : t_approved_at r = None → t_last_seen_hash r = t_descriptor_hash r;
}.

Section Invariant.
Context `{CratesLaws} `{Redaction}.

(** A column that holds a command holds the text of one without secrets. *)
Definition clean_json (col : option string) : Prop :=
  ∀ j, col = Some j → ∃ argv, j = argv_to_json argv ∧ argv_clean argv.

Record server_ok (r : ServerRow) : Prop := {
  so_kind : ∃ t, sv_transport r = transport_to_str t
    ∧ (t = TransportKind.Stdio → is_Some (sv_command_json r) ∧ is_Some (sv_command_hash r));
  so_trust : ∃ l, sv_trust_level r = trust_to_str l;
  so_command_clean : clean_json (sv_command_json r);
  so_drifted : ∀ h, sv_pending_command_hash r = Some h →
    ∃ argv, h = argv_hash argv ∧ sv_pending_command_json r = Some (argv_to_json argv)
      ∧ argv_clean argv ∧ is_Some (sv_command_hash r) ∧ sv_command_hash r ≠ Some h
      ∧ is_Some (sv_last_drift_at r);
  so_undrifted : sv_pending_command_hash r = None →
    sv_pending_command_json r = None ∧ sv_last_drift_at r = None;
  so_program : ∀ p, sv_pending_resolved_program_path r = Some p →
    is_Some (sv_resolved_program_path r) ∧ sv_resolved_program_path r ≠ Some p;
}.

Definition registry_inv (s : LedgerState) : Prop :=
  map_Forall (λ _, tool_ok) (tool_descriptors s) ∧
  map_Forall (λ _, server_ok) (server_profiles s).

Lemma tool_edge_ok a o r' :
  tool_edge a o (Some r') → (∀ r, o = Some r → tool_ok r) → tool_ok r'.
Proof.
  intros He Ho. remember (Some r') as o' eqn:Eo.
  destruct He as [a o|now h Hh|now drift r Hd1 Hd2|now h r Ha Hh|now h at_ r Ha Hh Hne Hd1 Hd2
    |now r Ha|now h r Hp Ha|r Hp]; simplify_eq; [by apply Ho| |..].
  { by split. }
  all: destruct (Ho r eq_refl) as [Ht1 Ht2 Ht3 Ht4].
  - split; simpl; try done. intros _. destruct (t_pending_hash r) eqn:Ep.
    + apply Hd2. by eexists.
    + rewrite Hd1 by done. by apply Ht3.
  - by split.
  - split; simpl; try done.
    + intros ? [= <-]. split_and!; try done. destruct (t_pending_hash r) eqn:Ep.
      * rewrite Hd2 by (by eexists). destruct (Ht2 _ eq_refl) as (_ & _ & _ & ?). done.
      * rewrite Hd1 by done. by eexists.
    + intros En. rewrite En in Ha. by destruct Ha.
  - split; simpl; try done. intros h Ep. destruct (Ht2 h Ep) as ([x Ex] & _). congruence.
  - destruct (Ht2 h Hp) as (_ & _ & ? & _). by split.
  - by split.
Qed.

Lemma server_edge_ok a o r' :
  server_edge a o (Some r') → (∀ r, o = Some r → server_ok r) → server_ok r'.
Proof.
  intros He Ho. remember (Some r') as o' eqn:Eo.
  destruct He as [a o|p Hc Hst|l r|h r|p r|r|argv c at_ r Hch Hne Hcl Hd1 Hd2|r Hp
    |p r Hch Hr|r|p q r Hq Hne|r Hp]; simplify_eq; [by apply Ho| |..].
  { split; simpl; try done; [|by eexists|].
    - exists (sp_transport p). split; [done|]. intros E. destruct (Hst E) as [[? ->] ?].
      split; [by eexists|done].
    - intros j Ej. destruct (sp_command p) as [argv|]; simplify_eq/=. by exists argv. }
  all: destruct (Ho r eq_refl) as [(t & Ht1 & Ht2) Hl Hc1 Hc2 Hc3 Hpr].
  - split; simpl; try done; eauto.
  - split; simpl; try done; eauto.
  - split; simpl; try done; eauto.
  - split; simpl; try done; eauto.
  - split; simpl; try done; eauto.
    intros h [= <-]. exists argv. rewrite Hch. split_and!; try done; [congruence|].
    destruct (sv_pending_command_hash r) eqn:Ep.
    + rewrite Hd2 by (by eexists). destruct (Hc2 _ eq_refl) as (? & _ & _ & _ & _ & _ & ?).
      done.
    + by apply Hd1.
  - destruct Hp as [h Hp]. destruct (Hc2 h Hp) as (argv & -> & Ej & Hcl & _).
    rewrite Ej, Hp. split; simpl; try done; eauto.
    intros j [= <-]. by exists argv.
  - split; simpl; try done; eauto. intros p' Ep. destruct (Hpr p' Ep) as [[x Ex] _].
    congruence.
  - split; simpl; try done; eauto.
  - split; simpl; try done; eauto. intros p' [= <-]. rewrite Hq. split; [by eexists|congruence].
  - split; simpl; try done; eauto.
Qed.

Lemma run_registry_inv s op : registry_inv s → registry_inv (run_registry s op).
Proof.
  intros [Ht Hs]. destruct (run_registry_step s op) as [Et Es]. split.
  - intros key r' Hr'. specialize (Et key). rewrite Hr' in Et.
    eapply tool_edge_ok; [exact Et|]. intros r. apply Ht.
  - intros id r' Hr'. specialize (Es id). rewrite Hr' in Es.
    eapply server_edge_ok; [exact Es|]. intros r. apply Hs.
Qed.

Lemma registry_inv_empty s :
  tool_descriptors s = ∅ → server_profiles s = ∅ → registry_inv s.
Proof. intros E1 E2. split; rewrite ?E1, ?E2; apply map_Forall_empty. Qed.

(** Every registry a program can build is well formed, whatever the
    operations and their arguments: a tool's pending hash is a change of an
    approved one, dated; a server's pending command is the text of the very argv
    whose hash is pending, and differs from the approved one; and no stored
    command, approved or pending, holds a hard secret. *)
Theorem registry_well_formed ops s0 :
  registry_inv s0 → registry_inv (foldl run_registry s0 ops).
Proof.
  intros Hi. apply (run_keeps run_registry registry_inv (λ _, True)); [|by apply Forall_true|done].
  intros s op _. apply run_registry_inv.
Qed.
End Invariant.

(** ** Where trust comes from *)

Section Trust.
Context `{CratesLaws} `{Redaction}.

Definition tool_pinned (server_id tool_name h : string) (s : LedgerState) : Prop :=
  ∃ t, tool_descriptors s !! (server_id, tool_name) = Some t
    ∧ is_Some (t_approved_at t) ∧ t_descriptor_hash t = h.

Definition server_trusted (server_id : string) (s : LedgerState) : Prop :=
  ∃ r, server_profiles s !! server_id = Some r
    ∧ sv_trust_level r ∈ ["Limited"; "Trusted"].

(** The operation is the user's approval of this hash for this tool: of the
    first hash seen, or of the hash that drifted. *)
Definition approves_tool (server_id tool_name h : string) (s : LedgerState)
    (op : registry_op) : Prop :=
  match op with
  | ApproveTool _ _ id t =>
      id = server_id ∧ t = tool_name ∧ ∃ r, tool_descriptors s !! (id, t) = Some r
        ∧ t_approved_at r = None ∧ t_descriptor_hash r = h
  | ApproveToolTo _ _ id t h' =>
      id = server_id ∧ t = tool_name ∧ h' = h
      ∧ ∃ r, tool_descriptors s !! (id, t) = Some r ∧ t_pending_hash r = Some h
  | _ => False
  end.

(** The operation gives the server a trust level of at least [Limited]. *)
Definition trusts_server (server_id : string) (op : registry_op) : Prop :=
  match op with
  | RegisterServer p => sp_server_id p = server_id ∧ sp_trust_level p ≠ TrustLevel.Untrusted
  | ApproveServer id l => id = server_id ∧ l ≠ TrustLevel.Untrusted
  | _ => False
  end.

Lemma tool_pinned_step id t h s op :
  tool_pinned id t h (run_registry s op) → tool_pinned id t h s ∨ approves_tool id t h s op.
Proof.
  intros (r' & Hr' & Ha & Hh). destruct (run_registry_step s op) as [Et _].
  specialize (Et (id, t)). rewrite Hr' in Et. unfold tool_pinned.
  remember (Some r') as o' eqn:Eo. remember (tool_act_of op (id, t)) as a eqn:Ea.
  remember (tool_descriptors s !! (id, t)) as o eqn:Er.
  destruct Et as [a o|now h' ?|now drift r Hd1 Hd2|now h' r ?|now h' at_ r ?|now r Hn
    |now h' r Hp ?|r ?]; simplify_eq/=; try (by destruct Ha); eauto 10.
  - right. destruct op; simplify_eq/=; try (by case_bool_decide); case_bool_decide; simplify_eq.
    split_and!; eauto.
  - right. destruct op; simplify_eq/=; try (by case_bool_decide); case_bool_decide; simplify_eq.
    split_and!; eauto.
Qed.

Lemma trust_level_text l : trust_to_str l ∈ ["Limited"; "Trusted"] → l ≠ TrustLevel.Untrusted.
Proof. intros Hl ->. simpl in Hl. set_solver. Qed.

Lemma server_trusted_step id s op :
  server_trusted id (run_registry s op) → server_trusted id s ∨ trusts_server id op.
Proof.
  intros (r' & Hr' & Hl). destruct (run_registry_step s op) as [_ Es].
  specialize (Es id). rewrite Hr' in Es. unfold server_trusted.
  remember (Some r') as o' eqn:Eo. remember (server_act_of op id) as a eqn:Ea.
  remember (server_profiles s !! id) as o eqn:Er.
  destruct Es as [a o|p Hc Hst|l r|h r|p r|r|argv c at_ r Hch Hne Hcl Hd1 Hd2|r Hp
    |p r Hch Hr|r|p q r Hq Hne|r Hp]; simplify_eq/=; eauto 10.
  - right. apply trust_level_text in Hl.
    destruct op; simplify_eq/=; try done; case_bool_decide; simplify_eq. done.
  - right. apply trust_level_text in Hl.
    destruct op; simplify_eq/=; try done; case_bool_decide; simplify_eq. done.
Qed.

(** C40. Trust is never inferred. Starting from an empty registry, whatever is
    registered, seen, drifted or rejected, the oracle answers [ApprovedStable]
    for a descriptor hash only if it is a SHA-256 digest in hexadecimal, the user
    approved that very hash for that tool of that server, and the server was
    given a trust level of at least [Limited]. *)
Theorem approved_stable_was_approved ops s0 server_id tool_name h :
  tool_descriptors s0 = ∅ → server_profiles s0 = ∅ →
  status (DescriptorOracle := RegistryDescriptorOracle) (foldl run_registry s0 ops)
    server_id tool_name h = DescriptorStatus.ApprovedStable →
  (String.length h = 64%nat ∧ Str.all Str.is_ascii_hexdigit h = true) ∧
  (∃ ops1 op ops2, ops = ops1 ++ op :: ops2 ∧
     approves_tool server_id tool_name h (foldl run_registry s0 ops1) op) ∧
  (∃ ops1 op ops2, ops = ops1 ++ op :: ops2 ∧ trusts_server server_id op).
Proof.
  intros Et Es Hst. simpl in Hst. apply approved_stable_iff in Hst as (Hv & Hs & Ht).
  unfold is_valid_descriptor_hash in Hv. split_and!.
  - apply andb_true_iff in Hv as [Hv _]. by apply Nat.eqb_eq.
  - by apply andb_true_iff in Hv as [_ Hv].
  - apply (run_history run_registry (tool_pinned server_id tool_name h)
             (approves_tool server_id tool_name h) s0 ops).
    + intros s op. apply tool_pinned_step.
    + intros (t & E & _). by rewrite Et in E.
    + done.
  - apply (run_history run_registry (server_trusted server_id)
             (λ _ op, trusts_server server_id op) s0 ops).
    + intros s op. apply server_trusted_step.
    + intros (t & E & _). by rewrite Es in E.
    + destruct Hs as (r & Hr & Hl & _). by exists r.
Qed.

(** ** What may be spawned *)

(** A registration that gives the hash of the command it registers. *)
Definition faithful_registration (op : registry_op) : Prop :=
  match op with
  | RegisterServer p => sp_command_hash p = argv_hash <$> sp_command p
  | _ => True
  end.

(** The approved hash is the hash of the approved command. *)
Definition command_ok (r : ServerRow) : Prop :=
  ∀ h, sv_command_hash r = Some h →
    ∃ argv, sv_command_json r = Some (argv_to_json argv) ∧ h = argv_hash argv.

Definition commands_ok (s : LedgerState) : Prop :=
  registry_inv s ∧ map_Forall (λ _, command_ok) (server_profiles s).

Lemma commands_ok_step s op :
  faithful_registration op → commands_ok s → commands_ok (run_registry s op).
Proof.
  intros Hf [Hi Hc]. split; [by apply run_registry_inv|]. intros id r' Hr'.
  destruct (run_registry_step s op) as [_ Es]. specialize (Es id). rewrite Hr' in Es.
  remember (Some r') as o' eqn:Eo. remember (server_act_of op id) as a eqn:Ea.
  remember (server_profiles s !! id) as o eqn:Er.
  destruct Es as [a o|p Hcl Hst|l r|h r|p r|r|argv c at_ r Hch Hne Hcl Hd1 Hd2|r Hp
    |p r Hch Hr|r|p q r Hq Hne|r Hp]; simplify_eq/=; try (by apply (Hc id));
    try exact (Hc id r (eq_sym Er)); try exact (Hc id r Er).
  - destruct op; simplify_eq/=; try done; try (by case_bool_decide). case_bool_decide; simplify_eq.
    intros h. simpl. rewrite Hf. destruct (sp_command _) as [argv|]; [|done]. simpl.
    intros [= <-]. by exists argv.
  - destruct Hi as [_ Hs]. symmetry in Er. destruct (Hs id r Er) as [_ _ _ Hpend _ _].
    intros h Eh. simpl in Eh. destruct (Hpend h Eh) as (argv & -> & Ej & _).
    exists argv. simpl. by rewrite Ej.
Qed.

(** The command the user sees is the command that may run. In any registry
    built by programs that register commands with their own hashes, a server that
    has an approved command hash shows the argv with that hash; and before a
    spawn, [check_server_command_drift] lets an argv through exactly when it has
    that hash, reports any other as drift from it, and in every case leaves the
    approved command unchanged. *)
Theorem approved_command_is_the_one_shown ops s0 id r h :
  commands_ok s0 → Forall faithful_registration ops →
  server_profiles (foldl run_registry s0 ops) !! id = Some r → sv_command_hash r = Some h →
  let s := foldl run_registry s0 ops in
  ∃ argv p, get_server id s = (Ok (Some p), s)
    ∧ ssp_command p = Some argv ∧ ssp_command_hash p = Some (argv_hash argv)
    ∧ ∀ now argv', argv_clean argv' →
        let '(res, s') := check_server_command_drift now id argv' (argv_hash argv') s in
        res = Ok (if String.eqb (argv_hash argv) (argv_hash argv') then None
                  else Some (mkCommandDrift (argv_hash argv) (argv_hash argv')))
        ∧ ∃ r', server_profiles s' !! id = Some r' ∧ sv_command_hash r' = Some h
            ∧ sv_command_json r' = Some (argv_to_json argv).
Proof.
  intros H0' Hf Hr Hh s.
  assert (commands_ok s) as [[_ Hs] Hc]
    by (apply (run_keeps run_registry commands_ok faithful_registration s0 ops);
        eauto using commands_ok_step).
  fold s in Hr. destruct (Hc id r Hr h Hh) as (argv & Ej & ->).
  destruct (Hs id r Hr) as [(t & Et & _) [l El] _ _ _ _].
  eexists argv, _. split_and!.
  - unfold get_server, stored_profile, parse_command. rewrite Hr, Ej. simpl.
    rewrite argv_roundtrip, Et, El. simpl. by destruct t, l.
  - done.
  - simpl. done.
  - intros now argv' Hcl. unfold check_server_command_drift.
    rewrite String.eqb_refl. simpl. unfold bind at 1, lift at 1.
    apply refuse_secret_argv_clean in Hcl. rewrite Hcl. unfold bind at 1, gets at 1. simpl.
    rewrite Hr, Hh. destruct (String.eqb (argv_hash argv) (argv_hash argv')).
    + unfold update_server. destruct (sv_pending_command_hash r); run_m.
      * rewrite (update_where_hit _ _ _ _ r) by done. simpl. split; [done|].
        rewrite lookup_insert_eq. by eexists.
      * split; [done|]. by exists r.
    + unfold update_server. run_m. rewrite (update_where_hit _ _ _ _ r) by done. simpl.
      split; [done|]. rewrite lookup_insert_eq. by eexists.
Qed.

(** ** Where pins move *)

Definition command_pin (id : string) (s : LedgerState) : option string :=
  server_profiles s !! id ≫= sv_command_hash.

Definition program_pin (id : string) (s : LedgerState) : option string :=
  server_profiles s !! id ≫= sv_resolved_program_path.

(** The one row [id], in one step. *)
Lemma pins_step id s op :
  let s' := run_registry s op in
  (command_pin id s' = command_pin id s
   ∨ (server_profiles s !! id = None ∧ ∃ p, op = RegisterServer p ∧ sp_server_id p = id)
   ∨ (∃ now h, op = ApproveCommand now id ∧ command_pin id s' = Some h
        ∧ (server_profiles s !! id ≫= sv_pending_command_hash) = Some h)) ∧
  (program_pin id s' = program_pin id s
   ∨ (program_pin id s = None ∧ ∃ p, program_pin id s' = Some p)
   ∨ (∃ now p, op = ApproveProgram now id ∧ program_pin id s' = Some p
        ∧ (server_profiles s !! id ≫= sv_pending_resolved_program_path) = Some p)).
Proof.
  simpl. destruct (run_registry_step s op) as [_ Es]. specialize (Es id).
  unfold command_pin, program_pin.
  remember (server_profiles (run_registry s op) !! id) as o' eqn:Er'.
  remember (server_act_of op id) as a eqn:Ea.
  remember (server_profiles s !! id) as o eqn:Er.
  destruct Es as [a o|p Hcl Hst|l r|h r|p r|r|argv c at_ r Hch Hne Hcl Hd1 Hd2|r [h Hp]
    |p r Hch Hr|r|p q r Hq Hne|r [h Hp]]; simpl; split; try (by left); right.
  - left. split; [done|]. destruct op; simplify_eq/=; try done; case_bool_decide; simplify_eq.
    by eexists.
  - right. destruct op; simplify_eq/=; try done; case_bool_decide; simplify_eq. by do 2 eexists.
  - left. split; [done|]. by eexists.
  - right. destruct op; simplify_eq/=; try done; case_bool_decide; simplify_eq. by do 2 eexists.
Qed.

(** An approved pin moves only by approval. Once a server has an approved
    command hash, a program over the registry that does not contain
    [approve_server_command_drift] for it leaves the hash as it was; once the
    program it resolves to is pinned, a program without
    [approve_server_resolved_program_drift] for it leaves the path as it was. *)
Theorem pins_move_only_by_approval ops s id :
  (∀ h, command_pin id s = Some h →
     (∀ now, ApproveCommand now id ∉ ops) → command_pin id (foldl run_registry s ops) = Some h) ∧
  (∀ p, program_pin id s = Some p →
     (∀ now, ApproveProgram now id ∉ ops) → program_pin id (foldl run_registry s ops) = Some p).
Proof.
  split.
  - revert s. induction ops as [|op ops IH]; intros s h Hp Hn; [done|]. simpl. apply IH.
    2: { intros now Hin. apply (Hn now). by right. }
    destruct (pins_step id s op) as [[E|[[Hnone _]|(now & h' & -> & _)]] _].
    + congruence.
    + unfold command_pin in Hp. by rewrite Hnone in Hp.
    + exfalso. apply (Hn now). by left.
  - revert s. induction ops as [|op ops IH]; intros s p Hp Hn; [done|]. simpl. apply IH.
    2: { intros now Hin. apply (Hn now). by right. }
    destruct (pins_step id s op) as [_ [E|[[Hnone _]|(now & h' & -> & _)]]].
    + congruence.
    + congruence.
    + exfalso. apply (Hn now). by left.
Qed.
End Trust.

(** ** A first approval names no hash

    [approve_tool_descriptor] approves the hash the row holds when it runs: if a
    new descriptor is pinned after the user was shown the card, it is the new one
    that becomes trusted. *)
Lemma first_approval_takes_latest `{CratesLaws} `{Redaction} s id t r h2 now1 now2 now_ev :
  tool_descriptors s !! (id, t) = Some r → t_approved_at r = None →
  t_descriptor_hash r ≠ h2 → h2 ≠ "" →
  tool_pinned id t h2
    (foldl run_registry s [PinTool now1 id t h2; ApproveTool now2 now_ev id t]).
Proof.
  intros Hr Ha Hne Hh. simpl.
  assert (tool_descriptors (pin_tool_descriptor now1 id t h2 s).2 !! (id, t)
          = Some (t_set h2 None None h2 now1 None r)) as E.
  { unfold pin_tool_descriptor, update_tool. apply String.eqb_neq in Hh, Hne.
    unfold Str.is_empty. rewrite Hh. run_m. rewrite Hr, Hne, Ha. simpl.
    rewrite (update_where_hit _ _ _ _ r) by done. simpl. by rewrite lookup_insert_eq. }
  unfold approve_tool_descriptor, update_tool. run_m.
  rewrite (update_where_hit _ _ _ _ _ E) by done. simpl.
  append_cases err ev l n f Hlog; unfold tool_pinned; simpl; rewrite lookup_insert_eq;
    eexists; split_and!; try done.
Qed.

(** ** Witnesses *)

Import Toy.

Definition sample_hash : string :=
  "0123456789abcdef0123456789abcdef0123456789abcdef0123456789abcdef".

Definition sample_server : ServerProfile :=
  mkServerProfile "srv" TransportKind.Stdio (Some ["npx"; "fs"]) None 1
    (Some (argv_hash ["npx"; "fs"])) None TrustLevel.Untrusted None.

Definition sample_registry : list registry_op :=
  [RegisterServer sample_server; PinTool 2 "srv" "read" sample_hash;
   ApproveServer "srv" TrustLevel.Limited; ApproveTool 3 3 "srv" "read";
   PinTool 4 "srv" "read" "ffff"; RejectTool 5 "srv" "read";
   CheckCommand 6 "srv" ["npx"; "evil"] (argv_hash ["npx"; "evil"]);
   RejectCommand 7 "srv"; CheckProgram "srv" "/usr/bin/npx"].

Lemma registry_well_formed_witness : registry_inv (foldl run_registry empty_ledger sample_registry).
Proof. apply registry_well_formed. by apply registry_inv_empty. Defined.

Lemma approved_stable_was_approved_witness :
  ∃ op, op ∈ sample_registry ∧ trusts_server "srv" op.
Proof.
  assert (status (DescriptorOracle := RegistryDescriptorOracle)
    (foldl run_registry empty_ledger sample_registry) "srv" "read" sample_hash
    = DescriptorStatus.ApprovedStable) as Hst by (vm_compute; reflexivity).
  destruct (approved_stable_was_approved sample_registry empty_ledger "srv" "read"
    sample_hash eq_refl eq_refl Hst) as (_ & _ & ops1 & op & ops2 & E & Ht).
  exists op. split; [|exact Ht]. rewrite E. apply elem_of_app. right. by left.
Defined.

Lemma approved_command_is_the_one_shown_witness :
  ∃ argv p, get_server "srv" (foldl run_registry empty_ledger sample_registry)
    = (Ok (Some p), foldl run_registry empty_ledger sample_registry)
    ∧ ssp_command p = Some argv.
Proof.
  destruct (server_profiles (foldl run_registry empty_ledger sample_registry) !! "srv")
    as [r|] eqn:Er; [|vm_compute in Er; discriminate].
  destruct (sv_command_hash r) as [h|] eqn:Eh.
  2: { vm_compute in Er. injection Er as <-. vm_compute in Eh. discriminate. }
  destruct (approved_command_is_the_one_shown sample_registry empty_ledger "srv" r h)
    as (argv & p & E & Ec & _).
  - split; [by apply registry_inv_empty|apply map_Forall_empty].
  - unfold sample_registry. repeat constructor.
  - exact Er.
  - exact Eh.
  - exists argv, p. by split.
Defined.

Lemma pins_move_only_by_approval_witness :
  program_pin "srv" (foldl run_registry (foldl run_registry empty_ledger sample_registry)
    [CheckProgram "srv" "/tmp/npx"; CheckProgram "srv" "/tmp/npx2"; RejectProgram 9 "srv"])
  = Some "/usr/bin/npx".
Proof.
  apply pins_move_only_by_approval; [vm_compute; reflexivity|].
  intros now Hin. repeat (apply elem_of_cons in Hin as [Hin|Hin]; [discriminate Hin|]).
  by apply elem_of_nil in Hin.
Defined.
