(* ===== verification/Checkpoint.v ===== *)
(** * Checkpoints outside the database

    [src/crates/vigil-audit/src/checkpoint.rs]: a sidecar file, apart from the
    database, to which the head of the log is appended now and then; a log is
    compared with it to detect a consistent rewrite of the whole chain. The file
    is [None] when it does not exist and its text (valid UTF-8) otherwise; a
    partial write is any prefix of the text that was to be added. *)

From stdpp Require Import pretty.
From S2P Require Import Prelude Text Types Deps Concrete Db Hash Ledger LedgerFacts.

Record Checkpoint := mkCheckpoint {
  cp_event_id : Z;
  cp_event_hash : string;
  cp_prev_hash : string;
  cp_session_id : string;
  cp_event_type : string;
  cp_created_at : Z;
  cp_anchored_at : Z;
}.

Module Anchored.
Inductive Anchored :=
| Verified (checkpoints : nat) (through_event_id : Z)
| Unanchored.
End Anchored.
Abbreviation Anchored := Anchored.Anchored.

Definition Sidecar : Type := option string.

(** The serialisation serde derives for [Checkpoint]: one line of JSON, control
    characters escaped. *)
Class CheckpointText := {
  checkpoint_to_json : Checkpoint → string;
  checkpoint_from_json : string → option Checkpoint;
}.


Definition no_break (a : ascii) : bool :=
  negb (Ascii.eqb a newline) && negb (Ascii.eqb a carriage_return).

Class CheckpointTextLaws `{CheckpointText} : Prop := {
  checkpoint_roundtrip c : checkpoint_from_json (checkpoint_to_json c) = Some c;
  checkpoint_one_line c :
    checkpoint_to_json c ≠ "" ∧ Str.all no_break (checkpoint_to_json c) = true;
}.

(** [s.len() == 64 && s.bytes().all(|b| b.is_ascii_digit() || (b'a'..=b'f').contains(&b))] *)
Definition is_valid_event_hash (s : string) : bool :=
  (String.length s =? 64)%nat && Str.all Str.is_hex_lower s.

Definition corrupt {A} (reason : string) : result AuditError A :=
  Err (AuditError.CheckpointStoreCorrupt reason).

Section Checkpoint.
Context `{Crates} `{CheckpointText}.

(** The loop of [load], from line [lineno] on. *)
Fixpoint load_lines (lineno : nat) (last_id : option Z) (ls : list string)
    : result AuditError (list Checkpoint) :=
  match ls with
  | [] => Ok []
  | line :: rest =>
      let at_line reason := corrupt (reason +:+ pretty lineno) in
      if Str.is_empty line then corrupt ("empty line " +:+ pretty lineno)
      else
        let? cp := ok_or (checkpoint_from_json line)
          (AuditError.CheckpointStoreCorrupt ("malformed checkpoint at line " +:+ pretty lineno)) in
        if negb (is_valid_event_hash (cp_event_hash cp)) then
          at_line "invalid event_hash at line "
        else if negb (Str.is_empty (cp_prev_hash cp))
                && negb (is_valid_event_hash (cp_prev_hash cp)) then
          at_line "invalid prev_hash at line "
        else if (cp_event_id cp <=? 0)%Z then at_line "non-positive event_id at line "
        else if match last_id with
                | Some prev => (cp_event_id cp <=? prev)%Z
                | None => false
                end then
          corrupt ("non-monotonic event_id at line " +:+ pretty lineno +:+ " (<= previous)")
        else
          let? out := load_lines (S lineno) (Some (cp_event_id cp)) rest in
          Ok (cp :: out)
  end.

Definition load (file : Sidecar) : result AuditError (list Checkpoint) :=
  match file with
  | None => Ok []
  | Some content =>
      if Str.is_empty content then Ok []
      else if negb (Str.ends_with newline_str content) then
        corrupt "unterminated final line (partial write?)"
      else load_lines 1 None (lines content)
  end.

Definition checkpoint_of (now : Z) (head : EventDetailRow) : Checkpoint :=
  mkCheckpoint (ed_event_id head) (ed_event_hash head) (ed_prev_hash head)
    (ed_session_id head) (ed_event_type head) (ed_created_at head) now.

(** [emit], on the file; [s] is the ledger, which it only reads. *)
Definition emit (now : Z) (s : LedgerState) : M Sidecar AuditError (option Checkpoint) :=
  let! head := lift (head_detail s).1 in
  match head with
  | None => ret None
  | Some head =>
      let! existing := (λ file, (load file, file)) in
      if match last existing with
         | Some l => (ed_event_id head <=? cp_event_id l)%Z
         | None => false
         end then ret None
      else
        let cp := checkpoint_of now head in
        modify (λ file, Some (default "" file +:+ checkpoint_to_json cp +:+ newline_str)) ;!
        ret (Some cp)
  end.

Definition anchors (row : EventDetailRow) (cp : Checkpoint) : bool :=
  String.eqb (ed_event_hash row) (cp_event_hash cp)
  && String.eqb (ed_prev_hash row) (cp_prev_hash cp)
  && String.eqb (ed_session_id row) (cp_session_id cp)
  && String.eqb (ed_event_type row) (cp_event_type cp)
  && (ed_created_at row =? cp_created_at cp)%Z.

(** The loop of [verify_anchored]. *)
Fixpoint check_anchors (cps : list Checkpoint) (through : Z) : LedgerM Z :=
  match cps with
  | [] => ret through
  | cp :: rest =>
      let! row := get_event_detail (cp_event_id cp) in
      match row with
      | None => throw (AuditError.CheckpointMismatch (cp_event_id cp))
      | Some row =>
          if negb (anchors row cp) then throw (AuditError.CheckpointMismatch (cp_event_id cp))
          else check_anchors rest (Z.max through (cp_event_id cp))
      end
  end.

Definition verify_anchored (file : Sidecar) : LedgerM Anchored :=
  verify_chain ;!
  let! checkpoints := lift (load file) in
  match checkpoints with
  | [] => ret Anchored.Unanchored
  | _ =>
      let! through := check_anchors checkpoints 0 in
      ret (Anchored.Verified (length checkpoints) through)
  end.
End Checkpoint.
