(* ===== verification/CheckpointProps.v ===== *)
(** * What the checkpoints guarantee

    A log that passes [verify_anchored] has not been rewritten up to the last
    anchor; a log that only grew always passes; a torn write is noticed. *)

From S2P Require Import Prelude Text Types Deps Concrete Db Hash Ledger LedgerFacts LedgerProps Checkpoint.

(** ** Lines *)

Definition whole_lines (f : string) : Prop := f = "" ∨ Str.ends_with newline_str f = true.

Lemma whole_lines_tail a f : whole_lines (String a f) → whole_lines f ∧ (f = "" → a = newline).
Proof.
  intros [?|Hf]; [done|]. apply Str.ends_with_spec in Hf as [t Ht].
  destruct t as [|b t].
  - injection Ht as -> ->. by split; [left|].
  - rewrite Str.append_cons in Ht. injection Ht as _ ->. split.
    + right. apply Str.ends_with_spec. by exists t.
    + by destruct t.
Qed.

Lemma lines_nonempty s : s ≠ "" → lines s ≠ [].
Proof.
  induction s as [|a s IH]; [done|]. intros _. cbn [lines]. destruct (Ascii.eqb a newline); [done|].
  destruct (Ascii.eqb a carriage_return && Str.starts_with newline_str s) eqn:E.
  - apply IH. intros ->. by rewrite andb_false_r in E.
  - by destruct (lines s).
Qed.

Lemma lines_app f g : whole_lines f → lines (f +:+ g) = lines f ++ lines g.
Proof.
  induction f as [|a f IH]; [done|]. intros [Hw Ha]%whole_lines_tail.
  rewrite Str.append_cons. cbn [lines]. rewrite IH by done.
  destruct (Ascii.eqb a newline) eqn:E; [done|].
  destruct f as [|b f]; [by rewrite Ha in E|].
  assert (Str.starts_with newline_str (String b f +:+ g) = Str.starts_with newline_str (String b f)) as ->
    by (by rewrite Str.append_cons).
  destruct (Ascii.eqb a carriage_return && _); [done|].
  destruct (lines (String b f)) as [|l ls] eqn:Es; [|done].
  by destruct (lines_nonempty (String b f)).
Qed.

Lemma lines_one line :
  Str.all no_break line = true → lines (line +:+ newline_str) = [line].
Proof.
  induction line as [|a s IH]; [done|]. rewrite Str.append_cons. cbn [lines Str.all].
  intros [Ha Hs]%andb_true_iff. rewrite IH by done.
  unfold no_break in Ha. apply andb_true_iff in Ha as [Hn Hc].
  apply negb_true_iff in Hn, Hc. by rewrite Hn, Hc.
Qed.

(** A record appended to a file of whole records is one more line of it. *)
Lemma lines_append f line :
  whole_lines f → Str.all no_break line = true →
  lines (f +:+ line +:+ newline_str) = lines f ++ [line].
Proof. intros Hf Hl. by rewrite lines_app, lines_one. Qed.

Lemma take_no_break n line :
  Str.all no_break line = true → Str.all no_break (Str.take n (line +:+ newline_str)) = true ∨
    (String.length line < n)%nat.
Proof.
  revert n; induction line as [|a s IH]; intros n; simpl.
  - intros _. destruct n as [|n]; [by left|right; lia].
  - intros [Ha Hs]%andb_true_iff. destruct n as [|n]; [by left|]. simpl.
    destruct (IH n Hs) as [E|E]; [left|right; lia]. by rewrite Ha, E.
Qed.

Lemma ends_with_newline_append f s :
  s ≠ "" → Str.all no_break s = true → Str.ends_with newline_str (f +:+ s) = false.
Proof.
  intros Hne Hs. apply not_true_iff_false. rewrite Str.ends_with_spec. intros [t Ht].
  revert t Ht. induction f as [|a f IH]; intros t Ht.
  - change (s = t +:+ newline_str) in Ht. rewrite Ht, Str.all_append, andb_true_iff in Hs.
    by destruct Hs.
  - destruct t as [|b t]; rewrite ?Str.append_cons in Ht; simplify_eq/=; [|by eapply IH].
    by destruct f, s.
Qed.

(** ** Loading *)

Section Load.
Context `{CratesLaws} `{CheckpointTextLaws} `{Redaction}.

Definition cp_valid (cp : Checkpoint) : Prop :=
  is_valid_event_hash (cp_event_hash cp) = true ∧
  (cp_prev_hash cp = "" ∨ is_valid_event_hash (cp_prev_hash cp) = true) ∧
  (0 < cp_event_id cp)%Z.

Definition last_id (prev : option Z) (cps : list Checkpoint) : option Z :=
  match last cps with
  | Some cp => Some (cp_event_id cp)
  | None => prev
  end.

Lemma last_id_cons prev cp cps : last_id prev (cp :: cps) = last_id (Some (cp_event_id cp)) cps.
Proof. unfold last_id. rewrite last_cons. by destruct (last cps). Qed.

Lemma load_lines_snoc n prev ls cps cp :
  load_lines n prev ls = Ok cps → cp_valid cp →
  (∀ i, last_id prev cps = Some i → (i < cp_event_id cp)%Z) →
  load_lines n prev (ls ++ [checkpoint_to_json cp]) = Ok (cps ++ [cp]).
Proof.
  revert n prev cps. induction ls as [|l ls IH]; intros n prev cps; simpl.
  - intros [= <-] (Hh & Hp & Hi) Hlast. destruct (checkpoint_one_line cp) as [Hne _].
    apply String.eqb_neq in Hne. unfold Str.is_empty. rewrite Hne, checkpoint_roundtrip. simpl.
    rewrite Hh. simpl.
    assert (negb (String.eqb (cp_prev_hash cp) "") && negb (is_valid_event_hash (cp_prev_hash cp))
            = false) as ->.
    { destruct Hp as [->| ->]; [done|]. by rewrite andb_false_r. }
    rewrite (proj2 (Z.leb_gt _ _)) by lia.
    destruct prev as [i|]; [|done]. specialize (Hlast i eq_refl).
    by rewrite (proj2 (Z.leb_gt _ _)).
  - intros E Hv Hlast. destruct (Str.is_empty l); [done|].
    destruct (checkpoint_from_json l) as [c|]; [|done]. simpl in *.
    repeat (match type of E with (if ?b then _ else _) = _ => destruct b; [done|] end).
    destruct (load_lines (S n) _ ls) as [out|] eqn:El; [|done]. simpl in *. simplify_eq.
    rewrite (IH (S n) _ out); [done|done|done|].
    intros i. rewrite <- (last_id_cons prev c out). apply Hlast.
Qed.

(** The ids of a file grow. *)
Lemma load_lines_grow n prev ls cps :
  load_lines n prev ls = Ok cps →
  Forall (λ c, ∀ i, last_id prev cps = Some i → (cp_event_id c ≤ i)%Z) cps ∧
  (∀ p i, prev = Some p → last_id prev cps = Some i → (p ≤ i)%Z).
Proof.
  revert n prev cps. induction ls as [|l ls IH]; intros n prev cps; simpl.
  - intros [= <-]. split; [constructor|]. unfold last_id. simpl. intros. simplify_eq. lia.
  - intros E. destruct (Str.is_empty l); [done|].
    destruct (checkpoint_from_json l) as [c|]; [|done]. simpl in *.
    do 3 (match type of E with (if ?b then _ else _) = _ => destruct b; [done|] end).
    destruct (match prev with Some _ => _ | None => _ end) eqn:Hp; [done|].
    destruct (load_lines (S n) _ ls) as [out|] eqn:El; [|done]. simpl in *. simplify_eq.
    destruct (IH _ _ _ El) as [Hf Hi]. rewrite last_id_cons. split.
    + constructor; [|done]. intros i Hl. by eapply Hi.
    + intros p i -> Hl. apply Z.leb_gt in Hp. specialize (Hi _ _ eq_refl Hl). lia.
Qed.

Lemma load_file_lines f cps :
  load (Some f) = Ok cps → whole_lines f ∧ load_lines 1 None (lines f) = Ok cps.
Proof.
  simpl. destruct (Str.is_empty f) eqn:E.
  - apply Str.is_empty_spec in E. subst f. intros [= <-]. by split; [left|].
  - destruct (Str.ends_with newline_str f) eqn:Ew; simpl; [|done]. intros Hl.
    split; [by right|done].
Qed.

Lemma load_append file cps cp :
  load file = Ok cps → cp_valid cp →
  (∀ l, last cps = Some l → (cp_event_id l < cp_event_id cp)%Z) →
  load (Some (default "" file +:+ checkpoint_to_json cp +:+ newline_str)) = Ok (cps ++ [cp]).
Proof.
  intros Hl Hv Hlast. destruct (checkpoint_one_line cp) as [Hne Hone].
  assert (load (Some (default "" file)) = Ok cps) as Hl' by (destruct file; [done|exact Hl]).
  apply load_file_lines in Hl' as [Hw Hls]. set (f := default "" file) in *.
  assert (Str.ends_with newline_str (f +:+ checkpoint_to_json cp +:+ newline_str) = true) as He.
  { apply Str.ends_with_spec. exists (f +:+ checkpoint_to_json cp). apply Str.append_assoc. }
  unfold load. rewrite He. destruct (Str.is_empty _) eqn:E.
  { apply Str.is_empty_spec in E. rewrite E in He. done. }
  simpl. rewrite lines_append by done. apply load_lines_snoc; [done..|].
  intros i. unfold last_id. destruct (last cps) as [l|]; [|done]. intros [= <-]. by apply Hlast.
Qed.
End Load.

(** ** Anchors and the log *)

Section Anchors.
Context `{CratesLaws} `{CheckpointTextLaws} `{Redaction}.
Implicit Types (s : LedgerState) (e : EventRow) (cp : Checkpoint).

(** The checkpoint is of this row. *)
Definition anchors_row e cp : Prop :=
  e_event_id e = cp_event_id cp ∧ e_event_hash e = cp_event_hash cp ∧
  e_prev_hash e = cp_prev_hash cp ∧ e_session_id e = cp_session_id cp ∧
  e_event_type e = cp_event_type cp ∧ e_created_at e = cp_created_at cp.

Lemma event_by_id_split i l e :
  event_by_id i l = Some e → e_event_id e = i ∧ ∃ l1 l2, l = l1 ++ e :: l2.
Proof.
  unfold event_by_id. intros E. destruct (find_some _ _ E) as [Hin Hi].
  split; [by apply Z.eqb_eq|]. apply list_elem_of_In, list_elem_of_split in Hin. done.
Qed.

Lemma event_by_id_app i l1 l2 e : event_by_id i l1 = Some e → event_by_id i (l1 ++ l2) = Some e.
Proof.
  unfold event_by_id. induction l1 as [|x l1 IH]; simpl; [done|].
  by destruct (e_event_id x =? i)%Z.
Qed.

Lemma event_by_id_last l e :
  Sort.Sorted Z.ltb (e_event_id <$> l ++ [e]) → event_by_id (e_event_id e) (l ++ [e]) = Some e.
Proof.
  unfold event_by_id. induction l as [|x l IH]; simpl; [by rewrite Z.eqb_refl|].
  intros Hs. inversion_clear Hs as [|? ? Hs' Hf].
  assert (e_event_id x < e_event_id e)%Z as Hlt.
  { rewrite fmap_app in Hf. apply Forall_app in Hf as [_ Hf]. simpl in Hf.
    apply Forall_cons in Hf as [Hf _]. by apply Z.ltb_lt. }
  rewrite (proj2 (Z.eqb_neq _ _)) by lia. by apply IH.
Qed.

Lemma verified_hash_valid prev v l :
  verify_rows prev v l = Ok tt → Forall (λ e, is_valid_event_hash (e_event_hash e) = true) l.
Proof.
  revert prev v. induction l as [|e l IH]; intros prev v; [constructor|].
  rewrite verify_rows_cons. intros (_ & _ & (p & Hj & Hr) & Hl). constructor; [|by eapply IH].
  destruct (recompute_preimage e p _ Hj Hr) as (t & _ & ->).
  unfold is_valid_event_hash. by rewrite digest_length, hex_lower.
Qed.

Lemma verified_prev_valid l e l2 :
  verify_rows "" 1 (l ++ e :: l2) = Ok tt →
  e_prev_hash e = "" ∨ is_valid_event_hash (e_prev_hash e) = true.
Proof.
  intros Hv. pose proof (verified_hash_valid _ _ _ Hv) as Hh.
  apply verify_rows_app in Hv as [_ Hv]. apply verify_rows_cons in Hv as (-> & _).
  unfold end_hash, last_hash. destruct l as [|x l _] using rev_ind; [by left|right].
  rewrite last_snoc. simpl. apply Forall_app in Hh as [Hh _].
  apply Forall_app in Hh as [_ Hh]. by apply Forall_cons in Hh as [? _].
Qed.

Lemma row_detail_verified prev v l1 e l2 :
  verify_rows prev v (l1 ++ e :: l2) = Ok tt →
  ∃ p, row_detail (Some e) = Ok (Some (detail e p)).
Proof.
  rewrite verify_rows_app, verify_rows_cons. intros (_ & _ & _ & (p & Hj & _) & _).
  exists p. unfold row_detail. by rewrite Hj.
Qed.

(** The loop accepts anchors exactly when each is of a row of the log. *)
Lemma check_anchors_ok cps through s :
  (verify_chain s).1 = Ok tt →
  Forall (λ cp, ∃ e, event_by_id (cp_event_id cp) (events s) = Some e ∧ anchors_row e cp) cps →
  check_anchors cps through s = (Ok (foldl Z.max through (cp_event_id <$> cps)), s).
Proof.
  simpl. intros Hv Hf. revert through. induction Hf as [|cp cps (e & He & Ha) Hf IH];
    intros through; [done|]. simpl. unfold bind at 1. unfold get_event_detail. rewrite He.
  destruct (event_by_id_split _ _ _ He) as (_ & l1 & l2 & El). rewrite El in Hv.
  destruct (row_detail_verified _ _ _ _ _ Hv) as [p ->].
  destruct Ha as (A1 & A2 & A3 & A4 & A5 & A6).
  assert (anchors (detail e p) cp = true) as ->.
  { unfold anchors. simpl. rewrite A2, A3, A4, A5, A6, !String.eqb_refl. simpl.
    by rewrite Z.eqb_refl. }
  simpl. apply IH.
Qed.

Lemma check_anchors_inv cps through s r :
  (check_anchors cps through s).1 = Ok r →
  Forall (λ cp, ∃ e, event_by_id (cp_event_id cp) (events s) = Some e ∧ anchors_row e cp) cps.
Proof.
  revert through. induction cps as [|cp cps IH]; intros through; simpl; [constructor|].
  unfold bind at 1. unfold get_event_detail.
  destruct (event_by_id (cp_event_id cp) (events s)) as [e|] eqn:He; simpl; [|done].
  destruct (json_from_str (e_payload_json e)) as [p|]; simpl; [|done].
  destruct (anchors (detail e p) cp) eqn:Ha; simpl; [|done]. intros E.
  constructor; [|by eapply IH]. exists e. split; [done|].
  destruct (event_by_id_split _ _ _ He) as (Hi & _).
  unfold anchors in Ha. simpl in Ha. bool_to_prop. split_and!; try done. by apply Z.eqb_eq.
Qed.

(** Every anchor of the file is of a row of the log. *)
Definition sidecar_ok (file : Sidecar) s : Prop :=
  ∃ cps, load file = Ok cps ∧
    Forall (λ cp, ∃ e, event_by_id (cp_event_id cp) (events s) = Some e ∧ anchors_row e cp) cps.

Lemma sidecar_ok_grow file s s' : log_step s s' → sidecar_ok file s → sidecar_ok file s'.
Proof.
  intros [_ [l El]] (cps & Hl & Hf). exists cps. split; [done|].
  eapply Forall_impl; [exact Hf|]. intros cp (e & He & Ha). exists e.
  rewrite El. split; [by apply event_by_id_app|done].
Qed.

Lemma verify_anchored_ok file s cps :
  (verify_chain s).1 = Ok tt → load file = Ok cps →
  Forall (λ cp, ∃ e, event_by_id (cp_event_id cp) (events s) = Some e ∧ anchors_row e cp) cps →
  verify_anchored file s =
    (Ok (match cps with
         | [] => Anchored.Unanchored
         | _ => Anchored.Verified (length cps) (foldl Z.max 0%Z (cp_event_id <$> cps))
         end), s).
Proof.
  intros Hv Hl Hf. unfold verify_anchored. simpl in Hv. unfold verify_chain.
  unfold bind at 1. rewrite Hv. unfold bind at 1, lift. rewrite Hl.
  destruct cps as [|cp cps]; [done|].
  unfold bind. by rewrite check_anchors_ok.
Qed.

(** What [emit] does on a good ledger and a good file. *)
Lemma emit_spec now s file cps :
  log_inv s → load file = Ok cps →
  (∃ r, emit now s file = (Ok r, file) ∧ r = None) ∨
  (∃ l e cp, events s = l ++ [e] ∧ anchors_row e cp ∧ cp_valid cp ∧
     (∀ c, last cps = Some c → (cp_event_id c < cp_event_id cp)%Z) ∧
     emit now s file =
       (Ok (Some cp), Some (default "" file +:+ checkpoint_to_json cp +:+ newline_str))).
Proof.
  intros Hi Hl. unfold emit, head_detail. cbn [fst].
  destruct (events s) as [|e l _] eqn:El using rev_ind; [left; by eexists|].
  rewrite last_snoc. pose proof (li_chain _ Hi) as Hv. rewrite El in Hv.
  destruct (row_detail_verified _ _ l e [] Hv) as [p ->].
  unfold bind, lift. rewrite Hl. simpl (ed_event_id _).
  destruct (match last cps with Some _ => _ | None => _ end) eqn:Hc; [left; by eexists|right].
  exists l, e, (checkpoint_of now (detail e p)). split_and!.
  - done.
  - by unfold anchors_row.
  - unfold cp_valid. simpl. pose proof (verified_hash_valid _ _ _ Hv) as Hh.
    apply Forall_app in Hh as [_ Hh]. apply Forall_cons in Hh as [Hh _].
    split_and!; [done|by eapply verified_prev_valid|].
    destruct (li_seq _ Hi) as [_ Hs]. rewrite El in Hs. apply Forall_app in Hs as [_ Hs].
    apply Forall_cons in Hs as [Hs _]. lia.
  - intros c Hlast. rewrite Hlast in Hc. simpl in *. by apply Z.leb_gt in Hc.
  - reflexivity.
Qed.

Lemma foldl_max_last n ids i :
  (∀ x, x ∈ ids → (x < i)%Z) → (n ≤ i)%Z → foldl Z.max n (ids ++ [i]) = i.
Proof.
  intros Hx. rewrite foldl_snoc. intros Hn.
  assert (foldl Z.max n ids ≤ i)%Z; [|lia].
  revert n Hn. induction ids as [|x ids IH]; intros n Hn; simpl; [done|].
  apply IH; [set_solver|]. specialize (Hx x). assert (x < i)%Z by set_solver. lia.
Qed.

(** Any part of a record but the whole of it is refused. *)
Lemma torn_write_fails file cp n :
  (0 < n)%nat → (n < String.length (checkpoint_to_json cp +:+ newline_str))%nat →
  is_ok (load (Some (default "" file +:+ Str.take n (checkpoint_to_json cp +:+ newline_str))))
  = false.
Proof.
  intros Hn Hlen. destruct (checkpoint_one_line cp) as [Hne Hone].
  rewrite Str.length_append in Hlen. simpl in Hlen.
  set (line := checkpoint_to_json cp) in *. set (part := Str.take n _).
  assert (part ≠ "") as Hp.
  { unfold part. destruct line, n; simpl; try done; lia. }
  assert (Str.all no_break part = true) as Hb.
  { destruct (take_no_break n line Hone); [done|lia]. }
  unfold load. rewrite ends_with_newline_append by done.
  destruct (Str.is_empty _) eqn:E; [|done].
  apply Str.is_empty_spec, Str.append_eq_nil in E as [_ E]. done.
Qed.

(** Anchoring a ledger raises no alarm. On a ledger with its invariant and a
    sidecar whose anchors are rows of it, [emit] succeeds; if it writes, the new
    sidecar loads and, for this ledger and every later one that only appended,
    [verify_anchored] answers [Verified] through the head that was anchored; if
    it writes nothing, the sidecar is unchanged. A torn write, any part of the
    record but not all of it, makes the sidecar fail to load. *)
Theorem anchoring_raises_no_alarm now s file :
  log_inv s → sidecar_ok file s →
  ∃ r file', emit now s file = (Ok r, file') ∧ sidecar_ok file' s ∧
    (r = None → file' = file) ∧
    ∀ cp, r = Some cp → last (e_event_id <$> events s) = Some (cp_event_id cp) ∧
      ∀ s', log_step s s' →
        ∃ n, verify_anchored file' s' = (Ok (Anchored.Verified n (cp_event_id cp)), s')
      ∧ ∃ line, file' = Some (default "" file +:+ line) ∧
          ∀ k, (0 < k < String.length line)%nat →
            is_ok (load (Some (default "" file +:+ Str.take k line))) = false.
Proof.
  intros Hi (cps & Hl & Hf).
  destruct (emit_spec now s file cps Hi Hl)
    as [(r & E & ->)|(l & e & cp & El & Ha & Hv & Hlast & E)].
  { exists None, file. split_and!; [done|by exists cps|done|done]. }
  set (file' := Some (default "" file +:+ checkpoint_to_json cp +:+ newline_str)) in E.
  exists (Some cp), file'.
  assert (load file' = Ok (cps ++ [cp])) as Hl' by (by apply load_append).
  assert (Forall (λ c, ∃ e, event_by_id (cp_event_id c) (events s) = Some e ∧ anchors_row e c)
            (cps ++ [cp])) as Hf'.
  { apply Forall_app. split; [done|]. constructor; [|done]. exists e. split; [|done].
    rewrite <- (proj1 Ha), El. apply event_by_id_last. rewrite <- El. apply (li_ids _ Hi). }
  split_and!; [done|by eexists|done|]. intros ? [= <-]. split.
  { rewrite El, fmap_app. simpl. rewrite last_snoc. by rewrite (proj1 Ha). }
  intros s' Hs'. destruct (sidecar_ok_grow file' s s' Hs') as (cps' & E' & Hf2); [by eexists|].
  rewrite Hl' in E'. injection E' as <-.
  exists (length (cps ++ [cp])). split.
  2: { eexists. split; [reflexivity|]. intros k [Hk1 Hk2]. by apply torn_write_fails. }
  rewrite (verify_anchored_ok file' s' (cps ++ [cp])); try done.
  - destruct (cps ++ [cp]) as [|c rest] eqn:Ec; [by destruct cps|]. rewrite <- Ec.
    rewrite fmap_app. simpl. rewrite foldl_max_last; [done| |].
    + intros x (c' & -> & Hc')%list_elem_of_fmap.
      destruct (last cps) as [lc|] eqn:Elc; [|by apply last_None in Elc as ->; set_solver].
      specialize (Hlast lc eq_refl).
      assert (load (Some (default "" file)) = Ok cps) as Hl2 by (by destruct file).
      apply load_file_lines in Hl2 as [_ Hl2]. apply load_lines_grow in Hl2 as [Hg _].
      rewrite Forall_forall in Hg. specialize (Hg c' Hc' (cp_event_id lc)).
      unfold last_id in Hg. rewrite Elc in Hg. specialize (Hg eq_refl). lia.
    + destruct Hv as (_ & _ & ?). lia.
  - destruct Hs' as [Hk _]. apply (li_chain _ (Hk Hi)).
Qed.

(** C38. A rewritten history does not verify. If the head of a ledger was anchored,
    and a later database, however it was changed, passes [verify_anchored] with a
    sidecar that still holds that anchor, then the later log begins with the
    anchored one: row by row, up to the anchored event, it agrees on every field
    the digests bind, provided SHA-256 has no collision among the texts hashed. *)
Theorem anchored_history_is_original s0 s file cps cp l0 e0 r :
  (verify_chain s0).1 = Ok tt → events s0 = l0 ++ [e0] → anchors_row e0 cp →
  load file = Ok cps → cp ∈ cps → (verify_anchored file s).1 = Ok r →
  Forall row_fits (events s0) → Forall row_fits (events s) →
  collision_free (omap row_preimage (events s0 ++ events s)) →
  ∃ l1 e l2, events s = l1 ++ e :: l2 ∧ e_event_id e = cp_event_id cp ∧
    bound_fields <$> (l1 ++ [e]) = bound_fields <$> events s0.
Proof.
  intros Hv0 E0 Ha0 Hl Hcp Hv F0 F1 HC. unfold verify_anchored, verify_chain in Hv.
  unfold bind at 1 in Hv. simpl in Hv0.
  destruct (verify_rows "" 1 (events s)) as [[]|err] eqn:Hc; [|done].
  unfold bind at 1, lift in Hv. rewrite Hl in Hv.
  assert (∃ t, (check_anchors cps 0 s).1 = Ok t) as [t Ht].
  { destruct cps as [|c cps']; [by apply elem_of_nil in Hcp|].
    unfold bind in Hv. destruct (check_anchors (c :: cps') 0 s) as [[t|] s']; [|done].
    by exists t. }
  apply check_anchors_inv in Ht. rewrite Forall_forall in Ht.
  destruct (Ht cp Hcp) as (e & He & Ha). destruct (event_by_id_split _ _ _ He) as (Hi & l1 & l2 & El).
  exists l1, e, l2. split_and!; [done|done|].
  rewrite El in Hc, F1, HC. change (e :: l2) with ([e] ++ l2) in Hc, F1, HC.
  rewrite app_assoc in Hc, F1, HC.
  apply verify_rows_app in Hc as [Hc _]. apply Forall_app in F1 as [F1 _].
  apply verified_agree; try done.
  - eapply collision_free_sub; [|exact HC]. rewrite !omap_app. set_solver.
  - rewrite E0. unfold last_hash. rewrite !last_snoc. simpl.
    destruct Ha as (_ & -> & _), Ha0 as (_ & -> & _). done.
Qed.
End Anchors.

(** ** Witnesses *)

Section Toy.
Import Toy.

Definition cp_value (c : Checkpoint) : Value :=
  JArr [JNum (cp_event_id c); JStr (cp_event_hash c); JStr (cp_prev_hash c);
        JStr (cp_session_id c); JStr (cp_event_type c); JNum (cp_created_at c);
        JNum (cp_anchored_at c)].

Definition value_cp (v : Value) : option Checkpoint :=
  match v with
  | JArr [JNum i; JStr h; JStr p; JStr sid; JStr et; JNum c; JNum a] =>
      Some (mkCheckpoint i h p sid et c a)
  | _ => None
  end.

#[local] Instance toy_checkpoint_text : CheckpointText := {
  checkpoint_to_json c := to_hex (to_text (cp_value c));
  checkpoint_from_json s := t ← of_hex s; v ← of_text t; value_cp v;
}.

Lemma hex_no_break s : Str.all no_break (to_hex s) = true.
Proof.
  pose proof (to_hex_lower s) as Hs. induction (to_hex s) as [|a t IH]; [done|].
  simpl in *. apply andb_true_iff in Hs as [Ha Hs]. rewrite (IH Hs), andb_true_r.
  unfold no_break. destruct (Ascii.eqb_spec a newline) as [->|_]; [done|].
  by destruct (Ascii.eqb_spec a carriage_return) as [->|_].
Qed.

#[local] Instance toy_checkpoint_laws : CheckpointTextLaws.
Proof.
  split; intros c; unfold checkpoint_from_json, checkpoint_to_json, toy_checkpoint_text.
  - rewrite of_hex_to_hex. change ((v ← of_text (to_text (cp_value c)); value_cp v) = Some c).
    rewrite of_text_to_text. by destruct c.
  - split; [done|apply hex_no_break].
Qed.

Lemma sample_log_inv : log_inv sample_log.
Proof.
  unfold sample_log. apply (append_event_step 7 "s1"), (append_event_step 5 "s1").
  exact log_inv_empty.
Qed.

Lemma anchoring_raises_no_alarm_witness :
  ∃ r file', emit 10 sample_log None = (Ok r, file') ∧ sidecar_ok file' sample_log.
Proof.
  destruct (anchoring_raises_no_alarm 10 sample_log None) as (r & file' & E & Hok & _).
  - exact sample_log_inv.
  - exists []. split; [done|constructor].
  - exists r, file'. split; [exact E|exact Hok].
Defined.

(** The sample log anchored at its head, and its events under other row ids
    with the anchor's id kept: the prefix is the same history. *)
Definition sample_later : LedgerState :=
  (append_event 9 "s2" "note" (JStr "later") None sample_log).2.

Definition sample_head : EventRow :=
  default (mkEventRow 0 "" "" "" None "" "" 0 0) (last (events sample_log)).

Definition sample_cp : Checkpoint :=
  match (emit 10 sample_log None).1 with
  | Ok (Some cp) => cp
  | _ => mkCheckpoint 0 "" "" "" "" 0 0
  end.

Lemma anchored_history_is_original_witness :
  ∃ l1 e l2, events sample_later = l1 ++ e :: l2 ∧ e_event_id e = 2%Z ∧
    bound_fields <$> (l1 ++ [e]) = bound_fields <$> events sample_log.
Proof.
  change 2%Z with (cp_event_id sample_cp).
  apply (anchored_history_is_original sample_log sample_later (emit 10 sample_log None).2
           [sample_cp] sample_cp (take 1 (events sample_log)) sample_head
           (Anchored.Verified 1 2)).
  - vm_compute; reflexivity.
  - vm_compute; reflexivity.
  - vm_compute. repeat split.
  - vm_compute; reflexivity.
  - by left.
  - vm_compute; reflexivity.
  - apply row_fits_check. vm_compute; reflexivity.
  - apply row_fits_check. vm_compute; reflexivity.
  - apply collision_free_check. vm_compute; reflexivity.
Defined.
End Toy.
