(* ===== verification/Namespace.v ===== *)
(** * Tool names and the tool router

    [src/crates/vigil-mcp/src/namespace.rs]: the public name
    [<server_id>__<tool>] an agent sees, and the table that maps it back to the
    server and the tool it stands for. *)

From S2P Require Import Prelude.

Module NamespaceError.
Inductive NamespaceError :=
| InvalidServerId (server_id : string)
| InvalidPublicName (public : string)
| Duplicate (public : string).
End NamespaceError.
Abbreviation NamespaceError := NamespaceError.NamespaceError.

Record ToolRoute := mkToolRoute {
  rt_public : string;
  rt_server_id : string;
  rt_upstream_tool_name : string;
  rt_descriptor_hash : string;
}.

(** The class [[a-z0-9_-]] *)
Definition server_id_char (a : ascii) : bool :=
  Str.is_ascii_lower a || Str.is_ascii_digit a || Ascii.eqb a "_" || Ascii.eqb a "-".

(** [SERVER_ID_RE]: [^[a-z0-9_-]+$] *)
Definition SERVER_ID_RE (s : string) : bool :=
  negb (Str.is_empty s) && Str.all server_id_char s.

Definition validate_server_id (server_id : string) : result NamespaceError unit :=
  if SERVER_ID_RE server_id then Ok tt else Err (NamespaceError.InvalidServerId server_id).

Definition make_public (server_id tool : string) : result NamespaceError string :=
  let? _ := validate_server_id server_id in
  Ok (server_id +:+ "__" +:+ tool).

Definition parse_public (public : string) : result NamespaceError (string * string) :=
  let? idx := ok_or (Str.find "__" public) (NamespaceError.InvalidPublicName public) in
  if (idx =? 0)%nat || (String.length public <=? idx + 2)%nat then
    Err (NamespaceError.InvalidPublicName public)
  else Ok (Str.take idx public, Str.drop 2 (Str.drop idx public)).

(** [ToolRouter], its map from the public name. *)
Abbreviation ToolRouter := (gmap string ToolRoute).

Definition register (server_id tool_name descriptor_hash : string)
    : M ToolRouter NamespaceError string :=
  let! public := lift (make_public server_id tool_name) in
  let! existing := gets (λ by_public : ToolRouter, by_public !! public) in
  if match existing with
     | Some e => negb (String.eqb (rt_server_id e) server_id)
                 || negb (String.eqb (rt_upstream_tool_name e) tool_name)
     | None => false
     end then throw (NamespaceError.Duplicate public)
  else
    modify (<[public := mkToolRoute public server_id tool_name descriptor_hash]>) ;!
    ret public.

Definition resolve (rt : ToolRouter) (public : string) : option ToolRoute := rt !! public.

Definition public_names (rt : ToolRouter) : list string :=
  Sort.sort Str.leb ((map_to_list rt).*1).

Definition router_len (rt : ToolRouter) : nat := size rt.

Definition router_is_empty (rt : ToolRouter) : bool := (size rt =? 0)%nat.

Definition unregister_server (server_id : string) (rt : ToolRouter) : ToolRouter :=
  filter (λ kv, rt_server_id kv.2 ≠ server_id) rt.

(** ** Names *)

Lemma find_append p s : is_Some (Str.find p (s +:+ p)).
Proof.
  induction s as [|a s IH].
  - change ("" +:+ p) with p. assert (Str.starts_with p p = true) as E.
    { apply Str.starts_with_spec. exists "". by rewrite Str.append_nil_r. }
    destruct p; [by eexists|]. cbn [Str.find]. rewrite E. by eexists.
  - rewrite Str.append_cons. cbn [Str.find].
    destruct (Str.starts_with p (String a (s +:+ p))); [by eexists|].
    destruct IH as [n ->]. by eexists.
Qed.

Lemma starts_with_take_drop p s :
  Str.starts_with p s = true → Str.take (String.length p) s = p.
Proof. intros [t ->]%Str.starts_with_spec. apply Str.take_length_append. Qed.

(** The separator is where it was put, unless the server id hides one: by
    holding [__], or by ending in [_]. *)
Lemma find_sep s t :
  Str.find "__" (s +:+ "__" +:+ t) = Some (String.length s) ↔ Str.find "__" (s +:+ "_") = None.
Proof.
  induction s as [|a s IH].
  - split; [done|]. intros _. cbn. done.
  - rewrite !(Str.append_cons a s). cbn [Str.find].
    assert (Str.starts_with "__" (String a (s +:+ "__" +:+ t))
            = Str.starts_with "__" (String a (s +:+ "_"))) as ->.
    { cbn [Str.starts_with]. f_equal. by destruct s. }
    destruct (Str.starts_with "__" (String a (s +:+ "_"))); [by split|].
    cbn [String.length]. rewrite fmap_None, <- IH. split.
    + destruct (Str.find "__" (s +:+ "__" +:+ t)); [|done]. cbn. intros [= ->]. done.
    + by intros ->.
Qed.

(** The server id read from a public name, and the tool. *)
Lemma split_at_sep s t :
  Str.take (String.length s) (s +:+ "__" +:+ t) = s ∧
  Str.drop 2 (Str.drop (String.length s) (s +:+ "__" +:+ t)) = t.
Proof. rewrite Str.take_length_append, Str.drop_length_append. by split. Qed.

Lemma validate_ok server_id :
  validate_server_id server_id = Ok tt ↔ server_id ≠ "" ∧ Str.all server_id_char server_id = true.
Proof.
  unfold validate_server_id, SERVER_ID_RE, Str.is_empty.
  destruct (String.eqb_spec server_id "") as [->|Hne]; [naive_solver|]. simpl.
  destruct (Str.all server_id_char server_id); naive_solver.
Qed.

(** When a public name reads back. The name made for a server and a tool
    parses to that server and that tool exactly when the tool's name is not
    empty and the server id neither contains two underscores in a row nor ends in
    an underscore; the id's syntax admits both, and then the name denotes another
    pair or none. A refused id makes no name. *)
Theorem public_name_roundtrip server_id tool :
  match make_public server_id tool with
  | Ok public =>
      parse_public public = Ok (server_id, tool) ↔
        tool ≠ "" ∧ Str.find "__" (server_id +:+ "_") = None
  | Err e => e = NamespaceError.InvalidServerId server_id ∧
      (server_id = "" ∨ Str.all server_id_char server_id = false)
  end.
Proof.
  unfold make_public. destruct (validate_server_id server_id) as [[]|e] eqn:Hv; simpl.
  - apply validate_ok in Hv as [Hne _]. unfold parse_public.
    assert (0 < String.length server_id)%nat as Hlen by (destruct server_id; [done|simpl; lia]).
    assert (Str.find "__" (server_id +:+ "__" +:+ tool) ≠ None) as Hf.
    { assert (∀ s, Str.find "__" (s +:+ "__" +:+ tool) ≠ None) as Hs; [|apply Hs].
      induction s as [|a s IH]; [done|]. rewrite (Str.append_cons a s). cbn [Str.find].
      case_match; [done|]. by destruct (Str.find "__" (s +:+ "__" +:+ tool)). }
    destruct (Str.find "__" (server_id +:+ "__" +:+ tool)) as [idx|] eqn:Hidx; [|done].
    cbn [res_bind ok_or]. rewrite <- find_sep with (t := tool), Hidx.
    rewrite !Str.length_append. cbn [String.length]. split.
    + destruct (_ || _) eqn:Hc; [done|]. apply orb_false_iff in Hc as [Hc1 Hc2].
      apply Nat.eqb_neq in Hc1. apply Nat.leb_gt in Hc2. intros [= E1 E2].
      assert (idx = String.length server_id) as ->.
      { rewrite <- E1, Str.length_take; [done|]. rewrite !Str.length_append. simpl. lia. }
      split; [|done]. intros ->. simpl in *. lia.
    + intros [Ht [= ->]]. destruct (split_at_sep server_id tool) as [-> ->].
      assert (0 < String.length tool)%nat by (destruct tool; [done|simpl; lia]).
      rewrite (proj2 (Nat.eqb_neq _ _)), (proj2 (Nat.leb_gt _ _)) by lia. done.
  - unfold validate_server_id, SERVER_ID_RE, Str.is_empty in Hv.
    destruct (String.eqb_spec server_id "") as [->|Hne]; simpl in Hv; [naive_solver|].
    destruct (Str.all server_id_char server_id); naive_solver.
Qed.

(** ** The router *)

(** A row is filed under the name of the pair it stands for. *)
Definition router_inv (rt : ToolRouter) : Prop :=
  map_Forall (λ p r, rt_public r = p ∧
    make_public (rt_server_id r) (rt_upstream_tool_name r) = Ok p) rt.

Inductive router_op :=
| Register (server_id tool_name descriptor_hash : string)
| UnregisterServer (server_id : string).

Definition run_router (rt : ToolRouter) (op : router_op) : ToolRouter :=
  match op with
  | Register sid t h => (register sid t h rt).2
  | UnregisterServer sid => unregister_server sid rt
  end.

(** [register], case by case. *)
Lemma register_spec sid t h rt :
  match make_public sid t with
  | Err e => register sid t h rt = (Err e, rt)
  | Ok p =>
      (∃ r, rt !! p = Some r ∧ (rt_server_id r, rt_upstream_tool_name r) ≠ (sid, t)
         ∧ register sid t h rt = (Err (NamespaceError.Duplicate p), rt)) ∨
      ((∀ r, rt !! p = Some r → (rt_server_id r, rt_upstream_tool_name r) = (sid, t))
       ∧ register sid t h rt = (Ok p, <[p := mkToolRoute p sid t h]> rt))
  end.
Proof.
  unfold register, bind, lift, gets, throw, modify, ret.
  destruct (make_public sid t) as [p|e]; [|done].
  destruct (rt !! p) as [r|] eqn:Hr; [|right; by split].
  destruct (negb _ || negb _) eqn:Hc.
  - left. exists r. split; [done|]. split; [|done].
    intros [= E1 E2]. rewrite E1, E2, !String.eqb_refl in Hc. done.
  - right. split; [|done]. intros r' [= <-]. bool_to_prop. congruence.
Qed.

Lemma run_router_inv rt op : router_inv rt → router_inv (run_router rt op).
Proof.
  intros Hi. destruct op as [sid t h|sid]; simpl.
  - pose proof (register_spec sid t h rt) as Hs.
    destruct (make_public sid t) as [p|e] eqn:Hp; [|by rewrite Hs].
    destruct Hs as [(r & _ & _ & ->)|(_ & ->)]; [done|]. simpl.
    apply map_Forall_insert_2; [by split|done].
  - intros p r Hr. apply map_lookup_filter_Some in Hr as [Hr _]. by apply Hi.
Qed.

(** A public name never changes hands. Whatever is registered after, with
    whatever server ids and tool names, a name that resolves to a tool of a
    server keeps resolving to that tool of that server until the server is
    unregistered; a name is always that of the pair it resolves to; and a
    registration that succeeds resolves at once to the pair and the hash given. *)
Theorem router_never_reroutes ops rt p r :
  router_inv rt → resolve rt p = Some r → UnregisterServer (rt_server_id r) ∉ ops →
  (∃ r', resolve (foldl run_router rt ops) p = Some r'
     ∧ rt_server_id r' = rt_server_id r
     ∧ rt_upstream_tool_name r' = rt_upstream_tool_name r
     ∧ make_public (rt_server_id r') (rt_upstream_tool_name r') = Ok p)
  ∧ ∀ sid t h q rt', register sid t h (foldl run_router rt ops) = (Ok q, rt') →
      make_public sid t = Ok q ∧ resolve rt' q = Some (mkToolRoute q sid t h).
Proof.
  intros Hi Hr Hn. split.
  - revert rt r Hi Hr Hn. induction ops as [|op ops IH]; intros rt r Hi Hr Hn; simpl.
    { exists r. split_and!; try done. by apply (Hi p r). }
    assert (∃ r', resolve (run_router rt op) p = Some r'
      ∧ rt_server_id r' = rt_server_id r
      ∧ rt_upstream_tool_name r' = rt_upstream_tool_name r) as (r1 & Hr1 & E1 & E2).
    { unfold resolve in *. destruct op as [sid t h|sid]; simpl.
      - pose proof (register_spec sid t h rt) as Hs.
        destruct (make_public sid t) as [q|e]; [|rewrite Hs; by exists r].
        destruct Hs as [(r' & _ & _ & ->)|(Hq & ->)]; [by exists r|]. simpl.
        destruct (decide (q = p)) as [->|Hne].
        + rewrite lookup_insert_eq. eexists. split; [done|]. simpl.
          specialize (Hq r Hr). by injection Hq as -> ->.
        + rewrite lookup_insert_ne by done. by exists r.
      - exists r. split; [|done]. apply map_lookup_filter_Some. split; [done|].
        simpl. intros <-. apply Hn. by left. }
    destruct (IH (run_router rt op) r1) as (r2 & ? & ? & ? & ?).
    + by apply run_router_inv.
    + done.
    + rewrite E1. intros Hin. apply Hn. by right.
    + exists r2. split_and!; [done|congruence|congruence|done].
  - intros sid t h q rt' E. pose proof (register_spec sid t h (foldl run_router rt ops)) as Hs.
    destruct (make_public sid t) as [p'|e]; [|by rewrite E in Hs].
    destruct Hs as [(r' & _ & _ & E')|(_ & E')]; rewrite E' in E; [done|].
    injection E as <- <-. split; [done|]. unfold resolve. by rewrite lookup_insert_eq.
Qed.

(** ** Witnesses *)

Lemma public_name_roundtrip_fails :
  (let? p := make_public "a" "_b" in parse_public p) = Ok ("a", "_b") ∧
  (let? p := make_public "a_" "b" in parse_public p) = Ok ("a", "_b") ∧
  (let? p := make_public "a__b" "c" in parse_public p) = Ok ("a", "b__c") ∧
  is_ok (let? p := make_public "a" "" in parse_public p) = false.
Proof. split_and!; reflexivity. Qed.

Lemma router_never_reroutes_witness :
  ∃ r', resolve (foldl run_router (<["a___b" := mkToolRoute "a___b" "a" "_b" "h"]> ∅)
                   [Register "a_" "b" "h2"; UnregisterServer "a_"; Register "a" "_b" "h3"])
          "a___b" = Some r' ∧ rt_server_id r' = "a".
Proof.
  destruct (router_never_reroutes
    [Register "a_" "b" "h2"; UnregisterServer "a_"; Register "a" "_b" "h3"]
    (<["a___b" := mkToolRoute "a___b" "a" "_b" "h"]> ∅) "a___b"
    (mkToolRoute "a___b" "a" "_b" "h")) as [(r' & E & Es & _) _].
  - apply map_Forall_insert_2; [by split|apply map_Forall_empty].
  - reflexivity.
  - simpl. set_solver.
  - exists r'. split; [exact E|exact Es].
Defined.
