(* ===== verification/Rules.v ===== *)
(** * The rules of the redaction

    [src/crates/vigil-redaction/src/lib.rs] and [merge.rs]: the tables of named
    patterns. What a pattern matches is the regex crate's business ([Regexes]);
    which of its groups is the secret, and how the matches become spans, is the
    program's. *)

From S2P Require Import Prelude Text Holes.

(** The quote, which a literal cannot hold. *)
Definition dq : string := String (ascii_of_nat 34) "".

Record Rule := mkRule { rule_name : string; rule_pattern : string }.

(** The groups of one match; the whole match is group 0. *)
Definition Captures : Type := list (option (nat * nat)).

(** [Regex::new(pattern).captures_iter(text)] *)
Class Regexes := { captures_iter : string → string → list Captures }.

Definition group (c : Captures) (g : nat) : option (nat * nat) := mjoin (c !! g).

(** The documented behaviour: every match has a group 0, later matches begin where
    the one before ended or after it, groups lie within the match. *)
Class RegexesLaws `{Regexes} : Prop := {
  match_whole p t c : c ∈ captures_iter p t →
    ∃ a b, group c 0 = Some (a, b) ∧ (a ≤ b ≤ String.length t)%nat;
  match_groups p t c g a b a' b' :
    c ∈ captures_iter p t → group c 0 = Some (a, b) → group c g = Some (a', b') →
    (a ≤ a' ≤ b')%nat ∧ (b' ≤ b)%nat;
  matches_ordered p t :
    ordered 0 ((λ r : nat * nat, mkHole r.1 r.2 "") <$> omap (λ c, group c 0) (captures_iter p t));
}.

(** ** Patterns *)

Definition GITHUB_TOKEN_PATTERN : string :=
  "\b(?:gh[pousr]_[A-Za-z0-9]{36,255}|github_pat_[A-Za-z0-9_]{50,255})\b".

Definition SECRET_KEY_NAME_FRAGMENT : string :=
  "(?:[A-Z0-9][A-Z0-9_.-]*)?(?:secret|password|passwd|passphrase)"
  +:+ "|[A-Z0-9][A-Z0-9_.-]*pwd"
  +:+ "|(?:[A-Z0-9][A-Z0-9_.-]*)?(?:api|access|secret|private|signing|encryption|master|license|account|auth|app|session|shared|subscription|functions)[_-]?key"
  +:+ "|(?:[A-Z0-9][A-Z0-9_.-]*)?(?:access|refresh|id|auth|bearer|session|api|private|personal[_-]?access|bot|oauth|secret|app|deploy|vault|github|gitlab|slack|discord|telegram|npm|pypi|hf|huggingface)[_-]?token".

Definition BARE_TOKEN_KEY_NAME : string := "token".
Definition SECRET_KEY_LEFT_BOUNDARY : string := "(?:^|[^A-Za-z0-9_.\-])".
Definition CJK_SECRET_KEYWORD_FRAGMENT : string :=
  "密码|口令|令牌|密钥|秘钥|密匙|凭据|凭证|私钥|授权码|访问密钥|接口密钥".

Definition ENV_ASSIGNMENT_PATTERN : string :=
  "(?i)"
  +:+ ("(?:\b[A-Z][A-Z0-9_]*(?:KEY|TOKEN|SECRET|PASSWORD|PASSWD|APIKEY|API_KEY|AUTH|_PWD)\b\s*[=:：＝]|\b(?:KEY|TOKEN|SECRET|PASSWORD|PASSWD|PWD|APIKEY|API_KEY|AUTH)\b\s*=)\s*(?:[" +:+ dq +:+ "'][^" +:+ dq +:+ "'\r\n]+[" +:+ dq +:+ "']|[" +:+ dq +:+ "']?[^\s" +:+ dq +:+ "',;}\]]+)")
  +:+ "|"
  +:+ SECRET_KEY_LEFT_BOUNDARY
  +:+ "(?:"
  +:+ SECRET_KEY_NAME_FRAGMENT
  +:+ (")\\{0,3}[" +:+ dq +:+ "']?\s*(?:=>|[=:：＝])\s*\\{0,3}[" +:+ dq +:+ "']([^" +:+ dq +:+ "'\\\r\n<$%{\x00][^" +:+ dq +:+ "'\\\r\n\x00]{5,})\\{0,3}[" +:+ dq +:+ "']")
  +:+ "|"
  +:+ SECRET_KEY_LEFT_BOUNDARY
  +:+ BARE_TOKEN_KEY_NAME
  +:+ ("\\{0,3}[" +:+ dq +:+ "']?\s*(?:=>|[=:：＝])\s*\\{0,3}[" +:+ dq +:+ "']([^" +:+ dq +:+ "'\\\r\n<$%{\x00][^" +:+ dq +:+ "'\\\r\n\x00]{15,})\\{0,3}[" +:+ dq +:+ "']")
  +:+ "|(?:"
  +:+ CJK_SECRET_KEYWORD_FRAGMENT
  +:+ (")[" +:+ dq +:+ "'“”「」]?\s*[=:：＝]\s*[" +:+ dq +:+ "'“”「」]?([A-Za-z0-9][A-Za-z0-9!@#$%^&*_~+/.=\-]{5,})")
  +:+ "|(?:"
  +:+ CJK_SECRET_KEYWORD_FRAGMENT
  +:+ (")\s*(?:是|为)\s*[" +:+ dq +:+ "'“”「」]?([0-9!@#$%^&*][A-Za-z0-9!@#$%^&*_~+/.=\-]{5,})").

(** The groups that hold the value where only that is a secret. *)
Definition ENV_ASSIGNMENT_VALUE_GROUPS : list nat := [1; 2; 3; 4]%nat.

Definition SECRET_KEY_NAME_RE : string :=
  "(?i)(?:" +:+ SECRET_KEY_LEFT_BOUNDARY +:+ "(?:" +:+ SECRET_KEY_NAME_FRAGMENT +:+ "|"
  +:+ BARE_TOKEN_KEY_NAME +:+ ")|(?:" +:+ CJK_SECRET_KEYWORD_FRAGMENT +:+ "))$".

Definition ALL_RULES : list Rule := [
  mkRule "aws_access_key_id" ("\b(AKIA|ASIA)[0-9A-Z]{16}\b");
  mkRule "github_token" (GITHUB_TOKEN_PATTERN);
  mkRule "anthropic_api_key" ("\bsk-ant-[A-Za-z0-9_\-]{20,}\b");
  mkRule "openai_api_key" ("\bsk-[A-Za-z0-9_\-]{20,}\b");
  mkRule "env_assignment" (ENV_ASSIGNMENT_PATTERN);
  mkRule "jwt"
    ("\bey[A-Za-z0-9_\-]{10,}\.[A-Za-z0-9_\-]{10,}\.[A-Za-z0-9_\-]{10,}\b");
  mkRule "email" ("\b[A-Za-z0-9._%+\-]+@[A-Za-z0-9.\-]+\.[A-Za-z]{2,}\b");
  mkRule "internal_ipv4"
    ("\b(10\.\d{1,3}\.\d{1,3}\.\d{1,3}|172\.(1[6-9]|2\d|3[0-1])\.\d{1,3}\.\d{1,3}|192\.168\.\d{1,3}\.\d{1,3}|127\.\d{1,3}\.\d{1,3}\.\d{1,3})\b");
  mkRule "slack_webhook"
    ("\bhttps://hooks\.slack\.com/services/T[A-Z0-9]{8,12}/B[A-Z0-9]{8,12}/[A-Za-z0-9]{20,}\b");
  mkRule "stripe_secret_key" ("\bsk_(live|test)_[A-Za-z0-9]{24,}\b");
  mkRule "google_api_key" ("\bAIza[A-Za-z0-9_\-]{35}\b");
  mkRule "gitlab_pat" ("\bglpat-[A-Za-z0-9_\-]{20,}\b");
  mkRule "database_url"
    ("\b(postgresql|postgres|mysql|mongodb\+srv|mongodb|rediss|redis|amqps|amqp)://[^:/\s@]+:[^@/\s]+@[A-Za-z0-9.\-]+(:\d+)?(/[^\s]*)?");
  mkRule "aliyun_access_key_id" ("\bLTAI[A-Za-z0-9]{12,20}\b");
  mkRule "tencent_secret_id" ("\bAKID[A-Za-z0-9]{32}\b");
  mkRule "slack_token" ("\bxox[baprs]-[0-9A-Za-z-]{10,255}\b");
  mkRule "huggingface_token" ("\bhf_[A-Za-z0-9]{30,64}\b");
  mkRule "generic_url" ("\bhttps?://[^\s<>" +:+ dq +:+ "']+")
].

Definition HARD_RULES : list Rule := [
  mkRule "aws_access_key_id" ("\b(AKIA|ASIA)[0-9A-Z]{16}\b");
  mkRule "github_token" (GITHUB_TOKEN_PATTERN);
  mkRule "anthropic_api_key" ("\bsk-ant-[A-Za-z0-9_\-]{20,}\b");
  mkRule "openai_api_key" ("\bsk-[A-Za-z0-9_\-]{20,}\b");
  mkRule "pem_private_key" ("-----BEGIN [A-Z ]*PRIVATE KEY-----");
  mkRule "jwt"
    ("\bey[A-Za-z0-9_\-]{10,}\.[A-Za-z0-9_\-]{10,}\.[A-Za-z0-9_\-]{10,}\b");
  mkRule "env_assignment" (ENV_ASSIGNMENT_PATTERN);
  mkRule "slack_webhook"
    ("\bhttps://hooks\.slack\.com/services/T[A-Z0-9]{8,12}/B[A-Z0-9]{8,12}/[A-Za-z0-9]{20,}\b");
  mkRule "stripe_secret_key" ("\bsk_(live|test)_[A-Za-z0-9]{24,}\b");
  mkRule "google_api_key" ("\bAIza[A-Za-z0-9_\-]{35}\b");
  mkRule "gitlab_pat" ("\bglpat-[A-Za-z0-9_\-]{20,}\b");
  mkRule "database_url"
    ("\b(postgresql|postgres|mysql|mongodb\+srv|mongodb|rediss|redis|amqps|amqp)://[^:/\s@]+:[^@/\s]+@[A-Za-z0-9.\-]+(:\d+)?(/[^\s]*)?");
  mkRule "aliyun_access_key_id" ("\bLTAI[A-Za-z0-9]{12,20}\b");
  mkRule "tencent_secret_id" ("\bAKID[A-Za-z0-9]{32}\b");
  mkRule "slack_token" ("\bxox[baprs]-[0-9A-Za-z-]{10,255}\b");
  mkRule "huggingface_token" ("\bhf_[A-Za-z0-9]{30,64}\b")
].

Definition PEM_RE : string := "-----BEGIN [A-Z ]*PRIVATE KEY-----".
Definition BASE64_RUN : string := "[A-Za-z0-9+/_\-]{40,}={0,2}".
Definition BY_KEY_SAFE_CHAR_CLASS : string := "[A-Za-z0-9_\-]".
Definition KNOWN_REDACTED_MARKER : string :=
  "\[REDACTED (?:len=\d+ by_key=" +:+ BY_KEY_SAFE_CHAR_CLASS +:+ "+|[a-z_]+)\]".
Definition KEY_HINT : string := "(?i)(secret|token|password|api[_\-]?key|auth)".
Definition SENTINEL_MARKER_RE : string := "</?vigil-untrusted-[^>\s]*>".

Definition META_INSTRUCTION_RULES : list string := [
  "(?i)ignore\s+(all\s+|the\s+)?(previous|above|prior)\s+(instructions?|prompts?)";
  "(?i)disregard\s+(the\s+|all\s+)?(above|previous|prior)";
  "(?i)you\s+are\s+now\s+(a\s+|an\s+)?";
  "(?i)new\s+instructions?:";
  "(?i)(read|cat|exfiltrate|send|leak).{0,40}(\.ssh|\.env|id_rsa|credential|secret|token|api[_ ]?key)"
].
