(* ===== verification/HardRedact.v ===== *)
(** * Finding and replacing credentials

    [src/crates/vigil-redaction/src/lib.rs] and [sentinel.rs]: which rules a text
    hits and where ([detect_hard_secret], [scan_hard_findings],
    [hard_secret_spans]), the replacement of the hits by placeholders
    ([redact_string_with_spans], with the second pass over base64 payloads),
    the redaction of JSON values ([redact]) and the stripping of sentinel
    markers. The definitions are in [Module Hard]: the rest of the program calls
    them through the class [Redaction], which [HardRedactProps] discharges.

    Standard base64 is an interface. The names of the rules that matched
    ([findings: &mut Vec<String>]) are a list that is passed along. *)

From stdpp Require Import pretty.
From S2P Require Import Prelude Text Types Json Holes Rules.

(** [STANDARD_NO_PAD.decode(s)], [URL_SAFE_NO_PAD.decode(s)] *)
Class Base64 := {
  decode_standard : string → option string;
  decode_url_safe : string → option string;
}.

(** ** Regular expressions *)

Section Regex.
Context `{Regexes}.

(** [.is_match(text)] *)
Definition is_match (p t : string) : bool :=
  match captures_iter p t with
  | [] => false
  | _ => true
  end.

(** [.find_iter(text)] *)
Definition find_iter (p t : string) : list (nat * nat) :=
  omap (λ c, group c 0) (captures_iter p t).

Definition as_hole (r : nat * nat) : Hole := mkHole r.1 r.2 "".

(** [.replace_all(text, <nothing>)] *)
Definition remove_all (p t : string) : string :=
  assembled (λ _, "") 0 (as_hole <$> find_iter p t) t.
End Regex.

Definition rule_value_groups (name : string) : list nat :=
  if String.eqb name "env_assignment" then ENV_ASSIGNMENT_VALUE_GROUPS else [].

(** [Rule::hit_spans]: the value group that took part, or else the whole match. *)
Definition picked (name : string) (c : Captures) : option (nat * nat) :=
  match find_map (group c) (rule_value_groups name) with
  | Some r => Some r
  | None => group c 0
  end.

Definition hit_spans `{Regexes} (r : Rule) (text : string) : list (nat * nat) :=
  omap (picked (rule_name r)) (captures_iter (rule_pattern r) text).

(** [iter().map(..)] with the list of findings passed along. *)
Definition map_acc {A B S} (f : A → S → B * S) : list A → S → list B * S :=
  fix go l s :=
    match l with
    | [] => ([], s)
    | x :: l' => let '(y, s) := f x s in let '(ys, s) := go l' s in (y :: ys, s)
    end.

Module Hard.

Definition BASE64_MAX_RUN_BYTES : Z := 4 * 1024 * 1024.
Definition BASE64_MAX_RUNS : nat := 256.
Definition BASE64_PAYLOAD_RULE : string := "base64_payload".

(** One hit: a range, the position of its rule in the table, the rule's name. *)
Record Hit := mkHit { start : nat; end_ : nat; order : nat; name : string }.

(** Start ascending, end descending, then the order of the rules. *)
Definition hit_leb (a b : Hit) : bool :=
  (start a <? start b)%nat
  || ((start a =? start b)%nat
      && ((end_ b <? end_ a)%nat || ((end_ a =? end_ b)%nat && (order a <=? order b)%nat))).

Definition hole_of (h : Hit) : Hole := mkHole (start h) (end_ h) (name h).

(** The union of the hits, named by the first of each. *)
Definition merged (hits : list Hit) : list Hole := union_of (hole_of <$> Sort.sort hit_leb hits).

Definition rule_hits `{Regexes} (rules : list Rule) (text : string) : list Hit :=
  concat (imap (λ i r, (λ s, mkHit s.1 s.2 i (rule_name r)) <$> hit_spans r text) rules).

Section Detect.
Context `{Regexes} `{Base64}.

(** The first decoding that succeeds and gives text. *)
Definition decode_base64_text (run : string) : option string :=
  if (BASE64_MAX_RUN_BYTES <? Z.of_nat (String.length run))%Z then None
  else
    let trimmed := trim_end_matches (λ c, Ascii.eqb c "=") run in
    find_map (λ decode : string → option string,
      bytes ← decode trimmed;
      if is_utf8 bytes && is_plain_text bytes then Some bytes else None)
      [decode_standard; decode_url_safe].

Definition detect_hard_secret_plain (text : string) : option string :=
  let stripped := remove_all KNOWN_REDACTED_MARKER text in
  find_map (λ r, if is_match (rule_pattern r) stripped then Some (rule_name r) else None) HARD_RULES.

Definition base64_runs (text : string) : list (nat * nat) := find_iter BASE64_RUN text.

Definition run_text (text : string) (r : nat * nat) : string := slice r.1 r.2 text.

Definition detect_hard_secret_in_base64 (text : string) : option string :=
  find_map (λ m, decoded ← decode_base64_text (run_text text m); detect_hard_secret_plain decoded)
    (take BASE64_MAX_RUNS (base64_runs text)).

Definition detect_hard_secret (text : string) : option string :=
  match detect_hard_secret_plain text with
  | Some rule => Some rule
  | None => detect_hard_secret_in_base64 text
  end.

(** [if !out.contains(&r) { out.push(r) }] *)
Definition push_new (out : list string) (r : string) : list string :=
  if existsb (String.eqb r) out then out else out ++ [r].

Definition scan_hard_findings_plain (text : string) : list string :=
  let stripped := remove_all KNOWN_REDACTED_MARKER text in
  foldl (λ out r, if is_match (rule_pattern r) stripped then push_new out (rule_name r) else out)
    [] HARD_RULES.

Definition scan_hard_findings (text : string) : list string :=
  foldl (λ out m,
    match decode_base64_text (run_text text m) with
    | Some decoded => foldl push_new out (scan_hard_findings_plain decoded)
    | None => out
    end) (scan_hard_findings_plain text) (take BASE64_MAX_RUNS (base64_runs text)).

(** ** Where the credentials are *)

Definition covers (m : nat * nat) (h : Hit) : bool :=
  (start h <=? m.1)%nat && (m.2 <=? end_ h)%nat.

(** The loop over the base64 runs; [examined] counts those no hit covers. *)
Fixpoint add_base64_hits (text : string) (runs : list (nat * nat)) (examined : nat)
    (hits : list Hit) : list Hit :=
  match runs with
  | [] => hits
  | m :: rest =>
      if (BASE64_MAX_RUNS <=? examined)%nat then hits
      else if existsb (covers m) hits then add_base64_hits text rest examined hits
      else
        add_base64_hits text rest (S examined)
          (match decode_base64_text (run_text text m) with
           | Some decoded =>
               match detect_hard_secret_plain decoded with
               | Some _ => hits ++ [mkHit m.1 m.2 (length HARD_RULES) BASE64_PAYLOAD_RULE]
               | None => hits
               end
           | None => hits
           end)
  end.

Definition nonempty_hit (h : Hit) : bool := (start h <? end_ h)%nat.

Definition hard_secret_spans (text : string) : list Hole :=
  if is_match PEM_RE text then [mkHole 0 (String.length text) "pem_private_key"]
  else
    merged (add_base64_hits text (base64_runs text) 0
              (List.filter nonempty_hit (rule_hits HARD_RULES text))).

(** ** Replacing them *)

Definition marker (rule : string) : string := "[REDACTED " +:+ rule +:+ "]".

Record Base64Edit := mkBase64Edit { old : nat * nat; new : nat * nat }.

(** The loop of [scrub_base64_runs]: what is written, up to where the text has been
    copied, the edits, the findings. *)
Fixpoint scrub_runs (text : string) (runs : list (nat * nat)) (out : string) (last : nat)
    (edits : list Base64Edit) (findings : list string)
    : string * nat * list Base64Edit * list string :=
  match runs with
  | [] => (out, last, edits, findings)
  | m :: rest =>
      match default [] (scan_hard_findings_plain <$> decode_base64_text (run_text text m)) with
      | [] => scrub_runs text rest out last edits findings
      | inner =>
          let out := out +:+ slice last m.1 text in
          let start := String.length out in
          let out := out +:+ marker BASE64_PAYLOAD_RULE in
          scrub_runs text rest out m.2
            (edits ++ [mkBase64Edit m (start, String.length out)])
            (findings ++ inner ++ [BASE64_PAYLOAD_RULE])
      end
  end.

Definition scrub_base64_runs (text : string) (findings : list string)
    : string * list Base64Edit * list string :=
  let '(out, last, edits, findings) :=
    scrub_runs text (take BASE64_MAX_RUNS (base64_runs text)) "" 0 [] findings in
  match edits with
  | [] => (text, [], findings)
  | _ => (out +:+ Str.drop last text, edits, findings)
  end.

(** How far a position moves: the edits before it, as an [isize]. *)
Definition shift_at (edits : list Base64Edit) (pos : nat) : Z :=
  foldl (λ shift e,
    if ((old e).2 <=? pos)%nat
    then shift + (Z.of_nat (new e).2 - Z.of_nat (new e).1)
         - (Z.of_nat (old e).2 - Z.of_nat (old e).1)
    else shift)%Z 0%Z edits.

Definition map_pos (edits : list Base64Edit) (pos : nat) : nat :=
  Z.to_nat (Z.of_nat pos + shift_at edits pos).

Definition span_leb (a b : nat * nat) : bool :=
  (a.1 <? b.1)%nat || ((a.1 =? b.1)%nat && (a.2 <=? b.2)%nat).

Definition apply_base64_pass (text : string) (spans : list (nat * nat)) (findings : list string)
    : string * list (nat * nat) * list string :=
  let '(out, edits, findings) := scrub_base64_runs text findings in
  match edits with
  | [] => (text, spans, findings)
  | _ =>
      (out,
       Sort.sort span_leb
         (((λ s, (map_pos edits s.1, map_pos edits s.2)) <$> spans) ++ (new <$> edits)),
       findings)
  end.

(** From left to right: the text up to the next hole, its placeholder. *)
Fixpoint build_out (s : string) (cursor : nat) (hs : list Hole) (out : string)
    (spans : list (nat * nat)) : string * list (nat * nat) :=
  match hs with
  | [] => (out +:+ Str.drop cursor s, spans)
  | h :: rest =>
      let out := out +:+ slice cursor (h_start h) s in
      let ph_start := String.length out in
      let out := out +:+ marker (h_kind h) in
      build_out s (h_end h) rest out (spans ++ [(ph_start, String.length out)])
  end.

Definition redact_string_with_spans (s : string) (findings : list string)
    : string * list (nat * nat) * list string :=
  if is_match PEM_RE s then
    let out := marker "pem_private_key" in
    (out, [(0%nat, String.length out)], findings ++ ["pem_private_key"])
  else
    match rule_hits ALL_RULES s with
    | [] => apply_base64_pass s [] findings
    | hits =>
        let '(out, spans) := build_out s 0 (merged hits) "" [] in
        apply_base64_pass out spans (findings ++ foldl push_new [] (name <$> hits))
    end.

Definition redact_string (s : string) (findings : list string) : string * list string :=
  let '(out, _, findings) := redact_string_with_spans s findings in (out, findings).

Definition scrub_text (text : string) : string := (redact_string text []).1.

Definition scrub_text_with_spans (text : string) : string * list (nat * nat) :=
  (redact_string_with_spans text []).1.

(** ** JSON values *)

Definition is_safe_key_char (c : ascii) : bool :=
  is_ascii_alphanumeric c || Ascii.eqb c "_" || Ascii.eqb c "-".

(** Any other character becomes one underscore; the bytes after its first go with it. *)
Fixpoint normalize_key_for_placeholder (k : string) : string :=
  match k with
  | EmptyString => EmptyString
  | String c k' =>
      if is_safe_key_char c then String c (normalize_key_for_placeholder k')
      else if Str.between 128 191 c then normalize_key_for_placeholder k'
      else String "_" (normalize_key_for_placeholder k')
  end.

Definition by_key_marker (k s : string) : string :=
  "[REDACTED len=" +:+ pretty (String.length s) +:+ " by_key="
  +:+ normalize_key_for_placeholder k +:+ "]".

Fixpoint redact_value (v : Value) (findings : list string) : Value * list string :=
  match v with
  | JStr s => let '(s, findings) := redact_string s findings in (JStr s, findings)
  | JArr arr => let '(arr, findings) := map_acc redact_value arr findings in (JArr arr, findings)
  | JObj obj =>
      let '(obj, findings) :=
        map_acc (λ kv findings,
          match kv with
          | (k, val) =>
              let '(val, findings) :=
                match is_match KEY_HINT k, val with
                | true, JStr s =>
                    if Str.is_empty s then redact_value val findings
                    else (JStr (by_key_marker k s), findings ++ ["env_like_key"])
                | _, _ => redact_value val findings
                end in
              ((k, val), findings)
          end) obj findings in
      (JObj (collect_map obj), findings)
  | _ => (v, findings)
  end.

(** The string leaves, each followed by a space. *)
Fixpoint walk_strings (v : Value) : string :=
  match v with
  | JStr s => s +:+ " "
  | JArr arr => foldr (λ x buf, walk_strings x +:+ buf) "" arr
  | JObj obj => foldr (λ kv buf, walk_strings (snd kv) +:+ buf) "" obj
  | _ => ""
  end.

Definition collect_strings (v : Value) : string := trim (walk_strings v).

(** [Vec::dedup] *)
Fixpoint dedup (l : list string) : list string :=
  match l with
  | x :: ((y :: _) as rest) => if String.eqb x y then dedup rest else x :: dedup rest
  | _ => l
  end.

Definition redact (value : Value) : Value * string :=
  let '(redacted, findings) := redact_value value [] in
  let findings := dedup (Sort.sort Str.leb findings) in
  let summary :=
    foldr (λ f rest, "finding:" +:+ f +:+ " " +:+ rest) (collect_strings redacted) findings in
  (redacted, trim summary).

(** ** Keys, and instructions in data *)

Definition is_secret_key_name (key : string) : bool := is_match SECRET_KEY_NAME_RE key.

(** The spans of the findings; kind, source and weight are the same for all. *)
Definition scan_meta_instructions (text : string) : list (nat * nat) :=
  flat_map (λ p, find_iter p text) META_INSTRUCTION_RULES.
End Detect.

(** ** Sentinel markers *)

Definition UNTRUSTED_SENTINEL_PREFIX : string := "vigil-untrusted-".

Definition hex_digit (n : nat) : ascii := ascii_of_nat (if (n <? 10)%nat then 48 + n else 87 + n).

Fixpoint to_hex (bytes : string) : string :=
  match bytes with
  | EmptyString => EmptyString
  | String b rest =>
      String (hex_digit (nat_of_ascii b / 16)) (String (hex_digit (nat_of_ascii b mod 16)) (to_hex rest))
  end.

(** 16 random bytes, or none when the system gives none: then they are zeros. *)
Definition make_untrusted_marker (random : option string) : string * string :=
  let nonce := default (String.concat "" (repeat (String (ascii_of_nat 0) "") 16)) random in
  let hex := to_hex nonce in
  ("<" +:+ UNTRUSTED_SENTINEL_PREFIX +:+ hex +:+ ">",
   "</" +:+ UNTRUSTED_SENTINEL_PREFIX +:+ hex +:+ ">").

Definition detect_sentinel_forgery (text : string) : bool :=
  str_contains UNTRUSTED_SENTINEL_PREFIX text.

Definition strip_sentinel_markers `{Regexes} (text : string) : string * bool :=
  if negb (str_contains UNTRUSTED_SENTINEL_PREFIX text) then (text, false)
  else
    let stripped := remove_all SENTINEL_MARKER_RE text in
    (stripped, negb (String.eqb stripped text)).
End Hard.
