(* ===== verification/Redact.v ===== *)
(** * Scanning and redacting a text

    [src/crates/vigil-redaction], files label.rs, merge.rs and scan.rs: the
    labels of what a scan finds, the merge of what the hard rules and a model
    find, the redacted text and the risk. Matching a regular expression is the
    regex crate's ([HardRules]); a model is a [RedactionEngine]. *)

From Stdlib Require Import Sorting.Sorted.
From S2P Require Import Prelude Holes.

Module PrivacyLabel.
Inductive PrivacyLabel :=
| Secret | AccountNumber | Email | Phone | Person | Address | Date | Url.

#[global] Instance PrivacyLabel_eq_dec : EqDecision PrivacyLabel.
Proof. solve_decision. Defined.

Definition as_str (l : PrivacyLabel) : string :=
  match l with
  | Secret => "secret"
  | AccountNumber => "account_number"
  | Email => "email"
  | Phone => "phone"
  | Person => "person"
  | Address => "address"
  | Date => "date"
  | Url => "url"
  end.

Definition ALL : list PrivacyLabel :=
  [Secret; AccountNumber; Email; Phone; Person; Address; Date; Url].

Definition str_in (s : string) (l : list string) : bool := existsb (String.eqb s) l.

Definition from_kind (kind : string) : option PrivacyLabel :=
  if str_in kind
       ["aws_access_key_id"; "github_token"; "anthropic_api_key"; "openai_api_key"; "jwt";
        "pem_private_key"; "env_assignment"; "slack_webhook"; "stripe_secret_key";
        "google_api_key"; "gitlab_pat"; "database_url"; "aliyun_access_key_id";
        "tencent_secret_id"; "slack_token"; "huggingface_token"; "secret"]
  then Some Secret
  else if str_in kind ["email"; "private_email"] then Some Email
  else if str_in kind ["internal_ipv4"; "generic_url"; "private_url"; "url"] then Some Url
  else if str_in kind ["private_phone"; "phone"] then Some Phone
  else if str_in kind ["private_person"; "person"] then Some Person
  else if str_in kind ["private_address"; "address"] then Some Address
  else if str_in kind ["private_date"; "date"] then Some Date
  else if str_in kind ["private_account_number"; "account_number"] then Some AccountNumber
  else None.

#[global] Instance PrivacyLabel_countable : Countable PrivacyLabel.
Proof. apply (inj_countable as_str from_kind). by intros []. Defined.
End PrivacyLabel.
Abbreviation PrivacyLabel := PrivacyLabel.PrivacyLabel.

Module FindingSource.
Inductive FindingSource := Hard | Model | MetaInstruction.

#[global] Instance FindingSource_eq_dec : EqDecision FindingSource.
Proof. solve_decision. Defined.
End FindingSource.
Abbreviation FindingSource := FindingSource.FindingSource.

(** The confidence, an f32, is kept as its bits. *)
Record Finding := mkFinding {
  fd_kind : string;
  fd_source : FindingSource;
  fd_span : nat * nat;
  fd_confidence : Z;
  fd_risk_delta : Z;
}.

Definition one_f32 : Z := 1065353216.

(** [Finding::hard] *)
Definition hard (kind : string) (span : nat * nat) (risk_delta : Z) : Finding :=
  mkFinding kind FindingSource.Hard span one_f32 risk_delta.

Record RiskSignals := mkRiskSignals {
  counts_by_label : gmap PrivacyLabel Z;
  total_risk_delta : Z;
  has_secret : bool;
}.

Record RedactionResult := mkRedactionResult {
  findings : list Finding;
  redacted_text : string;
  risk_signals : RiskSignals;
}.

Module ScanError.
Inductive ScanError :=
| InferenceFailed (reason : string)
| EmptyInput.
End ScanError.
Abbreviation ScanError := ScanError.ScanError.

(** ** Merging *)

Definition spans_overlap (a b : nat * nat) : bool := (a.1 <? b.2)%nat && (b.1 <? a.2)%nat.

Definition start_leb (a b : Finding) : bool := ((fd_span a).1 <=? (fd_span b).1)%nat.

Definition merge_findings (hard model : list Finding) : list Finding :=
  Sort.sort start_leb
    (hard ++ List.filter
       (λ m, negb (existsb (λ h, spans_overlap (fd_span h) (fd_span m)) hard)) model).

(** ** Risk *)

Definition risk_of (kind : string) : Z :=
  match PrivacyLabel.from_kind kind with
  | Some PrivacyLabel.Secret => 25
  | Some PrivacyLabel.Email | Some PrivacyLabel.Url => 10
  | Some _ => 5
  | None => 5
  end.

(** [u32::saturating_add] *)
Definition u32_saturating_add (x y : Z) : Z := Z.min Int.u32_max (x + y).

Definition count_one (label : PrivacyLabel) (counts : gmap PrivacyLabel Z) : gmap PrivacyLabel Z :=
  <[label := ((default 0 (counts !! label) + 1) `mod` 2 ^ 32)%Z]> counts.

(** The loop of [aggregate_risk]. *)
Definition aggregate_one (acc : gmap PrivacyLabel Z * Z) (f : Finding)
    : gmap PrivacyLabel Z * Z :=
  (match PrivacyLabel.from_kind (fd_kind f) with
   | Some label => count_one label acc.1
   | None => acc.1
   end, u32_saturating_add acc.2 (fd_risk_delta f)).

Definition aggregate_risk (fs : list Finding) : RiskSignals :=
  let acc := foldl aggregate_one (∅, 0%Z) fs in
  mkRiskSignals acc.1 acc.2 (bool_decide (is_Some (acc.1 !! PrivacyLabel.Secret))).

(** ** The redacted text *)

Definition span_valid (input : string) (f : Finding) : bool :=
  let '(start, end_) := fd_span f in
  (start <=? end_)%nat && (end_ <=? String.length input)%nat
  && is_char_boundary input start && is_char_boundary input end_.

Definition hole_of (f : Finding) : Hole :=
  mkHole (fd_span f).1 (fd_span f).2 (fd_kind f).

Definition span_leb (a b : Finding) : bool := hole_leb (hole_of a) (hole_of b).

Definition holes (input : string) (fs : list Finding) : list Hole :=
  union_of (hole_of <$> List.filter (span_valid input) (Sort.sort span_leb fs)).

Definition placeholder (kind : string) : string :=
  match PrivacyLabel.from_kind kind with
  | Some label => "[REDACTED " +:+ PrivacyLabel.as_str label +:+ "]"
  | None => "[REDACTED " +:+ kind +:+ "]"
  end.

Definition build_redacted_text (input : string) (fs : list Finding) : string :=
  replace_holes placeholder (holes input fs) input.

(** ** Scanning *)

(** The regex crate on the tables [HARD_RULES] and (of [ALL_RULES]) the two URL
    rules: each rule's name and the spans it hits, in table order. *)
Class HardRules := {
  hard_rule_spans : string → list (string * list (nat * nat));
  url_rule_spans : string → list (string * list (nat * nat));
}.

(** [trait RedactionEngine]: what a model infers, or why it could not. *)
Class RedactionEngine := {
  infer_with_lang : string → option string → result string (list Finding);
}.

(** [NoopEngine] *)
Definition noop_engine : RedactionEngine := {| infer_with_lang _ _ := Ok [] |}.

Section Scan.
Context `{HardRules}.

Definition findings_of_rules (hits : list (string * list (nat * nat))) : list Finding :=
  flat_map (λ r, (λ span, hard r.1 span (risk_of r.1)) <$> r.2) hits.

Definition collect_hard_findings (text : string) : list Finding :=
  findings_of_rules (hard_rule_spans text).

Definition collect_url_hard_findings (text : string) : list Finding :=
  findings_of_rules (url_rule_spans text).

Definition set_risk (f : Finding) : Finding :=
  mkFinding (fd_kind f) (fd_source f) (fd_span f) (fd_confidence f) (risk_of (fd_kind f)).

Definition scan_text_with_engine_with_lang (engine : RedactionEngine) (input : string)
    (lang : option string) : result ScanError RedactionResult :=
  if Str.is_empty input then Err ScanError.EmptyInput
  else
    match infer_with_lang input lang with
    | Err e => Err (ScanError.InferenceFailed e)
    | Ok model_findings =>
        let model_findings := set_risk <$> model_findings in
        let hard_findings := collect_hard_findings input ++ collect_url_hard_findings input in
        let merged := merge_findings hard_findings model_findings in
        Ok (mkRedactionResult merged (build_redacted_text input merged)
              (aggregate_risk merged))
    end.

Definition scan_text_with_engine (engine : RedactionEngine) (input : string)
    : result ScanError RedactionResult :=
  scan_text_with_engine_with_lang engine input None.

Definition scan_text (input : string) : result ScanError RedactionResult :=
  scan_text_with_engine noop_engine input.
End Scan.

(** What a budgeted run of the model gave: its answer in time, its error, or
    nothing before the budget was spent. *)
Module EngineStatus.
Inductive EngineStatus := Ok | DegradedTimeout | DegradedError.
End EngineStatus.
Abbreviation EngineStatus := EngineStatus.EngineStatus.

(** [rx.recv_timeout(budget)] *)
Definition model_outcome (received : option (result string (list Finding)))
    : list Finding * EngineStatus :=
  match received with
  | Some (Ok fs) => (fs, EngineStatus.Ok)
  | Some (Err _) => ([], EngineStatus.DegradedError)
  | None => ([], EngineStatus.DegradedTimeout)
  end.

Definition scan_text_with_engine_budgeted `{HardRules} (input : string)
    (received : option (result string (list Finding)))
    : result ScanError (RedactionResult * EngineStatus) :=
  if Str.is_empty input then Err ScanError.EmptyInput
  else
    let '(model_findings, status) := model_outcome received in
    let model_findings := set_risk <$> model_findings in
    let hard_findings := collect_hard_findings input ++ collect_url_hard_findings input in
    let merged := merge_findings hard_findings model_findings in
    Ok (mkRedactionResult merged (build_redacted_text input merged) (aggregate_risk merged),
        status).

(** ** What redaction guarantees

    The redacted text depends on no byte that a finding covers; and a scan never
    drops what a hard rule found. *)

(** ** The holes of the findings *)

Definition covered (i : nat) (f : Finding) : Prop := in_hole i (hole_of f).

(** The findings that are used: those whose span is of this text. *)
Lemma holes_spec input fs :
  ordered 0 (holes input fs) ∧ within (String.length input) (holes input fs) ∧
  ∀ i, Exists (in_hole i) (holes input fs) ↔
       ∃ f, f ∈ fs ∧ span_valid input f = true ∧ covered i f.
Proof.
  unfold holes. set (l := List.filter (span_valid input) (Sort.sort span_leb fs)).
  assert (∀ f, f ∈ l ↔ f ∈ fs ∧ span_valid input f = true) as Hl.
  { intros f. unfold l. rewrite list_elem_of_In, filter_In, <- list_elem_of_In.
    by rewrite Sort.elem_of_sort. }
  assert (∀ f, f ∈ l →
    h_start (hole_of f) ≤ h_end (hole_of f) ≤ String.length input)%nat as Hv.
  { intros f [_ Hf]%Hl. revert Hf. unfold span_valid, hole_of. destruct (fd_span f) as [s e].
    rewrite !andb_true_iff, !Nat.leb_le. simpl. lia. }
  destruct (union_of_spec (hole_of <$> l) (String.length input)) as (Ho & Hw & Hi).
  - split.
    + apply sorted_map, sorted_filter. eapply sorted_impl; [intros x y; apply hole_leb_le|].
      apply (Sort.sort_sorted span_leb); unfold span_leb.
      * intros x y. apply hole_leb_total.
      * intros x y z. apply hole_leb_trans.
    + apply Forall_fmap, Forall_forall. intros f Hf. specialize (Hv f Hf). simpl in *. lia.
  - apply Forall_fmap, Forall_forall. intros f Hf. by apply Hv.
  - split_and!; [done|done|]. intros i. rewrite Hi, Exists_fmap, Exists_exists.
    unfold covered. naive_solver.
Qed.

Lemma holes_same s t fs :
  (∀ f, f ∈ fs → span_valid s f = span_valid t f) → holes s fs = holes t fs.
Proof.
  intros Hv. unfold holes.
  assert (List.filter (span_valid s) (Sort.sort span_leb fs)
          = List.filter (span_valid t) (Sort.sort span_leb fs)) as ->; [|done].
  apply filter_ext_in. intros f Hf%list_elem_of_In. apply Hv.
  by rewrite Sort.elem_of_sort in Hf.
Qed.

(** No covered byte leaks. The redacted text is the input with disjoint holes
    replaced by placeholders, and the holes cover exactly the bytes of the findings
    whose span is a span of the text; so two inputs of one length that differ only
    at such bytes have the same redacted text, however the findings overlap or
    nest. *)
Theorem redaction_is_leak_safe s t fs :
  (∃ hs, build_redacted_text s fs = replace_holes placeholder hs s
     ∧ ordered 0 hs ∧ within (String.length s) hs
     ∧ ∀ i, Exists (in_hole i) hs ↔ ∃ f, f ∈ fs ∧ span_valid s f = true ∧ covered i f) ∧
  (String.length s = String.length t →
   (∀ f, f ∈ fs → span_valid s f = span_valid t f) →
   (∀ i, (∀ f, f ∈ fs → span_valid s f = true → ¬ covered i f) →
      String.get i s = String.get i t) →
   build_redacted_text s fs = build_redacted_text t fs).
Proof.
  destruct (holes_spec s fs) as (Ho & Hw & Hi). split; [by exists (holes s fs)|].
  intros Hl Hv Hg. unfold build_redacted_text. rewrite <- (holes_same s t fs Hv).
  rewrite !replaced_whole by (done || by rewrite <- Hl). apply assembled_agree; [done|].
  split; [done|]. intros i [_ Hn]. apply Hg. intros f Hf Hfv Hc. apply Hn, Hi. by exists f.
Qed.

(** ** Scanning *)

Section Scan.
Context `{HardRules}.

Definition hard_hits (input : string) : list Finding :=
  collect_hard_findings input ++ collect_url_hard_findings input.

Definition risk_sum (fs : list Finding) : Z := foldr (λ f acc, (fd_risk_delta f + acc)%Z) 0%Z fs.

(** What was merged of the hard hits and of what the model said. *)
Definition merged_of (input : string) (model fs : list Finding) : Prop :=
  StronglySorted (λ a b, (fd_span a).1 ≤ (fd_span b).1)%nat fs ∧
  (∀ f, f ∈ fs ↔ f ∈ hard_hits input ∨
     (f ∈ set_risk <$> model ∧
      ∀ h, h ∈ hard_hits input → spans_overlap (fd_span h) (fd_span f) = false)).

Lemma merge_findings_spec input model :
  merged_of input model (merge_findings (hard_hits input) (set_risk <$> model)).
Proof.
  unfold merged_of, merge_findings. split.
  - eapply sorted_impl; [|apply (Sort.sort_sorted start_leb)]; unfold start_leb.
    + intros a b. apply Nat.leb_le.
    + intros a b. rewrite !Nat.leb_le. lia.
    + intros a b c. rewrite !Nat.leb_le. lia.
  - intros f. rewrite Sort.elem_of_sort, elem_of_app. apply or_iff_compat_l.
    rewrite (list_elem_of_In (List.filter _ _)), filter_In, <- list_elem_of_In.
    apply and_iff_compat_l. rewrite negb_true_iff, <- not_true_iff_false, existsb_exists. split.
    + intros Hn h Hh. apply not_true_iff_false. intros Ho. apply Hn. exists h.
      split; [by apply list_elem_of_In|done].
    + intros Hn (h & Hh%list_elem_of_In & Ho). by rewrite Hn in Ho.
Qed.

Lemma risk_of_pos kind : (5 ≤ risk_of kind ≤ 25)%Z.
Proof. unfold risk_of. repeat case_match; lia. Qed.

Lemma risk_sum_pos fs : Forall (λ f, 0 ≤ fd_risk_delta f)%Z fs → (0 ≤ risk_sum fs)%Z.
Proof. unfold risk_sum. induction 1; simpl; lia. Qed.

Lemma aggregate_total fs acc :
  Forall (λ f, 0 ≤ fd_risk_delta f)%Z fs → (0 ≤ acc.2 ≤ Int.u32_max)%Z →
  (foldl aggregate_one acc fs).2 = Z.min Int.u32_max (acc.2 + risk_sum fs).
Proof.
  revert acc; induction fs as [|f fs IH]; intros acc Hf Ha; simpl.
  { unfold risk_sum. simpl. lia. }
  apply Forall_cons in Hf as [Hf Hfs]. rewrite IH; [|done|].
  - simpl. unfold u32_saturating_add, risk_sum. simpl.
    pose proof (risk_sum_pos fs Hfs) as Hp. unfold risk_sum in Hp. lia.
  - simpl. unfold u32_saturating_add. unfold Int.u32_max in *. lia.
Qed.

Lemma aggregate_has_secret fs acc :
  is_Some ((foldl aggregate_one acc fs).1 !! PrivacyLabel.Secret) ↔
  is_Some (acc.1 !! PrivacyLabel.Secret) ∨
  ∃ f, f ∈ fs ∧ PrivacyLabel.from_kind (fd_kind f) = Some PrivacyLabel.Secret.
Proof.
  revert acc; induction fs as [|f fs IH]; intros acc; simpl.
  { split; [by left|]. intros [?|(f & Hf & _)]; [done|by apply elem_of_nil in Hf]. }
  rewrite IH. unfold aggregate_one. simpl.
  assert (is_Some (match PrivacyLabel.from_kind (fd_kind f) with
                   | Some label => count_one label acc.1
                   | None => acc.1 end !! PrivacyLabel.Secret)
          ↔ is_Some (acc.1 !! PrivacyLabel.Secret)
            ∨ PrivacyLabel.from_kind (fd_kind f) = Some PrivacyLabel.Secret) as ->.
  { destruct (PrivacyLabel.from_kind (fd_kind f)) as [l|]; [|naive_solver].
    unfold count_one. rewrite lookup_insert_is_Some. split.
    - intros [->|[_ ?]]; [by right|by left].
    - intros [?|[= ->]]; [|by left]. destruct (decide (l = PrivacyLabel.Secret)); [by left|by right]. }
  split.
  - intros [[?|?]|(g & Hg & E)]; [by left|right; exists f; split; [by left|done]|].
    right. exists g. split; [by right|done].
  - intros [?|(g & [->|Hg]%elem_of_cons & E)]; [by left; left|by left; right|].
    right. by exists g.
Qed.

(** The result of a scan that ran, from what the model inferred. *)
Definition scan_spec (input : string) (model : list Finding) (r : RedactionResult) : Prop :=
  merged_of input model (findings r) ∧
  redacted_text r = build_redacted_text input (findings r) ∧
  total_risk_delta (risk_signals r) = Z.min Int.u32_max (risk_sum (findings r)) ∧
  (has_secret (risk_signals r) = true ↔
     ∃ f, f ∈ findings r ∧ PrivacyLabel.from_kind (fd_kind f) = Some PrivacyLabel.Secret).

Lemma scan_risks input model :
  Forall (λ f, 0 ≤ fd_risk_delta f)%Z
    (merge_findings (hard_hits input) (set_risk <$> model)).
Proof.
  apply Forall_forall. intros f Hf. apply (merge_findings_spec input model) in Hf as [Hf|[Hf _]].
  - unfold hard_hits, collect_hard_findings, collect_url_hard_findings, findings_of_rules in Hf.
    rewrite elem_of_app, !list_elem_of_In, !in_flat_map in Hf.
    destruct Hf as [(r & _ & Hf)|(r & _ & Hf)]; apply list_elem_of_In, list_elem_of_fmap in Hf
      as (span & -> & _); simpl; pose proof (risk_of_pos r.1); lia.
  - apply list_elem_of_fmap in Hf as (g & -> & _). simpl. pose proof (risk_of_pos (fd_kind g)). lia.
Qed.

Lemma scan_spec_ok input model :
  let merged := merge_findings (hard_hits input) (set_risk <$> model) in
  scan_spec input model
    (mkRedactionResult merged (build_redacted_text input merged) (aggregate_risk merged)).
Proof.
  pose proof (merge_findings_spec input model) as Hm. split_and!; simpl; [done|done| |].
  - rewrite aggregate_total; [done| |simpl; unfold Int.u32_max; lia].
    apply scan_risks.
  - rewrite bool_decide_eq_true, aggregate_has_secret. cbn [fst]. rewrite lookup_empty. split.
    + intros [[? [=]]|?]; done.
    + by right.
Qed.

(** A scan fails closed and keeps every hard hit. It refuses an empty text
    rather than call it clean; a model that fails is an error, never an empty
    result; and a scan that returns has every hit of the hard rules, the model's
    findings that overlap none of them and no other, in order, with the total of
    their risks and [has_secret] exactly when one of them is a secret. With a
    budget, a model that fails or is late costs only its own findings: the result
    is the one [scan_text] gives without a model. *)
Theorem scan_fails_closed engine input lang received :
  match scan_text_with_engine_with_lang engine input lang with
  | Err ScanError.EmptyInput => input = ""
  | Err (ScanError.InferenceFailed e) => input ≠ "" ∧ infer_with_lang input lang = Err e
  | Ok r => input ≠ "" ∧ ∃ model, infer_with_lang input lang = Ok model ∧ scan_spec input model r
  end ∧
  match scan_text_with_engine_budgeted input received with
  | Err e => e = ScanError.EmptyInput ∧ input = ""
  | Ok (r, EngineStatus.Ok) => ∃ model, received = Some (Ok model) ∧ scan_spec input model r
  | Ok (r, _) => (∀ model, received ≠ Some (Ok model)) ∧ scan_text input = Ok r
                 ∧ scan_spec input [] r
  end.
Proof.
  split.
  - unfold scan_text_with_engine_with_lang. destruct (Str.is_empty input) eqn:Ei.
    { by apply Str.is_empty_spec. }
    assert (input ≠ "") as Hne by (intros ->; done).
    destruct (infer_with_lang input lang) as [model|e] eqn:Em; [|by split].
    split; [done|]. exists model. split; [done|]. apply scan_spec_ok.
  - unfold scan_text_with_engine_budgeted, scan_text, scan_text_with_engine,
      scan_text_with_engine_with_lang.
    destruct (Str.is_empty input) eqn:Ei; [split; [done|by apply Str.is_empty_spec]|].
    destruct received as [[model|e]|]; simpl.
    + exists model. split; [done|]. apply scan_spec_ok.
    + split; [done|]. split; [done|]. apply (scan_spec_ok input []).
    + split; [done|]. split; [done|]. apply (scan_spec_ok input []).
Qed.
End Scan.

(** ** Witnesses *)

(** Nested findings of one name, as a model gives them. *)
Definition sample_findings : list Finding :=
  [mkFinding "person" FindingSource.Model (0, 8)%nat 0 5;
   mkFinding "person" FindingSource.Model (4, 8)%nat 0 5].

Example nested_findings_text :
  build_redacted_text "John Doe called" sample_findings = "[REDACTED person] called".
Proof. reflexivity. Qed.

Lemma redaction_is_leak_safe_witness :
  build_redacted_text "John Doe called" sample_findings
  = build_redacted_text "Jane Roe called" sample_findings.
Proof.
  apply (redaction_is_leak_safe "John Doe called" "Jane Roe called" sample_findings).
  - reflexivity.
  - intros f Hf. repeat (apply elem_of_cons in Hf as [->|Hf]; [reflexivity|]).
    by apply elem_of_nil in Hf.
  - intros i Hi. destruct (decide (i < 8)%nat) as [Hlt|Hge].
    + destruct (Hi (mkFinding "person" FindingSource.Model (0, 8)%nat 0 5)); [by left|done|].
      unfold covered, in_hole. simpl. lia.
    + do 8 (destruct i as [|i]; [lia|]). reflexivity.
Defined.
