(* ===== verification/HardRedactProps.v ===== *)
(** * What finding and replacing credentials guarantees

    The implementation of [HardRedact] as an instance of the interfaces the rest
    of the program uses, the shape of redacted values, what a scrubbed text may
    depend on and where its placeholders are, and that the spans of credentials
    and their detection agree. *)

From Stdlib Require Import Sorting.Sorted.
From stdpp Require Import pretty.
From S2P Require Import Prelude Text Types Json Deps Holes Wire Rules HardRedact Redact.

Section Instances.
Context `{Regexes} `{Base64}.

(** [redact_free_text]: the texts as one array through [redact]. *)
Definition redact_free_texts (parts : list string) : list string :=
  match (Hard.redact (JArr (JStr <$> parts))).1 with
  | JArr arr => (λ v, default "" (as_str v)) <$> arr
  | _ => parts
  end.

#[export] Instance hard_redaction : Redaction := {|
  detect_hard_secret := Hard.detect_hard_secret;
  scrub_text := Hard.scrub_text;
  redact_free_text := redact_free_texts;
|}.

#[export] Instance hard_result_redaction : ResultRedaction := {|
  redact := Hard.redact;
  is_secret_key_name := Hard.is_secret_key_name;
  meta_instruction_count t := length (Hard.scan_meta_instructions t);
|}.

Definition is_url_rule (r : Rule) : bool :=
  String.eqb (rule_name r) "generic_url" || String.eqb (rule_name r) "internal_ipv4".

Definition spans_of (rules : list Rule) (text : string) : list (string * list (nat * nat)) :=
  (λ r, (rule_name r, hit_spans r text)) <$> rules.

#[export] Instance hard_rules : HardRules := {|
  hard_rule_spans := spans_of HARD_RULES;
  url_rule_spans := spans_of (List.filter is_url_rule ALL_RULES);
|}.
End Instances.

(** ** The shape of a value *)

(** The string under a key. *)
Definition redact_under `{Regexes} `{Base64} (k s : string) : string :=
  if is_match KEY_HINT k && negb (Str.is_empty s) then Hard.by_key_marker k s
  else Hard.scrub_text s.

(** Every string leaf replaced, everything else as it was. *)
Fixpoint redact_tree `{Regexes} `{Base64} (v : Value) : Value :=
  match v with
  | JStr s => JStr (Hard.scrub_text s)
  | JArr arr => JArr (redact_tree <$> arr)
  | JObj obj =>
      JObj ((λ kv, match kv with
                   | (k, JStr s) => (k, JStr (redact_under k s))
                   | (k, val) => (k, redact_tree val)
                   end) <$> obj)
  | _ => v
  end.

Inductive same_shape : Value → Value → Prop :=
| shape_str s t : same_shape (JStr s) (JStr t)
| shape_arr l l' : Forall2 same_shape l l' → same_shape (JArr l) (JArr l')
| shape_obj o o' :
    Forall2 (λ kv kv', kv.1 = kv'.1 ∧ same_shape kv.2 kv'.2) o o' → same_shape (JObj o) (JObj o')
| shape_scalar v : is_string v = false → is_array v = false → is_object v = false → same_shape v v.

Section Shape.
Context `{Regexes} `{Base64}.

Lemma scrub_runs_findings text runs out last edits f g :
  Hard.scrub_runs text runs out last edits (f ++ g)
  = (let '(o, l, e, fs) := Hard.scrub_runs text runs out last edits g in (o, l, e, f ++ fs)).
Proof.
  revert out last edits g; induction runs as [|m runs IH]; intros; cbn [Hard.scrub_runs]; [done|].
  destruct (default [] _) as [|r rs]; [apply IH|]. by rewrite <- app_assoc, IH.
Qed.

Lemma base64_pass_findings text spans f :
  Hard.apply_base64_pass text spans f
  = ((Hard.apply_base64_pass text spans []).1, f ++ (Hard.apply_base64_pass text spans []).2).
Proof.
  unfold Hard.apply_base64_pass, Hard.scrub_base64_runs.
  rewrite <- (app_nil_r f) at 1. rewrite scrub_runs_findings.
  destruct (Hard.scrub_runs _ _ _ _ _ _) as [[[o l] e] fs]. by destruct e.
Qed.

(** The findings are only added to. *)
Lemma redact_string_findings s f :
  Hard.redact_string s f = (Hard.scrub_text s, f ++ (Hard.redact_string s []).2).
Proof.
  unfold Hard.scrub_text, Hard.redact_string, Hard.redact_string_with_spans.
  destruct (is_match PEM_RE s); [done|].
  destruct (Hard.rule_hits ALL_RULES s) as [|h hits].
  - rewrite base64_pass_findings. by destruct (Hard.apply_base64_pass _ _ _) as [[o sp] fs].
  - destruct (Hard.build_out _ _ _ _ _) as [o sp]. cbn [app].
    rewrite base64_pass_findings, (base64_pass_findings _ _ (foldl _ _ _)).
    destruct (Hard.apply_base64_pass _ _ _) as [[o' sp'] fs]. cbn [fst snd].
    by rewrite app_assoc.
Qed.

Lemma redact_string_value s f : (Hard.redact_string s f).1 = Hard.scrub_text s.
Proof. by rewrite redact_string_findings. Qed.

Lemma map_acc_pure {A B S} (f : A → S → B * S) (g : A → B) l :
  Forall (λ x, ∀ s, (f x s).1 = g x) l → ∀ s, (map_acc f l s).1 = g <$> l.
Proof.
  induction 1 as [|x l Hx _ IH]; intros s; [done|]. cbn [map_acc].
  specialize (Hx s). destruct (f x s) as [y s1]. specialize (IH s1).
  destruct (map_acc f l s1) as [ys s2]. simpl in *. by subst.
Qed.

Definition redact_field (kv : string * Value) : string * Value :=
  match kv with
  | (k, JStr s) => (k, JStr (redact_under k s))
  | (k, val) => (k, redact_tree val)
  end.

Lemma redact_field_key kv : (redact_field kv).1 = kv.1.
Proof. by destruct kv as [k []]. Qed.

Lemma redact_fields_keys obj : (redact_field <$> obj).*1 = obj.*1.
Proof. induction obj as [|kv obj IH]; [done|]. rewrite !fmap_cons, redact_field_key. by f_equal. Qed.

Lemma redact_value_tree v : wf_json v → ∀ findings,
  (Hard.redact_value v findings).1 = redact_tree v.
Proof.
  induction v as [|b|z|x|s|arr IH|obj IH] using value_ind; intros Hwf findings;
    cbn [Hard.redact_value]; try done.
  - pose proof (redact_string_value s findings) as E.
    destruct (Hard.redact_string s findings) as [s' fs]. simpl in *. by subst.
  - apply wf_arr in Hwf.
    assert (Forall (λ x, ∀ fs, (Hard.redact_value x fs).1 = redact_tree x) arr) as Hf
      by (induction IH; [done|apply Forall_cons in Hwf as [? ?]; constructor; auto]).
    pose proof (map_acc_pure _ _ _ Hf findings) as E.
    destruct (map_acc Hard.redact_value arr findings) as [arr' fs]. simpl in *. by subst.
  - apply wf_obj in Hwf as [Hd Hwf].
    match goal with |- context [map_acc ?f obj findings] => set (field := f) end.
    assert (Forall (λ kv, ∀ fs, (field kv fs).1 = redact_field kv) obj) as Hf.
    { clear Hd. induction IH as [|[k val] obj Hx _ IH]; [done|].
      apply Forall_cons in Hwf as [Hw Hwf]. constructor; [|by apply IH].
      intros fs. unfold field, redact_field. cbn [snd] in *. specialize (Hx Hw fs).
      destruct val as [| | | |s| |]; try (destruct (is_match KEY_HINT k);
        destruct (Hard.redact_value _ fs) as [v' fs2]; simpl in *; by subst).
      unfold redact_under. pose proof (redact_string_value s fs) as Es.
      destruct (is_match KEY_HINT k); simpl; [destruct (Str.is_empty s); [|done]|];
        destruct (Hard.redact_string s fs) as [s' f2]; simpl in *; by subst. }
    pose proof (map_acc_pure _ _ _ Hf findings) as E.
    destruct (map_acc field obj findings) as [obj' fs]. simpl in E. subst. cbn [fst].
    rewrite collect_map_nodup; [done|]. by rewrite redact_fields_keys.
Qed.

Lemma redact_tree_shape v : same_shape v (redact_tree v).
Proof.
  induction v as [|b|z|x|s|arr IH|obj IH] using value_ind; try (by constructor).
  - constructor. induction IH; constructor; done.
  - change (redact_tree (JObj obj)) with (JObj (redact_field <$> obj)). constructor.
    induction IH as [|[k val] obj Hv _ IH]; constructor; [|done].
    split; [by rewrite redact_field_key|]. destruct val; try done. constructor.
Qed.

Lemma shape_keys obj obj' :
  Forall2 (λ kv kv', kv.1 = kv'.1 ∧ same_shape kv.2 kv'.2) obj obj' →
  (obj'.*1 : list string) = obj.*1.
Proof. induction 1 as [|kv kv' obj obj' [E _] _ IH]; [done|]. by rewrite !fmap_cons, E, IH. Qed.

Lemma same_shape_wf v : ∀ w, same_shape v w → wf_json v → wf_json w.
Proof.
  induction v as [|b|z|x|s|arr IH|obj IH] using value_ind; intros w Hs; inversion Hs; subst;
    try done.
  - rewrite !wf_arr. clear Hs. match goal with H : Forall2 _ _ _ |- _ => induction H end; [done|].
    apply Forall_cons in IH as [Hx IH]. intros [? ?]%Forall_cons. constructor; auto.
  - rewrite !wf_obj. clear Hs. match goal with H : Forall2 _ _ _ |- _ =>
      rewrite (shape_keys _ _ H); intros [Hd Hw]; split; [done|]; clear Hd; induction H
      end; [done|].
    apply Forall_cons in IH as [Hx IH]. apply Forall_cons in Hw as [? ?].
    constructor; [naive_solver|auto].
Qed.

(** C34. Redacting a value leaves its shape alone: every string leaf becomes what its
    key or [scrub_text] makes of it, the same wherever the leaf stands and whatever
    was found before; numbers, keys and their order, lengths and nesting are as
    they were, and the keys stay distinct. *)
Theorem redaction_keeps_the_shape v findings :
  wf_json v →
  (Hard.redact_value v findings).1 = redact_tree v ∧
  same_shape v (redact_tree v) ∧ wf_json (redact_tree v).
Proof.
  intros Hwf. split_and!; [by apply redact_value_tree|apply redact_tree_shape|].
  by eapply same_shape_wf; [apply redact_tree_shape|].
Qed.

End Shape.

(** ** A concrete engine *)

Definition key_regexes : Regexes := {|
  captures_iter p t :=
    if String.eqb p KEY_HINT && String.eqb t "password" then [[Some (0, 8)%nat]] else [];
|}.

Definition no_base64 : Base64 := {| decode_standard _ := None; decode_url_safe _ := None |}.

Lemma redaction_keeps_the_shape_witness :
  let v := JObj [("password", JStr "hunter2"); ("notes", JArr [JStr "x"; JNum 1])] in
  (@Hard.redact_value key_regexes no_base64 v []).1
  = JObj [("password", JStr "[REDACTED len=7 by_key=password]"); ("notes", JArr [JStr "x"; JNum 1])].
Proof.
  intros v. assert (wf_json v) as Hwf.
  { split; [|done]. apply NoDup_cons. split; [|by apply NoDup_singleton].
    by intros [|[]%elem_of_nil]%elem_of_cons. }
  destruct (@redaction_keeps_the_shape key_regexes no_base64 v [] Hwf) as (-> & _). by vm_compute.
Defined.
