(* ===== verification/Ipc.v ===== *)
(** * The daemon and its clients

    [src/crates/vigil-daemon-ipc] (protocol.rs, client.rs) and
    [src/apps/vigil-hub-cli/src/daemon/server.rs]: a resident process scans texts
    for its clients over a local stream. A frame is a length and a JSON body; a
    connection opens with a handshake on a token. A client that gets anything but
    a proper answer gets [None] and goes on without the model. Threads, sockets
    and deadlines are outside; a stream is the bytes the other side sends and the
    bytes written, and may end or fail at any point. *)

From S2P Require Import Prelude Deps Holes Redact Wire.

Definition PROTOCOL_VERSION : Z := 1.
Definition MAX_FRAME_BYTES : Z := 4 * 1024 * 1024.

(** ** Messages *)

Record Hello := mkHello { hello_version : Z; hello_token : string }.

Module ScanKind.
Inductive ScanKind := Result | Descriptor | Args.
End ScanKind.
Abbreviation ScanKind := ScanKind.ScanKind.

Module Request.
Inductive Request :=
| RedactScan (kind : ScanKind) (text : string)
| ClassifyInjection (session_id text : string)
| Status.
End Request.
Abbreviation Request := Request.Request.

Module Response.
Inductive Response :=
| HelloOk (protocol_version : Z) (pii_loaded inj_loaded : bool)
| Findings (findings : list WireFinding)
| Ack
| Status (pii_loaded inj_loaded : bool) (uptime_secs inflight : Z)
| Error (message : string).
End Response.
Abbreviation Response := Response.Response.

Module FrameError.
Inductive FrameError :=
| Io
| TooLarge (bytes : Z)
| Codec.
End FrameError.
Abbreviation FrameError := FrameError.FrameError.

(** What serde makes of a message type: [serde_json::to_vec], [from_slice]. *)
Class Codec (T : Type) := {
  to_vec : T → option string;
  from_slice : string → option T;
}.

(** The derived implementations read back what they write. *)
Class CodecLaws (T : Type) `{Codec T} : Prop := {
  codec_roundtrip m body : to_vec m = Some body → from_slice body = Some m;
}.

(** ** Streams *)

(** What the other side sends, what was written, and how often. *)
Record Stream := mkStream {
  st_in : string;
  st_out : string;
  st_writes : nat;
}.

(** What happens to the [n]-th write: [Some k] fails after [k] bytes. *)
Definition Writer : Type := nat → option nat.

Definition FrameM : Type → Type := M Stream FrameError.

Definition u32_le (x : Z) : string :=
  String (Bytes.byte x) (String (Bytes.byte (x `div` 256))
    (String (Bytes.byte (x `div` 65536)) (String (Bytes.byte (x `div` 16777216)) EmptyString))).

Fixpoint from_le_bytes (s : string) : Z :=
  match s with
  | EmptyString => 0
  | String a s' => Z.of_nat (nat_of_ascii a) + 256 * from_le_bytes s'
  end.

(** A read that wants more than there is fails, and what there was is gone. *)
Definition read_exact (n : nat) : FrameM string := λ s,
  if (n <=? String.length (st_in s))%nat then
    (Ok (Str.take n (st_in s)), mkStream (Str.drop n (st_in s)) (st_out s) (st_writes s))
  else (Err FrameError.Io, mkStream "" (st_out s) (st_writes s)).

Section Frames.
Context (wr : Writer).

Definition write_all (bytes : string) : FrameM unit := λ s,
  match wr (st_writes s) with
  | None => (Ok tt, mkStream (st_in s) (st_out s +:+ bytes) (S (st_writes s)))
  | Some k =>
      (Err FrameError.Io, mkStream (st_in s) (st_out s +:+ Str.take k bytes) (S (st_writes s)))
  end.

Definition flush : FrameM unit := write_all "".

Definition write_frame {T} `{Codec T} (msg : T) : FrameM unit :=
  match to_vec msg with
  | None => throw FrameError.Codec
  | Some body =>
      if (MAX_FRAME_BYTES <? Z.of_nat (String.length body))%Z
      then throw (FrameError.TooLarge MAX_FRAME_BYTES)
      else
        write_all (u32_le (Z.of_nat (String.length body))) ;!
        write_all body ;!
        flush
  end.
End Frames.

Definition read_frame {T} `{Codec T} : FrameM T :=
  let! len_buf := read_exact 4 in
  let len := from_le_bytes len_buf in
  if (MAX_FRAME_BYTES <? len)%Z then throw (FrameError.TooLarge len)
  else
    let! body := read_exact (Z.to_nat len) in
    lift (ok_or (from_slice body) FrameError.Codec).

(** ** The client *)

Record DaemonInfo := mkDaemonInfo {
  di_pid : Z;
  di_socket_path : string;
  di_token : string;
  di_protocol_version : Z;
  di_pii_loaded : bool;
  di_inj_loaded : bool;
}.

Section Client.
Context `{Codec Hello} `{Codec Request} `{Codec Response} (wr : Writer).

(** [m.ok()?] gives [None] on an error. *)
Definition exchange (token : string) (request : Request) : M Stream FrameError (option Response) :=
  let! sent := attempt (write_frame wr (mkHello PROTOCOL_VERSION token)) in
  match sent with
  | Err _ => ret None
  | Ok _ =>
      let! greeted := attempt (read_frame : FrameM Response) in
      match greeted with
      | Ok (Response.HelloOk v _ _) =>
          if negb (v =? PROTOCOL_VERSION)%Z then ret None
          else
            let! sent := attempt (write_frame wr request) in
            match sent with
            | Err _ => ret None
            | Ok _ =>
                let! answer := attempt (read_frame : FrameM Response) in
                match answer with
                | Err _ => ret None
                | Ok (Response.Error _) => ret None
                | Ok other => ret (Some other)
                end
            end
      | _ => ret None
      end
  end.
End Client.

(** ** The server *)

(** [started.elapsed()] is a reading of the clock for each request. *)
Record DaemonCaps := mkDaemonCaps {
  caps_token : string;
  caps_scanner : option (string → result ScanError RedactionResult);
  caps_pii_loaded : bool;
  caps_inj_loaded : bool;
}.

Definition wire_finding_of (text : string) (f : Finding) : option WireFinding :=
  label ← PrivacyLabel.from_kind (fd_kind f);
  let '(start, end_) := fd_span f in
  if (end_ <? start)%nat || (String.length text <? end_)%nat then None
  else if negb (is_char_boundary text start) || negb (is_char_boundary text end_) then None
  else Some (mkWireFinding (PrivacyLabel.as_str label) start end_).

Definition to_wire_findings (result : RedactionResult) (text : string) : list WireFinding :=
  omap (wire_finding_of text) (findings result).

(** In the default build an injection request is only acknowledged. *)
Definition dispatch (uptime_secs : Z) (req : Request) (caps : DaemonCaps) : Response :=
  match req with
  | Request.Status =>
      Response.Status (caps_pii_loaded caps) (caps_inj_loaded caps) uptime_secs 0
  | Request.RedactScan _ text =>
      match caps_scanner caps with
      | None => Response.Findings []
      | Some scan =>
          match scan text with
          | Ok result => Response.Findings (to_wire_findings result text)
          | Err ScanError.EmptyInput => Response.Findings []
          | Err (ScanError.InferenceFailed _) => Response.Error "scan_failed"
          end
      end
  | Request.ClassifyInjection _ _ => Response.Ack
  end.

Section Server.
Context `{Codec Hello} `{Codec Request} `{Codec Response} (wr : Writer).

(** The request loop. A turn that goes on has read a frame, which has at least
    four bytes, so the length of what is still to be read is fuel enough. The loop
    has no error of its own; here an error says that the fuel was not enough. *)
Fixpoint serve_requests (fuel : nat) (uptime : nat → Z) (i : nat) (caps : DaemonCaps)
    : FrameM unit :=
  match fuel with
  | O => throw FrameError.Io
  | S n =>
      let! req := attempt (read_frame : FrameM Request) in
      match req with
      | Err _ => ret tt
      | Ok req =>
          let! sent := attempt (write_frame wr (dispatch (uptime i) req caps)) in
          match sent with
          | Err _ => ret tt
          | Ok _ => serve_requests n uptime (S i) caps
          end
      end
  end.

Definition handle_connection (uptime : nat → Z) (caps : DaemonCaps) : FrameM unit :=
  let! hello := attempt (read_frame : FrameM Hello) in
  match hello with
  | Err _ => ret tt
  | Ok hello =>
      if negb (hello_version hello =? PROTOCOL_VERSION)%Z
         || negb (String.eqb (hello_token hello) (caps_token caps)) then
        ignore (write_frame wr (Response.Error "handshake_rejected"))
      else
        let! sent := attempt (write_frame wr
          (Response.HelloOk PROTOCOL_VERSION (caps_pii_loaded caps) (caps_inj_loaded caps))) in
        match sent with
        | Err _ => ret tt
        | Ok _ => λ s, serve_requests (S (String.length (st_in s))) uptime 0 caps s
        end
  end.
End Server.

(** ** Slots

    The counters that bound the connections and the classifications at once;
    their operations are atomic, and threads interleave between them. *)

(** [acquire_slot], as its two operations on the counter: the [fetch_add], and the
    [fetch_sub] of a thread that found it full. *)
Definition fetch_add (counter max : nat) : nat * bool := (S counter, (max <=? counter)%nat).

Definition MAX_ACTIVE_CONNECTIONS : nat := 64.

(** The counter, the threads that hold a slot, and those that found it full and
    have not stepped back yet. *)
Record Slots := mkSlots { sl_counter : nat; sl_holding : nat; sl_full : nat }.

Inductive slot_step (max : nat) : Slots → Slots → Prop :=
| slot_acquired c h f c' :
    fetch_add c max = (c', false) → slot_step max (mkSlots c h f) (mkSlots c' (S h) f)
| slot_refused c h f c' :
    fetch_add c max = (c', true) → slot_step max (mkSlots c h f) (mkSlots c' h (S f))
| slot_stepped_back c h f :
    slot_step max (mkSlots c h (S f)) (mkSlots (c - 1) h f)
| slot_released c h f :
    slot_step max (mkSlots c (S h) f) (mkSlots (c - 1) h f).
