(* ===== verification/IpcProps.v ===== *)
(** * What the daemon protocol guarantees

    A client takes as an answer only what a server of its version sent as one; a
    client and a server of one token understand each other; the counter of the
    slots never admits more threads than it should. *)

From S2P Require Import Prelude Deps Holes Redact Wire Ipc.

(** ** Frames *)

Lemma from_le_u32 x : (0 ≤ x < 2 ^ 32)%Z → from_le_bytes (u32_le x) = x.
Proof.
  intros Hx. unfold u32_le, Bytes.byte. cbn [from_le_bytes].
  rewrite !nat_ascii_embedding by (apply Nat2Z.inj_lt; rewrite Z2Nat.id;
    [by apply Z.mod_pos_bound|by apply Z.mod_pos_bound]).
  rewrite !Z2Nat.id by by apply Z.mod_pos_bound.
  change 65536%Z with (256 * 256)%Z. change 16777216%Z with (256 * 256 * 256)%Z.
  rewrite <- !Z.div_div by lia.
  set (a := (x `div` 256)%Z). set (b := (a `div` 256)%Z). set (c := (b `div` 256)%Z).
  pose proof (Z.div_mod x 256 ltac:(done)) as E1. pose proof (Z.div_mod a 256 ltac:(done)) as E2.
  pose proof (Z.div_mod b 256 ltac:(done)) as E3. fold a in E1. fold b in E2. fold c in E3.
  assert (c `mod` 256 = c)%Z as ->.
  { apply Z.mod_small. unfold c, b, a. rewrite !Z.div_div by lia. split.
    - apply Z.div_pos; lia.
    - apply Z.div_lt_upper_bound; lia. }
  lia.
Qed.

Section Codec.
Context {T} `{Codec T}.

(** The bytes of a frame, as written and as read. *)
Definition framed (m : T) (bytes : string) : Prop :=
  ∃ body, to_vec m = Some body ∧ (Z.of_nat (String.length body) ≤ MAX_FRAME_BYTES)%Z ∧
    bytes = u32_le (Z.of_nat (String.length body)) +:+ body.

Definition reads_as (bytes : string) (m : T) : Prop :=
  ∃ len body, bytes = len +:+ body ∧ String.length len = 4%nat ∧
    from_le_bytes len = Z.of_nat (String.length body) ∧
    (Z.of_nat (String.length body) ≤ MAX_FRAME_BYTES)%Z ∧ from_slice body = Some m.

Lemma framed_reads `{!CodecLaws T} m bytes : framed m bytes → reads_as bytes m.
Proof.
  intros (body & Hv & Hl & ->). exists (u32_le (Z.of_nat (String.length body))), body.
  split_and!; [done|done| |done|by eapply codec_roundtrip].
  apply from_le_u32. unfold MAX_FRAME_BYTES in Hl. lia.
Qed.

Lemma read_frame_reads bytes m rest out w :
  reads_as bytes m →
  (read_frame : FrameM T) (mkStream (bytes +:+ rest) out w) = (Ok m, mkStream rest out w).
Proof.
  intros (len & body & -> & H4 & Hlen & Hmax & Hm). unfold read_frame, bind at 1, read_exact at 1.
  cbn [st_in st_out st_writes]. rewrite !Str.length_append, (proj2 (Nat.leb_le _ _)) by lia.
  rewrite <- Str.append_assoc, <- H4, Str.take_length_append, Str.drop_length_append, Hlen.
  destruct (Z.ltb_spec MAX_FRAME_BYTES (Z.of_nat (String.length body))); [lia|].
  unfold bind, read_exact. cbn [st_in st_out st_writes].
  rewrite Nat2Z.id, Str.length_append, (proj2 (Nat.leb_le _ _)) by lia.
  rewrite Str.take_length_append, Str.drop_length_append. unfold lift. by rewrite Hm.
Qed.

Lemma read_frame_inv s m s' :
  (read_frame : FrameM T) s = (Ok m, s') →
  ∃ bytes, reads_as bytes m ∧ st_in s = bytes +:+ st_in s' ∧ st_out s' = st_out s
    ∧ st_writes s' = st_writes s.
Proof.
  unfold read_frame, bind at 1, read_exact at 1. destruct s as [inp out w]. cbn [st_in st_out st_writes].
  destruct (Nat.leb_spec 4 (String.length inp)) as [H4|H4]; [|done].
  set (len := Str.take 4 inp). set (rest := Str.drop 4 inp).
  assert (inp = len +:+ rest) as E by apply take_drop_split.
  assert (String.length len = 4%nat) as Hlen by (by apply Str.length_take).
  assert (0 ≤ from_le_bytes len)%Z as Hpos by (clear; induction len; simpl; lia).
  destruct (Z.ltb_spec MAX_FRAME_BYTES (from_le_bytes len)) as [?|Hmax]; [done|].
  unfold bind, read_exact. cbn [st_in st_out st_writes].
  destruct (Nat.leb_spec (Z.to_nat (from_le_bytes len)) (String.length rest)) as [Hb|Hb]; [|done].
  unfold lift. destruct (from_slice _) as [m'|] eqn:Em; [|done].
  intros [= <- <-]. cbn [st_in st_out st_writes].
  set (body := Str.take (Z.to_nat (from_le_bytes len)) rest) in *.
  assert (String.length body = Z.to_nat (from_le_bytes len)) as Hbl by (by apply Str.length_take).
  exists (len +:+ body). split_and!; [|by rewrite <- Str.append_assoc; unfold body; rewrite <- take_drop_split|done|done].
  exists len, body. split_and!; [done|done|rewrite Hbl; lia|rewrite Hbl; lia|done].
Qed.

Lemma write_frame_framed wr m bytes inp out w :
  (∀ n, wr n = None) → framed m bytes →
  write_frame wr m (mkStream inp out w) = (Ok tt, mkStream inp (out +:+ bytes) (S (S (S w)))).
Proof.
  intros Hwr (body & Hv & Hl & ->). unfold write_frame. rewrite Hv.
  destruct (Z.ltb_spec MAX_FRAME_BYTES (Z.of_nat (String.length body))); [lia|].
  unfold flush, bind, write_all. cbn [st_in st_out st_writes]. rewrite !Hwr. cbn [st_in st_out st_writes].
  by rewrite !Str.append_nil_r, Str.append_assoc.
Qed.

Lemma write_frame_inv wr m s s' :
  write_frame wr m s = (Ok tt, s') →
  ∃ bytes, framed m bytes ∧ st_out s' = st_out s +:+ bytes ∧ st_in s' = st_in s.
Proof.
  unfold write_frame. destruct (to_vec m) as [body|] eqn:Ev; [|done].
  destruct (Z.ltb_spec MAX_FRAME_BYTES (Z.of_nat (String.length body))) as [?|Hl]; [done|].
  unfold flush, bind, write_all. destruct s as [inp out w]. cbn [st_in st_out st_writes].
  destruct (wr w); [done|]. cbn [st_in st_out st_writes].
  destruct (wr (S w)); [done|]. cbn [st_in st_out st_writes].
  destruct (wr (S (S w))); [done|]. intros [= <-]. cbn [st_in st_out].
  exists (u32_le (Z.of_nat (String.length body)) +:+ body).
  split_and!; [by exists body|by rewrite Str.append_nil_r, Str.append_assoc|done].
Qed.
End Codec.

(** ** The client *)

Section Protocol.
Context `{Codec Hello} `{Codec Request} `{Codec Response}.

Definition is_error (r : Response) : bool :=
  match r with
  | Response.Error _ => true
  | _ => false
  end.

(** A client fails closed. Whatever the other side sends, ends or breaks off, and
    whichever write fails, [exchange] returns; it gives an answer only if it sent its
    token and then the request, received the greeting of its own version and after
    that a frame that is this answer, and the answer is not an error. *)
Theorem exchange_fails_closed wr token request s :
  ∃ answer s', exchange wr token request s = (Ok answer, s') ∧
    ∀ r, answer = Some r →
      is_error r = false ∧
      (∃ hello req, framed (mkHello PROTOCOL_VERSION token) hello ∧ framed request req
         ∧ st_out s' = st_out s +:+ hello +:+ req) ∧
      (∃ p i greeting reply,
         reads_as greeting (Response.HelloOk PROTOCOL_VERSION p i) ∧ reads_as reply r
         ∧ st_in s = greeting +:+ reply +:+ st_in s').
Proof.
  unfold exchange, bind at 1, attempt at 1.
  destruct (write_frame wr (mkHello PROTOCOL_VERSION token) s) as [[[]|e] s1] eqn:E1;
    [|by eexists _, _].
  unfold bind at 1, attempt at 1.
  destruct ((read_frame : FrameM Response) s1) as [[g|e] s2] eqn:E2; [|by eexists _, _].
  destruct g as [v p i|fs| |p i u n|m]; try by eexists _, _.
  destruct (Z.eqb_spec v PROTOCOL_VERSION) as [->|_]; [|by eexists _, _]. cbn [negb].
  unfold bind at 1, attempt at 1.
  destruct (write_frame wr request s2) as [[[]|e] s3] eqn:E3; [|by eexists _, _].
  unfold bind at 1, attempt at 1.
  destruct ((read_frame : FrameM Response) s3) as [[r|e] s4] eqn:E4; [|by eexists _, _].
  apply write_frame_inv in E1 as (hello & Hh & Ho1 & Hi1).
  apply read_frame_inv in E2 as (greeting & Hg & Hi2 & Ho2 & _).
  apply write_frame_inv in E3 as (req & Hr & Ho3 & Hi3).
  apply read_frame_inv in E4 as (reply & Hp & Hi4 & Ho4 & _).
  destruct r as [v p' i'|fs| |p' i' u n|m] eqn:Er; try (by eexists _, _);
    (eexists _, _; split; [reflexivity|]; intros r' [= <-]; split; [done|]; split;
     [exists hello, req; split_and!; [done|done|by rewrite Ho4, Ho3, Ho2, Ho1, Str.append_assoc]
     |exists p, i, greeting, reply; split_and!;
        [done|done|by rewrite <- Hi1, Hi2, <- Hi3, Hi4]]).
Qed.

(** ** A conversation *)

Definition never_fails (wr : Writer) : Prop := ∀ n, wr n = None.

(** *** The end of a connection *)

Lemma read_frame_consumes {T} `{Codec T} s m s' :
  (read_frame : FrameM T) s = (Ok m, s') → (String.length (st_in s') < String.length (st_in s))%nat.
Proof.
  intros (bytes & (len & body & -> & H4 & _) & -> & _)%read_frame_inv.
  rewrite !Str.length_append, H4. lia.
Qed.

(** One turn of the request loop. *)
Lemma serve_turn wr uptime caps n i s :
  serve_requests wr (S n) uptime i caps s =
    match (read_frame : FrameM Request) s with
    | (Err _, s1) => (Ok tt, s1)
    | (Ok req, s1) =>
        match write_frame wr (dispatch (uptime i) req caps) s1 with
        | (Err _, s2) => (Ok tt, s2)
        | (Ok _, s2) => serve_requests wr n uptime (S i) caps s2
        end
    end.
Proof.
  cbn [serve_requests]. unfold bind at 1, attempt at 1.
  destruct ((read_frame : FrameM Request) s) as [[req|e] s1]; [|done].
  unfold bind at 1, attempt at 1. by destruct (write_frame _ _ _) as [[[]|e] s2].
Qed.

(** Fuel above the number of bytes still to be read makes no difference. *)
Lemma serve_requests_ends wr uptime caps n : ∀ s i,
  (String.length (st_in s) < n)%nat →
  (serve_requests wr n uptime i caps s).1 = Ok tt ∧
  ∀ n', (n ≤ n')%nat →
    serve_requests wr n' uptime i caps s = serve_requests wr n uptime i caps s.
Proof.
  induction n as [|n IH]; intros s i Hn; [lia|]. rewrite serve_turn.
  destruct ((read_frame : FrameM Request) s) as [[req|e] s1] eqn:E1; cycle 1.
  { split; [done|]. intros [|n'] Hle; [lia|]. by rewrite serve_turn, E1. }
  destruct (write_frame wr (dispatch (uptime i) req caps) s1) as [[[]|e] s2] eqn:E2; cycle 1.
  { split; [done|]. intros [|n'] Hle; [lia|]. by rewrite serve_turn, E1, E2. }
  pose proof (write_frame_inv _ _ _ _ E2) as (_ & _ & _ & Hin).
  pose proof (read_frame_consumes _ _ _ E1) as Hlt. rewrite <- Hin in Hlt.
  destruct (IH s2 (S i)) as [IH1 IH2]; [lia|].
  split; [done|]. intros [|n'] Hle; [lia|]. rewrite serve_turn, E1, E2. apply IH2. lia.
Qed.


Definition as_answer (r : Response) : option Response := if is_error r then None else Some r.

Definition greeting_of (caps : DaemonCaps) : Response :=
  Response.HelloOk PROTOCOL_VERSION (caps_pii_loaded caps) (caps_inj_loaded caps).

Context `{!CodecLaws Hello} `{!CodecLaws Request} `{!CodecLaws Response}.

(** The request loop on one request and the end of the stream. *)
Lemma serve_one wr uptime i caps request bytes reply out w :
  never_fails wr → framed request bytes → framed (dispatch (uptime i) request caps) reply →
  ∃ s', serve_requests wr (S (String.length bytes)) uptime i caps (mkStream bytes out w)
          = (Ok tt, s') ∧ st_out s' = out +:+ reply.
Proof.
  intros Hwr Hb Hr. pose proof (framed_reads _ _ Hb) as Hrd.
  assert (∃ n, String.length bytes = S n) as [n En].
  { destruct Hb as (body & _ & _ & ->). rewrite Str.length_append.
    exists (3 + String.length body)%nat. done. }
  rewrite En. cbn [serve_requests]. unfold bind at 1, attempt at 1.
  rewrite <- (Str.append_nil_r bytes), (read_frame_reads _ _ _ _ _ Hrd).
  unfold bind at 1, attempt at 1. rewrite (write_frame_framed _ _ _ _ _ _ Hwr Hr).
  unfold bind at 1, attempt at 1, read_frame, bind at 1, read_exact at 1. cbn [st_in String.length].
  by eexists.
Qed.

(** C26. Client and server understand each other. On a stream that works, a server
    that reads what a client writes answers the greeting and the result of
    [dispatch], and the client that reads this returns the result, or [None] if it
    is an error; a client with another token gets [None]. *)
Theorem conversation wr uptime caps token request hello req greeting reply refusal :
  never_fails wr →
  framed (mkHello PROTOCOL_VERSION token) hello → framed request req →
  framed (greeting_of caps) greeting → framed (dispatch (uptime 0%nat) request caps) reply →
  framed (Response.Error "handshake_rejected") refusal →
  let known := String.eqb token (caps_token caps) in
  let served := handle_connection wr uptime caps (mkStream (hello +:+ req) "" 0) in
  served.1 = Ok tt ∧
  st_out served.2 = (if known then greeting +:+ reply else refusal) ∧
  (exchange wr token request (mkStream (st_out served.2) "" 0)).1
    = Ok (if known then as_answer (dispatch (uptime 0%nat) request caps) else None).
Proof.
  intros Hwr Hh Hq Hg Hp Hf known served.
  assert (∃ s', served = (Ok tt, s') ∧ st_out s' = (if known then greeting +:+ reply else refusal))
    as (s' & -> & Ho); [|cbn [fst snd]; rewrite Ho; split; [done|]; split; [done|]].
  - unfold served, handle_connection, bind at 1, attempt at 1.
    rewrite (read_frame_reads _ _ _ _ _ (framed_reads _ _ Hh)). cbn [hello_version hello_token].
    rewrite Z.eqb_refl. fold known. destruct known; cbn [negb orb].
    + unfold bind, attempt. rewrite (write_frame_framed _ _ _ _ _ _ Hwr Hg). cbn [st_in].
      by apply (serve_one wr uptime 0 caps request req reply ("" +:+ greeting) 3).
    + unfold ignore. rewrite (write_frame_framed _ _ _ _ _ _ Hwr Hf). by eexists.
  - unfold exchange, bind at 1, attempt at 1.
    rewrite (write_frame_framed _ _ _ _ _ _ Hwr Hh). unfold bind at 1, attempt at 1.
    destruct known.
    + rewrite (read_frame_reads _ _ _ _ _ (framed_reads _ _ Hg)).
      unfold greeting_of. rewrite Z.eqb_refl. cbn [negb].
      unfold bind at 1, attempt at 1. rewrite (write_frame_framed _ _ _ _ _ _ Hwr Hq).
      unfold bind, attempt.
      rewrite <- (Str.append_nil_r reply), (read_frame_reads _ _ _ _ _ (framed_reads _ _ Hp)).
      by destruct (dispatch (uptime 0%nat) request caps).
    + by rewrite <- (Str.append_nil_r refusal), (read_frame_reads _ _ _ _ _ (framed_reads _ _ Hf)).
Qed.
End Protocol.

(** What a server reports lies within the text and between its characters: the
    client drops none of it but empty spans. *)
Lemma wire_findings_valid result text f :
  f ∈ to_wire_findings result text → (wf_start f < wf_end f)%nat →
  wire_valid text (String.length text) f = true.
Proof.
  unfold to_wire_findings. intros (x & Hx & Hf)%list_elem_of_omap Hne. revert Hf. unfold wire_finding_of.
  destruct (PrivacyLabel.from_kind _) as [label|]; [|done]. simpl.
  destruct (fd_span x) as [s e].
  destruct ((e <? s)%nat || (String.length text <? e)%nat) eqn:E1; [done|].
  destruct (negb (is_char_boundary text s) || negb (is_char_boundary text e)) eqn:E2; [done|].
  intros [= <-]. bool_to_prop. simpl in Hne. unfold wire_valid. simpl.
  rewrite !andb_true_iff, Nat.ltb_lt, Nat.leb_le, <- Nat.ltb_ge. done.
Qed.

(** ** Slots *)

Definition slots_inv (max : nat) (s : Slots) : Prop :=
  sl_counter s = (sl_holding s + sl_full s)%nat ∧ (sl_holding s ≤ max)%nat.

(** However the threads interleave, no more of them hold a slot than there are,
    and the counter counts the holders and those about to step back; so once nobody
    is about to step back, a thread gets a slot exactly if one is free. *)
Theorem slots_never_exceed max s :
  rtc (slot_step max) (mkSlots 0 0 0) s →
  (sl_holding s ≤ max)%nat ∧ sl_counter s = (sl_holding s + sl_full s)%nat ∧
  (sl_full s = 0%nat → (fetch_add (sl_counter s) max).2 = false ↔ (sl_holding s < max)%nat).
Proof.
  intros Hr. assert (slots_inv max s) as [Hc Hh].
  { refine (rtc_ind_r (slots_inv max) _ _ _ s Hr); unfold slots_inv; simpl; [lia|].
    intros y z _ Hs [Hc Hh]. destruct Hs as [c h f c' E|c h f c' E|c h f|c h f];
      unfold fetch_add in *; simpl in *.
    - injection E as <- E%Nat.leb_gt. lia.
    - injection E as <- E. lia.
    - lia.
    - lia. }
  split_and!; [done|done|]. intros Hf. unfold fetch_add. simpl. rewrite Nat.leb_gt. lia.
Qed.

(** ** Witnesses *)

(** Codecs of a few messages: the text of each, after a letter for its kind. *)
#[local] Instance toy_hello : Codec Hello := {|
  to_vec h := if (hello_version h =? 1)%Z then Some (hello_token h) else None;
  from_slice s := Some (mkHello 1 s);
|}.

#[local] Instance toy_request : Codec Request := {|
  to_vec r := match r with
              | Request.RedactScan ScanKind.Result text => Some text
              | _ => None
              end;
  from_slice s := Some (Request.RedactScan ScanKind.Result s);
|}.

#[local] Instance toy_response : Codec Response := {|
  to_vec r := match r with
              | Response.HelloOk 1 true false => Some "H"
              | Response.Findings [] => Some "F"
              | Response.Error m => Some ("E" +:+ m)
              | _ => None
              end;
  from_slice s := match s with
                  | String "H" "" => Some (Response.HelloOk 1 true false)
                  | String "F" "" => Some (Response.Findings [])
                  | String "E" m => Some (Response.Error m)
                  | _ => None
                  end;
|}.

#[local] Instance toy_hello_laws : CodecLaws Hello.
Proof.
  split. intros [v tok] body. simpl. destruct (Z.eqb_spec v 1) as [->|]; [|done].
  by intros [= ->].
Qed.

#[local] Instance toy_request_laws : CodecLaws Request.
Proof. split. intros [[] text|s text|] body; simpl; try done. by intros [= ->]. Qed.

#[local] Instance toy_response_laws : CodecLaws Response.
Proof.
  split. intros [v p i|fs| |p i u n|m] body; simpl; try done.
  - destruct v as [|[]|]; try done. destruct p, i; try done. by intros [= <-].
  - destruct fs; [|done]. by intros [= <-].
  - by intros [= <-].
Qed.

Definition sample_caps : DaemonCaps := mkDaemonCaps "tok" (Some (λ _, Err ScanError.EmptyInput)) true false.

Definition frame_of (body : string) : string := u32_le (Z.of_nat (String.length body)) +:+ body.

Lemma framed_of {T} `{Codec T} (m : T) body :
  to_vec m = Some body → (Z.of_nat (String.length body) ≤ MAX_FRAME_BYTES)%Z →
  framed m (frame_of body).
Proof. intros Hv Hl. by exists body. Qed.

(** A stranger is refused, and takes that for no answer. *)
Lemma conversation_witness :
  (exchange (λ _, None) "guess" (Request.RedactScan ScanKind.Result "x")
    (mkStream (st_out (handle_connection (λ _, None) (λ _, 0%Z) sample_caps
                 (mkStream (frame_of "guess" +:+ frame_of "x") "" 0)).2) "" 0)).1 = Ok None.
Proof.
  assert (∀ n, (λ _ : nat, @None nat) n = None) as Hw by reflexivity.
  refine (proj2 (proj2 (conversation (λ _, None) (λ _, 0%Z) sample_caps "guess"
    (Request.RedactScan ScanKind.Result "x") (frame_of "guess") (frame_of "x") (frame_of "H")
    (frame_of "F") (frame_of "Ehandshake_rejected") Hw _ _ _ _ _)));
    apply framed_of; try reflexivity; vm_compute; discriminate.
Defined.

(** Two threads, one slot. *)
Lemma slots_never_exceed_witness : (sl_holding (mkSlots 2 1 1) ≤ 1)%nat.
Proof.
  apply (slots_never_exceed 1 (mkSlots 2 1 1)).
  eapply rtc_l; [by apply slot_acquired|]. eapply rtc_l; [by apply slot_refused|]. apply rtc_refl.
Defined.
