(* ===== verification/Preflight.v ===== *)
(** * The firewall's preflight scan

    [src/crates/vigil-firewall/src/preflight.rs], lines 20 to 406: the long
    texts among a call's arguments are scanned before any rule is evaluated;
    what is found is counted for the rules, weighed for the score, and recorded
    in the ledger without the text. The scanner is an interface ([PiiScanner]);
    [DefaultScanner] is [scan_text]. *)

From stdpp Require Import pretty.
From S2P Require Import Prelude Types Policy Deps Db Ledger Scans Approvals Holes Redact.

Module EngineStatusReport.
Inductive EngineStatusReport := Ok | DegradedTimeout | DegradedError | Unsupported.

#[global] Instance EngineStatusReport_eq_dec : EqDecision EngineStatusReport.
Proof. solve_decision. Defined.

Definition stable_code (s : EngineStatusReport) : string :=
  match s with
  | Ok => "ok"
  | DegradedTimeout => "degraded_timeout"
  | DegradedError => "degraded_error"
  | Unsupported => "unsupported"
  end.

Definition rank (s : EngineStatusReport) : nat :=
  match s with
  | DegradedError => 3
  | DegradedTimeout => 2
  | Ok => 1
  | Unsupported => 0
  end.

(** [From<vigil_redaction::EngineStatus>] *)
Definition from_engine (s : EngineStatus) : EngineStatusReport :=
  match s with
  | EngineStatus.Ok => Ok
  | EngineStatus.DegradedTimeout => DegradedTimeout
  | EngineStatus.DegradedError => DegradedError
  end.
End EngineStatusReport.
Abbreviation EngineStatusReport := EngineStatusReport.EngineStatusReport.

Definition elevate_status (a b : EngineStatusReport) : EngineStatusReport :=
  if (EngineStatusReport.rank b <=? EngineStatusReport.rank a)%nat then a else b.

(** [trait PiiScanner] *)
Class PiiScanner := {
  scan_with_status : string → result ScanError (RedactionResult * EngineStatusReport);
}.

(** The trait's default for [scan_with_status]. *)
Definition default_scan_with_status (scan : string → result ScanError RedactionResult)
    (text : string) : result ScanError (RedactionResult * EngineStatusReport) :=
  let? r := scan text in Ok (r, EngineStatusReport.Unsupported).

Definition DefaultScanner `{HardRules} : PiiScanner :=
  {| scan_with_status := default_scan_with_status scan_text |}.

(** The strings of at least [threshold] bytes, depth first. *)
Fixpoint walk (threshold : nat) (v : Value) : list string :=
  match v with
  | JStr s => if (threshold <=? String.length s)%nat then [s] else []
  | JArr xs => flat_map (walk threshold) xs
  | JObj m => flat_map (λ kv, walk threshold kv.2) m
  | _ => []
  end.

Definition extract_long_text_fields (args : Value) (threshold : nat) : list string :=
  walk threshold args.

Definition compute_pii_risk_delta (r : RedactionResult) : Z := total_risk_delta (risk_signals r).

(** The firewall's mutable state: the ledger it writes to, and the count of
    audit writes that failed. *)
Record FirewallState := mkFirewallState {
  ledger : LedgerState;
  audit_persist_failures : Z;
}.

(** A call into the ledger; its error is a value. *)
Definition on_ledger {E A} (m : LedgerM A) : M FirewallState E (result AuditError A) :=
  λ s, let '(r, l) := m (ledger s) in (Ok r, mkFirewallState l (audit_persist_failures s)).

(** [audit_persist_failures.fetch_add(1)] *)
Definition count_audit_failure {E} : M FirewallState E unit :=
  modify (λ s, mkFirewallState (ledger s) ((audit_persist_failures s + 1) `mod` 2 ^ 64)%Z).

Definition try_audit {E A} (m : LedgerM A) : M FirewallState E unit :=
  let! r := on_ledger m in
  match r with
  | Ok _ => ret tt
  | Err _ => count_audit_failure
  end.

Module PreflightError.
Inductive PreflightError := ScanFailed (reason : string).
End PreflightError.
Abbreviation PreflightError := PreflightError.PreflightError.

Record PreflightOutcome := mkPreflightOutcome {
  pii_summary : list PiiFindingSummary;
  risk_delta : Z;
  engine_status : EngineStatusReport;
}.

Definition counts_csv (o : PreflightOutcome) : string :=
  Str.join "," ((λ p, pii_label p +:+ "=" +:+ show_Z (pii_count p)) <$> pii_summary o).

Section Preflight.
Context `{Crates} `{Redaction}.

(** [sha256(bytes)[..16]] in lower-case hexadecimal. *)
Definition sha256_prefix16_hex (bytes : string) : string :=
  hex_encode (Str.take 16 (sha256 bytes)).

(** [&text[start..end]] *)
Definition slice (start end_ : nat) (text : string) : string :=
  Str.take (end_ - start) (Str.drop start text).

Fixpoint persist_findings (scan_id text : string) (fs : list Finding) : LedgerM unit :=
  match fs with
  | [] => ret tt
  | f :: rest =>
      match PrivacyLabel.from_kind (fd_kind f) with
      | None => persist_findings scan_id text rest
      | Some label =>
          let '(start, end_) := fd_span f in
          if (end_ <? start)%nat || (String.length text <? end_)%nat
             || negb (is_char_boundary text start) || negb (is_char_boundary text end_)
          then persist_findings scan_id text rest
          else
            insert_redaction_finding
              (mkNewRedactionFinding scan_id (PrivacyLabel.as_str label) (Z.of_nat start)
                 (sha256_prefix16_hex (slice start end_ text)) "redacted") ;!
            persist_findings scan_id text rest
      end
  end.

Definition persist_scan_to_ledger (now : Z) (id session_id text : string)
    (r : RedactionResult) : LedgerM unit :=
  let! scan_id := insert_redaction_scan now id
    (mkNewRedactionScan session_id "tool_arg" (Z.of_nat (String.length text))
       (sha256_prefix16_hex text)) in
  persist_findings scan_id text (findings r).

(** What the loop of [run_preflight] accumulates. *)
Record Tallied := mkTallied {
  by_label : gmap string Z;
  tallied_risk : Z;
  worst_status : EngineStatusReport;
}.

(** [*by_label.entry(label).or_insert(0) += cnt] for each count of a result. *)
Definition add_counts (counts : gmap PrivacyLabel Z) (m : gmap string Z) : gmap string Z :=
  foldl (λ m c, <[PrivacyLabel.as_str c.1 :=
                    ((default 0 (m !! PrivacyLabel.as_str c.1) + c.2) `mod` 2 ^ 32)%Z]> m)
    m (map_to_list counts).

Definition tally_result (acc : Tallied) (r : RedactionResult) (status : EngineStatusReport)
    : Tallied :=
  mkTallied (add_counts (counts_by_label (risk_signals r)) (by_label acc))
    (u32_saturating_add (tallied_risk acc) (compute_pii_risk_delta r))
    (elevate_status (worst_status acc) status).

(** The readings of the clock and the fresh ids, by position of the text. *)
Record ScanReadings := mkScanReadings {
  scan_now : nat → Z;
  scan_uuid : nat → string;
}.

Fixpoint scan_texts `{PiiScanner} (rd : ScanReadings) (session_id : string) (i : nat)
    (acc : Tallied) (texts : list string) : M FirewallState PreflightError Tallied :=
  match texts with
  | [] => ret acc
  | text :: rest =>
      match scan_with_status text with
      | Ok (r, status) =>
          try_audit (persist_scan_to_ledger (scan_now rd i) (scan_uuid rd i) session_id text r) ;!
          scan_texts rd session_id (S i) (tally_result acc r status) rest
      | Err ScanError.EmptyInput => scan_texts rd session_id (S i) acc rest
      | Err (ScanError.InferenceFailed _) =>
          throw (PreflightError.ScanFailed "t0_inference_failed")
      end
  end.

Definition tallied_start : Tallied := mkTallied ∅ 0 EngineStatusReport.Unsupported.

(** A [BTreeMap] is read in the order of its keys. *)
Definition summary_of (m : gmap string Z) : list PiiFindingSummary :=
  (λ c, mkPiiFindingSummary c.1 c.2) <$>
    Sort.sort (λ a b, Str.leb a.1 b.1) (map_to_list m).

Definition run_preflight `{PiiScanner} (rd : ScanReadings) (session_id : string) (args : Value)
    (threshold : nat) : M FirewallState PreflightError PreflightOutcome :=
  let long_texts := extract_long_text_fields args threshold in
  let! acc := scan_texts rd session_id 0 tallied_start long_texts in
  ret (mkPreflightOutcome (summary_of (by_label acc)) (tallied_risk acc) (worst_status acc)).
End Preflight.
