(* ===== verification/Firewall.v ===== *)
(** * The firewall

    [src/crates/vigil-firewall/src/engine.rs]: the effects a call would have, the
    trust in its tool's descriptor, the risk, and what the policy decides, written
    to the ledger before the outcome is returned; when the policy asks, an
    approval is queued. The effect extractors are the trait objects the firewall
    is built with ([EffectExtractor]); the clock and the fresh ids of one call are
    [Readings]. *)

From stdpp Require Import pretty.
From S2P Require Import Prelude Types Policy Scorer Deps Db Hash Ledger Approvals Redact Preflight.

Module FirewallError.
Inductive FirewallError :=
| Policy (e : PolicyError)
| Audit (e : AuditError)
| ReservedScopeKey
| PreflightScanFailed (reason : string).
End FirewallError.
Abbreviation FirewallError := FirewallError.FirewallError.

Record FirewallConfig := mkFirewallConfig {
  fc_project_roots : list string;
  fc_allowed_hosts : list string;
  fc_allowed_scopes : gmap string (list string);
  approval_ttl_secs : Z;
  long_text_threshold : nat;
}.

Definition firewall_config_default : FirewallConfig := mkFirewallConfig [] [] ∅ 300 100.

Module OAuthScopeContext.
Inductive OAuthScopeContext := NonOauth | Scopes (s : list string).

Definition into_policy_requested_scopes (c : OAuthScopeContext) : option (list string) :=
  match c with
  | NonOauth => None
  | Scopes s => Some s
  end.
End OAuthScopeContext.
Abbreviation OAuthScopeContext := OAuthScopeContext.OAuthScopeContext.

Module FirewallOutcome.
Inductive FirewallOutcome :=
| Allowed (decision : DecisionRecord) (effects : EffectVector)
| Denied (decision : DecisionRecord) (effects : EffectVector)
| Approve (decision : DecisionRecord) (effects : EffectVector) (approval : ApprovalRequest).

Definition decision_kind (o : FirewallOutcome) : DecisionKind :=
  match o with
  | Allowed _ _ => DecisionKind.Allow
  | Denied _ _ => DecisionKind.Deny
  | Approve _ _ _ => DecisionKind.Approve
  end.

Definition effects (o : FirewallOutcome) : EffectVector :=
  match o with
  | Allowed _ e | Denied _ e | Approve _ e _ => e
  end.

Definition decision (o : FirewallOutcome) : DecisionRecord :=
  match o with
  | Allowed d _ | Denied d _ | Approve d _ _ => d
  end.
End FirewallOutcome.
Abbreviation FirewallOutcome := FirewallOutcome.FirewallOutcome.

(** [trait EffectExtractor] *)
Definition EffectExtractor : Type := ToolInvocation → EffectVector → EffectVector.

Record Firewall := mkFirewall {
  fw_policy : PolicyEngine;
  fw_scorer : RiskScorer;
  fw_extractors : list EffectExtractor;
  fw_config : FirewallConfig;
}.

(** [Firewall::with_scanner], with the extractors it builds as an argument. *)
Definition firewall_new (policy : PolicyEngine) (extractors : list EffectExtractor)
    (config : FirewallConfig) : Firewall :=
  mkFirewall policy (scorer_new (fc_allowed_hosts config) (fc_project_roots config))
    extractors config.

Definition RESERVED_ALLOWLIST_KEYS : list string := ["allowed_hosts"].

(** [retain(|k| seen.insert( *k))]: the first of each. *)
Fixpoint retain_first (seen : list EffectKind) (l : list EffectKind) : list EffectKind :=
  match l with
  | [] => []
  | k :: rest =>
      if contains_effect k seen then retain_first seen rest
      else k :: retain_first (k :: seen) rest
  end.

(** [v.dedup()]: equal neighbours collapse. *)
Fixpoint dedup (l : list string) : list string :=
  match l with
  | x :: rest =>
      match rest with
      | y :: _ => if String.eqb x y then dedup rest else x :: dedup rest
      | [] => [x]
      end
  | [] => []
  end.

Definition sort_dedup (l : list string) : list string := dedup (Sort.sort Str.leb l).

Definition dedup_effects (e : EffectVector) : EffectVector :=
  mkEffectVector (retain_first [] (effects e)) (sort_dedup (paths_read e))
    (sort_dedup (paths_write e)) (sort_dedup (network_hosts e)) (sort_dedup (Types.secret_refs e))
    (sort_dedup (recipients e)) (destructive e) (reversible e).

Definition extract_effects (fw : Firewall) (call : ToolInvocation) : EffectVector :=
  dedup_effects (foldl (λ e ex, ex call e) effect_vector_default (fw_extractors fw)).

Definition map_action (a : PolicyAction) : DecisionKind :=
  match a with
  | PolicyAction.Allow => DecisionKind.Allow
  | PolicyAction.Deny => DecisionKind.Deny
  | PolicyAction.Approve => DecisionKind.Approve
  end.

Definition merge_reasons (score policy : list string) : list string := score ++ policy.

Definition part_if {A} (l : list A) (s : string) : list string :=
  match l with
  | [] => []
  | _ => [s]
  end.

Definition summarize (call : ToolInvocation) (e : EffectVector) (d : DecisionRecord)
    : string * string :=
  (ti_tool_name call +:+ " on " +:+ ti_server_id call,
   Str.join " | "
     (["risk " +:+ show_Z (dr_risk_score d) +:+ "/100"]
      ++ part_if (paths_write e) ("writes: " +:+ Str.join ", " (paths_write e))
      ++ part_if (paths_read e) ("reads: " +:+ len_str (paths_read e))
      ++ part_if (network_hosts e) ("hosts: " +:+ Str.join ", " (network_hosts e))
      ++ part_if (Types.secret_refs e) ("secrets: " +:+ Str.join ", " (Types.secret_refs e))
      ++ part_if (recipients e) ("recipients: " +:+ len_str (recipients e)))).

Definition descriptor_state (d : DescriptorStatus) : DescriptorState :=
  match d with
  | DescriptorStatus.ApprovedStable => DescriptorState.ApprovedStable
  | DescriptorStatus.FirstSeen => DescriptorState.FirstSeen
  | DescriptorStatus.Drifted => DescriptorState.Drifted
  end.

(** The score the policy sees: the scorer's plus what the scan found, at most 100. *)
Definition risk_with_pii (base pii_delta : Z) : Z := Z.min 100 (u32_saturating_add base pii_delta).

(** The context of the evaluation; the scopes are merged over the hosts. *)
Definition policy_context (cfg : FirewallConfig) (risk : Z) (d : DescriptorState)
    (scopes : OAuthScopeContext) (pii : list PiiFindingSummary) : PolicyContext :=
  mkPolicyContext {["project_roots" := fc_project_roots cfg]}
    (fc_allowed_scopes cfg ∪ {["allowed_hosts" := fc_allowed_hosts cfg]}) risk d pii
    (OAuthScopeContext.into_policy_requested_scopes scopes).

Definition preflight_reason (base : Z) (pf : PreflightOutcome) (final : Z) : string :=
  "preflight: base_risk=" +:+ show_Z base +:+ " pii_delta=" +:+ show_Z (risk_delta pf)
  +:+ " final=" +:+ show_Z final +:+ " labels="
  +:+ match pii_summary pf with
      | [] => "(none)"
      | _ => counts_csv pf
      end.

(** [Some] only for a scan that degraded. *)
Definition degraded (s : EngineStatusReport) : option EngineStatusReport :=
  match s with
  | EngineStatusReport.DegradedTimeout | EngineStatusReport.DegradedError => Some s
  | EngineStatusReport.Ok | EngineStatusReport.Unsupported => None
  end.

Record Readings := mkReadings {
  rd_scan : ScanReadings;
  rd_decision_id : string;
  rd_now_decision : Z;
  rd_now_record : Z;
  rd_now_degraded : Z;
  rd_approval_id : string;
  rd_now_approval : Z;
  rd_now_approval_event : Z;
}.

(** [r.map_err(f)?], for an error already a value. *)
Definition or_fail {A} (r : result AuditError A) : M FirewallState FirewallError A :=
  lift match r with
       | Ok a => Ok a
       | Err e => Err (FirewallError.Audit e)
       end.

Section Firewall.
Context `{Crates} `{Redaction} `{PiiScanner} `{DescriptorOracle LedgerState}.

Definition compute_args_hash (args : Value) : result FirewallError string :=
  let? bytes := ok_or (jcs_to_vec args) (FirewallError.Audit AuditError.Json) in
  Ok (hex_encode (sha256 bytes)).

(** The scan, its error mapped. *)
Definition preflight (fw : Firewall) (rd : Readings) (call : ToolInvocation)
    : M FirewallState FirewallError PreflightOutcome :=
  let! r := λ s,
    let '(r, s') := run_preflight (rd_scan rd) (ti_session_id call) (ti_args call)
                      (long_text_threshold (fw_config fw)) s in
    (Ok r, s') in
  lift match r with
       | Ok o => Ok o
       | Err (PreflightError.ScanFailed reason) =>
           Err (FirewallError.PreflightScanFailed reason)
       end.

Definition degraded_payload (rd : Readings) (s : EngineStatusReport) : EngineDegradedPayload :=
  mkEngineDegradedPayload "firewall_preflight_scanner" (EngineStatusReport.stable_code s)
    (EngineStatusReport.stable_code s) None None "fall_back_hard_only" (rd_decision_id rd).

(** Step 5 of [evaluate]: what the action leads to. *)
Definition conclude (fw : Firewall) (rd : Readings) (call : ToolInvocation) (e : EffectVector)
    (d : DecisionRecord) (action : PolicyAction)
    : M FirewallState FirewallError FirewallOutcome :=
  match action with
  | PolicyAction.Allow => ret (FirewallOutcome.Allowed d e)
  | PolicyAction.Deny => ret (FirewallOutcome.Denied d e)
  | PolicyAction.Approve =>
      let '(title, summary) := summarize call e d in
      let! args_hash := lift (compute_args_hash (ti_args call)) in
      let! r := on_ledger (create_approval (rd_now_approval rd) (rd_now_approval_event rd)
        (rd_approval_id rd) (ti_session_id call) d e title summary
        (approval_ttl_secs (fw_config fw))
        (mkApprovalTargetContext (Some (ti_server_id call)) (Some (ti_tool_name call))
           (Some args_hash))) in
      let! approval := or_fail r in
      ret (FirewallOutcome.Approve d e approval)
  end.

(** [Firewall::evaluate] *)
Definition evaluate (fw : Firewall) (rd : Readings) (call : ToolInvocation)
    (scope_ctx : OAuthScopeContext) : M FirewallState FirewallError FirewallOutcome :=
  let cfg := fw_config fw in
  if existsb (λ k, bool_decide (is_Some (fc_allowed_scopes cfg !! k))) RESERVED_ALLOWLIST_KEYS
  then throw FirewallError.ReservedScopeKey
  else
    let e := extract_effects fw call in
    let! descriptor := gets (λ s, status (ledger s) (ti_server_id call) (ti_tool_name call)
                                    (ti_descriptor_hash call)) in
    let '(base_risk, score_reasons) := score (fw_scorer fw) e descriptor in
    let! pf := preflight fw rd call in
    let risk := risk_with_pii base_risk (risk_delta pf) in
    let ctx := policy_context cfg risk (descriptor_state descriptor) scope_ctx
                 (pii_summary pf) in
    let! pdec := lift match Policy.evaluate (fw_policy fw) e ctx with
                      | Ok d => Ok d
                      | Err err => Err (FirewallError.Policy err)
                      end in
    let decision_reasons :=
      merge_reasons score_reasons (pd_reasons pdec) ++ [preflight_reason base_risk pf risk]
      ++ match degraded (engine_status pf) with
         | Some s => ["engine.status=" +:+ EngineStatusReport.stable_code s]
         | None => []
         end in
    let decision := mkDecisionRecord (rd_decision_id rd) (ti_invocation_id call)
      (map_action (pd_action pdec)) risk decision_reasons (pd_policy_ids pdec)
      (rd_now_decision rd) in
    let! recorded := on_ledger
      (record_decision (rd_now_record rd) (ti_session_id call) decision e) in
    or_fail recorded ;!
    match degraded (engine_status pf) with
    | Some s => try_audit
        (record_engine_degraded (rd_now_degraded rd) (ti_session_id call) (degraded_payload rd s))
    | None => ret tt
    end ;!
    conclude fw rd call e decision (pd_action pdec).
End Firewall.
