(* ===== verification/FirewallProps.v ===== *)
(** * What the firewall guarantees

    An outcome is what the policy decided on everything that was inferred, and
    it is in the ledger before it is returned; nothing is allowed on an error. *)

From S2P Require Import Prelude Types Policy PolicyFacts Scorer Deps Concrete Db Hash Ledger LedgerFacts Approvals ApprovalFacts Scans Registry Oracle RegistryFacts RegistryProps Redact Preflight Firewall.

(** The scanner reports its risk as a u32. *)
Class PiiScannerLaws `{PiiScanner} : Prop := {
  scan_risk_u32 text r st :
    scan_with_status text = Ok (r, st) → (0 ≤ compute_pii_risk_delta r ≤ Int.u32_max)%Z;
}.

Section DefaultScanner.
Context `{HardRules}.

#[export] Instance default_scanner_laws : PiiScannerLaws (H := DefaultScanner).
Proof.
  split. intros text r st. simpl. unfold default_scan_with_status.
  destruct (scan_text text) as [r'|] eqn:E; [|done]. simpl. intros [= <- <-].
  unfold scan_text, scan_text_with_engine, scan_text_with_engine_with_lang in E.
  destruct (Str.is_empty text); [done|]. simpl in E. injection E as <-.
  unfold compute_pii_risk_delta. simpl.
  pose proof (scan_spec_ok text []) as (_ & _ & Ht & _). simpl in Ht.
  unfold hard_hits in Ht. rewrite Ht. fold (hard_hits text).
  assert (0 ≤ risk_sum (merge_findings (hard_hits text) []))%Z; [|unfold Int.u32_max in *; lia].
  exact (risk_sum_pos _ (scan_risks text [])).
Qed.
End DefaultScanner.

(** ** What the firewall may do to the ledger *)

(** The ledger part of the state moves by [approval_step]: the log only grows and
    keeps its invariant, approvals only evolve. *)
Definition fw_step `{Crates} `{Redaction} (s s' : FirewallState) : Prop :=
  approval_step (ledger s) (ledger s').

Section Steps.
Context `{CratesLaws} `{Redaction}.

#[export] Instance fw_step_preorder : PreOrder fw_step.
Proof.
  split; unfold fw_step.
  - intros s. reflexivity.
  - intros s t u. apply transitivity.
Qed.

Lemma on_ledger_step {E A} (m : LedgerM A) :
  preserves approval_step m → preserves fw_step (on_ledger m : M FirewallState E _).
Proof.
  intros Hm s. unfold on_ledger, fw_step. specialize (Hm (ledger s)).
  by destruct (m (ledger s)).
Qed.

Lemma count_audit_failure_step {E} :
  preserves fw_step (count_audit_failure : M FirewallState E unit).
Proof. intros s. unfold fw_step. simpl. reflexivity. Qed.

Lemma try_audit_step {E A} (m : LedgerM A) :
  preserves approval_step m → preserves fw_step (try_audit m : M FirewallState E unit).
Proof.
  intros Hm. unfold try_audit. apply preserves_bind; [apply _|by apply on_ledger_step|].
  intros [a|e]; [apply preserves_ret; apply _|apply count_audit_failure_step].
Qed.

Lemma insert_scan_step now id scan : preserves approval_step (insert_redaction_scan now id scan).
Proof.
  unfold insert_redaction_scan, invalid. preserve. intros. apply approval_step_log; [|done..].
  by apply log_step_other.
Qed.

Lemma insert_finding_step f : preserves approval_step (insert_redaction_finding f).
Proof.
  unfold insert_redaction_finding, invalid. preserve. intros. apply approval_step_log; [|done..].
  by apply log_step_other.
Qed.

Lemma persist_scan_step now id sid text r :
  preserves approval_step (persist_scan_to_ledger now id sid text r).
Proof.
  unfold persist_scan_to_ledger. apply preserves_bind; [apply _|apply insert_scan_step|].
  intros scan_id. induction (findings r) as [|f fs IH]; simpl; [apply preserves_ret; apply _|].
  destruct (PrivacyLabel.from_kind (fd_kind f)); [|done]. destruct (fd_span f) as [a b].
  destruct (_ || _); [done|]. apply preserves_bind; [apply _|apply insert_finding_step|done].
Qed.

Context `{PiiScanner}.

Lemma scan_texts_step rd sid i acc texts : preserves fw_step (scan_texts rd sid i acc texts).
Proof.
  revert i acc; induction texts as [|text texts IH]; intros i acc; simpl;
    [apply preserves_ret; apply _|].
  destruct (scan_with_status text) as [[r st]|[?|]].
  - apply preserves_bind; [apply _| |done]. apply try_audit_step, persist_scan_step.
  - apply preserves_throw; apply _.
  - done.
Qed.

Lemma preflight_step fw rd call : preserves fw_step (preflight fw rd call).
Proof.
  intros s. unfold preflight, bind, lift.
  assert (preserves fw_step (run_preflight (rd_scan rd) (ti_session_id call) (ti_args call)
            (long_text_threshold (fw_config fw)))) as Hp.
  { unfold run_preflight. apply preserves_bind; [apply _|apply scan_texts_step|].
    intros acc. apply preserves_ret; apply _. }
  specialize (Hp s). by destruct (run_preflight _ _ _ _ s) as [[o|[]] s'].
Qed.

Context `{DescriptorOracle LedgerState}.

Lemma conclude_step fw rd call e d a : preserves fw_step (conclude fw rd call e d a).
Proof.
  destruct a; simpl; [apply preserves_ret; apply _..|].
  apply preserves_bind; [apply _|apply preserves_lift; apply _|]. intros args_hash.
  apply preserves_bind; [apply _|apply on_ledger_step, create_approval_step|]. intros r.
  apply preserves_bind; [apply _|apply preserves_lift; apply _|]. intros approval.
  apply preserves_ret; apply _.
Qed.

(** ** Outcomes *)

Context `{!PiiScannerLaws}.

Lemma risk_bounds base delta :
  (0 ≤ base ≤ 100)%Z → (0 ≤ delta)%Z → (base ≤ risk_with_pii base delta ≤ 100)%Z.
Proof. unfold risk_with_pii, u32_saturating_add, Int.u32_max. lia. Qed.

Lemma scan_texts_risk rd sid i acc texts s out s' :
  scan_texts rd sid i acc texts s = (Ok out, s') →
  (0 ≤ tallied_risk acc)%Z → (0 ≤ tallied_risk out)%Z.
Proof.
  revert i acc s; induction texts as [|text texts IH]; intros i acc s; simpl.
  { by intros [= <- <-]. }
  destruct (scan_with_status text) as [[r st]|[?|]] eqn:Es; [|done|apply IH].
  unfold bind. destruct (try_audit _ s) as [[[]|] s1]; [|done].
  intros E Hacc. eapply IH; [exact E|]. simpl. unfold u32_saturating_add, Int.u32_max.
  apply scan_risk_u32 in Es. lia.
Qed.

Lemma preflight_risk fw rd call s pf s' :
  preflight fw rd call s = (Ok pf, s') → (0 ≤ risk_delta pf)%Z.
Proof.
  unfold preflight, run_preflight, bind, lift, ret.
  destruct (scan_texts _ _ _ _ _ s) as [[acc|[]] s1] eqn:E; [|done].
  intros [= <- <-]. simpl. by apply (scan_texts_risk _ _ _ _ _ _ _ _ E).
Qed.

(** The decision is in the log, as the event of an append that succeeded. *)
Definition decision_logged (call : ToolInvocation) (d : DecisionRecord) (e : EffectVector)
    (s : FirewallState) : Prop :=
  ∃ row, row ∈ events (ledger s) ∧ e_event_type row = "decision.recorded"
    ∧ e_session_id row = ti_session_id call
    ∧ jcs_to_vec (decision_payload d e) = Some (e_payload_json row).

Lemma decision_logged_step call d e s s' :
  fw_step s s' → decision_logged call d e s → decision_logged call d e s'.
Proof.
  intros [[_ [l El]] _] (row & Hr & ?). exists row. rewrite El. split; [|done].
  apply elem_of_app. by left.
Qed.

Lemma record_decision_logged now call d e s l ev :
  record_decision now (ti_session_id call) d e (ledger s) = (Ok ev, l) →
  decision_logged call d e (mkFirewallState l (audit_persist_failures s)).
Proof.
  unfold record_decision, decision_logged.
  destruct (append_event_internal_inv now (ti_session_id call) "decision.recorded"
    (decision_payload d e)
    (Some ("decision_id:" +:+ dr_decision_id d +:+ " invocation_id:" +:+
           dr_invocation_id d +:+ " risk:" +:+ show_Z (dr_risk_score d))) (ledger s))
    as [[err ->]|(text & h & _ & _ & Hj & _ & _ & _ & ->)]; [done|].
  intros [= <- <-]. simpl. eexists. split; [apply elem_of_app; right; by left|]. done.
Qed.

(** The approval of an outcome that asks is pending in the queue, for this server,
    this tool and the digest of these arguments. *)
Definition approval_queued (rd : Readings) (call : ToolInvocation) (s : FirewallState) : Prop :=
  ∃ row h, approvals (ledger s) !! rd_approval_id rd = Some row ∧ a_status row = "Pending"
    ∧ compute_args_hash (ti_args call) = Ok h
    ∧ a_args_hash row = Some h ∧ a_server_id row = Some (ti_server_id call)
    ∧ a_tool_name row = Some (ti_tool_name call) ∧ a_session_id row = ti_session_id call.

Lemma conclude_spec fw rd call e d a s out s' :
  conclude fw rd call e d a s = (Ok out, s') →
  FirewallOutcome.decision out = d ∧ FirewallOutcome.effects out = e
  ∧ FirewallOutcome.decision_kind out = map_action a
  ∧ (a = PolicyAction.Approve → approval_queued rd call s').
Proof.
  destruct a; simpl; [by intros [= <- <-]..|]. unfold bind, lift.
  destruct (compute_args_hash (ti_args call)) as [h|] eqn:Eh; [|done].
  unfold on_ledger. destruct (create_approval _ _ _ _ _ _ _ _ _ _ _) as [[req|err] l] eqn:Ec;
    simpl; [|done].
  intros [= <- <-]. split_and!; [done..|]. intros _.
  unfold create_approval, insert_approval in Ec. run_m.
  destruct (approvals (ledger s) !! rd_approval_id rd); [done|]. simpl in Ec.
  unfold record_approval_created in Ec. revert Ec.
  append_cases err' ev l' n f Hlog; [done|]. intros [= <- <-].
  unfold approval_queued. simpl. rewrite lookup_insert_eq. do 2 eexists. by split_and!.
Qed.

Lemma evaluate_spec fw rd call scopes s :
  let e := extract_effects fw call in
  let d := status (ledger s) (ti_server_id call) (ti_tool_name call)
             (ti_descriptor_hash call) in
  let '(res, s') := evaluate fw rd call scopes s in
  fw_step s s' ∧
  match res with
  | Ok out => ∃ pf risk pdec,
      (preflight fw rd call s).1 = Ok pf
      ∧ ((score (fw_scorer fw) e d).1 ≤ risk ≤ 100)%Z
      ∧ Policy.evaluate (fw_policy fw) e
          (policy_context (fw_config fw) risk (descriptor_state d) scopes (pii_summary pf))
        = Ok pdec
      ∧ FirewallOutcome.decision_kind out = map_action (pd_action pdec)
      ∧ FirewallOutcome.effects out = e
      ∧ dr_policy_ids (FirewallOutcome.decision out) = pd_policy_ids pdec
      ∧ dr_risk_score (FirewallOutcome.decision out) = risk
      ∧ decision_logged call (FirewallOutcome.decision out) e s'
      ∧ (pd_action pdec = PolicyAction.Approve → approval_queued rd call s')
  | Err FirewallError.ReservedScopeKey => s' = s
  | Err (FirewallError.PreflightScanFailed _) => is_ok (preflight fw rd call s).1 = false
  | Err _ => is_ok (preflight fw rd call s).1 = true
  end.
Proof.
  set (e := extract_effects fw call). set (d := status _ _ _ _).
  assert (0 ≤ (score (fw_scorer fw) e d).1 ≤ 100)%Z as Hbase by (unfold score; simpl; lia).
  unfold evaluate. destruct (existsb _ _); [by split|].
  fold e. unfold bind at 1, gets at 1. fold d.
  destruct (score (fw_scorer fw) e d) as [base reasons] eqn:Es. simpl in Hbase.
  unfold bind at 1. pose proof (preflight_step fw rd call s) as Hpre.
  destruct (preflight fw rd call s) as [[pf|err] s1] eqn:Ep; simpl in Hpre.
  2: { split; [done|]. unfold preflight, bind, lift in Ep.
       destruct (run_preflight _ _ _ _ s) as [[o|[reason]] s2]; simplify_eq; done. }
  pose proof (preflight_risk _ _ _ _ _ _ Ep) as Hdelta.
  pose proof (risk_bounds base (risk_delta pf) Hbase Hdelta) as Hrisk.
  set (risk := risk_with_pii base (risk_delta pf)) in *.
  unfold bind at 1, lift at 1.
  destruct (Policy.evaluate (fw_policy fw) e _) as [pdec|perr] eqn:Epol; [|by split].
  set (dec := mkDecisionRecord _ _ _ _ _ _ _).
  unfold bind at 1, on_ledger at 1.
  pose proof (record_decision_approval (rd_now_record rd) (ti_session_id call) dec e (ledger s1))
    as Hrec.
  destruct (record_decision _ _ dec e (ledger s1)) as [[ev|aerr] l] eqn:Er; simpl in Hrec.
  2: { unfold bind at 1, or_fail, lift. split; [|done]. etransitivity; [exact Hpre|done]. }
  apply record_decision_logged in Er. set (s2 := mkFirewallState l _) in *. change (fw_step s1 s2) in Hrec.
  unfold bind at 1, or_fail, lift at 1.
  set (audit := match degraded (engine_status pf) with Some _ => _ | None => _ end).
  assert (preserves fw_step audit ∧ ∀ s, (audit s).1 = Ok tt) as [Hau Hauok].
  { unfold audit. destruct (degraded (engine_status pf)) as [st|]; [|split; [|done];
      apply preserves_ret; apply _]. split.
    - apply try_audit_step. intros t. apply append_event_internal_approval.
    - intros t. unfold try_audit, bind, on_ledger. by destruct (record_engine_degraded _ _ _ _)
        as [[?|?] ?]. }
  unfold bind at 1. specialize (Hau s2). specialize (Hauok s2).
  destruct (audit s2) as [r s3]. simpl in Hau, Hauok. subst r.
  pose proof (conclude_step fw rd call e dec (pd_action pdec) s3) as Hcon.
  destruct (conclude fw rd call e dec (pd_action pdec) s3) as [[out|err] s4] eqn:Ec; simpl in Hcon.
  - split.
    + etransitivity; [exact Hpre|]. etransitivity; [exact Hrec|]. by etransitivity.
    + apply conclude_spec in Ec as (Ed & Ee & Ek & Ea). exists pf, risk, pdec. rewrite Ed.
      split_and!; try done; [exact (proj1 Hrisk)|exact (proj2 Hrisk)|].
      eapply decision_logged_step; [exact Hcon|].
      by eapply decision_logged_step.
  - split.
    + etransitivity; [exact Hpre|]. etransitivity; [exact Hrec|]. by etransitivity.
    + destruct (pd_action pdec); simpl in Ec; [done..|]. unfold bind, lift in Ec.
      unfold compute_args_hash in Ec. destruct (jcs_to_vec (ti_args call)); simpl in Ec.
      * unfold on_ledger in Ec. destruct (create_approval _ _ _ _ _ _ _ _ _ _ _) as [[?|?] ?];
          simpl in Ec; by simplify_eq.
      * by simplify_eq.
Qed.

(** C3. The firewall returns what the policy decided, after recording it. If the
    evaluation returns an outcome, then the preflight scan succeeded and the
    policy was evaluated on the deduplicated effects of all extractors, the trust
    in the descriptor, the personal data found and a risk score at least the
    scorer's; the outcome's kind, policy ids and score are that decision's; the
    decision is an event of the ledger; and an outcome that asks has its approval
    pending in the queue. Whatever it returns, the log only grew and approvals
    only evolved; a reserved scope key changes nothing. *)
Theorem evaluate_decides_and_records fw rd call scopes s :
  let e := extract_effects fw call in
  let d := status (ledger s) (ti_server_id call) (ti_tool_name call)
             (ti_descriptor_hash call) in
  let '(res, s') := evaluate fw rd call scopes s in
  fw_step s s' ∧
  match res with
  | Ok out => ∃ pf risk pdec,
      (preflight fw rd call s).1 = Ok pf
      ∧ ((score (fw_scorer fw) e d).1 ≤ risk ≤ 100)%Z
      ∧ Policy.evaluate (fw_policy fw) e
          (policy_context (fw_config fw) risk (descriptor_state d) scopes (pii_summary pf))
        = Ok pdec
      ∧ FirewallOutcome.decision_kind out = map_action (pd_action pdec)
      ∧ FirewallOutcome.effects out = e
      ∧ dr_policy_ids (FirewallOutcome.decision out) = pd_policy_ids pdec
      ∧ dr_risk_score (FirewallOutcome.decision out) = risk
      ∧ decision_logged call (FirewallOutcome.decision out) e s'
      ∧ (pd_action pdec = PolicyAction.Approve → approval_queued rd call s')
  | Err FirewallError.ReservedScopeKey => s' = s
  | Err (FirewallError.PreflightScanFailed _) => is_ok (preflight fw rd call s).1 = false
  | Err _ => is_ok (preflight fw rd call s).1 = true
  end.
Proof. apply evaluate_spec. Qed.
End Steps.

(** ** The default rules over the registry *)

Section Default.
Context `{CratesLaws} `{Redaction} `{PiiScanner} `{!PiiScannerLaws}.

#[local] Existing Instance RegistryDescriptorOracle.

Lemma effect_absent k l : contains_effect k l = false → k ∉ l.
Proof. intros E Hin%contains_effect_elem. by rewrite E in Hin. Qed.

(** What the default rules let through without a human, in terms of the effects the
    extractors found. *)
Lemma default_firewall_allows extractors cfg rd call scopes s dec e s' :
  evaluate (firewall_new (engine_new default_ruleset) extractors cfg) rd call scopes s
    = (Ok (FirewallOutcome.Allowed dec e), s') →
  tool_pinned (ti_server_id call) (ti_tool_name call) (ti_descriptor_hash call) (ledger s)
  ∧ server_trusted (ti_server_id call) (ledger s)
  ∧ (EffectKind.FsRead ∈ effects e ∧ paths_read e ≠ []
     ∧ Forall (λ p, under_any_root p (fc_project_roots cfg) = true) (paths_read e))
  ∧ Forall (λ k, k ∉ effects e)
      [EffectKind.ExecNative; EffectKind.SecretUse; EffectKind.CommSend;
       EffectKind.BrowserSubmit]
  ∧ (EffectKind.DbWrite ∈ effects e → destructive e = false)
  ∧ (EffectKind.FsWrite ∈ effects e → paths_write e = [])
  ∧ (EffectKind.NetOutbound ∈ effects e →
       hosts_allowed e (fc_allowed_hosts cfg) = true
       ∧ ∃ pf, (preflight (firewall_new (engine_new default_ruleset) extractors cfg)
                  rd call s).1 = Ok pf
           ∧ (pii_hits "secret" (pii_summary pf) < 1)%Z)
  ∧ decision_logged call dec e s'.
Proof.
  set (fw := firewall_new _ _ _). intros E.
  pose proof (evaluate_spec fw rd call scopes s) as Hs. cbv zeta in Hs. rewrite E in Hs.
  destruct Hs as (_ & pf & risk & pdec & Hpf & _ & Hpol & Hk & He & _ & _ & Hlog & _).
  simpl in Hk, He, Hlog. set (d := status _ _ _ _) in *.
  assert (fc_allowed_scopes cfg !! "allowed_hosts" = None) as Hscopes.
  { unfold evaluate in E. destruct (existsb _ _) eqn:Ex in E; [done|]. simpl in Ex.
    rewrite orb_false_r in Ex. apply bool_decide_eq_false_1 in Ex.
    by apply eq_None_not_Some. }
  set (ctx := policy_context _ _ _ _ _) in Hpol.
  assert (roots ctx !! "project_roots" = Some (fc_project_roots cfg)) as Hroots.
  { unfold ctx. simpl. apply lookup_singleton_eq. }
  assert (allowlists ctx !! "allowed_hosts" = Some (fc_allowed_hosts cfg)) as Hhosts.
  { unfold ctx. simpl. rewrite lookup_union_r by done. apply lookup_singleton_eq. }
  destruct (default_verdict (extract_effects fw call) ctx _ _ Hroots Hhosts) as (pd & Hpd & Ha).
  rewrite <- He in *. clear He.
  change (fw_policy fw) with (engine_new default_ruleset) in Hpol. rewrite Hpol in Hpd. injection Hpd as <-.
  assert (pd_action pdec = PolicyAction.Allow) as Hallow by (by destruct (pd_action pdec)).
  apply Ha in Hallow. unfold default_allows in Hallow.
  repeat rewrite andb_true_iff in Hallow.
  destruct Hallow as [[[[[[[[A1 A2] A3] A4] A5] A6] A7] A8] A9].
  apply bool_decide_eq_true_1 in A4.
  assert (d = DescriptorStatus.ApprovedStable) as Hd
    by (unfold ctx in A4; simpl in A4; by destruct d).
  apply approved_stable_iff in Hd as (_ & (r & Hr & Hl & _) & Ht).
  rewrite negb_true_iff, !orb_false_iff in A5. destruct A5 as [[[A51 A52] A53] A54].
  split_and!.
  - exact Ht.
  - by exists r.
  - by apply contains_effect_elem.
  - intros En. by rewrite En in A2.
  - apply Forall_forall. intros p Hp. rewrite forallb_forall in A3. apply A3.
    by apply list_elem_of_In.
  - repeat constructor; by apply effect_absent.
  - intros Hk'%contains_effect_elem. rewrite Hk' in A6. by destruct (destructive e).
  - intros Hk'%contains_effect_elem. rewrite Hk' in A7. by destruct (paths_write e).
  - intros Hk'%contains_effect_elem. rewrite Hk' in A8, A9. simpl in A8, A9. split.
    + rewrite orb_false_r in A8. done.
    + exists pf. split; [done|]. apply negb_true_iff, Z.leb_gt in A9. exact A9.
  - exact Hlog.
Qed.
End Default.

(** ** Witnesses *)

Section Toy.
Import Toy.

#[local] Instance toy_rules : HardRules :=
  {| hard_rule_spans _ := []; url_rule_spans _ := [] |}.
#[local] Existing Instance DefaultScanner.
#[local] Existing Instance RegistryDescriptorOracle.

(** An extractor that takes every call for a read of one file. *)
Definition read_extractor : EffectExtractor :=
  λ _ e, mkEffectVector (effects e ++ [EffectKind.FsRead]) (paths_read e ++ ["/p/a"])
           (paths_write e) (network_hosts e) (Types.secret_refs e) (recipients e)
           (destructive e) true.

Definition sample_call : ToolInvocation :=
  mkToolInvocation "inv" "s1" "srv" "read" (JObj [("path", JStr "/p/a")]) sample_hash 1.

Definition sample_readings : Readings :=
  mkReadings (mkScanReadings (λ _, 1%Z) (λ _, "scan")) "dec" 1 1 1 "app" 1 1.

Definition sample_firewall : Firewall :=
  firewall_new (engine_new default_ruleset) [read_extractor]
    (mkFirewallConfig ["/p"] [] ∅ 300 100).

Definition sample_state : FirewallState :=
  mkFirewallState (foldl run_registry empty_ledger sample_registry) 0.

Definition is_allowed (r : result FirewallError FirewallOutcome) : bool :=
  match r with
  | Ok (FirewallOutcome.Allowed _ _) => true
  | _ => false
  end.

Lemma sample_allowed :
  is_allowed (evaluate sample_firewall sample_readings sample_call
                OAuthScopeContext.NonOauth sample_state).1 = true.
Proof. vm_compute. reflexivity. Qed.

Lemma evaluate_decides_and_records_witness :
  ∃ out s', evaluate sample_firewall sample_readings sample_call
              OAuthScopeContext.NonOauth sample_state = (Ok out, s')
    ∧ decision_logged sample_call (FirewallOutcome.decision out)
        (extract_effects sample_firewall sample_call) s'.
Proof.
  pose proof sample_allowed as Hb.
  pose proof (evaluate_decides_and_records sample_firewall sample_readings sample_call
                OAuthScopeContext.NonOauth sample_state) as Hs.
  destruct (evaluate sample_firewall sample_readings sample_call
              OAuthScopeContext.NonOauth sample_state)
    as [[out|err] s']; [|discriminate Hb].
  exists out, s'. split; [reflexivity|].
  destruct Hs as (_ & pf & risk & pdec & _ & _ & _ & _ & _ & _ & _ & Hlog & _). exact Hlog.
Defined.
End Toy.
