(* ===== verification/Extract.v ===== *)
(** * The effect extractors

    [src/crates/vigil-firewall/src/extract.rs] and [catalog.rs]: what a call
    would do, read from its arguments and from the name of its tool. Paths are
    those of a POSIX host. Regular expressions, URL parsing, shell words and the
    file system are the crates' and the host's ([TextCrates], [FileSystem]); the
    patterns are the source's. *)

From S2P Require Import Prelude Types Text Policy Deps Firewall.

(** ** Adding to an effect vector *)

Definition push_effect (k : EffectKind) (e : EffectVector) : EffectVector :=
  mkEffectVector (effects e ++ [k]) (paths_read e) (paths_write e) (network_hosts e)
    (secret_refs e) (recipients e) (destructive e) (reversible e).

Definition extend_read (l : list string) (e : EffectVector) : EffectVector :=
  mkEffectVector (effects e) (paths_read e ++ l) (paths_write e) (network_hosts e)
    (secret_refs e) (recipients e) (destructive e) (reversible e).

Definition extend_write (l : list string) (e : EffectVector) : EffectVector :=
  mkEffectVector (effects e) (paths_read e) (paths_write e ++ l) (network_hosts e)
    (secret_refs e) (recipients e) (destructive e) (reversible e).

Definition extend_hosts (l : list string) (e : EffectVector) : EffectVector :=
  mkEffectVector (effects e) (paths_read e) (paths_write e) (network_hosts e ++ l)
    (secret_refs e) (recipients e) (destructive e) (reversible e).

Definition extend_secret_refs (l : list string) (e : EffectVector) : EffectVector :=
  mkEffectVector (effects e) (paths_read e) (paths_write e) (network_hosts e)
    (secret_refs e ++ l) (recipients e) (destructive e) (reversible e).

Definition extend_recipients (l : list string) (e : EffectVector) : EffectVector :=
  mkEffectVector (effects e) (paths_read e) (paths_write e) (network_hosts e)
    (secret_refs e) (recipients e ++ l) (destructive e) (reversible e).

Definition set_destructive (e : EffectVector) : EffectVector :=
  mkEffectVector (effects e) (paths_read e) (paths_write e) (network_hosts e)
    (secret_refs e) (recipients e) true (reversible e).

(** [if b { out.destructive = true; }] *)
Definition destructive_if (b : bool) (e : EffectVector) : EffectVector :=
  if b then set_destructive e else e.

(** The strings of an array, the other values passed over. *)
Definition array_strs (l : list Value) : list string := omap as_str l.

(** A field that is a string or an array of strings. *)
Definition field_strs (args : Value) (key : string) : list string :=
  match json_get key args with
  | Some (JStr s) => [s]
  | Some (JArr a) => array_strs a
  | _ => []
  end.

(** A field that is a string. *)
Definition field_str (args : Value) (key : string) : list string :=
  match json_get key args with
  | Some (JStr s) => [s]
  | _ => []
  end.

(** ** Paths *)

Definition PATH_KEYS : list string :=
  ["path"; "paths"; "file"; "files"; "filename"; "filepath"; "dir"; "directory"; "folder"].

Definition ALIAS_KEYS : list string :=
  ["src"; "source"; "dst"; "dest"; "destination"; "target"; "input"; "output"].

Definition WRITE_KEYWORDS : list string :=
  ["write"; "create"; "edit"; "patch"; "delete"; "unlink"; "rm"; "move"; "rename"; "append";
   "chmod"; "chown"; "mkdir"; "remove"; "truncate"; "overwrite"; "save"; "upload"].

Definition looks_like_path (s : string) : bool :=
  let s := trim s in
  if Str.is_empty s || str_contains "://" s || has_whitespace s then false
  else if str_contains "/" s || str_contains "\" s || Str.starts_with "." s
          || Str.starts_with "~" s then true
  else match rsplit_once "." s with
       | Some (stem, ext) =>
           negb (Str.is_empty stem)
           && ((1 <=? String.length ext)%nat && (String.length ext <=? 8)%nat)
           && Str.all is_ascii_alphanumeric ext
           && any is_ascii_alphabetic ext
       | None => false
       end.

Definition collect_paths (args : Value) : list string :=
  flat_map (field_strs args) PATH_KEYS
  ++ flat_map (λ k, List.filter looks_like_path (field_strs args k)) ALIAS_KEYS.

Definition is_write_call (tool_name : string) : bool :=
  let lower := to_ascii_lowercase tool_name in
  existsb (λ kw, str_contains kw lower) WRITE_KEYWORDS.

(** [std::path::Component] on a POSIX host. *)
Module Component.
Inductive Component := RootDir | CurDir | ParentDir | Normal (name : string).

#[global] Instance Component_eq_dec : EqDecision Component.
Proof. solve_decision. Defined.

Definition as_os_str (c : Component) : string :=
  match c with
  | RootDir => "/"
  | CurDir => "."
  | ParentDir => ".."
  | Normal name => name
  end.
End Component.
Abbreviation Component := Component.Component.

(** [Path::is_absolute], [PathBuf::push], [Path::join] *)
Definition is_absolute (p : string) : bool := Str.starts_with "/" p.

Definition path_push (buf p : string) : string :=
  if is_absolute p then p
  else if Str.is_empty buf || Str.ends_with "/" buf then buf +:+ p
  else buf +:+ "/" +:+ p.

Definition component_of (name : string) : Component :=
  if String.eqb name ".." then Component.ParentDir else Component.Normal name.

(** [Path::components]: empty names and [.] are passed over, save a leading [.]. *)
Definition components (p : string) : list Component :=
  let names := split_char "/" p in
  (if is_absolute p then [Component.RootDir]
   else match names with
        | "." :: _ => [Component.CurDir]
        | _ => []
        end)
  ++ map component_of
       (List.filter (λ n, negb (String.eqb n "") && negb (String.eqb n ".")) names).

(** One turn of the loop; the last component of [out] first. *)
Definition normalize_step (out : list Component) (comp : Component) : list Component :=
  match comp with
  | Component.CurDir => out
  | Component.ParentDir =>
      match out with
      | [] | Component.RootDir :: _ => out
      | Component.ParentDir :: _ => Component.ParentDir :: out
      | _ :: rest => rest
      end
  | _ => comp :: out
  end.

Definition path_of (comps : list Component) : string :=
  foldl (λ buf c, path_push buf (Component.as_os_str c)) "" comps.

Definition manual_normalize (p : string) : string :=
  match foldl normalize_step [] (components p) with
  | [] => "."
  | out => path_of (rev out)
  end.

(** A verbatim Windows path starts with two backslashes, [?] and a backslash. *)
Definition to_posix (p : string) : string :=
  str_replace "\" "/" (default p (strip_prefix "\\?\" p)).

(** ** Static tables *)

Definition URL_KEYS : list string :=
  ["url"; "endpoint"; "uri"; "href"; "link"; "webhook"; "webhook_url"; "callback_url"].

Definition SQL_KEYS : list string := ["sql"; "query"; "statement"].

Definition DESTRUCTIVE_SQL : string := "(?i)\b(DELETE|DROP|TRUNCATE|ALTER|UPDATE|REPLACE)\b".
Definition READ_ONLY_SQL : string := "(?i)^\s*(SELECT|SHOW|DESCRIBE|EXPLAIN|WITH)\b".
Definition SECRET_REF_RE : string := "secret://[A-Za-z0-9._\-/]+".

Definition DESTRUCTIVE_BINARIES : list string :=
  ["rm"; "rmdir"; "shred"; "mkfs"; "fdisk"; "format"; "del"; "dd"; "srm"; "erase"].

Definition SHELL_WRAPPERS : list string :=
  ["sh"; "bash"; "zsh"; "ksh"; "dash"; "fish"; "cmd"; "cmd.exe"; "powershell";
   "powershell.exe"; "pwsh"; "pwsh.exe"].

Definition SHELL_EVAL_FLAGS : list string :=
  ["-c"; "-lc"; "-Command"; "/c"; "/C"; "-Cmd"; "--command"].

Definition PROTECTED_PATHS : list string :=
  ["/"; "/etc"; "/usr"; "/var"; "/bin"; "/sbin"; "/boot"; "/sys"; "/proc"; "~"; "~/.ssh";
   "~/.config"; "~/.aws"; "~/.docker"; "C:\"; "C:\Windows"; "%SystemRoot%";
   "%USERPROFILE%\.ssh"].

Definition LF : string := String "010"%char EmptyString.

Definition SHELL_METACHARS : list string :=
  ["&&"; "||"; "|"; "&"; ";"; ">"; ">>"; "<"; "<<"; "$("; "`"; "\" +:+ LF].

Definition EMAIL_KEYS : list string := ["to"; "cc"; "bcc"; "recipients"].

(** What follows the last [/] or backslash. *)
Definition basename (p : string) : string :=
  let after c := match rfind c p with Some i => S i | None => 0%nat end in
  Str.drop (Nat.max (after "/"%char) (after "\"%char)) p.

Definition path_hits_protected (arg protected : string) : bool :=
  let a := trim_matches is_quote arg in
  String.eqb a protected || Str.starts_with (protected +:+ "/") a
  || Str.starts_with (protected +:+ "\") a.

Definition strip_exe (s : string) : string := default s (strip_suffix ".exe" s).

(** What makes a command line destructive; [argv] is not empty. *)
Definition has_meta (argv : list string) : bool :=
  existsb (λ m, str_contains m (Str.join " " argv)) SHELL_METACHARS.

Definition wrapper_with_script (argv : list string) : bool :=
  match argv with
  | [] => false
  | bin :: rest =>
      let bin_lower := to_ascii_lowercase (basename bin) in
      existsb (λ w, String.eqb (strip_exe w) (strip_exe bin_lower) || String.eqb w bin_lower)
        SHELL_WRAPPERS
      && (existsb (λ a, existsb (String.eqb a) SHELL_EVAL_FLAGS) rest
          || existsb (λ a, str_contains " " a || str_contains LF a) rest)
  end.

Definition is_destructive_bin (argv : list string) : bool :=
  match argv with
  | [] => false
  | bin :: _ =>
      let bin_lower := to_ascii_lowercase (basename bin) in
      existsb (λ d, String.eqb (strip_exe bin_lower) d || String.eqb bin_lower d)
        DESTRUCTIVE_BINARIES
  end.

Definition rm_dangerous (argv : list string) : bool :=
  is_destructive_bin argv
  && existsb (λ a, existsb (String.eqb a) ["-rf"; "-fr"; "-r"]) argv.

Definition hits_protected (argv : list string) : bool :=
  existsb (λ a, existsb (path_hits_protected a) PROTECTED_PATHS) argv.

Definition is_destructive_argv (argv : list string) : bool :=
  has_meta argv || wrapper_with_script argv || is_destructive_bin argv || rm_dangerous argv
  || hits_protected argv.

(** ** The catalog *)

Record CatalogEntry := mkCatalogEntry {
  server_hints : list string;
  ce_tool : string;
  ce_effects : list EffectKind;
  ce_destructive : bool;
}.

(** [e(..)]: an entry that is not destructive. *)
Definition catalog_e (hints : list string) (tool : string) (effects : list EffectKind)
    : CatalogEntry := mkCatalogEntry hints tool effects false.

Definition CATALOG : list CatalogEntry :=
  let fs := ["filesystem"; "file"; "fs"] in
  let read := [EffectKind.FsRead] in
  let write := [EffectKind.FsWrite] in
  let ask := [EffectKind.NetOutbound; EffectKind.SecretUse] in
  let publish := [EffectKind.NetOutbound; EffectKind.SecretUse; EffectKind.CommSend] in
  map (λ t, catalog_e fs t read)
    ["read_file"; "read_text_file"; "read_media_file"; "read_multiple_files";
     "list_directory"; "list_directory_with_sizes"; "directory_tree"; "search_files";
     "get_file_info"]
  ++ map (λ t, catalog_e fs t write) ["write_file"; "edit_file"; "create_directory"; "move_file"]
  ++ [catalog_e ["fetch"; "http"; "web"] "fetch" [EffectKind.NetOutbound]]
  ++ map (λ t, catalog_e ["git"] t read) ["git_status"; "git_log"; "git_diff"; "git_show"]
  ++ map (λ t, catalog_e ["git"] t write) ["git_add"; "git_commit"]
  ++ map (λ t, catalog_e ["github"] t ask)
       ["search_repositories"; "get_file_contents"; "get_issue"; "list_issues"]
  ++ map (λ t, catalog_e ["github"] t publish)
       ["create_issue"; "create_pull_request"; "add_issue_comment"; "create_or_update_file";
        "push_files"]
  ++ map (λ t, catalog_e ["brave"] t ask) ["brave_web_search"; "brave_local_search"]
  ++ map (λ t, catalog_e ["slack"] t publish) ["slack_post_message"; "slack_reply_to_thread"]
  ++ [catalog_e ["postgres"; "postgresql"; "pg"] "query" [EffectKind.DbRead]].

(** [if !out.effects.contains(&eff) { out.effects.push(eff); }] *)
Definition push_new (e : EffectVector) (k : EffectKind) : EffectVector :=
  if contains_effect k (effects e) then e else push_effect k e.

Definition entry_matches (call : ToolInvocation) (entry : CatalogEntry) : bool :=
  String.eqb (ce_tool entry) (ti_tool_name call)
  && (match server_hints entry with [] => true | _ => false end
      || existsb (λ h, str_contains h (to_ascii_lowercase (ti_server_id call)))
           (server_hints entry)).

Definition apply_entry (call : ToolInvocation) (out : EffectVector) (entry : CatalogEntry)
    : EffectVector :=
  if entry_matches call entry then
    destructive_if (ce_destructive entry) (foldl push_new out (ce_effects entry))
  else out.

Definition CatalogExtractor : EffectExtractor :=
  λ call out, foldl (apply_entry call) out CATALOG.

(** ** The extractors *)

Section Extractors.
Context `{Crates} `{TextCrates} `{FileSystem}.

(** A relative path is one of the first project root. *)
Definition absolute_path (project_roots : list string) (raw : string) : string :=
  if is_absolute raw then raw
  else match project_roots with
       | root :: _ => path_push root raw
       | [] => raw
       end.

Definition canonicalize (project_roots : list string) (raw : string) : string :=
  let abs := absolute_path project_roots raw in
  to_posix (default (manual_normalize abs) (fs_canonicalize abs)).

Definition PathExtractor (project_roots : list string) : EffectExtractor :=
  λ call out,
    match collect_paths (ti_args call) with
    | [] => out
    | paths =>
        let norm := map (canonicalize project_roots) paths in
        if is_write_call (ti_tool_name call)
        then extend_write norm (push_effect EffectKind.FsWrite out)
        else extend_read norm (push_effect EffectKind.FsRead out)
    end.

Definition url_hosts (urls : list string) : list string :=
  map to_ascii_lowercase (omap url_host urls).

Definition collect_hosts (args : Value) : list string :=
  url_hosts (flat_map (field_str args) URL_KEYS)
  ++ url_hosts (match json_get "urls" args with
                | Some (JArr a) => array_strs a
                | _ => []
                end).

Definition UrlExtractor : EffectExtractor :=
  λ call out,
    match collect_hosts (ti_args call) with
    | [] => out
    | hosts => extend_hosts hosts (push_effect EffectKind.NetOutbound out)
    end.

Definition apply_sql (out : EffectVector) (s : string) : EffectVector :=
  if regex_is_match READ_ONLY_SQL s && negb (regex_is_match DESTRUCTIVE_SQL s) then
    push_effect EffectKind.DbRead out
  else if regex_is_match DESTRUCTIVE_SQL s then
    set_destructive (push_effect EffectKind.DbWrite out)
  else push_effect EffectKind.DbWrite out.

Definition SqlExtractor : EffectExtractor :=
  λ call out, foldl apply_sql out (flat_map (field_str (ti_args call)) SQL_KEYS).

(** The command of a call: none, one that does not split into words, or its words. *)
Inductive ShellArgv :=
| NoCommand
| Unsplit
| Argv (argv : list string).

Definition shell_argv (args : Value) : ShellArgv :=
  match json_get "argv" args with
  | Some (JArr a) => Argv (array_strs a)
  | _ =>
      match (match json_get "command" args with
             | Some v => Some v
             | None => json_get "cmd" args
             end) with
      | Some (JStr s) =>
          match shlex_split s with
          | Some (x :: rest) => Argv (x :: rest)
          | _ => Unsplit
          end
      | _ => NoCommand
      end
  end.

Definition ShellExtractor : EffectExtractor :=
  λ call out,
    match shell_argv (ti_args call) with
    | NoCommand | Argv [] => out
    | Unsplit => set_destructive (push_effect EffectKind.ExecNative out)
    | Argv argv =>
        destructive_if (is_destructive_argv argv) (push_effect EffectKind.ExecNative out)
    end.

Definition collect_recipients (args : Value) : list string :=
  flat_map (field_strs args) EMAIL_KEYS.

Definition EmailExtractor : EffectExtractor :=
  λ call out,
    match collect_recipients (ti_args call) with
    | [] => out
    | rs => extend_recipients rs (push_effect EffectKind.CommSend out)
    end.

Definition collect_secret_refs (args : Value) : list string :=
  regex_find_iter SECRET_REF_RE (json_to_string args).

Definition SecretRefExtractor : EffectExtractor :=
  λ call out,
    match collect_secret_refs (ti_args call) with
    | [] => out
    | refs => extend_secret_refs refs (push_effect EffectKind.SecretUse out)
    end.

Definition submits (call : ToolInvocation) : bool :=
  str_contains "browser" (to_ascii_lowercase (ti_tool_name call))
  && match json_get "action" (ti_args call) with
     | Some (JStr a) => existsb (String.eqb a) ["submit"; "fill_form"; "post"]
     | _ => false
     end.

Definition BrowserActionExtractor : EffectExtractor :=
  λ call out,
    if submits call then
      extend_hosts (url_hosts (field_str (ti_args call) "origin"))
        (push_effect EffectKind.BrowserSubmit out)
    else out.

(** The extractors [Firewall::with_scanner] builds. *)
Definition builtin_extractors (project_roots : list string) : list EffectExtractor :=
  [CatalogExtractor; PathExtractor project_roots; UrlExtractor; SqlExtractor; ShellExtractor;
   EmailExtractor; SecretRefExtractor; BrowserActionExtractor].

Definition with_scanner (policy : PolicyEngine) (config : FirewallConfig) : Firewall :=
  firewall_new policy (builtin_extractors (fc_project_roots config)) config.

(** [normalize_project_root], which the command line gives its roots through. *)
Definition normalize_project_root (p : string) : string :=
  let abs := if is_absolute p then p
             else match current_dir with
                  | Some cwd => path_push cwd p
                  | None => p
                  end in
  to_posix (default (manual_normalize abs) (fs_canonicalize abs)).
End Extractors.
