(* ===== verification/Files.v ===== *)
(** * Files

    The operations of [std::fs] the program uses on its own configuration files,
    over a disk: the files by path, each with its text and the time of its last
    change. Any operation may fail, a write part of the way through, and other
    processes may change the disk between any two operations. A file that cannot
    be read as text is a read that fails. *)

From S2P Require Import Prelude Text Types Deps Extract.

(** [std::io::ErrorKind], as far as the program tells them apart. *)
Module IoError.
Inductive IoError := NotFound | Other.
End IoError.
Abbreviation IoError := IoError.IoError.

Record File := mkFile { fl_text : string; fl_modified : Z }.

Abbreviation Files := (gmap string File).

(** The files, and how many operations there were. *)
Record Disk := mkDisk { dk_files : Files; dk_ops : nat }.

(** A failure: the error, and how many bytes a write got on the disk before it
    ([None] when it did not get to open the file). *)
Record Fault := mkFault { ft_error : IoError; ft_written : option nat }.

(** What the host does at the [n]-th operation: it fails or not, other processes
    have changed files before it, the clock has a reading. *)
Class Host := {
  fault : nat → option Fault;
  meddle : nat → Files → Files;
  modified_now : nat → Z;
}.

Definition FileM : Type → Type := M Disk IoError.

Section Operations.
Context `{Host}.

Definition operate {A} (run : nat → Files → result IoError A * Files)
    (broken : nat → option nat → Files → Files) : FileM A := λ d,
  let n := dk_ops d in
  let files := meddle n (dk_files d) in
  match fault n with
  | Some f => (Err (ft_error f), mkDisk (broken n (ft_written f) files) (S n))
  | None => let '(r, files') := run n files in (r, mkDisk files' (S n))
  end.

(** An operation whose failure changes nothing. *)
Definition simple {A} (run : Files → result IoError A * Files) : FileM A :=
  operate (λ _, run) (λ _ _ files, files).

Definition reads {A} (look : File → A) (p : string) : FileM A :=
  simple (λ files, (let? f := ok_or (files !! p) IoError.NotFound in Ok (look f), files)).

Definition read_to_string : string → FileM string := reads fl_text.

(** [std::fs::metadata]: the time of the last change and the length. *)
Definition metadata : string → FileM (Z * Z) :=
  reads (λ f, (fl_modified f, Z.of_nat (String.length (fl_text f)))).

(** [Path::exists]: no error, only no. *)
Definition exists_ (p : string) : FileM bool := λ d,
  let '(r, d') := metadata p d in (Ok (is_ok r), d').

Definition write (p text : string) : FileM unit :=
  operate (λ n files, (Ok tt, <[p := mkFile text (modified_now n)]> files))
    (λ n written files,
       match written with
       | None => files
       | Some k => <[p := mkFile (Str.take k text) (modified_now n)]> files
       end).

Definition rename (from to : string) : FileM unit :=
  simple (λ files,
    match files !! from with
    | None => (Err IoError.NotFound, files)
    | Some f => (Ok tt, <[to := f]> (delete from files))
    end).

Definition remove_file (p : string) : FileM unit :=
  simple (λ files,
    match files !! p with
    | None => (Err IoError.NotFound, files)
    | Some _ => (Ok tt, delete p files)
    end).

(** [std::fs::copy], which writes the target as [write] does. *)
Definition copy (from to : string) : FileM unit :=
  operate (λ n files,
      match files !! from with
      | None => (Err IoError.NotFound, files)
      | Some f => (Ok tt, <[to := mkFile (fl_text f) (modified_now n)]> files)
      end)
    (λ n written files,
       match written, files !! from with
       | Some k, Some f => <[to := mkFile (Str.take k (fl_text f)) (modified_now n)]> files
       | _, _ => files
       end).

(** Directories are not part of the disk: making them fails or not. *)
Definition create_dir_all : FileM unit := simple (λ files, (Ok tt, files)).

(** [if let Some(parent) = path.parent()], when it is not empty: the path has more
    than one component. *)
Definition create_parent (p : string) : FileM unit :=
  if (2 <=? length (components p))%nat then create_dir_all else ret tt.

Definition tmp_path_for (p : string) : string := p +:+ ".vigil-tmp".
Definition backup_path_for (p : string) : string := p +:+ ".vigil-bak".

(** The file beside the target is removed if it can be, and the error passed on. *)
Definition clean_up (tmp : string) (e : IoError) : FileM unit :=
  ignore (remove_file tmp) ;! throw e.

(** The way the configuration files are replaced: the text goes to a file beside
    the target, which then takes the target's name. [settle] is what is done with
    that file in between. *)
Definition replace_file (settle : FileM unit) (p text : string) : FileM unit :=
  let tmp := tmp_path_for p in
  let! written := attempt (write tmp text) in
  match written with
  | Err e => clean_up tmp e
  | Ok _ =>
      ignore settle ;!
      let! renamed := attempt (rename tmp p) in
      match renamed with
      | Err e => clean_up tmp e
      | Ok _ => ret tt
      end
  end.

(** ** What the operations do *)

(** Nobody else changes the disk. *)
Definition undisturbed : Prop := ∀ n files, meddle n files = files.

(** Two disks agree off some paths. *)
Definition agree_off (ps : list string) (d d' : Disk) : Prop :=
  ∀ q, q ∉ ps → dk_files d' !! q = dk_files d !! q.

Definition keeps_off {A} (ps : list string) (m : FileM A) : Prop :=
  ∀ d, agree_off ps d (m d).2.

Lemma tmp_path_ne p : tmp_path_for p ≠ p.
Proof.
  unfold tmp_path_for. intros E. apply (f_equal String.length) in E.
  rewrite Str.length_append in E. simpl in E. lia.
Qed.

Lemma keeps_ret {A} ps (a : A) : keeps_off ps (ret a).
Proof. by intros d q. Qed.

Lemma keeps_throw {A} ps e : keeps_off ps (throw e : FileM A).
Proof. by intros d q. Qed.

Lemma keeps_bind {A B} ps (m : FileM A) (k : A → FileM B) :
  keeps_off ps m → (∀ a, keeps_off ps (k a)) → keeps_off ps (bind m k).
Proof.
  intros Hm Hk d q Hq. unfold bind. specialize (Hm d q Hq). destruct (m d) as [[a|e] d'] eqn:E; [|done].
  by rewrite (Hk a d' q Hq).
Qed.

Lemma keeps_attempt {A} ps (m : FileM A) : keeps_off ps m → keeps_off ps (attempt m).
Proof. intros Hm d q Hq. specialize (Hm d q Hq). unfold attempt. by destruct (m d). Qed.

Lemma keeps_ignore {A} ps (m : FileM A) : keeps_off ps m → keeps_off ps (ignore m).
Proof. intros Hm d q Hq. specialize (Hm d q Hq). unfold ignore. by destruct (m d). Qed.

Lemma keeps_weaken {A} ps ps' (m : FileM A) :
  (∀ q, q ∈ ps → q ∈ ps') → keeps_off ps m → keeps_off ps' m.
Proof. intros Hi Hm d q Hq. apply Hm. intros ?. by apply Hq, Hi. Qed.

Section Undisturbed.
Context (Hu : undisturbed).

Lemma keeps_operate {A} ps run broken :
  (∀ n files q, q ∉ ps → (run n files).2 !! q = files !! q) →
  (∀ n k files q, q ∉ ps → broken n k files !! q = files !! q) →
  keeps_off ps (operate run broken : FileM A).
Proof using Hu.
  intros Hr Hb d q Hq. unfold operate. rewrite Hu. destruct (fault (dk_ops d)) as [f|]; simpl.
  - by apply Hb.
  - specialize (Hr (dk_ops d) (dk_files d) q Hq). by destruct (run _ _).
Qed.

Lemma keeps_reads {A} (look : File → A) p : keeps_off [] (reads look p).
Proof using Hu. by apply keeps_operate. Qed.

Lemma keeps_write p text : keeps_off [p] (write p text).
Proof using Hu.
  apply keeps_operate.
  - intros n files q Hq%not_elem_of_cons. simpl. by rewrite lookup_insert_ne by naive_solver.
  - intros n [k|] files q Hq%not_elem_of_cons; [|done]. by rewrite lookup_insert_ne by naive_solver.
Qed.

Lemma keeps_remove p : keeps_off [p] (remove_file p).
Proof using Hu.
  apply keeps_operate; [|done]. intros n files q Hq%not_elem_of_cons.
  destruct (files !! p); [|done]. simpl. by rewrite lookup_delete_ne by naive_solver.
Qed.

Lemma keeps_rename from to : keeps_off [from; to] (rename from to).
Proof using Hu.
  apply keeps_operate; [|done]. intros n files q [Hf [Ht _]%not_elem_of_cons]%not_elem_of_cons.
  destruct (files !! from); [|done]. simpl.
  by rewrite lookup_insert_ne, lookup_delete_ne by naive_solver.
Qed.

Lemma keeps_copy from to : keeps_off [to] (copy from to).
Proof using Hu.
  apply keeps_operate.
  - intros n files q Hq%not_elem_of_cons. destruct (files !! from); [|done]. simpl.
    by rewrite lookup_insert_ne by naive_solver.
  - intros n [k|] files q Hq%not_elem_of_cons; [|done]. destruct (files !! from); [|done].
    by rewrite lookup_insert_ne by naive_solver.
Qed.

Lemma keeps_create_parent p : keeps_off [] (create_parent p).
Proof using Hu.
  unfold create_parent. destruct (2 <=? _)%nat; [|apply keeps_ret]. by apply keeps_operate.
Qed.

Lemma write_ok p text d d' :
  write p text d = (Ok tt, d') → fl_text <$> dk_files d' !! p = Some text.
Proof using Type.
  unfold write, operate. destruct (fault _); [done|]. intros [= <-]. simpl.
  by rewrite lookup_insert_eq.
Qed.

(** A renaming either did it all or did nothing. *)
Lemma rename_cases from to d r d' :
  rename from to d = (r, d') →
  match r with
  | Ok _ => ∃ f, dk_files d !! from = Some f ∧ dk_files d' = <[to := f]> (delete from (dk_files d))
  | Err _ => dk_files d' = dk_files d
  end.
Proof using Hu.
  unfold rename, simple, operate. rewrite Hu. destruct (fault _); [by intros [= <- <-]|].
  destruct (dk_files d !! from) as [f|] eqn:E; intros [= <- <-]; [|done]. by exists f.
Qed.

Lemma clean_up_cases tmp e d r d' :
  clean_up tmp e d = (r, d') → r = Err e ∧ agree_off [tmp] d d'.
Proof using Hu.
  unfold clean_up, bind, ignore, throw. pose proof (keeps_remove tmp d) as Hk.
  destruct (remove_file tmp d) as [r1 d1]. by intros [= <- <-].
Qed.

(** The target of a replacement has its new text exactly if there was no error,
    and is untouched otherwise; nothing but the file beside it changes. *)
Lemma replace_file_atomic settle p text d r d' :
  keeps_off [] settle → replace_file settle p text d = (r, d') →
  agree_off [p; tmp_path_for p] d d' ∧
  match r with
  | Ok _ => fl_text <$> dk_files d' !! p = Some text ∧ dk_files d' !! tmp_path_for p = None
  | Err _ => dk_files d' !! p = dk_files d !! p
  end.
Proof using Hu.
  pose proof (tmp_path_ne p) as Hne. intros Hs. set (tmp := tmp_path_for p) in *.
  assert (∀ s s', agree_off [tmp] s s' →
    agree_off [p; tmp] s s' ∧ dk_files s' !! p = dk_files s !! p) as Hoff.
  { intros s s' Hm. split; [intros q Hq|]; apply Hm; set_solver. }
  unfold replace_file. fold tmp. unfold bind at 1, attempt at 1.
  destruct (Hoff _ _ (keeps_write tmp text d)) as [Ha1 Hp1].
  destruct (write tmp text d) as [[[]|e] d1] eqn:Ew; simpl in Ha1, Hp1.
  2:{ intros [-> [Ha Hp]%Hoff]%clean_up_cases. split; [|by rewrite Hp].
      intros q Hq. by rewrite Ha, Ha1. }
  pose proof (write_ok _ _ _ _ Ew) as Ht.
  unfold bind at 1, ignore at 1. pose proof (Hs d1) as Hs1. destruct (settle d1) as [rs d2]. simpl in Hs1.
  assert (∀ q, dk_files d2 !! q = dk_files d1 !! q) as E2 by (intros q; apply Hs1; set_solver).
  unfold bind at 1, attempt at 1. destruct (rename tmp p d2) as [[[]|e] d3] eqn:Er;
    pose proof (rename_cases _ _ _ _ _ Er) as Hr; cbn beta iota in Hr.
  - destruct Hr as (f & Hf & Hd3). intros [= <- <-]. rewrite Hd3. split; [|split].
    + intros q Hq. apply not_elem_of_cons in Hq as [Hq1 [Hq2 _]%not_elem_of_cons].
      rewrite Hd3, lookup_insert_ne, lookup_delete_ne by done. rewrite E2. apply Ha1. set_solver.
    + rewrite E2 in Hf. rewrite Hf in Ht. by rewrite lookup_insert_eq.
    + by rewrite lookup_insert_ne, lookup_delete_eq by done.
  - intros [-> [Ha Hp]%Hoff]%clean_up_cases. split.
    + intros q Hq. by rewrite Ha, Hr, E2, Ha1.
    + by rewrite Hp, Hr, E2.
Qed.
End Undisturbed.
End Operations.

#[export] Hint Resolve keeps_ret keeps_throw : vigil.
