(* ===== verification/Posture.v ===== *)
(** * Posture and engine settings

    [src/apps/vigil-hub-cli/src/posture.rs], [engine_config.rs] and the writing of
    daemon.json in [src/crates/vigil-daemon-ipc/src/client.rs]: three levels of
    strictness, the table of what each does with a kind of risk, the raising of
    the level by the risk of a session, and the files the settings are kept in.
    A setting that cannot be understood is taken for the strictest. *)

From S2P Require Import Prelude Text Types Deps Db Hash Ledger Extract Files Redact Ipc.

Module PostureProfile.
Inductive PostureProfile := Low | Medium | High.

#[global] Instance PostureProfile_eq_dec : EqDecision PostureProfile.
Proof. solve_decision. Defined.

Definition as_str (p : PostureProfile) : string :=
  match p with
  | Low => "low"
  | Medium => "medium"
  | High => "high"
  end.

Definition escalate (p : PostureProfile) : PostureProfile :=
  match p with
  | Low => Medium
  | Medium => High
  | High => High
  end.
End PostureProfile.
Abbreviation PostureProfile := PostureProfile.PostureProfile.

Module RiskClass.
Inductive RiskClass :=
| RawSecret
| LedgerTamper
| PlaceholderNative
| DestructiveCatastrophic
| DangerousCommand.
End RiskClass.
Abbreviation RiskClass := RiskClass.RiskClass.

Module PostureAction.
Inductive PostureAction := Allow | Ask | Deny.

#[global] Instance PostureAction_eq_dec : EqDecision PostureAction.
Proof. solve_decision. Defined.
End PostureAction.
Abbreviation PostureAction := PostureAction.PostureAction.

Definition decide (profile : PostureProfile) (risk : RiskClass) : PostureAction :=
  match risk, profile with
  | RiskClass.RawSecret, _ => PostureAction.Deny
  | RiskClass.LedgerTamper, _ => PostureAction.Deny
  | RiskClass.PlaceholderNative, PostureProfile.Low => PostureAction.Allow
  | RiskClass.PlaceholderNative, PostureProfile.Medium => PostureAction.Ask
  | RiskClass.PlaceholderNative, PostureProfile.High => PostureAction.Deny
  | RiskClass.DestructiveCatastrophic, _ => PostureAction.Deny
  | RiskClass.DangerousCommand, PostureProfile.Low => PostureAction.Ask
  | RiskClass.DangerousCommand, PostureProfile.Medium => PostureAction.Ask
  | RiskClass.DangerousCommand, PostureProfile.High => PostureAction.Deny
  end.

Definition SESSION_RISK_ESCALATION_THRESHOLD : Z := 24.

Definition effective_profile (base : PostureProfile) (session_risk : Z) : PostureProfile :=
  if (SESSION_RISK_ESCALATION_THRESHOLD <=? session_risk)%Z then PostureProfile.escalate base
  else base.

(** ** The files *)

Definition POSTURE_FILE_VERSION : Z := 1.
Definition ENGINE_FILE_VERSION : Z := 1.

Record PostureFileV1 := mkPostureFile { pf_version : Z; pf_posture : PostureProfile }.

Record LoadedPosture := mkLoadedPosture { lp_profile : PostureProfile; lp_warning : option string }.

Module EngineMode.
Inductive EngineMode := Hardfp | Ml | Auto.

#[global] Instance EngineMode_eq_dec : EqDecision EngineMode.
Proof. solve_decision. Defined.
End EngineMode.
Abbreviation EngineMode := EngineMode.EngineMode.

Record EngineFileV1 := mkEngineFile { ef_version : Z; ef_engine : EngineMode }.

Record LoadedEngine := mkLoadedEngine { le_mode : option EngineMode; le_warning : option string }.

(** [fail_closed] of either file. *)
Definition posture_warning (path reason : string) : string :=
  "posture config at " +:+ path +:+ " is " +:+ reason
  +:+ "; failing closed to the strictest posture (high)".

Definition engine_warning (path reason : string) : string :=
  "engine config at " +:+ path +:+ " is " +:+ reason +:+ "; failing closed to hard-fingerprint".

Section Stores.
Context `{Host} `{Document PostureFileV1} `{Document EngineFileV1} `{Document DaemonInfo}.

Definition load_posture (path : string) : FileM LoadedPosture :=
  let fail_closed reason :=
    ret (mkLoadedPosture PostureProfile.High (Some (posture_warning path reason))) in
  let! raw := attempt (read_to_string path) in
  match raw with
  | Err IoError.NotFound => ret (mkLoadedPosture PostureProfile.Low None)
  | Err _ => fail_closed "unreadable"
  | Ok raw =>
      match from_str raw with
      | None => fail_closed "malformed (invalid JSON or unknown posture value)"
      | Some parsed =>
          if negb (pf_version parsed =? POSTURE_FILE_VERSION)%Z
          then fail_closed "of an unrecognized version"
          else ret (mkLoadedPosture (pf_posture parsed) None)
      end
  end.

Definition store_posture (path : string) (profile : PostureProfile) : FileM unit :=
  create_parent path ;!
  let! rendered := lift (ok_or (to_string_pretty (mkPostureFile POSTURE_FILE_VERSION profile))
    IoError.Other) in
  replace_file (ret tt) path (rendered +:+ newline_str).

Definition load_engine (path : string) : FileM LoadedEngine :=
  let fail_closed reason :=
    ret (mkLoadedEngine (Some EngineMode.Hardfp) (Some (engine_warning path reason))) in
  let! raw := attempt (read_to_string path) in
  match raw with
  | Err IoError.NotFound => ret (mkLoadedEngine None None)
  | Err _ => fail_closed "unreadable"
  | Ok raw =>
      match from_str raw with
      | None => fail_closed "malformed (invalid JSON or unknown engine value)"
      | Some parsed =>
          if negb (ef_version parsed =? ENGINE_FILE_VERSION)%Z
          then fail_closed "of an unrecognized version"
          else ret (mkLoadedEngine (Some (ef_engine parsed)) None)
      end
  end.

Definition store_engine (path : string) (mode : EngineMode) : FileM unit :=
  create_parent path ;!
  let! rendered := lift (ok_or (to_string_pretty (mkEngineFile ENGINE_FILE_VERSION mode))
    IoError.Other) in
  replace_file (ret tt) path (rendered +:+ newline_str).

(** The mode that takes effect, and whether it may degrade. *)
Definition effective_engine (cli persisted : option EngineMode) : option EngineMode * bool :=
  match cli with
  | Some mode => (Some mode, bool_decide (mode = EngineMode.Auto))
  | None =>
      match persisted with
      | Some mode => (Some mode, true)
      | None => (None, false)
      end
  end.

(** Setting the permissions of the file beside the target may fail unnoticed. *)
Definition set_permissions : FileM unit := simple (λ files, (Ok tt, files)).

Definition write_daemon_info (path : string) (info : DaemonInfo) : FileM unit :=
  create_parent path ;!
  let! rendered := lift (ok_or (to_string_pretty info) IoError.Other) in
  replace_file set_permissions path (rendered +:+ newline_str).

Definition read_daemon_info (path : string) : FileM (option DaemonInfo) :=
  let! raw := attempt (read_to_string path) in
  ret (match raw with
       | Err _ => None
       | Ok raw =>
           info ← from_str raw;
           if (di_protocol_version info =? PROTOCOL_VERSION)%Z then Some info else None
       end).
End Stores.

(** ** The audit of a switch *)

Section Audit.
Context `{Crates} `{Redaction}.

(** A session of its own for one event. [opens]: the ledger can be opened. *)
Definition append_in_session (opens : bool) (now : Z) (sid source event_type : string)
    (payload : Value) (summary : string) : LedgerM unit :=
  if opens then
    ignore (
      let! sid := start_session now sid source None in
      append_event now sid event_type payload (Some summary))
  else ret tt.

Definition audit_posture_switch (opens : bool) (now : Z) (sid : string)
    (old new : PostureProfile) : LedgerM unit :=
  append_in_session opens now sid "vigil-posture" "posture.switched"
    (JObj [("old", JStr (PostureProfile.as_str old)); ("new", JStr (PostureProfile.as_str new))])
    ("posture switched " +:+ PostureProfile.as_str old +:+ " -> " +:+ PostureProfile.as_str new).
End Audit.

(** ** The table *)

Definition action_severity (a : PostureAction) : nat :=
  match a with
  | PostureAction.Allow => 0
  | PostureAction.Ask => 1
  | PostureAction.Deny => 2
  end.

Definition profile_level (p : PostureProfile) : nat :=
  match p with
  | PostureProfile.Low => 0
  | PostureProfile.Medium => 1
  | PostureProfile.High => 2
  end.

Lemma decide_monotone p p' risk :
  (profile_level p ≤ profile_level p')%nat →
  (action_severity (decide p risk) ≤ action_severity (decide p' risk))%nat.
Proof. destruct p, p', risk; simpl; lia. Qed.

Lemma effective_monotone base k k' :
  (k ≤ k')%Z → (profile_level base ≤ profile_level (effective_profile base k))%nat ∧
  (profile_level (effective_profile base k) ≤ profile_level (effective_profile base k'))%nat.
Proof.
  intros Hk. unfold effective_profile.
  destruct (Z.leb_spec SESSION_RISK_ESCALATION_THRESHOLD k),
    (Z.leb_spec SESSION_RISK_ESCALATION_THRESHOLD k'); destruct base; simpl; lia.
Qed.

(** The posture has a floor and the risk of a session only tightens it. A raw
    secret, a change of the ledger and a catastrophic command are denied whatever
    the setting; no kind of risk is treated more leniently when the setting is
    raised or the session has become riskier; and three hits of instructions in
    data raise the setting by one level. *)
Theorem posture_floor base risk k :
  (decide base risk = PostureAction.Allow →
     risk = RiskClass.PlaceholderNative ∧ base = PostureProfile.Low) ∧
  (risk ∈ [RiskClass.RawSecret; RiskClass.LedgerTamper; RiskClass.DestructiveCatastrophic] →
     decide (effective_profile base k) risk = PostureAction.Deny) ∧
  (∀ k', (k ≤ k')%Z →
     (action_severity (decide base risk)
        ≤ action_severity (decide (effective_profile base k) risk))%nat ∧
     (action_severity (decide (effective_profile base k) risk)
        ≤ action_severity (decide (effective_profile base k') risk))%nat) ∧
  profile_level (effective_profile base (3 * 8)) = Nat.min 2 (S (profile_level base)).
Proof.
  split_and!.
  - by destruct risk, base.
  - by rewrite !elem_of_cons, elem_of_nil; intros [->|[->|[->|[]]]];
      destruct (effective_profile base k).
  - intros k' Hk. pose proof (effective_monotone base k k' Hk) as [H1 H2].
    split; by apply decide_monotone.
  - by destruct base.
Qed.

(** ** The files *)

Section StoreFacts.
Context `{Host} `{Document PostureFileV1}.
Context (Hu : undisturbed).

Lemma load_posture_answers path d :
  ∃ l, (load_posture path d).1 = Ok l ∧ dk_files (load_posture path d).2 = dk_files d ∧
    (lp_profile l ≠ PostureProfile.High →
      (fst (read_to_string path d) = Err IoError.NotFound ∧ l = mkLoadedPosture PostureProfile.Low None) ∨
      ∃ f parsed, dk_files d !! path = Some f ∧ from_str (fl_text f) = Some parsed
        ∧ pf_version parsed = POSTURE_FILE_VERSION ∧ l = mkLoadedPosture (pf_posture parsed) None).
Proof using Hu.
  unfold load_posture, bind, attempt, read_to_string, reads, simple, operate. rewrite Hu.
  destruct (fault (dk_ops d)) as [[[] k]|]; simpl.
  - eexists. split; [done|]. split; [done|]. by left.
  - eexists. split; [done|]. split; [done|]. done.
  - destruct (dk_files d !! path) as [f|] eqn:Ef; simpl.
    2:{ eexists. split; [done|]. split; [done|]. by left. }
    destruct (from_str (fl_text f)) as [parsed|] eqn:Ep; [|by eexists].
    destruct (Z.eqb_spec (pf_version parsed) POSTURE_FILE_VERSION) as [Ev|]; simpl; [|by eexists].
    eexists. split; [done|]. split; [done|]. intros _. right. by exists f, parsed.
Qed.

(** A switch of the posture happens or does not. Wherever the operations on the
    disk fail, [store_posture] changes no other file than the setting and the one
    beside it; without an error the setting reads back as the level stored, and
    with one the old setting is untouched. Whatever is read later, a level below
    the strictest comes from there being no file or from a file that says so in
    the known version. *)
Theorem posture_switch_is_atomic `{!DocumentLaws PostureFileV1} path profile d r d' :
  store_posture path profile d = (r, d') →
  agree_off [path; tmp_path_for path] d d' ∧
  match r with
  | Ok _ => ∀ s, dk_files s !! path = dk_files d' !! path → fault (dk_ops s) = None →
      (load_posture path s).1 = Ok (mkLoadedPosture profile None)
  | Err _ => dk_files d' !! path = dk_files d !! path
  end ∧
  ∀ s l, (load_posture path s).1 = Ok l → lp_profile l ≠ PostureProfile.High →
    lp_warning l = None ∧
    ((read_to_string path s).1 = Err IoError.NotFound ∧ lp_profile l = PostureProfile.Low ∨
     ∃ f, dk_files s !! path = Some f ∧
       from_str (fl_text f) = Some (mkPostureFile POSTURE_FILE_VERSION (lp_profile l))).
Proof using Hu.
  intros Hst.
  assert (agree_off [path; tmp_path_for path] d d' ∧
    match r with
    | Ok _ => ∃ f text, dk_files d' !! path = Some f ∧ fl_text f = text +:+ newline_str
        ∧ to_string_pretty (mkPostureFile POSTURE_FILE_VERSION profile) = Some text
    | Err _ => dk_files d' !! path = dk_files d !! path
    end) as [Hoff Hr].
  { revert Hst. unfold store_posture, bind at 1. pose proof (keeps_create_parent Hu path d) as Hc.
    destruct (create_parent path d) as [[[]|e] d1]; simpl in Hc.
    2:{ intros [= <- <-]. split; [intros q Hq|]; apply Hc; set_solver. }
    unfold bind, lift, ok_or. destruct (to_string_pretty _) as [text|] eqn:Et.
    2:{ intros [= <- <-]. split; [intros q Hq|]; apply Hc; set_solver. }
    intros [Ha Hm]%(replace_file_atomic Hu _ _ _ _ _ _ (keeps_ret [] tt)).
    assert (∀ q, dk_files d1 !! q = dk_files d !! q) as E1 by (intros q; apply Hc; set_solver).
    split; [intros q Hq; by rewrite Ha, E1|]. destruct r as [[]|e]; [|by rewrite Hm].
    destruct Hm as [(f & Hf & Ht)%fmap_Some _]. by exists f, text. }
  split; [done|]. split.
  - destruct r as [[]|e]; [|done]. destruct Hr as (f & text & Hf & Ht & Hp). intros s Hs Hfault.
    unfold load_posture, bind, attempt, read_to_string, reads, simple, operate.
    rewrite Hu, Hfault, Hs, Hf. simpl. rewrite Ht, (document_roundtrip _ _ Hp). by simpl.
  - intros s l Hl Hne. destruct (load_posture_answers path s) as (l' & E & _ & Hcases).
    rewrite Hl in E. injection E as <-.
    destruct (Hcases Hne) as [[? ->]|(f & [v p] & Hf & Hp & Hv & ->)]; simpl in *.
    + split; [done|]. by left.
    + split; [done|]. right. exists f. by rewrite <- Hv.
Qed.
End StoreFacts.

(** ** Witnesses *)

(** A host on which nothing fails but the operations past the fifth. *)
#[local] Instance calm_host : Host := {|
  fault n := if (5 <? n)%nat then Some (mkFault IoError.Other None) else None;
  meddle _ files := files;
  modified_now n := Z.of_nat n;
|}.

#[local] Instance toy_posture_file : Document PostureFileV1 := {|
  to_string_pretty f :=
    if (pf_version f =? 1)%Z then Some (PostureProfile.as_str (pf_posture f)) else None;
  from_str s :=
    if String.eqb s ("low" +:+ newline_str) then Some (mkPostureFile 1 PostureProfile.Low)
    else if String.eqb s ("medium" +:+ newline_str) then Some (mkPostureFile 1 PostureProfile.Medium)
    else if String.eqb s ("high" +:+ newline_str) then Some (mkPostureFile 1 PostureProfile.High)
    else None;
|}.

#[local] Instance toy_posture_file_laws : DocumentLaws PostureFileV1.
Proof.
  split; intros [v p] text; simpl; (destruct (Z.eqb_spec v 1) as [->|]; [|done]);
    by destruct p; intros [= <-].
Qed.

(** Storing [medium] and loading it. *)
Lemma posture_switch_is_atomic_witness :
  (load_posture "v/p" (store_posture "v/p" PostureProfile.Medium (mkDisk ∅ 0)).2).1
    = Ok (mkLoadedPosture PostureProfile.Medium None).
Proof.
  assert (undisturbed) as Hu by by intros n files.
  refine (proj1 (proj2 (posture_switch_is_atomic Hu "v/p" PostureProfile.Medium (mkDisk ∅ 0) (Ok tt)
    (store_posture "v/p" PostureProfile.Medium (mkDisk ∅ 0)).2 _)) _ eq_refl eq_refl).
  vm_compute. reflexivity.
Defined.
