(* ===== verification/HookEntries.v ===== *)
(** * Hook entries in a settings object

    The agents keep their hooks alike: an object [hooks] with an array of entries
    for each event. This file has the merging that [setup.rs] (Claude Code) and
    [setup_hooks.rs] (Codex, Gemini, Cursor) each do in their own words, over the
    test that tells Vigil's entries from those of others, and what it guarantees. *)

From S2P Require Import Prelude Text Types Json.

(** ** The merging *)

(** The entries of an event. *)
Definition event_entries (event : string) (settings : Value) : list Value :=
  default [] (hooks ← json_get "hooks" settings; json_get event hooks ≫= as_array).

(** [obj.entry("hooks").or_insert_with(|| json!({}))], then [insert] if it is an
    object. *)
Definition set_event (event : string) (arr : list Value) (fields : list (string * Value))
    : list (string * Value) :=
  let fields := match assoc_get "hooks" fields with
                | Some _ => fields
                | None => map_insert "hooks" (JObj []) fields
                end in
  match assoc_get "hooks" fields with
  | Some (JObj hooks) => map_insert "hooks" (JObj (map_insert event (JArr arr) hooks)) fields
  | _ => fields
  end.

Section Merging.
Context (managed : Value → bool).

(** One turn of the loop over the events, each with the entry Vigil wants there;
    [inr] is the early return. *)
Definition merge_entry (acc : (bool * Value) + (bool * Value)) (ev : string * Value)
    : (bool * Value) + (bool * Value) :=
  match acc with
  | inr _ => acc
  | inl (changed, settings) =>
      let '(event, canonical) := ev in
      let existing := event_entries event settings in
      let already_correct := match List.filter managed existing with
                             | [e] => json_eqb e canonical
                             | _ => false
                             end in
      let new_arr := List.filter (λ e, negb (managed e)) existing ++ [canonical] in
      match settings with
      | JObj fields => inl (changed || negb already_correct, JObj (set_event event new_arr fields))
      | _ => inr (true, JObj [("hooks", JObj [(event, JArr new_arr)])])
      end
  end.

(** One turn of the loop over the keys of [hooks]. *)
Definition strip_entry (acc : bool * list (string * Value)) (event : string)
    : bool * list (string * Value) :=
  let '(changed, hooks) := acc in
  match assoc_get event hooks with
  | Some (JArr arr) =>
      let kept := List.filter (λ e, negb (managed e)) arr in
      (changed || negb (length kept =? length arr)%nat,
       match kept with
       | [] => map_remove event hooks
       | _ => map_insert event (JArr kept) hooks
       end)
  | _ => (changed, hooks)
  end.

Definition remove_entries (settings : Value) : bool * Value :=
  match settings with
  | JObj fields =>
      match assoc_get "hooks" fields with
      | Some (JObj hooks) =>
          let '(changed, hooks') := foldl strip_entry (false, hooks) (hooks.*1) in
          (changed, JObj (match hooks' with
                          | [] => map_remove "hooks" fields
                          | _ => map_insert "hooks" (JObj hooks') fields
                          end))
      | _ => (false, settings)
      end
  | _ => (false, settings)
  end.
End Merging.

(** ** What it leaves *)

(** The settings are an object, and so are its hooks if there are any. *)
Definition hooks_ok (fields : list (string * Value)) : Prop :=
  match assoc_get "hooks" fields with
  | None | Some (JObj _) => True
  | Some _ => False
  end.

Lemma event_entries_obj event fields :
  event_entries event (JObj fields)
  = match assoc_get "hooks" fields with
    | Some (JObj hooks) => default [] (assoc_get event hooks ≫= as_array)
    | _ => []
    end.
Proof. unfold event_entries. simpl. by destruct (assoc_get "hooks" fields) as [[]|]. Qed.

Lemma filter_idem (f : Value → bool) l : List.filter f (List.filter f l) = List.filter f l.
Proof. induction l as [|x l IH]; simpl; [done|]. destruct (f x) eqn:E; simpl; [by rewrite E, IH|done]. Qed.

Lemma filter_none {A} (f : A → bool) l : Forall (λ x, f x = false) l → List.filter f l = [].
Proof. induction 1 as [|x l E _ IH]; simpl; [done|]. by rewrite E. Qed.

Lemma filter_all {A} (f : A → bool) l : Forall (λ x, f x = true) l → List.filter f l = l.
Proof. induction 1 as [|x l E _ IH]; simpl; [done|]. by rewrite E, IH. Qed.

Lemma set_event_spec event arr fields :
  hooks_ok fields →
  ∃ hooks, assoc_get "hooks" (set_event event arr fields) = Some (JObj hooks) ∧
    assoc_get event hooks = Some (JArr arr) ∧
    (∀ k, k ≠ "hooks" → assoc_get k (set_event event arr fields) = assoc_get k fields) ∧
    (∀ e, e ≠ event → assoc_get e hooks
       = match assoc_get "hooks" fields with Some (JObj h) => assoc_get e h | _ => None end).
Proof.
  unfold hooks_ok, set_event. intros Hok.
  destruct (assoc_get "hooks" fields) as [v|] eqn:E.
  - destruct v as [| | | | | |hooks]; try done. rewrite E.
    exists (map_insert event (JArr arr) hooks). rewrite !assoc_get_insert. split_and!; [done|done| |].
    + intros k Hk. by apply assoc_get_insert_ne.
    + intros e He. by apply assoc_get_insert_ne.
  - rewrite assoc_get_insert, map_insert_insert. exists [(event, JArr arr)]. rewrite assoc_get_insert.
    simpl. rewrite String.eqb_refl. split_and!; [done|done| |].
    + intros k Hk. by apply assoc_get_insert_ne.
    + intros e He. by destruct (String.eqb_spec event e).
Qed.

Lemma set_event_entries event arr fields e :
  hooks_ok fields →
  event_entries e (JObj (set_event event arr fields))
  = if decide (e = event) then arr else event_entries e (JObj fields).
Proof.
  intros Hok. destruct (set_event_spec event arr fields Hok) as (hooks & Hh & Ha & _ & Hn).
  rewrite !event_entries_obj, Hh. destruct (decide (e = event)) as [->|He].
  - by rewrite Ha.
  - rewrite Hn by done. by destruct (assoc_get "hooks" fields) as [[]|].
Qed.

Lemma set_event_hooks_ok event arr fields : hooks_ok fields → hooks_ok (set_event event arr fields).
Proof.
  intros Hok. destruct (set_event_spec event arr fields Hok) as (hooks & Hh & _).
  unfold hooks_ok. by rewrite Hh.
Qed.

Lemma wf_filter f l : wf_json (JArr l) → wf_json (JArr (List.filter f l)).
Proof.
  rewrite !wf_arr, !Forall_forall. intros Hw x [Hx _]%list_elem_of_In%filter_In.
  by apply Hw, list_elem_of_In.
Qed.

Lemma wf_entries event s : wf_json s → wf_json (JArr (event_entries event s)).
Proof.
  intros Hw. unfold event_entries. destruct (json_get "hooks" s) as [h|] eqn:Eh; [|done]. simpl.
  pose proof (wf_get _ _ _ Hw Eh) as Hh. destruct (json_get event h) as [a|] eqn:Ea; [|done].
  pose proof (wf_get _ _ _ Hh Ea) as Ha. by destruct a.
Qed.

Lemma wf_set_event event arr fields :
  wf_json (JObj fields) → wf_json (JArr arr) → wf_json (JObj (set_event event arr fields)).
Proof.
  intros Hw Ha. unfold set_event.
  set (fs := match assoc_get "hooks" fields with Some _ => fields | None => _ end).
  assert (wf_json (JObj fs)) as Hfs.
  { unfold fs. destruct (assoc_get "hooks" fields); [done|]. apply wf_insert; [done|].
    apply wf_obj. split; [apply NoDup_nil_2|constructor]. }
  destruct (assoc_get "hooks" fs) as [[| | | | | |hooks]|] eqn:E; try done.
  apply wf_insert; [done|]. apply wf_insert; [|done]. by apply (wf_get "hooks" (JObj fs)).
Qed.

Section Managed.
Context (managed : Value → bool).

Abbreviation strip l := (List.filter (λ e, negb (managed e)) l).

(** The entries of an event that are not Vigil's. *)
Definition others (event : string) (s : Value) : list Value := strip (event_entries event s).

(** What Vigil wants to have of an event, if it wants anything. *)
Definition wanted_entry (event : string) (events : list (string * Value)) : option Value :=
  assoc_get event events.

Abbreviation new_entries event canonical s := (others event s ++ [canonical]).

Lemma filter_managed_others l : List.filter managed (strip l) = [].
Proof.
  apply filter_none. apply Forall_forall. intros x [_ Hx]%list_elem_of_In%filter_In.
  by apply negb_true_iff in Hx.
Qed.

(** What the loop over the events leaves. *)
Lemma merge_loop events changed fields :
  NoDup events.*1 → hooks_ok fields →
  ∃ changed' fields',
    foldl (merge_entry managed) (inl (changed, JObj fields)) events = inl (changed', JObj fields') ∧
    hooks_ok fields' ∧ (∀ k, k ≠ "hooks" → assoc_get k fields' = assoc_get k fields) ∧
    ∀ e, event_entries e (JObj fields')
         = match wanted_entry e events with
           | Some canonical => new_entries e canonical (JObj fields)
           | None => event_entries e (JObj fields)
           end.
Proof.
  revert changed fields. induction events as [|[event canonical] events IH]; intros changed fields Hd Hok.
  { exists changed, fields. by split_and!. }
  simpl in Hd. apply NoDup_cons in Hd as [Hn Hd].
  cbn [foldl merge_entry]. set (arr := List.filter _ _ ++ _).
  set (ch0 := changed || _). destruct (IH ch0 _ Hd (set_event_hooks_ok event arr fields Hok))
    as (ch & fs & -> & Hok' & Hk & He). exists ch, fs. split_and!; [done|done| |].
  - intros k Hne. rewrite Hk by done. destruct (set_event_spec event arr fields Hok) as (? & _ & _ & Hs & _).
    by apply Hs.
  - intros e. rewrite He. unfold others, wanted_entry. cbn [assoc_get]. rewrite !set_event_entries by done.
    destruct (String.eqb_spec event e) as [<-|Hne].
    + rewrite (assoc_get_none event events) by done. by rewrite decide_True.
    + rewrite decide_False by congruence. done.
Qed.

(** The array of an event is there and is what installing would write. *)
Definition installed (event : string) (canonical : Value) (fields : list (string * Value)) : Prop :=
  ∃ hooks, assoc_get "hooks" fields = Some (JObj hooks) ∧
    ∃ l, Forall (λ e, managed e = false) l ∧
      assoc_get event hooks = Some (JArr (l ++ [canonical])).

Lemma merge_entry_installed changed fields event canonical :
  managed canonical = true → json_eqb canonical canonical = true → installed event canonical fields →
  merge_entry managed (inl (changed, JObj fields)) (event, canonical) = inl (changed, JObj fields).
Proof.
  intros Hv Heq (hooks & Hh & l & Hl & Ha).
  cbn [merge_entry]. rewrite event_entries_obj, Hh, Ha. simpl.
  rewrite !List.filter_app, (filter_none _ l Hl). simpl. rewrite Hv. simpl.
  rewrite Heq, app_nil_r. simpl. rewrite orb_false_r, (filter_all _ l).
  2:{ eapply Forall_impl; [exact Hl|]. intros x E. simpl. by rewrite E. }
  unfold set_event. rewrite Hh, Hh. by rewrite (map_insert_same _ _ _ Ha), (map_insert_same _ _ _ Hh).
Qed.

Lemma new_entries_installed e canonical fields others_ :
  Forall (λ x, managed x = false) others_ →
  event_entries e (JObj fields) = others_ ++ [canonical] → installed e canonical fields.
Proof.
  intros Ho He. rewrite event_entries_obj in He. unfold installed.
  destruct (assoc_get "hooks" fields) as [[| | | | | |h]|] eqn:Eh; try (by destruct others_).
  exists h. split; [done|]. exists others_. split; [done|].
  destruct (assoc_get e h) as [[| | | | |l|]|]; simpl in He; try (by destruct others_). by rewrite He.
Qed.

Lemma wf_merge events changed fields changed' s' :
  wf_json (JObj fields) → Forall (λ ec, wf_json ec.2) events →
  foldl (merge_entry managed) (inl (changed, JObj fields)) events = inl (changed', s') →
  wf_json s'.
Proof.
  intros Hw Hev. revert changed fields Hw.
  induction Hev as [|[event canonical] events Hc _ IH]; intros changed fields Hw.
  { by intros [= <- <-]. }
  cbn [foldl merge_entry]. apply IH, wf_set_event; [done|].
  apply wf_arr, Forall_app. split; [|by apply Forall_singleton].
  by apply wf_arr, wf_filter, wf_entries.
Qed.

(** ** Taking out *)

Definition entries_of (event : string) (hooks : list (string * Value)) : list Value :=
  default [] (assoc_get event hooks ≫= as_array).

Lemma strip_entry_spec changed hooks event :
  wf_json (JObj hooks) →
  ∃ changed' hooks', strip_entry managed (changed, hooks) event = (changed', hooks') ∧
    wf_json (JObj hooks') ∧
    ∀ e, entries_of e hooks' = if decide (e = event) then strip (entries_of e hooks)
                               else entries_of e hooks.
Proof.
  intros Hw. pose proof Hw as [Hd _]%wf_obj. unfold strip_entry, entries_of.
  destruct (assoc_get event hooks) as [v|] eqn:E.
  2:{ exists changed, hooks. split_and!; [done|done|]. intros e.
      destruct (decide (e = event)) as [->|]; [|done]. by rewrite E. }
  destruct v as [| | | | |arr|]; try (exists changed, hooks; split_and!; [done|done|]; intros e;
    destruct (decide (e = event)) as [->|]; [by rewrite E|done]).
  destruct (strip arr) as [|x kept] eqn:Ek.
  - eexists _, _. split; [reflexivity|]. split; [by eapply wf_remove|]. intros e.
    rewrite (assoc_get_remove _ _ _ _ Hd E).
    destruct (String.eqb_spec e event) as [->|]; [|by rewrite decide_False by done].
    rewrite decide_True, E by done. simpl. by rewrite Ek.
  - eexists _, _. split; [reflexivity|]. split.
    + apply wf_insert; [done|]. rewrite <- Ek. apply wf_filter. by apply (wf_get event (JObj hooks)).
    + intros e. destruct (decide (e = event)) as [->|Hne].
      * rewrite assoc_get_insert, E. simpl. by rewrite Ek.
      * by rewrite assoc_get_insert_ne.
Qed.

Lemma strip_loop events changed hooks :
  wf_json (JObj hooks) →
  ∃ changed' hooks', foldl (strip_entry managed) (changed, hooks) events = (changed', hooks') ∧
    wf_json (JObj hooks') ∧
    ∀ e, entries_of e hooks' = if decide (e ∈ events) then strip (entries_of e hooks)
                               else entries_of e hooks.
Proof.
  revert changed hooks. induction events as [|event events IH]; intros changed hooks Hw.
  { exists changed, hooks. split_and!; [done|done|]. intros e. rewrite decide_False; [done|].
    apply not_elem_of_nil. }
  cbn [foldl]. destruct (strip_entry_spec changed hooks event Hw) as (c1 & h1 & -> & Hw1 & He1).
  destruct (IH c1 h1 Hw1) as (c2 & h2 & -> & Hw2 & He2). exists c2, h2. split_and!; [done|done|].
  intros e. rewrite He2, He1. destruct (decide (e ∈ events)) as [Hin|Hni].
  - rewrite (decide_True (P := e ∈ event :: events)) by (by right).
    destruct (decide (e = event)); [apply filter_idem|done].
  - destruct (decide (e = event)) as [->|Hne]; [by rewrite decide_True by (by left)|].
    rewrite decide_False; [done|]. by intros [?|?]%elem_of_cons.
Qed.

Lemma remove_entries_spec fields :
  wf_json (JObj fields) →
  let u := (remove_entries managed (JObj fields)).2 in
  wf_json u ∧ (∀ k, k ≠ "hooks" → json_get k u = assoc_get k fields) ∧
  ∀ e, event_entries e u = others e (JObj fields).
Proof.
  intros Hw u. pose proof Hw as [Hd _]%wf_obj. unfold u, remove_entries.
  assert (∀ e, others e (JObj fields) = strip (match assoc_get "hooks" fields with
    | Some (JObj hooks) => entries_of e hooks | _ => [] end)) as Ho
    by (intros e; unfold others; by rewrite event_entries_obj).
  destruct (assoc_get "hooks" fields) as [v|] eqn:E.
  2:{ split; [done|]. split; [done|]. intros e. cbn [snd]. by rewrite Ho, event_entries_obj, E. }
  destruct v as [| | | | | |hooks]; try (split; [done|]; split; [done|]; intros e;
    cbn [snd]; by rewrite Ho, event_entries_obj, E).
  pose proof (wf_get "hooks" (JObj fields) _ Hw E) as Hh.
  destruct (strip_loop (hooks.*1) false hooks Hh) as (ch & hooks' & -> & Hw' & He). simpl.
  assert (∀ e, entries_of e hooks' = strip (entries_of e hooks)) as He'.
  { intros e. rewrite He. destruct (decide (e ∈ hooks.*1)) as [|Hn]; [done|].
    unfold entries_of. by rewrite assoc_get_none. }
  clear He. destruct hooks' as [|x hooks'].
  - split; [by eapply wf_remove|]. split.
    + intros k Hk. rewrite (assoc_get_remove _ _ _ _ Hd E). by destruct (String.eqb_spec k "hooks").
    + intros e. rewrite Ho, event_entries_obj, (assoc_get_remove _ _ _ _ Hd E). simpl. apply (He' e).
  - split; [by apply wf_insert|]. split.
    + intros k Hk. by apply assoc_get_insert_ne.
    + intros e. rewrite Ho, event_entries_obj, assoc_get_insert. apply (He' e).
Qed.

(** Installing into settings of a shape that can be merged into, installing again,
    and taking out. *)
Lemma entries_come_and_go events changed fields :
  NoDup events.*1 → Forall (λ ec, managed ec.2 = true ∧ json_eqb ec.2 ec.2 = true ∧ wf_json ec.2) events →
  hooks_ok fields → wf_json (JObj fields) →
  ∃ changed' fields',
    foldl (merge_entry managed) (inl (changed, JObj fields)) events = inl (changed', JObj fields') ∧
    let s := JObj fields' in
    let u := (remove_entries managed s).2 in
    (∀ event, event_entries event s
       = match wanted_entry event events with
         | Some canonical => others event (JObj fields) ++ [canonical]
         | None => event_entries event (JObj fields)
         end) ∧
    (∀ k, k ≠ "hooks" → json_get k s = assoc_get k fields ∧ json_get k u = assoc_get k fields) ∧
    foldl (merge_entry managed) (inl (false, s)) events = inl (false, s) ∧
    (∀ event, event_entries event u = others event (JObj fields)) ∧
    wf_json s ∧ wf_json u.
Proof.
  intros Hnd Hall Hok Hw.
  destruct (merge_loop events changed fields Hnd Hok) as (ch & fs & Hfold & Hok' & Hk & He).
  assert (wf_json (JObj fs)) as Hws.
  { refine (wf_merge _ _ _ _ _ Hw _ Hfold). eapply Forall_impl; [exact Hall|]. by intros ? (_ & _ & ?). }
  exists ch, fs. split; [exact Hfold|].
  destruct (remove_entries_spec fs Hws) as (Hwu & Hku & Heu).
  split; [exact He|]. split; [|split; [|split; [|done]]].
  - intros k Hne. split; [by apply Hk|]. rewrite Hku by done. by apply Hk.
  - assert (Forall (λ ec, installed ec.1 ec.2 fs) events) as Hin.
    { apply Forall_forall. intros [e c] Hin. simpl. specialize (He e).
      apply (assoc_get_elem e c events Hnd) in Hin. unfold wanted_entry in He. rewrite Hin in He.
      eapply new_entries_installed; [|exact He].
      apply Forall_forall. intros x [_ Hx]%list_elem_of_In%filter_In. by apply negb_true_iff in Hx. }
    clear -Hall Hin. induction Hin as [|[e c] events Hi _ IH]; [done|]. cbn [foldl].
    apply Forall_cons in Hall as [(Hm & Heq & _) Hall]. rewrite merge_entry_installed by done. by apply IH.
  - intros event. rewrite Heu. unfold others at 1. rewrite He. unfold wanted_entry.
    destruct (assoc_get event events) as [c|] eqn:E; [|done].
    rewrite List.filter_app. unfold others. rewrite filter_idem. simpl.
    assert (managed c = true) as ->; [|by rewrite app_nil_r].
    apply assoc_get_split in E as (l1 & l2 & -> & _).
    apply Forall_app in Hall as [_ [(? & _) _]%Forall_cons]. done.
Qed.
End Managed.
