(* ===== verification/Setup.v ===== *)
(** * Setting up the hooks

    [src/apps/vigil-hub-cli/src/setup.rs]: the entries of Vigil in the settings of
    an agent, put in and taken out without touching what else is there, and the
    way a configuration file is replaced: a copy is kept, the new text takes the
    place of the old one at once, and not at all if somebody else has changed the
    file in the meantime. Paths are those of a POSIX host. *)

From S2P Require Import Prelude Text Types Json Deps Extract Files HookEntries.

Module SetupError.
Inductive SetupError :=
| MissingHomeDir
| MissingDataDir
| MissingCurrentExe
| MalformedConfig (path : string)
| UnsupportedConfigShape (path field : string)
| UnsafePath (which : string) (offending : ascii)
| Io (what path : string)
| HookExeNotFound (path : string)
| DuplicateServerId (path id first second : string).
End SetupError.
Abbreviation SetupError := SetupError.SetupError.

Definition SetupM : Type → Type := M Disk SetupError.

(** [m.map_err(|_| SetupError::Io { what, path })] *)
Definition map_io {A} (what path : string) (m : FileM A) : SetupM A := λ d,
  match m d with
  | (Ok a, d') => (Ok a, d')
  | (Err _, d') => (Err (SetupError.Io what path), d')
  end.

(** ** Replacing a configuration file *)

Section Replacing.
Context `{Host} `{Document Value}.

(** [if let Some(parent) = path.parent()]: the path names something. *)
Definition has_parent (p : string) : bool :=
  match components p with
  | [] | [Component.RootDir] => false
  | _ => true
  end.

Definition CHANGED : string :=
  "config changed during update (close Claude Code, then re-run; original left intact)".
Definition DISAPPEARED : string :=
  "config disappeared during update (nothing was changed; re-run to reconfigure)".
Definition LOCKED : string :=
  "atomically replace config (target may be locked; original left intact)".

Definition abandon {A} (tmp what path : string) : SetupM A := λ d,
  let '(_, d') := remove_file tmp d in (Err (SetupError.Io what path), d').

Definition make_parent (path : string) : SetupM unit :=
  if has_parent path then map_io "create config directory" path create_dir_all else ret tt.

(** The copy of what is there. *)
Definition back_up (path : string) : SetupM (option string) :=
  let! there := map_io "" path (exists_ path) in
  if there then
    map_io "back up existing config" (backup_path_for path) (copy path (backup_path_for path)) ;!
    ret (Some (backup_path_for path))
  else ret None.

(** The file is still the one that was read. *)
Definition check_unchanged (path tmp : string) (expect_unchanged : option (Z * Z)) : SetupM unit :=
  match expect_unchanged with
  | Some (exp_mtime, exp_len) =>
      let! now := map_io "" path (attempt (metadata path)) in
      match now with
      | Ok (mtime, len) =>
          if negb (len =? exp_len)%Z || negb (mtime =? exp_mtime)%Z
          then abandon tmp CHANGED path else ret tt
      | Err _ => abandon tmp DISAPPEARED path
      end
  | None => ret tt
  end.

Definition swap_in (path tmp : string) : SetupM unit :=
  let! renamed := map_io "" path (attempt (rename tmp path)) in
  match renamed with
  | Err _ => abandon tmp LOCKED path
  | Ok _ => ret tt
  end.

Definition atomic_write_str_with_backup (path rendered : string) (expect_unchanged : option (Z * Z))
    : SetupM (option string) :=
  make_parent path ;!
  let! backup_path := back_up path in
  let tmp := tmp_path_for path in
  map_io "write temp config" tmp (write tmp rendered) ;!
  check_unchanged path tmp expect_unchanged ;!
  swap_in path tmp ;!
  ret backup_path.

Definition atomic_write_with_backup (path : string) (value : Value) (expect_unchanged : option (Z * Z))
    : SetupM (option string) :=
  let! rendered := lift (ok_or (to_string_pretty value) (SetupError.Io "serialize config" path)) in
  atomic_write_str_with_backup path (rendered +:+ newline_str) expect_unchanged.

Definition stamp_for_existing (path : string) : SetupM (Z * Z) :=
  map_io "stat config for write guard" path (metadata path).

Definition read_settings (path : string) : SetupM (option Value) :=
  let! raw := map_io "" path (attempt (read_to_string path)) in
  match raw with
  | Ok s =>
      if Str.is_empty (trim s) then ret (Some (JObj []))
      else match from_str s with
           | Some v => ret (Some v)
           | None => throw (SetupError.MalformedConfig path)
           end
  | Err IoError.NotFound => ret None
  | Err _ => throw (SetupError.Io "read settings file" path)
  end.
End Replacing.

(** ** The hook command *)

Definition VIGIL_HOOK_MARKER : string := "--vigil-managed".
Definition HOOK_TIMEOUT_SECS : Z := 60.
Definition CLAUDE_HOOK_EVENTS : list string := ["PreToolUse"; "PostToolUse"; "UserPromptSubmit"].

(** A quote ends the quoted text, stands by itself after a backslash, and opens
    it again. *)
Definition shell_quote (s : string) : string :=
  "'" +:+ str_replace "'" "'\''" s +:+ "'".

Definition hook_command_with_cli (exe ledger : string) (cli : option string) : string :=
  let cli_part := match cli with
                  | Some kind => " --cli " +:+ kind
                  | None => ""
                  end in
  let redact_part := match cli with
                     | None => " --redact-results"
                     | Some _ => ""
                     end in
  shell_quote exe +:+ " hook " +:+ VIGIL_HOOK_MARKER +:+ cli_part +:+ redact_part
  +:+ " --ledger " +:+ shell_quote ledger.

Definition hook_command (exe ledger : string) : string := hook_command_with_cli exe ledger None.

(** A line feed, a carriage return, a null byte. *)
Definition unsafe_char (a : ascii) : bool := byte_is 10 a || byte_is 13 a || byte_is 0 a.

Fixpoint validate_path_for_command (p which : string) : result SetupError unit :=
  match p with
  | EmptyString => Ok tt
  | String a p' =>
      if unsafe_char a then Err (SetupError.UnsafePath which a)
      else validate_path_for_command p' which
  end.

Definition command_is_vigil_managed (command : string) : bool :=
  existsb (String.eqb VIGIL_HOOK_MARKER) (split_whitespace command).

Definition is_vigil_entry (entry : Value) : bool :=
  match json_get "hooks" entry ≫= as_array with
  | Some hooks =>
      existsb (λ h, match json_get "command" h ≫= as_str with
                    | Some command => command_is_vigil_managed command
                    | None => false
                    end) hooks
  | None => false
  end.

Definition vigil_entry (event command : string) : Value :=
  let hooks := JArr [JObj [("type", JStr "command"); ("command", JStr command);
                           ("timeout", JNum HOOK_TIMEOUT_SECS)]] in
  if String.eqb event "UserPromptSubmit" then JObj [("hooks", hooks)]
  else JObj [("matcher", JStr "*"); ("hooks", hooks)].

(** ** Merging *)

Definition shape_ok (v : option Value) (test : Value → bool) : bool :=
  match v with
  | Some v => test v
  | None => true
  end.

Definition ensure_mergeable_shape (settings : Value) (path : string) : result SetupError unit :=
  let bad field := Err (SetupError.UnsupportedConfigShape path field) in
  if negb (is_object settings) then bad "<root>"
  else match json_get "hooks" settings with
       | None => Ok tt
       | Some hooks =>
           if negb (is_object hooks) then bad "hooks"
           else match List.find (λ event, negb (shape_ok (json_get event hooks) is_array))
                        CLAUDE_HOOK_EVENTS with
                | Some event => bad ("hooks." +:+ event)
                | None => Ok tt
                end
       end.

(** What Vigil wants at each event it listens to. *)
Definition wanted_entries (command : string) : list (string * Value) :=
  map (λ event, (event, vigil_entry event command)) CLAUDE_HOOK_EVENTS.

Definition merge_install (settings : Value) (command : string) : bool * Value :=
  match foldl (merge_entry is_vigil_entry) (inl (false, settings)) (wanted_entries command) with
  | inl r | inr r => r
  end.

Definition merge_uninstall (settings : Value) : bool * Value :=
  remove_entries is_vigil_entry settings.

(** ** The state of the protection *)

Module ProtectionState.
Inductive ProtectionState := NotInstalled | Active | Stale | PendingTrust.
End ProtectionState.
Abbreviation ProtectionState := ProtectionState.ProtectionState.

(** The entry with the path of the ledger blanked out. *)
Definition entry_ledger_normalized (entry : Value) : option Value :=
  hooks ← json_get "hooks" entry ≫= as_array;
  match hooks with
  | [h] =>
      cmd ← json_get "command" h ≫= as_str;
      p ← split_once_str " --ledger " cmd;
      if Str.is_empty (trim p.2) then None
      else match entry, h with
           | JObj fields, JObj hf =>
               Some (JObj (map_insert "hooks"
                 (JArr [JObj (map_insert "command"
                                (JStr (p.1 +:+ " --ledger <vigil-ledger>")) hf)]) fields))
           | _, _ => None
           end
  | _ => None
  end.

Definition option_json_eqb (a b : option Value) : bool :=
  match a, b with
  | Some v, Some w => json_eqb v w
  | None, None => true
  | _, _ => false
  end.

Definition event_canonical (s : Value) (canonical_command event : string) : bool :=
  let canonical_norm := entry_ledger_normalized (vigil_entry event canonical_command) in
  bool_decide (is_Some canonical_norm)
  && match List.filter is_vigil_entry (event_entries event s) with
     | [e] => option_json_eqb (entry_ledger_normalized e) canonical_norm
     | _ => false
     end.

Section Running.
Context `{Host} `{Document Value}.

Definition protection_state (settings : option Value) (canonical_command exe : string)
    : SetupM ProtectionState :=
  match settings with
  | None => ret ProtectionState.NotInstalled
  | Some s =>
      if negb (existsb (λ event, existsb is_vigil_entry (event_entries event s)) CLAUDE_HOOK_EVENTS)
      then ret ProtectionState.NotInstalled
      else if forallb (event_canonical s canonical_command) CLAUDE_HOOK_EVENTS then
        let! there := map_io "" exe (exists_ exe) in
        ret (if there then ProtectionState.Active else ProtectionState.Stale)
      else ret ProtectionState.Stale
  end.

Record SetupArgs := mkSetupArgs {
  sa_uninstall : bool;
  sa_status : bool;
  sa_dry_run : bool;
}.

Record SetupReport := mkSetupReport {
  sr_settings_path : string;
  sr_claude_detected : bool;
  sr_changed : bool;
  sr_state : ProtectionState;
  sr_hook_command : string;
  sr_ledger : string;
  sr_backup_path : option string;
  sr_dry_run : bool;
}.

Definition claude_settings_path (home : string) : string :=
  path_push (path_push home ".claude") "settings.json".

(** [detected] is [claude_detected(home)]: directories and the search path. *)
Definition run_with (detected : bool) (args : SetupArgs) (home exe ledger : string)
    : SetupM SetupReport :=
  let settings_path := claude_settings_path home in
  let command := hook_command exe ledger in
  let! existing := read_settings settings_path in
  let! state := protection_state existing command exe in
  if sa_status args then
    ret (mkSetupReport settings_path detected false state command ledger None true)
  else if negb detected && negb (sa_uninstall args) then
    ret (mkSetupReport settings_path false false state command ledger None (sa_dry_run args))
  else
    let base := default (JObj []) existing in
    let! merged :=
      if sa_uninstall args then ret (merge_uninstall base)
      else
        lift (validate_path_for_command exe "executable") ;!
        lift (validate_path_for_command ledger "ledger") ;!
        lift (ensure_mergeable_shape base settings_path) ;!
        ret (merge_install base command) in
    let '(changed, new_settings) := merged in
    let! backup_path :=
      if changed && negb (sa_dry_run args)
      then atomic_write_with_backup settings_path new_settings None else ret None in
    let! final_state :=
      if sa_dry_run args then ret state
      else protection_state (Some new_settings) command exe in
    ret (mkSetupReport settings_path detected changed final_state command ledger backup_path
           (sa_dry_run args)).
End Running.
