(* ===== verification/Documents.v ===== *)
(** * Documents

    TOML documents: the crate [toml_edit], which keeps the format of a document it
    changes, by what the program asks of its tables and does to them. [TomlLaws]
    states the documented behaviour the theorems use. At the end, instances of
    [Document] and [Toml] whose laws hold, to evaluate the examples with: a value is
    written as the binary digits of its code. *)

From stdpp Require Import countable.
From S2P Require Import Prelude Text Types Json Deps.

(** What an item of a document holds, without its format: a table, inline or not, by
    its entries; a number with a point as [serde_json] writes it, [None] where it
    cannot be written. *)
Inductive TomlValue :=
| TvNone
| TvString (s : string)
| TvInteger (n : Z)
| TvFloat (number : option string)
| TvBool (b : bool)
| TvDatetime (s : string)
| TvArray (l : list TomlValue)
| TvTable (fields : list (string * TomlValue))
| TvTables (l : list (list (string * TomlValue))).

Class Toml := {
  (** [Table], also the root of a [DocumentMut] *)
  Table : Type;
  Item : Type;
  (** [s.parse::<DocumentMut>().ok()], [doc.to_string()] *)
  toml_parse : string → option Table;
  toml_print : Table → string;
  (** [t.get(key)], [item.as_table_like()], [item.as_str()], [item.as_bool()] *)
  toml_get : string → Table → option Item;
  as_table_like : Item → option Table;
  toml_as_str : Item → option string;
  toml_as_bool : Item → option bool;
  (** [t.iter()], and the values of the items *)
  toml_entries : Table → list (string * Item);
  toml_content : Item → TomlValue;
  (** [item.as_table_mut().is_some()]: a table, and not an inline one. *)
  is_table : Item → bool;
  (** [t.insert(key, item)], which writes the key anew; [t[key] = item], and what a
      change of the item in place leaves; [t.remove(key)] *)
  toml_insert : string → Item → Table → Table;
  toml_assign : string → Item → Table → Table;
  toml_remove : string → Table → Table;
  (** What a change made through [as_table_like_mut] leaves of an item. *)
  put_table : Table → Item → Item;
  (** [Table::new()], [Item::Table(t)], [toml_edit::table()], [t.set_implicit(true)] *)
  new_table : Table;
  table_item : Table → Item;
  empty_table : Item;
  set_implicit : Table → Table;
  (** [toml_edit::value(s)], of a string, of a boolean and of an array of strings. *)
  value_str : string → Item;
  value_bool : bool → Item;
  value_strs : list string → Item;
}.

Section Reading.
Context `{Toml}.

Definition table_at (key : string) (t : Table) : option Table := toml_get key t ≫= as_table_like.

Definition str_of (key : string) (t : Table) : option string := toml_get key t ≫= toml_as_str.

(** The string at the end of a path of tables. *)
Fixpoint str_at (path : list string) (key : string) (t : Table) : option string :=
  match path with
  | [] => str_of key t
  | k :: rest => table_at k t ≫= str_at rest key
  end.

(** A value that is no table. *)
Definition leaf (v : TomlValue) : option TomlValue :=
  match v with
  | TvNone | TvTable _ | TvTables _ => None
  | _ => Some v
  end.

Definition leaf_of (key : string) (t : Table) : option TomlValue :=
  i ← toml_get key t; leaf (toml_content i).

Fixpoint leaf_at (path : list string) (key : string) (t : Table) : option TomlValue :=
  match path with
  | [] => leaf_of key t
  | k :: rest => table_at k t ≫= leaf_at rest key
  end.
End Reading.

Definition tv_str (v : TomlValue) : option string :=
  match v with
  | TvString s => Some s
  | _ => None
  end.

Definition tv_fields (v : TomlValue) : option (list (string * TomlValue)) :=
  match v with
  | TvTable fields => Some fields
  | _ => None
  end.

Class TomlLaws `{Toml} : Prop := {
  toml_get_insert k i t : toml_get k (toml_insert k i t) = Some i;
  toml_get_insert_ne k k' i t : k ≠ k' → toml_get k (toml_insert k' i t) = toml_get k t;
  toml_get_assign k i t : toml_get k (toml_assign k i t) = Some i;
  toml_get_assign_ne k k' i t : k ≠ k' → toml_get k (toml_assign k' i t) = toml_get k t;
  toml_get_remove k t : toml_get k (toml_remove k t) = None;
  toml_get_remove_ne k k' t : k ≠ k' → toml_get k (toml_remove k' t) = toml_get k t;
  toml_get_new k : toml_get k new_table = None;
  toml_get_implicit k t : toml_get k (set_implicit t) = toml_get k t;
  (** The entries of a table have distinct keys. *)
  toml_entries_get k i t : (k, i) ∈ toml_entries t ↔ toml_get k t = Some i;
  toml_entries_keys t : NoDup (toml_entries t).*1;
  toml_content_str s : toml_content (value_str s) = TvString s;
  toml_content_strs l : toml_content (value_strs l) = TvArray (TvString <$> l);
  toml_as_str_content i : toml_as_str i = tv_str (toml_content i);
  toml_content_table i :
    tv_fields (toml_content i)
    = (λ t, (λ kv, (kv.1, toml_content kv.2)) <$> toml_entries t) <$> as_table_like i;
  toml_table_item t : as_table_like (table_item t) = Some t;
  toml_empty_table : as_table_like empty_table = Some new_table;
  toml_is_table i : is_table i = true → is_Some (as_table_like i);
  toml_put_table t i : is_Some (as_table_like i) → as_table_like (put_table t i) = Some t;
  (** What is printed is a document again, with the same values in it. *)
  toml_reread_leaves t :
    ∃ t', toml_parse (toml_print t) = Some t' ∧ ∀ path key, leaf_at path key t' = leaf_at path key t;
}.

Section Facts.
Context `{TomlLaws}.

Lemma toml_str_value s : toml_as_str (value_str s) = Some s.
Proof. by rewrite toml_as_str_content, toml_content_str. Qed.

Lemma toml_table_content i t : as_table_like i = Some t →
  toml_content i = TvTable ((λ kv, (kv.1, toml_content kv.2)) <$> toml_entries t).
Proof.
  intros Ht. pose proof (toml_content_table i) as E. rewrite Ht in E. simpl in E.
  destruct (toml_content i); try done. by injection E as ->.
Qed.

Lemma toml_table_str i : is_Some (as_table_like i) → toml_as_str i = None.
Proof. intros [t Ht]. by rewrite toml_as_str_content, (toml_table_content i t). Qed.

Lemma str_of_leaf key t : str_of key t = leaf_of key t ≫= tv_str.
Proof.
  unfold str_of, leaf_of. destruct (toml_get key t) as [i|]; [|done]. simpl.
  rewrite toml_as_str_content. by destruct (toml_content i).
Qed.

Lemma str_at_leaf path key t : str_at path key t = leaf_at path key t ≫= tv_str.
Proof.
  revert t; induction path as [|k path IH]; intros t; cbn [str_at leaf_at]; [apply str_of_leaf|].
  destruct (table_at k t); [apply IH|done].
Qed.

Lemma toml_reread t :
  ∃ t', toml_parse (toml_print t) = Some t' ∧ ∀ path key, str_at path key t' = str_at path key t.
Proof.
  destruct (toml_reread_leaves t) as (t' & Hp & Hl). exists t'. split; [done|].
  intros path key. by rewrite !str_at_leaf, Hl.
Qed.
End Facts.

(** ** Values have codes *)

Abbreviation Tree := (gen_tree (bool + (Z + string))).

Fixpoint tree_of (v : Value) : Tree :=
  match v with
  | JNull => GenNode 0 []
  | JBool b => GenLeaf (inl b)
  | JNum n => GenLeaf (inr (inl n))
  | JFloat s => GenNode 1 [GenLeaf (inr (inr s))]
  | JStr s => GenLeaf (inr (inr s))
  | JArr l => GenNode 2 (map tree_of l)
  | JObj fields => GenNode 3 (map (λ kv, GenNode 4 [GenLeaf (inr (inr kv.1)); tree_of kv.2]) fields)
  end.

Fixpoint value_of (t : Tree) : Value :=
  match t with
  | GenLeaf (inl b) => JBool b
  | GenLeaf (inr (inl n)) => JNum n
  | GenLeaf (inr (inr s)) => JStr s
  | GenNode 1 [GenLeaf (inr (inr s))] => JFloat s
  | GenNode 2 l => JArr (map value_of l)
  | GenNode 3 l =>
      JObj (map (λ kv, match kv with
                       | GenNode _ [GenLeaf (inr (inr k)); w] => (k, value_of w)
                       | _ => ("", JNull)
                       end) l)
  | _ => JNull
  end.

Lemma value_of_tree v : value_of (tree_of v) = v.
Proof.
  induction v as [|b|z|t|s|l IH|fields IH] using value_ind; simpl; try done.
  - f_equal. rewrite map_map. induction IH as [|w l E _ IHl]; simpl; [done|]. by rewrite E, IHl.
  - f_equal. rewrite map_map. induction IH as [|[k w] l E _ IHl]; simpl in *; [done|].
    by rewrite E, IHl.
Qed.

#[global] Instance Value_eq_dec : EqDecision Value.
Proof.
  refine (λ v w, cast_if (decide (tree_of v = tree_of w))); [|congruence].
  rewrite <- (value_of_tree v), <- (value_of_tree w). congruence.
Defined.

#[global] Instance Value_countable : Countable Value := inj_countable' tree_of value_of value_of_tree.

(** ** Codes as text *)

Fixpoint digits (p : positive) : string :=
  match p with
  | xH => "."
  | xO p => String "0" (digits p)
  | xI p => String "1" (digits p)
  end.

Fixpoint undigits (s : string) : option positive :=
  match s with
  | String "." _ => Some xH
  | String "0" s' => xO <$> undigits s'
  | String "1" s' => xI <$> undigits s'
  | _ => None
  end.

Lemma undigits_digits p rest : undigits (digits p +:+ rest) = Some p.
Proof. induction p as [p IH|p IH|]; simpl; rewrite ?IH; done. Qed.

(** Documents of anything that has codes. *)
Definition coded_as `{Countable A} : Document A := {|
  to_string_pretty a := Some (digits (encode a));
  from_str s := undigits s ≫= decode;
|}.

Lemma coded_laws `{Countable A} : @DocumentLaws A coded_as.
Proof.
  split; intros a text [= <-].
  - unfold from_str, coded_as. rewrite undigits_digits. simpl. by rewrite decode_encode.
  - destruct (encode a) as [p|p|]; [| |done]; cbn [digits]; rewrite Str.append_cons;
      by destruct (digits p +:+ newline_str) as [|b [|c r]].
Qed.

#[global] Instance coded_document : Document Value := coded_as.
#[global] Instance coded_document_laws : DocumentLaws Value := coded_laws.

(** The first entry of each key. *)
Fixpoint first_entries {A} (l : list (string * A)) : list (string * A) :=
  match l with
  | [] => []
  | kv :: rest => kv :: List.filter (λ e, negb (String.eqb e.1 kv.1)) (first_entries rest)
  end.

Fixpoint content_of (v : Value) : TomlValue :=
  match v with
  | JNull => TvNone
  | JBool b => TvBool b
  | JNum n => TvInteger n
  | JFloat s => TvFloat (Some s)
  | JStr s => TvString s
  | JArr l => TvArray (map content_of l)
  | JObj fields => TvTable (first_entries (map (λ kv, (kv.1, content_of kv.2)) fields))
  end.

Lemma elem_of_filter_ne {A} (k k' : string) (i : A) l :
  (k, i) ∈ List.filter (λ e, negb (String.eqb e.1 k')) l ↔ k ≠ k' ∧ (k, i) ∈ l.
Proof.
  rewrite !list_elem_of_In, filter_In, negb_true_iff. simpl.
  destruct (String.eqb_spec k k'); naive_solver.
Qed.

Lemma filter_first_entries {A} k (l : list (string * A)) :
  NoDup l.*1 → NoDup (List.filter (λ e, negb (String.eqb e.1 k)) l).*1.
Proof.
  induction l as [|[k' v] l IH]; [done|]. rewrite fmap_cons. intros [Hn Hd]%NoDup_cons.
  simpl. destruct (String.eqb k' k); simpl; [by apply IH|]. apply NoDup_cons. split; [|by apply IH].
  intros Hin. apply Hn. apply list_elem_of_fmap in Hin as ([k2 v2] & -> & Hin).
  apply elem_of_filter_ne in Hin as [_ Hin]. apply list_elem_of_fmap. by exists (k2, v2).
Qed.

Lemma first_entries_keys {A} (l : list (string * A)) : NoDup (first_entries l).*1.
Proof.
  induction l as [|[k v] l IH]; [by apply NoDup_nil_2|]. simpl. apply NoDup_cons.
  split; [|by apply filter_first_entries].
  intros Hin. apply list_elem_of_fmap in Hin as ([k2 v2] & -> & Hin).
  apply elem_of_filter_ne in Hin. by destruct Hin.
Qed.

Lemma first_entries_get k v (l : list (string * Value)) :
  (k, v) ∈ first_entries l ↔ assoc_get k l = Some v.
Proof.
  induction l as [|[k' v'] l IH]; cbn [first_entries assoc_get].
  - split; [|done]. intros Hin. by apply elem_of_nil in Hin.
  - rewrite elem_of_cons, elem_of_filter_ne, IH. simpl.
    destruct (String.eqb_spec k' k) as [->|Hne]; naive_solver.
Qed.

Lemma first_entries_map {A B} (f : A → B) l :
  first_entries (map (λ kv, (kv.1, f kv.2)) l) = (λ kv, (kv.1, f kv.2)) <$> first_entries l.
Proof.
  induction l as [|[k v] l IH]; [done|]. cbn [map first_entries]. rewrite IH, fmap_cons. f_equal.
  clear IH. simpl. induction (first_entries l) as [|[k' v'] r IH]; [done|].
  rewrite fmap_cons. simpl. rewrite IH. by destruct (String.eqb k' k).
Qed.

#[global] Instance coded_toml : Toml := {|
  Table := list (string * Value);
  Item := Value;
  toml_parse s := (v ← undigits s ≫= decode; as_object v);
  toml_print t := digits (encode (JObj t));
  toml_get := assoc_get;
  as_table_like := as_object;
  toml_as_str := as_str;
  toml_as_bool := as_bool;
  toml_entries := first_entries;
  toml_content := content_of;
  is_table := is_object;
  toml_insert := map_insert;
  toml_assign := map_insert;
  toml_remove k t := List.filter (λ kv, negb (String.eqb kv.1 k)) t;
  put_table t i := JObj t;
  new_table := [];
  table_item := JObj;
  empty_table := JObj [];
  set_implicit t := t;
  value_str := JStr;
  value_bool := JBool;
  value_strs := json_strs;
|}.

Lemma assoc_get_filter k k' (t : list (string * Value)) :
  assoc_get k (List.filter (λ kv, negb (String.eqb kv.1 k')) t)
  = if String.eqb k k' then None else assoc_get k t.
Proof.
  induction t as [|[k1 v] t IH]; simpl; [by destruct (String.eqb k k')|].
  destruct (String.eqb_spec k1 k') as [->|Hne]; simpl; rewrite IH.
  - destruct (String.eqb_spec k' k) as [->|]; [by rewrite String.eqb_refl|done].
  - destruct (String.eqb_spec k1 k) as [->|]; [|done].
    by destruct (String.eqb_spec k k').
Qed.

#[global] Instance coded_toml_laws : TomlLaws.
Proof.
  split; simpl; try done.
  - intros. apply assoc_get_insert.
  - intros k k' i t Hne. by apply assoc_get_insert_ne.
  - intros. apply assoc_get_insert.
  - intros k k' i t Hne. by apply assoc_get_insert_ne.
  - intros. by rewrite assoc_get_filter, String.eqb_refl.
  - intros k k' t Hne. rewrite assoc_get_filter. by destruct (String.eqb_spec k k').
  - intros. apply first_entries_get.
  - intros. apply first_entries_keys.
  - intros l. f_equal. by induction l as [|x l IH]; [|simpl; f_equal].
  - by intros [].
  - intros [| | | | | |fields]; simpl; try done. f_equal. apply first_entries_map.
  - intros i Hi. by apply bool_decide_eq_true in Hi.
  - intros t. exists t. split; [|done]. rewrite <- (Str.append_nil_r (digits _)), undigits_digits. simpl.
    by rewrite decode_encode.
Qed.
