(* ===== verification/SetupProps.v ===== *)
(** * What setting up the hooks guarantees

    The entries of others stay as they are and in their order; installing twice is
    installing once; a configuration file is replaced as a whole or left alone,
    and what it held before is in the copy. *)

From S2P Require Import Prelude Text Types Json Deps Extract Files HookEntries Setup.

(** ** Words *)

(** No white-space character has an ASCII byte after its first. *)
Lemma ws_len_ascii c a rest :
  (nat_of_ascii c < 128)%nat → a ≠ "" → ws_len (a +:+ String c rest) = ws_len a.
Proof.
  intros Hc.
  assert (∀ n, (128 ≤ n)%nat → byte_is n c = false) as Hb
    by (intros n Hn; unfold byte_is; apply Nat.eqb_neq; lia).
  assert (Str.between 128 138 c = false) as Hr
    by (unfold Str.between; apply andb_false_iff; left; apply Nat.leb_gt; lia).
  destruct a as [|x [|y [|z a]]]; [done| | |done]; intros _;
    rewrite ?Str.append_cons; change ("" +:+ String c rest) with (String c rest);
    unfold ws_len; destruct (Str.between 9 13 x || byte_is 32 x); try done.
  - rewrite !Hb by lia. rewrite orb_false_r, andb_false_r. destruct rest as [|d rest]; [done|].
    by rewrite !andb_false_r.
  - destruct (byte_is 194 x && _); [done|]. rewrite !Hb, Hr by lia. by rewrite !andb_false_r.
Qed.

Lemma ws_len_le s : (ws_len s ≤ String.length s)%nat.
Proof.
  destruct s as [|x [|y [|z s]]]; simpl; [done|..]; repeat case_match; simpl; lia.
Qed.

Lemma blank_ascii c skip a rest :
  (nat_of_ascii c < 128)%nat → ws_len (String c rest) = 0%nat → (skip ≤ String.length a)%nat →
  trim_from skip (a +:+ String c rest) ≠ "".
Proof.
  intros Hc Hw. revert skip. induction a as [|x a IH]; intros skip Hs.
  { destruct skip; [|simpl in Hs; lia]. change ("" +:+ ?s) with s. cbn [trim_from]. by rewrite Hw. }
  rewrite Str.append_cons. cbn [trim_from]. destruct skip as [|k]; [|apply IH; simpl in Hs; lia].
  rewrite <- Str.append_cons, ws_len_ascii by done. pose proof (ws_len_le (String x a)) as Hl.
  destruct (ws_len (String x a)) as [|k]; [done|]. apply IH. simpl in Hl. lia.
Qed.

(** A text that ends in a character of its own keeps its end, and one that begins
    with one its beginning. *)
Lemma trim_end_kept c u :
  (nat_of_ascii c < 128)%nat → ws_len (String c "") = 0%nat →
  trim_end (u +:+ String c "") = u +:+ String c "".
Proof.
  intros Hc Hw. assert (∀ v, is_blank (v +:+ String c "") = false) as Hb.
  { intros v. apply not_true_iff_false. intros Hb%Str.is_empty_spec. revert Hb.
    unfold trim_start. apply blank_ascii; [done|done|lia]. }
  induction u as [|a u IH].
  - specialize (Hb ""). change ("" +:+ ?s) with s in *. cbn [trim_end]. by rewrite Hb.
  - specialize (Hb (String a u)). rewrite Str.append_cons in *. cbn [trim_end]. by rewrite Hb, IH.
Qed.

Lemma words_space skip cur a rest :
  (skip ≤ String.length a)%nat →
  words_from skip cur (a +:+ String " " rest) = words_from skip cur a ++ words_from 0 "" rest.
Proof.
  revert skip cur. induction a as [|x a IH]; intros skip cur Hs.
  { destruct skip; [done|simpl in Hs; lia]. }
  rewrite Str.append_cons. cbn [words_from]. destruct skip as [|k]; [|apply IH; simpl in Hs; lia].
  rewrite <- Str.append_cons, ws_len_ascii by (done || by apply Nat.ltb_lt). pose proof (ws_len_le (String x a)) as Hl.
  destruct (ws_len (String x a)) as [|k]; [by apply IH; lia|].
  rewrite IH by (simpl in Hl; lia). by rewrite app_assoc.
Qed.

Lemma split_whitespace_space a rest :
  split_whitespace (a +:+ String " " rest) = split_whitespace a ++ split_whitespace rest.
Proof. apply words_space. lia. Qed.

Lemma hook_command_managed exe ledger cli :
  command_is_vigil_managed (hook_command_with_cli exe ledger cli) = true.
Proof.
  unfold command_is_vigil_managed, hook_command_with_cli.
  set (tail := " --ledger " +:+ shell_quote ledger).
  assert (∃ rest, shell_quote exe +:+ " hook " +:+ VIGIL_HOOK_MARKER +:+
    match cli with Some kind => " --cli " +:+ kind | None => "" end +:+
    match cli with Some _ => "" | None => " --redact-results" end +:+ tail
    = shell_quote exe +:+ String " " ("hook" +:+ String " " (VIGIL_HOOK_MARKER +:+ String " " rest)))
    as [rest ->].
  { destruct cli as [kind|]; eexists; unfold tail; rewrite ?Str.append_cons; reflexivity. }
  rewrite !split_whitespace_space, !existsb_app. by rewrite !orb_true_r.
Qed.

(** ** Entries *)

Ltac nodup_keys := apply (bool_decide_unpack _); vm_compute; exact I.

Lemma vigil_entry_eqb event command :
  json_eqb (vigil_entry event command) (vigil_entry event command) = true.
Proof. unfold vigil_entry. destruct (String.eqb event _); simpl; by rewrite String.eqb_refl. Qed.

Lemma vigil_entry_managed event command :
  command_is_vigil_managed command = true → is_vigil_entry (vigil_entry event command) = true.
Proof.
  intros Hc. unfold is_vigil_entry, vigil_entry. destruct (String.eqb event _); simpl; by rewrite Hc.
Qed.

Lemma wf_vigil_entry event command : wf_json (vigil_entry event command).
Proof.
  unfold vigil_entry.
  assert (wf_json (JArr [JObj [("type", JStr "command"); ("command", JStr command);
    ("timeout", JNum HOOK_TIMEOUT_SECS)]])) as Hh.
  { apply wf_arr, Forall_singleton, wf_obj. split; [by nodup_keys|by rewrite !Forall_cons, Forall_nil]. }
  destruct (String.eqb event _); apply wf_obj; (split; [by nodup_keys|]);
    rewrite !Forall_cons, Forall_nil; done.
Qed.

#[local] Abbreviation others := (others is_vigil_entry).

Lemma wanted_lookup event command :
  wanted_entry event (wanted_entries command)
  = if decide (event ∈ CLAUDE_HOOK_EVENTS) then Some (vigil_entry event command) else None.
Proof.
  unfold wanted_entry, wanted_entries. induction CLAUDE_HOOK_EVENTS as [|e es IH]; [done|].
  cbn [map assoc_get]. destruct (String.eqb_spec e event) as [->|Hne]; [by rewrite decide_True by left|].
  rewrite IH. destruct (decide (event ∈ es)) as [Hin|Hn]; [by rewrite decide_True by (by right)|].
  rewrite decide_False; [done|]. by intros [?|?]%elem_of_cons.
Qed.

(** Hooks come and go, and leave the settings of others alone. Whatever settings
    have a shape Vigil accepts: after installing, every event Vigil listens to has
    the entries of others in their order and one entry of Vigil after them, and
    every other event and setting is what it was; installing again changes nothing;
    after uninstalling, each event has exactly the entries of others, and every
    other setting is what it was. The keys stay distinct throughout. *)
Theorem hooks_come_and_go exe ledger path settings :
  wf_json settings → ensure_mergeable_shape settings path = Ok tt →
  let command := hook_command exe ledger in
  let s := (merge_install settings command).2 in
  let u := (merge_uninstall s).2 in
  (∀ event, event_entries event s
     = if decide (event ∈ CLAUDE_HOOK_EVENTS)
       then others event settings ++ [vigil_entry event command] else event_entries event settings) ∧
  (∀ k, k ≠ "hooks" → json_get k s = json_get k settings ∧ json_get k u = json_get k settings) ∧
  merge_install s command = (false, s) ∧
  (∀ event, event_entries event u = others event settings) ∧
  wf_json s ∧ wf_json u.
Proof.
  intros Hw Hshape command s u.
  assert (∃ fields, settings = JObj fields ∧ hooks_ok fields) as (fields & -> & Hok).
  { unfold ensure_mergeable_shape in Hshape. destruct settings as [| | | | | |fields]; try done.
    exists fields. split; [done|]. unfold hooks_ok. revert Hshape. simpl.
    destruct (assoc_get "hooks" fields) as [[]|]; done. }
  pose proof (hook_command_managed exe ledger None) as Hc. fold command in Hc.
  destruct (entries_come_and_go is_vigil_entry (wanted_entries command) false fields)
    as (ch & fs & Hfold & He & Hk & Hagain & Hu & Hws & Hwu); [by nodup_keys| |done|done|].
  { apply Forall_map, Forall_forall. intros e _. simpl.
    split_and!; [by apply vigil_entry_managed|apply vigil_entry_eqb|apply wf_vigil_entry]. }
  assert (s = JObj fs) as Hs by (unfold s, merge_install; by rewrite Hfold).
  unfold u, merge_uninstall. rewrite Hs. split_and!; try done.
  - intros event. rewrite He, wanted_lookup. by destruct (decide _).
  - unfold merge_install. by rewrite Hagain.
Qed.

(** ** Replacing a file *)

Section Replacing.
Context `{Host}.

Lemma map_io_cases {A} what path (m : FileM A) d r d' :
  map_io what path m d = (r, d') →
  match r with
  | Ok a => m d = (Ok a, d')
  | Err _ => ∃ e, m d = (Err e, d')
  end.
Proof. unfold map_io. destruct (m d) as [[a|e] d1]; intros [= <- <-]; [done|by exists e]. Qed.

Lemma abandon_cases {A} tmp what path d r d' :
  abandon (A := A) tmp what path d = (r, d') → r = Err (SetupError.Io what path) ∧ d' = (remove_file tmp d).2.
Proof. unfold abandon. destruct (remove_file tmp d). by intros [= <- <-]. Qed.

Lemma agree_trans d2 ps d1 d3 : agree_off ps d1 d2 → agree_off ps d2 d3 → agree_off ps d1 d3.
Proof. intros H1 H2 q Hq. by rewrite H2, H1. Qed.

Section Undisturbed.
Context (Hu : undisturbed).

Lemma attempt_snd {A} (m : FileM A) d : (attempt m d).2 = (m d).2.
Proof using Type. unfold attempt. by destruct (m d). Qed.

Lemma map_io_snd {A} what path (m : FileM A) d : (map_io what path m d).2 = (m d).2.
Proof using Type. unfold map_io. by destruct (m d) as [[]]. Qed.

Lemma metadata_files path d : dk_files (metadata path d).2 = dk_files d.
Proof using Hu.
  unfold metadata, reads, simple, operate. rewrite Hu. destruct (fault _); [done|].
  by destruct (dk_files d !! path).
Qed.

(** What comes before the new text: nothing but the copy changes. *)
Lemma back_up_cases path d r d' :
  back_up path d = (r, d') →
  agree_off [backup_path_for path] d d' ∧
  ∀ b, r = Ok (Some b) → b = backup_path_for path ∧
    ∃ f, dk_files d !! path = Some f ∧ fl_text <$> dk_files d' !! b = Some (fl_text f).
Proof using Hu.
  unfold back_up, bind at 1. destruct (map_io "" path (exists_ path) d) as [[there|e] d1] eqn:E1;
    pose proof (map_io_cases _ _ _ _ _ _ E1) as H1; cbn beta iota in H1.
  2:{ destruct H1 as [e' H1]. unfold exists_ in H1. by destruct (metadata path d). }
  assert (dk_files d1 = dk_files d) as Ef.
  { unfold exists_ in H1. pose proof (metadata_files path d) as Hm. destruct (metadata path d).
    by injection H1 as _ <-. }
  clear H1 E1. destruct there; [|intros [= <- <-]; split; [intros q _; by rewrite Ef|by intros b [=]]].
  unfold bind. destruct (map_io _ _ (copy _ _) d1) as [[[]|e] d2] eqn:E2;
    pose proof (keeps_copy Hu path (backup_path_for path) d1) as Hk;
    rewrite <- (map_io_snd "back up existing config" (backup_path_for path)), E2 in Hk; simpl in Hk.
  - intros [= <- <-]. split; [intros q Hq; by rewrite Hk, Ef|]. intros b [= <-]. split; [done|].
    apply map_io_cases in E2. revert E2. unfold copy, operate. rewrite Hu. destruct (fault _); [done|].
    rewrite <- Ef. destruct (dk_files d1 !! path) as [f|]; [|done]. intros [= <-]. exists f.
    split; [done|]. simpl. by rewrite lookup_insert_eq.
  - intros [= <- <-]. split; [intros q Hq; by rewrite Hk, Ef|]. by intros b [=].
Qed.

Lemma mkdir_cases path d r d' :
  make_parent path d = (r, d') →
  ∀ q, dk_files d' !! q = dk_files d !! q.
Proof using Hu.
  unfold make_parent. destruct (has_parent path); [|by intros [= _ <-]].
  unfold map_io, create_dir_all, simple, operate. rewrite Hu.
  destruct (fault _); by intros [= _ <-].
Qed.

Lemma check_unchanged_cases path tmp expect d r d' :
  check_unchanged path tmp expect d = (r, d') →
  agree_off [tmp] d d' ∧ (r = Ok tt → dk_files d' = dk_files d).
Proof using Hu.
  unfold check_unchanged. destruct expect as [[t l]|]; [|by intros [= <- <-]].
  unfold bind. pose proof (metadata_files path d) as Hm.
  assert (map_io "" path (attempt (metadata path)) d
    = (Ok (metadata path d).1, (metadata path d).2)) as -> by
    (unfold map_io, attempt; by destruct (metadata path d)).
  set (d1 := (metadata path d).2) in *.
  assert (∀ what, abandon (A := unit) tmp what path d1 = (r, d') →
    agree_off [tmp] d d' ∧ (r = Ok tt → dk_files d' = dk_files d)) as Ha.
  { intros what [-> ->]%abandon_cases. split; [|done]. intros q Hq.
    rewrite (keeps_remove Hu tmp d1 q Hq). by rewrite Hm. }
  destruct (metadata path d).1 as [[mt ln]|e]; [|apply Ha].
  destruct (negb _ || negb _); [apply Ha|]. intros [= <- <-]. split; [intros q _; by rewrite Hm|done].
Qed.

Lemma swap_in_cases path tmp d r d' :
  swap_in path tmp d = (r, d') →
  match r with
  | Ok _ => ∃ f, dk_files d !! tmp = Some f ∧ dk_files d' = <[path := f]> (delete tmp (dk_files d))
  | Err _ => agree_off [tmp] d d'
  end.
Proof using Hu.
  unfold swap_in, bind. destruct (rename tmp path d) as [r1 d1] eqn:Er.
  assert (map_io "" path (attempt (rename tmp path)) d = (Ok r1, d1)) as ->
    by (unfold map_io, attempt; by rewrite Er).
  pose proof (rename_cases Hu _ _ _ _ _ Er) as Hr. destruct r1 as [[]|e]; [by intros [= <- <-]|].
  intros [-> ->]%abandon_cases. intros q Hq. rewrite (keeps_remove Hu tmp d1 q Hq). by rewrite Hr.
Qed.
End Undisturbed.

(** The look at the file and the renaming are neighbours. *)
Lemma check_and_swap path tmp t l d d1 d2 :
  check_unchanged path tmp (Some (t, l)) d = (Ok tt, d1) → swap_in path tmp d1 = (Ok tt, d2) →
  ∃ n files f g, dk_ops d2 = S (S n) ∧ files !! path = Some f
    ∧ fl_modified f = t ∧ Z.of_nat (String.length (fl_text f)) = l
    ∧ dk_files d2 = <[path := g]> (delete tmp (meddle (S n) files)).
Proof.
  unfold check_unchanged, bind, map_io, attempt, metadata, reads, simple, operate.
  destruct (fault (dk_ops d)) as [ft|]; [simpl; by intros [[=] _]%abandon_cases|].
  destruct (meddle (dk_ops d) (dk_files d) !! path) as [f|] eqn:Ef; simpl.
  2:{ by intros [[=] _]%abandon_cases. }
  destruct (Z.eqb_spec (Z.of_nat (String.length (fl_text f))) l) as [El|];
    [|simpl; by intros [[=] _]%abandon_cases].
  destruct (Z.eqb_spec (fl_modified f) t) as [Et|]; [|simpl; by intros [[=] _]%abandon_cases].
  simpl. intros [= <-]. unfold swap_in, bind, map_io, attempt, rename, simple, operate. simpl.
  destruct (fault (S (dk_ops d))) as [ft|]; [simpl; by intros [[=] _]%abandon_cases|].
  set (files := meddle _ _) in *. destruct (meddle (S (dk_ops d)) files !! tmp) as [g|];
    [|simpl; by intros [[=] _]%abandon_cases].
  intros [= <-]. exists (dk_ops d), files, f, g. by split_and!.
Qed.

Lemma atomic_write_cases path rendered expect d r d' :
  atomic_write_str_with_backup path rendered expect d = (r, d') →
  (undisturbed →
    agree_off [path; tmp_path_for path; backup_path_for path] d d' ∧
    match r with
    | Ok bak => fl_text <$> dk_files d' !! path = Some rendered ∧
        ∀ b, bak = Some b → b = backup_path_for path ∧
          ∃ f, dk_files d !! path = Some f ∧ fl_text <$> dk_files d' !! b = Some (fl_text f)
    | Err _ => dk_files d' !! path = dk_files d !! path
    end) ∧
  (∀ mtime len, expect = Some (mtime, len) → is_ok r = true →
    ∃ n files f g, dk_ops d' = S (S n) ∧ files !! path = Some f
      ∧ fl_modified f = mtime ∧ Z.of_nat (String.length (fl_text f)) = len
      ∧ dk_files d' = <[path := g]> (delete (tmp_path_for path) (meddle (S n) files))).
Proof.
  unfold atomic_write_str_with_backup. set (tmp := tmp_path_for path). set (bk := backup_path_for path).
  assert (tmp ≠ path) as Htp by apply tmp_path_ne.
  assert (bk ≠ path ∧ bk ≠ tmp) as [Hbp Hbt].
  { split; [|by intros [_ E]%Str.append_inj_len]. unfold bk, backup_path_for. intros E.
    apply (f_equal String.length) in E. rewrite Str.length_append in E. simpl in E. lia. }
  assert (∀ s s' e, agree_off [tmp; bk] s s' →
    agree_off [path; tmp; bk] s s' ∧
    match Err e : result SetupError (option string) with
    | Ok bak => fl_text <$> dk_files s' !! path = Some rendered ∧
        ∀ b, bak = Some b → b = bk ∧
          ∃ f, dk_files s !! path = Some f ∧ fl_text <$> dk_files s' !! b = Some (fl_text f)
    | Err _ => dk_files s' !! path = dk_files s !! path
    end) as Hfail.
  { intros s s' e Ha. split; [intros q Hq|]; apply Ha; set_solver. }
  unfold bind at 1. destruct (make_parent path d) as [r0 d0] eqn:E0.
  assert (undisturbed → agree_off [tmp; bk] d d0) as F0.
  { intros Hu q _. by eapply mkdir_cases. }
  destruct r0 as [[]|e]; [|intros [= <- <-]; split; [by eauto|done]].
  unfold bind at 1. destruct (back_up path d0) as [r1 d1] eqn:E1.
  assert (undisturbed → agree_off [tmp; bk] d d1) as F1.
  { intros Hu. apply (agree_trans d0); [by apply F0|]. intros q Hq.
    apply (back_up_cases Hu) in E1 as [E1 _]. apply E1. set_solver. }
  destruct r1 as [bp|e]; [|intros [= <- <-]; split; [by eauto|done]].
  unfold bind at 1. destruct (map_io _ _ (write tmp rendered) d1) as [r2 d2] eqn:E2.
  assert (undisturbed → agree_off [tmp] d1 d2) as W2.
  { intros Hu. pose proof (keeps_write Hu tmp rendered d1) as Hk.
    by rewrite <- (map_io_snd "write temp config" tmp), E2 in Hk. }
  assert (undisturbed → agree_off [tmp; bk] d d2) as F2.
  { intros Hu. apply (agree_trans d1); [by apply F1|]. intros q Hq. apply (W2 Hu). set_solver. }
  destruct r2 as [[]|e]; [|intros [= <- <-]; split; [by eauto|done]].
  unfold bind at 1. destruct (check_unchanged path tmp expect d2) as [r3 d3] eqn:E3.
  assert (undisturbed → agree_off [tmp; bk] d d3) as F3.
  { intros Hu. apply (agree_trans d2); [by apply F2|]. intros q Hq.
    apply (check_unchanged_cases Hu) in E3 as [E3 _]. apply E3. set_solver. }
  destruct r3 as [[]|e]; [|intros [= <- <-]; split; [by eauto|done]].
  unfold bind. destruct (swap_in path tmp d3) as [[[]|e] d4] eqn:E4; intros [= <- <-].
  2:{ split; [|done]. intros Hu. apply (Hfail _ _ e), (agree_trans d3); [by apply F3|].
      apply (swap_in_cases Hu) in E4. intros q Hq. apply E4. set_solver. }
  split; [|intros t l -> _; by eapply check_and_swap].
  intros Hu. apply (swap_in_cases Hu) in E4 as (g & Hg & E4).
  apply (check_unchanged_cases Hu) in E3 as [_ E3]. rewrite (E3 eq_refl) in Hg, E4.
  apply map_io_cases, write_ok in E2. rewrite Hg in E2. injection E2 as E2.
  split; [|split].
  - intros q Hq. rewrite E4, lookup_insert_ne, lookup_delete_ne by set_solver. apply (F2 Hu). set_solver.
  - rewrite E4, lookup_insert_eq. simpl. by rewrite E2.
  - intros b ->. apply (back_up_cases Hu) in E1 as [_ Hb]. destruct (Hb b eq_refl) as (-> & f & Hf & Hc).
    split; [done|]. exists f. rewrite <- (F0 Hu path) by set_solver. split; [done|].
    rewrite E4, lookup_insert_ne, lookup_delete_ne by done. rewrite (W2 Hu) by set_solver. done.
Qed.

(** C29. A configuration file is replaced whole or left alone. Wherever an operation
    fails, if nobody else writes: with an error the file is what it was, without
    one it holds the new text, and if a copy is reported it holds the old text;
    nothing changes but the file, its copy and the file beside it. Whatever others
    write and whenever: when a replacement guarded by what was read goes through,
    the file still had the length and time that were read at the operation just
    before the one that replaced it. *)
Theorem config_is_replaced_whole path rendered expect d r d' :
  atomic_write_str_with_backup path rendered expect d = (r, d') →
  (undisturbed →
    agree_off [path; tmp_path_for path; backup_path_for path] d d' ∧
    match r with
    | Ok bak => fl_text <$> dk_files d' !! path = Some rendered ∧
        ∀ b, bak = Some b → b = backup_path_for path ∧
          ∃ f, dk_files d !! path = Some f ∧ fl_text <$> dk_files d' !! b = Some (fl_text f)
    | Err _ => dk_files d' !! path = dk_files d !! path
    end) ∧
  (∀ mtime len, expect = Some (mtime, len) → is_ok r = true →
    ∃ n files f g, dk_ops d' = S (S n) ∧ files !! path = Some f
      ∧ fl_modified f = mtime ∧ Z.of_nat (String.length (fl_text f)) = len
      ∧ dk_files d' = <[path := g]> (delete (tmp_path_for path) (meddle (S n) files))).
Proof. apply atomic_write_cases. Qed.
End Replacing.

(** ** Settings on the disk *)

(** What [read_settings] makes of a text. *)
Definition settings_of `{Document Value} (text : string) : option Value :=
  if Str.is_empty (trim text) then Some (JObj []) else from_str text.

(** The file has these settings in it. *)
Definition holds `{Document Value} (path : string) (v : Value) (d : Disk) : Prop :=
  ∃ f, dk_files d !! path = Some f ∧ settings_of (fl_text f) = Some v.

Lemma io_attempt `{Host} {A} what path (m : FileM A) d :
  map_io what path (attempt m) d = (Ok (m d).1, (m d).2).
Proof. unfold map_io, attempt. by destruct (m d). Qed.

Section Settings.
Context `{Host} `{Document Value} (Hu : undisturbed).

Lemma reads_cases {A} (look : File → A) p d r d' :
  reads look p d = (r, d') →
  dk_files d' = dk_files d ∧
  match r with
  | Ok a => ∃ f, dk_files d !! p = Some f ∧ a = look f
  | Err _ => True
  end.
Proof using Hu.
  unfold reads, simple, operate. rewrite Hu. destruct (fault _); [by intros [= <- <-]|].
  destruct (dk_files d !! p) as [f|]; intros [= <- <-]; split; eauto.
Qed.

Lemma exists_cases p d r d' :
  exists_ p d = (r, d') →
  dk_files d' = dk_files d ∧ ∃ b, r = Ok b ∧ (b = true → is_Some (dk_files d !! p)).
Proof using Hu.
  unfold exists_. destruct (metadata p d) as [r1 d1] eqn:E.
  apply reads_cases in E as [Hf Hr]. intros [= <- <-]. split; [done|]. exists (is_ok r1). split; [done|].
  destruct r1; [|done]. destruct Hr as (f & -> & _). eauto.
Qed.

Lemma read_settings_cases path d r d' :
  read_settings path d = (r, d') →
  dk_files d' = dk_files d ∧
  match r with
  | Ok (Some v) => holds path v d
  | _ => True
  end.
Proof using Hu.
  unfold read_settings, bind. rewrite io_attempt.
  destruct (read_to_string path d) as [r1 d1] eqn:E. apply reads_cases in E as [Hf Hr]. simpl.
  unfold holds, settings_of. destruct r1 as [s|[]]; [|by intros [= <- <-]|by intros [= <- <-]].
  destruct Hr as (f & Hl & ->). destruct (Str.is_empty _) eqn:Eb.
  { intros [= <- <-]. split; [done|]. exists f. by rewrite Eb. }
  destruct (from_str (fl_text f)) as [v|] eqn:Ev; intros [= <- <-]; [|done].
  split; [done|]. exists f. by rewrite Eb.
Qed.

Lemma stamp_cases path d r d' : stamp_for_existing path d = (r, d') → dk_files d' = dk_files d.
Proof using Hu.
  unfold stamp_for_existing, map_io. destruct (metadata path d) as [r1 d1] eqn:E.
  apply reads_cases in E as [Hf _]. by destruct r1; intros [= <- <-].
Qed.

Lemma settings_written `{!DocumentLaws Value} v text :
  to_string_pretty v = Some text → settings_of (text +:+ newline_str) = Some v.
Proof using Type.
  intros Hv. unfold settings_of. rewrite trim_empty, (document_not_blank _ _ Hv).
  by apply document_roundtrip.
Qed.

Lemma write_settings_cases `{!DocumentLaws Value} path v expect d r d' :
  atomic_write_with_backup path v expect d = (r, d') →
  agree_off [path; tmp_path_for path; backup_path_for path] d d' ∧
  match r with
  | Ok _ => holds path v d'
  | Err _ => dk_files d' !! path = dk_files d !! path
  end.
Proof using Hu.
  unfold atomic_write_with_backup, bind, lift. destruct (to_string_pretty v) as [text|] eqn:Et; simpl.
  2:{ by intros [= <- <-]. }
  intros E. destruct (proj1 (atomic_write_cases _ _ _ _ _ _ E) Hu) as [Ha Hr]. split; [done|].
  destruct r as [bak|e]; [|done]. destruct Hr as [Hf _].
  destruct (dk_files d' !! path) as [f|] eqn:El; [|done]. injection Hf as Hf. exists f. split; [done|].
  rewrite Hf. by apply settings_written.
Qed.
End Settings.

(** ** Witnesses *)

Definition sample_settings : Value :=
  JObj [("theme", JStr "dark"); ("hooks", JObj [("PreToolUse", JArr [JStr "mine"]); ("Stop", JArr [])])].

Lemma hooks_come_and_go_witness :
  event_entries "PreToolUse"
    (merge_uninstall (merge_install sample_settings (hook_command "/v" "/l")).2).2 = [JStr "mine"].
Proof.
  assert (wf_json sample_settings) as Hw.
  { apply wf_obj. split; [by nodup_keys|]. rewrite !Forall_cons, Forall_nil. split; [done|].
    split; [|done]. apply wf_obj. split; [by nodup_keys|]. by rewrite !Forall_cons, Forall_nil. }
  exact (proj1 (proj2 (proj2 (proj2 (hooks_come_and_go "/v" "/l" "p" sample_settings Hw eq_refl))))
    "PreToolUse").
Defined.

(** An array that was empty before Vigil came goes with Vigil. *)
Example uninstall_drops_empty_arrays :
  json_get "hooks" (merge_uninstall (merge_install sample_settings (hook_command "/v" "/l")).2).2
  = Some (JObj [("PreToolUse", JArr [JStr "mine"])]).
Proof. reflexivity. Qed.

#[local] Instance quiet_host : Host := {|
  fault _ := None;
  meddle _ files := files;
  modified_now n := Z.of_nat n;
|}.

Definition sample_disk : Disk := mkDisk {["c" := mkFile "old" 7]} 0.

(** The guard of what was read lets the new text in. *)
Lemma config_is_replaced_whole_witness :
  fl_text <$> dk_files (atomic_write_str_with_backup "c" "new" (Some (7, 3)%Z) sample_disk).2 !! "c"
  = Some "new".
Proof.
  assert (undisturbed) as Hu by by intros n files.
  refine (proj1 (proj2 (proj1 (config_is_replaced_whole "c" "new" (Some (7, 3)%Z) sample_disk
    (Ok (Some "c.vigil-bak")) (atomic_write_str_with_backup "c" "new" (Some (7, 3)%Z) sample_disk).2 _) Hu))).
  vm_compute. reflexivity.
Defined.
