(* ===== verification/SetupHooks.v ===== *)
(** * Setting up the hooks of the other agents

    [src/apps/vigil-hub-cli/src/setup_hooks.rs]: the hooks of Codex, Gemini and
    Cursor. Each has its own file, events, timeouts and shape of entries; the
    merging is that of [HookEntries]. Codex runs only hooks its user has trusted:
    whether it does is read from its own configuration, and a hook that is in place
    but not trusted is not called active. Paths are those of a POSIX host. *)

From stdpp Require Import pretty.
From S2P Require Import Prelude Text Types Json Deps Extract Files HookEntries Setup Documents.

(** ** The agents *)

Definition CODEX_PRE_TOOL_USE_TIMEOUT_SECS : Z := 86400.
Definition CODEX_POST_TOOL_USE_TIMEOUT_SECS : Z := 60.
Definition CODEX_USER_PROMPT_SUBMIT_TIMEOUT_SECS : Z := 60.
Definition GEMINI_HOOK_TIMEOUT_MS : Z := 60000.
Definition CURSOR_HOOK_TIMEOUT_SECS : Z := 60.

Record EventSpec := mkEventSpec { es_event : string; es_timeout : Z }.

Definition CODEX_EVENTS : list EventSpec :=
  [mkEventSpec "PreToolUse" CODEX_PRE_TOOL_USE_TIMEOUT_SECS;
   mkEventSpec "PostToolUse" CODEX_POST_TOOL_USE_TIMEOUT_SECS;
   mkEventSpec "UserPromptSubmit" CODEX_USER_PROMPT_SUBMIT_TIMEOUT_SECS].

Definition GEMINI_EVENTS : list EventSpec :=
  [mkEventSpec "BeforeTool" GEMINI_HOOK_TIMEOUT_MS; mkEventSpec "AfterTool" GEMINI_HOOK_TIMEOUT_MS].

Definition CURSOR_EVENTS : list EventSpec :=
  [mkEventSpec "beforeShellExecution" CURSOR_HOOK_TIMEOUT_SECS;
   mkEventSpec "beforeMCPExecution" CURSOR_HOOK_TIMEOUT_SECS;
   mkEventSpec "afterShellExecution" CURSOR_HOOK_TIMEOUT_SECS;
   mkEventSpec "afterMCPExecution" CURSOR_HOOK_TIMEOUT_SECS].

Module EntryStyle.
Inductive EntryStyle := Nested | Flat.
End EntryStyle.
Abbreviation EntryStyle := EntryStyle.EntryStyle.

Record AgentHookSpec := mkAgentHookSpec {
  hs_agent : string;
  hs_display_name : string;
  hs_detect_dir : string;
  hs_config_path : string;
  hs_events : list EventSpec;
  hs_style : EntryStyle;
  hs_versioned_root : bool;
}.

(** [env_val.map(str::trim).filter(|s| !s.is_empty())] *)
Definition set_value (env_val : option string) : option string :=
  v ← env_val; if Str.is_empty (trim v) then None else Some (trim v).

Definition or_else {A} (a b : option A) : option A :=
  match a with
  | Some _ => a
  | None => b
  end.

Definition resolve_agent_dir_with_cwd (home cwd : string) (env_val : option string) (default_ : string)
    : string :=
  match set_value env_val with
  | Some s =>
      if String.eqb s "~" then home
      else match or_else (Text.strip_prefix "~/" s) (Text.strip_prefix "~\" s) with
           | Some rest => path_push home rest
           | None => if is_absolute s || Str.is_empty cwd then s else path_push cwd s
           end
  | None => default_
  end.

Section Specs.
Context `{FileSystem}.

Definition resolve_agent_dir (home : string) (env_val : option string) (default_ : string) : string :=
  resolve_agent_dir_with_cwd home (default "" current_dir) env_val default_.

Definition resolve_codex_home (home : string) (env_val : option string) : string :=
  resolve_agent_dir home env_val (path_push home ".codex").

Definition codex_spec (home : string) (codex_home_env : option string) : AgentHookSpec :=
  let codex_home := resolve_codex_home home codex_home_env in
  mkAgentHookSpec "codex" "Codex CLI" codex_home (path_push codex_home "hooks.json") CODEX_EVENTS
    EntryStyle.Nested false.

Definition gemini_spec (home : string) : AgentHookSpec :=
  mkAgentHookSpec "gemini" "Gemini CLI" (path_push home ".gemini")
    (path_push (path_push home ".gemini") "settings.json") GEMINI_EVENTS EntryStyle.Nested false.

Definition cursor_spec (home : string) : AgentHookSpec :=
  mkAgentHookSpec "cursor" "Cursor" (path_push home ".cursor")
    (path_push (path_push home ".cursor") "hooks.json") CURSOR_EVENTS EntryStyle.Flat true.

Definition all_agent_specs (home : string) (codex_home_env : option string) : list AgentHookSpec :=
  [codex_spec home codex_home_env; gemini_spec home; cursor_spec home].
End Specs.

(** ** Entries *)

Definition canonical_entry (style : EntryStyle) (command : string) (ev : EventSpec) : Value :=
  match style with
  | EntryStyle.Nested =>
      JObj [("hooks", JArr [JObj [("type", JStr "command"); ("command", JStr command);
                                  ("timeout", JNum (es_timeout ev))]])]
  | EntryStyle.Flat =>
      JObj [("command", JStr command); ("timeout", JNum (es_timeout ev)); ("failClosed", JBool true)]
  end.

Definition entry_is_managed (style : EntryStyle) (entry : Value) : bool :=
  match style with
  | EntryStyle.Nested => is_vigil_entry entry
  | EntryStyle.Flat =>
      match json_get "command" entry ≫= as_str with
      | Some command => command_is_vigil_managed command
      | None => false
      end
  end.

(** [v.as_u64()] *)
Definition as_u64 (v : Value) : option Z :=
  match v with
  | JNum z => if (0 <=? z)%Z && (z <? 2 ^ 64)%Z then Some z else None
  | _ => None
  end.

Definition ensure_agent_shape (spec : AgentHookSpec) (settings : Value) : result SetupError unit :=
  let bad field := Err (SetupError.UnsupportedConfigShape (hs_config_path spec) field) in
  if negb (is_object settings) then bad "<root>"
  else if hs_versioned_root spec
          && negb (shape_ok (json_get "version" settings)
                     (λ v, bool_decide (as_u64 v = Some 1%Z))) then bad "version"
  else match json_get "hooks" settings with
       | None => Ok tt
       | Some hooks =>
           if negb (is_object hooks) then bad "hooks"
           else match List.find (λ ev, negb (shape_ok (json_get (es_event ev) hooks) is_array))
                        (hs_events spec) with
                | Some ev => bad (es_event ev)
                | None => Ok tt
                end
       end.

(** The [version] of Cursor's file, when there is none. *)
Definition add_version (spec : AgentHookSpec) (settings : Value) : bool * Value :=
  match settings with
  | JObj fields =>
      if hs_versioned_root spec && bool_decide (assoc_get "version" fields = None)
      then (true, JObj (map_insert "version" (JNum 1) fields)) else (false, settings)
  | _ => (false, settings)
  end.

Definition agent_entries (spec : AgentHookSpec) (command : string) : list (string * Value) :=
  map (λ ev, (es_event ev, canonical_entry (hs_style spec) command ev)) (hs_events spec).

Definition merge_install_agent (spec : AgentHookSpec) (settings : Value) (command : string)
    : bool * Value :=
  match foldl (merge_entry (entry_is_managed (hs_style spec))) (inl (add_version spec settings))
          (agent_entries spec command) with
  | inl r | inr r => r
  end.

Definition merge_uninstall_agent (spec : AgentHookSpec) (settings : Value) : bool * Value :=
  remove_entries (entry_is_managed (hs_style spec)) settings.

(** ** The state of an agent *)

(** The command of an entry, and the entry with another. *)
Definition entry_command (style : EntryStyle) (entry : Value) : option string :=
  match style with
  | EntryStyle.Nested =>
      hooks ← json_get "hooks" entry ≫= as_array;
      match hooks with
      | [h] => json_get "command" h ≫= as_str
      | _ => None
      end
  | EntryStyle.Flat => json_get "command" entry ≫= as_str
  end.

Definition set_command (style : EntryStyle) (entry new_cmd : Value) : Value :=
  match style, entry with
  | EntryStyle.Nested, JObj fields =>
      match assoc_get "hooks" fields with
      | Some (JArr (JObj hf :: rest)) =>
          JObj (map_insert "hooks" (JArr (JObj (map_insert "command" new_cmd hf) :: rest)) fields)
      | _ => entry
      end
  | EntryStyle.Flat, JObj fields => JObj (map_insert "command" new_cmd fields)
  | _, _ => entry
  end.

Definition agent_entry_ledger_normalized (style : EntryStyle) (entry : Value) : option Value :=
  cmd ← entry_command style entry;
  p ← split_once_str " --ledger " cmd;
  if Str.is_empty (trim p.2) then None
  else Some (set_command style entry (JStr (p.1 +:+ " --ledger <vigil-ledger>"))).

Definition managed_entries (spec : AgentHookSpec) (event : string) (s : Value) : list Value :=
  List.filter (entry_is_managed (hs_style spec)) (event_entries event s).

(** The entry of an event is the one installing would write, but for the ledger. *)
Definition agent_event_canonical (spec : AgentHookSpec) (command : string) (s : Value) (ev : EventSpec)
    : bool :=
  let norm := agent_entry_ledger_normalized (hs_style spec) in
  let canonical_norm := norm (canonical_entry (hs_style spec) command ev) in
  bool_decide (is_Some canonical_norm)
  && match managed_entries spec (es_event ev) s with
     | [e] => option_json_eqb (norm e) canonical_norm
     | _ => false
     end.

Definition any_managed (spec : AgentHookSpec) (s : Value) : bool :=
  existsb (λ ev, negb (bool_decide (managed_entries spec (es_event ev) s = []))) (hs_events spec).

Section State.
Context `{Host}.

Definition agent_state (spec : AgentHookSpec) (settings : option Value) (command exe : string)
    : SetupM ProtectionState :=
  match settings with
  | None => ret ProtectionState.NotInstalled
  | Some s =>
      if negb (any_managed spec s) then ret ProtectionState.NotInstalled
      else if forallb (agent_event_canonical spec command s) (hs_events spec) then
        let! there := map_io "" exe (exists_ exe) in
        ret (if there then ProtectionState.Active else ProtectionState.Stale)
      else ret ProtectionState.Stale
  end.
End State.

(** ** Codex *)

Definition parsed_bool (v : string) : option bool :=
  if String.eqb v "true" then Some true
  else if String.eqb v "false" then Some false else None.

(** What is known of the section and of both keys. *)
Record FeatureScan := mkFeatureScan {
  fs_in_features : bool;
  fs_hooks_val : option bool;
  fs_alias_val : option bool;
}.

(** One turn of the loop over the lines. *)
Definition scan_feature (st : FeatureScan) (line : string) : FeatureScan :=
  let t := trim line in
  if Str.starts_with "[" t
  then mkFeatureScan (String.eqb t "[features]") (fs_hooks_val st) (fs_alias_val st)
  else if negb (fs_in_features st) then st
  else
    match split_once "="%char t with
    | None => st
    | Some (k, v) =>
        let parsed := parsed_bool (trim (hd "" (split_char "#"%char v))) in
        if String.eqb (trim k) "hooks" then mkFeatureScan true parsed (fs_alias_val st)
        else if String.eqb (trim k) "codex_hooks" then mkFeatureScan true (fs_hooks_val st) parsed
        else st
    end.

Definition codex_hooks_disabled (config_toml_raw : string) : bool :=
  let st := foldl scan_feature (mkFeatureScan false None None) (lines config_toml_raw) in
  bool_decide (or_else (fs_hooks_val st) (fs_alias_val st) = Some false).

(** An underscore goes before a capital letter that is not the first character. *)
Fixpoint snake_from (first : bool) (s : string) : string :=
  match s with
  | EmptyString => EmptyString
  | String a s' =>
      if Str.is_ascii_upper a then
        (if first then "" else "_") +:+ String (Str.to_ascii_lowercase a) (snake_from false s')
      else String a (snake_from false s')
  end.

Definition codex_event_label (event : string) : string := snake_from true event.

Module Trust.
Inductive Trust := Trusted | Untrusted | Modified | Disabled.
End Trust.
Abbreviation Trust := Trust.Trust.

Section Trusting.
Context `{Crates} `{Toml} `{FileSystem}.

(** The handler as Codex writes it before it hashes it. *)
Definition trust_handler (handler : Value) (command : string) : Value :=
  let timeout := Z.max 1 (default 600%Z (json_get "timeout" handler ≫= as_u64)) in
  let is_async := default false (json_get "async" handler ≫= as_bool) in
  let status := match json_get "statusMessage" handler ≫= as_str with
                | Some sm => [("statusMessage", JStr sm)]
                | None => []
                end in
  JObj ([("async", JBool is_async); ("command", JStr command)] ++ status
        ++ [("timeout", JNum timeout); ("type", JStr "command")]).

Definition codex_trust_hash (event : string) (entry : Value) : option string :=
  hooks ← json_get "hooks" entry ≫= as_array;
  handler ← head hooks;
  command ← json_get "command" handler ≫= as_str;
  let matcher := if String.eqb event "UserPromptSubmit" then []
                 else match json_get "matcher" entry ≫= as_str with
                      | Some m => [("matcher", JStr m)]
                      | None => []
                      end in
  let identity := JObj ([("event_name", JStr (codex_event_label event));
                         ("hooks", JArr [trust_handler handler command])] ++ matcher) in
  Some ("sha256:" +:+ hex_encode (sha256 (json_to_string identity))).

(** The names under which Codex may know the file. *)
Definition trust_sources (spec : AgentHookSpec) : list string :=
  let add cand sources := if existsb (String.eqb cand) sources then sources else sources ++ [cand] in
  let sources := [hs_config_path spec] in
  match fs_canonicalize (hs_config_path spec) with
  | Some c =>
      let sources := add c sources in
      match Text.strip_prefix "\\?\" c with
      | Some stripped => add stripped sources
      | None => sources
      end
  | None => sources
  end.

(** The first managed entry, and where it stands. *)
Definition find_managed (spec : AgentHookSpec) (event : string) (settings : Value)
    : option (nat * Value) :=
  list_find (λ e, entry_is_managed (hs_style spec) e = true) (event_entries event settings).

Definition trust_key (source label : string) (gi : nat) : string :=
  source +:+ ":" +:+ label +:+ ":" +:+ pretty gi +:+ ":0".

(** The turn of the loop for one event. *)
Definition event_trust (spec : AgentHookSpec) (settings : Value) (state_table : option Table)
    (ev : EventSpec) : Trust :=
  let event := es_event ev in
  match find_managed spec event settings with
  | None => Trust.Untrusted
  | Some (gi, entry) =>
      match codex_trust_hash event entry with
      | None => Trust.Untrusted
      | Some current =>
          let label := codex_event_label event in
          match (t ← state_table;
                 find_map (λ s, toml_get (trust_key s label gi) t) (trust_sources spec)) with
          | None => Trust.Untrusted
          | Some item =>
              let field k := as_table_like item ≫= toml_get k in
              if bool_decide (field "enabled" ≫= toml_as_bool = Some false) then Trust.Disabled
              else match field "trusted_hash" ≫= toml_as_str with
                   | Some h => if String.eqb h current then Trust.Trusted else Trust.Modified
                   | None => Trust.Untrusted
                   end
          end
      end
  end.

Definition trust_eqb (a b : Trust) : bool :=
  match a, b with
  | Trust.Trusted, Trust.Trusted | Trust.Untrusted, Trust.Untrusted
  | Trust.Modified, Trust.Modified | Trust.Disabled, Trust.Disabled => true
  | _, _ => false
  end.

Definition with_trust (t : Trust) (found : list (string * Trust)) : list string :=
  (List.filter (λ et, trust_eqb et.2 t) found).*1.

Definition problem (events : list string) (before after : string) : list string :=
  match events with
  | [] => []
  | _ => [before +:+ Str.join ", " events +:+ after]
  end.

(** The table Codex keeps its decisions in. *)
Definition trust_table (doc : option Table) : option Table :=
  d ← doc; h ← table_at "hooks" d; table_at "state" h.

(** The events with what Codex makes of them. *)
Definition trust_found (spec : AgentHookSpec) (settings : Value) (doc : option Table)
    : list (string * Trust) :=
  map (λ ev, (es_event ev, event_trust spec settings (trust_table doc) ev)) (hs_events spec).

Definition trust_report (found : list (string * Trust)) : option (list string) :=
  let problems :=
    problem (with_trust Trust.Untrusted found) "codex has not trusted the Vigil hook(s) for "
      " — codex will not run them until you review once: run codex, type /hooks, and trust the Vigil entries"
    ++ problem (with_trust Trust.Modified found) "codex trust for the Vigil hook(s) "
      " is out of date (definition changed since trusted); re-review via /hooks in codex"
    ++ problem (with_trust Trust.Disabled found) "the Vigil hook(s) for "
      " are disabled inside codex; re-enable via /hooks in codex" in
  match problems with
  | [] => None
  | _ => Some problems
  end.

Definition codex_trust_problems (spec : AgentHookSpec) (settings : Value)
    (config_toml_raw : option string) : option (list string) :=
  match config_toml_raw with
  | Some raw =>
      match toml_parse raw with
      | Some d => trust_report (trust_found spec settings (Some d))
      | None =>
          Some ["cannot verify codex hook trust (" +:+ path_push (hs_detect_dir spec) "config.toml"
                +:+ " is not valid TOML); codex only runs hooks it has trusted via /hooks"]
      end
  | None => trust_report (trust_found spec settings None)
  end.
End Trusting.

(** ** Running *)

Module AgentHookOp.
Inductive AgentHookOp :=
| Status
| Install (dry_run : bool)
| Uninstall (dry_run : bool).
End AgentHookOp.
Abbreviation AgentHookOp := AgentHookOp.AgentHookOp.

Record AgentHookReport := mkAgentHookReport {
  ar_agent : string;
  ar_display_name : string;
  ar_detected : bool;
  ar_config_path : string;
  ar_changed : bool;
  ar_state : ProtectionState;
  ar_backup_path : option string;
  ar_dry_run : bool;
  ar_warnings : list string;
}.

Definition is_active (st : ProtectionState) : bool :=
  match st with
  | ProtectionState.Active => true
  | _ => false
  end.

Section Running.
Context `{Crates} `{Toml} `{FileSystem} `{Host} `{Document Value}.

Definition agent_state_honest (spec : AgentHookSpec) (settings : option Value) (command exe : string)
    (config_toml_raw : option string) : SetupM (ProtectionState * list string) :=
  let! state := agent_state spec settings command exe in
  match settings with
  | Some s =>
      if String.eqb (hs_agent spec) "codex" && is_active state then
        match codex_trust_problems spec s config_toml_raw with
        | Some problems => ret (ProtectionState.PendingTrust, problems)
        | None => ret (state, [])
        end
      else ret (state, [])
  | None => ret (state, [])
  end.

Definition codex_config (spec : AgentHookSpec) : string := path_push (hs_detect_dir spec) "config.toml".

(** [std::fs::read_to_string(..).ok()], for Codex where it was found. *)
Definition read_config_toml (spec : AgentHookSpec) (detected : bool) : SetupM (option string) :=
  if String.eqb (hs_agent spec) "codex" && detected then
    let! raw := map_io "" (codex_config spec) (attempt (read_to_string (codex_config spec))) in
    ret (match raw with Ok s => Some s | Err _ => None end)
  else ret None.

Definition disabled_warning (spec : AgentHookSpec) (config_toml_raw : option string) : list string :=
  match config_toml_raw with
  | Some raw =>
      if codex_hooks_disabled raw then
        ["Codex hooks are disabled ([features] hooks = false in " +:+ codex_config spec
         +:+ "); the Vigil hook is registered but will not run until you re-enable hooks"]
      else []
  | None => []
  end.

Definition stamp_if_there (path : string) (existing : option Value) : SetupM (option (Z * Z)) :=
  match existing with
  | Some _ => let! st := stamp_for_existing path in ret (Some st)
  | None => ret None
  end.

(** What is to be written. *)
Definition merged_settings (spec : AgentHookSpec) (exe ledger command : string) (uninstall : bool)
    (base : Value) : result SetupError (bool * Value) :=
  if uninstall then Ok (merge_uninstall_agent spec base)
  else
    let? _ := validate_path_for_command exe "executable" in
    let? _ := validate_path_for_command ledger "ledger" in
    let? _ := ensure_agent_shape spec base in
    Ok (merge_install_agent spec base command).

(** [detected] is [agent_installed(..)]: directories and the search path. *)
Definition run_agent_hook (spec : AgentHookSpec) (detected : bool) (exe ledger : string)
    (op : AgentHookOp) : SetupM AgentHookReport :=
  let path := hs_config_path spec in
  let report changed state backup_path dry_run warnings :=
    mkAgentHookReport (hs_agent spec) (hs_display_name spec) detected path changed state backup_path
      dry_run warnings in
  let command := hook_command_with_cli exe ledger (Some (hs_agent spec)) in
  let! existing := read_settings path in
  let! stamp := stamp_if_there path existing in
  let! config_toml_raw := read_config_toml spec detected in
  let warnings := disabled_warning spec config_toml_raw in
  let! honest := agent_state_honest spec existing command exe config_toml_raw in
  let '(state, trust_warnings) := honest in
  let no_op := report false state None true (warnings ++ trust_warnings) in
  let act uninstall dry_run :=
    if negb detected && negb uninstall then ret no_op
    else
      let base := default (JObj []) existing in
      let! merged := lift (merged_settings spec exe ledger command uninstall base) in
      let '(changed, new_settings) := merged in
      let! backup_path :=
        if changed && negb dry_run then atomic_write_with_backup path new_settings stamp
        else ret None in
      if dry_run then ret (report changed state backup_path dry_run (warnings ++ trust_warnings))
      else
        let! honest := agent_state_honest spec (Some new_settings) command exe config_toml_raw in
        let '(st, trust) := honest in
        ret (report changed st backup_path dry_run (warnings ++ trust)) in
  match op with
  | AgentHookOp.Status => ret no_op
  | AgentHookOp.Install dry_run => act false dry_run
  | AgentHookOp.Uninstall dry_run => act true dry_run
  end.
End Running.
