(* ===== verification/SetupHooksProps.v ===== *)
(** * What setting up the hooks of the other agents guarantees

    The entries of others stay; what is installed is what is looked for afterwards;
    and a hook of Codex is called active only if Codex has been told to trust that
    very entry, at the place where it stands. *)

From stdpp Require Import pretty.
From S2P Require Import Prelude Text Types Json Holes Deps Concrete Extract Files HookEntries Setup SetupProps Documents.
From S2P Require Import SetupHooks.

(** ** Commands *)

Lemma find_first p u w : ∃ n, Str.find p (u +:+ p +:+ w) = Some n ∧ (n ≤ String.length u)%nat.
Proof.
  induction u as [|a u (n & IH & Hn)].
  - exists 0%nat. change ("" +:+ ?s) with s. split; [|done].
    assert (Str.starts_with p (p +:+ w) = true) as E by (apply Str.starts_with_spec; eauto).
    destruct (p +:+ w); cbn [Str.find]; by rewrite E.
  - rewrite Str.append_cons. cbn [Str.find]. destruct (Str.starts_with p _).
    + exists 0%nat. split; [done|lia].
    + rewrite IH. exists (S n). split; [done|simpl; lia].
Qed.

(** A command of Vigil names a ledger, and not a blank one. *)
Lemma hook_command_ledger exe ledger cli :
  ∃ p, split_once_str " --ledger " (hook_command_with_cli exe ledger cli) = Some p ∧
    Str.is_empty (trim p.2) = false.
Proof.
  unfold hook_command_with_cli.
  set (u := shell_quote exe +:+ " hook " +:+ VIGIL_HOOK_MARKER +:+
    match cli with Some kind => " --cli " +:+ kind | None => "" end +:+
    match cli with Some _ => "" | None => " --redact-results" end).
  assert (∀ w, shell_quote exe +:+ " hook " +:+ VIGIL_HOOK_MARKER +:+
    match cli with Some kind => " --cli " +:+ kind | None => "" end +:+
    match cli with Some _ => "" | None => " --redact-results" end +:+ w = u +:+ w) as E.
  { intros w. unfold u. by rewrite !Str.append_assoc. }
  rewrite E. clear E. destruct (find_first " --ledger " u (shell_quote ledger)) as (n & Hf & Hn).
  unfold split_once_str. rewrite Hf. cbn [mbind option_bind]. eexists. split; [reflexivity|].
  cbn [snd]. rewrite trim_empty, Str.append_assoc, drop_append
    by (rewrite Str.length_append; lia).
  apply not_true_iff_false. intros Hb%Str.is_empty_spec. revert Hb. unfold trim_start, shell_quote.
  rewrite Str.append_cons. apply blank_ascii; [by apply Nat.ltb_lt| |lia].
  change ("" +:+ ?s) with s. generalize (str_replace "'" "'\''" ledger +:+ "'"). by intros [|? [|? ?]].
Qed.

(** ** Entries *)

Section Entries.
Context (exe ledger : string) (spec : AgentHookSpec).

Abbreviation command := (hook_command_with_cli exe ledger (Some (hs_agent spec))).
Abbreviation managed := (entry_is_managed (hs_style spec)).

Lemma canonical_managed ev : managed (canonical_entry (hs_style spec) command ev) = true.
Proof.
  pose proof (hook_command_managed exe ledger (Some (hs_agent spec))) as Hc.
  destruct (hs_style spec); unfold entry_is_managed, is_vigil_entry; simpl; by rewrite Hc.
Qed.

Lemma canonical_eqb style cmd ev :
  json_eqb (canonical_entry style cmd ev) (canonical_entry style cmd ev) = true.
Proof. destruct style; simpl; by rewrite String.eqb_refl, Z.eqb_refl. Qed.

Lemma wf_canonical style cmd ev : wf_json (canonical_entry style cmd ev).
Proof.
  destruct style; apply wf_obj; (split; [by nodup_keys|]); rewrite !Forall_cons, Forall_nil; [|done].
  split; [|done]. apply wf_arr, Forall_singleton, wf_obj. split; [by nodup_keys|].
  by rewrite !Forall_cons, Forall_nil.
Qed.

(** The entry Vigil writes is the one it looks for, whatever its ledger. *)
Lemma canonical_normalized ev :
  ∃ v, agent_entry_ledger_normalized (hs_style spec) (canonical_entry (hs_style spec) command ev)
       = Some v ∧ json_eqb v v = true.
Proof.
  destruct (hook_command_ledger exe ledger (Some (hs_agent spec))) as ([x y] & Hp & Hy). simpl in Hy.
  unfold agent_entry_ledger_normalized, canonical_entry.
  destruct (hs_style spec); cbn [entry_command json_get assoc_get String.eqb Ascii.eqb Bool.eqb mbind
    option_bind as_array as_str]; rewrite Hp; cbn [mbind option_bind fst snd]; rewrite Hy;
    eexists; (split; [reflexivity|]); simpl; by rewrite String.eqb_refl, Z.eqb_refl.
Qed.

Lemma agent_entries_lookup cmd event :
  NoDup (map es_event (hs_events spec)) →
  (∀ ev, ev ∈ hs_events spec → es_event ev = event →
     wanted_entry event (agent_entries spec cmd) = Some (canonical_entry (hs_style spec) cmd ev)) ∧
  (event ∉ map es_event (hs_events spec) → wanted_entry event (agent_entries spec cmd) = None).
Proof.
  unfold wanted_entry, agent_entries. generalize (hs_events spec) as evs.
  induction evs as [|e evs IH]; intros Hd; [split; [by intros ? ?%elem_of_nil|done]|].
  cbn [map] in *. apply NoDup_cons in Hd as [Hn Hd]. destruct (IH Hd) as [IH1 IH2].
  cbn [assoc_get]. split.
  - intros ev [->|Hin]%elem_of_cons <-; [by rewrite String.eqb_refl|].
    destruct (String.eqb_spec (es_event e) (es_event ev)) as [E|]; [|by apply IH1].
    destruct Hn. rewrite E. apply list_elem_of_fmap. by exists ev.
  - intros [Hne Hni]%not_elem_of_cons. destruct (String.eqb_spec (es_event e) event); [congruence|auto].
Qed.
End Entries.

(** The agents whose hooks are set up. *)
Definition known_agent `{FileSystem} (spec : AgentHookSpec) : Prop :=
  ∃ home env, spec ∈ all_agent_specs home env.

Lemma known_events `{FileSystem} spec : known_agent spec → NoDup (map es_event (hs_events spec)).
Proof.
  intros (home & env & Hin). unfold all_agent_specs in Hin. rewrite !elem_of_cons in Hin.
  destruct Hin as [->|[->|[->|Hin]]]; [by nodup_keys..|]. by apply elem_of_nil in Hin.
Qed.

Section Merging.
Context `{FileSystem}.

(** What the settings are, and whether anything changed, before the events are gone
    through. *)
Lemma add_version_spec spec settings path :
  hs_config_path spec = path → ensure_agent_shape spec settings = Ok tt → wf_json settings →
  ∃ changed fields, add_version spec settings = (changed, JObj fields) ∧ hooks_ok fields ∧
    wf_json (JObj fields) ∧ (∀ k, k ≠ "version" → assoc_get k fields = json_get k settings) ∧
    assoc_get "version" fields
      = (if hs_versioned_root spec then Some (default (JNum 1) (json_get "version" settings))
         else json_get "version" settings) ∧
    (∀ event, event_entries event (JObj fields) = event_entries event settings) ∧
    (changed = true → hs_versioned_root spec = true).
Proof.
  intros <- Hshape Hw. unfold ensure_agent_shape in Hshape.
  destruct settings as [| | | | | |fields]; try done. simpl in Hshape.
  destruct (hs_versioned_root spec && _) eqn:Ev; [done|].
  assert (hooks_ok fields) as Hok.
  { unfold hooks_ok. revert Hshape. simpl. by destruct (assoc_get "hooks" fields) as [[]|]. }
  unfold add_version. destruct (hs_versioned_root spec) eqn:Hv; cbn [andb json_get].
  2:{ exists false, fields. by split_and!. }
  case_bool_decide as Hn.
  - exists true, (map_insert "version" (JNum 1) fields).
    assert (∀ k, k ≠ "version" → assoc_get k (map_insert "version" (JNum 1) fields) = assoc_get k fields)
      as Hk by (intros k Hne; by apply assoc_get_insert_ne).
    split_and!; try done.
    + unfold hooks_ok in *. by rewrite Hk.
    + by apply wf_insert.
    + by rewrite assoc_get_insert, Hn.
    + intros event. rewrite !event_entries_obj, Hk by done. done.
  - exists false, fields. split_and!; try done. by destruct (assoc_get "version" fields).
Qed.

Lemma strip_canonical spec exe ledger event settings ev :
  List.filter (entry_is_managed (hs_style spec))
    (others (entry_is_managed (hs_style spec)) event settings
     ++ [canonical_entry (hs_style spec) (hook_command_with_cli exe ledger (Some (hs_agent spec))) ev])
  = [canonical_entry (hs_style spec) (hook_command_with_cli exe ledger (Some (hs_agent spec))) ev].
Proof.
  rewrite List.filter_app. unfold others. rewrite filter_managed_others. simpl.
  by rewrite canonical_managed.
Qed.

(** C28. The hooks of every agent come and go. Whatever settings of Codex, Gemini or
    Cursor have a shape Vigil accepts: after installing, each event Vigil listens to
    has the entries of others in their order and one entry of Vigil after them, and
    nothing else has changed but the [version] Cursor's file must have; installing
    again changes nothing; what is installed is recognised as up to date; after
    uninstalling, every event has exactly the entries of others, and nothing of
    Vigil is found. *)
Theorem agent_hooks_come_and_go spec exe ledger settings :
  known_agent spec → wf_json settings → ensure_agent_shape spec settings = Ok tt →
  let command := hook_command_with_cli exe ledger (Some (hs_agent spec)) in
  let managed := entry_is_managed (hs_style spec) in
  let s := (merge_install_agent spec settings command).2 in
  let u := (merge_uninstall_agent spec s).2 in
  (∀ ev, ev ∈ hs_events spec →
     event_entries (es_event ev) s
     = others managed (es_event ev) settings ++ [canonical_entry (hs_style spec) command ev]) ∧
  (∀ event, event ∉ map es_event (hs_events spec) → event_entries event s = event_entries event settings) ∧
  (∀ k, k ≠ "hooks" → k ≠ "version" ∨ hs_versioned_root spec = false →
     json_get k s = json_get k settings ∧ json_get k u = json_get k settings) ∧
  merge_install_agent spec s command = (false, s) ∧
  (∀ event, event_entries event u = others managed event settings) ∧
  forallb (agent_event_canonical spec command s) (hs_events spec) = true ∧
  any_managed spec s = true ∧ any_managed spec u = false ∧
  wf_json s ∧ wf_json u.
Proof.
  intros Hk Hw Hshape command managed s u.
  destruct (add_version_spec spec settings _ eq_refl Hshape Hw)
    as (ch0 & fields & Hav & Hok & Hwf & Hkeys & Hver & Hev & _).
  pose proof (known_events spec Hk) as Hnd.
  destruct (entries_come_and_go managed (agent_entries spec command) ch0 fields)
    as (ch & fs & Hfold & He & Hkk & Hagain & Hu & Hws & Hwu); [| |done|done|].
  { unfold agent_entries. by rewrite <- list_fmap_compose. }
  { apply Forall_map, Forall_forall. intros ev _. simpl.
    split_and!; [apply canonical_managed|apply canonical_eqb|apply wf_canonical]. }
  assert (s = JObj fs) as Hs by (unfold s, merge_install_agent; fold managed; by rewrite Hav, Hfold).
  assert (∀ event, others managed event (JObj fields) = others managed event settings) as Ho
    by (intros event; unfold others; by rewrite Hev).
  assert (∀ ev, ev ∈ hs_events spec → event_entries (es_event ev) s
    = others managed (es_event ev) settings ++ [canonical_entry (hs_style spec) command ev]) as H1.
  { intros ev Hin. rewrite Hs, He, (proj1 (agent_entries_lookup spec command _ Hnd) ev Hin eq_refl).
    by rewrite Ho. }
  assert (∀ event, event_entries event u = others managed event settings) as H2
    by (intros event; unfold u; rewrite Hs; etrans; [apply Hu|apply Ho]).
  split_and!; try done; [..|by rewrite Hs|unfold u; by rewrite Hs].
  - intros event Hn. rewrite Hs, He, (proj2 (agent_entries_lookup spec command _ Hnd) Hn). apply Hev.
  - intros k Hne Hv. unfold u. rewrite Hs. destruct (Hkk k Hne) as [E1 E2]. cbn [json_get] in *.
    rewrite E1. unfold merge_uninstall_agent. fold managed. rewrite E2.
    assert (assoc_get k fields = json_get k settings) as E; [|by rewrite E].
    destruct (decide (k = "version")) as [->|Hnv]; [|by apply Hkeys].
    destruct Hv as [|Hv]; [done|]. by rewrite Hver, Hv.
  - unfold merge_install_agent. assert (add_version spec s = (false, s)) as ->.
    { rewrite Hs. unfold add_version. destruct (hs_versioned_root spec) eqn:Ev; [|done].
      destruct (Hkk "version") as [E _]; [done|]. cbn [json_get] in E. by rewrite E, Hver. }
    fold managed. by rewrite Hs, Hagain.
  - apply forallb_forall. intros ev Hin%list_elem_of_In. unfold agent_event_canonical, managed_entries.
    rewrite (H1 ev Hin). unfold managed, command. rewrite strip_canonical.
    destruct (canonical_normalized exe ledger spec ev) as (v & -> & Hv). simpl. by rewrite Hv.
  - unfold any_managed. apply existsb_exists. pose proof Hk as (home & env & Hin).
    assert (∃ ev, ev ∈ hs_events spec) as [ev Hev'].
    { unfold all_agent_specs in Hin. rewrite !elem_of_cons in Hin.
      destruct Hin as [->|[->|[->|Hin]]]; [eexists; by left..|]. by apply elem_of_nil in Hin. }
    exists ev. split; [by apply list_elem_of_In|]. unfold managed_entries.
    rewrite (H1 ev Hev'). unfold managed, command. by rewrite strip_canonical.
  - unfold any_managed. apply not_true_iff_false. intros (ev & _ & Hx)%existsb_exists.
    unfold managed_entries in Hx. rewrite H2 in Hx. unfold managed, others in Hx.
    by rewrite filter_managed_others in Hx.
Qed.
End Merging.

(** ** What Active means *)

Section Honest.
Context `{Crates} `{Toml} `{FileSystem}.

(** Codex has the hash of this very entry, at its place, and the hook is not
    disabled. *)
Definition codex_trusts (spec : AgentHookSpec) (doc : Table) (event : string) (gi : nat) (entry : Value)
    : Prop :=
  ∃ t source item,
    trust_table (Some doc) = Some t ∧ source ∈ trust_sources spec ∧
    toml_get (trust_key source (codex_event_label event) gi) t = Some item ∧
    (as_table_like item ≫= str_of "trusted_hash") = codex_trust_hash event entry ∧
    (as_table_like item ≫= toml_get "enabled") ≫= toml_as_bool ≠ Some false.

Lemma event_trusted spec settings doc ev :
  event_trust spec settings (trust_table doc) ev = Trust.Trusted →
  ∃ gi e d, find_managed spec (es_event ev) settings = Some (gi, e) ∧ doc = Some d ∧
    codex_trusts spec d (es_event ev) gi e.
Proof.
  unfold event_trust. destruct (find_managed spec _ settings) as [[gi e]|]; [|done].
  destruct (codex_trust_hash (es_event ev) e) as [current|] eqn:Eh; [|done].
  destruct doc as [d|]; [|done]. destruct (trust_table (Some d)) as [t|] eqn:Et; [|done]. simpl.
  destruct (find_map _ _) as [item|] eqn:Ef; [|done].
  apply find_map_some in Ef as (source & Hs & Hi). case_bool_decide as He; [done|].
  destruct ((as_table_like item ≫= toml_get "trusted_hash") ≫= toml_as_str) as [h|] eqn:Eth; [|done].
  destruct (String.eqb_spec h current) as [->|]; [|done]. intros _.
  exists gi, e, d. split_and!; [done|done|]. exists t, source, item. split_and!; [done|done|done| |done].
  rewrite Eh, <- Eth. unfold str_of. by destruct (as_table_like item).
Qed.

Lemma with_trust_nil t found event : with_trust t found = [] → (event, t) ∉ found.
Proof.
  unfold with_trust. intros Hf Hin.
  assert (event ∈ (List.filter (λ et, trust_eqb et.2 t) found).*1) as Hin'.
  { apply list_elem_of_fmap. exists (event, t). split; [done|]. apply list_elem_of_In, filter_In.
    split; [by apply list_elem_of_In|by destruct t]. }
  rewrite Hf in Hin'. by apply elem_of_nil in Hin'.
Qed.

Lemma problem_nil events before after : problem events before after = [] → events = [].
Proof. by destruct events. Qed.

Lemma no_problems spec settings doc ev :
  trust_report (trust_found spec settings doc) = None → ev ∈ hs_events spec →
  event_trust spec settings (trust_table doc) ev = Trust.Trusted.
Proof.
  unfold trust_report. intros Hp Hin.
  match type of Hp with match ?l with _ => _ end = _ => destruct l eqn:E; [|done] end.
  apply app_eq_nil in E as [E1%problem_nil E]. apply app_eq_nil in E as [E2%problem_nil E3%problem_nil].
  assert ((es_event ev, event_trust spec settings (trust_table doc) ev)
    ∈ trust_found spec settings doc) as Hf by (apply list_elem_of_fmap; by exists ev).
  destruct (event_trust spec settings (trust_table doc) ev); [done| | |];
    exfalso; eapply with_trust_nil; [exact E1| |exact E2| |exact E3|]; exact Hf.
Qed.

Lemma find_managed_single spec event settings gi e e' :
  find_managed spec event settings = Some (gi, e) → managed_entries spec event settings = [e'] →
  e = e' ∧ event_entries event settings !! gi = Some e.
Proof.
  unfold find_managed, managed_entries. intros (Hl & Hm & _)%list_find_Some Hf. split; [|done].
  assert (e ∈ [e']) as Hin; [|by apply list_elem_of_singleton in Hin].
  rewrite <- Hf. apply list_elem_of_In, filter_In. split; [|done].
  apply list_elem_of_In. by eapply list_elem_of_lookup_2.
Qed.

Context `{Host} `{Document Value} (Hu : undisturbed).

Lemma honest_cases spec settings command exe raw d r d' :
  agent_state_honest spec settings command exe raw d = (r, d') →
  dk_files d' = dk_files d ∧
  match r with
  | Ok (ProtectionState.Active, _) =>
      is_Some (dk_files d !! exe) ∧ ∃ s, settings = Some s ∧
        forallb (agent_event_canonical spec command s) (hs_events spec) = true ∧
        (hs_agent spec = "codex" → codex_trust_problems spec s raw = None)
  | _ => True
  end.
Proof using Hu.
  unfold agent_state_honest, agent_state, bind, ret. destruct settings as [s|]; [|by intros [= <- <-]].
  destruct (negb (any_managed spec s)).
  { simpl. rewrite andb_false_r. by intros [= <- <-]. }
  destruct (forallb _ _) eqn:Hall; [|simpl; rewrite andb_false_r; by intros [= <- <-]].
  unfold map_io. destruct (exists_ exe d) as [r1 d1] eqn:Ee.
  apply (exists_cases Hu) in Ee as (Hf & b & -> & Hb). simpl. destruct b; simpl.
  2:{ rewrite andb_false_r. by intros [= <- <-]. }
  rewrite andb_true_r. destruct (String.eqb_spec (hs_agent spec) "codex") as [Hc|Hc].
  - destruct (codex_trust_problems spec s raw) eqn:Et; intros [= <- <-]; [done|].
    split; [done|]. split; [by apply Hb|]. by exists s.
  - intros [= <- <-]. split; [done|]. split; [by apply Hb|]. by exists s.
Qed.

Lemma config_toml_cases spec detected d r d' :
  read_config_toml spec detected d = (r, d') →
  dk_files d' = dk_files d ∧ ∃ raw, r = Ok raw ∧
    ∀ text, raw = Some text → ∃ f, dk_files d !! codex_config spec = Some f ∧ fl_text f = text.
Proof using Hu.
  unfold read_config_toml. destruct (_ && _); [|intros [= <- <-]; split; [done|by exists None]].
  unfold bind. rewrite io_attempt. destruct (read_to_string _ d) as [r1 d1] eqn:E.
  apply (reads_cases Hu) in E as [Hf Hr]. intros [= <- <-]. split; [done|].
  destruct r1 as [text|]; [|by exists None]. destruct Hr as (f & Hl & ->).
  exists (Some (fl_text f)). split; [done|]. intros ? [= <-]. by exists f.
Qed.

Lemma stamp_if_cases path existing d r d' :
  stamp_if_there path existing d = (r, d') → dk_files d' = dk_files d.
Proof using Hu.
  unfold stamp_if_there. destruct existing; [|by intros [= <- <-]].
  unfold bind. destruct (stamp_for_existing path d) as [r1 d1] eqn:E.
  apply (stamp_cases Hu) in E. by destruct r1; intros [= <- <-].
Qed.

(** Nothing is to be written. *)
Definition only_looks (op : AgentHookOp) : Prop :=
  match op with
  | AgentHookOp.Status => True
  | AgentHookOp.Install dry_run | AgentHookOp.Uninstall dry_run => dry_run = true
  end.

(** What it takes for an agent to run the hooks that are in its file. *)
Definition in_force (spec : AgentHookSpec) (command exe : string) (d : Disk) : Prop :=
  is_Some (dk_files d !! exe) ∧
  ∃ s, holds (hs_config_path spec) s d ∧
    ∀ ev, ev ∈ hs_events spec →
      agent_event_canonical spec command s ev = true ∧
      ∃ gi e, managed_entries spec (es_event ev) s = [e] ∧
        event_entries (es_event ev) s !! gi = Some e ∧
        (hs_agent spec = "codex" → ∃ f doc, dk_files d !! codex_config spec = Some f ∧
           toml_parse (fl_text f) = Some doc ∧ codex_trusts spec doc (es_event ev) gi e).

End Honest.

(** ** Witnesses *)

Import Toy.

#[local] Instance steady_host : Host := {|
  fault _ := None;
  meddle _ files := files;
  modified_now n := Z.of_nat n;
|}.

Definition sample_cursor : Value :=
  JObj [("theme", JStr "dark");
        ("hooks", JObj [("afterMCPExecution", JArr [JObj [("command", JStr "mine")]])])].

Lemma agent_hooks_come_and_go_witness :
  event_entries "afterMCPExecution"
    (merge_uninstall_agent (cursor_spec "/h")
       (merge_install_agent (cursor_spec "/h") sample_cursor
          (hook_command_with_cli "/v" "/l" (Some "cursor"))).2).2
  = [JObj [("command", JStr "mine")]].
Proof.
  assert (wf_json sample_cursor) as Hw.
  { apply wf_obj. split; [by nodup_keys|]. rewrite !Forall_cons, Forall_nil. split; [done|].
    split; [|done]. apply wf_obj. split; [by nodup_keys|]. rewrite Forall_singleton. apply wf_arr.
    rewrite Forall_singleton. apply wf_obj. split; [by nodup_keys|]. by rewrite Forall_singleton. }
  assert (known_agent (cursor_spec "/h")) as Hk by (exists "/h", None; do 2 right; by left).
  pose proof (agent_hooks_come_and_go (cursor_spec "/h") "/v" "/l" sample_cursor Hk Hw eq_refl)
    as (_ & _ & _ & _ & Hu & _).
  exact (Hu "afterMCPExecution").
Defined.

(** A user's Codex with the hooks of Vigil in place. *)
Definition codex : AgentHookSpec := codex_spec "/h" None.
Definition codex_command : string := hook_command_with_cli "/v" "/l" (Some "codex").
Definition codex_hooks : Value := (merge_install_agent codex (JObj []) codex_command).2.

(** What Codex keeps once its user has trusted the entry at the place [gi]. *)
Definition trust_entry (gi : nat) (ev : EventSpec) : string * Value :=
  (trust_key "/h/.codex/hooks.json" (codex_event_label (es_event ev)) gi,
   JObj [("trusted_hash", JStr (default "" (codex_trust_hash (es_event ev)
                                  (canonical_entry EntryStyle.Nested codex_command ev))))]).

Definition trust_config (gi : nat) : string :=
  toml_print [("hooks", JObj [("state", JObj (map (trust_entry gi) CODEX_EVENTS))])].

Definition codex_disk (hooks : Value) (config : string) : Disk :=
  mkDisk {["/v" := mkFile "" 1; "/h/.codex/hooks.json" := mkFile (digits (encode hooks)) 2;
           "/h/.codex/config.toml" := mkFile config 3]} 0.

Definition state_of (r : result SetupError AgentHookReport * Disk) : option (ProtectionState * bool) :=
  match r.1 with
  | Ok rep => Some (ar_state rep, ar_changed rep)
  | Err _ => None
  end.


(** Another entry after Vigil's: the state that is asked for is that of the file, the
    one an installation that changes nothing reports is that of settings it does not
    write, in which the entry stands elsewhere. *)
Definition with_mine : Value :=
  JObj [("hooks", JObj (map (λ ev, (es_event ev,
          JArr [canonical_entry EntryStyle.Nested codex_command ev; JStr "mine"])) CODEX_EVENTS))].

Example install_judges_what_it_does_not_write :
  let disk := codex_disk with_mine (trust_config 0) in
  state_of (run_agent_hook codex true "/v" "/l" AgentHookOp.Status disk)
    = Some (ProtectionState.Active, false) ∧
  state_of (run_agent_hook codex true "/v" "/l" (AgentHookOp.Install false) disk)
    = Some (ProtectionState.PendingTrust, false).
Proof. split; vm_compute; reflexivity. Qed.

(** With the hooks turned off the state is Active all the same, beside a warning. *)
Example disabled_hooks_are_called_active :
  let config := trust_config 0 +:+ newline_str +:+ "[features]" +:+ newline_str +:+ "hooks = false" in
  codex_hooks_disabled config = true ∧
  state_of (run_agent_hook codex true "/v" "/l" AgentHookOp.Status (codex_disk codex_hooks config))
    = Some (ProtectionState.Active, false).
Proof. split; vm_compute; reflexivity. Qed.
