(* ===== verification/SetupMcp.v ===== *)
(** * Putting the gateway in front of tool servers

    [src/apps/vigil-hub-cli/src/setup_mcp.rs]: the entries of the tool servers in
    an agent's JSON configuration are rewritten to run behind [vigil-hub wrap],
    and back. An entry carries its original command line after a marker, so that
    it can be restored from itself. Covered are the configurations of Claude
    (user and project scope), of the agents with the same shape, of ZCode and of
    OpenCode; the TOML ones go through a third-party document type. Paths are
    those of a POSIX host. *)

From S2P Require Import Prelude Text Types Json Deps Extract Files Setup.

Definition MAX_CLAUDE_JSON_BYTES : Z := 256 * 1024 * 1024.
Definition VIGIL_MANAGED_MCP_MARKER : string := "--vigil-managed-mcp".

Definition is_sentinel_token (a : string) : bool :=
  String.eqb a VIGIL_MANAGED_MCP_MARKER || Str.starts_with (VIGIL_MANAGED_MCP_MARKER +:+ "=") a.

Definition is_sentinel (v : Value) : bool :=
  match as_str v with
  | Some a => is_sentinel_token a
  | None => false
  end.

(** [iter().position(..)] *)
Fixpoint position {A} (f : A → bool) (l : list A) : option nat :=
  match l with
  | [] => None
  | x :: l' => if f x then Some 0%nat else S <$> position f l'
  end.

Definition sentinel_pos (args : list Value) : option nat := position is_sentinel args.

Definition str_is (s : string) (v : option Value) : bool :=
  match v ≫= as_str with
  | Some t => String.eqb t s
  | None => false
  end.

Definition is_managed_wrap_args (args : list Value) : bool :=
  str_is "wrap" (head args)
  && match sentinel_pos args with
     | Some i => str_is "--" (args !! S i)
     | None => false
     end.

Module McpServerClass.
Inductive McpServerClass :=
| Wrappable (name command : string) (args env_keys : list string)
| AlreadyWrapped (name : string)
| Skipped (name reason : string).
End McpServerClass.
Abbreviation McpServerClass := McpServerClass.McpServerClass.

(** [Path::file_name]: the last component, if it is a name. *)
Definition file_name (p : string) : option string :=
  match last (components p) with
  | Some (Component.Normal name) => Some name
  | _ => None
  end.

Definition is_vigil_hub (program : string) : bool :=
  match file_name program with
  | Some s => Str.eq_ignore_ascii_case s "vigil-hub" || Str.eq_ignore_ascii_case s "vigil-hub.exe"
  | None => false
  end.

(** [windows(2).any(..)]: the program followed by [wrap]. *)
Fixpoint hub_then_wrap (tokens : list string) : bool :=
  match tokens with
  | t :: ((u :: _) as rest) => (is_vigil_hub t && String.eqb u "wrap") || hub_then_wrap rest
  | _ => false
  end.

(** What is said of an entry that has a command and an array of arguments. *)
Definition classify_managed (name cmd : string) (args : list Value) : option McpServerClass :=
  let args0 := head args ≫= as_str in
  if is_managed_wrap_args args then Some (McpServerClass.AlreadyWrapped name)
  else if existsb is_sentinel_token (omap as_str args) && hub_then_wrap (cmd :: omap as_str args) then
    Some (McpServerClass.Skipped name
      "appears already wrapped under a wrapper prefix (stdbuf/sh/env...); left untouched to avoid double-wrap — unwrap it by hand if needed")
  else if is_vigil_hub cmd && (bool_decide (args0 = Some "serve") || bool_decide (args0 = Some "wrap")) then
    Some (McpServerClass.Skipped name
      "Vigil's own server/gateway entry — never wrapped (would nest)")
  else None.

(** A command in one string, or in its parts. *)
Definition classify_command (name command : string) (args env_keys : list string) : McpServerClass :=
  match args, split_whitespace command with
  | [], prog :: ((_ :: _) as parts) =>
      if any is_quote command then
        McpServerClass.Skipped name
          "`command` is a single shell string with quotes; split it into a `command` + `args` array in your MCP config so Vigil can wrap it"
      else if is_vigil_hub prog then
        McpServerClass.Skipped name
          "single-string `command` is itself a vigil-hub invocation; not wrapping (would double-wrap) — split into command+args explicitly if intended"
      else McpServerClass.Wrappable name prog parts env_keys
  | _, _ => McpServerClass.Wrappable name (trim command) args env_keys
  end.

Definition object_keys (v : Value) : list string :=
  match v with
  | JObj fields => fields.*1
  | _ => []
  end.

Definition classify_one (name : string) (entry : Value) : McpServerClass :=
  let command := json_get "command" entry ≫= as_str in
  let raw_args := json_get "args" entry ≫= as_array in
  let skipped reason := McpServerClass.Skipped name reason in
  match (cmd ← command; args ← raw_args; classify_managed name cmd args) with
  | Some c => c
  | None =>
      if bool_decide (is_Some (json_get "url" entry)) || bool_decide (is_Some (json_get "serverUrl" entry))
      then skipped "remote (http/sse) server — wrapping HTTP MCP is a later increment"
      else if negb (shape_ok (json_get "type" entry) (λ t, str_is "stdio" (Some t)))
      then skipped "non-stdio or malformed `type` — not wrapped in v1"
      else if negb (shape_ok (json_get "args" entry) is_array)
      then skipped "`args` is present but not an array (unexpected shape) — left untouched"
      else match command with
      | None => skipped "entry has no `command` (unexpected shape) — left untouched"
      | Some command =>
          if negb (forallb is_string (default [] raw_args))
          then skipped "`args` has a non-string element (unexpected shape) — left untouched"
          else classify_command name command (omap as_str (default [] raw_args))
                 (object_keys (default JNull (json_get "env" entry)))
      end
  end.

Definition wrapped_argv (exe name command : string) (args env_keys : list string) (monitor : bool)
    : list string :=
  [exe; "wrap"; "--server-id"; name]
  ++ flat_map (λ k, ["--env-key"; k]) env_keys
  ++ (if monitor then ["--monitor"] else [])
  ++ [VIGIL_MANAGED_MCP_MARKER; "--"; command] ++ args.

(** ** Identities *)

Definition LOCAL_ID_HASH_HEX : nat := 32.

Definition is_id_char (c : ascii) : bool :=
  Str.is_ascii_lower c || Str.is_ascii_digit c || Ascii.eqb c "_" || Ascii.eqb c "-".

(** The part of [to_lowercase] that matters for the slug: ASCII letters, and the two
    other characters whose lower case has ASCII letters in it (the Kelvin sign,
    and the capital I with a dot). Any other byte stands for a character that is
    not kept. *)
Fixpoint lowercase_for_slug (s : string) : string :=
  match s with
  | EmptyString => EmptyString
  | String a s1 =>
      let rest := String (Str.to_ascii_lowercase a) (lowercase_for_slug s1) in
      match s1 with
      | String b s2 =>
          if byte_is 196 a && byte_is 176 b then String "i" (String a (lowercase_for_slug s2))
          else match s2 with
               | String c s3 =>
                   if byte_is 226 a && byte_is 132 b && byte_is 170 c
                   then String "k" (lowercase_for_slug s3) else rest
               | EmptyString => rest
               end
      | EmptyString => rest
      end
  end.

(** Characters that are not kept become one dash; [dash] says that the slug ends in
    one. *)
Fixpoint slug_from (dash : bool) (s : string) : string :=
  match s with
  | EmptyString => EmptyString
  | String c s' =>
      if is_id_char c then String c (slug_from (Ascii.eqb c "-") s')
      else if dash then slug_from true s'
      else String "-" (slug_from true s')
  end.

Section Ids.
Context `{Crates}.

Definition server_id_component (name : string) : string :=
  if negb (Str.is_empty name) && Str.all is_id_char name then name
  else
    let slug := trim_matches (λ c, Ascii.eqb c "-") (slug_from false (lowercase_for_slug name)) in
    let hash := Str.take 8 (hex_encode (sha256 name)) in
    if Str.is_empty slug then "srv-" +:+ hash else slug +:+ "-" +:+ hash.

Definition user_scope_server_id (name : string) : string := "user-" +:+ server_id_component name.

Definition local_scope_server_id (project_path name : string) : string :=
  "local-" +:+ Str.take LOCAL_ID_HASH_HEX (hex_encode (sha256 project_path))
  +:+ "-" +:+ server_id_component name.

Definition json_agent_server_id (prefix name : string) : string :=
  prefix +:+ "-" +:+ server_id_component name.

Definition zcode_scope_server_id : string → string := json_agent_server_id "zcode".
Definition opencode_scope_server_id : string → string := json_agent_server_id "opencode".
Definition codex_scope_server_id : string → string := json_agent_server_id "codex".
Definition grok_scope_server_id : string → string := json_agent_server_id "grok".
End Ids.

(** The names seen so far by their identity; the first of two that share one is
    reported with the second. *)
Fixpoint unique_ids (id_of : string → string) (path : string) (seen : gmap string string)
    (names : list string) : result SetupError unit :=
  match names with
  | [] => Ok tt
  | name :: rest =>
      match seen !! id_of name with
      | Some first => Err (SetupError.DuplicateServerId path (id_of name) first name)
      | None => unique_ids id_of path (<[id_of name := name]> seen) rest
      end
  end.

Definition ensure_unique_server_ids (names : list string) (id_of : string → string) (path : string)
    : result SetupError unit :=
  unique_ids id_of path ∅ names.

(** ** Wrapping and unwrapping *)

(** [obj.insert("command", ..); obj.insert("args", ..)] *)
Definition set_command (command : string) (args : list Value) (fields : list (string * Value))
    : list (string * Value) :=
  map_insert "args" (JArr args) (map_insert "command" (JStr command) fields).

Definition wrap_entry (original : Value) (exe name command : string) (args env_keys : list string)
    (monitor : bool) : Value :=
  match original, wrapped_argv exe name command args env_keys monitor with
  | JObj fields, program :: rest => JObj (set_command program (JStr <$> rest) fields)
  | _, _ => original
  end.

Definition unwrap_entry (wrapped : Value) : option Value :=
  fields ← as_object wrapped;
  args ← assoc_get "args" fields ≫= as_array;
  if negb (is_managed_wrap_args args) then None
  else
    sent ← sentinel_pos args;
    let orig := drop (sent + 2) args in
    orig_cmd ← head orig ≫= as_str;
    Some (JObj (set_command orig_cmd (tail orig) fields)).

(** One turn of the loops over the names of a map of servers. *)
Definition wrap_server (exe : string) (monitor : bool) (id_for : string → string)
    (acc : list (string * Value) * nat) (name : string) : list (string * Value) * nat :=
  let '(servers, count) := acc in
  match assoc_get name servers with
  | None => acc
  | Some entry =>
      match classify_one name entry with
      | McpServerClass.Wrappable _ command args env_keys =>
          (map_insert name (wrap_entry entry exe (id_for name) command args env_keys monitor) servers,
           S count)
      | _ => acc
      end
  end.

Definition wrap_servers_object (exe : string) (monitor : bool) (id_for : string → string)
    (servers : list (string * Value)) : list (string * Value) * nat :=
  foldl (wrap_server exe monitor id_for) (servers, 0%nat) (servers.*1).

Definition unwrap_server (acc : list (string * Value) * nat) (name : string)
    : list (string * Value) * nat :=
  let '(servers, count) := acc in
  match assoc_get name servers with
  | None => acc
  | Some entry =>
      match unwrap_entry entry with
      | Some orig => (map_insert name orig servers, S count)
      | None => acc
      end
  end.

Definition unwrap_servers_object (servers : list (string * Value)) : list (string * Value) * nat :=
  foldl unwrap_server (servers, 0%nat) (servers.*1).

(** ** Whole configurations *)

(** [cfg.get("mcpServers").and_then(Value::as_object)] *)
Definition servers_of (cfg : Value) : list (string * Value) :=
  default [] (json_get "mcpServers" cfg ≫= as_object).

Definition projects_of (cfg : Value) : list (string * Value) :=
  default [] (json_get "projects" cfg ≫= as_object).

Definition classify_all (servers : list (string * Value)) : list McpServerClass :=
  (λ kv, classify_one kv.1 kv.2) <$> servers.

Definition classify_user_scope_servers (cfg : Value) : list McpServerClass :=
  classify_all (servers_of cfg).

Definition classify_local_scope_servers (cfg : Value) : list (string * McpServerClass) :=
  flat_map (λ kv, (λ c, (kv.1, c)) <$> classify_all (servers_of kv.2)) (projects_of cfg).

Definition is_wrappable (c : McpServerClass) : bool :=
  match c with
  | McpServerClass.Wrappable _ _ _ _ => true
  | _ => false
  end.

Definition is_already_wrapped (c : McpServerClass) : bool :=
  match c with
  | McpServerClass.AlreadyWrapped _ => true
  | _ => false
  end.

Definition count_if {A} (f : A → bool) (l : list A) : nat := length (List.filter f l).

Definition count_unprotected_local_scope (cfg : Value) : nat :=
  count_if (λ c, is_wrappable c.2) (classify_local_scope_servers cfg).

Section Configs.
Context `{Crates}.

Definition apply_wrap_to_config (cfg : Value) (exe : string) (user_scope_only monitor : bool)
    : Value * nat * nat :=
  let '(cfg, user_changed) :=
    update_at "mcpServers" (update_object (wrap_servers_object exe monitor user_scope_server_id)) cfg in
  let '(cfg, local_changed) :=
    if user_scope_only then (cfg, 0%nat)
    else update_at "projects" (update_object (update_all (λ proj_path proj,
           update_at "mcpServers"
             (update_object (wrap_servers_object exe monitor (local_scope_server_id proj_path)))
             proj))) cfg in
  (cfg, user_changed, local_changed).

Definition apply_unwrap_config (cfg : Value) : Value * nat * nat :=
  let '(cfg, user_changed) :=
    update_at "mcpServers" (update_object unwrap_servers_object) cfg in
  let '(cfg, local_changed) :=
    update_at "projects" (update_object (update_all (λ _ proj,
      update_at "mcpServers" (update_object unwrap_servers_object) proj))) cfg in
  (cfg, user_changed, local_changed).
End Configs.

(** ** The shapes of the roots *)

Definition bad_shape (path field : string) : result SetupError unit :=
  Err (SetupError.UnsupportedConfigShape path field).

Definition ensure_mcp_root_shape (cfg : Value) (path : string) : result SetupError unit :=
  if negb (is_object cfg) then bad_shape path "<root>"
  else if negb (shape_ok (json_get "mcpServers" cfg) is_object) then bad_shape path "mcpServers"
  else match json_get "projects" cfg with
       | None => Ok tt
       | Some (JObj po) =>
           if forallb (λ kv, shape_ok (json_get "mcpServers" (snd kv)) is_object) po then Ok tt
           else bad_shape path "projects.*.mcpServers"
       | Some _ => bad_shape path "projects"
       end.

Definition ensure_zcode_root_shape (cfg : Value) (path : string) : result SetupError unit :=
  if negb (is_object cfg) then bad_shape path "<root>"
  else match json_get "mcp" cfg with
       | None => Ok tt
       | Some (JObj mcp) =>
           if shape_ok (assoc_get "servers" mcp) is_object then Ok tt
           else bad_shape path "mcp.servers"
       | Some _ => bad_shape path "mcp"
       end.

Definition ensure_opencode_root_shape (cfg : Value) (path : string) : result SetupError unit :=
  if negb (is_object cfg) then bad_shape path "<root>"
  else match json_get "mcp" cfg with
       | None => Ok tt
       | Some (JObj mcp) =>
           match assoc_get "servers" mcp with
           | Some (JObj o) =>
               if match assoc_get "type" o with Some t => is_string t | None => false end then Ok tt
               else bad_shape path "mcp.servers (OpenCode v2 layout)"
           | _ => Ok tt
           end
       | Some _ => bad_shape path "mcp"
       end.

(** ** OpenCode: the whole command line in one array *)

Definition opencode_entry_to_claude_shape (entry : Value) : option Value :=
  obj ← as_object entry;
  if bool_decide (is_Some (assoc_get "url" obj)) || bool_decide (is_Some (assoc_get "serverUrl" obj))
  then Some entry
  else if negb (shape_ok (assoc_get "type" obj) (λ t, str_is "local" (Some t))) then None
  else
    cmd_arr ← assoc_get "command" obj ≫= as_array;
    match cmd_arr with
    | cmd :: args =>
        if negb (forallb is_string cmd_arr) then None
        else Some (JObj ([("command", cmd); ("args", JArr args)]
                         ++ match assoc_get "environment" obj with
                            | Some env => [("env", env)]
                            | None => []
                            end))
    | [] => None
    end.

Definition opencode_servers (cfg : Value) : list (string * Value) :=
  default [] (json_get "mcp" cfg ≫= as_object).

Definition classify_opencode (name : string) (entry : Value) : McpServerClass :=
  match opencode_entry_to_claude_shape entry with
  | Some bridged => classify_one name bridged
  | None => McpServerClass.Skipped name "unsupported command shape (expected array of strings)"
  end.

Definition classify_opencode_servers (cfg : Value) : list McpServerClass :=
  (λ kv, classify_opencode kv.1 kv.2) <$> opencode_servers cfg.

Section OpenCode.
Context `{Crates}.

(** One entry of the plan, carried out. *)
Definition wrap_opencode_server (exe : string) (monitor : bool)
    (acc : list (string * Value) * nat) (plan : string * McpServerClass) : list (string * Value) * nat :=
  let '(servers, count) := acc in
  match plan.2, assoc_get plan.1 servers with
  | McpServerClass.Wrappable _ command args env_keys, Some (JObj obj) =>
      let argv := wrapped_argv exe (opencode_scope_server_id plan.1) command args env_keys monitor in
      (map_insert plan.1 (JObj (map_insert "command" (JArr (JStr <$> argv)) obj)) servers, S count)
  | _, _ => acc
  end.

Definition apply_wrap_to_opencode (exe : string) (monitor : bool) (cfg : Value) : Value * nat :=
  update_at "mcp" (update_object (λ servers,
    foldl (wrap_opencode_server exe monitor) (servers, 0%nat)
      ((λ kv, (kv.1, classify_opencode kv.1 kv.2)) <$> servers))) cfg.

Definition unwrap_opencode_entry (entry : Value) : option Value :=
  bridged ← opencode_entry_to_claude_shape entry;
  restored ← unwrap_entry bridged;
  cmd ← json_get "command" restored ≫= as_str;
  arr ← json_get "args" restored ≫= as_array;
  if forallb is_string arr then
    obj ← as_object entry; Some (JObj (map_insert "command" (JArr (JStr cmd :: arr)) obj))
  else None.

Definition apply_unwrap_opencode (cfg : Value) : Value * nat :=
  update_at "mcp" (update_object (update_all (λ _ entry,
    match unwrap_opencode_entry entry with
    | Some orig => (orig, 1%nat)
    | None => (entry, 0%nat)
    end))) cfg.
End OpenCode.

(** ** Reading, changing and replacing the files *)

Record McpApplyReport := mkMcpApplyReport {
  ar_path : string;
  ar_changed : nat;
  ar_local_changed : nat;
  ar_local_skipped : nat;
  ar_dry_run : bool;
  ar_backup : option string;
}.

Section Running.
Context `{Crates} `{Host} `{Document Value}.

Definition read_claude_json (path : string) : SetupM (option Value) :=
  let! stat := map_io "" path (attempt (metadata path)) in
  match stat with
  | Err IoError.NotFound => ret None
  | Err _ => throw (SetupError.Io "stat MCP config" path)
  | Ok (_, len) =>
      if (MAX_CLAUDE_JSON_BYTES <? len)%Z then throw (SetupError.MalformedConfig path)
      else
        let! raw := map_io "read MCP config" path (read_to_string path) in
        lift (from_option (λ v, Ok (Some v)) (Err (SetupError.MalformedConfig path)) (from_str raw))
  end.

(** What all surfaces do with a configuration that is there: guard it, change it,
    write it back if it changed and this is no rehearsal. *)
Definition rewrite_config (path : string) (dry_run : bool) (new_cfg : Value) (changed : nat)
    (stamp : Z * Z) : SetupM (option string) :=
  if negb dry_run && (0 <? changed)%nat
  then atomic_write_with_backup path new_cfg (Some stamp) else ret None.

Definition claude_json_path (home : string) : string := path_push home ".claude.json".

Definition local_ids_unique (path : string) (cfg : Value) : result SetupError unit :=
  foldr (λ kv rest,
    let? _ := ensure_unique_server_ids (servers_of kv.2).*1 (local_scope_server_id kv.1) path in rest)
    (Ok tt) (projects_of cfg).

Definition nothing_to_do (path : string) (dry_run : bool) : McpApplyReport :=
  mkMcpApplyReport path 0 0 0 dry_run None.

Definition run_apply (home exe : string) (dry_run user_scope_only monitor : bool)
    : SetupM McpApplyReport :=
  let path := claude_json_path home in
  let! read := read_claude_json path in
  match read with
  | None => ret (nothing_to_do path dry_run)
  | Some cfg =>
      lift (ensure_mcp_root_shape cfg path) ;!
      lift (ensure_unique_server_ids (servers_of cfg).*1 user_scope_server_id path) ;!
      lift (if user_scope_only then Ok tt else local_ids_unique path cfg) ;!
      let local_skipped :=
        if user_scope_only then count_unprotected_local_scope cfg else 0%nat in
      let! stamp := stamp_for_existing path in
      let '(new_cfg, changed, local_changed) :=
        apply_wrap_to_config cfg exe user_scope_only monitor in
      let! backup := rewrite_config path dry_run new_cfg (changed + local_changed) stamp in
      ret (mkMcpApplyReport path changed local_changed local_skipped dry_run backup)
  end.

Definition run_uninstall (home : string) (dry_run : bool) : SetupM McpApplyReport :=
  let path := claude_json_path home in
  let! read := read_claude_json path in
  match read with
  | None => ret (nothing_to_do path dry_run)
  | Some cfg =>
      lift (ensure_mcp_root_shape cfg path) ;!
      let! stamp := stamp_for_existing path in
      let '(new_cfg, changed, local_changed) := apply_unwrap_config cfg in
      let! backup := rewrite_config path dry_run new_cfg (changed + local_changed) stamp in
      ret (mkMcpApplyReport path changed local_changed 0 dry_run backup)
  end.

(** An agent whose configuration has the shape of Claude's user scope. *)
Record JsonMcpAgent := mkJsonMcpAgent { ja_config_path : string; ja_id_prefix : string }.

Definition cursor (home : string) : JsonMcpAgent :=
  mkJsonMcpAgent (path_push (path_push home ".cursor") "mcp.json") "cursor".
Definition windsurf (home : string) : JsonMcpAgent :=
  mkJsonMcpAgent
    (path_push (path_push (path_push home ".codeium") "windsurf") "mcp_config.json") "windsurf".
Definition kimi (home : string) : JsonMcpAgent :=
  mkJsonMcpAgent (path_push (path_push home ".kimi") "mcp.json") "kimi".
Definition gemini (home : string) : JsonMcpAgent :=
  mkJsonMcpAgent (path_push (path_push home ".gemini") "settings.json") "gemini".

Definition run_json_agent_apply (agent : JsonMcpAgent) (exe : string) (dry_run monitor : bool)
    : SetupM McpApplyReport :=
  let path := ja_config_path agent in
  let id_of := json_agent_server_id (ja_id_prefix agent) in
  let! read := read_claude_json path in
  match read with
  | None => ret (nothing_to_do path dry_run)
  | Some cfg =>
      lift (ensure_mcp_root_shape cfg path) ;!
      lift (ensure_unique_server_ids (servers_of cfg).*1 id_of path) ;!
      let! stamp := stamp_for_existing path in
      let '(new_cfg, changed) :=
        update_at "mcpServers" (update_object (wrap_servers_object exe monitor id_of)) cfg in
      let! backup := rewrite_config path dry_run new_cfg changed stamp in
      ret (mkMcpApplyReport path changed 0 0 dry_run backup)
  end.

Definition run_json_agent_uninstall (agent : JsonMcpAgent) (dry_run : bool)
    : SetupM McpApplyReport :=
  let path := ja_config_path agent in
  let! read := read_claude_json path in
  match read with
  | None => ret (nothing_to_do path dry_run)
  | Some cfg =>
      lift (ensure_mcp_root_shape cfg path) ;!
      let! stamp := stamp_for_existing path in
      let '(new_cfg, changed) := update_at "mcpServers" (update_object unwrap_servers_object) cfg in
      let! backup := rewrite_config path dry_run new_cfg changed stamp in
      ret (mkMcpApplyReport path changed 0 0 dry_run backup)
  end.

Definition zcode_config_path (home : string) : string :=
  path_push (path_push (path_push home ".zcode") "cli") "config.json".

Definition zcode_servers (cfg : Value) : list (string * Value) :=
  default [] (mcp ← json_get "mcp" cfg; json_get "servers" mcp ≫= as_object).

(** [zcode_servers_obj_mut(..).map(..)] *)
Definition update_zcode (f : list (string * Value) → list (string * Value) * nat)
    : Value → Value * nat :=
  update_at "mcp" (update_at "servers" (update_object f)).

Definition run_zcode_apply (home exe : string) (dry_run monitor : bool) : SetupM McpApplyReport :=
  let path := zcode_config_path home in
  let! read := read_claude_json path in
  match read with
  | None => ret (nothing_to_do path dry_run)
  | Some cfg =>
      lift (ensure_zcode_root_shape cfg path) ;!
      lift (ensure_unique_server_ids (zcode_servers cfg).*1 zcode_scope_server_id path) ;!
      let! stamp := stamp_for_existing path in
      let '(new_cfg, changed) :=
        update_zcode (wrap_servers_object exe monitor zcode_scope_server_id) cfg in
      let! backup := rewrite_config path dry_run new_cfg changed stamp in
      ret (mkMcpApplyReport path changed 0 0 dry_run backup)
  end.

Definition run_zcode_uninstall (home : string) (dry_run : bool) : SetupM McpApplyReport :=
  let path := zcode_config_path home in
  let! read := read_claude_json path in
  match read with
  | None => ret (nothing_to_do path dry_run)
  | Some cfg =>
      lift (ensure_zcode_root_shape cfg path) ;!
      let! stamp := stamp_for_existing path in
      let '(new_cfg, changed) := update_zcode unwrap_servers_object cfg in
      let! backup := rewrite_config path dry_run new_cfg changed stamp in
      ret (mkMcpApplyReport path changed 0 0 dry_run backup)
  end.

Definition opencode_config_path (home : string) : string :=
  path_push (path_push (path_push home ".config") "opencode") "opencode.json".

(** [jsonc.is_file()]: what is on the disk is a file. *)
Definition opencode_missing_v1_guard (home : string) : SetupM unit :=
  let jsonc := path_push (path_push (path_push home ".config") "opencode") "opencode.jsonc" in
  let! there := map_io "" jsonc (exists_ jsonc) in
  if there
  then throw (SetupError.UnsupportedConfigShape jsonc "opencode.jsonc (OpenCode v2 config)")
  else ret tt.

Definition run_opencode_apply (home exe : string) (dry_run monitor : bool) : SetupM McpApplyReport :=
  let path := opencode_config_path home in
  let! read := read_claude_json path in
  match read with
  | None => opencode_missing_v1_guard home ;! ret (nothing_to_do path dry_run)
  | Some cfg =>
      lift (ensure_opencode_root_shape cfg path) ;!
      lift (ensure_unique_server_ids (opencode_servers cfg).*1 opencode_scope_server_id path) ;!
      let! stamp := stamp_for_existing path in
      let '(new_cfg, changed) := apply_wrap_to_opencode exe monitor cfg in
      let! backup := rewrite_config path dry_run new_cfg changed stamp in
      ret (mkMcpApplyReport path changed 0 0 dry_run backup)
  end.

Definition run_opencode_uninstall (home : string) (dry_run : bool) : SetupM McpApplyReport :=
  let path := opencode_config_path home in
  let! read := read_claude_json path in
  match read with
  | None => opencode_missing_v1_guard home ;! ret (nothing_to_do path dry_run)
  | Some cfg =>
      lift (ensure_opencode_root_shape cfg path) ;!
      let! stamp := stamp_for_existing path in
      let '(new_cfg, changed) := apply_unwrap_opencode cfg in
      let! backup := rewrite_config path dry_run new_cfg changed stamp in
      ret (mkMcpApplyReport path changed 0 0 dry_run backup)
  end.

(** The previews, and how much of a configuration is behind the gateway. *)
Definition run_preview (home : string)
    : SetupM (bool * list McpServerClass * list (string * McpServerClass)) :=
  let path := claude_json_path home in
  let! read := read_claude_json path in
  match read with
  | Some v =>
      lift (ensure_mcp_root_shape v path) ;!
      ret (true, classify_user_scope_servers v, classify_local_scope_servers v)
  | None => ret (false, [], [])
  end.

Definition wrapped_server_count (home : string) : SetupM nat :=
  let! read := attempt (read_claude_json (claude_json_path home)) in
  match read with
  | Ok (Some cfg) =>
      ret (count_if is_already_wrapped (classify_user_scope_servers cfg)
           + count_if (λ c, is_already_wrapped c.2) (classify_local_scope_servers cfg))%nat
  | _ => ret 0%nat
  end.
End Running.
