(* ===== verification/SetupMcpProps.v ===== *)
(** * What putting the gateway in front guarantees

    A wrapped entry is recognised as one and restores the entry it came from; no
    server that can be wrapped is left out; doing it again changes nothing, and
    undoing it brings the configuration back. *)

From S2P Require Import Prelude Text Types Json Deps Concrete Extract Files Setup SetupMcp Namespace.

(** ** One entry *)

Lemma position_app {A} (f : A → bool) l1 x l2 :
  Forall (λ y, f y = false) l1 → f x = true → position f (l1 ++ x :: l2) = Some (length l1).
Proof.
  intros Hl Hx. induction Hl as [|y l1 Hy _ IH]; simpl; [by rewrite Hx|]. by rewrite Hy, IH.
Qed.

(** The arguments of a wrapped entry before the marker. *)
Definition wrap_head (name : string) (env_keys : list string) (monitor : bool) : list string :=
  ["wrap"; "--server-id"; name] ++ flat_map (λ k, ["--env-key"; k]) env_keys
  ++ (if monitor then ["--monitor"] else []).

Lemma wrapped_argv_split exe name command args env_keys monitor :
  wrapped_argv exe name command args env_keys monitor
  = exe :: wrap_head name env_keys monitor ++ VIGIL_MANAGED_MCP_MARKER :: "--" :: command :: args.
Proof. unfold wrapped_argv, wrap_head. by rewrite <- !app_assoc. Qed.

Definition no_sentinel (l : list string) : Prop := Forall (λ k, is_sentinel_token k = false) l.

Lemma wrap_head_no_sentinel name env_keys monitor :
  is_sentinel_token name = false → no_sentinel env_keys → no_sentinel (wrap_head name env_keys monitor).
Proof.
  intros Hn Hk. unfold wrap_head, no_sentinel. rewrite !Forall_app. split_and!.
  - by repeat constructor.
  - induction Hk as [|k l Hk _ IH]; simpl; [constructor|]. by repeat constructor.
  - destruct monitor; by repeat constructor.
Qed.

Section Entry.
Context (exe name : string) (command : string) (args env_keys : list string) (monitor : bool).
Context (Hname : is_sentinel_token name = false) (Hkeys : no_sentinel env_keys).

Definition wrapped_args : list Value :=
  JStr <$> (wrap_head name env_keys monitor ++ VIGIL_MANAGED_MCP_MARKER :: "--" :: command :: args).

Lemma wrapped_sentinel : sentinel_pos wrapped_args = Some (length (wrap_head name env_keys monitor)).
Proof using Hname Hkeys.
  unfold sentinel_pos, wrapped_args. rewrite fmap_app, fmap_cons.
  rewrite position_app; [by rewrite length_fmap| |done].
  apply Forall_fmap. eapply Forall_impl; [by apply wrap_head_no_sentinel|]. intros k Hk. done.
Qed.

Lemma wrapped_is_managed : is_managed_wrap_args wrapped_args = true.
Proof using Hname Hkeys.
  unfold is_managed_wrap_args. rewrite wrapped_sentinel. unfold wrapped_args.
  rewrite fmap_app, lookup_app_r by (rewrite length_fmap; lia). rewrite length_fmap.
  by replace (S (length (wrap_head name env_keys monitor)) - length (wrap_head name env_keys monitor))%nat
    with 1%nat by lia.
Qed.

Lemma set_command_set c a c' a' fields :
  set_command c a (set_command c' a' fields) = set_command c a fields.
Proof using Type.
  unfold set_command. rewrite (map_insert_comm "command" "args" (JStr c) (JArr a')) by
    (try done; rewrite assoc_get_insert; by eexists).
  by rewrite !map_insert_insert.
Qed.

Lemma set_command_get k c a fields :
  assoc_get k (set_command c a fields)
  = if decide (k = "args") then Some (JArr a) else
    if decide (k = "command") then Some (JStr c) else assoc_get k fields.
Proof using Type.
  unfold set_command. destruct (decide (k = "args")) as [->|]; [by rewrite assoc_get_insert|].
  rewrite assoc_get_insert_ne by done.
  destruct (decide (k = "command")) as [->|]; [by rewrite assoc_get_insert|].
  by rewrite assoc_get_insert_ne.
Qed.

Lemma unwrap_wrapped fields :
  unwrap_entry (JObj (set_command exe wrapped_args fields))
  = Some (JObj (set_command command (JStr <$> args) fields)).
Proof using Hname Hkeys.
  unfold unwrap_entry. cbn [as_object mbind option_bind]. rewrite set_command_get, decide_True by done.
  cbv [mbind option_bind as_array]. rewrite wrapped_is_managed, wrapped_sentinel. cbn [negb]. unfold wrapped_args at 1 2.
  rewrite fmap_app, drop_app_ge by (rewrite length_fmap; lia). rewrite length_fmap.
  replace (length (wrap_head name env_keys monitor) + 2 - length (wrap_head name env_keys monitor))%nat
    with 2%nat by lia.
  simpl. by rewrite set_command_set.
Qed.

Lemma wrap_entry_obj fields :
  wrap_entry (JObj fields) exe name command args env_keys monitor
  = JObj (set_command exe wrapped_args fields).
Proof using Type. unfold wrap_entry. by rewrite wrapped_argv_split. Qed.

Lemma classify_wrapped n fields :
  classify_one n (JObj (set_command exe wrapped_args fields)) = McpServerClass.AlreadyWrapped n.
Proof using Hname Hkeys.
  unfold classify_one. simpl. rewrite !set_command_get. simpl.
  unfold classify_managed. by rewrite wrapped_is_managed.
Qed.
End Entry.

(** What classification reads off an entry. *)
Lemma classify_wrappable name entry n command args env_keys :
  classify_one name entry = McpServerClass.Wrappable n command args env_keys →
  n = name ∧ env_keys = object_keys (default JNull (json_get "env" entry)) ∧
  ∃ fields cmd, entry = JObj fields ∧ assoc_get "command" fields = Some (JStr cmd) ∧
    (let raw := omap as_str (default [] (json_get "args" entry ≫= as_array)) in
     args = raw ∧ command = trim cmd ∨
     raw = [] ∧ split_whitespace cmd = command :: args ∧ args ≠ []).
Proof.
  unfold classify_one. destruct entry as [| | | | | |fields]; try done.
  cbn [json_get].
  destruct (cmd ← _; _) as [c|] eqn:Em.
  { destruct (assoc_get "command" fields) as [[]|]; try done. simpl in Em.
    destruct (assoc_get "args" fields) as [[]|]; try done. simpl in Em. unfold classify_managed in Em.
    repeat case_match; by simplify_eq. }
  destruct (_ || _); [done|]. destruct (negb (shape_ok (assoc_get "type" fields) _)); [done|].
  destruct (negb (shape_ok (assoc_get "args" fields) _)); [done|].
  destruct (assoc_get "command" fields) as [[| | | |cmd| |]|] eqn:Ec; try done. simpl.
  destruct (negb _); [done|]. unfold classify_command.
  destruct (omap as_str _) as [|a l] eqn:Ea.
  - destruct (split_whitespace cmd) as [|w [|w' ws]] eqn:Ew.
    + intros [= <- <- <- <-]. split_and!; [done|done|]. exists fields, cmd. split_and!; [done|done|].
      by left.
    + intros [= <- <- <- <-]. split_and!; [done|done|]. exists fields, cmd. split_and!; [done|done|].
      by left.
    + destruct (any is_quote cmd); [done|]. destruct (is_vigil_hub w); [done|].
      intros [= <- <- <- <-]. split_and!; [done|done|]. exists fields, cmd. split_and!; [done|done|].
      by right.
  - intros [= <- <- <- <-]. split_and!; [done|done|]. exists fields, cmd. split_and!; [done|done|].
    by left.
Qed.

(** Wrapping is reversible. The entry written for a server that can be wrapped,
    under any identity and environment keys that do not look like the marker, is
    recognised as Vigil's, keeps every other field, and restores from itself the
    entry it came from with the command line that was read off it; if that is the
    command line as it stood, it restores the entry itself. *)
Theorem wrapping_is_reversible exe sid name entry command args env_keys monitor :
  classify_one name entry = McpServerClass.Wrappable name command args env_keys →
  is_sentinel_token sid = false → no_sentinel env_keys →
  let wrapped := wrap_entry entry exe sid command args env_keys monitor in
  (∀ n, classify_one n wrapped = McpServerClass.AlreadyWrapped n) ∧
  (∀ k, k ∉ ["command"; "args"] → json_get k wrapped = json_get k entry) ∧
  (∃ fields, entry = JObj fields ∧
     unwrap_entry wrapped = Some (JObj (set_command command (JStr <$> args) fields))) ∧
  (json_get "command" entry = Some (JStr command) → json_get "args" entry = Some (json_strs args) →
     unwrap_entry wrapped = Some entry).
Proof.
  intros (_ & _ & fields & cmd & -> & _ & _)%classify_wrappable Hs Hk. cbv zeta.
  rewrite wrap_entry_obj. split_and!.
  - intros n. by apply classify_wrapped.
  - intros k Hn. simpl. rewrite set_command_get, !decide_False; [done|set_solver|set_solver].
  - exists fields. split; [done|]. by apply unwrap_wrapped.
  - simpl. unfold json_strs. intros Hc Ha. rewrite unwrap_wrapped by done. unfold set_command.
    by rewrite (map_insert_same _ _ _ Hc), (map_insert_same _ _ _ Ha).
Qed.

(** ** Whole maps *)

(** The loops over the names of a map do to each entry what one turn does. *)
Lemma loop_update_all (step : list (string * Value) * nat → string → list (string * Value) * nat)
    (g : string → Value → Value * nat) servers :
  (∀ l c k e, assoc_get k l = Some e → step (l, c) k = (map_insert k (g k e).1 l, c + (g k e).2)%nat) →
  NoDup servers.*1 → foldl step (servers, 0%nat) servers.*1 = update_all g servers.
Proof.
  intros Hstep Hd.
  assert (∀ done rest c, NoDup (done ++ rest).*1 →
    foldl step (done ++ rest, c) rest.*1
    = (done ++ (update_all g rest).1, c + (update_all g rest).2)%nat) as Hg.
  { intros dn rest. revert dn. induction rest as [|[k e] rest IH]; intros dn c Hnd.
    { simpl. by rewrite Nat.add_0_r. }
    rewrite fmap_cons. cbn [foldl fst]. rewrite fmap_app, fmap_cons in Hnd. cbn [fst] in Hnd.
    assert (k ∉ dn.*1) as Hn by (intros Hk; apply NoDup_app in Hnd as (_ & Hx & _); apply (Hx k Hk); by left).
    assert (assoc_get k (dn ++ (k, e) :: rest) = Some e ∧
      ∀ v, map_insert k v (dn ++ (k, e) :: rest) = dn ++ (k, v) :: rest) as [Hget Hins].
    { clear -Hn. induction dn as [|[k' v'] dn IH]; simpl; [by rewrite String.eqb_refl|].
      rewrite fmap_cons in Hn. apply not_elem_of_cons in Hn as [Hne Hn]. simpl in Hne.
      destruct (String.eqb_spec k' k); [congruence|]. destruct (IH Hn) as [-> Hi]. split; [done|].
      intros v. by rewrite Hi. }
    rewrite (Hstep _ _ _ _ Hget), Hins. destruct (g k e) as [e' n] eqn:Eg. cbn [fst snd].
    change (dn ++ (k, e') :: rest) with (dn ++ ([(k, e')] ++ rest)). rewrite app_assoc.
    rewrite IH.
    - cbn [update_all]. rewrite Eg. destruct (update_all g rest) as [rest' m]. cbn [fst snd].
      rewrite <- app_assoc. simpl. f_equal. lia.
    - rewrite !fmap_app in *. simpl in *. by rewrite <- app_assoc. }
  specialize (Hg [] servers 0%nat Hd). simpl in Hg. rewrite Hg. by destruct (update_all g servers).
Qed.

Section Combinators.
Implicit Types f u : Value → Value * nat.

(** Doing [f] again does nothing; [u] undoes it and counts the same. *)
Definition settles (f : Value → Value * nat) (v : Value) : Prop := f (f v).1 = ((f v).1, 0%nat).
Definition undoes (u f : Value → Value * nat) (v : Value) : Prop := u (f v).1 = (v, (f v).2).

Lemma update_field_settles k f fields :
  (∀ v, assoc_get k fields = Some v → settles f v) →
  update_field k f (update_field k f fields).1 = ((update_field k f fields).1, 0%nat).
Proof.
  induction fields as [|[k' v] rest IH]; intros Hs; [done|]. cbn [update_field].
  simpl in Hs. destruct (String.eqb_spec k' k) as [->|Hne].
  - specialize (Hs v eq_refl). unfold settles in Hs. destruct (f v) as [v1 n]. cbn [fst] in *.
    cbn [update_field]. rewrite String.eqb_refl. by rewrite Hs.
  - specialize (IH Hs).
    destruct (update_field k f rest) as [rest' n]. cbn [fst] in *. cbn [update_field].
    destruct (String.eqb_spec k' k); [done|]. by rewrite IH.
Qed.

Lemma update_field_undoes k u f fields :
  (∀ v, assoc_get k fields = Some v → undoes u f v) →
  update_field k u (update_field k f fields).1 = (fields, (update_field k f fields).2).
Proof.
  induction fields as [|[k' v] rest IH]; intros Hs; [done|]. cbn [update_field].
  simpl in Hs. destruct (String.eqb_spec k' k) as [->|Hne].
  - specialize (Hs v eq_refl). unfold undoes in Hs. destruct (f v) as [v1 n]. cbn [fst snd] in *.
    cbn [update_field]. rewrite String.eqb_refl. by rewrite Hs.
  - specialize (IH Hs).
    destruct (update_field k f rest) as [rest' n]. cbn [fst snd] in *. cbn [update_field].
    destruct (String.eqb_spec k' k); [done|]. by rewrite IH.
Qed.

Lemma update_all_settles (f : string → Value → Value * nat) fields :
  (∀ k v, (k, v) ∈ fields → settles (f k) v) →
  update_all f (update_all f fields).1 = ((update_all f fields).1, 0%nat).
Proof.
  induction fields as [|[k v] rest IH]; intros Hs; [done|]. cbn [update_all].
  pose proof (Hs k v ltac:(by left)) as Hv. unfold settles in Hv. destruct (f k v) as [v1 n].
  specialize (IH ltac:(intros; apply Hs; by right)). destruct (update_all f rest) as [rest' m].
  cbn [fst] in *. cbn [update_all]. by rewrite Hv, IH.
Qed.

Lemma update_all_undoes (u f : string → Value → Value * nat) fields :
  (∀ k v, (k, v) ∈ fields → undoes (u k) (f k) v) →
  update_all u (update_all f fields).1 = (fields, (update_all f fields).2).
Proof.
  induction fields as [|[k v] rest IH]; intros Hs; [done|]. cbn [update_all].
  pose proof (Hs k v ltac:(by left)) as Hv. unfold undoes in Hv. destruct (f k v) as [v1 n].
  specialize (IH ltac:(intros; apply Hs; by right)). destruct (update_all f rest) as [rest' m].
  cbn [fst snd] in *. cbn [update_all]. by rewrite Hv, IH.
Qed.

Lemma update_object_settles F v :
  (∀ fields, v = JObj fields → F (F fields).1 = ((F fields).1, 0%nat)) → settles (update_object F) v.
Proof.
  intros Hs. unfold settles, update_object. destruct v as [| | | | | |fields]; try done.
  specialize (Hs _ eq_refl). destruct (F fields) as [fs n]. cbn [fst] in *. by rewrite Hs.
Qed.

Lemma update_object_undoes U F v :
  (∀ fields, v = JObj fields → U (F fields).1 = (fields, (F fields).2)) →
  undoes (update_object U) (update_object F) v.
Proof.
  intros Hs. unfold undoes, update_object. destruct v as [| | | | | |fields]; try done.
  specialize (Hs _ eq_refl). destruct (F fields) as [fs n]. cbn [fst snd] in *. by rewrite Hs.
Qed.

(** Changes under two keys do not meet. *)
Lemma update_field_other k f k' fields :
  k ≠ k' → assoc_get k' (update_field k f fields).1 = assoc_get k' fields.
Proof.
  intros Hne. induction fields as [|[k0 v] rest IH]; [done|]. cbn [update_field].
  destruct (String.eqb_spec k0 k) as [->|H0].
  - destruct (f v) as [v1 n]. simpl. by destruct (String.eqb_spec k k').
  - destruct (update_field k f rest) as [rest' n]. simpl in *. by destruct (String.eqb k0 k').
Qed.

Lemma update_field_comm k f k' g fields :
  k ≠ k' →
  (update_field k' g (update_field k f fields).1).1 = (update_field k f (update_field k' g fields).1).1
  ∧ (update_field k' g (update_field k f fields).1).2 = (update_field k' g fields).2.
Proof.
  intros Hne. induction fields as [|[k0 v] rest [IH1 IH2]]; [done|]. cbn [update_field].
  destruct (String.eqb_spec k0 k) as [->|H0].
  - destruct (f v) as [v1 n] eqn:Ef. destruct (String.eqb_spec k k'); [done|].
    cbn [fst update_field]. destruct (String.eqb_spec k k'); [done|].
    destruct (update_field k' g rest) as [r m]. cbn [fst snd update_field]. rewrite String.eqb_refl.
    by rewrite Ef.
  - destruct (String.eqb_spec k0 k') as [->|H1].
    + destruct (g v) as [v1 n] eqn:Eg. destruct (update_field k f rest) as [r m] eqn:Er.
      cbn [fst snd update_field]. rewrite String.eqb_refl, Eg.
      destruct (String.eqb_spec k' k); [done|]. by rewrite Er.
    + destruct (update_field k f rest) as [r m] eqn:Er. destruct (update_field k' g rest) as [r' m'] eqn:Er'.
      cbn [fst snd update_field] in *. destruct (String.eqb_spec k0 k'); [done|].
      destruct (String.eqb_spec k0 k); [done|].
      destruct (update_field k' g r) as [a b]. destruct (update_field k f r') as [a' b'].
      cbn [fst snd] in *. by subst.
Qed.
End Combinators.

Section Scopes.
Context (exe : string) (monitor : bool).

Definition wrap_one (id_for : string → string) (name : string) (entry : Value) : Value * nat :=
  match classify_one name entry with
  | McpServerClass.Wrappable _ command args env_keys =>
      (wrap_entry entry exe (id_for name) command args env_keys monitor, 1%nat)
  | _ => (entry, 0%nat)
  end.

Definition unwrap_one (name : string) (entry : Value) : Value * nat :=
  match unwrap_entry entry with
  | Some orig => (orig, 1%nat)
  | None => (entry, 0%nat)
  end.

(** No environment key of the entry looks like the marker. *)
Definition clean (entry : Value) : Prop :=
  no_sentinel (object_keys (default JNull (json_get "env" entry))).

(** The entry is as an agent writes it: with its command line in full if it can be
    wrapped, and nothing to restore otherwise. *)
Definition pristine (name : string) (entry : Value) : Prop :=
  match classify_one name entry with
  | McpServerClass.Wrappable _ command args _ =>
      json_get "command" entry = Some (JStr command) ∧ json_get "args" entry = Some (json_strs args)
  | _ => unwrap_entry entry = None
  end.

Lemma wrap_servers_all id_for servers :
  NoDup servers.*1 → wrap_servers_object exe monitor id_for servers = update_all (wrap_one id_for) servers.
Proof using Type.
  apply loop_update_all. intros l c k e Hg. unfold wrap_server, wrap_one. rewrite Hg.
  destruct (classify_one k e); cbn [fst snd];
    rewrite ?(map_insert_same _ _ _ Hg), ?Nat.add_0_r, ?Nat.add_1_r; done.
Qed.

Lemma unwrap_servers_all servers :
  NoDup servers.*1 → unwrap_servers_object servers = update_all unwrap_one servers.
Proof using Type.
  apply loop_update_all. intros l c k e Hg. unfold unwrap_server, unwrap_one. rewrite Hg.
  destruct (unwrap_entry e); cbn [fst snd];
    rewrite ?(map_insert_same _ _ _ Hg), ?Nat.add_0_r, ?Nat.add_1_r; done.
Qed.

Lemma update_all_keys (f : string → Value → Value * nat) fields : (update_all f fields).1.*1 = fields.*1.
Proof using Type.
  rewrite update_all_spec. induction fields as [|[k v] l IH]; [done|]. simpl. by f_equal.
Qed.

Section Ids.
Context (id_for : string → string) (Hid : ∀ n, is_sentinel_token (id_for n) = false).

Lemma wrap_one_class name entry :
  clean entry → is_wrappable (classify_one name (wrap_one id_for name entry).1) = false.
Proof using Hid.
  intros Hc. unfold wrap_one. destruct (classify_one name entry) as [n c a k| |] eqn:E;
    cbn [fst]; [|by rewrite E|by rewrite E].
  apply classify_wrappable in E as (-> & -> & fields & cmd & -> & _ & _).
  rewrite wrap_entry_obj. by rewrite classify_wrapped.
Qed.

Lemma wrap_one_settles name entry : clean entry → settles (wrap_one id_for name) entry.
Proof using Hid.
  intros Hc. unfold settles. pose proof (wrap_one_class name entry Hc) as Hw.
  unfold wrap_one at 1. by destruct (classify_one name (wrap_one id_for name entry).1).
Qed.

Lemma wrap_one_undone name entry :
  clean entry → pristine name entry → undoes (unwrap_one name) (wrap_one id_for name) entry.
Proof using Hid.
  unfold undoes, pristine, wrap_one, unwrap_one.
  destruct (classify_one name entry) as [n c a k| |] eqn:E; cbn [fst snd].
  - intros Hc [H1 H2]. apply classify_wrappable in E as (-> & -> & fields & cmd & -> & _ & _).
    rewrite wrap_entry_obj, unwrap_wrapped by done. simpl in H1, H2. unfold json_strs in H2.
    unfold set_command. by rewrite (map_insert_same _ _ _ H1), (map_insert_same _ _ _ H2).
  - by intros _ ->.
  - by intros _ ->.
Qed.

(** A map of servers, as the value it stands in. *)
Definition wrap_map : Value → Value * nat := update_object (wrap_servers_object exe monitor id_for).
Definition unwrap_map : Value → Value * nat := update_object unwrap_servers_object.

Definition servers_in (v : Value) : list (string * Value) := default [] (as_object v).

Lemma wrap_map_settles v :
  wf_json v → Forall (λ kv, clean kv.2) (servers_in v) → settles wrap_map v.
Proof using Hid.
  intros Hw Hc. apply update_object_settles. intros fields ->. apply wf_obj in Hw as [Hd _].
  rewrite (wrap_servers_all _ fields) by done.
  rewrite wrap_servers_all by by rewrite update_all_keys.
  apply update_all_settles. intros k e He. apply wrap_one_settles.
  rewrite Forall_forall in Hc. by apply (Hc (k, e)).
Qed.

Lemma wrap_map_undone v :
  wf_json v → Forall (λ kv, clean kv.2) (servers_in v) → Forall (λ kv, pristine kv.1 kv.2) (servers_in v) →
  undoes unwrap_map wrap_map v.
Proof using Hid.
  intros Hw Hc Hp. apply update_object_undoes. intros fields ->. apply wf_obj in Hw as [Hd _].
  rewrite (wrap_servers_all _ fields) by done.
  rewrite unwrap_servers_all by by rewrite update_all_keys.
  apply update_all_undoes. intros k e He. rewrite Forall_forall in Hc, Hp.
  apply wrap_one_undone; [by apply (Hc (k, e))|by apply (Hp (k, e))].
Qed.

Lemma wrap_map_class v :
  wf_json v → Forall (λ kv, clean kv.2) (servers_in v) →
  Forall (λ c, is_wrappable c = false) (classify_all (servers_in (wrap_map v).1)).
Proof using Hid.
  intros Hw Hc. destruct v as [| | | | | |fields]; try by constructor.
  apply wf_obj in Hw as [Hd _]. unfold wrap_map, update_object. rewrite wrap_servers_all by done.
  destruct (update_all (wrap_one id_for) fields) as [fs n] eqn:E. cbn [fst servers_in as_object default].
  assert (fs = (update_all (wrap_one id_for) fields).1) as -> by by rewrite E.
  rewrite update_all_spec. unfold classify_all. apply Forall_fmap, Forall_map.
  eapply Forall_impl; [exact Hc|]. intros [k e] He. simpl in *. by apply wrap_one_class.
Qed.
End Ids.
End Scopes.

(** ** A whole configuration *)

(** Every server of the configuration, in either scope. *)
Definition every_server (P : string → Value → Prop) (cfg : Value) : Prop :=
  Forall (λ kv, P kv.1 kv.2) (servers_of cfg) ∧
  Forall (λ proj, Forall (λ kv, P kv.1 kv.2) (servers_of proj.2)) (projects_of cfg).

Lemma servers_of_obj fields v :
  assoc_get "mcpServers" fields = Some v → servers_of (JObj fields) = servers_in v.
Proof. intros E. unfold servers_of. simpl. by rewrite E. Qed.

Lemma projects_of_obj fields ps :
  assoc_get "projects" fields = Some (JObj ps) → projects_of (JObj fields) = ps.
Proof. intros E. unfold projects_of. simpl. by rewrite E. Qed.

Section Scope.
Context (exe : string) (monitor : bool) (id_for : string → string).
Context (Hid : ∀ n, is_sentinel_token (id_for n) = false).

Abbreviation wrap_scope := (update_at "mcpServers" (wrap_map exe monitor id_for)).
Abbreviation unwrap_scope := (update_at "mcpServers" unwrap_map).

Lemma scope_settles v :
  wf_json v → Forall (λ kv, clean kv.2) (servers_of v) → settles wrap_scope v.
Proof using Hid.
  intros Hw Hc. apply update_object_settles. intros fields ->. apply update_field_settles.
  intros w E. rewrite (servers_of_obj _ _ E) in Hc. apply wrap_map_settles; [done| |done].
  by apply (wf_get "mcpServers" (JObj fields)).
Qed.

Lemma scope_undone v :
  wf_json v → Forall (λ kv, clean kv.2) (servers_of v) → Forall (λ kv, pristine kv.1 kv.2) (servers_of v) →
  undoes unwrap_scope wrap_scope v.
Proof using Hid.
  intros Hw Hc Hp. apply update_object_undoes. intros fields ->. apply update_field_undoes.
  intros w E. rewrite (servers_of_obj _ _ E) in Hc, Hp. apply wrap_map_undone; [done| |done|done].
  by apply (wf_get "mcpServers" (JObj fields)).
Qed.

Lemma assoc_get_update k f fields :
  assoc_get k (update_field k f fields).1 = (λ v, (f v).1) <$> assoc_get k fields.
Proof using Type.
  induction fields as [|[k' v] rest IH]; [done|]. cbn [update_field]. simpl.
  destruct (String.eqb_spec k' k) as [->|Hne].
  - destruct (f v) as [v1 n] eqn:E. simpl. by rewrite String.eqb_refl, E.
  - destruct (update_field k f rest) as [r n]. simpl in *. by destruct (String.eqb_spec k' k).
Qed.

Lemma scope_class v :
  wf_json v → Forall (λ kv, clean kv.2) (servers_of v) →
  Forall (λ c, is_wrappable c = false) (classify_all (servers_of (wrap_scope v).1)).
Proof using Hid.
  intros Hw Hc. destruct v as [| | | | | |fields]; try by constructor.
  unfold update_at, update_object. destruct (update_field _ _ fields) as [fs n] eqn:E. cbn [fst].
  assert (fs = (update_field "mcpServers" (wrap_map exe monitor id_for) fields).1) as -> by by rewrite E.
  unfold servers_of. simpl. rewrite assoc_get_update.
  destruct (assoc_get "mcpServers" fields) as [w|] eqn:Ew; [|by constructor]. simpl.
  rewrite (servers_of_obj _ _ Ew) in Hc. apply wrap_map_class; [done| |done].
  by apply (wf_get "mcpServers" (JObj fields)).
Qed.
End Scope.

Section Config.
Context `{Crates} (exe : string) (monitor : bool).

Lemma user_id_clean n : is_sentinel_token (user_scope_server_id n) = false.
Proof using Type. done. Qed.

Lemma local_id_clean p n : is_sentinel_token (local_scope_server_id p n) = false.
Proof using Type. done. Qed.

(** The two scopes, as changes of the fields of the root. *)
Abbreviation user_change := (wrap_map exe monitor user_scope_server_id).
Definition project_change (proj_path : string) : Value → Value * nat :=
  update_at "mcpServers" (wrap_map exe monitor (local_scope_server_id proj_path)).
Abbreviation local_change := (update_object (update_all project_change)).
Abbreviation local_restore := (update_object (update_all (λ _, update_at "mcpServers" unwrap_map))).

Lemma apply_wrap_fields fields :
  apply_wrap_to_config (JObj fields) exe false monitor
  = let '(fs, n) := update_field "mcpServers" user_change fields in
    let '(fs', m) := update_field "projects" local_change fs in (JObj fs', n, m).
Proof using Type.
  unfold apply_wrap_to_config, update_at. simpl. unfold wrap_map, project_change, update_at.
  destruct (update_field "mcpServers" _ fields) as [fs n]. simpl.
  by destruct (update_field "projects" _ fs).
Qed.

Lemma apply_unwrap_fields fields :
  apply_unwrap_config (JObj fields)
  = let '(fs, n) := update_field "mcpServers" unwrap_map fields in
    let '(fs', m) := update_field "projects" local_restore fs in (JObj fs', n, m).
Proof using Type.
  unfold apply_unwrap_config, update_at. simpl. unfold unwrap_map, update_at.
  destruct (update_field "mcpServers" _ fields) as [fs n]. simpl.
  by destruct (update_field "projects" _ fs).
Qed.

Section Clean.
Context (fields : list (string * Value)) (Hw : wf_json (JObj fields)).
Context (Hc : every_server (λ _, clean) (JObj fields)).

Lemma local_settles v : assoc_get "projects" fields = Some v → settles local_change v.
Proof using Hw Hc.
  intros E. apply update_object_settles. intros ps ->. apply update_all_settles. intros k proj Hp.
  apply scope_settles; [intros n; apply local_id_clean| |].
  - pose proof (wf_get "projects" (JObj fields) _ Hw E) as [_ Hf]%wf_obj. rewrite Forall_forall in Hf.
    by apply (Hf (k, proj)).
  - destruct Hc as [_ Hl]. rewrite (projects_of_obj _ _ E), Forall_forall in Hl. by apply (Hl (k, proj)).
Qed.

Lemma local_undone v :
  every_server pristine (JObj fields) → assoc_get "projects" fields = Some v →
  undoes local_restore local_change v.
Proof using Hw Hc.
  intros [_ Hpr] E. apply update_object_undoes. intros ps ->. apply update_all_undoes. intros k proj Hp.
  apply scope_undone; [intros n; apply local_id_clean| | |].
  - pose proof (wf_get "projects" (JObj fields) _ Hw E) as [_ Hf]%wf_obj. rewrite Forall_forall in Hf.
    by apply (Hf (k, proj)).
  - destruct Hc as [_ Hl]. rewrite (projects_of_obj _ _ E), Forall_forall in Hl. by apply (Hl (k, proj)).
  - rewrite (projects_of_obj _ _ E), Forall_forall in Hpr. by apply (Hpr (k, proj)).
Qed.

Lemma user_settles v : assoc_get "mcpServers" fields = Some v → settles user_change v.
Proof using Hw Hc.
  intros E. apply wrap_map_settles; [intros n; apply user_id_clean| |].
  - by apply (wf_get "mcpServers" (JObj fields)).
  - destruct Hc as [Hu _]. by rewrite (servers_of_obj _ _ E) in Hu.
Qed.

Lemma user_undone v :
  every_server pristine (JObj fields) → assoc_get "mcpServers" fields = Some v →
  undoes unwrap_map user_change v.
Proof using Hw Hc.
  intros [Hp _] E. apply wrap_map_undone; [intros n; apply user_id_clean| | |].
  - by apply (wf_get "mcpServers" (JObj fields)).
  - destruct Hc as [Hu _]. by rewrite (servers_of_obj _ _ E) in Hu.
  - by rewrite (servers_of_obj _ _ E) in Hp.
Qed.

Lemma user_class_after Y :
  assoc_get "mcpServers" Y = (λ v, (user_change v).1) <$> assoc_get "mcpServers" fields →
  Forall (λ c, is_wrappable c = false) (classify_user_scope_servers (JObj Y)).
Proof using Hw Hc.
  intros E. unfold classify_user_scope_servers, servers_of. simpl. rewrite E.
  destruct (assoc_get "mcpServers" fields) as [v|] eqn:Ev; [|by constructor]. simpl.
  apply wrap_map_class; [intros n; apply user_id_clean| |].
  - by apply (wf_get "mcpServers" (JObj fields)).
  - destruct Hc as [Hu _]. by rewrite (servers_of_obj _ _ Ev) in Hu.
Qed.

Lemma local_class_after Y :
  assoc_get "projects" Y = (λ v, (local_change v).1) <$> assoc_get "projects" fields →
  Forall (λ c, is_wrappable c.2 = false) (classify_local_scope_servers (JObj Y)).
Proof using Hw Hc.
  intros E. unfold classify_local_scope_servers, projects_of. simpl. rewrite E.
  destruct (assoc_get "projects" fields) as [v|] eqn:Ev; [|by constructor]. simpl.
  destruct v as [| | | | | |ps]; try by constructor. unfold update_object.
  destruct (update_all project_change ps) as [ps' n] eqn:Eu. cbn [fst as_object default].
  assert (ps' = (update_all project_change ps).1) as -> by by rewrite Eu.
  rewrite update_all_spec. apply Forall_flat_map, Forall_map, Forall_forall. intros [k proj] Hp.
  cbn [fst snd]. apply Forall_fmap.
  eapply Forall_impl; [apply (scope_class exe monitor (local_scope_server_id k))|done].
  - intros m. apply local_id_clean.
  - pose proof (wf_get "projects" (JObj fields) _ Hw Ev) as [_ Hf]%wf_obj. rewrite Forall_forall in Hf.
    by apply (Hf (k, proj)).
  - destruct Hc as [_ Hl]. rewrite (projects_of_obj _ _ Ev), Forall_forall in Hl. by apply (Hl (k, proj)).
Qed.
End Clean.
End Config.

(** Applying protects every server, once, and can be taken back. Of a
    configuration none of whose environment keys look like the marker: afterwards
    no server of either scope is left that could be wrapped; applying again changes
    nothing; nothing but the servers changes; and if its servers were as an agent
    writes them, uninstalling gives the configuration back, having restored as many
    entries as were wrapped. *)
Theorem apply_protects_and_reverts `{Crates} exe monitor cfg :
  wf_json cfg → every_server (λ _, clean) cfg →
  let '(cfg', n, m) := apply_wrap_to_config cfg exe false monitor in
  Forall (λ c, is_wrappable c = false) (classify_user_scope_servers cfg') ∧
  Forall (λ c, is_wrappable c.2 = false) (classify_local_scope_servers cfg') ∧
  apply_wrap_to_config cfg' exe false monitor = (cfg', 0%nat, 0%nat) ∧
  (∀ k, k ∉ ["mcpServers"; "projects"] → json_get k cfg' = json_get k cfg) ∧
  (every_server pristine cfg → apply_unwrap_config cfg' = (cfg, n, m)).
Proof.
  intros Hw Hc. destruct cfg as [| | | | | |fields]; try by (split_and!; try done; constructor).
  rewrite apply_wrap_fields.
  set (f := wrap_map exe monitor user_scope_server_id). set (g := update_object (update_all _)).
  destruct (update_field "mcpServers" f fields) as [X n] eqn:EX.
  destruct (update_field "projects" g X) as [Y m] eqn:EY.
  assert (X = (update_field "mcpServers" f fields).1) as HX by by rewrite EX.
  assert (Y = (update_field "projects" g X).1) as HY by by rewrite EY.
  assert (∀ k, k ≠ "mcpServers" → assoc_get k X = assoc_get k fields) as HXo
    by (intros k Hk; rewrite HX; by apply update_field_other).
  assert (∀ k, k ≠ "projects" → assoc_get k Y = assoc_get k X) as HYo
    by (intros k Hk; rewrite HY; by apply update_field_other).
  assert (update_field "mcpServers" f X = (X, 0%nat)) as EX2.
  { rewrite HX. apply update_field_settles. intros v Hv. by apply (user_settles exe monitor fields Hw Hc). }
  assert (update_field "projects" g Y = (Y, 0%nat)) as EY2.
  { rewrite HY. apply update_field_settles. intros v Hv. rewrite HXo in Hv by done.
    by apply (local_settles exe monitor fields Hw Hc). }
  split_and!.
  - apply (user_class_after exe monitor fields Hw Hc). rewrite HYo, HX by done. apply assoc_get_update.
  - apply (local_class_after exe monitor fields Hw Hc). rewrite HY, assoc_get_update, HXo by done. done.
  - rewrite apply_wrap_fields. fold f g.
    destruct (update_field_comm "projects" g "mcpServers" f X ltac:(done)) as [C1 C2].
    rewrite <- HY, EX2 in C1. rewrite <- HY, EX2 in C2. cbn [fst snd] in C1, C2. rewrite <- HY in C1.
    destruct (update_field "mcpServers" f Y) as [Y1 k1]. cbn [fst snd] in C1, C2. subst Y1 k1.
    by rewrite EY2.
  - intros k Hk. simpl. rewrite HYo, HXo by set_solver. done.
  - intros Hp. rewrite apply_unwrap_fields.
    assert (update_field "mcpServers" unwrap_map X = (fields, n)) as EU.
    { rewrite HX. replace n with (update_field "mcpServers" f fields).2 by by rewrite EX.
      apply update_field_undoes. intros v Hv. by apply (user_undone exe monitor fields Hw Hc). }
    destruct (update_field_comm "projects" g "mcpServers" unwrap_map X ltac:(done)) as [C1 C2].
    rewrite <- HY, EU in C1. rewrite <- HY, EU in C2. cbn [fst snd] in C1, C2.
    destruct (update_field "mcpServers" unwrap_map Y) as [Y1 k1]. cbn [fst snd] in C1, C2. subst Y1 k1.
    rewrite update_field_undoes.
    + assert (m = (update_field "projects" g fields).2) as <-; [|done].
      destruct (update_field_comm "mcpServers" f "projects" g fields ltac:(done)) as [_ C].
      rewrite <- HX, EY in C. done.
    + intros v Hv. by apply (local_undone exe monitor fields Hw Hc).
Qed.

(** ** Identities *)

Lemma all_impl (f g : ascii → bool) s :
  (∀ a, f a = true → g a = true) → Str.all f s = true → Str.all g s = true.
Proof.
  intros Hfg. induction s as [|a s IH]; [done|]. simpl. rewrite !andb_true_iff. intros [? ?]. auto.
Qed.

Lemma all_take (f : ascii → bool) n s : Str.all f s = true → Str.all f (Str.take n s) = true.
Proof.
  revert n. induction s as [|a s IH]; intros [|n]; try done. simpl. rewrite !andb_true_iff.
  intros [? ?]. auto.
Qed.

Lemma slug_chars dash s : Str.all is_id_char (slug_from dash s) = true.
Proof.
  revert dash. induction s as [|c s IH]; intros dash; [done|]. cbn [slug_from].
  destruct (is_id_char c) eqn:E; [simpl; by rewrite E, IH|].
  destruct dash; [apply IH|]. simpl. apply IH.
Qed.

Lemma all_trim_start f g s : Str.all f s = true → Str.all f (trim_start_matches g s) = true.
Proof.
  induction s as [|a s IH]; [done|]. cbn [trim_start_matches]. intros Ha. destruct (g a); [|done].
  apply IH. simpl in Ha. by apply andb_true_iff in Ha as [_ ?].
Qed.

Lemma all_trim_end f g s : Str.all f s = true → Str.all f (trim_end_matches g s) = true.
Proof.
  induction s as [|a s IH]; [done|]. cbn [trim_end_matches]. destruct (Str.all g (String a s)); [done|].
  simpl. rewrite !andb_true_iff. intros [? ?]. auto.
Qed.

Lemma hex_id_char a : Str.is_hex_lower a = true → is_id_char a = true.
Proof.
  unfold Str.is_hex_lower, is_id_char, Str.is_ascii_lower, Str.is_ascii_digit, Str.between.
  rewrite !orb_true_iff, !andb_true_iff, !Nat.leb_le. lia.
Qed.

Section Identities.
Context `{CratesLaws}.

Lemma digest_id_chars n s : Str.all is_id_char (Str.take n (hex_encode (sha256 s))) = true.
Proof. apply all_take. eapply all_impl; [apply hex_id_char|apply hex_lower]. Qed.

Lemma component_valid name :
  server_id_component name ≠ "" ∧ Str.all is_id_char (server_id_component name) = true.
Proof.
  unfold server_id_component. destruct (negb (Str.is_empty name) && Str.all is_id_char name) eqn:E.
  { apply andb_true_iff in E as [E ?]. split; [|done]. intros ->. done. }
  set (slug := trim_matches _ _). assert (Str.all is_id_char slug = true) as Hs
    by apply all_trim_end, all_trim_start, slug_chars.
  destruct (Str.is_empty slug) eqn:Es.
  - split; [done|]. rewrite Str.all_append, digest_id_chars. done.
  - split; [by destruct slug|]. rewrite !Str.all_append, Hs, digest_id_chars. done.
Qed.

(** A prefix without a dash can be read off an identity. *)
Lemma prefix_apart p q x y :
  Str.all (λ c, negb (Ascii.eqb c "-")) p = true → Str.all (λ c, negb (Ascii.eqb c "-")) q = true →
  p +:+ "-" +:+ x = q +:+ "-" +:+ y → p = q ∧ x = y.
Proof using Type.
  revert q. induction p as [|a p IH]; intros [|b q] Hp Hq E; rewrite ?Str.append_cons in E; simpl in *.
  - by injection E as E.
  - injection E as Eb E. subst b. by rewrite andb_false_l in Hq.
  - injection E as Ea E. subst a. by rewrite andb_false_l in Hp.
  - injection E as -> E. apply andb_true_iff in Hp as [_ Hp]. apply andb_true_iff in Hq as [_ Hq].
    destruct (IH q Hp Hq E) as [-> ->]. done.
Qed.

Lemma unique_ids_spec id_of path seen names :
  match unique_ids id_of path seen names with
  | Ok _ => NoDup (id_of <$> names) ∧ ∀ n, n ∈ names → seen !! id_of n = None
  | Err e => ∃ id first second, e = SetupError.DuplicateServerId path id first second ∧
      second ∈ names ∧ id = id_of second ∧
      (seen !! id = Some first ∨ first ∈ names ∧ id_of first = id)
  end.
Proof using Type.
  revert seen. induction names as [|name rest IH]; intros seen; simpl.
  { split; [apply NoDup_nil_2|]. intros n []%elem_of_nil. }
  destruct (seen !! id_of name) as [fst|] eqn:E.
  { exists (id_of name), fst, name. split_and!; [done|by left|done|by left]. }
  specialize (IH (<[id_of name:=name]> seen)).
  destruct (unique_ids id_of path _ rest) as [[]|e].
  - destruct IH as [Hd Hs]. split.
    + apply NoDup_cons. split; [|done]. intros (n & En & Hn)%list_elem_of_fmap.
      specialize (Hs n Hn). by rewrite <- En, lookup_insert_eq in Hs.
    + intros n [->|Hn]%elem_of_cons; [done|]. specialize (Hs n Hn).
      by apply lookup_insert_None in Hs as [? _].
  - destruct IH as (id & fst & snd & -> & Hin & Eid & Hor). exists id, fst, snd.
    split_and!; [done|by right|done|].
    destruct Hor as [Hl|[Hl ?]]; [|right; split; [by right|done]].
    destruct (decide (id_of name = id)) as [Ei|Hne].
    + rewrite <- Ei, lookup_insert_eq in Hl. injection Hl as ->. right. split; [by left|done].
    + rewrite lookup_insert_ne in Hl by done. by left.
Qed.

(** The identity a server gets behind the gateway is one the gateway accepts and
    is its own. Whatever its name is in the agent's configuration, its identity is
    a valid server id in every scope; servers of different scopes or agents never
    share one; and if the check of a map passes, no two of its servers share one,
    while a refusal names two servers that do. *)
Theorem identities_are_valid_and_apart :
  (∀ name, validate_server_id (user_scope_server_id name) = Ok tt) ∧
  (∀ proj name, validate_server_id (local_scope_server_id proj name) = Ok tt) ∧
  (∀ p name, Str.all (λ c, Str.is_ascii_lower c || Str.is_ascii_digit c) p = true →
     validate_server_id (json_agent_server_id p name) = Ok tt) ∧
  (∀ p q a b proj, p ≠ q → p ≠ "local" →
     Str.all (λ c, negb (Ascii.eqb c "-")) p = true → Str.all (λ c, negb (Ascii.eqb c "-")) q = true →
     json_agent_server_id p a ≠ json_agent_server_id q b
     ∧ json_agent_server_id p a ≠ local_scope_server_id proj b) ∧
  (∀ a, user_scope_server_id a = json_agent_server_id "user" a) ∧
  (∀ names id_of path,
     match ensure_unique_server_ids names id_of path with
     | Ok _ => NoDup (id_of <$> names)
     | Err e => ∃ first second, first ∈ names ∧ second ∈ names ∧ id_of first = id_of second ∧
         e = SetupError.DuplicateServerId path (id_of second) first second
     end).
Proof.
  assert (∀ p s, p ≠ "" → Str.all is_id_char (p +:+ s) = true → validate_server_id (p +:+ s) = Ok tt) as Hv.
  { intros p s Hp Ha. apply validate_ok. split; [by intros [? _]%Str.append_eq_nil|].
    eapply all_impl; [|exact Ha]. done. }
  split_and!.
  - intros name. apply (Hv "user-"); [done|]. simpl. apply component_valid.
  - intros proj name. apply (Hv "local-"); [done|]. rewrite !Str.all_append, digest_id_chars.
    simpl. apply component_valid.
  - intros p name Hp. unfold json_agent_server_id.
    assert (Str.all is_id_char (p +:+ "-" +:+ server_id_component name) = true) as Ha.
    { rewrite !Str.all_append. destruct (component_valid name) as [_ ->]. rewrite andb_true_r.
      eapply all_impl; [|exact Hp]. unfold is_id_char. intros a ->. done. }
    rewrite Str.append_assoc in *. apply Hv; [|done]. by intros [_ ?]%Str.append_eq_nil.
  - intros p q a b proj Hne Hl Hp Hq. split; intros E.
    + by apply prefix_apart in E as [? _].
    + unfold json_agent_server_id, local_scope_server_id in E.
      by apply (prefix_apart p "local") in E as [? _].
  - done.
  - intros names id_of path. unfold ensure_unique_server_ids.
    pose proof (unique_ids_spec id_of path ∅ names) as Hu.
    destruct (unique_ids id_of path ∅ names) as [[]|e]; [by destruct Hu|].
    destruct Hu as (id & fst & snd & -> & Hin & -> & [Hs|[Hf Ef]]); [by rewrite lookup_empty in Hs|].
    exists fst, snd. by split_and!.
Qed.
End Identities.

(** ** OpenCode *)

Lemma omap_strs (l : list string) : omap as_str (JStr <$> l) = l.
Proof. induction l as [|x l IH]; [done|]. simpl. f_equal. apply IH. Qed.

Lemma forallb_strs (l : list string) : forallb is_string (JStr <$> l) = true.
Proof. induction l as [|x l IH]; [done|]. simpl. apply IH. Qed.

(** An entry that keeps its command line in one array comes back likewise. *)
Lemma opencode_reversible `{Crates} exe monitor name obj n command args env_keys :
  classify_opencode name (JObj obj) = McpServerClass.Wrappable n command args env_keys →
  no_sentinel env_keys →
  let argv := wrapped_argv exe (opencode_scope_server_id name) command args env_keys monitor in
  unwrap_opencode_entry (JObj (map_insert "command" (JArr (JStr <$> argv)) obj))
  = Some (JObj (map_insert "command" (JArr (JStr <$> command :: args)) obj)).
Proof.
  intros Hcl Hk argv. unfold classify_opencode, opencode_entry_to_claude_shape in Hcl.
  unfold unwrap_opencode_entry, opencode_entry_to_claude_shape.
  cbn [as_object mbind option_bind] in *. rewrite !(assoc_get_insert_ne _ "command") by done.
  rewrite assoc_get_insert.
  destruct (bool_decide _ || bool_decide _) eqn:Eu.
  { exfalso. unfold classify_one in Hcl. cbn [json_get] in Hcl. rewrite Eu in Hcl.
    destruct (cmd ← _; _) as [c|] eqn:Em; [|done].
    destruct (assoc_get "command" obj) as [[]|]; try done. simpl in Em.
    destruct (assoc_get "args" obj) as [[]|]; try done. simpl in Em. unfold classify_managed in Em.
    repeat case_match; by simplify_eq. }
  destruct (negb (shape_ok (assoc_get "type" obj) _)); [done|].
  unfold argv. rewrite wrapped_argv_split. rewrite fmap_cons.
  cbv [mbind option_bind as_array]. rewrite <- fmap_cons, forallb_strs. cbn [negb].
  set (env := match assoc_get "environment" obj with Some e => [("env", e)] | None => [] end).
  pose proof (unwrap_wrapped exe (opencode_scope_server_id name) command args env_keys monitor eq_refl Hk
    ([("command", JNull); ("args", JNull)] ++ env)) as Hun.
  assert (unwrap_entry (JObj ([("command", JStr exe); ("args", JArr (JStr <$>
      (wrap_head (opencode_scope_server_id name) env_keys monitor
       ++ VIGIL_MANAGED_MCP_MARKER :: "--" :: command :: args)))] ++ env))
    = Some (JObj ([("command", JStr command); ("args", JArr (JStr <$> args))] ++ env))) as Hun' by exact Hun.
  rewrite fmap_cons, Hun'. simpl. rewrite forallb_strs, map_insert_insert. done.
Qed.

(** ** Witnesses and examples *)

Import Toy.

Definition npx_server : Value :=
  JObj [("command", JStr "npx"); ("args", json_strs ["pkg"]); ("env", JObj [("TOKEN", JStr "t")])].

Lemma wrapping_is_reversible_witness :
  unwrap_entry (wrap_entry npx_server "/bin/vigil-hub" "user-a" "npx" ["pkg"] ["TOKEN"] true)
  = Some npx_server.
Proof.
  assert (no_sentinel ["TOKEN"]) as Hk by (apply Forall_singleton; reflexivity).
  exact (proj2 (proj2 (proj2 (wrapping_is_reversible "/bin/vigil-hub" "user-a" "a" npx_server "npx"
    ["pkg"] ["TOKEN"] true eq_refl eq_refl Hk))) eq_refl eq_refl).
Defined.

Definition sample_config : Value :=
  JObj [("theme", JStr "dark"); ("mcpServers", JObj [("a", npx_server)]);
        ("projects", JObj [("/p", JObj [("mcpServers", JObj [("a", npx_server)])])])].

Lemma npx_server_wf : wf_json npx_server.
Proof.
  apply wf_obj. split; [apply (bool_decide_unpack _); vm_compute; exact I|].
  rewrite !Forall_cons, Forall_nil. split; [done|]. split; [by apply wf_arr, Forall_singleton|].
  split; [|done]. apply wf_obj. split; [apply NoDup_singleton|by apply Forall_singleton].
Qed.

Lemma sample_config_wf : wf_json sample_config.
Proof.
  assert (wf_json (JObj [("a", npx_server)])) as Ha.
  { apply wf_obj. split; [apply NoDup_singleton|apply Forall_singleton, npx_server_wf]. }
  apply wf_obj. split; [apply (bool_decide_unpack _); vm_compute; exact I|].
  rewrite !Forall_cons, Forall_nil. split; [done|]. split; [done|]. split; [|done].
  apply wf_obj. split; [apply NoDup_singleton|]. apply Forall_singleton, wf_obj.
  split; [apply NoDup_singleton|by apply Forall_singleton].
Qed.

Lemma apply_protects_and_reverts_witness :
  apply_unwrap_config (apply_wrap_to_config sample_config "/bin/vigil-hub" false true).1.1
  = (sample_config, 1%nat, 1%nat).
Proof.
  assert (every_server (λ _, clean) sample_config ∧ every_server pristine sample_config) as [Hc Hp].
  { split; (split; apply Forall_singleton; [|apply Forall_singleton]);
      try (apply Forall_singleton; reflexivity); (split; reflexivity). }
  exact (proj2 (proj2 (proj2 (proj2 (apply_protects_and_reverts "/bin/vigil-hub" true sample_config
    sample_config_wf Hc)))) Hp).
Defined.

Lemma identities_are_valid_and_apart_witness : validate_server_id (user_scope_server_id "Playwright") = Ok tt.
Proof. exact (proj1 identities_are_valid_and_apart "Playwright"). Defined.

(** An environment key that looks like the marker: the entry is wrapped, and is not
    taken for a wrapped one when it is to be restored. *)
Example marker_in_env_keys_is_stuck :
  let entry := JObj [("command", JStr "npx"); ("args", json_strs ["pkg"]);
                     ("env", JObj [("--vigil-managed-mcp", JStr "1")])] in
  let wrapped := (wrap_one "/bin/vigil-hub" true user_scope_server_id "a" entry).1 in
  is_wrappable (classify_one "a" entry) = true ∧ wrapped ≠ entry ∧
  is_already_wrapped (classify_one "a" wrapped) = false ∧ unwrap_entry wrapped = None.
Proof. vm_compute. split_and!; done. Qed.

(** Nothing after the dashes: classified as wrapped, but there is nothing to restore. *)
Example nothing_after_the_dashes :
  let entry := JObj [("command", JStr "vigil-hub");
                     ("args", json_strs ["wrap"; "--vigil-managed-mcp"; "--"])] in
  classify_one "a" entry = McpServerClass.AlreadyWrapped "a" ∧ unwrap_entry entry = None.
Proof. split; reflexivity. Qed.
