(* ===== verification/SetupToml.v ===== *)
(** * The configurations in TOML

    [src/apps/vigil-hub-cli/src/setup_mcp.rs], the surfaces of Codex and Grok: the
    tables [[mcp_servers.<name>]], read as JSON and classified as the entries of the
    other agents are, wrapped and unwrapped in place; and the list of the agents with
    configurations in JSON, some of whose directories the environment names. *)

From S2P Require Import Prelude Text Types Json Deps Extract Files Setup SetupMcp Documents SetupHooks.

(** [value_to_json] and [item_to_json]. *)
Fixpoint tv_json (v : TomlValue) : Value :=
  match v with
  | TvNone | TvFloat None => JNull
  | TvString s | TvDatetime s => JStr s
  | TvInteger n => JNum n
  | TvFloat (Some number) => JFloat number
  | TvBool b => JBool b
  | TvArray l => JArr (map tv_json l)
  | TvTable fields => JObj (collect_map (map (λ kv, (kv.1, tv_json kv.2)) fields))
  | TvTables l => JArr (map (λ fields, JObj (collect_map (map (λ kv, (kv.1, tv_json kv.2)) fields))) l)
  end.

Section Documents.
Context `{Toml}.

Definition item_to_json (item : Item) : Value := tv_json (toml_content item).

Definition codex_servers_table (doc : Table) : option Table := table_at "mcp_servers" doc.

Definition ensure_codex_root_shape (doc : Table) (path : string) : result SetupError unit :=
  match toml_get "mcp_servers" doc with
  | None => Ok tt
  | Some i => if bool_decide (is_Some (as_table_like i)) then Ok tt else bad_shape path "mcp_servers"
  end.

(** What is left of an entry that is a table, with [command] and [args] written. *)
Definition set_codex_command_args (entry : Item) (command : string) (args : list string) : Item :=
  match as_table_like entry with
  | Some tbl =>
      put_table (toml_insert "args" (value_strs args) (toml_insert "command" (value_str command) tbl)) entry
  | None => entry
  end.

Definition classify_codex_servers (doc : Table) : list McpServerClass :=
  match codex_servers_table doc with
  | None => []
  | Some servers => (λ e, classify_one e.1 (item_to_json e.2)) <$> toml_entries servers
  end.

(** The turn of a loop over entries: [servers.get_mut(&name)], and what becomes of the
    entry, if anything. *)
Definition change_entry (acc : Table * nat) (change : string * (Item → option Item)) : Table * nat :=
  let '(servers, changed) := acc in
  match toml_get change.1 servers ≫= change.2 with
  | Some entry => (toml_assign change.1 entry servers, S changed)
  | None => acc
  end.

(** The servers of a document changed in place. *)
Definition change_servers (doc : Table) (changes : Table → list (string * (Item → option Item)))
    : Table * nat :=
  match toml_get "mcp_servers" doc with
  | Some item =>
      match as_table_like item with
      | Some servers =>
          let '(servers', changed) := foldl change_entry (servers, 0%nat) (changes servers) in
          (toml_assign "mcp_servers" (put_table servers' item) doc, changed)
      | None => (doc, 0%nat)
      end
  | None => (doc, 0%nat)
  end.

Definition wrap_toml_entry (exe : string) (monitor : bool) (id_of : string → string) (name command : string)
    (args env_keys : list string) (entry : Item) : option Item :=
  match wrapped_argv exe (id_of name) command args env_keys monitor with
  | program :: rest => Some (set_codex_command_args entry program rest)
  | [] => None
  end.

(** The entries to wrap, chosen before any is changed. *)
Definition wrap_plan (exe : string) (monitor : bool) (id_of : string → string) (servers : Table)
    : list (string * (Item → option Item)) :=
  omap (λ e, match classify_one e.1 (item_to_json e.2) with
             | McpServerClass.Wrappable name command args env_keys =>
                 Some (name, wrap_toml_entry exe monitor id_of name command args env_keys)
             | _ => None
             end) (toml_entries servers).

Definition apply_wrap_to_toml_servers (doc : Table) (exe : string) (monitor : bool)
    (id_of : string → string) : Table * nat :=
  change_servers doc (wrap_plan exe monitor id_of).

Definition apply_wrap_to_codex `{Crates} (doc : Table) (exe : string) (monitor : bool) : Table * nat :=
  apply_wrap_to_toml_servers doc exe monitor codex_scope_server_id.

(** The command line an entry restores, if it is Vigil's and nothing but strings. *)
Definition restored_command (entry : Item) : option (string * list string) :=
  restored ← unwrap_entry (item_to_json entry);
  cmd ← json_get "command" restored ≫= as_str;
  arr ← json_get "args" restored ≫= as_array;
  if forallb is_string arr then Some (cmd, omap as_str arr) else None.

Definition unwrap_toml_entry (entry : Item) : option Item :=
  '(cmd, args) ← restored_command entry;
  Some (set_codex_command_args entry cmd args).

Definition apply_unwrap_codex (doc : Table) : Table * nat :=
  change_servers doc (λ servers, (λ name, (name, unwrap_toml_entry)) <$> (toml_entries servers).*1).
End Documents.

Record CodexPreviewReport := mkCodexPreviewReport {
  cp_codex_config : string;
  cp_exists : bool;
  cp_exe : string;
  cp_servers : list McpServerClass;
  cp_monitor : bool;
}.

Definition wrappable_count (r : CodexPreviewReport) : nat := count_if is_wrappable (cp_servers r).

Record CodexApplyReport := mkCodexApplyReport {
  cr_codex_config : string;
  cr_changed : nat;
  cr_dry_run : bool;
  cr_backup : option string;
}.

Record JsonAgentApplyReport := mkJsonAgentApplyReport {
  jr_display_name : string;
  jr_config_path : string;
  jr_changed : nat;
  jr_dry_run : bool;
  jr_backup : option string;
}.

Record JsonAgentPreviewReport := mkJsonAgentPreviewReport {
  jp_display_name : string;
  jp_config_path : string;
  jp_exists : bool;
  jp_exe : string;
  jp_servers : list McpServerClass;
  jp_monitor : bool;
  jp_id_prefix : string;
}.

(** The values of [CODEX_HOME], [PI_CODING_AGENT_DIR] or [PI_AGENT_DIR], and
    [VIGIL_CLINE_MCP_PATH]. *)
Record AgentEnv := mkAgentEnv {
  en_codex_home : option string;
  en_pi_agent_dir : option string;
  en_cline_mcp_path : option string;
}.

Section Agents.
Context `{Host} `{FileSystem}.

Definition pi (home : string) (pi_agent_dir_env : option string) : JsonMcpAgent :=
  let dir := resolve_agent_dir home pi_agent_dir_env (path_push (path_push home ".pi") "agent") in
  mkJsonMcpAgent (path_push dir "mcp.json") "pi".

(** The first path of the chain at which there is a file, or else its head;
    [Path::is_file], no error, only no. *)
Fixpoint first_file (chain : list string) (otherwise : string) : SetupM string :=
  match chain with
  | [] => ret otherwise
  | p :: rest => λ d,
      let '(there, d') := exists_ p d in
      match there with
      | Ok true => (Ok p, d')
      | _ => first_file rest otherwise d'
      end
  end.

Definition codebuddy (home : string) : SetupM JsonMcpAgent :=
  let preferred := path_push (path_push home ".codebuddy") ".mcp.json" in
  let! path := first_file [preferred; path_push (path_push home ".codebuddy") "mcp.json";
                           path_push home ".codebuddy.json"] preferred in
  ret (mkJsonMcpAgent path "codebuddy").

Definition cline (home : string) (cline_mcp_path_env : option string) : JsonMcpAgent :=
  let default_path :=
    foldl path_push home [".config"; "Code"; "User"; "globalStorage"; "saoudrizwan.claude-dev"; "settings";
                          "cline_mcp_settings.json"] in
  mkJsonMcpAgent (resolve_agent_dir home cline_mcp_path_env default_path) "cline".

Definition all_json_mcp_agents (home : string) (env : AgentEnv) : SetupM (list JsonMcpAgent) :=
  let! buddy := codebuddy home in
  ret [cursor home; windsurf home; kimi home; pi home (en_pi_agent_dir env); gemini home; buddy;
       cline home (en_cline_mcp_path env)].
End Agents.

Section Running.
Context `{Crates} `{Host} `{Toml} `{FileSystem}.

Definition codex_config_path (home : string) (codex_home_env : option string) : string :=
  path_push (resolve_codex_home home codex_home_env) "config.toml".

Definition grok_config_path (home : string) : string := path_push (path_push home ".grok") "config.toml".

Definition read_codex_config (path : string) : SetupM (option Table) :=
  let! meta := map_io "" path (attempt (metadata path)) in
  match meta with
  | Err IoError.NotFound => ret None
  | Err _ => throw (SetupError.Io "stat Codex config" path)
  | Ok (_, len) =>
      if (MAX_CLAUDE_JSON_BYTES <? len)%Z then throw (SetupError.MalformedConfig path)
      else
        let! raw := map_io "read Codex config" path (read_to_string path) in
        match toml_parse raw with
        | Some d => ret (Some d)
        | None => throw (SetupError.MalformedConfig path)
        end
  end.

(** Read and classified: whether the file is there, and its servers. *)
Definition preview_toml (path : string) : SetupM (bool * list McpServerClass) :=
  let! doc := read_codex_config path in
  match doc with
  | Some d => lift (ensure_codex_root_shape d path) ;! ret (true, classify_codex_servers d)
  | None => ret (false, [])
  end.

Definition run_codex_preview (home : string) (codex_home_env : option string) (exe : string)
    (monitor : bool) : SetupM CodexPreviewReport :=
  let path := codex_config_path home codex_home_env in
  let! seen := preview_toml path in
  let '(exists_, servers) := seen in
  ret (mkCodexPreviewReport path exists_ exe servers monitor).

(** What the surfaces do with a configuration that is there. *)
Definition rewrite_toml (path : string) (dry_run : bool) (stamp : Z * Z) (new : Table * nat)
    : SetupM (nat * option string) :=
  let '(doc, changed) := new in
  let! backup :=
    if negb dry_run && (0 <? changed)%nat
    then atomic_write_str_with_backup path (toml_print doc) (Some stamp) else ret None in
  ret (changed, backup).

Definition apply_toml (path exe : string) (dry_run monitor : bool) (id_of : string → string)
    : SetupM (nat * option string) :=
  let! read := read_codex_config path in
  match read with
  | None => ret (0%nat, None)
  | Some doc =>
      lift (ensure_codex_root_shape doc path) ;!
      lift (match codex_servers_table doc with
            | Some servers => ensure_unique_server_ids (toml_entries servers).*1 id_of path
            | None => Ok tt
            end) ;!
      let! stamp := stamp_for_existing path in
      rewrite_toml path dry_run stamp (apply_wrap_to_toml_servers doc exe monitor id_of)
  end.

Definition uninstall_toml (path : string) (dry_run : bool) : SetupM (nat * option string) :=
  let! read := read_codex_config path in
  match read with
  | None => ret (0%nat, None)
  | Some doc =>
      lift (ensure_codex_root_shape doc path) ;!
      let! stamp := stamp_for_existing path in
      rewrite_toml path dry_run stamp (apply_unwrap_codex doc)
  end.

Definition run_codex_apply (home : string) (codex_home_env : option string) (exe : string)
    (dry_run monitor : bool) : SetupM CodexApplyReport :=
  let path := codex_config_path home codex_home_env in
  let! done := apply_toml path exe dry_run monitor codex_scope_server_id in
  ret (mkCodexApplyReport path done.1 dry_run done.2).

Definition run_codex_uninstall (home : string) (codex_home_env : option string) (dry_run : bool)
    : SetupM CodexApplyReport :=
  let path := codex_config_path home codex_home_env in
  let! done := uninstall_toml path dry_run in
  ret (mkCodexApplyReport path done.1 dry_run done.2).

Definition run_grok_preview (home exe : string) (monitor : bool) : SetupM JsonAgentPreviewReport :=
  let path := grok_config_path home in
  let! seen := preview_toml path in
  let '(exists_, servers) := seen in
  ret (mkJsonAgentPreviewReport "Grok CLI" path exists_ exe servers monitor "grok").

Definition run_grok_apply (home exe : string) (dry_run monitor : bool) : SetupM JsonAgentApplyReport :=
  let path := grok_config_path home in
  let! done := apply_toml path exe dry_run monitor grok_scope_server_id in
  ret (mkJsonAgentApplyReport "Grok CLI" path done.1 dry_run done.2).

Definition run_grok_uninstall (home : string) (dry_run : bool) : SetupM JsonAgentApplyReport :=
  let path := grok_config_path home in
  let! done := uninstall_toml path dry_run in
  ret (mkJsonAgentApplyReport "Grok CLI" path done.1 dry_run done.2).
End Running.
