(* ===== verification/SetupTomlProps.v ===== *)
(** * What wrapping servers in TOML guarantees

    The servers that can be wrapped are, they are recognised afterwards, and taking
    the gateway out again restores their command lines; nothing else in the document
    changes. *)

From S2P Require Import Prelude Text Types Json Deps Concrete Files Setup SetupMcp SetupMcpProps Documents SetupToml.

(** ** Entries as JSON *)

(** The command line the arguments of an entry restore. *)
Definition from_args (v : TomlValue) : option (string * list string) :=
  match v with
  | TvArray l =>
      restored ← unwrap_entry (JObj [("args", JArr (map tv_json l))]);
      cmd ← json_get "command" restored ≫= as_str;
      arr ← json_get "args" restored ≫= as_array;
      if forallb is_string arr then Some (cmd, omap as_str arr) else None
  | _ => None
  end.

Lemma unwrap_reads_args f g l :
  assoc_get "args" f = Some (JArr l) → assoc_get "args" g = Some (JArr l) →
  (∀ k, k = "command" ∨ k = "args" →
     (unwrap_entry (JObj f) ≫= json_get k) = (unwrap_entry (JObj g) ≫= json_get k)) ∧
  (is_Some (unwrap_entry (JObj f)) ↔ is_Some (unwrap_entry (JObj g))).
Proof.
  intros Hf Hg. unfold unwrap_entry. cbn [as_object mbind option_bind]. rewrite Hf, Hg.
  cbv [mbind option_bind as_array]. destruct (negb _); [done|].
  destruct (sentinel_pos l) as [sent|]; [|done]. destruct (head _) as [x|]; [|done].
  destruct (as_str x) as [c|]; [|done]. split; [|by split].
  intros k Hk. cbn [json_get]. rewrite !set_command_get. by destruct Hk as [->| ->].
Qed.

Section Entries.
Context `{TomlLaws}.

Lemma item_json_get i t k : as_table_like i = Some t →
  ∃ f, item_to_json i = JObj f ∧ assoc_get k f = item_to_json <$> toml_get k t.
Proof.
  intros Ht. unfold item_to_json at 1. rewrite (toml_table_content i t Ht). cbn [tv_json].
  set (l := map _ _). assert (l.*1 = (toml_entries t).*1) as Hk.
  { unfold l. induction (toml_entries t) as [|[k' i'] r IH]; [done|]. simpl. f_equal. apply IH. }
  assert (NoDup l.*1) as Hd by (rewrite Hk; apply toml_entries_keys).
  rewrite (collect_map_nodup l Hd). exists l. split; [done|].
  assert (∀ v, (k, v) ∈ l ↔ ∃ i', (k, i') ∈ toml_entries t ∧ v = item_to_json i') as Hin.
  { intros v. unfold l, item_to_json. clear Hk Hd. induction (toml_entries t) as [|[k' i'] r IH]; simpl.
    - split; [by intros Hx%elem_of_nil|]. intros (? & Hx%elem_of_nil & _). done.
    - rewrite elem_of_cons, IH. setoid_rewrite elem_of_cons. naive_solver. }
  destruct (toml_get k t) as [i'|] eqn:E; simpl.
  - apply assoc_get_elem; [done|]. apply Hin. exists i'. split; [by apply toml_entries_get|done].
  - destruct (assoc_get k l) as [v|] eqn:Ea; [|done].
    apply assoc_get_elem in Ea; [|done]. apply Hin in Ea as (i' & Hi & _).
    apply toml_entries_get in Hi. congruence.
Qed.

Lemma item_json_other i : as_table_like i = None → as_object (item_to_json i) = None.
Proof.
  intros Ht. unfold item_to_json. pose proof (toml_content_table i) as E. rewrite Ht in E. simpl in E.
  destruct (toml_content i) as [| | |[]| | | | |]; done.
Qed.

Lemma restored_args i t : as_table_like i = Some t →
  restored_command i = leaf_of "args" t ≫= from_args.
Proof.
  intros Ht. destruct (item_json_get i t "args" Ht) as (f & Hf & Ha). unfold restored_command. rewrite Hf.
  unfold leaf_of. destruct (toml_get "args" t) as [a|]; simpl in Ha.
  2:{ unfold unwrap_entry. cbn [as_object mbind option_bind]. by rewrite Ha. }
  unfold item_to_json in Ha. cbn [mbind option_bind].
  assert (∀ l, tv_json (toml_content a) = JArr l → is_managed_wrap_args l = false →
    unwrap_entry (JObj f) = None) as Hno.
  { intros l El Hl. unfold unwrap_entry. cbn [as_object mbind option_bind]. rewrite Ha, El.
    cbv [mbind option_bind as_array]. by rewrite Hl. }
  assert (as_array (tv_json (toml_content a)) = None → unwrap_entry (JObj f) = None) as Hna.
  { intros El. unfold unwrap_entry. cbn [as_object mbind option_bind]. rewrite Ha.
    cbv [mbind option_bind]. by rewrite El. }
  destruct (toml_content a) as [| | |[]| | |l| |l] eqn:Ec; cbn [leaf mbind option_bind from_args];
    try by rewrite Hna.
  - destruct (unwrap_reads_args f [("args", JArr (map tv_json l))] (map tv_json l) Ha eq_refl) as [Hg Hs].
    pose proof (Hg "command" (or_introl eq_refl)) as Hc. pose proof (Hg "args" (or_intror eq_refl)) as Hr.
    destruct (unwrap_entry (JObj f)) as [x|], (unwrap_entry (JObj [_])) as [y|]; simpl in Hc, Hr |- *.
    + by rewrite Hc, Hr.
    + destruct Hs as [Hs _]. by destruct Hs.
    + destruct Hs as [_ Hs]. by destruct Hs.
    + done.
  - rewrite (Hno _ eq_refl); [done|]. by destruct l.
Qed.

Lemma restored_other i : as_table_like i = None → restored_command i = None.
Proof.
  intros Ht. unfold restored_command, unwrap_entry. by rewrite (item_json_other i Ht).
Qed.

(** The command line has no tables in it. *)
Definition plain (t : Table) : Prop := table_at "command" t = None ∧ table_at "args" t = None.

Lemma no_table i : as_object (item_to_json i) = None → as_table_like i = None.
Proof.
  intros Ho. destruct (as_table_like i) as [t|] eqn:Ht; [|done].
  destruct (item_json_get i t "" Ht) as (f & Hf & _). by rewrite Hf in Ho.
Qed.

Lemma wrappable_plain name i n command args env_keys :
  classify_one name (item_to_json i) = McpServerClass.Wrappable n command args env_keys →
  n = name ∧ ∃ t, as_table_like i = Some t ∧ plain t.
Proof.
  intros Hc. destruct (classify_wrappable _ _ _ _ _ _ Hc) as (-> & _ & f & cmd & Hf & Hcmd & _).
  split; [done|]. destruct (as_table_like i) as [t|] eqn:Ht.
  2:{ apply item_json_other in Ht. by rewrite Hf in Ht. }
  exists t. split; [done|]. unfold plain, table_at.
  destruct (item_json_get i t "command" Ht) as (f1 & Hf1 & H1).
  destruct (item_json_get i t "args" Ht) as (f2 & Hf2 & H2). rewrite Hf in Hf1, Hf2.
  injection Hf1 as <-. injection Hf2 as <-. split.
  - destruct (toml_get "command" t) as [c|]; [|done]. simpl in *. apply no_table.
    rewrite Hcmd in H1. by injection H1 as <-.
  - destruct (toml_get "args" t) as [a|] eqn:Ea; [|done]. simpl in *. apply no_table.
    destruct (item_to_json a) as [| | | | | |fields] eqn:Ej; try done. exfalso. revert Hc.
    unfold classify_one. rewrite Hf. cbn [json_get]. rewrite Hcmd, H2. simpl.
    by repeat case_match.
Qed.

(** Writing a command line into an entry. *)
Lemma set_leaves e t c a :
  as_table_like e = Some t → plain t →
  ∃ t', as_table_like (set_codex_command_args e c a) = Some t' ∧
    leaf_of "command" t' = Some (TvString c) ∧ leaf_of "args" t' = Some (TvArray (TvString <$> a)) ∧
    ∀ rest key, ¬ (rest = [] ∧ key ∈ ["command"; "args"]) → leaf_at rest key t' = leaf_at rest key t.
Proof.
  intros Ht [Hc Ha]. unfold set_codex_command_args. rewrite Ht. eexists.
  split; [apply toml_put_table; eauto|]. unfold leaf_of. split_and!.
  - rewrite toml_get_insert_ne, toml_get_insert by done. simpl. by rewrite toml_content_str.
  - rewrite toml_get_insert. simpl. by rewrite toml_content_strs.
  - assert (∀ v, tv_fields (toml_content v) = None → as_table_like v = None) as Hv.
    { intros v E. rewrite toml_content_table in E. by destruct (as_table_like v). }
    intros [|k rest] key Hn; cbn [leaf_at].
    + unfold leaf_of. rewrite !toml_get_insert_ne; [done|..]; intros ->; apply Hn; set_solver.
    + unfold table_at in *. destruct (decide (k = "args")) as [->|Hk1].
      { rewrite toml_get_insert, Ha. cbn [mbind option_bind]. rewrite Hv; [done|]. by rewrite toml_content_strs. }
      rewrite toml_get_insert_ne by done. destruct (decide (k = "command")) as [->|Hk2].
      { rewrite toml_get_insert, Hc. cbn [mbind option_bind]. rewrite Hv; [done|]. by rewrite toml_content_str. }
      by rewrite toml_get_insert_ne.
Qed.
End Entries.

(** ** Loops over entries *)

Section Loops.
Context `{TomlLaws}.

Definition effective (servers : Table) (c : string * (Item → option Item)) : bool :=
  bool_decide (is_Some (toml_get c.1 servers ≫= c.2)).

Lemma change_all changes servers s n :
  NoDup changes.*1 → foldl change_entry (servers, 0%nat) changes = (s, n) →
  (∀ k ch e, (k, ch) ∈ changes → toml_get k servers = Some e → toml_get k s = Some (default e (ch e))) ∧
  (∀ k, k ∉ changes.*1 ∨ toml_get k servers = None → toml_get k s = toml_get k servers) ∧
  n = count_if (effective servers) changes.
Proof.
  revert s n. induction changes as [|[k0 ch0] changes IH] using rev_ind; intros s n Hd.
  { intros [= <- <-]. split_and!; [|done|done]. intros k ch e Hin. by apply elem_of_nil in Hin. }
  rewrite fmap_app in Hd. apply NoDup_app in Hd as (Hd & Hx & _).
  assert (k0 ∉ changes.*1) as Hk0 by (intros Hin; by apply (Hx _ Hin); left).
  rewrite foldl_snoc. destruct (foldl change_entry (servers, 0%nat) changes) as [s0 n0] eqn:E0.
  destruct (IH _ _ Hd eq_refl) as (Hin0 & Hout0 & Hn0). unfold change_entry. cbn [fst snd].
  rewrite (Hout0 k0 (or_introl Hk0)). unfold count_if. rewrite List.filter_app, length_app. cbn [List.filter].
  assert (∀ k ch, (k, ch) ∈ changes → k ≠ k0) as Hne.
  { intros k ch Hin ->. apply Hk0. apply list_elem_of_fmap. by exists (k0, ch). }
  unfold effective at 2. cbn [fst snd]. destruct (toml_get k0 servers ≫= ch0) as [e'|] eqn:Ee; intros [= <- <-].
  - destruct (toml_get k0 servers) as [e0|] eqn:E; [|done]. simpl in Ee.
    rewrite bool_decide_true by eauto. split_and!.
    + intros k ch e Hin Hg. apply elem_of_app in Hin as [Hin|Hin%list_elem_of_singleton].
      * rewrite toml_get_assign_ne by by eapply Hne. by apply (Hin0 k ch).
      * injection Hin as -> ->. rewrite toml_get_assign. rewrite E in Hg. injection Hg as ->. by rewrite Ee.
    + intros k Hk. rewrite toml_get_assign_ne.
      * apply Hout0. destruct Hk as [Hk|Hk]; [|by right]. left. rewrite fmap_app in Hk. set_solver.
      * intros ->. rewrite fmap_app in Hk. destruct Hk as [Hk|Hk]; [set_solver|congruence].
    + simpl. unfold count_if in Hn0. lia.
  - rewrite bool_decide_false by by intros []. split_and!.
    + intros k ch e Hin Hg. apply elem_of_app in Hin as [Hin|Hin%list_elem_of_singleton]; [by apply (Hin0 k ch)|].
      injection Hin as -> ->. rewrite (Hout0 k0) by by left. rewrite Hg in *. simpl in Ee. by rewrite Ee.
    + intros k Hk. apply Hout0. destruct Hk as [Hk|Hk]; [|by right]. left. rewrite fmap_app in Hk. set_solver.
    + simpl. unfold count_if in Hn0. lia.
Qed.

Lemma count_if_keys {A} (f : string * A → bool) (g : string → bool) l :
  (∀ c, c ∈ l → f c = g c.1) → count_if f l = count_if g l.*1.
Proof.
  unfold count_if. induction l as [|c l IH]; intros Hl; [done|]. rewrite fmap_cons. cbn [List.filter].
  rewrite (Hl c) by left. assert (length (List.filter f l) = length (List.filter g l.*1)) as E
    by (apply IH; intros c' Hc; apply Hl; by right).
  destruct (g c.1); simpl; lia.
Qed.

(** The places of the command lines of some servers. *)
Definition command_line (W : string → Prop) (path : list string) (key : string) : Prop :=
  ∃ name, W name ∧ path = ["mcp_servers"; name] ∧ key ∈ ["command"; "args"].

(** A loop that writes command lines, where it writes anything. *)
Record writes (servers : Table) (changes : list (string * (Item → option Item)))
    (W : string → option (string * list string)) : Prop := {
  wr_keys : NoDup changes.*1;
  wr_change name ch e : (name, ch) ∈ changes → toml_get name servers = Some e →
    ch e = (λ ca, set_codex_command_args e ca.1 ca.2) <$> W name;
  wr_named name : is_Some (W name) → name ∈ changes.*1 ∧
    ∃ e t, toml_get name servers = Some e ∧ as_table_like e = Some t ∧ plain t;
}.

Lemma leaf_changed servers changes W s n :
  writes servers changes W → foldl change_entry (servers, 0%nat) changes = (s, n) →
  (∀ name c a, W name = Some (c, a) →
     leaf_at [name] "command" s = Some (TvString c) ∧
     leaf_at [name] "args" s = Some (TvArray (TvString <$> a))) ∧
  (∀ path key, ¬ (∃ name, is_Some (W name) ∧ path = [name] ∧ key ∈ ["command"; "args"]) →
     leaf_at path key s = leaf_at path key servers) ∧
  n = count_if (λ name, bool_decide (is_Some (W name))) changes.*1.
Proof.
  intros Hw Hf. destruct (change_all _ _ _ _ (wr_keys _ _ _ Hw) Hf) as (Hin & Hout & Hn).
  assert (∀ name e t c a, W name = Some (c, a) → toml_get name servers = Some e → as_table_like e = Some t →
    toml_get name s = Some (set_codex_command_args e c a)) as Hset.
  { intros name e t c a HW Hg Ht. destruct (wr_named _ _ _ Hw name) as (Hc & _); [by rewrite HW; eauto|].
    apply list_elem_of_fmap in Hc as ([k ch] & -> & Hc). simpl in *.
    rewrite (Hin k ch e Hc Hg). by rewrite (wr_change _ _ _ Hw k ch e Hc Hg), HW. }
  assert (∀ name, W name = None → toml_get name s = toml_get name servers) as Hkeep.
  { intros name HW. destruct (decide (name ∈ changes.*1)) as [Hc|Hc]; [|by apply Hout; left].
    apply list_elem_of_fmap in Hc as ([k ch] & -> & Hc). simpl in *.
    destruct (toml_get k servers) as [e|] eqn:Hg; [|rewrite <- Hg; by apply Hout; right].
    rewrite (Hin k ch e Hc Hg). by rewrite (wr_change _ _ _ Hw k ch e Hc Hg), HW. }
  split_and!.
  - intros name c a HW. destruct (wr_named _ _ _ Hw name) as (_ & e & t & Hg & Ht & Hp); [by rewrite HW; eauto|].
    destruct (set_leaves e t c a Ht Hp) as (t' & Ht' & Hc & Ha & _). cbn [leaf_at]. unfold table_at.
    rewrite (Hset name e t c a HW Hg Ht). cbn [mbind option_bind]. by rewrite Ht'.
  - intros [|name rest] key Hno; cbn [leaf_at].
    + unfold leaf_of. destruct (W key) as [[c a]|] eqn:HW; [|by rewrite Hkeep].
      destruct (wr_named _ _ _ Hw key) as (_ & e & t & Hg & Ht & Hp); [by rewrite HW; eauto|].
      destruct (set_leaves e t c a Ht Hp) as (t' & Ht' & _).
      rewrite (Hset key e t c a HW Hg Ht), Hg. cbn [mbind option_bind].
      by rewrite (toml_table_content _ _ Ht), (toml_table_content _ _ Ht').
    + unfold table_at. destruct (W name) as [[c a]|] eqn:HW; [|by rewrite Hkeep].
      destruct (wr_named _ _ _ Hw name) as (_ & e & t & Hg & Ht & Hp); [by rewrite HW; eauto|].
      destruct (set_leaves e t c a Ht Hp) as (t' & Ht' & _ & _ & Hsame).
      rewrite (Hset name e t c a HW Hg Ht), Hg. cbn [mbind option_bind]. rewrite Ht, Ht'.
      apply Hsame. intros [-> Hk]. apply Hno. exists name. by rewrite HW; eauto.
  - rewrite Hn. apply count_if_keys. intros [k ch] Hc. unfold effective. cbn [fst snd].
    apply bool_decide_ext. destruct (W k) as [[c a]|] eqn:HW.
    + destruct (wr_named _ _ _ Hw k) as (_ & e & t & Hg & _); [by rewrite HW; eauto|].
      rewrite Hg. cbn [mbind option_bind]. rewrite (wr_change _ _ _ Hw k ch e Hc Hg), HW. split; intros _; by eexists.
    + destruct (toml_get k servers) as [e|] eqn:Hg; [|split; by intros []]. cbn [mbind option_bind].
      rewrite (wr_change _ _ _ Hw k ch e Hc Hg), HW. split; by intros [].
Qed.

(** The same in a document. *)
Lemma servers_changed doc changes t W d n :
  codex_servers_table doc = Some t → writes t (changes t) W → change_servers doc changes = (d, n) →
  (∀ name c a, W name = Some (c, a) →
     leaf_at ["mcp_servers"; name] "command" d = Some (TvString c) ∧
     leaf_at ["mcp_servers"; name] "args" d = Some (TvArray (TvString <$> a))) ∧
  (∀ path key, ¬ command_line (λ name, is_Some (W name)) path key → leaf_at path key d = leaf_at path key doc) ∧
  n = count_if (λ name, bool_decide (is_Some (W name))) (changes t).*1.
Proof.
  unfold codex_servers_table, table_at, change_servers. intros Ht Hw.
  destruct (toml_get "mcp_servers" doc) as [item|] eqn:Ei; [|done]. cbn [mbind option_bind] in Ht. rewrite Ht.
  destruct (foldl _ _ _) as [s n'] eqn:Ef. intros [= <- <-].
  destruct (leaf_changed _ _ _ _ _ Hw Ef) as (Hset & Hsame & Hn).
  assert (as_table_like (put_table s item) = Some s) as Hs by (apply toml_put_table; eauto).
  assert (∀ rest key, leaf_at ("mcp_servers" :: rest) key (toml_assign "mcp_servers" (put_table s item) doc)
    = leaf_at rest key s) as Hin.
  { intros rest key. cbn [leaf_at]. unfold table_at. rewrite toml_get_assign. cbn [mbind option_bind]. by rewrite Hs. }
  split_and!; [|intros [|k rest] key Hno|done].
  - intros name c a HW. rewrite !Hin. by apply Hset.
  - cbn [leaf_at]. unfold leaf_of. destruct (decide (key = "mcp_servers")) as [->|Hne].
    + rewrite toml_get_assign, Ei. cbn [mbind option_bind].
      by rewrite (toml_table_content _ _ Ht), (toml_table_content _ _ Hs).
    + by rewrite toml_get_assign_ne.
  - destruct (decide (k = "mcp_servers")) as [->|Hne].
    + rewrite Hin, Hsame; [cbn [leaf_at]; unfold table_at; rewrite Ei; cbn [mbind option_bind]; by rewrite Ht|].
      intros (name & HW & -> & Hk). apply Hno. by exists name.
    + cbn [leaf_at]. unfold table_at. by rewrite toml_get_assign_ne.
Qed.
End Loops.

(** ** Wrapping and unwrapping a document *)

Section Surface.
Context `{TomlLaws} (exe : string) (monitor : bool) (id_of : string → string).
Context (Hid : ∀ name, is_sentinel_token (id_of name) = false).

(** What is written for a server. *)
Definition wrap_of (servers : Table) (name : string) : option (string * list string) :=
  e ← toml_get name servers;
  match classify_one name (item_to_json e) with
  | McpServerClass.Wrappable _ command args env_keys =>
      Some (exe, tail (wrapped_argv exe (id_of name) command args env_keys monitor))
  | _ => None
  end.

Lemma wrap_of_class servers name ca :
  wrap_of servers name = Some ca ↔
  ∃ e command args env_keys, toml_get name servers = Some e ∧
    classify_one name (item_to_json e) = McpServerClass.Wrappable name command args env_keys ∧
    ca = (exe, tail (wrapped_argv exe (id_of name) command args env_keys monitor)).
Proof.
  unfold wrap_of. destruct (toml_get name servers) as [e|]; cbn [mbind option_bind]; [|naive_solver].
  split.
  - destruct (classify_one name (item_to_json e)) as [n command args env_keys| |] eqn:E; try done.
    destruct (wrappable_plain _ _ _ _ _ _ E) as [-> _]. intros [= <-]. by exists e, command, args, env_keys.
  - intros (e' & command & args & env_keys & [= <-] & Hc & ->). by rewrite Hc.
Qed.

Lemma plan_elem servers name ch :
  (name, ch) ∈ wrap_plan exe monitor id_of servers ↔
  ∃ e command args env_keys, toml_get name servers = Some e ∧
    classify_one name (item_to_json e) = McpServerClass.Wrappable name command args env_keys ∧
    ch = wrap_toml_entry exe monitor id_of name command args env_keys.
Proof.
  unfold wrap_plan. rewrite list_elem_of_omap. split.
  - intros ([k e] & Hin & Hc). simpl in Hc. apply toml_entries_get in Hin.
    destruct (classify_one k (item_to_json e)) as [n command args env_keys| |] eqn:E; try done.
    destruct (wrappable_plain _ _ _ _ _ _ E) as [-> _]. injection Hc as <- <-.
    by exists e, command, args, env_keys.
  - intros (e & command & args & env_keys & Hg & Hc & ->). exists (name, e).
    split; [by apply toml_entries_get|]. simpl. by rewrite Hc.
Qed.

Lemma plan_keys servers : NoDup (wrap_plan exe monitor id_of servers).*1.
Proof.
  unfold wrap_plan. pose proof (toml_entries_keys servers) as Hd.
  induction (toml_entries servers) as [|[k e] l IH]; [by apply NoDup_nil_2|].
  rewrite fmap_cons in Hd. apply NoDup_cons in Hd as [Hn Hd]. cbn [omap list_omap fst snd].
  destruct (classify_one k (item_to_json e)) as [n command args env_keys| |] eqn:E; [|by apply IH..].
  destruct (wrappable_plain _ _ _ _ _ _ E) as [-> _]. rewrite fmap_cons. apply NoDup_cons.
  split; [|by apply IH]. intros Hin. apply Hn. apply list_elem_of_fmap in Hin as ([k' ch] & Heq & Hin).
  simpl in Heq. subst k'. apply list_elem_of_omap in Hin as ([k' e'] & Hin & Hc). simpl in *.
  destruct (classify_one k' (item_to_json e')) as [n' ? ? ?| |] eqn:E'; try done.
  destruct (wrappable_plain _ _ _ _ _ _ E') as [-> _]. injection Hc as -> _.
  apply list_elem_of_fmap. by exists (k, e').
Qed.

Lemma wrap_writes servers : writes servers (wrap_plan exe monitor id_of servers) (wrap_of servers).
Proof.
  split; [apply plan_keys|..].
  - intros name ch e Hin Hg. apply plan_elem in Hin as (e' & command & args & env_keys & Hg' & Hc & ->).
    rewrite Hg in Hg'. injection Hg' as <-. unfold wrap_of. rewrite Hg. cbn [mbind option_bind].
    rewrite Hc. done.
  - intros name [ca Hw]. apply wrap_of_class in Hw as (e & command & args & env_keys & Hg & Hc & _).
    destruct (wrappable_plain _ _ _ _ _ _ Hc) as (_ & t & Ht & Hp). split; [|by exists e, t].
    apply list_elem_of_fmap. eexists (name, _). split; [done|]. apply plan_elem.
    by exists e, command, args, env_keys.
Qed.

(** What taking the gateway out writes. *)
Definition unwrap_of (servers : Table) (name : string) : option (string * list string) :=
  leaf_at [name] "args" servers ≫= from_args.

Lemma unwrap_of_get servers name e :
  toml_get name servers = Some e → unwrap_of servers name = restored_command e.
Proof.
  intros Hg. unfold unwrap_of. cbn [leaf_at]. unfold table_at. rewrite Hg. cbn [mbind option_bind].
  destruct (as_table_like e) as [t|] eqn:Ht; cbn [mbind option_bind].
  - symmetry. by apply restored_args.
  - symmetry. by apply restored_other.
Qed.

Lemma unwrap_writes servers :
  (∀ name t, is_Some (unwrap_of servers name) → table_at name servers = Some t → plain t) →
  writes servers ((λ name, (name, unwrap_toml_entry)) <$> (toml_entries servers).*1) (unwrap_of servers).
Proof.
  intros Hp. assert (((λ name, (name, unwrap_toml_entry)) <$> (toml_entries servers).*1).*1
    = (toml_entries servers).*1) as E.
  { induction (toml_entries servers).*1 as [|k l IH]; [done|]. rewrite !fmap_cons. f_equal. apply IH. }
  split; rewrite ?E.
  - apply toml_entries_keys.
  - intros name ch e Hin Hg. apply list_elem_of_fmap in Hin as (k & [= -> ->] & _).
    rewrite (unwrap_of_get _ _ _ Hg). unfold unwrap_toml_entry.
    by destruct (restored_command e) as [[c a]|].
  - intros name Hu. specialize (Hp name). revert Hp. pose proof Hu as [ca Hca]. revert Hca.
    unfold unwrap_of at 1. cbn [leaf_at]. unfold table_at.
    destruct (toml_get name servers) as [e|] eqn:Hg; [|done]. cbn [mbind option_bind].
    destruct (as_table_like e) as [t|] eqn:Ht; [|done]. intros _ Hp. split.
    + apply list_elem_of_fmap. exists (name, e). split; [done|]. by apply toml_entries_get.
    + exists e, t. split_and!; [done|done|]. by apply Hp.
Qed.

(** The arguments of a wrapped entry restore its command line. *)
Lemma from_wrapped name command args env_keys :
  no_sentinel env_keys →
  from_args (TvArray (TvString <$> tail (wrapped_argv exe (id_of name) command args env_keys monitor)))
  = Some (command, args).
Proof.
  intros Hk. rewrite wrapped_argv_split. cbn [tail from_args].
  assert (∀ l, map tv_json (TvString <$> l) = JStr <$> l) as Hm
    by (intros l; induction l as [|x l IH]; [done|]; simpl; f_equal; apply IH).
  rewrite Hm. fold (wrapped_args (id_of name) command args env_keys monitor).
  destruct (unwrap_reads_args [("args", JArr (wrapped_args (id_of name) command args env_keys monitor))]
    (set_command exe (wrapped_args (id_of name) command args env_keys monitor) [])
    (wrapped_args (id_of name) command args env_keys monitor)) as [Hg Hs]; [done|by rewrite set_command_get|].
  rewrite unwrap_wrapped in Hg, Hs by done.
  destruct (unwrap_entry (JObj [_])) as [r|]; [|by destruct Hs as [_ []]; [eexists|]].
  pose proof (Hg "command" (or_introl eq_refl)) as Hc. pose proof (Hg "args" (or_intror eq_refl)) as Ha.
  cbn [mbind option_bind] in Hc, Ha |- *. rewrite Hc, Ha. cbn [json_get]. rewrite !set_command_get. simpl.
  by rewrite forallb_strs, omap_strs.
Qed.
Lemma class_elem doc t name command args env_keys :
  codex_servers_table doc = Some t →
  McpServerClass.Wrappable name command args env_keys ∈ classify_codex_servers doc ↔
  ∃ e, toml_get name t = Some e ∧
    classify_one name (item_to_json e) = McpServerClass.Wrappable name command args env_keys.
Proof.
  intros Ht. unfold classify_codex_servers. rewrite Ht, list_elem_of_fmap. split.
  - intros ([k e] & Hc & Hin). simpl in Hc. apply toml_entries_get in Hin. symmetry in Hc.
    destruct (wrappable_plain _ _ _ _ _ _ Hc) as [-> _]. by exists e.
  - intros (e & Hg & Hc). exists (name, e). split; [by symmetry|]. by apply toml_entries_get.
Qed.

Lemma plan_count servers :
  length (wrap_plan exe monitor id_of servers)
  = count_if is_wrappable ((λ e, classify_one e.1 (item_to_json e.2)) <$> toml_entries servers).
Proof.
  unfold wrap_plan, count_if. induction (toml_entries servers) as [|e l IH]; [done|].
  rewrite fmap_cons. cbn [omap list_omap List.filter]. destruct (classify_one _ _); simpl; [f_equal|..]; apply IH.
Qed.

Lemma wrapped_count servers :
  count_if (λ name, bool_decide (is_Some (wrap_of servers name))) (wrap_plan exe monitor id_of servers).*1
  = length (wrap_plan exe monitor id_of servers).
Proof.
  unfold count_if. rewrite <- (length_fmap fst (wrap_plan _ _ _ _)). f_equal.
  assert (∀ k, k ∈ (wrap_plan exe monitor id_of servers).*1 → is_Some (wrap_of servers k)) as Hall.
  { intros k Hin. apply list_elem_of_fmap in Hin as ([k' ch] & -> & Hin). simpl.
    apply plan_elem in Hin as (e & command & args & env_keys & Hg & Hc & _).
    eexists. apply wrap_of_class. by exists e, command, args, env_keys. }
  induction (wrap_plan exe monitor id_of servers).*1 as [|k l IH]; [done|]. cbn [List.filter].
  rewrite bool_decide_true by (apply Hall; by left). f_equal. apply IH. intros k' Hk. apply Hall. by right.
Qed.

Lemma leaf_no_table key t v : leaf_of key t = Some v → table_at key t = None.
Proof.
  unfold leaf_of, table_at. destruct (toml_get key t) as [i|]; [|done]. cbn [mbind option_bind].
  destruct (as_table_like i) as [t'|] eqn:Ht; [|done]. by rewrite (toml_table_content _ _ Ht).
Qed.

Lemma leaf_json i t key v : as_table_like i = Some t → leaf_of key t = Some v →
  json_get key (item_to_json i) = Some (tv_json v).
Proof.
  intros Ht Hl. destruct (item_json_get i t key Ht) as (f & -> & Hg). cbn [json_get]. rewrite Hg.
  unfold leaf_of in Hl. destruct (toml_get key t) as [a|]; [|done]. cbn [mbind option_bind] in Hl.
  simpl. unfold item_to_json. by destruct (toml_content a); simplify_eq/=.
Qed.

Lemma count_same (f g : string → bool) l l' :
  NoDup l → NoDup l' → (∀ k, k ∈ l ∧ f k = true ↔ k ∈ l' ∧ g k = true) → count_if f l = count_if g l'.
Proof.
  intros Hl Hl' He. unfold count_if. apply Permutation_length, NoDup_Permutation.
  - rewrite NoDup_ListNoDup in *. by apply List.NoDup_filter.
  - rewrite NoDup_ListNoDup in *. by apply List.NoDup_filter.
  - intros k. rewrite !list_elem_of_In, !filter_In, <- !list_elem_of_In. apply He.
Qed.

(** A document with the gateway in it, printed and read again. *)
Section Again.
Context (doc t wrapped v : Table) (n : nat).
Context (Ht : codex_servers_table doc = Some t).
Context (Hclean : ∀ name e, toml_get name t = Some e → restored_command e = None).
Context (Hkeys : ∀ name command args env_keys,
  McpServerClass.Wrappable name command args env_keys ∈ classify_codex_servers doc → no_sentinel env_keys).
Context (Hwrap : apply_wrap_to_toml_servers doc exe monitor id_of = (wrapped, n)).
Context (Hv : ∀ path key, leaf_at path key v = leaf_at path key wrapped).

Lemma again_leaves :
  (∀ name c a, wrap_of t name = Some (c, a) →
     leaf_at ["mcp_servers"; name] "command" v = Some (TvString c) ∧
     leaf_at ["mcp_servers"; name] "args" v = Some (TvArray (TvString <$> a))) ∧
  (∀ path key, ¬ command_line (λ name, is_Some (wrap_of t name)) path key →
     leaf_at path key v = leaf_at path key doc) ∧
  n = count_if is_wrappable (classify_codex_servers doc).
Proof.
  destruct (servers_changed _ _ _ _ _ _ Ht (wrap_writes t) Hwrap) as (Hset & Hsame & Hn). split_and!.
  - intros name c a Hw. rewrite !Hv. by apply Hset.
  - intros path key Hno. rewrite Hv. by apply Hsame.
  - rewrite Hn, wrapped_count, plan_count. unfold classify_codex_servers. by rewrite Ht.
Qed.

Lemma again_restores name :
  leaf_at ["mcp_servers"; name] "args" v ≫= from_args
  = e ← toml_get name t;
    match classify_one name (item_to_json e) with
    | McpServerClass.Wrappable _ command args _ => Some (command, args)
    | _ => None
    end.
Proof.
  destruct again_leaves as (Hset & Hsame & _). destruct (wrap_of t name) as [[c a]|] eqn:Hw.
  - destruct (Hset _ _ _ Hw) as [_ ->]. cbn [mbind option_bind].
    apply wrap_of_class in Hw as (e & command & args & env_keys & Hg & Hc & [= -> ->]).
    rewrite Hg. cbn [mbind option_bind]. rewrite Hc. apply from_wrapped. eapply Hkeys.
    apply (class_elem _ _ _ _ _ _ Ht). by exists e.
  - rewrite Hsame.
    2:{ intros (name' & [ca Hw'] & [= <-] & _). congruence. }
    unfold wrap_of in Hw. destruct (toml_get name t) as [e|] eqn:Hg; cbn [mbind option_bind] in Hw |- *.
    + assert (leaf_at ["mcp_servers"; name] "args" doc ≫= from_args = restored_command e) as ->.
      { rewrite <- (unwrap_of_get t name e Hg). unfold unwrap_of. f_equal.
        unfold codex_servers_table in Ht. cbn [leaf_at]. by rewrite Ht. }
      rewrite (Hclean name e Hg). by destruct (classify_one _ _).
    + unfold codex_servers_table in Ht. cbn [leaf_at]. rewrite Ht. cbn [mbind option_bind].
      unfold table_at. by rewrite Hg.
Qed.
Lemma again_table name e command args env_keys :
  toml_get name t = Some e →
  classify_one name (item_to_json e) = McpServerClass.Wrappable name command args env_keys →
  ∃ t2 e2 te, codex_servers_table v = Some t2 ∧ toml_get name t2 = Some e2 ∧ as_table_like e2 = Some te ∧
    leaf_of "command" te = Some (TvString exe) ∧
    leaf_of "args" te
    = Some (TvArray (TvString <$> tail (wrapped_argv exe (id_of name) command args env_keys monitor))).
Proof.
  intros Hg Hc. destruct again_leaves as (Hset & _).
  destruct (Hset name exe (tail (wrapped_argv exe (id_of name) command args env_keys monitor))) as [H1 H2].
  { apply wrap_of_class. by exists e, command, args, env_keys. }
  cbn [leaf_at] in H1, H2. unfold codex_servers_table.
  destruct (table_at "mcp_servers" v) as [t2|]; [|done]. cbn [mbind option_bind] in H1, H2.
  unfold table_at in H1, H2. destruct (toml_get name t2) as [e2|] eqn:Hg2; [|done]. cbn [mbind option_bind] in H1, H2.
  destruct (as_table_like e2) as [te|] eqn:Hte; [|done]. by exists t2, e2, te.
Qed.

Lemma again_known name e command args env_keys :
  toml_get name t = Some e →
  classify_one name (item_to_json e) = McpServerClass.Wrappable name command args env_keys →
  McpServerClass.AlreadyWrapped name ∈ classify_codex_servers v.
Proof.
  intros Hg Hc. destruct (again_table _ _ _ _ _ Hg Hc) as (t2 & e2 & te & Ht2 & Hg2 & Hte & H1 & H2).
  unfold classify_codex_servers. rewrite Ht2. apply list_elem_of_fmap. exists (name, e2).
  split; [|by apply toml_entries_get]. simpl. unfold classify_one.
  rewrite (leaf_json _ _ _ _ Hte H1), (leaf_json _ _ _ _ Hte H2), wrapped_argv_split.
  cbn [tail tv_json as_str as_array mbind option_bind].
  assert (∀ l, map tv_json (TvString <$> l) = JStr <$> l) as ->
    by (intros l; induction l as [|x l IH]; [done|]; simpl; f_equal; apply IH).
  fold (wrapped_args (id_of name) command args env_keys monitor).
  unfold classify_managed. rewrite wrapped_is_managed; [done|apply Hid|].
  eapply Hkeys. apply (class_elem _ _ _ _ _ _ Ht). by exists e.
Qed.

(** Taking the gateway out of it. *)
Lemma again_undone back m :
  apply_unwrap_codex v = (back, m) →
  m = n ∧
  (∀ name command args env_keys, McpServerClass.Wrappable name command args env_keys ∈ classify_codex_servers doc →
     leaf_at ["mcp_servers"; name] "command" back = Some (TvString command) ∧
     leaf_at ["mcp_servers"; name] "args" back = Some (TvArray (TvString <$> args))) ∧
  (∀ path key, ¬ command_line (λ name, is_Some (wrap_of t name)) path key →
     leaf_at path key back = leaf_at path key doc).
Proof.
  intros Hu. destruct again_leaves as (_ & Hsame & Hn).
  destruct (codex_servers_table v) as [t2|] eqn:Ht2.
  2:{ assert (∀ name command args env_keys,
        McpServerClass.Wrappable name command args env_keys ∈ classify_codex_servers doc → False) as Hno.
      { intros name command args env_keys (e & Hg & Hc)%(class_elem _ _ _ _ _ _ Ht).
        destruct (again_table _ _ _ _ _ Hg Hc) as (? & ? & ? & ? & _). congruence. }
      revert Hu. unfold apply_unwrap_codex, change_servers. unfold codex_servers_table, table_at in Ht2.
      destruct (toml_get "mcp_servers" v) as [item|]; cbn [mbind option_bind] in Ht2; rewrite ?Ht2;
        intros [= <- <-]; (split_and!; [|intros; exfalso; eauto|exact Hsame]).
      all: rewrite Hn; unfold count_if; destruct (List.filter _ _) as [|c l] eqn:E; [done|]; exfalso;
        assert (In c (c :: l)) as Hin by (by left); rewrite <- E in Hin; apply filter_In in Hin as [Hin Hc];
        destruct c; try done; eapply Hno; by apply list_elem_of_In. }
  assert (∀ name, unwrap_of t2 name = leaf_at ["mcp_servers"; name] "args" v ≫= from_args) as Hun.
  { intros name. unfold unwrap_of. f_equal. unfold codex_servers_table in Ht2. cbn [leaf_at]. by rewrite Ht2. }
  assert (∀ name, is_Some (unwrap_of t2 name) ↔ is_Some (wrap_of t name)) as Hboth.
  { intros name. rewrite Hun, again_restores. unfold wrap_of.
    destruct (toml_get name t) as [e|]; cbn [mbind option_bind]; [|done].
    destruct (classify_one _ _); [split; by eexists|done..]. }
  assert (writes t2 ((λ name, (name, unwrap_toml_entry)) <$> (toml_entries t2).*1) (unwrap_of t2)) as Hw.
  { apply unwrap_writes. intros name te Hs Hte. apply Hboth in Hs as [ca Hca].
    apply wrap_of_class in Hca as (e & command & args & env_keys & Hg & Hc & _).
    destruct (again_table _ _ _ _ _ Hg Hc) as (t2' & e2 & te' & Ht2' & Hg2 & Hte' & H1 & H2).
    rewrite Ht2 in Ht2'. injection Ht2' as <-. unfold table_at in Hte. rewrite Hg2 in Hte.
    cbn [mbind option_bind] in Hte. rewrite Hte' in Hte. injection Hte as <-.
    split; by eapply leaf_no_table. }
  destruct (servers_changed _ _ _ _ _ _ Ht2 Hw Hu) as (Hset & Hsame2 & Hm). split_and!.
  - rewrite Hm, Hn. unfold classify_codex_servers. rewrite Ht, <- plan_count, <- wrapped_count.
    apply count_same; [apply Hw|apply plan_keys|]. intros name. rewrite !bool_decide_eq_true, Hboth.
    split; intros [_ Hs]; (split; [|done]).
    + by destruct (wr_named _ _ _ (wrap_writes t) name Hs).
    + apply Hboth in Hs. by destruct (wr_named _ _ _ Hw name Hs).
  - intros name command args env_keys (e & Hg & Hc)%(class_elem _ _ _ _ _ _ Ht). apply Hset.
    rewrite Hun, again_restores, Hg. cbn [mbind option_bind]. by rewrite Hc.
  - intros path key Hno. rewrite Hsame2; [by apply Hsame|]. intros (name & Hs & Hp). apply Hno.
    exists name. split; [by apply Hboth|done].
Qed.
End Again.
End Surface.

(** The command lines of the servers that can be wrapped. *)
Definition wrappable_line `{Toml} (doc : Table) (path : list string) (key : string) : Prop :=
  command_line (λ name, ∃ command args env_keys,
    McpServerClass.Wrappable name command args env_keys ∈ classify_codex_servers doc) path key.


(** ** The agents *)

(** No two agents share a prefix of their identities, and none has that of another
    surface. *)
Lemma prefixes_are_own `{Host} `{FileSystem} home env d agents d' :
  all_json_mcp_agents home env d = (Ok agents, d') →
  NoDup (ja_id_prefix <$> agents) ∧
  ∀ p, p ∈ ja_id_prefix <$> agents → p ∉ ["user"; "local"; "codex"; "zcode"; "grok"; "opencode"].
Proof.
  unfold all_json_mcp_agents, codebuddy, bind. destruct (first_file _ _ d) as [[path|e] d1]; [|done].
  intros [= <- _]. split.
  - by apply (bool_decide_unpack _).
  - apply Forall_forall. by apply (bool_decide_unpack _).
Qed.

(** ** Witness *)

Import Toy.

Definition sample_toml : Table :=
  [("model", JStr "m");
   ("mcp_servers", JObj [("fetch", JObj [("command", JStr "npx"); ("args", json_strs ["-y"; "fetch"]);
                                         ("env", JObj [("TOKEN", JStr "t")])]);
                         ("far", JObj [("url", JStr "https://x")])])].


