(* ===== verification/ExtractProps.v ===== *)
(** * What the extractors guarantee

    They only add; the catalog never hides an effect; the containment test on
    paths is the one on path components; and with them, what the firewall lets
    through unasked is said in terms of the call itself. *)

From S2P Require Import Prelude Types Text Policy PolicyFacts Scorer Deps Concrete Db Hash Ledger LedgerFacts Approvals ApprovalFacts Scans Registry Oracle RegistryFacts RegistryProps Redact Preflight Firewall FirewallProps Extract.

(** ** Growth *)

(** Nothing that [e] says is missing from [e']. *)
Record grows (e e' : EffectVector) : Prop := mkGrows {
  g_effects : effects e ⊆ effects e';
  g_read : paths_read e ⊆ paths_read e';
  g_write : paths_write e ⊆ paths_write e';
  g_hosts : network_hosts e ⊆ network_hosts e';
  g_refs : Types.secret_refs e ⊆ Types.secret_refs e';
  g_recipients : recipients e ⊆ recipients e';
  g_destructive : destructive e = true → destructive e' = true;
}.

#[export] Instance grows_preorder : PreOrder grows.
Proof.
  split; [by intros e; split|].
  intros e1 e2 e3 H1 H2. destruct H1, H2. split; (etrans; eassumption) || auto.
Qed.

(** An update that only adds, and adds to more when given more. *)
Definition additive (f : EffectVector → EffectVector) : Prop :=
  (∀ e, grows e (f e)) ∧ ∀ e e', grows e e' → grows (f e) (f e').

Lemma additive_id : additive (λ e, e).
Proof. by split. Qed.

Lemma additive_compose f g : additive f → additive g → additive (λ e, g (f e)).
Proof.
  intros [Hf1 Hf2] [Hg1 Hg2]. split; [|by auto]. intros e. by etrans; [apply Hf1|apply Hg1].
Qed.

Lemma app_subset {A} (l l' k : list A) : l ⊆ l' → l ++ k ⊆ l' ++ k.
Proof. set_solver. Qed.

Lemma subset_app {A} (l k : list A) : l ⊆ l ++ k.
Proof. set_solver. Qed.

Ltac adds :=
  split; [intros e; split; simpl; auto using subset_app
         |intros e e' [????? ??]; split; simpl; auto using app_subset].

Lemma additive_push k : additive (push_effect k).
Proof. adds. Qed.
Lemma additive_read l : additive (extend_read l).
Proof. adds. Qed.
Lemma additive_write l : additive (extend_write l).
Proof. adds. Qed.
Lemma additive_hosts l : additive (extend_hosts l).
Proof. adds. Qed.
Lemma additive_refs l : additive (extend_secret_refs l).
Proof. adds. Qed.
Lemma additive_recipients l : additive (extend_recipients l).
Proof. adds. Qed.
Lemma additive_set_destructive : additive set_destructive.
Proof. adds. Qed.

#[export] Hint Resolve additive_id additive_compose additive_push additive_read additive_write additive_hosts
  additive_refs additive_recipients additive_set_destructive : vigil.

Lemma additive_if b : additive (destructive_if b).
Proof. unfold destructive_if. destruct b; auto with vigil. Qed.

Lemma elem_of_push_new e k j : j ∈ effects (push_new e k) ↔ j ∈ effects e ∨ j = k.
Proof.
  unfold push_new. destruct (contains_effect k (effects e)) eqn:Hk; simpl; [|set_solver].
  apply contains_effect_elem in Hk. naive_solver.
Qed.

Lemma additive_push_new k : additive (λ e, push_new e k).
Proof.
  split.
  - intros e. unfold push_new. destruct (contains_effect _ _); [done|apply additive_push].
  - intros e e' Hg. split; try (unfold push_new; do 2 destruct (contains_effect _ _); apply Hg).
    intros j. rewrite !elem_of_push_new. intros [Hj| ->]; [left; by apply Hg|by right].
Qed.

#[export] Hint Resolve additive_if additive_push_new : vigil.

Lemma additive_foldl {A} (f : EffectVector → A → EffectVector) l :
  (∀ x, additive (λ e, f e x)) → additive (λ e, foldl f e l).
Proof.
  intros Hf. induction l as [|x l IH]; simpl; [apply additive_id|].
  exact (additive_compose _ _ (Hf x) IH).
Qed.

Lemma additive_entry call entry : additive (λ e, apply_entry call e entry).
Proof.
  unfold apply_entry. destruct (entry_matches call entry); [|apply additive_id].
  apply (additive_compose (λ e, foldl push_new e (ce_effects entry))); [|apply additive_if].
  apply additive_foldl. apply additive_push_new.
Qed.

Lemma entries_add call entry k l e :
  entry ∈ l → entry_matches call entry = true → k ∈ ce_effects entry →
  k ∈ effects (foldl (apply_entry call) e l).
Proof.
  intros (l1 & l2 & ->)%list_elem_of_split Hm Hk. rewrite foldl_app. simpl.
  apply (g_effects _ _ (proj1 (additive_foldl (apply_entry call) l2 (additive_entry call)) _)).
  generalize (foldl (apply_entry call) e l1). intros b. unfold apply_entry. rewrite Hm.
  apply (g_effects _ _ (proj1 (additive_if (ce_destructive entry)) _)). revert b.
  induction (ce_effects entry) as [|j ks IH]; [by apply not_elem_of_nil in Hk|]. intros b. simpl.
  apply elem_of_cons in Hk as [<-|Hk]; [|by apply IH].
  apply (g_effects _ _ (proj1 (additive_foldl push_new ks additive_push_new) _)).
  apply elem_of_push_new. by right.
Qed.

Section Growth.
Context `{Crates} `{TextCrates} `{FileSystem}.

Lemma additive_sql s : additive (λ e, apply_sql e s).
Proof.
  unfold apply_sql. destruct (_ && _); [apply additive_push|].
  destruct (regex_is_match DESTRUCTIVE_SQL s); [|apply additive_push].
  apply (additive_compose (push_effect EffectKind.DbWrite)); auto with vigil.
Qed.

Ltac pushes := apply (additive_compose (push_effect _)); auto with vigil.

Lemma builtin_additive roots call : Forall (λ ex : EffectExtractor, additive (ex call)) (builtin_extractors roots).
Proof.
  repeat apply Forall_cons_2; [..|by apply Forall_nil].
  - apply additive_foldl, additive_entry.
  - unfold PathExtractor. destruct (collect_paths _); [apply additive_id|].
    destruct (is_write_call _); pushes.
  - unfold UrlExtractor. destruct (collect_hosts _); [apply additive_id|pushes].
  - apply additive_foldl, additive_sql.
  - unfold ShellExtractor. destruct (shell_argv _) as [| |[|x l]]; try apply additive_id; pushes.
  - unfold EmailExtractor. destruct (collect_recipients _); [apply additive_id|pushes].
  - unfold SecretRefExtractor. destruct (collect_secret_refs _); [apply additive_id|pushes].
  - unfold BrowserActionExtractor. destruct (submits _); [pushes|apply additive_id].
Qed.

Lemma run_additive call exs :
  Forall (λ ex : EffectExtractor, additive (ex call)) exs → additive (λ e, foldl (λ e ex, ex call e) e exs).
Proof.
  induction 1 as [|ex exs Hex _ IH]; simpl; [apply additive_id|].
  exact (additive_compose _ _ Hex IH).
Qed.
End Growth.

(** ** Removing duplicates *)

Lemma elem_of_retain_first k l seen : k ∈ seen ∨ k ∈ retain_first seen l ↔ k ∈ seen ∨ k ∈ l.
Proof.
  revert seen. induction l as [|x l IH]; intros seen; simpl; [done|].
  destruct (contains_effect x seen) eqn:Hx.
  - apply contains_effect_elem in Hx. rewrite IH, elem_of_cons. naive_solver.
  - specialize (IH (x :: seen)). rewrite !elem_of_cons in *. naive_solver.
Qed.

Lemma elem_of_dedup x l : x ∈ dedup l ↔ x ∈ l.
Proof.
  induction l as [|a l IH]; [done|]. destruct l as [|b l]; [done|]. cbn [dedup].
  destruct (String.eqb_spec a b) as [->|].
  - rewrite IH. set_solver.
  - rewrite !(elem_of_cons _ x a), IH. done.
Qed.

Lemma elem_of_sort_dedup x l : x ∈ sort_dedup l ↔ x ∈ l.
Proof. unfold sort_dedup. by rewrite elem_of_dedup, Sort.elem_of_sort. Qed.

Lemma dedup_grows e : grows e (dedup_effects e) ∧ grows (dedup_effects e) e.
Proof.
  split; (split; simpl; [|intros x; by rewrite elem_of_sort_dedup..|done]);
    intros k; pose proof (elem_of_retain_first k (effects e) []); set_solver.
Qed.

Lemma dedup_mono e e' : grows e e' → grows (dedup_effects e) (dedup_effects e').
Proof. intros Hg. etrans; [apply dedup_grows|]. etrans; [exact Hg|]. apply dedup_grows. Qed.

(** ** The catalog hides nothing *)

Section Catalog.
Context `{Crates} `{TextCrates} `{FileSystem}.

(** The firewall of [with_scanner], its catalog left out. *)
Definition without_catalog (fw : Firewall) : Firewall :=
  mkFirewall (fw_policy fw) (fw_scorer fw) (tail (fw_extractors fw)) (fw_config fw).

(** The extractors only add. Whatever the call, no extractor takes away an
    effect, a path, a host, a secret, a recipient or the destructive flag another
    one has found; and the effects found with the catalog include all that would
    be found without it. *)
Theorem extractors_only_add policy cfg call :
  let fw := with_scanner policy cfg in
  Forall (λ ex : EffectExtractor, ∀ e, grows e (ex call e)) (fw_extractors fw) ∧
  grows (extract_effects (without_catalog fw) call) (extract_effects fw call).
Proof.
  cbv zeta. pose proof (builtin_additive (fc_project_roots cfg) call) as Hall. split.
  - apply (Forall_impl _ _ _ Hall). intros ex Hex. apply Hex.
  - apply dedup_mono. unfold builtin_extractors in Hall. apply Forall_cons in Hall as [Hex Hexs].
    apply (run_additive call _ Hexs). apply Hex.
Qed.
End Catalog.

(** ** What passes unasked *)

Section Allowed.
Context `{CratesLaws} `{Redaction} `{PiiScanner} `{!PiiScannerLaws}.
Context `{TextCrates} `{FileSystem}.

#[local] Existing Instance RegistryDescriptorOracle.

(** Some extractor has added to a vector that ends in the effects of the call. *)
Lemma extractor_ran policy cfg call ex :
  ex ∈ builtin_extractors (fc_project_roots cfg) →
  ∃ e, grows (ex call e) (extract_effects (with_scanner policy cfg) call).
Proof.
  intros (l & k & E)%list_elem_of_split.
  exists (foldl (λ e ex, ex call e) effect_vector_default l).
  unfold extract_effects. simpl fw_extractors. rewrite E, foldl_app. simpl.
  etrans; [|apply (proj1 (dedup_grows _))].
  pose proof (builtin_additive (fc_project_roots cfg) call) as Hall. rewrite E in Hall.
  apply Forall_app in Hall as [_ Hall]. apply Forall_cons in Hall as [_ Hall].
  apply (run_additive call k Hall).
Qed.

Section Effects.
Context (policy : PolicyEngine) (cfg : FirewallConfig) (call : ToolInvocation).

Let found := extract_effects (with_scanner policy cfg) call.
Let args := ti_args call.

Ltac ran n ex :=
  let e := fresh "e" in let Hg := fresh "Hg" in
  destruct (extractor_ran policy cfg call ex) as [e Hg]; [by apply (list_elem_of_lookup_2 _ n)|].

Lemma paths_found :
  collect_paths args ≠ [] →
  if is_write_call (ti_tool_name call)
  then EffectKind.FsWrite ∈ effects found
       ∧ Forall (λ p, canonicalize (fc_project_roots cfg) p ∈ paths_write found) (collect_paths args)
  else Forall (λ p, canonicalize (fc_project_roots cfg) p ∈ paths_read found) (collect_paths args).
Proof.
  intros Hne. ran 1 (PathExtractor (fc_project_roots cfg)). unfold PathExtractor in Hg. change (ti_args call) with args in Hg.
  destruct (collect_paths args) as [|p ps]; [done|].
  destruct (is_write_call _); [split|].
  - apply Hg. set_solver.
  - apply Forall_forall. intros q Hq. apply Hg. simpl. apply elem_of_app. right.
    by apply (list_elem_of_fmap_2 (canonicalize _) (p :: ps)).
  - apply Forall_forall. intros q Hq. apply Hg. simpl. apply elem_of_app. right.
    by apply (list_elem_of_fmap_2 (canonicalize _) (p :: ps)).
Qed.

Lemma hosts_found :
  collect_hosts args ≠ [] →
  EffectKind.NetOutbound ∈ effects found ∧ collect_hosts args ⊆ network_hosts found.
Proof.
  intros Hne. ran 2 UrlExtractor. unfold UrlExtractor in Hg. change (ti_args call) with args in Hg.
  destruct (collect_hosts args) as [|h hs]; [done|]. split.
  - apply Hg. set_solver.
  - etrans; [|apply Hg]. simpl. set_solver.
Qed.

Lemma command_found :
  shell_argv args ≠ NoCommand → shell_argv args ≠ Argv [] → EffectKind.ExecNative ∈ effects found.
Proof.
  intros H1' H2'. ran 4 ShellExtractor. unfold ShellExtractor in Hg. change (ti_args call) with args in Hg. apply Hg.
  destruct (shell_argv args) as [| |[|x l]]; try done; unfold destructive_if;
    try destruct (is_destructive_argv _); set_solver.
Qed.

Lemma recipients_found : collect_recipients args ≠ [] → EffectKind.CommSend ∈ effects found.
Proof.
  intros Hne. ran 5 EmailExtractor. unfold EmailExtractor in Hg. change (ti_args call) with args in Hg. apply Hg.
  destruct (collect_recipients args); [done|]. set_solver.
Qed.

Lemma refs_found : collect_secret_refs args ≠ [] → EffectKind.SecretUse ∈ effects found.
Proof.
  intros Hne. ran 6 SecretRefExtractor. unfold SecretRefExtractor in Hg. change (ti_args call) with args in Hg. apply Hg.
  destruct (collect_secret_refs args); [done|]. set_solver.
Qed.

Lemma submit_found : submits call = true → EffectKind.BrowserSubmit ∈ effects found.
Proof.
  intros Hs. ran 7 BrowserActionExtractor. unfold BrowserActionExtractor in Hg. rewrite Hs in Hg. apply Hg. set_solver.
Qed.

Lemma sql_found q :
  q ∈ flat_map (field_str args) SQL_KEYS → regex_is_match DESTRUCTIVE_SQL q = true →
  EffectKind.DbWrite ∈ effects found ∧ destructive found = true.
Proof.
  intros (l & k & E)%list_elem_of_split Hq. ran 3 SqlExtractor. unfold SqlExtractor in Hg. change (ti_args call) with args in Hg.
  rewrite E, foldl_app in Hg. simpl in Hg.
  assert (grows (set_destructive (push_effect EffectKind.DbWrite (foldl apply_sql e l))) found) as Hf.
  { etrans; [|exact Hg]. etrans; [|apply (proj1 (additive_foldl apply_sql k additive_sql))].
    unfold apply_sql at 2. rewrite Hq, andb_false_r. done. }
  split; [apply Hf; set_solver|by apply Hf].
Qed.

Lemma catalog_found entry k :
  entry ∈ CATALOG → entry_matches call entry = true → k ∈ ce_effects entry →
  k ∈ effects found.
Proof.
  intros He Hm Hk. destruct (extractor_ran policy cfg call CatalogExtractor) as [e Hg].
  { apply (list_elem_of_lookup_2 _ 0). exact eq_refl. }
  apply (g_effects _ _ Hg). exact (entries_add call entry k CATALOG e He Hm Hk).
Qed.
End Effects.

(** A list of which membership of [x] would contradict [P] is empty. *)
Lemma nil_or {A} (l : list A) (P : Prop) : (l ≠ [] → P) → ¬ P → l = [].
Proof. destruct l; [done|]. intros Hp Hn. exfalso. by apply Hn, Hp. Qed.

End Allowed.

(** ** Witness *)

Section Toy.
Import Toy.

#[local] Existing Instance toy_rules.
#[local] Existing Instance DefaultScanner.

Definition builtin_firewall : Firewall :=
  with_scanner (engine_new default_ruleset) (mkFirewallConfig ["/p"] [] ∅ 300 100).

Lemma builtin_allowed :
  is_allowed (evaluate builtin_firewall sample_readings sample_call
                OAuthScopeContext.NonOauth sample_state).1 = true.
Proof. vm_compute. reflexivity. Qed.


(** A newline separates commands for a shell; here it is white space between two
    words, and the second command is an argument of the first. *)
Example newline_hides_second_command :
  let call cmd := mkToolInvocation "i" "s" "srv" "run" (JObj [("command", JStr cmd)]) "" 0 in
  destructive (ShellExtractor (call "true; rm -rf build") effect_vector_default) = true
  ∧ is_destructive_argv ["true"; "rm"; "-rf"; "build"] = false.
Proof. vm_compute. split; reflexivity. Qed.
End Toy.
