(* ===== verification/PathProps.v ===== *)
(** * Containment of paths

    The paths the policy compares as texts are in a normal form in which the
    comparison of texts is the comparison of components: nothing escapes from a
    project root by way of [..]. *)

From stdpp Require Import list.
From S2P Require Import Prelude Types Text Policy Deps Concrete Firewall Extract.

(** ** The normal form *)

Definition no_byte (c : ascii) (s : string) : bool := Str.all (λ a, negb (Ascii.eqb a c)) s.

Definition name_ok (n : string) : Prop :=
  n ≠ "" ∧ n ≠ "." ∧ n ≠ ".." ∧ no_byte "/" n = true.

(** The absolute path with these names. *)
Fixpoint path_body (names : list string) : string :=
  match names with
  | [] => ""
  | n :: rest => "/" +:+ (n +:+ path_body rest)
  end.

Definition path_text (names : list string) : string :=
  match names with
  | [] => "/"
  | _ => path_body names
  end.

(** Where one ends up who follows [names] from [here], as a shell does: [..]
    leads to the parent, and from the root back to the root. *)
Fixpoint walk (here names : list string) : list string :=
  match names with
  | [] => here
  | n :: rest =>
      walk (if String.eqb n "" || String.eqb n "." then here
            else if String.eqb n ".." then removelast here
            else here ++ [n]) rest
  end.

(** ** Splitting at slashes *)

Lemma split_char_app c n X :
  no_byte c n = true → (X = "" ∨ ∃ Y, X = String c Y) →
  split_char c (n +:+ X) = n :: tail (split_char c X).
Proof.
  intros Hn HX. induction n as [|a n IH].
  - change ("" +:+ X) with X. destruct HX as [->|[Y ->]]; [done|].
    cbn [split_char]. by rewrite Ascii.eqb_refl.
  - cbn [no_byte Str.all] in Hn. apply andb_true_iff in Hn as [Ha Hn]. apply negb_true_iff in Ha.
    rewrite Str.append_cons. cbn [split_char]. by rewrite Ha, (IH Hn).
Qed.

Lemma split_char_no_byte c s n : n ∈ split_char c s → no_byte c n = true.
Proof.
  revert n. induction s as [|a s IH]; intros n; cbn [split_char].
  { intros ->%list_elem_of_singleton. done. }
  destruct (Ascii.eqb a c) eqn:Ha.
  - intros [->|Hn]%elem_of_cons; [done|by apply IH].
  - destruct (split_char c s) as [|x rest].
    + intros ->%list_elem_of_singleton. cbn. by rewrite Ha.
    + intros [->|Hn]%elem_of_cons; [|apply IH; by right].
      cbn. rewrite Ha. apply (IH x). by left.
Qed.

Lemma split_slash X : split_char "/" (String "/" X) = "" :: split_char "/" X.
Proof. done. Qed.

Lemma split_body names :
  Forall name_ok names → split_char "/" (path_body names) = "" :: names.
Proof.
  induction 1 as [|n names (_ & _ & _ & Hn) _ IH]; [done|].
  cbn [path_body]. change ("/" +:+ ?x) with (String "/" x). rewrite split_slash, split_char_app.
  - by rewrite IH.
  - done.
  - destruct names; [by left|right; by eexists].
Qed.

Lemma split_body_slash names t :
  Forall name_ok names →
  split_char "/" (path_body names +:+ String "/" t) = "" :: names ++ split_char "/" t.
Proof.
  induction 1 as [|n names (_ & _ & _ & Hn) _ IH]; [done|].
  cbn [path_body]. rewrite <- !Str.append_assoc. change ("/" +:+ ?x) with (String "/" x).
  rewrite split_slash, split_char_app.
  - by rewrite IH.
  - done.
  - right. destruct names; by eexists.
Qed.

Lemma body_app a b : path_body (a ++ b) = path_body a +:+ path_body b.
Proof. induction a as [|n a IH]; [done|]. simpl. by rewrite IH, !Str.append_assoc. Qed.

Lemma body_slash names : names ≠ [] → ∃ t, path_body names = String "/" t.
Proof. destruct names; [done|]. by eexists. Qed.

Lemma no_final_byte n u : n ≠ "" → no_byte "/" n = true → Str.ends_with "/" (u +:+ n) = false.
Proof.
  intros Hne Hn. induction u as [|a u IH].
  - change ("" +:+ n) with n. clear Hne. induction n as [|a n IH]; [done|].
    cbn [no_byte Str.all] in Hn. apply andb_true_iff in Hn as [Ha Hn].
    cbn [Str.ends_with]. rewrite (IH Hn), orb_false_r. apply String.eqb_neq.
    intros [= <- _]. done.
  - rewrite Str.append_cons. cbn [Str.ends_with]. rewrite IH, orb_false_r.
    apply String.eqb_neq. intros [= _ E]. symmetry in E. by apply Str.append_eq_nil in E as [_ ->].
Qed.

Lemma body_no_final_slash names :
  Forall name_ok names → Str.ends_with "/" (path_body names) = false.
Proof.
  intros Hok. destruct names as [|n rest _] using rev_ind; [done|].
  apply Forall_app in Hok as [_ [(Hne & _ & _ & Hn) _]%Forall_cons].
  rewrite body_app. cbn [path_body]. rewrite Str.append_nil_r, Str.append_assoc.
  by apply no_final_byte.
Qed.

(** ** Containment *)

Lemma is_under_prefix a b :
  Forall name_ok a → Forall name_ok b →
  is_under (path_text a) (path_text b) = true ↔ b `prefix_of` a.
Proof.
  intros Ha Hb. unfold is_under. destruct b as [|n b'] eqn:Eb.
  { split; [intros _; apply prefix_nil|intros _]. cbn [path_text Str.ends_with String.eqb Ascii.eqb].
    apply orb_true_iff. right. by destruct a. }
  rewrite <- Eb in *. assert (path_text b = path_body b) as -> by by rewrite Eb.
  rewrite (body_no_final_slash b Hb), orb_true_iff, String.eqb_eq, Str.starts_with_spec.
  split.
  - intros [E|[t E]].
    + destruct a as [|m a'].
      { exfalso. cbn [path_text] in E. apply (f_equal (split_char "/")) in E.
        rewrite (split_body b Hb), Eb in E. rewrite Eb in Hb.
        apply Forall_cons in Hb as [(Hne & _) _]. injection E as E _. by destruct Hne. }
      cbn [path_text] in E. apply (f_equal (split_char "/")) in E.
      rewrite !split_body in E by done. by injection E as ->.
    + rewrite <- Str.append_assoc in E. change ("/" +:+ t) with (String "/" t) in E.
      destruct a as [|m a'].
      { exfalso. cbn [path_text] in E. apply (f_equal (split_char "/")) in E.
        rewrite (split_body_slash b t Hb), Eb in E. rewrite Eb in Hb.
        apply Forall_cons in Hb as [(Hne & _) _]. simpl in E. injection E as E _. by destruct Hne. }
      cbn [path_text] in E. apply (f_equal (split_char "/")) in E.
      rewrite split_body, split_body_slash in E by done. injection E as ->.
      by eexists.
  - intros [k ->]. assert (path_text (b ++ k) = path_body (b ++ k)) as -> by by rewrite Eb.
    rewrite body_app. destruct k as [|m k]; [left; by rewrite Str.append_nil_r|right].
    destruct (body_slash (m :: k)) as [t ->]; [done|]. exists t. by rewrite <- Str.append_assoc.
Qed.

(** ** Normalising *)

Definition stack (names : list string) : list Component :=
  map Component.Normal (rev names) ++ [Component.RootDir].

Lemma normalize_walk names here :
  foldl normalize_step (stack here)
    (map component_of (List.filter (λ n, negb (String.eqb n "") && negb (String.eqb n ".")) names))
  = stack (walk here names).
Proof.
  revert here. induction names as [|n names IH]; intros here; [done|].
  cbn [List.filter walk]. rewrite <- IH. rewrite <- negb_orb.
  destruct (String.eqb n "" || String.eqb n "."); [done|]. cbn [negb map foldl].
  f_equal. unfold component_of. destruct (String.eqb n "..").
  - destruct here as [|m here _] using rev_ind; [done|].
    unfold stack. by rewrite removelast_last, rev_app_distr.
  - unfold stack. by rewrite rev_app_distr.
Qed.

Lemma walk_ok names here :
  Forall name_ok here → Forall (λ n, no_byte "/" n = true) names → Forall name_ok (walk here names).
Proof.
  intros Hh Hn. revert here Hh. induction Hn as [|n names Hn _ IH]; intros here Hh; [done|].
  cbn [walk]. apply IH.
  destruct (String.eqb_spec n ""), (String.eqb_spec n "."); try done. simpl.
  destruct (String.eqb_spec n "..").
  - destruct here as [|m here _] using rev_ind; [done|]. rewrite removelast_last.
    by apply Forall_app in Hh as [Hh _].
  - apply Forall_app. split; [done|]. by apply Forall_singleton.
Qed.

Lemma push_name here n :
  Forall name_ok here → name_ok n → path_push (path_text here) n = path_text (here ++ [n]).
Proof.
  intros Hh (Hne & _ & _ & Hn). unfold path_push.
  assert (is_absolute n = false) as ->.
  { destruct n as [|a n]; [done|]. cbn [no_byte Str.all] in Hn. apply andb_true_iff in Hn as [Ha _].
    unfold is_absolute. cbn [Str.starts_with]. rewrite andb_true_r, Ascii.eqb_sym.
    by apply negb_true_iff. }
  destruct here as [|m here]; [simpl; by rewrite Str.append_nil_r|].
  change (path_text (m :: here)) with (path_body (m :: here)).
  rewrite (body_no_final_slash (m :: here) Hh), orb_false_r.
  change (path_text ((m :: here) ++ [n])) with (path_body ((m :: here) ++ [n])).
  rewrite body_app. simpl. by rewrite Str.append_nil_r.
Qed.

Lemma path_of_stack names : Forall name_ok names → path_of (rev (stack names)) = path_text names.
Proof.
  intros Hok. unfold stack, path_of. rewrite rev_app_distr, <- map_rev, rev_involutive.
  change (rev [Component.RootDir]) with [Component.RootDir]. rewrite foldl_app.
  change (foldl _ "" [Component.RootDir]) with (path_text []).
  assert (∀ here, Forall name_ok here →
    foldl (λ buf c, path_push buf (Component.as_os_str c)) (path_text here)
      (map Component.Normal names) = path_text (here ++ names)) as Hf; [|by apply (Hf [])].
  induction Hok as [|n names Hn _ IH]; intros here Hh; simpl; [by rewrite app_nil_r|].
  rewrite push_name by done. rewrite IH, <- app_assoc; [done|].
  apply Forall_app. by split; [|apply Forall_singleton].
Qed.

Lemma manual_normalize_walk p :
  is_absolute p = true →
  let names := walk [] (split_char "/" p) in
  manual_normalize p = path_text names ∧ Forall name_ok names.
Proof.
  intros Ha. cbv zeta.
  assert (Forall name_ok (walk [] (split_char "/" p))) as Hok.
  { apply walk_ok; [done|]. apply Forall_forall. apply split_char_no_byte. }
  split; [|done]. unfold manual_normalize, components. rewrite Ha, foldl_app.
  change (foldl normalize_step [] [Component.RootDir]) with (stack []).
  rewrite normalize_walk. rewrite <- (path_of_stack _ Hok).
  assert (stack (walk [] (split_char "/" p)) ≠ []) as Hne.
  { unfold stack. by intros [_ ?]%app_eq_nil. }
  by destruct (stack (walk [] (split_char "/" p))).
Qed.

(** [dunce::canonicalize] returns the absolute path with every [.], [..] and link
    resolved. *)
Class FileSystemLaws `{FileSystem} : Prop :=
  fs_canonical p q : fs_canonicalize p = Some q → ∃ names, q = path_text names ∧ Forall name_ok names.

Lemma replace_none c r s : no_byte c s = true → str_replace (String c EmptyString) r s = s.
Proof.
  unfold str_replace. induction s as [|a s IH]; [done|].
  cbn [no_byte Str.all]. intros [Ha Hs]%andb_true_iff. cbn [replace_from Str.starts_with].
  rewrite andb_true_r, Ascii.eqb_sym. apply negb_true_iff in Ha. rewrite Ha. by rewrite IH.
Qed.

Lemma to_posix_plain p : no_byte "\" p = true → to_posix p = p.
Proof.
  intros Hp. unfold to_posix, strip_prefix. destruct (Str.starts_with "\\?\" p) eqn:E.
  - apply Str.starts_with_spec in E as [t ->]. done.
  - by apply replace_none.
Qed.

Lemma walk_names here names rest :
  Forall name_ok names → walk here (names ++ rest) = walk (here ++ names) rest.
Proof.
  intros Hok. revert here. induction Hok as [|n names (H1 & H2 & H3 & _) _ IH]; intros here.
  { by rewrite app_nil_r. }
  cbn [walk app]. apply String.eqb_neq in H1 as ->, H2 as ->, H3 as ->. simpl.
  by rewrite IH, <- app_assoc.
Qed.

Section Containment.
Context `{FileSystemLaws}.

(** Containment in the project is real. A path argument is made canonical by
    asking the file system and, if the path does not exist, by following its
    names from the first project root (from the root of the file system when it
    is absolute), [..] leading to the parent. On a path without backslashes the
    result is an absolute path without [.], [..] or an empty name; and it is
    under a root by the policy's comparison of texts exactly when the names of
    that root are its first names. *)
Theorem project_paths_are_contained project others raw :
  let roots := path_text project :: others in
  let abs := absolute_path roots raw in
  Forall name_ok project →
  no_byte "\" (default (manual_normalize abs) (fs_canonicalize abs)) = true →
  ∃ names, canonicalize roots raw = path_text names ∧ Forall name_ok names
    ∧ (fs_canonicalize abs = None →
       names = walk (if is_absolute raw then [] else project) (split_char "/" raw))
    ∧ ∀ root, Forall name_ok root →
        is_under (canonicalize roots raw) (path_text root) = true ↔ root `prefix_of` names.
Proof.
  cbv zeta. intros Hproj Hplain. unfold canonicalize. set (abs := absolute_path _ raw) in *.
  rewrite to_posix_plain by done. clear Hplain.
  assert (is_absolute abs = true ∧
    walk [] (split_char "/" abs) = walk (if is_absolute raw then [] else project) (split_char "/" raw))
    as [Habs Hwalk].
  { unfold abs, absolute_path. destruct (is_absolute raw) eqn:Hr; [by split|].
    unfold path_push. rewrite Hr. destruct project as [|n ns]; [by split|].
    change (path_text (n :: ns)) with (path_body (n :: ns)).
    rewrite (body_no_final_slash (n :: ns) Hproj), orb_false_r. split; [done|].
    change (Str.is_empty (path_body (n :: ns))) with false. cbv iota.
    change ("/" +:+ raw) with (String "/" raw). rewrite (split_body_slash (n :: ns) raw Hproj).
    change (walk [] ("" :: ?l)) with (walk [] l). by rewrite walk_names. }
  rewrite <- Hwalk. clear Hwalk.
  destruct (fs_canonicalize abs) as [q|] eqn:Hq; simpl.
  - destruct (fs_canonical _ _ Hq) as (names & -> & Hok). exists names.
    split_and!; try done. intros root Hroot. by apply is_under_prefix.
  - destruct (manual_normalize_walk abs Habs) as [-> Hok]. eexists. split_and!; try done.
    intros root Hroot. by apply is_under_prefix.
Qed.
End Containment.

(** ** Witness *)

Section Toy.
Import Toy.

#[local] Instance toy_fs_laws : FileSystemLaws.
Proof.
  intros p q. simpl. destruct (String.eqb p "/p/link"); [|done]. intros [= <-].
  exists ["etc"]. split; [done|]. apply Forall_singleton. by vm_compute.
Qed.

(** [..] out of the project, and the link out of it. *)
Lemma project_paths_are_contained_witness :
  canonicalize ["/p"] "a/../../etc/passwd" = "/etc/passwd"
  ∧ is_under (canonicalize ["/p"] "a/../../etc/passwd") "/p" = false
  ∧ is_under (canonicalize ["/p"] "link") "/p" = false
  ∧ is_under (canonicalize ["/p"] "./a//b") "/p" = true.
Proof.
  assert (Forall name_ok ["p"]) as Hp by (apply Forall_singleton; by vm_compute).
  destruct (project_paths_are_contained ["p"] [] "a/../../etc/passwd" Hp)
    as (names & E & _ & Hn & Hu); [vm_compute; reflexivity|].
  specialize (Hn eq_refl). vm_compute in Hn. subst names.
  split; [exact E|]. split_and!; [|vm_compute; reflexivity..].
  apply not_true_iff_false. intros [k Hk]%(Hu ["p"] Hp). discriminate Hk.
Defined.
End Toy.
