(* ===== verification/Lease.v ===== *)
(** * Secret leases

    [src/crates/vigil-lease]: a secret is handed out as a lease bound to a
    session, a server and a tool, for a limited time; the broker keeps the
    leased values in memory and writes an event for each lease it mints or
    revokes and for each attempt to use one out of its context. The store of the
    secrets is an interface ([SecretStore]) with an in-memory implementation. *)

From S2P Require Import Prelude Types Deps Db Ledger Secrets.

Module SecretStoreError.
Inductive SecretStoreError :=
| NotFound | LockPoisoned | BackendUnavailable | BackendDenied | BackendOther.

Definition code (e : SecretStoreError) : string :=
  match e with
  | NotFound => "secret_not_found"
  | LockPoisoned => "lock_poisoned"
  | BackendUnavailable => "backend_unavailable"
  | BackendDenied => "backend_denied"
  | BackendOther => "backend_other"
  end.
End SecretStoreError.
Abbreviation SecretStoreError := SecretStoreError.SecretStoreError.

Module MismatchField.
Inductive MismatchField := Session | Server | Tool.

Definition as_str (f : MismatchField) : string :=
  match f with
  | Session => "session"
  | Server => "server"
  | Tool => "tool"
  end.
End MismatchField.
Abbreviation MismatchField := MismatchField.MismatchField.

Module LeaseError.
Inductive LeaseError :=
| NotFound (lease_id : string)
| Expired (lease_id : string)
| Revoked (lease_id : string)
| ContextMismatch (lease_id : string) (field : MismatchField)
| StoreError (e : SecretStoreError)
| UnsupportedInjectionMethod (m : InjectionMethod)
| Internal (what : string).
End LeaseError.
Abbreviation LeaseError := LeaseError.LeaseError.

(** The text of a secret; copies are wiped when dropped, which is not modelled. *)
Definition SecretValue : Type := string.

(** [trait SecretStore] *)
Class SecretStore (St : Type) := {
  store_put : string → SecretValue → M St SecretStoreError unit;
  store_get : string → St → result SecretStoreError SecretValue;
  store_delete : string → M St SecretStoreError unit;
  backend_kind : string;
}.

(** [InMemorySecretStore] *)
#[export] Instance InMemorySecretStore : SecretStore (gmap string SecretValue) := {|
  store_put secret_ref value := modify (<[secret_ref := value]>);
  store_get secret_ref s := ok_or (s !! secret_ref) SecretStoreError.NotFound;
  store_delete secret_ref :=
    let! found := gets (λ s : gmap string SecretValue, s !! secret_ref) in
    match found with
    | Some _ => modify (delete secret_ref)
    | None => throw SecretStoreError.NotFound
    end;
  backend_kind := "memory";
|}.

Record MintRequest := mkMintRequest {
  mr_secret_ref : string;
  mr_session_id : string;
  mr_server_id : string;
  mr_tool_name : string;
  mr_approval_id : option string;
  mr_injection_method : InjectionMethod;
  mr_ttl_secs : Z;
}.

Record ResolveContext := mkResolveContext {
  rc_session_id : string;
  rc_server_id : string;
  rc_tool_name : string;
}.

Record CachedSecret := mkCachedSecret { cs_lease : SecretLease; cs_value : SecretValue }.

(** The broker's lease table, with the ledger and the store it refers to. *)
Record BrokerState (St : Type) := mkBrokerState {
  br_ledger : LedgerState;
  br_cache : gmap string CachedSecret;
  br_store : St;
}.
Arguments mkBrokerState {St} _ _ _.
Arguments br_ledger {St} _.
Arguments br_cache {St} _.
Arguments br_store {St} _.

Record PreparedChildEnv := mkPreparedChildEnv {
  pe_env : option (gmap string string);
  pe_lease_ids : list string;
}.

Definition set_cache {St} (c : gmap string CachedSecret) (s : BrokerState St) : BrokerState St :=
  mkBrokerState (br_ledger s) c (br_store s).

(** [let _ = self.ledger.f(..)] *)
Definition audit {St A} (m : LedgerM A) : M (BrokerState St) LeaseError unit :=
  modify (λ s, mkBrokerState (m (br_ledger s)).2 (br_cache s) (br_store s)).

(** [PreparedChildEnv] *)
Definition env_keys (p : PreparedChildEnv) : list string :=
  match pe_env p with
  | Some env => Sort.sort Str.leb ((map_to_list env).*1)
  | None => []
  end.

Definition take_env (p : PreparedChildEnv) : option (gmap string string) * PreparedChildEnv :=
  (pe_env p, mkPreparedChildEnv None (pe_lease_ids p)).

Definition lease_count (p : PreparedChildEnv) : nat := length (pe_lease_ids p).

Definition assert_injection_supported (m : InjectionMethod) : result LeaseError unit :=
  match m with
  | InjectionMethod.ChildEnv => Ok tt
  | other => Err (LeaseError.UnsupportedInjectionMethod other)
  end.

(** The fresh id and the readings of the clock for one lease. *)
Record LeaseReadings := mkLeaseReadings {
  lr_id : string;
  lr_now : Z;
  lr_now_touch : Z;
  lr_now_event : Z;
  lr_now_resolve : Z;
  lr_now_misuse : Z;
}.

Section Broker.
Context `{Crates} `{Redaction} {St : Type} `{SecretStore St}.
Abbreviation BrokerM := (M (BrokerState St) LeaseError).

Definition lease_event (l : SecretLease) : Value :=
  JObj [("lease_id", JStr (lease_id l)); ("secret_ref", JStr (lease_secret_ref l));
        ("bound_session_id", JStr (bound_session_id l));
        ("bound_server_id", JStr (bound_server_id l));
        ("bound_tool_name", JStr (bound_tool_name l));
        ("approval_id", json_opt_str (lease_approval_id l));
        ("injection_method", JStr (InjectionMethod.to_str (lease_injection_method l)));
        ("expires_at", JNum (lease_expires_at l))].

(** The lease that a request is given. *)
Definition lease_for (rd : LeaseReadings) (req : MintRequest) : SecretLease :=
  mkSecretLease (lr_id rd) (mr_secret_ref req) (mr_session_id req) (mr_server_id req)
    (mr_tool_name req) (mr_approval_id req) (mr_injection_method req)
    (Int.i64_wrapping_add (lr_now rd) (mr_ttl_secs req)).

Definition mint_lease (rd : LeaseReadings) (req : MintRequest) : BrokerM SecretLease :=
  let! got := gets (λ s, store_get (mr_secret_ref req) (br_store s)) in
  match got with
  | Err err =>
      let code := SecretStoreError.code err in
      audit (append_event (lr_now_event rd) (mr_session_id req) "secret.lease_mint_failed"
        (JObj [("secret_ref", JStr (mr_secret_ref req)); ("backend", JStr backend_kind);
               ("reason_code", JStr code)])
        (Some ("lease_mint_failed " +:+ mr_secret_ref req +:+ " " +:+ backend_kind +:+ " "
               +:+ code))) ;!
      throw (LeaseError.StoreError err)
  | Ok value =>
      let lease := lease_for rd req in
      modify (λ s, set_cache (<[lease_id lease := mkCachedSecret lease value]> (br_cache s)) s) ;!
      audit (touch_secret_ref (lr_now_touch rd) (mr_secret_ref req)) ;!
      audit (append_event (lr_now_event rd) (bound_session_id lease) "secret.lease_minted"
        (lease_event lease)
        (Some ("lease_minted " +:+ lease_id lease +:+ " " +:+ lease_secret_ref lease +:+ " "
               +:+ bound_server_id lease +:+ " " +:+ bound_tool_name lease))) ;!
      ret lease
  end.

Definition expired_at (now : Z) (l : SecretLease) : bool := (lease_expires_at l <=? now)%Z.

(** The event of an attempt to use a lease outside its context, and the error. *)
Definition misuse (now : Z) (lease_id session_id : string) (f : MismatchField)
    : BrokerM SecretValue :=
  audit (append_event now session_id "secret.lease_misuse_attempt"
    (JObj [("lease_id", JStr lease_id); ("mismatch_field", JStr (MismatchField.as_str f))])
    (Some ("lease_misuse_attempt lease_id " +:+ lease_id +:+ " field "
           +:+ MismatchField.as_str f))) ;!
  throw (LeaseError.ContextMismatch lease_id f).

Definition resolve_value (now now_misuse : Z) (lease_id : string) (ctx : ResolveContext)
    : BrokerM SecretValue :=
  let! entry := gets (λ s, br_cache s !! lease_id) in
  match entry with
  | None => throw (LeaseError.NotFound lease_id)
  | Some entry =>
      let lease := cs_lease entry in
      if expired_at now lease then
        modify (λ s, set_cache (delete lease_id (br_cache s)) s) ;!
        throw (LeaseError.Expired lease_id)
      else if negb (String.eqb (bound_session_id lease) (rc_session_id ctx)) then
        misuse now_misuse lease_id (rc_session_id ctx) MismatchField.Session
      else if negb (String.eqb (bound_server_id lease) (rc_server_id ctx)) then
        misuse now_misuse lease_id (rc_session_id ctx) MismatchField.Server
      else if negb (String.eqb (bound_tool_name lease) (rc_tool_name ctx)) then
        misuse now_misuse lease_id (rc_session_id ctx) MismatchField.Tool
      else ret (cs_value entry)
  end.

Definition revoked_event (now : Z) (session_id lease_id reason : string) : BrokerM unit :=
  audit (append_event now session_id "secret.lease_revoked"
    (JObj [("lease_id", JStr lease_id); ("reason", JStr reason)])
    (Some ("lease_revoked " +:+ lease_id +:+ " " +:+ reason))).

Definition revoke_lease (now : Z) (lease_id : string) : BrokerM unit :=
  let! entry := gets (λ s, br_cache s !! lease_id) in
  modify (λ s, set_cache (delete lease_id (br_cache s)) s) ;!
  match entry with
  | Some c => revoked_event now (bound_session_id (cs_lease c)) lease_id "explicit"
  | None => ret tt
  end.

Fixpoint revoke_expired (clock : nat → Z) (i : nat) (l : list (string * string)) : BrokerM unit :=
  match l with
  | [] => ret tt
  | (id, session) :: rest =>
      revoked_event (clock i) session id "expired" ;!
      revoke_expired clock (S i) rest
  end.

Definition sweep_expired (now : Z) (clock : nat → Z) : BrokerM nat :=
  let! expired := gets (λ s, omap (λ kv : string * SecretLease,
    if expired_at now kv.2 then Some (kv.1, bound_session_id kv.2) else None)
    (map_to_list (cs_lease <$> br_cache s))) in
  modify (λ s, set_cache (foldr delete (br_cache s) expired.*1) s) ;!
  revoke_expired clock 0 expired ;!
  ret (length expired).

Definition shutdown : BrokerM unit := modify (set_cache ∅).

Definition cache_len (s : BrokerState St) : nat := size (br_cache s).

Fixpoint revoke_many (clock : nat → Z) (i : nat) (ids : list string) : BrokerM unit :=
  match ids with
  | [] => ret tt
  | id :: rest => ignore (revoke_lease (clock i) id) ;! revoke_many clock (S i) rest
  end.

(** [self.revoke_many(&lease_ids); return Err(e)] *)
Definition abandon {A} (clock : nat → Z) (ids : list string) (e : LeaseError) : BrokerM A :=
  revoke_many clock 0 ids ;! throw e.

(** The loop of [prepare_child_env], at its [i]-th binding. *)
Fixpoint prepare_bindings (rds : nat → LeaseReadings) (clock : nat → Z) (ctx : ResolveContext)
    (approval_id : option string) (ttl_secs : Z) (i : nat) (bs : list BindingRow)
    (env : gmap string string) (lease_ids : list string) : BrokerM PreparedChildEnv :=
  match bs with
  | [] => ret (mkPreparedChildEnv (Some env) lease_ids)
  | b :: rest =>
      match b_env_var_name b with
      | None => abandon clock lease_ids
                  (LeaseError.Internal "ChildEnv binding missing env_var_name")
      | Some env_key =>
          let! minted := attempt (mint_lease (rds i)
            (mkMintRequest (b_secret_ref b) (rc_session_id ctx) (rc_server_id ctx)
               (rc_tool_name ctx) approval_id InjectionMethod.ChildEnv ttl_secs)) in
          match minted with
          | Err e => abandon clock lease_ids e
          | Ok lease =>
              let lease_ids := lease_ids ++ [lease_id lease] in
              let! value := attempt (resolve_value (lr_now_resolve (rds i)) (lr_now_misuse (rds i))
                              (lease_id lease) ctx) in
              match value with
              | Err e => abandon clock lease_ids e
              | Ok v =>
                  prepare_bindings rds clock ctx approval_id ttl_secs (S i) rest
                    (<[env_key := v]> env) lease_ids
              end
          end
      end
  end.

Definition prepare_child_env (rds : nat → LeaseReadings) (clock : nat → Z)
    (ctx : ResolveContext) (approval_id : option string) (ttl_secs : Z)
    : BrokerM PreparedChildEnv :=
  let! bindings := λ s,
    (match (resolve_child_env_bindings (rc_server_id ctx) (rc_tool_name ctx) (br_ledger s)).1 with
     | Ok bs => Ok bs
     | Err _ => Err (LeaseError.StoreError SecretStoreError.BackendUnavailable)
     end, s) in
  prepare_bindings rds clock ctx approval_id ttl_secs 0 bindings ∅ [].

(** [Drop for PreparedChildEnv], while the broker lives. *)
Definition drop_prepared (clock : nat → Z) (p : PreparedChildEnv) : BrokerM unit :=
  revoke_many clock 0 (pe_lease_ids p).
End Broker.
