(* ===== verification/LeaseProps.v ===== *)
(** * What a lease grants

    A secret comes out of the broker only through a lease that was minted for
    it, in the context it was minted for, before it expires and while nobody
    revoked it; the leases prepared for a child process do not outlive it; and
    the ledger learns nothing of the values. *)

From S2P Require Import Prelude Types Deps Concrete Db Ledger Secrets Lease.

(** ** What each operation does to the table *)

Section Steps.
Context `{Crates} `{Redaction} {St : Type} `{SecretStore St}.
Implicit Types (s : BrokerState St) (c : CachedSecret).

Definition in_context (ctx : ResolveContext) (l : SecretLease) : Prop :=
  bound_session_id l = rc_session_id ctx ∧ bound_server_id l = rc_server_id ctx ∧
  bound_tool_name l = rc_tool_name ctx.

Lemma expired_at_false now l : expired_at now l = false ↔ (now < lease_expires_at l)%Z.
Proof. unfold expired_at. rewrite Z.leb_gt. done. Qed.

Lemma mint_ok rd req s v :
  store_get (mr_secret_ref req) (br_store s) = Ok v →
  let '(r, s') := mint_lease rd req s in
  r = Ok (lease_for rd req) ∧ br_store s' = br_store s ∧
  br_cache s' = <[lr_id rd := mkCachedSecret (lease_for rd req) v]> (br_cache s).
Proof. intros Hv. unfold mint_lease, audit. run_m. by rewrite Hv. Qed.

Lemma mint_err rd req s e :
  store_get (mr_secret_ref req) (br_store s) = Err e →
  let '(r, s') := mint_lease rd req s in
  r = Err (LeaseError.StoreError e) ∧ br_store s' = br_store s ∧ br_cache s' = br_cache s.
Proof. intros Hv. unfold mint_lease, audit. run_m. by rewrite Hv. Qed.

Lemma resolve_ok now nm id ctx s v :
  (resolve_value now nm id ctx s).1 = Ok v ↔
  ∃ c, br_cache s !! id = Some c ∧ expired_at now (cs_lease c) = false ∧
       in_context ctx (cs_lease c) ∧ cs_value c = v.
Proof.
  unfold resolve_value, misuse, in_context. run_m. split.
  - intros Hr. destruct (br_cache s !! id) as [c|]; [|done]. exists c.
    destruct (expired_at now (cs_lease c)); [done|].
    split_match; bool_to_prop; auto 6.
  - intros (c & -> & -> & (-> & -> & ->) & <-). by rewrite !String.eqb_refl.
Qed.

Lemma resolve_table now nm id ctx s id' :
  br_cache (resolve_value now nm id ctx s).2 !! id' =
  match br_cache s !! id' with
  | Some c => if String.eqb id id' && expired_at now (cs_lease c) then None else Some c
  | None => None
  end.
Proof.
  unfold resolve_value, misuse, audit. run_m.
  destruct (String.eqb_spec id id') as [<-|Hne]; simpl.
  - destruct (br_cache s !! id) as [c|] eqn:Hc; simpl; [|by rewrite Hc].
    destruct (expired_at now (cs_lease c)); simpl; [by simplify_map_eq|].
    by split_match; rewrite Hc.
  - destruct (br_cache s !! id) as [c|]; simpl; [|by destruct (br_cache s !! id')].
    destruct (expired_at now (cs_lease c)); simpl;
      [rewrite lookup_delete_ne by done|split_match]; by destruct (br_cache s !! id').
Qed.

Lemma resolve_store now nm id ctx s :
  br_store (resolve_value now nm id ctx s).2 = br_store s.
Proof. unfold resolve_value, misuse, audit. run_m. by split_match. Qed.

Lemma revoke_table now id s :
  br_cache (revoke_lease now id s).2 = delete id (br_cache s) ∧
  br_store (revoke_lease now id s).2 = br_store s.
Proof. unfold revoke_lease, revoked_event, audit. run_m. by split_match. Qed.

Lemma revoke_many_table clock i ids s :
  br_cache (revoke_many clock i ids s).2 = foldl (λ m id, delete id m) (br_cache s) ids ∧
  br_store (revoke_many clock i ids s).2 = br_store s.
Proof.
  revert i s. induction ids as [|id ids IH]; intros i s; [done|].
  destruct (revoke_table (clock i) id s) as [Hc Hs]. cbn [revoke_many foldl].
  unfold bind at 1 2, ignore. destruct (revoke_lease (clock i) id s) as [r s1]. simpl in *.
  destruct (IH (S i) s1) as [-> ->]. by rewrite Hc, Hs.
Qed.

Lemma revoke_expired_table clock i l s :
  br_cache (revoke_expired clock i l s).2 = br_cache s ∧
  br_store (revoke_expired clock i l s).2 = br_store s.
Proof.
  revert i s. induction l as [|[id sess] l IH]; intros i s; [done|]. simpl.
  unfold bind, revoked_event, audit, modify.
  match goal with |- context [revoke_expired clock (S i) l ?s1] => apply (IH (S i) s1) end.
Qed.

Lemma foldr_delete_lookup {A} (m : gmap string A) ids id :
  foldr delete m ids !! id = if decide (id ∈ ids) then None else m !! id.
Proof.
  induction ids as [|x ids IH]; simpl; [done|]. destruct (decide (x = id)) as [->|Hne].
  - rewrite lookup_delete_eq, decide_True by left. done.
  - rewrite lookup_delete_ne by done. rewrite IH.
    destruct (decide (id ∈ ids)); [rewrite decide_True by by right|
      rewrite decide_False by by apply not_elem_of_cons]; done.
Qed.

Lemma sweep_table now clock s id :
  br_cache (sweep_expired now clock s).2 !! id =
  match br_cache s !! id with
  | Some c => if expired_at now (cs_lease c) then None else Some c
  | None => None
  end.
Proof.
  unfold sweep_expired. unfold bind at 1 2 3, gets, modify.
  match goal with |- context [revoke_expired clock 0 ?l ?s1] =>
    destruct (revoke_expired clock 0 l s1) as [r s2] eqn:Hr;
    destruct (revoke_expired_table clock 0 l s1) as [Hc _]; rewrite Hr in Hc end.
  simpl in Hc. assert (br_cache s2 !! id =
    match br_cache s !! id with
    | Some c => if expired_at now (cs_lease c) then None else Some c
    | None => None end) as Hgoal; [|by destruct r].
  rewrite Hc, foldr_delete_lookup.
  set (ids := (omap _ _).*1).
  assert (id ∈ ids ↔ ∃ c, br_cache s !! id = Some c ∧ expired_at now (cs_lease c) = true) as Hin.
  { unfold ids. rewrite list_elem_of_fmap. setoid_rewrite list_elem_of_omap. split.
    - intros ([i sess] & -> & [i' l] & Hl & Hsel). simpl in *.
      apply elem_of_map_to_list in Hl. rewrite lookup_fmap in Hl.
      destruct (expired_at now l) eqn:He; simplify_eq. simpl.
      destruct (br_cache s !! i) as [c|]; simplify_eq/=. eauto.
    - intros (c & Hc' & He). exists (id, bound_session_id (cs_lease c)). split; [done|].
      exists (id, cs_lease c). simpl. rewrite He. split; [|done].
      apply elem_of_map_to_list. by rewrite lookup_fmap, Hc'. }
  destruct (decide (id ∈ ids)) as [Hi|Hi]; rewrite Hin in Hi.
  - destruct Hi as (c & -> & ->). done.
  - destruct (br_cache s !! id) as [c|]; [|done].
    destruct (expired_at now (cs_lease c)) eqn:He; [|done]. destruct Hi. eauto.
Qed.

Lemma sweep_store now clock s : br_store (sweep_expired now clock s).2 = br_store s.
Proof.
  unfold sweep_expired. unfold bind at 1 2 3, gets, modify.
  match goal with |- context [revoke_expired clock 0 ?l ?s1] =>
    destruct (revoke_expired clock 0 l s1) as [r s2] eqn:Hr;
    destruct (revoke_expired_table clock 0 l s1) as [_ Hc]; rewrite Hr in Hc end.
  by destruct r.
Qed.
End Steps.

(** ** The life of a lease *)

Section Life.
Context `{Crates} `{Redaction} {St : Type} `{SecretStore St}.

(** What may happen to a broker, its ledger and its store. *)
Inductive lease_op :=
| OpMint (rd : LeaseReadings) (req : MintRequest)
| OpResolve (now now_misuse : Z) (id : string) (ctx : ResolveContext)
| OpRevoke (now : Z) (id : string)
| OpSweep (now : Z) (clock : nat → Z)
| OpShutdown
| OpOther (f : LedgerState → LedgerState) (g : St → St).

Definition lease_step (s : BrokerState St) (op : lease_op) : BrokerState St :=
  match op with
  | OpMint rd req => (mint_lease rd req s).2
  | OpResolve now nm id ctx => (resolve_value now nm id ctx s).2
  | OpRevoke now id => (revoke_lease now id s).2
  | OpSweep now clock => (sweep_expired now clock s).2
  | OpShutdown => (shutdown s).2
  | OpOther f g => mkBrokerState (f (br_ledger s)) (br_cache s) (g (br_store s))
  end.

Definition run_leases : BrokerState St → list lease_op → BrokerState St := foldl lease_step.

Definition mint_ids (ops : list lease_op) : list string :=
  omap (λ op, match op with OpMint rd _ => Some (lr_id rd) | _ => None end) ops.

(** The operation leaves the lease [l], of that id, in the table. *)
Definition spares (id : string) (l : SecretLease) (op : lease_op) : Prop :=
  match op with
  | OpMint rd _ => lr_id rd ≠ id
  | OpResolve now _ i _ => i = id → expired_at now l = false
  | OpRevoke _ i => i ≠ id
  | OpSweep now _ => expired_at now l = false
  | OpShutdown => False
  | OpOther _ _ => True
  end.

Definition mints (id : string) (op : lease_op) : Prop :=
  ∃ rd req, op = OpMint rd req ∧ lr_id rd = id.

(** The lease [c] is what this minting in this state made. *)
Definition minted (s : BrokerState St) (id : string) (c : CachedSecret) (op : lease_op) : Prop :=
  ∃ rd req, op = OpMint rd req ∧ lr_id rd = id ∧ cs_lease c = lease_for rd req ∧
    store_get (mr_secret_ref req) (br_store s) = Ok (cs_value c).

Lemma step_keep s op id c :
  br_cache s !! id = Some c → spares id (cs_lease c) op →
  br_cache (lease_step s op) !! id = Some c.
Proof.
  intros Hc Hsp. destruct op as [rd req|now nm i ctx|now i|now clock| |f g]; simpl in *.
  - destruct (store_get (mr_secret_ref req) (br_store s)) as [v|e] eqn:Hv.
    + pose proof (mint_ok rd req s v Hv) as Hm. destruct (mint_lease rd req s) as [r s'].
      simpl. destruct Hm as (_ & _ & ->). by rewrite lookup_insert_ne.
    + pose proof (mint_err rd req s e Hv) as Hm. destruct (mint_lease rd req s) as [r s'].
      simpl. by destruct Hm as (_ & _ & ->).
  - rewrite resolve_table, Hc. destruct (String.eqb_spec i id) as [->|]; [|done].
    by rewrite Hsp.
  - rewrite (proj1 (revoke_table now i s)). by rewrite lookup_delete_ne.
  - by rewrite sweep_table, Hc, Hsp.
  - done.
  - done.
Qed.

Lemma step_origin s op id c :
  br_cache (lease_step s op) !! id = Some c →
  (br_cache s !! id = Some c ∧ (spares id (cs_lease c) op ∨ mints id op)) ∨ minted s id c op.
Proof.
  destruct op as [rd req|now nm i ctx|now i|now clock| |f g]; simpl; intros Hc.
  - destruct (store_get (mr_secret_ref req) (br_store s)) as [v|e] eqn:Hv.
    + pose proof (mint_ok rd req s v Hv) as Hm. destruct (mint_lease rd req s) as [r s'].
      destruct Hm as (_ & _ & Hm). simpl in Hc. rewrite Hm in Hc.
      apply lookup_insert_Some in Hc as [[<- <-]|[Hne Hc]]; [|by auto].
      right. exists rd, req. auto.
    + pose proof (mint_err rd req s e Hv) as Hm. destruct (mint_lease rd req s) as [r s'].
      destruct Hm as (_ & _ & Hm). simpl in Hc. rewrite Hm in Hc.
      left. split; [done|]. destruct (decide (lr_id rd = id)) as [<-|]; [|by left].
      right. by exists rd, req.
  - left. rewrite resolve_table in Hc. destruct (br_cache s !! id) as [c'|]; [|done].
    destruct (String.eqb_spec i id) as [->|]; simpl in Hc; [|injection Hc as <-; split; [done|by left]].
    destruct (expired_at now (cs_lease c')) eqn:He; [done|]. injection Hc as <-. auto.
  - left. rewrite (proj1 (revoke_table now i s)) in Hc.
    apply lookup_delete_Some in Hc as [? ?]. auto.
  - left. rewrite sweep_table in Hc. destruct (br_cache s !! id) as [c'|]; [|done].
    destruct (expired_at now (cs_lease c')) eqn:He; [done|]. injection Hc as <-. auto.
  - by rewrite lookup_empty in Hc.
  - auto.
Qed.

Lemma run_keep ops s id c :
  br_cache s !! id = Some c → Forall (spares id (cs_lease c)) ops →
  br_cache (run_leases s ops) !! id = Some c.
Proof.
  intros Hc Hsp. revert s Hc. induction Hsp as [|op ops Hop _ IH]; intros s Hc; [done|].
  apply IH. by apply step_keep.
Qed.

Lemma mints_elem id ops : id ∈ mint_ids ops ↔ ∃ op, op ∈ ops ∧ mints id op.
Proof.
  unfold mint_ids. rewrite list_elem_of_omap. split.
  - intros (op & Hin & Hid). exists op. split; [done|]. destruct op; simplify_eq. red. eauto.
  - intros (op & Hin & rd & req & -> & <-). by exists (OpMint rd req).
Qed.

(** What is in the table was minted, and spared ever since. *)
Lemma cached_origin s0 ops id c :
  NoDup (mint_ids ops) → br_cache s0 = ∅ →
  br_cache (run_leases s0 ops) !! id = Some c →
  ∃ ops1 op ops2, ops = ops1 ++ op :: ops2 ∧ minted (run_leases s0 ops1) id c op ∧
    Forall (spares id (cs_lease c)) ops2.
Proof.
  intros Hnd Hs0. induction ops as [|op ops IH] using rev_ind.
  { simpl. by rewrite Hs0, lookup_empty. }
  unfold mint_ids in Hnd. rewrite omap_app in Hnd. apply NoDup_app in Hnd as (Hnd & Hdis & _).
  unfold run_leases. rewrite foldl_snoc. intros [[Hc Hor]|Hm]%step_origin.
  - destruct (IH Hnd Hc) as (ops1 & op1 & ops2 & -> & Hm & Hsp).
    exists ops1, op1, (ops2 ++ [op]). split; [by rewrite <- app_assoc|]. split; [done|].
    apply Forall_app. split; [done|]. constructor; [|done]. destruct Hor as [|Hop]; [done|].
    exfalso. apply (Hdis id); [|by apply mints_elem; exists op; split; [left|]].
    apply mints_elem. exists op1. split; [apply elem_of_app; right; left|].
    destruct Hm as (rd & req & -> & <- & _). by exists rd, req.
  - by exists ops, op, [].
Qed.
End Life.

Section Props.
Context `{Crates} `{Redaction} {St : Type} `{SecretStore St}.

(** C23. A lease works exactly within its bounds. Whatever happens to a broker
    that starts with no lease and gives each lease its own id, a value is
    resolved from a lease id if and only if some request minted the lease of
    that id for this very session, server and tool, the value is what the store
    held under the request's secret when it was minted, the lease has not
    expired, and nothing since revoked it, swept it, or shut the broker down. *)
Theorem lease_works_within_bounds (s0 : BrokerState St) ops now now_misuse id ctx v :
  br_cache s0 = ∅ → NoDup (mint_ids ops) →
  (resolve_value now now_misuse id ctx (run_leases s0 ops)).1 = Ok v ↔
  ∃ ops1 rd req ops2,
    ops = ops1 ++ OpMint rd req :: ops2 ∧ lr_id rd = id ∧
    in_context ctx (lease_for rd req) ∧
    store_get (mr_secret_ref req) (br_store (run_leases s0 ops1)) = Ok v ∧
    expired_at now (lease_for rd req) = false ∧
    Forall (spares id (lease_for rd req)) ops2.
Proof.
  intros Hs0 Hnd. rewrite resolve_ok. split.
  - intros (c & Hc & He & Hctx & <-).
    destruct (cached_origin s0 ops id c Hnd Hs0 Hc)
      as (ops1 & op & ops2 & -> & (rd & req & -> & Hid & Hl & Hv) & Hsp).
    rewrite Hl in *. exists ops1, rd, req, ops2. auto 7.
  - intros (ops1 & rd & req & ops2 & -> & <- & Hctx & Hv & He & Hsp).
    exists (mkCachedSecret (lease_for rd req) v). split; [|done].
    unfold run_leases. rewrite foldl_app. apply run_keep; [|done]. simpl.
    pose proof (mint_ok rd req _ v Hv) as Hm. fold (run_leases s0 ops1).
    destruct (mint_lease rd req (run_leases s0 ops1)) as [r s']. simpl.
    destruct Hm as (_ & _ & ->). by simplify_map_eq.
Qed.
End Props.

(** ** The leases of a child process *)

Section Prepare.
Context `{Crates} `{Redaction} {St : Type} `{SecretStore St}.

(** The environment that the bindings ask for. *)
Definition binding_env (store : St) (env : gmap string string) (b : BindingRow)
    : gmap string string :=
  match b_env_var_name b, store_get (b_secret_ref b) store with
  | Some k, Ok v => <[k := v]> env
  | _, _ => env
  end.

Definition binding_ok (store : St) (b : BindingRow) : Prop :=
  ∃ k v, b_env_var_name b = Some k ∧ store_get (b_secret_ref b) store = Ok v.

(** Up to the leases listed, the table is [m0]. *)
Definition extends (m0 m : gmap string CachedSecret) (ids : list string) : Prop :=
  (∀ k, k ∉ ids → m !! k = m0 !! k) ∧ ∀ k, k ∈ ids → m0 !! k = None.

Lemma foldl_delete_lookup {A} (m : gmap string A) ids id :
  foldl (λ m id, delete id m) m ids !! id = if decide (id ∈ ids) then None else m !! id.
Proof.
  induction ids as [|x ids IH] using rev_ind.
  { by rewrite decide_False by apply not_elem_of_nil. }
  rewrite foldl_snoc. destruct (decide (x = id)) as [->|Hne].
  - rewrite lookup_delete_eq, decide_True by (apply elem_of_app; right; left). done.
  - rewrite lookup_delete_ne, IH by done.
    destruct (decide (id ∈ ids)); [rewrite decide_True by (apply elem_of_app; auto)|
      rewrite decide_False by (rewrite elem_of_app, list_elem_of_singleton; naive_solver)]; done.
Qed.

Lemma extends_delete m0 m ids :
  extends m0 m ids → foldl (λ m id, delete id m) m ids = m0.
Proof.
  intros [Hout Hin]. apply map_eq. intros k. rewrite foldl_delete_lookup.
  destruct (decide (k ∈ ids)) as [Hk|Hk]; [by rewrite Hin|by apply Hout].
Qed.

Lemma extends_snoc m0 m m' ids id :
  extends m0 m ids → m0 !! id = None → (∀ k, k ≠ id → m' !! k = m !! k) →
  extends m0 m' (ids ++ [id]).
Proof.
  intros [Hout Hin] Hid Hm'. split; intros k.
  - intros [Hk Hne]%not_elem_of_app. rewrite Hm', Hout; [done..|].
    intros ->. by apply Hne; left.
  - intros [Hk| ->%list_elem_of_singleton]%elem_of_app; auto.
Qed.

Lemma revoke_many_ok clock i ids (s : BrokerState St) :
  ∃ s', revoke_many clock i ids s = (Ok tt, s').
Proof.
  revert i s. induction ids as [|id ids IH]; intros i s; simpl; [by eexists|].
  unfold bind at 1, ignore. destruct (revoke_lease (clock i) id s) as [r s1]. apply IH.
Qed.

Lemma abandon_restores {A} clock m0 ids e (s : BrokerState St) :
  extends m0 (br_cache s) ids →
  (abandon clock ids e s : result LeaseError A * _).1 = Err e ∧
  br_cache (abandon (A:=A) clock ids e s).2 = m0.
Proof.
  intros Hext. pose proof (revoke_many_table clock 0 ids s) as [Hc _].
  destruct (revoke_many_ok clock 0 ids s) as [s' Hs']. unfold abandon, throw, bind.
  rewrite Hs' in *. simpl in *. split; [done|].
  by rewrite Hc, (extends_delete m0).
Qed.

(** Minting, then resolving the new lease in the context it was minted for. *)
Lemma mint_and_resolve rd req nm ctx (s : BrokerState St) v :
  in_context ctx (lease_for rd req) →
  store_get (mr_secret_ref req) (br_store s) = Ok v →
  ∃ s1, mint_lease rd req s = (Ok (lease_for rd req), s1) ∧ br_store s1 = br_store s ∧
    let '(r, s2) := resolve_value (lr_now_resolve rd) nm (lr_id rd) ctx s1 in
    r = (if expired_at (lr_now_resolve rd) (lease_for rd req)
         then Err (LeaseError.Expired (lr_id rd)) else Ok v) ∧
    br_store s2 = br_store s ∧
    ∀ k, k ≠ lr_id rd → br_cache s2 !! k = br_cache s !! k.
Proof.
  intros Hctx Hv. pose proof (mint_ok rd req s v Hv) as Hm.
  destruct (mint_lease rd req s) as [r s1]. destruct Hm as (-> & Hst & Hc).
  exists s1. split; [done|]. split; [done|].
  destruct (resolve_value _ nm (lr_id rd) ctx s1) as [r2 s2] eqn:Hr.
  pose proof (resolve_table (lr_now_resolve rd) nm (lr_id rd) ctx s1) as Ht.
  pose proof (resolve_store (lr_now_resolve rd) nm (lr_id rd) ctx s1) as Hs2.
  rewrite Hr in Ht, Hs2. simpl in *. split; [|split; [congruence|]].
  - pose proof (resolve_ok (lr_now_resolve rd) nm (lr_id rd) ctx s1 v) as Hiff.
    rewrite Hr in Hiff. simpl in Hiff.
    destruct (expired_at (lr_now_resolve rd) (lease_for rd req)) eqn:He.
    + unfold resolve_value in Hr. run_m. rewrite Hc, lookup_insert_eq in Hr. simpl in Hr.
      rewrite He in Hr. by simplify_eq.
    + apply Hiff. exists (mkCachedSecret (lease_for rd req) v). by rewrite Hc, lookup_insert_eq.
  - intros k Hk. rewrite Ht, Hc, lookup_insert_ne by done.
    destruct (br_cache s !! k); [|done]. by rewrite (proj2 (String.eqb_neq _ _)) by auto.
Qed.

Lemma prepare_bindings_spec rds clock ctx aid ttl m0 bs i env ids (s : BrokerState St) :
  (∀ j, m0 !! lr_id (rds j) = None) → extends m0 (br_cache s) ids →
  let '(r, s') := prepare_bindings rds clock ctx aid ttl i bs env ids s in
  match r with
  | Ok p =>
      extends m0 (br_cache s') (pe_lease_ids p) ∧ Forall (binding_ok (br_store s)) bs ∧
      pe_env p = Some (foldl (binding_env (br_store s)) env bs) ∧
      length (pe_lease_ids p) = (length ids + length bs)%nat
  | Err _ =>
      br_cache s' = m0 ∧
      ((∀ j, lr_now_resolve (rds j) < Int.i64_wrapping_add (lr_now (rds j)) ttl)%Z →
       ¬ Forall (binding_ok (br_store s)) bs)
  end.
Proof.
  intros Hfresh. revert i env ids s. induction bs as [|b bs IH]; intros i env ids s Hext.
  { simpl. rewrite Nat.add_0_r. auto. }
  cbn [prepare_bindings foldl].
  destruct (b_env_var_name b) as [k|] eqn:Hk.
  2:{ pose proof (abandon_restores (A:=PreparedChildEnv) clock m0 ids
        (LeaseError.Internal "ChildEnv binding missing env_var_name") s Hext) as [Hr Hc].
      destruct (abandon _ _ _ s) as [r s']. simpl in *. subst r. split; [done|].
      intros _ (k & v & Hk' & _)%Forall_inv. congruence. }
  set (req := mkMintRequest _ _ _ _ _ _ _). unfold bind at 1, attempt at 1.
  destruct (store_get (b_secret_ref b) (br_store s)) as [v|e] eqn:Hv.
  2:{ pose proof (mint_err (rds i) req s e Hv) as Hm.
      destruct (mint_lease (rds i) req s) as [r s1]. destruct Hm as (-> & _ & Hc1).
      rewrite <- Hc1 in Hext.
      pose proof (abandon_restores (A:=PreparedChildEnv) clock m0 ids
        (LeaseError.StoreError e) s1 Hext) as [Hr Hc].
      destruct (abandon _ _ _ s1) as [r s']. simpl in *. subst r. split; [done|].
      intros _ (k' & v & _ & Hv')%Forall_inv. congruence. }
  destruct (mint_and_resolve (rds i) req (lr_now_misuse (rds i)) ctx s v)
    as (s1 & -> & Hs1 & Hres); [done|done|]. simpl lease_id. cbv zeta.
  unfold bind at 1, attempt at 1.
  destruct (resolve_value (lr_now_resolve (rds i)) (lr_now_misuse (rds i)) (lr_id (rds i)) ctx s1)
    as [r2 s2]. destruct Hres as (-> & Hs2 & Hc2).
  pose proof (extends_snoc m0 _ _ ids _ Hext (Hfresh i) Hc2) as Hext2.
  destruct (expired_at (lr_now_resolve (rds i)) (lease_for (rds i) req)) eqn:He.
  - pose proof (abandon_restores (A:=PreparedChildEnv) clock m0 (ids ++ [lr_id (rds i)])
      (LeaseError.Expired (lr_id (rds i))) s2 Hext2) as [Hr Hc].
    destruct (abandon _ _ _ s2) as [r s']. simpl in *. subst r. split; [done|].
    intros Htime. unfold expired_at in He. apply Z.leb_le in He. simpl in He.
    specialize (Htime i). lia.
  - specialize (IH (S i) (<[k:=v]> env) _ s2 Hext2). rewrite Hs2 in IH.
    destruct (prepare_bindings _ _ _ _ _ (S i) bs _ _ s2) as [[p|e] s']; simpl in *.
    + destruct IH as (Hx & Hok & Henv & Hlen). split; [done|]. split.
      { constructor; [|done]. by exists k, v. }
      split; [unfold binding_env at 2; by rewrite Hk, Hv|].
      rewrite Hlen, length_app. simpl. lia.
    + destruct IH as [Hx Hn]. split; [done|]. intros Ht Hall. apply (Hn Ht).
      by apply Forall_inv_tail in Hall.
Qed.
End Prepare.

(** ** What the ledger learns *)

Section Values.
Context `{Crates} `{Redaction} {St : Type} `{SecretStore St}.

(** Two stores that hold the same references, whatever the values. *)
Definition stores_alike (a b : St) : Prop :=
  ∀ ref, erase (store_get ref a) = erase (store_get ref b).

Definition alike (s1 s2 : BrokerState St) : Prop :=
  br_ledger s1 = br_ledger s2 ∧ cs_lease <$> br_cache s1 = cs_lease <$> br_cache s2 ∧
  stores_alike (br_store s1) (br_store s2).

(** From alike states, alike states, and results that agree up to [R]. *)
Definition blind {A} (R : A → A → Prop) (m1 m2 : M (BrokerState St) LeaseError A) : Prop :=
  ∀ s1 s2, alike s1 s2 →
    alike (m1 s1).2 (m2 s2).2 ∧
    match (m1 s1).1, (m2 s2).1 with
    | Ok a, Ok b => R a b
    | Err e, Err e' => e = e'
    | _, _ => False
    end.

Lemma blind_bind {A B} (R : A → A → Prop) (Q : B → B → Prop) m1 m2 k1 k2 :
  blind R m1 m2 → (∀ a b, R a b → blind Q (k1 a) (k2 b)) →
  blind Q (bind m1 k1) (bind m2 k2).
Proof.
  intros Hm Hk s1 s2 Hs. specialize (Hm s1 s2 Hs). unfold bind.
  destruct (m1 s1) as [[a|e] t1], (m2 s2) as [[b|e'] t2]; simpl in *;
    destruct Hm as [Ht HR]; [by apply Hk|done..].
Qed.

Lemma blind_ret {A} (R : A → A → Prop) a b : R a b → blind R (ret a) (ret b).
Proof. by intros HR s1 s2 Hs. Qed.

Lemma blind_throw {A} (R : A → A → Prop) e : blind R (throw e) (throw e).
Proof. by intros s1 s2 Hs. Qed.

Lemma blind_audit {A} (m : LedgerM A) : blind eq (audit m) (audit m).
Proof. intros s1 s2 (Hl & Hc & Hst). simpl. rewrite Hl. by repeat split. Qed.

Lemma blind_attempt {A} (R : A → A → Prop) m1 m2 :
  blind R m1 m2 →
  blind (λ a b, match a, b with
                | Ok x, Ok y => R x y
                | Err e, Err e' => e = e'
                | _, _ => False
                end) (attempt m1) (attempt m2).
Proof.
  intros Hm s1 s2 Hs. specialize (Hm s1 s2 Hs). unfold attempt.
  by destruct (m1 s1), (m2 s2); simpl in *.
Qed.

Lemma blind_ignore {A} (R : A → A → Prop) m1 m2 :
  blind R m1 m2 → blind eq (ignore m1) (ignore m2).
Proof.
  intros Hm s1 s2 Hs. specialize (Hm s1 s2 Hs). unfold ignore.
  destruct (m1 s1), (m2 s2); simpl in *. split; [apply Hm|done].
Qed.

(** A change of the table that does not look at values. *)
Lemma blind_cache f :
  (∀ c1 c2, cs_lease <$> c1 = cs_lease <$> c2 → cs_lease <$> f c1 = cs_lease <$> f c2) →
  blind eq (modify (λ s, set_cache (f (br_cache s)) s)) (modify (λ s, set_cache (f (br_cache s)) s)).
Proof. intros Hf s1 s2 (Hl & Hc & Hst). by repeat split; simpl; auto. Qed.

Lemma blind_delete id :
  blind eq (modify (λ s, set_cache (delete id (br_cache s)) s))
           (modify (λ s, set_cache (delete id (br_cache s)) s)).
Proof. apply (blind_cache (delete id)). intros c1 c2 Hc. by rewrite !fmap_delete, Hc. Qed.

(** Reading a lease of the table. *)
Lemma blind_lookup id :
  blind (λ a b : option CachedSecret, cs_lease <$> a = cs_lease <$> b)
    (gets (λ s, br_cache s !! id)) (gets (λ s, br_cache s !! id)).
Proof.
  intros s1 s2 Hs. split; [done|]. destruct Hs as (_ & Hc & _). simpl.
  by rewrite <- !lookup_fmap, Hc.
Qed.

Lemma blind_mint rd req : blind eq (mint_lease rd req) (mint_lease rd req).
Proof.
  intros s1 s2 Hs. destruct Hs as (Hl & Hc & Hst). pose proof (Hst (mr_secret_ref req)) as Hg.
  unfold mint_lease, audit. run_m.
  destruct (store_get (mr_secret_ref req) (br_store s1)) as [v1|e1],
    (store_get (mr_secret_ref req) (br_store s2)) as [v2|e2]; simplify_eq/=;
    rewrite Hl; repeat split; simpl; auto.
  by rewrite !fmap_insert, Hc.
Qed.

Lemma blind_misuse now id sess f : blind (λ _ _, True) (misuse now id sess f) (misuse now id sess f).
Proof. apply (blind_bind eq); [apply blind_audit|]. intros ? ? _. apply blind_throw. Qed.

Lemma blind_resolve now nm id ctx :
  blind (λ _ _, True) (resolve_value now nm id ctx) (resolve_value now nm id ctx).
Proof.
  eapply blind_bind; [apply blind_lookup|]. intros [c1|] [c2|] Hc; simplify_eq/=;
    [|apply blind_throw].
  rewrite Hc. destruct (expired_at now (cs_lease c2)).
  - apply (blind_bind eq); [apply blind_delete|]. intros ? ? _. apply blind_throw.
  - repeat case_match; try apply blind_misuse. by apply blind_ret.
Qed.

Lemma blind_revoke now id : blind eq (revoke_lease now id) (revoke_lease now id).
Proof.
  eapply blind_bind; [apply blind_lookup|]. intros a b Hab.
  apply (blind_bind eq); [apply blind_delete|]. intros ? ? _.
  destruct a as [c1|], b as [c2|]; simplify_eq/=; [|by apply blind_ret].
  rewrite Hab. apply blind_audit.
Qed.

Lemma blind_revoke_many clock i ids :
  blind eq (revoke_many clock i ids) (revoke_many clock i ids).
Proof.
  revert i. induction ids as [|id ids IH]; intros i; simpl; [by apply blind_ret|].
  apply (blind_bind eq); [|intros ? ? _; apply IH].
  eapply blind_ignore, blind_revoke.
Qed.

Lemma blind_abandon {A} (R : A → A → Prop) clock ids e :
  blind R (abandon clock ids e) (abandon clock ids e).
Proof. apply (blind_bind eq); [apply blind_revoke_many|]. intros ? ? _. apply blind_throw. Qed.

Lemma blind_revoke_expired clock i l :
  blind eq (revoke_expired clock i l) (revoke_expired clock i l).
Proof.
  revert i. induction l as [|[id sess] l IH]; intros i; simpl; [by apply blind_ret|].
  apply (blind_bind eq); [apply blind_audit|]. intros ? ? _. apply IH.
Qed.

Lemma fmap_foldr_delete {A B} (f : A → B) (m : gmap string A) ids :
  f <$> foldr delete m ids = foldr delete (f <$> m) ids.
Proof. induction ids as [|id ids IH]; simpl; [done|]. by rewrite fmap_delete, IH. Qed.

Lemma blind_sweep now clock : blind eq (sweep_expired now clock) (sweep_expired now clock).
Proof.
  apply (blind_bind eq).
  { intros s1 s2 Hs. split; [done|]. destruct Hs as (_ & Hc & _). simpl. by rewrite Hc. }
  intros l ? <-. apply (blind_bind eq).
  { apply (blind_cache (λ c, foldr delete c l.*1)). intros c1 c2 Hc.
    by rewrite !fmap_foldr_delete, Hc. }
  intros ? ? _. apply (blind_bind eq); [apply blind_revoke_expired|].
  intros ? ? _. by apply blind_ret.
Qed.

(** The same leases and the same variables, whatever their values. *)
Definition envs_alike (p1 p2 : PreparedChildEnv) : Prop :=
  pe_lease_ids p1 = pe_lease_ids p2 ∧ dom <$> pe_env p1 = (dom <$> pe_env p2 : option (gset string)).

Lemma blind_prepare rds clock ctx aid ttl i bs env1 env2 ids :
  dom env1 =@{gset string} dom env2 →
  blind envs_alike (prepare_bindings rds clock ctx aid ttl i bs env1 ids)
    (prepare_bindings rds clock ctx aid ttl i bs env2 ids).
Proof.
  revert i env1 env2 ids. induction bs as [|b bs IH]; intros i env1 env2 ids Hd; simpl.
  { apply blind_ret. split; simpl; [done|]. by rewrite Hd. }
  destruct (b_env_var_name b) as [k|]; [|apply blind_abandon].
  eapply blind_bind; [eapply blind_attempt, blind_mint|]. intros [l|e] [? |?] Hl; try done;
    subst; [|apply blind_abandon].
  eapply blind_bind; [eapply blind_attempt, blind_resolve|]. intros [v1|e] [v2|?] Hv; try done;
    subst; [|apply blind_abandon].
  apply IH. by rewrite !dom_insert_L, Hd.
Qed.

(** The same operations, but for what they leave in the store. *)
Inductive op_alike : lease_op → lease_op → Prop :=
| alike_refl op : (∀ f g, op ≠ OpOther f g) → op_alike op op
| alike_other f g1 g2 :
    (∀ a b, stores_alike a b → stores_alike (g1 a) (g2 b)) →
    op_alike (OpOther f g1) (OpOther f g2).

Lemma step_alike s1 s2 op1 op2 :
  op_alike op1 op2 → alike s1 s2 → alike (lease_step s1 op1) (lease_step s2 op2).
Proof.
  intros Hop Hs. destruct Hop as [op Hne|f g1 g2 Hg].
  - destruct op as [rd req|now nm i ctx|now i|now clock| |f g]; simpl.
    + by apply blind_mint.
    + by apply blind_resolve.
    + by apply blind_revoke.
    + by apply blind_sweep.
    + destruct Hs as (Hl & _ & Hst). by repeat split.
    + by destruct (Hne f g).
  - destruct Hs as (Hl & Hc & Hst). repeat split; simpl; [by rewrite Hl|done|auto].
Qed.

(** The ledger learns nothing of a secret's value. Run one program over two
    brokers whose stores hold the same references with different values, other
    writers included: the ledgers stay equal, row for row, and so do the leases;
    preparing a child's environment then succeeds or fails alike, with the same
    leases and variable names, and still leaves the two ledgers equal. *)
Theorem ledger_learns_no_value (s1 s2 : BrokerState St) ops1 ops2 rds clock ctx aid ttl :
  alike s1 s2 → Forall2 op_alike ops1 ops2 →
  let t1 := run_leases s1 ops1 in
  let t2 := run_leases s2 ops2 in
  br_ledger t1 = br_ledger t2 ∧ cs_lease <$> br_cache t1 = cs_lease <$> br_cache t2 ∧
  let '(r1, u1) := prepare_child_env rds clock ctx aid ttl t1 in
  let '(r2, u2) := prepare_child_env rds clock ctx aid ttl t2 in
  br_ledger u1 = br_ledger u2 ∧
  match r1, r2 with
  | Ok p1, Ok p2 => envs_alike p1 p2
  | Err e1, Err e2 => e1 = e2
  | _, _ => False
  end.
Proof.
  intros Hs Hops. assert (alike (run_leases s1 ops1) (run_leases s2 ops2)) as Ht.
  { revert s1 s2 Hs. induction Hops as [|op1 op2 ops1 ops2 Hop _ IH]; intros s1 s2 Hs; [done|].
    simpl. apply IH. by apply step_alike. }
  simpl. split; [apply Ht|]. split; [apply Ht|].
  assert (blind envs_alike (prepare_child_env rds clock ctx aid ttl)
            (prepare_child_env rds clock ctx aid ttl)) as Hb.
  { eapply (blind_bind eq).
    - intros u1 u2 Hu. split; [done|]. destruct Hu as (Hl & _). simpl. by rewrite Hl.
    - intros bs ? <-. by apply blind_prepare. }
  specialize (Hb _ _ Ht).
  destruct (prepare_child_env rds clock ctx aid ttl (run_leases s1 ops1)) as [r1 u1],
    (prepare_child_env rds clock ctx aid ttl (run_leases s2 ops2)) as [r2 u2].
  simpl in Hb. destruct Hb as [(Hl & _) Hr]. by split.
Qed.

(** The leases of a child do not outlive it. Preparing a child's environment
    gives one lease to each binding of its server and tool, and sets each
    variable to what the store holds for its binding, the later binding winning;
    it succeeds whenever every binding has a variable and a stored value and no
    lease expires on the way. When it fails, and when the prepared environment is
    dropped, the table of leases is exactly what it was before. *)
Theorem child_env_is_temporary rds clock clock' ctx aid ttl (s : BrokerState St) :
  (∀ i, br_cache s !! lr_id (rds i) = None) →
  let bs := Sort.sort binding_leb (bindings_where
    (λ b, String.eqb (b_server_id b) (rc_server_id ctx)
       && String.eqb (b_injection_method b) "ChildEnv"
       && (String.eqb (b_tool_name b) (rc_tool_name ctx) || String.eqb (b_tool_name b) "*"))
    (br_ledger s)) in
  let '(r, s') := prepare_child_env rds clock ctx aid ttl s in
  match r with
  | Ok p =>
      Forall (binding_ok (br_store s)) bs ∧
      pe_env p = Some (foldl (binding_env (br_store s)) ∅ bs) ∧
      lease_count p = length bs ∧
      br_cache (drop_prepared clock' p s').2 = br_cache s
  | Err _ =>
      br_cache s' = br_cache s ∧
      ((∀ i, lr_now_resolve (rds i) < Int.i64_wrapping_add (lr_now (rds i)) ttl)%Z →
       ¬ Forall (binding_ok (br_store s)) bs)
  end.
Proof.
  intros Hfresh bs. unfold prepare_child_env. unfold bind at 1. simpl. fold bs.
  assert (extends (br_cache s) (br_cache s) []) as Hext.
  { split; [done|]. by intros k ?%not_elem_of_nil. }
  pose proof (prepare_bindings_spec rds clock ctx aid ttl _ bs 0 ∅ [] s Hfresh Hext) as Hp.
  destruct (prepare_bindings _ _ _ _ _ 0 bs ∅ [] s) as [[p|e] s']; [|done].
  destruct Hp as (Hx & Hok & Henv & Hlen). repeat split; [done..|].
  unfold drop_prepared. rewrite (proj1 (revoke_many_table clock' 0 (pe_lease_ids p) s')).
  by apply extends_delete.
Qed.
End Values.

(** ** A concrete broker *)

Section Sample.
Import Toy.

Definition sample_ledger : LedgerState :=
  let b := mkBindingRow "srv" "read" "secret://k" "ChildEnv" (Some "KEY") in
  set_tool_secret_bindings {[ ("srv", "read", "secret://k", "ChildEnv") := b ]} empty_ledger.

Definition sample_broker (value : string) : BrokerState (gmap string SecretValue) :=
  mkBrokerState sample_ledger ∅ {[ "secret://k" := value ]}.

Definition sample_ctx : ResolveContext := mkResolveContext "s1" "srv" "read".
Definition sample_req : MintRequest :=
  mkMintRequest "secret://k" "s1" "srv" "read" None InjectionMethod.ChildEnv 60.
Definition sample_rd : LeaseReadings := mkLeaseReadings "lease" 1 1 1 1 1.

Lemma lease_works_within_bounds_witness :
  (resolve_value 5 5 "lease" sample_ctx
     (run_leases (sample_broker "v") [OpMint sample_rd sample_req; OpRevoke 3 "other"])).1
  = Ok "v".
Proof.
  apply (lease_works_within_bounds (sample_broker "v")
    [OpMint sample_rd sample_req; OpRevoke 3 "other"] 5 5 "lease" sample_ctx "v").
  - reflexivity.
  - simpl. apply NoDup_singleton.
  - exists [], sample_rd, sample_req, [OpRevoke 3 "other"].
    split; [reflexivity|]. split; [reflexivity|]. split; [repeat split|].
    split; [vm_compute; reflexivity|]. split; [vm_compute; reflexivity|].
    constructor; [|constructor]. simpl. discriminate.
Defined.

Lemma ledger_learns_no_value_witness :
  br_ledger (run_leases (sample_broker "v") [OpMint sample_rd sample_req]) =
  br_ledger (run_leases (sample_broker "w") [OpMint sample_rd sample_req]).
Proof.
  refine (proj1 (ledger_learns_no_value (sample_broker "v") (sample_broker "w")
    [OpMint sample_rd sample_req] [OpMint sample_rd sample_req] (λ _, sample_rd) (λ _, 1%Z)
    sample_ctx None 60 _ _)).
  - split; [reflexivity|]. split; [reflexivity|]. intros ref. simpl.
    destruct (decide (ref = "secret://k")) as [->|Hne].
    + by rewrite !lookup_singleton_eq.
    + by rewrite !lookup_singleton_ne by auto.
  - constructor; [|constructor]. apply alike_refl. discriminate.
Defined.

Lemma child_env_is_temporary_witness :
  ∃ p s', prepare_child_env (λ _, sample_rd) (λ _, 1%Z) sample_ctx None 60 (sample_broker "v")
            = (Ok p, s') ∧ br_cache (drop_prepared (λ _, 1%Z) p s').2 = ∅.
Proof.
  pose proof (child_env_is_temporary (λ _, sample_rd) (λ _, 1%Z) (λ _, 1%Z) sample_ctx None 60
                (sample_broker "v") (λ _, eq_refl)) as Hc.
  assert (is_ok (prepare_child_env (λ _, sample_rd) (λ _, 1%Z) sample_ctx None 60
            (sample_broker "v")).1 = true) as Hok by (vm_compute; reflexivity).
  destruct (prepare_child_env (λ _, sample_rd) (λ _, 1%Z) sample_ctx None 60 (sample_broker "v"))
    as [[p|e] s']; [|discriminate Hok].
  exists p, s'. split; [reflexivity|]. apply Hc.
Defined.
End Sample.
