(* ===== verification/Alias.v ===== *)
(** * Secret aliases at the gateway

    [src/crates/vigil-mcp/src/hub.rs], the part that keeps secret values away
    from the model: arguments name a secret by an alias ([secret://name]); the
    alias is checked before any decision, replaced by the value next to the
    upstream call, and the value is taken back out of the result. *)

From S2P Require Import Prelude Types Deps Text.

(** ** Loops *)

(** [for x in l { f(x)?; }] *)
Definition try_each {E A} (f : A → result E unit) : list A → result E unit :=
  fix go l :=
    match l with
    | [] => Ok tt
    | x :: rest => let? _ := f x in go rest
    end.

(** A [for] loop that threads an accumulator and collects what each step makes. *)
Definition try_map_acc {E A B C} (f : A → C → result E (B * C))
    : list A → C → result E (list B * C) :=
  fix go l c :=
    match l with
    | [] => Ok ([], c)
    | x :: rest =>
        let? r := f x c in
        let? rs := go rest r.2 in
        Ok (r.1 :: rs.1, rs.2)
    end.

(** ** The alias table *)

Module AliasResolveError.
Inductive AliasResolveError :=
| Unknown (alias : string)
| CrossServer (alias declared_server : string)
| RawSecretInAlias
| KeyPosition.
End AliasResolveError.
Abbreviation AliasResolveError := AliasResolveError.AliasResolveError.

Record AliasEntry := mkAliasEntry { ae_value : string; ae_server : string }.

Definition SecretAliasMap : Type := gmap string AliasEntry.

Definition alias_insert (alias value server : string) (m : SecretAliasMap) : SecretAliasMap :=
  <[alias := mkAliasEntry value server]> m.

Definition ALIAS_PREFIX : string := "secret://".

Definition is_alias_body_char (a : ascii) : bool :=
  Str.is_ascii_upper a || Str.is_ascii_lower a || Str.is_ascii_digit a
  || Ascii.eqb a "/" || Ascii.eqb a "_" || Ascii.eqb a "." || Ascii.eqb a "-".

(** ** Tokens *)

(** [strip_aliases_with]; [skip] bytes of a token are still to pass. The source
    copies whole UTF-8 characters; no byte inside one can begin a token. *)
Fixpoint strip_from (skip : nat) (replacement s : string) : string :=
  match s with
  | EmptyString => EmptyString
  | String a s' =>
      match skip with
      | S k => strip_from k replacement s'
      | O =>
          if Str.starts_with ALIAS_PREFIX s then
            let body := take_while is_alias_body_char (Str.drop (String.length ALIAS_PREFIX) s) in
            replacement +:+ strip_from (8 + String.length body) replacement s'
          else String a (strip_from 0 replacement s')
      end
  end.

Definition strip_aliases_with (s replacement : string) : string := strip_from 0 replacement s.

Definition NUL : string := String Ascii.zero EmptyString.

Definition strip_aliases (s : string) : string := strip_aliases_with s NUL.

Inductive AliasPiece :=
| Literal (text : string)
| Token (alias : string).

(** [if lit_start < i { emit(Literal(..)) }] *)
Definition flush (lit : string) : list AliasPiece :=
  if Str.is_empty lit then [] else [Literal lit].

Fixpoint pieces_from (skip : nat) (lit s : string) : list AliasPiece :=
  match s with
  | EmptyString => flush lit
  | String a s' =>
      match skip with
      | S k => pieces_from k lit s'
      | O =>
          if Str.starts_with ALIAS_PREFIX s then
            let body := take_while is_alias_body_char (Str.drop (String.length ALIAS_PREFIX) s) in
            flush lit ++ Token body :: pieces_from (8 + String.length body) "" s'
          else pieces_from 0 (lit +:+ String a EmptyString) s'
      end
  end.

(** The pieces that [scan_alias_tokens] emits, in order. *)
Definition scan_alias_tokens (s : string) : list AliasPiece := pieces_from 0 "" s.

Section Alias.
Context `{Crates} `{Redaction}.

Definition alias_sha256_prefix (alias : string) : string :=
  Str.take 12 (hex_encode (sha256 alias)).

Definition reason (e : AliasResolveError) : string :=
  match e with
  | AliasResolveError.Unknown alias =>
      "unknown secret alias (sha256:" +:+ alias_sha256_prefix alias
      +:+ ") — not declared in upstreams config"
  | AliasResolveError.CrossServer alias declared_server =>
      "secret alias `" +:+ alias +:+ "` is scoped to server `" +:+ declared_server
      +:+ "`, not the server targeted by this call (cross-server resolution denied)"
  | AliasResolveError.RawSecretInAlias =>
      "raw secret detected in secret:// alias position; reference a declared alias name, not a literal secret"
  | AliasResolveError.KeyPosition => "secret:// alias in an object key is unsupported"
  end.

(** [SecretAliasMap::resolve] *)
Definition alias_resolve (aliases : SecretAliasMap) (alias server_id : string)
    : result AliasResolveError string :=
  match detect_hard_secret alias with
  | Some _ => Err AliasResolveError.RawSecretInAlias
  | None =>
      match aliases !! alias with
      | None => Err (AliasResolveError.Unknown alias)
      | Some entry =>
          if negb (String.eqb (ae_server entry) server_id) then
            Err (AliasResolveError.CrossServer alias (ae_server entry))
          else Ok (ae_value entry)
      end
  end.

(** ** The raw-secret gate *)

Inductive AliasAwareScanResult :=
| Clean
| AllAliased
| RawSecret (rule : string) (alias_shadowed : bool).

(** A hit, or the flag that some hit lay inside an alias. *)
Definition scan_string (s : string) (saw : bool) : option (string * bool) * bool :=
  let stripped := strip_aliases s in
  match detect_hard_secret stripped with
  | Some rule =>
      let alias_shadowed :=
        String.eqb rule "env_assignment" && negb (String.eqb stripped s)
        && negb (bool_decide
             (detect_hard_secret (strip_aliases_with s "") = Some "env_assignment")) in
      (Some (rule, alias_shadowed), saw)
  | None =>
      (None, match detect_hard_secret s with Some _ => true | None => saw end)
  end.

(** [for x in l { if let Some(hit) = f(x) { return Some(hit); } }] *)
Definition first_hit {A} (f : A → bool → option (string * bool) * bool)
    : list A → bool → option (string * bool) * bool :=
  fix go l saw :=
    match l with
    | [] => (None, saw)
    | x :: rest =>
        match f x saw with
        | (Some hit, saw') => (Some hit, saw')
        | (None, saw') => go rest saw'
        end
    end.

Fixpoint scan_walk (v : Value) (saw : bool) : option (string * bool) * bool :=
  match v with
  | JStr s => scan_string s saw
  | JArr arr => first_hit scan_walk arr saw
  | JObj obj =>
      first_hit (λ kv saw,
        match detect_hard_secret kv.1 with
        | Some rule => (Some (rule, false), saw)
        | None => scan_walk kv.2 saw
        end) obj saw
  | _ => (None, saw)
  end.

Definition scan_args_for_raw_secrets (args : Value) : AliasAwareScanResult :=
  match scan_walk args false with
  | (Some (rule, alias_shadowed), _) => RawSecret rule alias_shadowed
  | (None, true) => AllAliased
  | (None, false) => Clean
  end.

(** ** The alias gate, and the replacement at the tool boundary *)

Definition validate_piece (server_id : string) (aliases : SecretAliasMap) (p : AliasPiece)
    : result AliasResolveError unit :=
  match p with
  | Literal _ => Ok tt
  | Token alias => let? _ := alias_resolve aliases alias server_id in Ok tt
  end.

Fixpoint validate_alias_refs (args : Value) (server_id : string) (aliases : SecretAliasMap)
    : result AliasResolveError unit :=
  match args with
  | JStr s => try_each (validate_piece server_id aliases) (scan_alias_tokens s)
  | JArr arr => try_each (λ item, validate_alias_refs item server_id aliases) arr
  | JObj obj =>
      try_each (λ kv,
        if str_contains ALIAS_PREFIX kv.1 then Err AliasResolveError.KeyPosition
        else validate_alias_refs kv.2 server_id aliases) obj
  | _ => Ok tt
  end.

(** What a piece becomes, with the (alias, value) pairs injected so far. *)
Definition detokenize_piece (server_id : string) (aliases : SecretAliasMap) (p : AliasPiece)
    (injected : list (string * string)) : result AliasResolveError (string * list (string * string)) :=
  match p with
  | Literal text => Ok (text, injected)
  | Token alias =>
      let? exposed := alias_resolve aliases alias server_id in
      Ok (exposed, injected ++ [(alias, exposed)])
  end.

Fixpoint detokenize_alias_refs (args : Value) (server_id : string) (aliases : SecretAliasMap)
    (injected : list (string * string))
    : result AliasResolveError (Value * list (string * string)) :=
  match args with
  | JStr s =>
      let? r := try_map_acc (detokenize_piece server_id aliases) (scan_alias_tokens s) injected in
      Ok (JStr (String.concat "" r.1), r.2)
  | JArr arr =>
      let? r := try_map_acc (λ item, detokenize_alias_refs item server_id aliases) arr injected in
      Ok (JArr r.1, r.2)
  | JObj obj =>
      let? r := try_map_acc (λ kv injected,
        if str_contains ALIAS_PREFIX kv.1 then Err AliasResolveError.KeyPosition
        else
          let? r := detokenize_alias_refs kv.2 server_id aliases injected in
          Ok ((kv.1, r.1), r.2)) obj injected in
      Ok (JObj r.1, r.2)
  | other => Ok (other, injected)
  end.
End Alias.

(** ** The values out of the result *)

(** One injected value, out of one string. *)
Definition reverse_one (acc : string * nat) (inj : string * string) : string * nat :=
  let '(alias, real) := inj in
  if Str.is_empty real || negb (str_contains real acc.1) then acc
  else (str_replace real (ALIAS_PREFIX +:+ alias) acc.1, acc.2 + str_matches real acc.1)%nat.

(** The tree with the injected values replaced, and the number of hits. *)
Fixpoint reverse_substitute_injected (v : Value) (injected : list (string * string))
    : Value * nat :=
  match v with
  | JStr s => let r := foldl reverse_one (s, 0%nat) injected in (JStr r.1, r.2)
  | JArr arr =>
      let rs := map (λ x, reverse_substitute_injected x injected) arr in
      (JArr rs.*1, sum_list rs.*2)
  | JObj obj =>
      let rs := map (λ kv, (kv.1, reverse_substitute_injected kv.2 injected)) obj in
      (JObj ((λ r, (r.1, r.2.1)) <$> rs), sum_list ((λ r, r.2.2) <$> rs))
  | other => (other, 0%nat)
  end.

Definition holds_injected (injected : list (string * string)) (s : string) : bool :=
  existsb (λ inj : string * string, negb (Str.is_empty inj.2) && str_contains inj.2 s) injected.

Fixpoint value_contains_injected (v : Value) (injected : list (string * string)) : bool :=
  match v with
  | JStr s => holds_injected injected s
  | JArr arr => existsb (λ x, value_contains_injected x injected) arr
  | JObj obj =>
      existsb (λ kv, holds_injected injected kv.1 || value_contains_injected kv.2 injected) obj
  | _ => false
  end.

Definition withheld_tool_result (note : string) : Value :=
  JObj [("content", JArr [JObj [("type", JStr "text"); ("text", JStr note)]]);
        ("isError", JBool false)].

Definition REFLECTED_NOTE : string :=
  "[Vigil] The raw tool result was withheld: a detokenized secret was reflected in it and could not be redacted in place.".

(** The result to return, the hits, and whether it was withheld. *)
Definition redact_injected_reflection (v : Value) (injected : list (string * string))
    : Value * (nat * bool) :=
  let '(v', reverse_hits) := reverse_substitute_injected v injected in
  let fail_closed := value_contains_injected v' injected in
  (if fail_closed then withheld_tool_result REFLECTED_NOTE else v', (reverse_hits, fail_closed)).
