(* ===== verification/AliasProps.v ===== *)
(** * What the alias machinery guarantees

    The grammar of alias tokens is one and the same in every scan; the gate
    before the decision and the replacement after it agree; a value goes only to
    the server it is declared for; and no injected value is left in a result. *)

From S2P Require Import Prelude Types Deps Concrete Text Alias.

(** ** The grammar *)

(** What follows a token cannot continue it. *)
Definition ends_body (rest : string) : Prop :=
  match rest with
  | EmptyString => True
  | String a _ => is_alias_body_char a = false
  end.

Lemma pieces_from_skip k lit s : pieces_from k lit s = pieces_from 0 lit (Str.drop k s).
Proof.
  revert s. induction k as [|k IH]; intros s; [by destruct s|].
  destruct s as [|a s]; [done|]. cbn [pieces_from Str.drop]. apply IH.
Qed.

Lemma strip_from_skip k r s : strip_from k r s = strip_from 0 r (Str.drop k s).
Proof.
  revert s. induction k as [|k IH]; intros s; [by destruct s|].
  destruct s as [|a s]; [done|]. cbn [strip_from Str.drop]. apply IH.
Qed.

(** The token at the head of a text. *)
Lemma token_body body rest :
  Str.all is_alias_body_char body = true → ends_body rest →
  take_while is_alias_body_char
    (Str.drop (String.length ALIAS_PREFIX) (ALIAS_PREFIX +:+ body +:+ rest)) = body ∧
  Str.drop (8 + String.length body) (Str.drop 1 (ALIAS_PREFIX +:+ body +:+ rest)) = rest.
Proof.
  intros Hb Hr. rewrite <- drop_add.
  change (1 + (8 + String.length body))%nat
    with (String.length ALIAS_PREFIX + String.length body)%nat.
  rewrite drop_add, !Str.drop_length_append. split; [|done].
  induction body as [|a body IH].
  - destruct rest as [|a rest]; [done|]. cbn [ends_body] in Hr.
    change ("" +:+ String a rest) with (String a rest). cbn [take_while]. by rewrite Hr.
  - cbn [Str.all] in Hb. apply andb_true_iff in Hb as [Ha Hb].
    rewrite Str.append_cons. cbn [take_while]. by rewrite Ha, IH.
Qed.

Lemma prefix_append t :
  ALIAS_PREFIX +:+ t = String "s" (Str.drop 1 (ALIAS_PREFIX +:+ t)) ∧
  Str.starts_with ALIAS_PREFIX (ALIAS_PREFIX +:+ t) = true.
Proof. split; [done|]. apply Str.starts_with_spec. by exists t. Qed.

Lemma pieces_token lit body rest :
  Str.all is_alias_body_char body = true → ends_body rest →
  pieces_from 0 lit (ALIAS_PREFIX +:+ body +:+ rest) =
  flush lit ++ Token body :: pieces_from 0 "" rest.
Proof.
  intros Hb Hr. destruct (token_body body rest Hb Hr) as [Ht Hd].
  destruct (prefix_append (body +:+ rest)) as [Hs Hp]. rewrite Hs. cbn [pieces_from]. rewrite <- Hs.
  by rewrite Hp, Ht, pieces_from_skip, Hd.
Qed.

Lemma strip_token r body rest :
  Str.all is_alias_body_char body = true → ends_body rest →
  strip_from 0 r (ALIAS_PREFIX +:+ body +:+ rest) = r +:+ strip_from 0 r rest.
Proof.
  intros Hb Hr. destruct (token_body body rest Hb Hr) as [Ht Hd].
  destruct (prefix_append (body +:+ rest)) as [Hs Hp]. rewrite Hs. cbn [strip_from]. rewrite <- Hs.
  by rewrite Hp, Ht, strip_from_skip, Hd.
Qed.

Lemma pieces_char lit a s :
  Str.starts_with ALIAS_PREFIX (String a s) = false →
  pieces_from 0 lit (String a s) = pieces_from 0 (lit +:+ String a EmptyString) s.
Proof. intros Hp. cbn [pieces_from]. by rewrite Hp. Qed.

Lemma strip_char r a s :
  Str.starts_with ALIAS_PREFIX (String a s) = false →
  strip_from 0 r (String a s) = String a (strip_from 0 r s).
Proof. intros Hp. cbn [strip_from]. by rewrite Hp. Qed.

(** A text is read token by token, or a byte at a time. *)
Lemma alias_text_ind (P : string → Prop) :
  P "" →
  (∀ body rest, Str.all is_alias_body_char body = true → ends_body rest → P rest →
     P (ALIAS_PREFIX +:+ body +:+ rest)) →
  (∀ a s, Str.starts_with ALIAS_PREFIX (String a s) = false → P s → P (String a s)) →
  ∀ s, P s.
Proof.
  intros H0 Htok Hch s. remember (String.length s) as n eqn:Hn.
  revert s Hn. induction (lt_wf n) as [n _ IH]. intros s ->.
  destruct s as [|a s]; [done|].
  destruct (Str.starts_with ALIAS_PREFIX (String a s)) eqn:Hp.
  - apply Str.starts_with_spec in Hp as [t Ht].
    destruct (take_while_split is_alias_body_char t) as (rest & Hs & Hall & Hr).
    rewrite Ht in *. rewrite Hs at 1. apply Htok; [done|done|].
    apply (IH (String.length rest)); [|done]. rewrite Str.length_append.
    rewrite Hs, Str.length_append. simpl. lia.
  - apply Hch; [done|]. apply (IH (String.length s)); simpl; auto.
Qed.

Definition render (p : AliasPiece) : string :=
  match p with
  | Literal text => text
  | Token alias => ALIAS_PREFIX +:+ alias
  end.

Definition stripped (replacement : string) (p : AliasPiece) : string :=
  match p with
  | Literal text => text
  | Token _ => replacement
  end.

(** A well-formed reading: literals are not empty, hide no token and do not
    touch each other, and a token is as long as it can be. *)
Fixpoint well_read (ps : list AliasPiece) : Prop :=
  match ps with
  | [] => True
  | Literal text :: rest =>
      text ≠ "" ∧ str_contains ALIAS_PREFIX text = false ∧
      match rest with Literal _ :: _ => False | _ => True end ∧ well_read rest
  | Token alias :: rest =>
      Str.all is_alias_body_char alias = true ∧
      match rest with
      | [] => True
      | Literal text :: _ => ends_body text
      | Token _ :: _ => False
      end ∧ well_read rest
  end.

Definition concat_map {A} (f : A → string) (l : list A) : string := String.concat "" (f <$> l).

Lemma concat_empty_cons x l : String.concat "" (x :: l) = x +:+ String.concat "" l.
Proof. destruct l; simpl; [by rewrite Str.append_nil_r|done]. Qed.

Lemma concat_map_cons {A} (f : A → string) x l : concat_map f (x :: l) = f x +:+ concat_map f l.
Proof. apply concat_empty_cons. Qed.

Lemma concat_map_app {A} (f : A → string) l k :
  concat_map f (l ++ k) = concat_map f l +:+ concat_map f k.
Proof.
  induction l as [|x l IH]; [done|]. rewrite <- app_comm_cons, !concat_map_cons, IH.
  by rewrite Str.append_assoc.
Qed.

Lemma flush_concat f lit : (∀ t, f (Literal t) = t) → concat_map f (flush lit) = lit.
Proof.
  intros Hf. unfold flush. destruct (Str.is_empty lit) eqn:E.
  - apply Str.is_empty_spec in E as ->. done.
  - rewrite concat_map_cons, Hf. apply Str.append_nil_r.
Qed.

Lemma snoc_append lit a s : (lit +:+ String a EmptyString) +:+ s = lit +:+ String a s.
Proof. by rewrite <- Str.append_assoc. Qed.

Lemma pieces_concat (f : AliasPiece → string) :
  (∀ t, f (Literal t) = t) →
  ∀ s lit, concat_map f (pieces_from 0 lit s) = lit +:+ concat_map f (pieces_from 0 "" s).
Proof.
  intros Hf s. induction s as [|body rest Hb Hr IH|a s Hp IH] using alias_text_ind; intros lit.
  - cbn [pieces_from]. by rewrite !flush_concat, Str.append_nil_r.
  - rewrite !pieces_token by done. rewrite !concat_map_app, flush_concat by done. done.
  - rewrite !pieces_char by done. rewrite IH, (IH ("" +:+ String a EmptyString)).
    by rewrite Str.append_assoc.
Qed.

Lemma pieces_render s : concat_map render (scan_alias_tokens s) = s.
Proof.
  unfold scan_alias_tokens.
  induction s as [|body rest Hb Hr IH|a s Hp IH] using alias_text_ind; [done| |].
  - rewrite pieces_token by done. change (flush "") with (@nil AliasPiece).
    cbn [app]. by rewrite concat_map_cons, IH, Str.append_assoc.
  - rewrite pieces_char by done. by rewrite (pieces_concat render), IH by done.
Qed.

Lemma pieces_stripped r s : strip_aliases_with s r = concat_map (stripped r) (scan_alias_tokens s).
Proof.
  unfold scan_alias_tokens, strip_aliases_with.
  induction s as [|body rest Hb Hr IH|a s Hp IH] using alias_text_ind; [done| |].
  - rewrite pieces_token, strip_token by done. change (flush "") with (@nil AliasPiece).
    cbn [app]. by rewrite concat_map_cons, IH.
  - rewrite pieces_char, strip_char by done. by rewrite (pieces_concat (stripped r)), IH by done.
Qed.

(** No token begins inside [lit], whose continuation is [s]. *)
Definition no_token (lit s : string) : Prop :=
  ∀ u v, lit = u +:+ v → v ≠ "" → Str.starts_with ALIAS_PREFIX (v +:+ s) = false.

Lemma no_token_contains lit s : no_token lit s → str_contains ALIAS_PREFIX lit = false.
Proof.
  intros Hn. destruct (str_contains ALIAS_PREFIX lit) eqn:E; [|done].
  apply str_contains_spec in E as (u & w & ->).
  specialize (Hn u (ALIAS_PREFIX +:+ w) eq_refl). exfalso.
  rewrite <- Str.append_assoc in Hn. destruct (prefix_append (w +:+ s)) as [_ Hp].
  rewrite Hp in Hn. by discriminate Hn.
Qed.

Lemma append_snoc_split lit a u v :
  lit +:+ String a EmptyString = u +:+ v → v ≠ "" →
  ∃ v', v = v' +:+ String a EmptyString ∧ lit = u +:+ v'.
Proof.
  revert u. induction lit as [|b lit IH]; intros u Huv Hv.
  - destruct u as [|c u].
    + exists "". split; [symmetry; exact Huv|done].
    + injection Huv as _ Huv. symmetry in Huv. by apply Str.append_eq_nil in Huv as [_ ?].
  - destruct u as [|c u].
    + exists (String b lit). split; [symmetry; exact Huv|done].
    + injection Huv as <- Huv. destruct (IH u Huv Hv) as (v' & -> & ->). by exists v'.
Qed.

Lemma no_token_snoc lit a s :
  no_token lit (String a s) → Str.starts_with ALIAS_PREFIX (String a s) = false →
  no_token (lit +:+ String a EmptyString) s.
Proof.
  intros Hn Hp u v Huv Hv. destruct (append_snoc_split lit a u v Huv Hv) as (v' & -> & ->).
  rewrite snoc_append. destruct (decide (v' = "")) as [->|Hne]; [done|]. by apply (Hn u).
Qed.

Lemma well_read_flush lit ps :
  str_contains ALIAS_PREFIX lit = false → well_read ps →
  match ps with Literal _ :: _ => False | _ => True end → well_read (flush lit ++ ps).
Proof.
  intros Hc Hps Hh. unfold flush. destruct (Str.is_empty lit) eqn:E; [done|].
  simpl. repeat split; try done. intros ->. done.
Qed.

Lemma ends_body_append text s : text ≠ "" → ends_body (text +:+ s) ↔ ends_body text.
Proof. by destruct text. Qed.

Lemma pieces_well_read s lit : no_token lit s → well_read (pieces_from 0 lit s).
Proof.
  revert lit. induction s as [|body rest Hb Hr IH|a s Hp IH] using alias_text_ind; intros lit Hn.
  - cbn [pieces_from]. rewrite <- (app_nil_r (flush lit)). apply well_read_flush; [|done..].
    by apply no_token_contains in Hn.
  - rewrite pieces_token by done. apply well_read_flush; [by apply no_token_contains in Hn| |done].
    assert (well_read (pieces_from 0 "" rest)) as Hw.
    { apply IH. intros u v Huv Hv. symmetry in Huv. by apply Str.append_eq_nil in Huv as [_ ?]. }
    pose proof (pieces_render rest) as Hren. unfold scan_alias_tokens in Hren.
    cbn [well_read]. split; [done|]. split; [|done].
    destruct (pieces_from 0 "" rest) as [|[text|al] ps]; [done| |].
    + rewrite concat_map_cons in Hren. cbn [render] in Hren. rewrite <- Hren in Hr.
      apply ends_body_append in Hr; [done|]. apply Hw.
    + rewrite concat_map_cons in Hren. cbn [render] in Hren. rewrite <- Hren in Hr. done.
  - rewrite pieces_char by done. apply IH. by apply no_token_snoc.
Qed.

(** A literal that hides no token, before the end or before a token. *)
Lemma no_straddle text X :
  text ≠ "" → str_contains ALIAS_PREFIX text = false →
  X = "" ∨ (∃ y, X = ALIAS_PREFIX +:+ y) → Str.starts_with ALIAS_PREFIX (text +:+ X) = false.
Proof.
  intros Hne Hc HX. destruct (Str.starts_with ALIAS_PREFIX (text +:+ X)) eqn:E; [|done].
  exfalso. apply Str.starts_with_spec in E as [t Et].
  assert (∃ w, text = ALIAS_PREFIX +:+ w) as [w ->].
  { destruct HX as [->|[y ->]].
    - rewrite Str.append_nil_r in Et. eauto.
    - unfold ALIAS_PREFIX in *. destruct text as [|a text]; [done|]. clear Hne Hc.
      injection Et as -> Et.
      do 8 (destruct text as [|a text]; [discriminate Et|injection Et as -> Et]).
      by exists text. }
  assert (str_contains ALIAS_PREFIX (ALIAS_PREFIX +:+ w) = true) as Hc'; [|congruence].
  apply str_contains_spec. by exists "", w.
Qed.

Lemma contains_tail a text :
  str_contains ALIAS_PREFIX (String a text) = false → str_contains ALIAS_PREFIX text = false.
Proof.
  intros Hc. destruct (str_contains ALIAS_PREFIX text) eqn:E; [|done].
  apply str_contains_spec in E as (u & w & ->). rewrite <- Hc. symmetry.
  apply str_contains_spec. by exists (String a u), w.
Qed.

Lemma pieces_literal text lit X :
  str_contains ALIAS_PREFIX text = false → X = "" ∨ (∃ y, X = ALIAS_PREFIX +:+ y) →
  pieces_from 0 lit (text +:+ X) = pieces_from 0 (lit +:+ text) X.
Proof.
  intros Hc HX. revert lit Hc. induction text as [|a text IH]; intros lit Hc.
  - by rewrite Str.append_nil_r.
  - rewrite Str.append_cons, pieces_char.
    + rewrite IH by (by eapply contains_tail). by rewrite snoc_append.
    + rewrite <- Str.append_cons. by apply no_straddle.
Qed.

Lemma pieces_unique ps : well_read ps → scan_alias_tokens (concat_map render ps) = ps.
Proof.
  unfold scan_alias_tokens. induction ps as [|[text|al] ps IH]; [done| |];
    intros Hw; rewrite concat_map_cons; cbn [render].
  - destruct Hw as (Hne & Hc & Hnext & Hw). rewrite pieces_literal; [|done|].
    + change ("" +:+ text) with text. specialize (IH Hw).
      destruct ps as [|[t|al] ps]; [|done|].
      * cbn [concat_map]. change (concat_map render []) with "". cbn [pieces_from]. unfold flush.
        destruct (Str.is_empty text) eqn:E; [by apply Str.is_empty_spec in E|done].
      * destruct Hw as (Hb & Hnext' & Hw). rewrite concat_map_cons in *. cbn [render] in *.
        rewrite <- Str.append_assoc in *.
        assert (ends_body (concat_map render ps)) as He.
        { destruct ps as [|[t|?] ps]; [done| |done]. rewrite concat_map_cons. cbn [render].
          apply ends_body_append; [apply Hw|done]. }
        rewrite pieces_token in * by done. change (flush "") with (@nil AliasPiece) in IH.
        cbn [app] in IH. rewrite IH. unfold flush.
        destruct (Str.is_empty text) eqn:E; [by apply Str.is_empty_spec in E|done].
    + destruct ps as [|[t|al] ps]; [by left|done|]. right. rewrite concat_map_cons. cbn [render].
      rewrite <- Str.append_assoc. eauto.
  - destruct Hw as (Hb & Hnext & Hw). rewrite <- Str.append_assoc.
    assert (ends_body (concat_map render ps)) as He.
    { destruct ps as [|[t|?] ps]; [done| |done]. rewrite concat_map_cons. cbn [render].
      apply ends_body_append; [apply Hw|done]. }
    rewrite pieces_token by done. by rewrite (IH Hw).
Qed.

(** One grammar of aliases. The pieces that the alias scan makes of a text
    give the text back, and are its only reading into non-empty literals that
    hide no [secret://] and tokens of alias characters as long as they can be;
    and the raw-secret gate, which has its own scanner, strips exactly those
    tokens and keeps exactly those literals. *)
Theorem alias_grammar s :
  let ps := scan_alias_tokens s in
  concat_map render ps = s ∧ well_read ps ∧
  (∀ qs, well_read qs → concat_map render qs = s → qs = ps) ∧
  ∀ replacement, strip_aliases_with s replacement = concat_map (stripped replacement) ps.
Proof.
  simpl. split; [apply pieces_render|]. split.
  - apply pieces_well_read. intros u v Huv Hv. symmetry in Huv.
    by apply Str.append_eq_nil in Huv as [_ ?].
  - split; [|intros r; apply pieces_stripped]. intros qs Hq <-. by rewrite pieces_unique.
Qed.

(** ** Trees *)

(** The string leaves of a tree, its object keys, and the tree with its string
    leaves changed. *)
Fixpoint leaves (v : Value) : list string :=
  match v with
  | JStr s => [s]
  | JArr arr => flat_map leaves arr
  | JObj obj => flat_map (λ kv, leaves kv.2) obj
  | _ => []
  end.

Fixpoint keys (v : Value) : list string :=
  match v with
  | JArr arr => flat_map keys arr
  | JObj obj => flat_map (λ kv, kv.1 :: keys kv.2) obj
  | _ => []
  end.

Fixpoint map_leaves (f : string → string) (v : Value) : Value :=
  match v with
  | JStr s => JStr (f s)
  | JArr arr => JArr (map (map_leaves f) arr)
  | JObj obj => JObj (map (λ kv, (kv.1, map_leaves f kv.2)) obj)
  | other => other
  end.

Lemma Forall_flat_map {A B} (P : B → Prop) (f : A → list B) l :
  Forall P (flat_map f l) ↔ Forall (λ x, Forall P (f x)) l.
Proof.
  induction l as [|x l IH]; simpl; [by split|]. by rewrite Forall_app, Forall_cons, IH.
Qed.

Lemma Exists_flat_map {A B} (P : B → Prop) (f : A → list B) l :
  Exists P (flat_map f l) ↔ Exists (λ x, Exists P (f x)) l.
Proof.
  induction l as [|x l IH]; simpl; [by rewrite !Exists_nil|].
  by rewrite Exists_app, Exists_cons, IH.
Qed.

Lemma flat_map_map {A B C} (f : B → list C) (g : A → B) l :
  flat_map f (map g l) = flat_map (λ x, f (g x)) l.
Proof. induction l as [|x l IH]; simpl; [done|]. by rewrite IH. Qed.

Lemma flat_map_ext_Forall {A B} (f g : A → list B) l :
  Forall (λ x, f x = g x) l → flat_map f l = flat_map g l.
Proof. induction 1 as [|x l Hx _ IH]; simpl; [done|]. by rewrite Hx, IH. Qed.

Lemma map_ext_Forall {A B} (f g : A → B) l : Forall (λ x, f x = g x) l → map f l = map g l.
Proof. induction 1 as [|x l Hx _ IH]; simpl; [done|]. by rewrite Hx, IH. Qed.

Lemma try_each_ok {E A} (f : A → result E unit) l :
  try_each f l = Ok tt ↔ Forall (λ x, f x = Ok tt) l.
Proof.
  induction l as [|x l IH]; simpl; [by split|]. rewrite Forall_cons, <- IH.
  destruct (f x) as [[]|e]; simpl; naive_solver.
Qed.

Lemma try_each_erase {E A B C} (f : A → result E unit) (g : A → C → result E (B * C)) l c :
  Forall (λ x, ∀ c, f x = erase (g x c)) l → try_each f l = erase (try_map_acc g l c).
Proof.
  intros Hl. revert c. induction Hl as [|x l Hx _ IH]; intros c; simpl; [done|].
  rewrite (Hx c). destruct (g x c) as [r|e]; simpl; [|done]. rewrite (IH r.2).
  by destruct (try_map_acc g l r.2).
Qed.

Lemma try_map_acc_ok {E A B D} (f : A → list D → result E (B * list D)) (val : A → B)
    (use : A → list D) l c r :
  Forall (λ x, ∀ c r, f x c = Ok r → r = (val x, c ++ use x)) l →
  try_map_acc f l c = Ok r → r = (map val l, c ++ flat_map use l).
Proof.
  intros Hl. revert c r. induction Hl as [|x l Hx _ IH]; intros c r; simpl.
  - intros [= <-]. by rewrite app_nil_r.
  - destruct (f x c) as [r1|e] eqn:E1; simpl; [|done].
    destruct (try_map_acc f l r1.2) as [rs|e] eqn:E2; simpl; [|done]. intros [= <-].
    apply Hx in E1 as ->. apply IH in E2 as ->. simpl. by rewrite <- app_assoc.
Qed.

Lemma try_map_acc_ext {E A B C} (f g : A → C → result E (B * C)) l c :
  Forall (λ x, ∀ c, f x c = g x c) l → try_map_acc f l c = try_map_acc g l c.
Proof.
  intros Hl. revert c. induction Hl as [|x l Hx _ IH]; intros c; simpl; [done|].
  rewrite Hx. destruct (g x c) as [r|e]; simpl; [|done]. by rewrite IH.
Qed.

Lemma Forall_iff_and {A} (P Q R : A → Prop) l :
  Forall (λ x, P x ↔ Q x ∧ R x) l → Forall P l ↔ Forall Q l ∧ Forall R l.
Proof.
  induction 1 as [|x l Hx _ IH]; [by split|]. rewrite !Forall_cons, Hx, IH. naive_solver.
Qed.

(** ** The gate and the boundary *)

Section Gates.
Context `{Crates} `{Redaction}.
Implicit Types (args : Value) (m : SecretAliasMap).

Definition token_of (p : AliasPiece) : option string :=
  match p with
  | Literal _ => None
  | Token alias => Some alias
  end.

(** The aliases that the arguments name, in order. *)
Definition alias_tokens (args : Value) : list string :=
  flat_map (λ s, omap token_of (scan_alias_tokens s)) (leaves args).

Definition alias_value (m : SecretAliasMap) (alias : string) : string :=
  from_option ae_value "" (m !! alias).

(** The text with each token replaced by its value. *)
Definition inject (m : SecretAliasMap) (s : string) : string :=
  concat_map (λ p, match p with
                   | Literal text => text
                   | Token alias => alias_value m alias
                   end) (scan_alias_tokens s).

Definition uses (m : SecretAliasMap) (alias : string) : string * string :=
  (alias, alias_value m alias).

(** The alias may be used in a call to the server. *)
Definition usable (server_id : string) (m : SecretAliasMap) (alias : string) : Prop :=
  detect_hard_secret alias = None ∧ ∃ value, m !! alias = Some (mkAliasEntry value server_id).

Lemma alias_resolve_ok m alias server_id v :
  alias_resolve m alias server_id = Ok v ↔ usable server_id m alias ∧ v = alias_value m alias.
Proof.
  unfold alias_resolve, usable, alias_value. destruct (detect_hard_secret alias); [naive_solver|].
  destruct (m !! alias) as [[value server]|]; simpl; [|naive_solver].
  destruct (String.eqb_spec server server_id) as [->|Hne]; simpl; naive_solver.
Qed.

Lemma validate_erase args server_id m injected :
  validate_alias_refs args server_id m = erase (detokenize_alias_refs args server_id m injected).
Proof.
  revert injected.
  induction args as [|b|z|t|s|arr IH|obj IH] using value_ind; intros injected; try done;
    cbn [validate_alias_refs detokenize_alias_refs].
  - rewrite (try_each_erase _ (detokenize_piece server_id m) _ injected).
    + by destruct (try_map_acc _ _ _).
    + apply Forall_forall. intros [text|alias] _ c; simpl; [done|].
      by destruct (alias_resolve m alias server_id).
  - rewrite (try_each_erase _ (λ item, detokenize_alias_refs item server_id m) _ injected).
    + by destruct (try_map_acc _ _ _).
    + exact IH.
  - rewrite (try_each_erase _ (λ kv injected,
        if str_contains ALIAS_PREFIX kv.1 then Err AliasResolveError.KeyPosition
        else
          let? r := detokenize_alias_refs kv.2 server_id m injected in
          Ok ((kv.1, r.1), r.2)) _ injected).
    + by destruct (try_map_acc _ _ _).
    + eapply Forall_impl; [exact IH|]. intros [k v] Hv c. simpl in *.
      destruct (str_contains ALIAS_PREFIX k); [done|]. rewrite (Hv c).
      by destruct (detokenize_alias_refs v server_id m c).
Qed.

Lemma validate_refs_ok args server_id m :
  validate_alias_refs args server_id m = Ok tt ↔
  Forall (usable server_id m) (alias_tokens args) ∧
  Forall (λ k, str_contains ALIAS_PREFIX k = false) (keys args).
Proof.
  unfold alias_tokens. rewrite Forall_flat_map.
  induction args as [|b|z|t|s|arr IH|obj IH] using value_ind; cbn [validate_alias_refs leaves keys];
    try (by split).
  - rewrite try_each_ok, Forall_singleton. split.
    + intros Hps. split; [|done]. induction Hps as [|[text|alias] ps Hp _ IH]; simpl; [done..|].
      constructor; [|done]. simpl in Hp.
      destruct (alias_resolve m alias server_id) eqn:E; [|done]. by apply alias_resolve_ok in E as [E _].
    + intros [Hu _]. apply Forall_forall. intros [text|alias] Hin; [done|].
      assert (alias_resolve m alias server_id = Ok (alias_value m alias)) as Hr.
      { apply alias_resolve_ok. split; [|done]. rewrite Forall_forall in Hu. apply Hu.
        apply list_elem_of_omap. by exists (Token alias). }
      simpl. by rewrite Hr.
  - rewrite try_each_ok, !Forall_flat_map. apply Forall_iff_and. exact IH.
  - rewrite try_each_ok, !Forall_flat_map. apply Forall_iff_and.
    eapply Forall_impl; [exact IH|]. intros [k v] Hv. simpl in *. rewrite Forall_cons.
    destruct (str_contains ALIAS_PREFIX k); [|rewrite Hv]; naive_solver.
Qed.

Lemma detokenize_ok args server_id m injected r :
  detokenize_alias_refs args server_id m injected = Ok r →
  r = (map_leaves (inject m) args, injected ++ (uses m <$> alias_tokens args)).
Proof.
  unfold alias_tokens. revert injected r.
  induction args as [|b|z|t|s|arr IH|obj IH] using value_ind; intros injected r;
    cbn [detokenize_alias_refs map_leaves leaves flat_map];
    try (intros [= <-]; by rewrite app_nil_r).
  - destruct (try_map_acc _ (scan_alias_tokens s) injected) as [rs|e] eqn:E; simpl; [|done].
    intros [= <-].
    apply (try_map_acc_ok _ (λ p, match p with
                                  | Literal text => text
                                  | Token alias => alias_value m alias
                                  end)
             (λ p, uses m <$> option_list (token_of p))) in E as ->.
    + simpl. rewrite app_nil_r. do 2 f_equal. clear.
      induction (scan_alias_tokens s) as [|[text|alias] ps IH]; simpl; [done|done|].
      by rewrite IH.
    + apply Forall_forall. intros [text|alias] _ c [v c']; simpl.
      * intros [= <- <-]. by rewrite app_nil_r.
      * destruct (alias_resolve m alias server_id) as [v'|] eqn:Hv; simpl; [|done].
        apply alias_resolve_ok in Hv as [_ ->]. by intros [= <- <-].
  - destruct (try_map_acc _ arr injected) as [rs|e] eqn:E; simpl; [|done]. intros [= <-].
    apply (try_map_acc_ok _ (map_leaves (inject m))
             (λ v, uses m <$> flat_map (λ s, omap token_of (scan_alias_tokens s)) (leaves v)))
      in E as ->; [|exact IH].
    simpl. f_equal. f_equal. clear.
    induction arr as [|v arr IH]; simpl; [done|]. by rewrite IH, flat_map_app, fmap_app.
  - destruct (try_map_acc _ obj injected) as [rs|e] eqn:E; simpl; [|done]. intros [= <-].
    apply (try_map_acc_ok _ (λ kv, (kv.1, map_leaves (inject m) kv.2))
             (λ kv, uses m <$> flat_map (λ s, omap token_of (scan_alias_tokens s)) (leaves kv.2)))
      in E as ->.
    + simpl. f_equal. f_equal. clear.
      induction obj as [|[k v] obj IH]; simpl; [done|]. by rewrite IH, flat_map_app, fmap_app.
    + eapply Forall_impl; [exact IH|]. intros [k v] Hv c r. simpl in *.
      destruct (str_contains ALIAS_PREFIX k); [done|].
      destruct (detokenize_alias_refs v server_id m c) as [r'|e] eqn:E'; simpl; [|done].
      apply Hv in E' as ->. by intros [= <-].
Qed.

(** The boundary depends on no value but those of the server's own aliases. *)
Lemma detokenize_ext args server_id m1 m2 injected :
  (∀ alias, alias_resolve m1 alias server_id = alias_resolve m2 alias server_id) →
  detokenize_alias_refs args server_id m1 injected =
  detokenize_alias_refs args server_id m2 injected.
Proof.
  intros Hm. revert injected.
  induction args as [|b|z|t|s|arr IH|obj IH] using value_ind; intros injected; try done;
    cbn [detokenize_alias_refs].
  - erewrite (try_map_acc_ext _ (detokenize_piece server_id m2)); [done|].
    apply Forall_forall. intros [text|alias] _ c; simpl; [done|]. by rewrite Hm.
  - erewrite (try_map_acc_ext _ (λ item, detokenize_alias_refs item server_id m2)); [done|].
    exact IH.
  - erewrite (try_map_acc_ext _ (λ kv injected,
        if str_contains ALIAS_PREFIX kv.1 then Err AliasResolveError.KeyPosition
        else
          let? r := detokenize_alias_refs kv.2 server_id m2 injected in
          Ok ((kv.1, r.1), r.2))); [done|].
    eapply Forall_impl; [exact IH|]. intros [k v] Hv c. simpl in *. by rewrite Hv.
Qed.

(** Only the values of other servers' aliases differ. *)
Definition same_for (server_id : string) (m1 m2 : SecretAliasMap) : Prop :=
  ∀ alias, ae_server <$> m1 !! alias = ae_server <$> m2 !! alias ∧
    ((ae_server <$> m1 !! alias) = Some server_id → m1 !! alias = m2 !! alias).

(** C17. Values go where they were declared to go, and nowhere else. The gate
    before the decision and the replacement at the upstream call agree on every
    input, errors included; they accept exactly the arguments whose every alias
    is declared for this very server, with a name that is not itself a secret,
    and whose keys hold none; the call then carries the arguments with each alias
    replaced by its value, and records each value used. Nothing depends on the
    value of an alias declared for another server. *)
Theorem alias_values_stay_with_their_server args server_id m :
  match detokenize_alias_refs args server_id m [] with
  | Ok (sent, injected) =>
      validate_alias_refs args server_id m = Ok tt ∧
      Forall (usable server_id m) (alias_tokens args) ∧
      Forall (λ k, str_contains ALIAS_PREFIX k = false) (keys args) ∧
      sent = map_leaves (inject m) args ∧ injected = uses m <$> alias_tokens args
  | Err e =>
      validate_alias_refs args server_id m = Err e ∧
      ¬ (Forall (usable server_id m) (alias_tokens args) ∧
         Forall (λ k, str_contains ALIAS_PREFIX k = false) (keys args))
  end ∧
  ∀ m', same_for server_id m m' →
    detokenize_alias_refs args server_id m' [] = detokenize_alias_refs args server_id m [] ∧
    validate_alias_refs args server_id m' = validate_alias_refs args server_id m.
Proof.
  assert (∀ m', same_for server_id m m' →
    detokenize_alias_refs args server_id m' [] = detokenize_alias_refs args server_id m []) as Hext.
  { intros m' Hs. apply detokenize_ext. intros alias. destruct (Hs alias) as [He Hv].
    unfold alias_resolve. destruct (detect_hard_secret alias); [done|].
    destruct (m !! alias) as [[v s]|], (m' !! alias) as [[v' s']|]; simpl in *; [|done..].
    injection He as <-. destruct (String.eqb_spec s server_id) as [->|Hne]; simpl; [|done].
    by specialize (Hv eq_refl) as [= ->]. }
  split.
  - pose proof (validate_erase args server_id m []) as Hv.
    pose proof (validate_refs_ok args server_id m) as Hiff.
    destruct (detokenize_alias_refs args server_id m []) as [[sent injected]|e] eqn:E;
      simpl in Hv; rewrite Hv in *.
    + apply detokenize_ok in E. simpl in E. simplify_eq. naive_solver.
    + naive_solver.
  - intros m' Hs. split; [by apply Hext|].
    by rewrite !(validate_erase _ _ _ []), Hext.
Qed.

(** ** The raw-secret gate *)

Lemma first_hit_none {A} (f : A → bool → option (string * bool) * bool) (ok aliased : A → Prop) l :
  Forall (λ x, ∀ saw, ((f x saw).1 = None ↔ ok x) ∧
    ((f x saw).1 = None → (f x saw).2 = true ↔ saw = true ∨ aliased x)) l →
  ∀ saw, ((first_hit f l saw).1 = None ↔ Forall ok l) ∧
    ((first_hit f l saw).1 = None → (first_hit f l saw).2 = true ↔ saw = true ∨ Exists aliased l).
Proof.
  induction 1 as [|x l Hx _ IH]; intros saw; simpl.
  { split; [by split|]. intros _. rewrite Exists_nil. naive_solver. }
  destruct (Hx saw) as [Ho Ha]. destruct (f x saw) as [[hit|] saw'] eqn:E; simpl in *.
  - split; [|done]. split; [done|]. intros Hall%Forall_inv. by apply Ho in Hall.
  - destruct (IH saw') as [IHo IHa]. rewrite Forall_cons, Exists_cons. split; [naive_solver|].
    intros Hn. rewrite (IHa Hn), Ha by done. naive_solver.
Qed.

Lemma scan_walk_spec v saw :
  ((scan_walk v saw).1 = None ↔
   Forall (λ s, detect_hard_secret (strip_aliases s) = None) (leaves v) ∧
   Forall (λ k, detect_hard_secret k = None) (keys v)) ∧
  ((scan_walk v saw).1 = None → (scan_walk v saw).2 = true ↔
   saw = true ∨ Exists (λ s, detect_hard_secret s ≠ None) (leaves v)).
Proof.
  revert saw. induction v as [|b|z|t|s|arr IH|obj IH] using value_ind; intros saw;
    cbn [scan_walk leaves keys];
    try (split; [by split|intros _; rewrite Exists_nil; naive_solver]).
  - unfold scan_string. rewrite Forall_singleton, Exists_cons, Exists_nil.
    destruct (detect_hard_secret (strip_aliases s)); simpl; [naive_solver|].
    destruct (detect_hard_secret s); naive_solver.
  - rewrite !Forall_flat_map, Exists_flat_map, <- Forall_and.
    apply first_hit_none. exact IH.
  - rewrite !Forall_flat_map, Exists_flat_map, <- Forall_and.
    apply (first_hit_none _ (λ kv, Forall (λ s, detect_hard_secret (strip_aliases s) = None)
      (leaves kv.2) ∧ Forall (λ k, detect_hard_secret k = None) (kv.1 :: keys kv.2))
      (λ kv, Exists (λ s, detect_hard_secret s ≠ None) (leaves kv.2))).
    eapply Forall_impl; [exact IH|]. intros [k v] Hv saw'. simpl in *. rewrite Forall_cons.
    destruct (detect_hard_secret k); simpl; [naive_solver|].
    destruct (Hv saw') as [Ho Ha]. split; [naive_solver|done].
Qed.

Lemma first_hit_some {A} (f : A → bool → option (string * bool) * bool) l saw hit :
  (first_hit f l saw).1 = Some hit → Exists (λ x, ∃ saw', (f x saw').1 = Some hit) l.
Proof.
  revert saw. induction l as [|x l IH]; intros saw; simpl; [done|].
  destruct (f x saw) as [[h|] saw'] eqn:E; simpl.
  - intros [= ->]. left. exists saw. by rewrite E.
  - intros Hh. right. by apply (IH saw').
Qed.

(** The text outside the aliases holds a secret of the rule; [shadowed] tells an
    environment assignment that only the separator put for an alias made. *)
Definition leaf_hit (rule : string) (shadowed : bool) (s : string) : Prop :=
  detect_hard_secret (strip_aliases s) = Some rule ∧
  (shadowed = true ↔ rule = "env_assignment" ∧ strip_aliases s ≠ s ∧
     detect_hard_secret (strip_aliases_with s "") ≠ Some "env_assignment").

Lemma scan_string_hit s saw rule shadowed :
  (scan_string s saw).1 = Some (rule, shadowed) → leaf_hit rule shadowed s.
Proof.
  unfold scan_string, leaf_hit.
  destruct (detect_hard_secret (strip_aliases s)) as [r|]; simpl; [|done].
  intros [= -> <-]. split; [done|].
  destruct (String.eqb_spec rule "env_assignment") as [->|Hr]; simpl; [|naive_solver].
  destruct (String.eqb_spec (strip_aliases s) s) as [->|Hs]; simpl; [naive_solver|].
  rewrite negb_true_iff, bool_decide_eq_false. naive_solver.
Qed.

Lemma scan_walk_hit v saw rule shadowed :
  (scan_walk v saw).1 = Some (rule, shadowed) →
  Exists (leaf_hit rule shadowed) (leaves v) ∨
  (shadowed = false ∧ Exists (λ k, detect_hard_secret k = Some rule) (keys v)).
Proof.
  revert saw. induction v as [|b|z|t|s|arr IH|obj IH] using value_ind; intros saw;
    cbn [scan_walk leaves keys]; try done.
  - intros Hh%scan_string_hit. left. by constructor.
  - intros (x & Hin & saw' & Hh)%first_hit_some%Exists_exists. rewrite !Exists_flat_map.
    rewrite Forall_forall in IH. apply IH in Hh as [Hh|[? Hh]]; [left|right; split; [done|]|done];
      apply Exists_exists; eauto.
  - intros ([k v] & Hin & saw' & Hh)%first_hit_some%Exists_exists. rewrite !Exists_flat_map.
    rewrite Forall_forall in IH. simpl in Hh.
    destruct (detect_hard_secret k) as [r|] eqn:Hk; simpl in Hh.
    + injection Hh as -> <-. right. split; [done|]. apply Exists_exists. exists (k, v).
      split; [done|]. by left.
    + apply (IH (k, v)) in Hh as [Hh|[? Hh]]; [left|right; split; [done|]|done];
        apply Exists_exists; exists (k, v); split; try done. by right.
Qed.

(** No secret lies outside the aliases. *)
Definition holds_only_aliases (args : Value) : Prop :=
  Forall (λ s, detect_hard_secret (strip_aliases s) = None) (leaves args) ∧
  Forall (λ k, detect_hard_secret k = None) (keys args).

Lemma scan_passed args :
  (∀ rule shadowed, scan_args_for_raw_secrets args ≠ RawSecret rule shadowed) →
  holds_only_aliases args.
Proof.
  unfold scan_args_for_raw_secrets, holds_only_aliases.
  destruct (scan_walk_spec args false) as [Hnone _].
  destruct (scan_walk args false) as [[[rule sh]|] saw]; simpl in *; [|by intros _; apply Hnone].
  intros Hno. by destruct (Hno rule sh).
Qed.

(** C18. The raw-secret gate reads every string and every key of the arguments.
    It answers [Clean] or [AllAliased] exactly when no key and no text outside an
    alias holds a hard secret, and tells the two apart by whether some string
    holds one when its aliases are read too. Otherwise it names a rule that a key
    or such a text does match; and it blames the alias itself only for an
    environment assignment that is gone once the alias is taken out whole. *)
Theorem raw_secret_gate_reads_everything args :
  match scan_args_for_raw_secrets args with
  | Clean =>
      holds_only_aliases args ∧ Forall (λ s, detect_hard_secret s = None) (leaves args)
  | AllAliased =>
      holds_only_aliases args ∧ Exists (λ s, detect_hard_secret s ≠ None) (leaves args)
  | RawSecret rule shadowed =>
      ¬ holds_only_aliases args ∧
      (Exists (leaf_hit rule shadowed) (leaves args) ∨
       (shadowed = false ∧ Exists (λ k, detect_hard_secret k = Some rule) (keys args)))
  end.
Proof.
  unfold scan_args_for_raw_secrets, holds_only_aliases.
  destruct (scan_walk_spec args false) as [Hnone Hsaw].
  pose proof (λ rule sh, scan_walk_hit args false rule sh) as Hhit.
  destruct (scan_walk args false) as [[[rule sh]|] saw]; simpl in *.
  - split; [|by apply Hhit]. by intros ?%Hnone.
  - destruct (Hsaw eq_refl) as [Hs1 Hs2]. destruct saw.
    + split; [by apply Hnone|]. by destruct Hs1.
    + split; [by apply Hnone|]. apply Forall_forall. intros s Hin.
      destruct (detect_hard_secret s) eqn:E; [|done]. exfalso.
      assert (false = true); [|done]. apply Hs2. right. apply Exists_exists. exists s. by rewrite E.
Qed.
End Gates.

(** ** The values out of the result *)

Section Reflection.
Implicit Types (v : Value) (injected : list (string * string)).

(** No value that was injected is part of the text. *)
Definition free_of (injected : list (string * string)) (s : string) : Prop :=
  ∀ alias value, (alias, value) ∈ injected → value ≠ "" → ¬ ∃ u w, s = u +:+ value +:+ w.

Lemma holds_injected_free injected s : holds_injected injected s = false ↔ free_of injected s.
Proof.
  unfold holds_injected, free_of. rewrite <- not_true_iff_false, existsb_exists. split.
  - intros Hn alias value Hin Hne Hc. apply Hn. exists (alias, value). split.
    { by apply list_elem_of_In. }
    simpl. apply str_contains_spec in Hc as ->. by destruct value.
  - intros Hf ([alias value] & Hin%list_elem_of_In & [Hne Hc]%andb_true_iff). simpl in *.
    apply str_contains_spec in Hc. apply (Hf alias value Hin); [|done]. by destruct value.
Qed.

Lemma contains_injected_free v injected :
  value_contains_injected v injected = false ↔
  Forall (free_of injected) (leaves v) ∧ Forall (free_of injected) (keys v).
Proof.
  induction v as [|b|z|t|s|arr IH|obj IH] using value_ind;
    cbn [value_contains_injected leaves keys]; try by split.
  - rewrite Forall_singleton, holds_injected_free. naive_solver.
  - rewrite !Forall_flat_map, <- (Forall_iff_and _ _ _ _ IH), <- not_true_iff_false, existsb_exists.
    rewrite Forall_forall. setoid_rewrite list_elem_of_In. split.
    + intros Hn x Hx. apply not_true_iff_false. intros Ht. apply Hn. eauto.
    + intros Hf (x & Hx & Ht). by rewrite Hf in Ht.
  - rewrite !Forall_flat_map.
    rewrite <- (Forall_iff_and (λ kv, holds_injected injected kv.1 = false ∧
      value_contains_injected kv.2 injected = false)).
    + rewrite <- not_true_iff_false, existsb_exists, Forall_forall.
      setoid_rewrite list_elem_of_In. split.
      * intros Hn x Hx. apply orb_false_iff, not_true_iff_false. intros Ht. apply Hn. eauto.
      * intros Hf (x & Hx & Ht). apply Hf in Hx as [Hk Hv]. by rewrite Hk, Hv in Ht.
    + eapply Forall_impl; [exact IH|]. intros [k v] Hv. simpl in *.
      rewrite Forall_cons, holds_injected_free, Hv. naive_solver.
Qed.

(** A string after all injected values were put back. *)
Definition put_back (injected : list (string * string)) (s : string) : string * nat :=
  foldl reverse_one (s, 0%nat) injected.

Lemma put_back_free injected s : free_of injected s → put_back injected s = (s, 0%nat).
Proof.
  unfold put_back. intros Hf. induction injected as [|[alias value] injected IH]; [done|].
  simpl. assert (Str.is_empty value || negb (str_contains value s) = true) as ->.
  - destruct (decide (value = "")) as [->|Hne]; [done|].
    assert (¬ ∃ u w, s = u +:+ value +:+ w) as Hc by (apply (Hf alias value); [left|done]).
    rewrite <- str_contains_spec in Hc. apply not_true_iff_false in Hc as ->. apply orb_true_r.
  - apply IH. intros a v Hin. apply (Hf a v). by right.
Qed.

Lemma reverse_leaves v injected :
  (reverse_substitute_injected v injected).1 = map_leaves (λ s, (put_back injected s).1) v ∧
  (reverse_substitute_injected v injected).2 =
    sum_list ((λ s, (put_back injected s).2) <$> leaves v).
Proof.
  induction v as [|b|z|t|s|arr IH|obj IH] using value_ind;
    cbn [reverse_substitute_injected leaves map_leaves]; try done.
  - simpl. split.
    + f_equal. induction IH as [|v arr [Hv _] _ IH]; simpl; [done|]. by f_equal.
    + induction IH as [|v arr [_ Hv] _ IH]; simpl; [done|].
      rewrite fmap_app, sum_list_with_app, Hv. f_equal. exact IH.
  - simpl. split.
    + f_equal. induction IH as [|[k v] obj [Hv _] _ IH]; simpl in *; [done|]. rewrite Hv. by f_equal.
    + induction IH as [|[k v] obj [_ Hv] _ IH]; simpl in *; [done|].
      rewrite fmap_app, sum_list_with_app, Hv. f_equal. exact IH.
Qed.

Lemma map_leaves_id (f : string → string) v :
  Forall (λ s, f s = s) (leaves v) → map_leaves f v = v.
Proof.
  induction v as [|b|z|t|s|arr IH|obj IH] using value_ind; cbn [leaves map_leaves]; try done.
  - by intros ->%Forall_singleton.
  - intros Hf. f_equal. apply Forall_flat_map in Hf.
    induction IH as [|v arr Hv _ IH]; simpl; [done|]. apply Forall_cons in Hf as [? ?].
    by rewrite Hv, IH.
  - intros Hf. f_equal. apply Forall_flat_map in Hf.
    induction IH as [|[k v] obj Hv _ IH]; simpl in *; [done|]. apply Forall_cons in Hf as [? ?].
    by rewrite Hv, IH.
Qed.

Lemma put_back_all injected (l : list string) :
  Forall (free_of injected) l → sum_list ((λ s, (put_back injected s).2) <$> l) = 0%nat.
Proof. induction 1 as [|s l Hs _ IH]; simpl; [done|]. rewrite put_back_free by done. exact IH. Qed.

Lemma reflection_free v injected :
  let r := redact_injected_reflection v injected in
  r.2.2 = false →
  Forall (free_of injected) (leaves r.1) ∧ Forall (free_of injected) (keys r.1).
Proof.
  unfold redact_injected_reflection.
  destruct (reverse_substitute_injected v injected) as [v' hits]. simpl.
  destruct (value_contains_injected v' injected) eqn:E; [done|]. intros _.
  by apply contains_injected_free.
Qed.

Lemma reflection_cases v injected :
  let w := (redact_injected_reflection v injected).1 in
  w = withheld_tool_result REFLECTED_NOTE ∨
  w = map_leaves (λ s, (put_back injected s).1) v
  ∧ Forall (free_of injected) (leaves w) ∧ Forall (free_of injected) (keys w).
Proof.
  pose proof (reflection_free v injected) as Hfree. revert Hfree.
  pose proof (reverse_leaves v injected) as [Hv Hn]. unfold redact_injected_reflection.
  destruct (reverse_substitute_injected v injected) as [v' hits]. simpl in *. subst v'.
  destruct (value_contains_injected _ injected); [by left|right]. auto.
Qed.

Lemma no_reflection_unchanged v injected :
  Forall (free_of injected) (leaves v) → Forall (free_of injected) (keys v) →
  redact_injected_reflection v injected = (v, (0%nat, false)).
Proof.
  intros Hl Hk. pose proof (reverse_leaves v injected) as [Hv Hn].
  unfold redact_injected_reflection.
  destruct (reverse_substitute_injected v injected) as [v' hits]. simpl in *. subst v' hits.
  rewrite put_back_all by done. rewrite map_leaves_id.
  2:{ eapply Forall_impl; [exact Hl|]. intros s Hs. by rewrite put_back_free. }
  by rewrite (proj2 (contains_injected_free v injected) (conj Hl Hk)).
Qed.

(** C20. No injected value comes back. What the hub passes on is either the fixed
    notice, or the upstream's result with every occurrence of an injected value
    in its strings turned back into the alias, and then no string and no key of
    it holds any value injected into the call. A result that reflects nothing is
    passed on as it is, with no hit counted. *)
Theorem no_injected_value_returns v injected :
  let '(v', (hits, withheld)) := redact_injected_reflection v injected in
  (if withheld then v' = withheld_tool_result REFLECTED_NOTE
   else v' = map_leaves (λ s, (put_back injected s).1) v ∧
     Forall (free_of injected) (leaves v') ∧ Forall (free_of injected) (keys v')) ∧
  (Forall (free_of injected) (leaves v) ∧ Forall (free_of injected) (keys v) →
   v' = v ∧ hits = 0%nat ∧ withheld = false).
Proof.
  pose proof (reflection_cases v injected) as Hc. pose proof (no_reflection_unchanged v injected) as Hn.
  pose proof (reverse_leaves v injected) as [Hv _]. revert Hc Hn. unfold redact_injected_reflection.
  destruct (reverse_substitute_injected v injected) as [v' hits] eqn:E. simpl in Hv. subst v'.
  destruct (value_contains_injected _ injected) eqn:Ec; simpl; intros Hc Hn.
  - split; [done|]. intros [Hl Hk]. by specialize (Hn Hl Hk).
  - split; [|intros [Hl Hk]; by specialize (Hn Hl Hk) as [= -> ->]].
    split; [done|]. by apply contains_injected_free.
Qed.
End Reflection.
