(* ===== verification/Protocol.v ===== *)
(** * The gateway's protocol data

    [src/crates/vigil-mcp/src/protocol.rs], [upstream.rs] and [descriptor.rs]:
    JSON-RPC requests and responses, the errors an upstream answers with, and the
    hash that pins a tool's descriptor; and the approval request and answer of
    [src/crates/vigil-ui-protocol]. *)

From S2P Require Import Prelude Types Deps Hash.

(** ** JSON-RPC *)

Record JsonRpcRequest := mkJsonRpcRequest {
  jsonrpc : string;
  rq_id : option Value;
  rq_method : string;
  rq_params : option Value;
}.

Record JsonRpcError := mkJsonRpcError {
  code : Z;
  message : string;
  data : option Value;
}.

Record JsonRpcResponse := mkJsonRpcResponse {
  rs_jsonrpc : string;
  rs_id : Value;
  rs_result : option Value;
  rs_error : option JsonRpcError;
}.

Definition PARSE : Z := -32700.
Definition INVALID_REQUEST : Z := -32600.
Definition METHOD_NOT_FOUND : Z := -32601.
Definition INVALID_PARAMS : Z := -32602.
Definition INTERNAL : Z := -32603.
Definition VIGIL_DENIED : Z := 32001.
Definition VIGIL_APPROVAL_REJECTED : Z := 32002.
Definition VIGIL_UPSTREAM_UNAVAILABLE : Z := 32003.

Definition is_notification (self : JsonRpcRequest) : bool :=
  match rq_id self with
  | None => true
  | Some _ => false
  end.

Definition success (self : JsonRpcRequest) (result : Value) : JsonRpcResponse :=
  mkJsonRpcResponse "2.0" (default JNull (rq_id self)) (Some result) None.

Definition error (self : JsonRpcRequest) (code : Z) (message : string) (data : option Value)
    : JsonRpcResponse :=
  mkJsonRpcResponse "2.0" (default JNull (rq_id self)) None
    (Some (mkJsonRpcError code message data)).

(** ** Upstream errors *)

Module UpstreamError.
Inductive UpstreamError :=
| TransportIo (reason_code : string)
| TimedOut (duration_debug : string)
| Unauthorized (reason_code : string)
| Forbidden
| JsonRpc (code_text message_sha256 : string)
| TokenRehydrateRequired (reason_code : string)
| AuthError (reason_code : string)
| Internal (reason_code : string)
| ProtocolVersionUnsupported (negotiated supported : string)
| ModernOnlyUpstream (supported latest : string).

(** [Display]; a duration and a code are kept as the text they print as. *)
Definition to_string (e : UpstreamError) : string :=
  match e with
  | TransportIo r => "transport_io: " +:+ r
  | TimedOut d => "timed_out: " +:+ d
  | Unauthorized r => "unauthorized: " +:+ r
  | Forbidden => "forbidden"
  | JsonRpc c _ => "jsonrpc_error: code=" +:+ c
  | TokenRehydrateRequired r => "token_rehydrate_required: " +:+ r
  | AuthError r => "auth_error: " +:+ r
  | Internal r => "internal: " +:+ r
  | ProtocolVersionUnsupported n s =>
      "protocol version " +:+ n
      +:+ " negotiated by upstream is not supported by this Vigil build (supports " +:+ s +:+ ")"
  | ModernOnlyUpstream s l =>
      "upstream speaks only MCP 2026-07-28+ (advertised: " +:+ s
      +:+ "); this Vigil build talks up to " +:+ l
      +:+ " — upgrade Vigil or pin the server to a legacy protocol"
  end.
End UpstreamError.
Abbreviation UpstreamError := UpstreamError.UpstreamError.

(** ** Approvals, as the user interface asks for them *)

Module ApprovalAction.
Inductive ApprovalAction := Approve | Deny | Cancel.
End ApprovalAction.
Abbreviation ApprovalAction := ApprovalAction.ApprovalAction.

Record ResolveApprovalReq := mkResolveApprovalReq {
  ra_approval_id : string;
  ra_action : ApprovalAction;
  ra_scope : option ApprovalScope;
  ra_resolved_by : string;
  ra_reason : option string;
}.

Record ApprovalResolutionDto := mkApprovalResolutionDto {
  dto_approval_id : string;
  dto_status : ApprovalStatus;
  dto_scope : option ApprovalScope;
  dto_resolved_by : option string;
}.

(** ** Tool descriptors *)

Definition DESCRIPTOR_DOMAIN_TAG : string := "vigil.descriptor.tool.v1".

Definition canonical_input (server_id tool_name : string) (schema : Value)
    (description : option string) (annotations : Value) : Value :=
  JObj [("server_id", JStr server_id); ("tool_name", JStr tool_name); ("schema", schema);
        ("description", json_opt_str description); ("annotations", annotations)].

Section Protocol.
Context `{Crates}.

(** [None]: the descriptor has no canonical text. *)
Definition descriptor_hash (server_id tool_name : string) (schema : Value)
    (description : option string) (annotations : Value) : option string :=
  payload_bytes ← jcs_to_vec (canonical_input server_id tool_name schema description annotations);
  Some (hex_encode (sha256 (DESCRIPTOR_DOMAIN_TAG
    +:+ (Bytes.u32_be (Z.of_nat (String.length payload_bytes)) +:+ payload_bytes)))).

(** [jcs_sha256] *)
Definition jcs_sha256 (v : Value) : option string :=
  bytes ← jcs_to_vec v; Some (hex_encode (sha256 bytes)).

Definition compute_argv_hash (argv : list string) : option string := jcs_sha256 (json_strs argv).
End Protocol.
