(* ===== verification/ToolResult.v ===== *)
(** * What happens to a tool's result

    [src/crates/vigil-mcp/src/hub.rs]: the scrubbing of a result that holds a
    credential (strings, keys, and the JSON texts inside strings), and the soft
    signal for instructions injected into a result or a descriptor. *)

From stdpp Require Import pretty.
From S2P Require Import Prelude Types Json Deps Db Ledger Holes Redact Approvals Text Alias.

(** ** Scrubbing *)

Definition BARE_TOKEN_KEY_NAME : string := "token".
Definition SECRET_VALUE_MIN_CHARS : nat := 6.
Definition BARE_TOKEN_VALUE_MIN_CHARS : nat := 16.

Definition secret_value_min_chars (key : string) : nat :=
  if Str.eq_ignore_ascii_case key BARE_TOKEN_KEY_NAME then BARE_TOKEN_VALUE_MIN_CHARS
  else SECRET_VALUE_MIN_CHARS.

Definition KEY_PLACEHOLDER : string := "[REDACTED env_assignment]".

(** What an injection scan is about; the session and the text to scan. *)
Module InjectionJobKind.
Inductive InjectionJobKind :=
| Result (invocation_id server_id tool_name : string)
| Descriptor (server_id tool_name : string).
End InjectionJobKind.
Abbreviation InjectionJobKind := InjectionJobKind.InjectionJobKind.

Record InjectionJob := mkInjectionJob {
  ij_session_id : string;
  ij_text : string;
  ij_kind : InjectionJobKind;
}.

(** A classifier's score by what the audit reads of it: whether it reaches the
    threshold, and its value rounded to two digits. *)
Record Score := mkScore { at_threshold : bool; round2 : Value }.

Definition show_bool (b : bool) : string := if b then "true" else "false".
Definition show_nat (n : nat) : string := pretty n.

Section ToolResult.
Context `{Crates} `{Redaction} `{ResultRedaction}.

(** The string case of [scrub_object_value]. *)
Definition scrub_named_string (leaf : string → string) (key s : string) : string :=
  let l := leaf s in
  if String.eqb l s && is_secret_key_name key
     && (secret_value_min_chars key <=? char_count s)%nat
  then KEY_PLACEHOLDER else l.

(** [scrub_json_strings], with what is done to a string as an argument. *)
Fixpoint scrub_tree (leaf : string → string) (v : Value) : Value :=
  match v with
  | JStr s => JStr (leaf s)
  | JArr arr => JArr (map (scrub_tree leaf) arr)
  | JObj fields =>
      JObj (collect_map (map (λ kv,
        (scrub_text kv.1,
         match kv.2 with
         | JStr s => JStr (scrub_named_string leaf kv.1 s)
         | _ => scrub_tree leaf kv.2
         end)) fields))
  | other => other
  end.

(** [s.as_bytes().first()] is [{] or [[]. *)
Definition looks_like_json (s : string) : bool :=
  match s with
  | String a _ => Ascii.eqb a "{" || Ascii.eqb a "["
  | EmptyString => false
  end.

(** JSON within strings within JSON; [fuel] bounds the nesting. *)
Fixpoint scrub_leaf (fuel : nat) (s : string) : string :=
  match fuel with
  | O => scrub_text s
  | S n =>
      if looks_like_json s then
        match json_from_str s with
        | Some v =>
            let scrubbed := scrub_tree (scrub_leaf n) v in
            if json_eqb scrubbed v then s else json_to_string scrubbed
        | None => scrub_text s
        end
      else scrub_text s
  end.

Definition scrub_string_leaf (s : string) : string := scrub_leaf (String.length s) s.

Definition scrub_object_value (key : string) (v : Value) : Value :=
  match v with
  | JStr s => JStr (scrub_named_string scrub_string_leaf key s)
  | _ => scrub_tree scrub_string_leaf v
  end.

Definition scrub_json_strings (v : Value) : Value := scrub_tree scrub_string_leaf v.

(** ** Injected instructions: a soft signal *)

Definition META_INSTRUCTION_RISK_DELTA : Z := 8.
Definition INJECTION_CLASSIFIER_RISK_DELTA : Z := 8.
Definition MAX_BYTES : nat := Z.to_nat (16 * 1024).

Definition injection_scan_prefix (text : string) : string :=
  if (String.length text <=? MAX_BYTES)%nat then text
  else Str.take (boundary_below text MAX_BYTES) text.

Definition sha256_hex_prefix (s : string) : string := Str.take 16 (hex_encode (sha256 s)).

(** The strings under a key [description], at any depth, each with a newline. *)
Fixpoint collect_schema_descriptions (v : Value) : string :=
  match v with
  | JObj fields =>
      String.concat "" (map (λ kv,
        match kv.2 with
        | JStr s => if String.eqb kv.1 "description" then s +:+ newline_str else ""
        | _ => ""
        end +:+ collect_schema_descriptions kv.2) fields)
  | JArr arr => String.concat "" (map collect_schema_descriptions arr)
  | _ => ""
  end.

(** The larger of what the two detectors add, never their sum. *)
Definition injection_risk_delta (heuristic_hits : nat) (deberta_hit : bool) : Z :=
  Z.max (if (0 <? heuristic_hits)%nat then META_INSTRUCTION_RISK_DELTA else 0)
    (if deberta_hit then INJECTION_CLASSIFIER_RISK_DELTA else 0).

Definition injection_scan (job : InjectionJob) : string :=
  match ij_kind job with
  | InjectionJobKind.Result _ _ _ => injection_scan_prefix (ij_text job)
  | InjectionJobKind.Descriptor _ _ => ij_text job
  end.

Definition injection_event (kind : InjectionJobKind) (hits : nat) (score : option Score)
    (hit : bool) (risk_delta : Z) (scan : string) : string * (Value * string) :=
  let count := JNum (Z.of_nat hits) in
  let rounded := match score with Some sc => round2 sc | None => JNull end in
  let tail := " heuristic:" +:+ show_nat hits +:+ " deberta_hit:" +:+ show_bool hit in
  match kind with
  | InjectionJobKind.Result invocation_id server_id tool_name =>
      ("tool_result.injection_suspected",
       (JObj [("invocation_id", JStr invocation_id); ("server_id", JStr server_id);
              ("tool_name", JStr tool_name); ("heuristic_hits", count);
              ("deberta_score", rounded); ("deberta_hit", JBool hit);
              ("risk_delta", JNum risk_delta); ("signal", JStr "soft");
              ("result_sha256_prefix", JStr (sha256_hex_prefix scan))],
        "result_injection_suspected server:" +:+ server_id +:+ " tool:" +:+ tool_name +:+ tail))
  | InjectionJobKind.Descriptor server_id tool_name =>
      ("tool_descriptor.meta_instruction",
       (JObj [("server_id", JStr server_id); ("tool_name", JStr tool_name);
              ("match_count", count); ("deberta_score", rounded); ("deberta_hit", JBool hit);
              ("risk_delta", JNum risk_delta); ("signal", JStr "soft");
              ("corpus_sha256_prefix", JStr (sha256_hex_prefix scan))],
        "descriptor_meta_instruction server:" +:+ server_id +:+ " tool:" +:+ tool_name +:+ tail))
  end.

Definition finish_injection_audit (now_risk now_event : Z) (job : InjectionJob)
    (deberta_score : option Score) : LedgerM unit :=
  let scan := injection_scan job in
  let heuristic_hits := meta_instruction_count scan in
  let deberta_hit := match deberta_score with Some sc => at_threshold sc | None => false end in
  if (heuristic_hits =? 0)%nat && negb deberta_hit then ret tt
  else
    let risk_delta := injection_risk_delta heuristic_hits deberta_hit in
    (if (0 <? risk_delta)%Z then
       ignore (bump_session_risk now_risk (ij_session_id job) risk_delta)
     else ret tt) ;!
    let '(event_type, (payload, text)) :=
      injection_event (ij_kind job) heuristic_hits deberta_score deberta_hit risk_delta scan in
    ignore (append_event now_event (ij_session_id job) event_type payload (Some text)).
End ToolResult.
