(* ===== verification/Hub.v ===== *)
(** * The hub

    [src/crates/vigil-mcp/src/hub.rs]: the MCP server an agent talks to. It
    keeps the connected upstreams and the routes to their tools, passes every
    [tools/call] through the gates, the session scope, the firewall and, if need
    be, an approval, and only then calls the upstream. Clock, fresh ids, the
    answers of upstreams and what others do during a wait are read from streams;
    [hs_sent] is the history of the calls that reached an upstream. The build is
    the default one, without the classifier. *)

From S2P Require Import Prelude Types Json Policy Scorer Deps Db Hash Ledger Approvals Outbox Registry Span Namespace Redact Preflight Firewall Text Alias Protocol ToolResult.

Module HubError.
Inductive HubError :=
| Audit (e : AuditError)
| Firewall (e : FirewallError)
| Namespace (e : NamespaceError)
| Upstream (e : UpstreamError)
| Json
| LockPoisoned
| CommandDrift (server_id old_hash new_hash : string)
| ResolvedProgramDrift (server_id old new : string)
| StdioSpawn (reason : string)
| Invalid (reason : string).
End HubError.
Abbreviation HubError := HubError.HubError.

(** ** Constants *)

Definition VIGIL_GOVERNANCE_PREAMBLE : string :=
  "Vigil is a collaborative local security control plane that governs and audits tool calls on the user's behalf. A denial is not a broken tool or an adversary: a Vigil denial or approval request is a FINAL policy decision, not a transient error. Do not retry, switch tools, change paths, or split the request to bypass it; equivalent attempts are denied too. Instead, stop, tell the user what was blocked and why, and ask them to approve it in Vigil to proceed. Vigil shares your goal: the user's safety.".

Definition VIGIL_DENY_GUIDANCE : string :=
  "Denied by Vigil security policy: a FINAL governance decision, not a retryable error. Retrying, switching tools or paths, or splitting the request will be denied the same way. Tell the user what was blocked and why; if they want to proceed, ask them to approve it in Vigil.".

Definition HUB_SERVER_PROTOCOL_VERSIONS : list string :=
  ["2025-11-25"; "2025-06-18"; "2025-03-26"; "2024-11-05"].
Definition HUB_DEFAULT_PROTOCOL_VERSION : string := "2025-06-18".
Definition CARGO_PKG_VERSION : string := "0.8.0-beta.1".

Definition EVENT_RAW_SECRET_ATTEMPT_DETECTED : string := "raw_secret_attempt_detected".
Definition EVENT_SECRET_LEAK_DETECTED : string := "secret.leak_detected".
Definition EVENT_SECRET_ALIAS_UNRESOLVED : string := "secret.alias_unresolved".

(** [json_str p k]: [p.get(k).and_then(Value::as_str)] *)
Definition json_str (k : string) (v : Value) : option string := json_get k v ≫= as_str.

Definition negotiate_legacy_version (params : option Value) : string :=
  match params ≫= json_str "protocolVersion" with
  | Some v => default HUB_DEFAULT_PROTOCOL_VERSION
                (List.find (String.eqb v) HUB_SERVER_PROTOCOL_VERSIONS)
  | None => HUB_DEFAULT_PROTOCOL_VERSION
  end.

Definition legacy_era_discover_hint : string :=
  "vigil-hub is a legacy-era MCP server: open with `initialize` (supported protocol versions: "
  +:+ Str.join ", " HUB_SERVER_PROTOCOL_VERSIONS
  +:+ ").          Modern-era (2026-07-28) per-request negotiation is not implemented yet; dual-era clients          should fall back to `initialize` per the 2026-07-28 stdio backward-compatibility rules.".

(** Durations are in seconds. *)
Record HubConfig := mkHubConfig {
  hc_approval_wait : Z;
  upstream_list_timeout : Z;
  upstream_call_timeout : Z;
  outbox_enabled : bool;
  auto_approve_first_seen_tools : bool;
  redact_tool_results : bool;
  monitor_mode : bool;
}.

Definition hub_config_default : HubConfig := mkHubConfig 300 10 30 true false false false.

(** ** State *)

(** An upstream connection ([Arc<dyn McpUpstream>]), by its identity. *)
Definition McpUpstream : Type := nat.

(** A call that reached an upstream. *)
Record Sent := mkSent {
  sent_server : string;
  sent_upstream : McpUpstream;
  sent_method : string;
  sent_params : option Value;
  sent_timeout : Z;
}.

Record HubState := mkHubState {
  hs_fw : FirewallState;
  hs_router : ToolRouter;
  hs_upstreams : gmap string McpUpstream;
  hs_oauth_scopes : gmap string (list string);
  hs_session_id : option string;
  hs_leak_count : Z;
  hs_notices : gmap string string;
  hs_sent : list Sent;
  hs_reads : nat;
}.

Definition hs_ledger (s : HubState) : LedgerState := ledger (hs_fw s).

(** What a hub is built with. *)
Record Hub := mkHub {
  hub_firewall : Firewall;
  hub_config : HubConfig;
  hub_secret_aliases : SecretAliasMap;
}.

(** What the hub reads from outside, in the order of reading. A wait reads what
    others did to the ledger in each slice of it. *)
Record Env := mkEnv {
  env_clock : nat → Z;
  env_uuid : nat → string;
  env_firewall : nat → Readings;
  env_wait : nat → list (LedgerState → LedgerState);
  env_answer : nat → result UpstreamError Value;
}.

Definition HubM : Type → Type := M HubState HubError.

Definition set_fw (x : FirewallState) (s : HubState) : HubState :=
  mkHubState x (hs_router s) (hs_upstreams s) (hs_oauth_scopes s) (hs_session_id s)
    (hs_leak_count s) (hs_notices s) (hs_sent s) (hs_reads s).
Definition set_router (x : ToolRouter) (s : HubState) : HubState :=
  mkHubState (hs_fw s) x (hs_upstreams s) (hs_oauth_scopes s) (hs_session_id s)
    (hs_leak_count s) (hs_notices s) (hs_sent s) (hs_reads s).
Definition set_upstreams (x : gmap string McpUpstream) (s : HubState) : HubState :=
  mkHubState (hs_fw s) (hs_router s) x (hs_oauth_scopes s) (hs_session_id s)
    (hs_leak_count s) (hs_notices s) (hs_sent s) (hs_reads s).
Definition set_oauth_scopes (x : gmap string (list string)) (s : HubState) : HubState :=
  mkHubState (hs_fw s) (hs_router s) (hs_upstreams s) x (hs_session_id s)
    (hs_leak_count s) (hs_notices s) (hs_sent s) (hs_reads s).
Definition set_session_id (x : option string) (s : HubState) : HubState :=
  mkHubState (hs_fw s) (hs_router s) (hs_upstreams s) (hs_oauth_scopes s) x
    (hs_leak_count s) (hs_notices s) (hs_sent s) (hs_reads s).
Definition set_leak_count (x : Z) (s : HubState) : HubState :=
  mkHubState (hs_fw s) (hs_router s) (hs_upstreams s) (hs_oauth_scopes s) (hs_session_id s)
    x (hs_notices s) (hs_sent s) (hs_reads s).
Definition set_notices (x : gmap string string) (s : HubState) : HubState :=
  mkHubState (hs_fw s) (hs_router s) (hs_upstreams s) (hs_oauth_scopes s) (hs_session_id s)
    (hs_leak_count s) x (hs_sent s) (hs_reads s).
Definition set_sent (x : list Sent) (s : HubState) : HubState :=
  mkHubState (hs_fw s) (hs_router s) (hs_upstreams s) (hs_oauth_scopes s) (hs_session_id s)
    (hs_leak_count s) (hs_notices s) x (hs_reads s).
Definition set_reads (x : nat) (s : HubState) : HubState :=
  mkHubState (hs_fw s) (hs_router s) (hs_upstreams s) (hs_oauth_scopes s) (hs_session_id s)
    (hs_leak_count s) (hs_notices s) (hs_sent s) x.

(** [Hub::new]: nothing is connected and no session has begun. *)
Definition hub_new (fw : FirewallState) : HubState := mkHubState fw ∅ ∅ ∅ None 0 ∅ [] 0.

(** The next reading of a stream. *)
Definition read {A} (stream : nat → A) : HubM A :=
  λ s, (Ok (stream (hs_reads s)), set_reads (S (hs_reads s)) s).

Definition map_err {E F A} (f : E → F) (r : result E A) : result F A :=
  match r with
  | Ok a => Ok a
  | Err e => Err (f e)
  end.

(** A call into the ledger, or the firewall, with [?]. *)
Definition on_ledger {A} (m : LedgerM A) : HubM A := λ s,
  let '(r, l) := m (hs_ledger s) in
  (map_err HubError.Audit r, set_fw (mkFirewallState l (audit_persist_failures (hs_fw s))) s).

Definition on_firewall {A} (m : M FirewallState FirewallError A) : HubM A := λ s,
  let '(r, f) := m (hs_fw s) in (map_err HubError.Firewall r, set_fw f s).

Definition or_json {A} (o : option A) : HubM A := lift (ok_or o HubError.Json).

(** [self.leak_detected_count.fetch_add(1)] *)
Definition count_leak : HubM unit :=
  modify (λ s, set_leak_count ((hs_leak_count s + 1) `mod` 2 ^ 64)%Z s).

Definition note_tools_list (server_id msg : string) : HubM unit :=
  modify (λ s,
    if String.eqb (default "" (hs_notices s !! server_id)) msg then s
    else set_notices (<[server_id := msg]> (hs_notices s)) s).

Definition current_session_id : HubM string := gets (λ s, default "system" (hs_session_id s)).

Section Hub.
Context `{Crates} `{Redaction} `{ResultRedaction} `{PiiScanner} `{DescriptorOracle LedgerState}.
Context (env : Env) (hub : Hub).

Definition now : HubM Z := read (env_clock env).
Definition new_uuid : HubM string := read (env_uuid env).

(** [up.call(method, params, timeout)] *)
Definition call_upstream (server_id : string) (up : McpUpstream) (method : string)
    (params : option Value) (timeout : Z) : HubM (result UpstreamError Value) :=
  modify (λ s, set_sent (hs_sent s ++ [mkSent server_id up method params timeout]) s) ;!
  read (env_answer env).

(** [let _ = self.ledger.append_event(..)] *)
Definition try_event (session_id event_type : string) (payload : Value) (text : string)
    : HubM unit :=
  let! t := now in
  ignore (on_ledger (append_event t session_id event_type payload (Some text))).

(** The synchronous path of the injection scan, without a classifier. *)
Definition audit_injection (job : InjectionJob) : HubM unit :=
  let! t1 := now in
  let! t2 := now in
  on_ledger (finish_injection_audit t1 t2 job None).

Definition audit_result_injection (invocation : ToolInvocation) (result_text : string)
    : HubM unit :=
  audit_injection (mkInjectionJob (ti_session_id invocation) result_text
    (InjectionJobKind.Result (ti_invocation_id invocation) (ti_server_id invocation)
       (ti_tool_name invocation))).

Definition audit_descriptor_meta_instructions (server_id tool_name : string)
    (description : option string) (schema : Value) : HubM unit :=
  let corpus := (match description with
                 | Some d => d +:+ newline_str
                 | None => ""
                 end) +:+ collect_schema_descriptions schema in
  if Str.is_empty corpus then ret tt
  else
    let! session_id := current_session_id in
    audit_injection (mkInjectionJob session_id corpus
      (InjectionJobKind.Descriptor server_id tool_name)).

(** ** Connecting upstreams *)

Definition server_hashes (server_id k1 v1 k2 v2 : string) : Value :=
  JObj [("server_id", JStr server_id); (k1, JStr v1); (k2, JStr v2)].

Definition check_upstream_command_drift (server_id : string) (argv : list string) : HubM unit :=
  let! new_hash := or_json (compute_argv_hash argv) in
  let! t := now in
  let! drift := on_ledger (check_server_command_drift t server_id argv new_hash) in
  match drift with
  | Some d =>
      let! session_id := current_session_id in
      try_event session_id "server.command_drifted"
        (server_hashes server_id "old_hash" (cd_old d) "new_hash" (cd_new d))
        ("command_drift server:" +:+ server_id) ;!
      throw (HubError.CommandDrift server_id (cd_old d) (cd_new d))
  | None => ret tt
  end.

Definition duplicate_server {A} (server_id : string) : HubM A :=
  throw (HubError.Namespace (NamespaceError.Duplicate server_id)).

Definition insert_upstream (server_id : string) (upstream : McpUpstream) : HubM unit :=
  let! g := gets hs_upstreams in
  match g !! server_id with
  | Some _ => duplicate_server server_id
  | None => modify (λ s, set_upstreams (<[server_id := upstream]> (hs_upstreams s)) s)
  end.

Definition attach_upstream (server_id : string) (argv : list string) (upstream : McpUpstream)
    : HubM unit :=
  lift (map_err HubError.Namespace (validate_server_id server_id)) ;!
  check_upstream_command_drift server_id argv ;!
  insert_upstream server_id upstream.

Definition attach_upstream_with_oauth_scopes (server_id : string) (argv : list string)
    (upstream : McpUpstream) (oauth_scopes : list string) : HubM unit :=
  attach_upstream server_id argv upstream ;!
  modify (λ s, set_oauth_scopes (<[server_id := oauth_scopes]> (hs_oauth_scopes s)) s).

Definition check_upstream_resolved_program_drift (server_id bare_program resolved : string)
    : HubM unit :=
  let! outcome := on_ledger (check_server_resolved_program_drift server_id resolved) in
  match outcome with
  | ResolvedProgramOutcome.Unchanged => ret tt
  | ResolvedProgramOutcome.Pinned resolved =>
      let! session_id := current_session_id in
      try_event session_id "server.program_pinned"
        (server_hashes server_id "bare" bare_program "resolved" resolved)
        ("program_pinned server:" +:+ server_id)
  | ResolvedProgramOutcome.Drifted old new =>
      let! session_id := current_session_id in
      try_event session_id "server.resolved_program_drifted"
        (server_hashes server_id "old_resolved" old "new_resolved" new)
        ("resolved_program_drift server:" +:+ server_id) ;!
      throw (HubError.ResolvedProgramDrift server_id old new)
  end.

(** [resolve] is the host's PATH lookup, [spawn] the process it starts: the
    connection, or why there is none. The handshake's failure is only logged. *)
Definition spawn_attach_stdio_upstream (resolve : string → result string string)
    (spawn : string → result string McpUpstream) (server_id : string) (argv : list string)
    : HubM unit :=
  lift (map_err HubError.Namespace (validate_server_id server_id)) ;!
  match argv with
  | [] => throw (HubError.Invalid "argv is empty")
  | program :: _ =>
      let! g := gets hs_upstreams in
      match g !! server_id with
      | Some _ => duplicate_server server_id
      | None =>
          let! resolved := lift (map_err HubError.StdioSpawn (resolve program)) in
          check_upstream_command_drift server_id argv ;!
          check_upstream_resolved_program_drift server_id program resolved ;!
          let! upstream := lift (map_err HubError.StdioSpawn (spawn resolved)) in
          insert_upstream server_id upstream
      end
  end.

(** ** Approvals *)

Definition resolve_approval (req : ResolveApprovalReq) : HubM ApprovalResolutionDto :=
  let! resolution :=
    match ra_action req with
    | ApprovalAction.Approve =>
        match ra_scope req with
        | None =>
            throw (HubError.Invalid "approve action requires scope (Once / ThisSession)")
        | Some scope =>
            let! t1 := now in
            let! t2 := now in
            on_ledger (approve t1 t2 (ra_approval_id req) scope (Some (ra_resolved_by req)))
        end
    | ApprovalAction.Deny =>
        let! t1 := now in
        let! t2 := now in
        let! t3 := now in
        on_ledger (deny t1 t2 t3 (ra_approval_id req) (ra_reason req) (Some (ra_resolved_by req)))
    | ApprovalAction.Cancel =>
        let! t1 := now in
        let! t2 := now in
        on_ledger (cancel t1 t2 (ra_approval_id req) (Some (ra_resolved_by req)))
    end in
  ret (mkApprovalResolutionDto (res_approval_id resolution) (res_status resolution)
         (res_scope resolution) (res_resolved_by resolution)).

(** ** [initialize] *)

Definition handle_initialize (req : JsonRpcRequest) : HubM (option JsonRpcResponse) :=
  let! t := now in
  let! id := new_uuid in
  let! sid := on_ledger (start_session t id "mcp_hub" (Some "vigil-hub")) in
  modify (set_session_id (Some sid)) ;!
  ret (Some (success req
    (JObj [("protocolVersion", JStr (negotiate_legacy_version (rq_params req)));
           ("capabilities", JObj [("tools", JObj [("listChanged", JBool false)])]);
           ("serverInfo", JObj [("name", JStr "vigil-hub"); ("version", JStr CARGO_PKG_VERSION)]);
           ("instructions", JStr VIGIL_GOVERNANCE_PREAMBLE)]))).

(** ** [tools/list] *)

(** What the loop over an upstream's tools has gathered. *)
Record Listing := mkListing {
  ls_router : ToolRouter;
  ls_tools : list Value;
  ls_hashes : list string;
  ls_pending : nat;
}.

Definition set_name (public : string) (t : Value) : Value :=
  match t with
  | JObj fields => JObj (map_insert "name" (JStr public) fields)
  | _ => t
  end.

Definition list_exposed (server_id tool_name hash : string) (t : Value) (acc : Listing)
    : HubM Listing :=
  let! pinned := on_ledger (get_pinned_tool_hash server_id tool_name) in
  match pinned with
  | None => ret (mkListing (ls_router acc) (ls_tools acc) (ls_hashes acc) (S (ls_pending acc)))
  | Some _ =>
      let '(r, router) := register server_id tool_name hash (ls_router acc) in
      let! public := lift (map_err HubError.Namespace r) in
      ret (mkListing router (ls_tools acc ++ [set_name public t]) (ls_hashes acc ++ [hash])
             (ls_pending acc))
  end.

(** The body of the loop over the tools of a server. *)
Definition list_tool (server_id : string) (acc : Listing) (t : Value) : HubM Listing :=
  match json_str "name" t with
  | None => ret acc
  | Some tool_name =>
      let schema := default JNull (json_get "inputSchema" t) in
      let description := json_str "description" t in
      let annotations := default JNull (json_get "annotations" t) in
      let! hash := or_json (descriptor_hash server_id tool_name schema description annotations) in
      let! tm := now in
      let! outcome := on_ledger (pin_tool_descriptor tm server_id tool_name hash) in
      match outcome with
      | PinOutcome.FirstSeen =>
          audit_descriptor_meta_instructions server_id tool_name description schema ;!
          (if auto_approve_first_seen_tools (hub_config hub) then
             let! t1 := now in
             let! t2 := now in
             on_ledger (approve_tool_descriptor t1 t2 server_id tool_name)
           else ret tt) ;!
          list_exposed server_id tool_name hash t acc
      | PinOutcome.Unchanged => list_exposed server_id tool_name hash t acc
      | PinOutcome.Drifted old new =>
          let! session_id := current_session_id in
          try_event session_id "tool_descriptor.drifted"
            (JObj [("server_id", JStr server_id); ("tool_name", JStr tool_name);
                   ("old_hash", JStr old); ("new_hash", JStr new)])
            ("descriptor_drift server:" +:+ server_id +:+ " tool:" +:+ tool_name) ;!
          ret acc
      end
  end.

Fixpoint list_tools (server_id : string) (acc : Listing) (tools : list Value) : HubM Listing :=
  match tools with
  | [] => ret acc
  | t :: rest =>
      let! acc' := list_tool server_id acc t in
      list_tools server_id acc' rest
  end.

Definition pending_notice (pending : nat) : string :=
  show_nat pending +:+ " tool(s) discovered but hidden until approved (first-seen descriptors are untrusted by default; approve them in the Vigil desktop app, or start with --auto-approve-first-seen for development)".

Definition json_array (k : string) (v : Value) : option (list Value) :=
  match json_get k v with
  | Some (JArr l) => Some l
  | _ => None
  end.

(** One server; an unreachable one is noted and skipped. *)
Definition list_server (upstreams : gmap string McpUpstream)
    (acc : ToolRouter * list Value) (server_id : string) : HubM (ToolRouter * list Value) :=
  match upstreams !! server_id with
  | None => ret acc
  | Some up =>
      let! result := call_upstream server_id up "tools/list" None
                       (upstream_list_timeout (hub_config hub)) in
      match result with
      | Err e =>
          note_tools_list server_id ("tools/list failed: " +:+ UpstreamError.to_string e) ;!
          ret acc
      | Ok v =>
          match json_array "tools" v with
          | None => ret acc
          | Some tools =>
              let! l := list_tools server_id (mkListing acc.1 acc.2 [] 0) tools in
              note_tools_list server_id
                (if (0 <? ls_pending l)%nat then pending_notice (ls_pending l) else "") ;!
              ignore (on_ledger (set_descriptor_hash server_id
                (hex_encode (sha256 (String.concat "" (ls_hashes l)))))) ;!
              ret (ls_router l, ls_tools l)
          end
      end
  end.

Fixpoint list_servers (upstreams : gmap string McpUpstream) (acc : ToolRouter * list Value)
    (servers : list string) : HubM (ToolRouter * list Value) :=
  match servers with
  | [] => ret acc
  | server_id :: rest =>
      let! acc' := list_server upstreams acc server_id in
      list_servers upstreams acc' rest
  end.

Definition handle_tools_list (req : JsonRpcRequest) : HubM (option JsonRpcResponse) :=
  let! approved := on_ledger list_approved_servers in
  let! upstreams := gets hs_upstreams in
  let! r := list_servers upstreams (∅, []) (ssp_server_id <$> approved) in
  modify (set_router r.1) ;!
  ret (Some (success req (JObj [("tools", JArr r.2)]))).

(** ** [tools/call]: the call itself *)

Definition event_ids (invocation : ToolInvocation) (decision_id : string)
    : list (string * Value) :=
  [("invocation_id", JStr (ti_invocation_id invocation));
   ("server_id", JStr (ti_server_id invocation)); ("tool_name", JStr (ti_tool_name invocation));
   ("decision_id", JStr decision_id)].

Definition REFLECTED_TEXT : string :=
  "injected secret reflected in tool result; reverse-substituted to secret://alias".

Definition LEAKED_NOTE : string :=
  "[Vigil] The raw tool result was withheld: it contained credentials that could not be redacted in place.".

(** The injected values out of the result; [injected] is not empty. *)
Definition redact_reflection (invocation : ToolInvocation) (decision_id : string)
    (injected : list (string * string)) (result : Value) : HubM Value :=
  let '(result, (reverse_hits, fail_closed)) := redact_injected_reflection result injected in
  (if (0 <? reverse_hits)%nat || fail_closed then
     count_leak ;!
     try_event (ti_session_id invocation) EVENT_SECRET_LEAK_DETECTED
       (JObj ([("kind", JStr "injected_secret_reflected")] ++ event_ids invocation decision_id
              ++ [("reverse_hits", JNum (Z.of_nat reverse_hits));
                  ("fail_closed", JBool fail_closed)]))
       REFLECTED_TEXT
   else ret tt) ;!
  ret result.

(** The result scrubbed, or the notice that it was withheld. *)
Definition scrub_result (result : Value) : Value :=
  let scrubbed := scrub_json_strings result in
  let clean := match jcs_to_vec scrubbed with
               | Some t => match detect_hard_secret t with
                           | None => true
                           | Some _ => false
                           end
               | None => false
               end in
  if clean then scrubbed else withheld_tool_result LEAKED_NOTE.

Definition leak_scan (invocation : ToolInvocation) (decision_id result_text : string)
    (result : Value) : HubM Value :=
  match detect_hard_secret result_text with
  | None => ret result
  | Some rule =>
      count_leak ;!
      let '(payload, text) := redact
        (JObj ([("rule", JStr rule)] ++ event_ids invocation decision_id
               ++ [("redacted", JBool (redact_tool_results (hub_config hub)))])) in
      try_event (ti_session_id invocation) EVENT_SECRET_LEAK_DETECTED payload text ;!
      ret (if redact_tool_results (hub_config hub) then scrub_result result else result)
  end.

(** What is done to the answer of an upstream before the agent sees it. *)
Definition clean_result (invocation : ToolInvocation) (decision_id : string)
    (injected : list (string * string)) (result : Value) : HubM Value :=
  let! result := match injected with
                 | [] => ret result
                 | _ => redact_reflection invocation decision_id injected result
                 end in
  match jcs_to_vec result with
  | None => ret result
  | Some result_text =>
      let! result := leak_scan invocation decision_id result_text result in
      audit_result_injection invocation result_text ;!
      ret result
  end.

(** [if let Some(oid) = outbox_id { .. }], its error ignored or not. *)
Definition try_outbox (outbox_id : option string) (mark : string → LedgerM unit) : HubM unit :=
  match outbox_id with
  | Some oid => ignore (on_ledger (mark oid))
  | None => ret tt
  end.

Definition on_outbox (outbox_id : option string) (mark : string → LedgerM unit) : HubM unit :=
  match outbox_id with
  | Some oid => on_ledger (mark oid)
  | None => ret tt
  end.

Definition respond (r : JsonRpcResponse) : HubM (option JsonRpcResponse) := ret (Some r).

(** What follows the upstream's answer. *)
Definition finish_call (req : JsonRpcRequest) (invocation : ToolInvocation)
    (route : ToolRoute) (outbox_id : option string) (decision : DecisionRecord) (span : ToolCallSpan Decided)
    (injected : list (string * string)) (answer : result UpstreamError Value)
    : HubM (option JsonRpcResponse) :=
  match answer with
  | Ok result =>
      let! result := clean_result invocation (dr_decision_id decision) injected result in
      let! t1 := now in
      let! t2 := now in
      on_ledger (executed t1 t2 span
        ("tool " +:+ rt_upstream_tool_name route +:+ " returned "
         +:+ show_nat (String.length (json_to_string result)) +:+ " bytes")) ;!
      let! t3 := now in
      on_outbox outbox_id (mark_outbox_executed t3) ;!
      respond (success req result)
  | Err e =>
      let reason := UpstreamError.to_string e in
      let! t1 := now in
      let! t2 := now in
      on_ledger (execute_failed t1 t2 span reason) ;!
      let! t3 := now in
      try_outbox outbox_id (mark_outbox_failed t3) ;!
      respond (error req VIGIL_UPSTREAM_UNAVAILABLE ("upstream failed: " +:+ reason) None)
  end.

Definition invoke_upstream (req : JsonRpcRequest) (invocation : ToolInvocation)
    (route : ToolRoute) (outbox_id : option string) (decision : DecisionRecord)
    : HubM (option JsonRpcResponse) :=
  let! upstream := gets (λ s, hs_upstreams s !! rt_server_id route) in
  match upstream with
  | None =>
      let! t := now in
      try_outbox outbox_id (mark_outbox_failed t) ;!
      respond (error req VIGIL_UPSTREAM_UNAVAILABLE "upstream not attached" None)
  | Some up =>
      match detokenize_alias_refs (ti_args invocation) (rt_server_id route)
              (hub_secret_aliases hub) [] with
      | Err alias_err =>
          let! t := now in
          try_outbox outbox_id (mark_outbox_failed t) ;!
          respond (error req VIGIL_DENIED "secret:// alias resolution failed at tool boundary"
            (Some (JObj [("reason", JStr (reason alias_err))])))
      | Ok (detok_args, injected) =>
          let! t1 := now in
          let! span := on_ledger (tool_call_span t1 (ti_invocation_id invocation)
                                    (ti_session_id invocation)) in
          let! t2 := now in
          let! t3 := now in
          let! span := on_ledger (decision_recorded t2 t3 span decision) in
          let! answer := call_upstream (rt_server_id route) up "tools/call"
            (Some (JObj [("name", JStr (rt_upstream_tool_name route));
                         ("arguments", detok_args)]))
            (upstream_call_timeout (hub_config hub)) in
          finish_call req invocation route outbox_id decision span injected answer
      end
  end.

(** ** [tools/call]: the gates *)

(** A refusal of a gate: the decision, the event, the answer. *)
Definition gate_decision (invocation : ToolInvocation) (decision_id reason policy_id : string)
    : DecisionRecord :=
  mkDecisionRecord decision_id (ti_invocation_id invocation) DecisionKind.Deny 100 [reason]
    [policy_id] 0.

Definition refuse (invocation : ToolInvocation) (dec : DecisionRecord) (event_type : string)
    (payload : Value) : HubM unit :=
  let! t := now in
  ignore (on_ledger (record_decision t (ti_session_id invocation) dec effect_vector_default)) ;!
  let '(payload, text) := redact payload in
  try_event (ti_session_id invocation) event_type payload text.

Definition gate_payload (invocation : ToolInvocation) (route : ToolRoute)
    (decision_id k v : string) : Value :=
  JObj [(k, JStr v); ("decision_id", JStr decision_id);
        ("invocation_id", JStr (ti_invocation_id invocation));
        ("server_id", JStr (rt_server_id route));
        ("tool_name", JStr (rt_upstream_tool_name route))].

Definition raw_secret_reason (rule : string) (alias_shadowed : bool) : string :=
  if alias_shadowed then
    "secret:// alias inside a KEY=value assignment (rule=" +:+ rule
    +:+ "); aliases are not detokenized in assignment shape — move it to a non-assignment position"
  else "raw secret detected in args (rule=" +:+ rule +:+ "); use secret:// alias".

Definition raw_secret_message (alias_shadowed : bool) : string :=
  if alias_shadowed then
    "secret:// alias cannot be used inside a KEY=value assignment; place the alias in a non-assignment position — a header, query parameter, or standalone JSON value"
  else "raw secret detected in tool arguments; use secret:// alias".

Definition refuse_raw_secret (req : JsonRpcRequest) (invocation : ToolInvocation)
    (route : ToolRoute) (rule : string) (alias_shadowed : bool) : HubM (option JsonRpcResponse) :=
  let! decision_id := new_uuid in
  refuse invocation
    (gate_decision invocation decision_id (raw_secret_reason rule alias_shadowed)
       "hub-hard-secret-gate")
    EVENT_RAW_SECRET_ATTEMPT_DETECTED (gate_payload invocation route decision_id "rule" rule) ;!
  respond (error req VIGIL_DENIED (raw_secret_message alias_shadowed)
    (Some (JObj [("rule", JStr rule); ("decision_id", JStr decision_id)]))).

Definition refuse_alias (req : JsonRpcRequest) (invocation : ToolInvocation)
    (route : ToolRoute) (alias_err : AliasResolveError) : HubM (option JsonRpcResponse) :=
  let! decision_id := new_uuid in
  refuse invocation
    (gate_decision invocation decision_id (reason alias_err) "hub-secret-alias-gate")
    EVENT_SECRET_ALIAS_UNRESOLVED
    (gate_payload invocation route decision_id "reason" (reason alias_err)) ;!
  respond (error req VIGIL_DENIED "unresolvable secret:// alias in tool arguments"
    (Some (JObj [("decision_id", JStr decision_id); ("reason", JStr (reason alias_err))]))).

(** A decision the hub makes itself, recorded before the call. *)
Definition invoke_allowed (req : JsonRpcRequest) (invocation : ToolInvocation)
    (route : ToolRoute) (risk : Z) (reason policy_id : string)
    : HubM (option JsonRpcResponse) :=
  let! decision_id := new_uuid in
  let dec := mkDecisionRecord decision_id (ti_invocation_id invocation) DecisionKind.Allow risk
               [reason] [policy_id] 0 in
  let! t := now in
  on_ledger (record_decision t (ti_session_id invocation) dec effect_vector_default) ;!
  invoke_upstream req invocation route None dec.

(** ** [tools/call]: the firewall's outcome *)

Definition MONITOR_FLOOR_REASON : string :=
  "monitor mode: default-deny floor downgraded to observe-allow (non-blocking; redaction + raw-secret gate still enforced)".

Definition conclude_denied (req : JsonRpcRequest) (invocation : ToolInvocation)
    (route : ToolRoute) (decision : DecisionRecord) : HubM (option JsonRpcResponse) :=
  if monitor_mode (hub_config hub)
     && bool_decide (dr_policy_ids decision = [DEFAULT_DENY_POLICY_ID]) then
    invoke_allowed req invocation route (dr_risk_score decision) MONITOR_FLOOR_REASON
      "vigil-monitor-mode"
  else
    respond (error req VIGIL_DENIED VIGIL_DENY_GUIDANCE
      (Some (JObj [("decision_id", JStr (dr_decision_id decision));
                   ("policy_ids", json_strs (dr_policy_ids decision));
                   ("risk_score", JNum (dr_risk_score decision))]))).

Definition outbox_preview (route : ToolRoute) (e : EffectVector) : Value :=
  JObj [("tool", JStr (rt_upstream_tool_name route)); ("server", JStr (rt_server_id route));
        ("hosts", json_strs (network_hosts e));
        ("recipients_count", JNum (Z.of_nat (length (recipients e))))].

Definition draft_for_approval (invocation : ToolInvocation) (route : ToolRoute)
    (e : EffectVector) (approval : ApprovalRequest) : HubM (option string) :=
  if outbox_enabled (hub_config hub)
     && (contains_effect EffectKind.CommSend (effects e)
         || contains_effect EffectKind.NetOutbound (effects e)) then
    let! t := now in
    let! id := new_uuid in
    let! oi := on_ledger (draft_outbox t id (ti_invocation_id invocation)
                 (ti_session_id invocation) OutboxKind.HttpPost (outbox_preview route e)) in
    on_ledger (submit_outbox_for_approval (oi_outbox_id oi) (ar_approval_id approval)) ;!
    ret (Some (oi_outbox_id oi))
  else ret None.

(** The answer of the user, or the end of the wait. *)
Definition conclude_resolution (req : JsonRpcRequest) (invocation : ToolInvocation)
    (route : ToolRoute) (outbox_id : option string) (decision : DecisionRecord)
    (resolution : option ApprovalResolution) : HubM (option JsonRpcResponse) :=
  let! t := now in
  match resolution with
  | None =>
      try_outbox outbox_id (mark_outbox_expired t) ;!
      respond (error req VIGIL_APPROVAL_REJECTED "approval timed out" None)
  | Some res =>
      match res_status res with
      | ApprovalStatus.Approved =>
          on_outbox outbox_id (mark_outbox_approved t) ;!
          invoke_upstream req invocation route outbox_id decision
      | ApprovalStatus.Denied =>
          try_outbox outbox_id (mark_outbox_denied t) ;!
          respond (error req VIGIL_APPROVAL_REJECTED "approval denied"
            (Some (JObj [("decision_id", JStr (dr_decision_id decision))])))
      | ApprovalStatus.Expired =>
          try_outbox outbox_id (mark_outbox_expired t) ;!
          respond (error req VIGIL_APPROVAL_REJECTED "approval expired" None)
      | ApprovalStatus.Cancelled | ApprovalStatus.Pending =>
          try_outbox outbox_id cancel_outbox ;!
          respond (error req VIGIL_APPROVAL_REJECTED "approval cancelled or not resolved" None)
      end
  end.

Definition is_descriptor_drift (decision : DecisionRecord) : bool :=
  existsb (String.eqb "approve-descriptor-drift") (dr_policy_ids decision).

Definition conclude_approve (req : JsonRpcRequest) (invocation : ToolInvocation)
    (route : ToolRoute) (decision : DecisionRecord) (e : EffectVector)
    (approval : ApprovalRequest) : HubM (option JsonRpcResponse) :=
  let! outbox_id := draft_for_approval invocation route e approval in
  if monitor_mode (hub_config hub) && negb (is_descriptor_drift decision) then
    let! t1 := now in
    let! t2 := now in
    on_ledger (approve t1 t2 (ar_approval_id approval) ApprovalScope.Once
                 (Some "vigil-monitor-mode")) ;!
    let! t3 := now in
    on_outbox outbox_id (mark_outbox_approved t3) ;!
    invoke_upstream req invocation route outbox_id decision
  else
    let! t := now in
    let! slices := read (env_wait env) in
    let! resolution := on_ledger (wait_for_resolution t (ar_approval_id approval) slices) in
    conclude_resolution req invocation route outbox_id decision resolution.

Definition evaluate_and_conclude (req : JsonRpcRequest) (invocation : ToolInvocation)
    (route : ToolRoute) : HubM (option JsonRpcResponse) :=
  let! scope_ctx := gets (λ s, match hs_oauth_scopes s !! rt_server_id route with
                               | Some scopes => OAuthScopeContext.Scopes scopes
                               | None => OAuthScopeContext.NonOauth
                               end) in
  let! readings := read (env_firewall env) in
  let! outcome := on_firewall (Firewall.evaluate (hub_firewall hub) readings invocation scope_ctx) in
  match outcome with
  | FirewallOutcome.Allowed decision _ => invoke_upstream req invocation route None decision
  | FirewallOutcome.Denied decision _ => conclude_denied req invocation route decision
  | FirewallOutcome.Approve decision e approval =>
      conclude_approve req invocation route decision e approval
  end.

Definition decide_call (req : JsonRpcRequest) (invocation : ToolInvocation) (route : ToolRoute)
    : HubM (option JsonRpcResponse) :=
  let! args_hash := or_json (jcs_sha256 (ti_args invocation)) in
  let! t := now in
  let! allowed := on_ledger (find_session_scope_allow t (ti_session_id invocation)
                    (rt_server_id route) (rt_upstream_tool_name route) args_hash) in
  match allowed with
  | Some res =>
      invoke_allowed req invocation route 0
        ("pre-approved by session scope (approval_id=" +:+ res_approval_id res +:+ ")")
        "session-scope-allow"
  | None => evaluate_and_conclude req invocation route
  end.

Definition gated_call (req : JsonRpcRequest) (invocation : ToolInvocation) (route : ToolRoute)
    : HubM (option JsonRpcResponse) :=
  match scan_args_for_raw_secrets (ti_args invocation) with
  | RawSecret rule alias_shadowed => refuse_raw_secret req invocation route rule alias_shadowed
  | Clean | AllAliased =>
      match validate_alias_refs (ti_args invocation) (rt_server_id route)
              (hub_secret_aliases hub) with
      | Err alias_err => refuse_alias req invocation route alias_err
      | Ok _ => decide_call req invocation route
      end
  end.

Definition handle_tools_call (req : JsonRpcRequest) : HubM (option JsonRpcResponse) :=
  match rq_params req with
  | None => respond (error req INVALID_PARAMS "missing params" None)
  | Some params =>
      match json_str "name" params with
      | None => respond (error req INVALID_PARAMS "missing `name`" None)
      | Some public_name =>
          let args := default JNull (json_get "arguments" params) in
          let! route := gets (λ s, resolve (hs_router s) public_name) in
          match route with
          | None =>
              respond (error req VIGIL_UPSTREAM_UNAVAILABLE
                ("unknown tool: " +:+ public_name) None)
          | Some route =>
              let! session_id := gets (λ s, default "no-session" (hs_session_id s)) in
              let! invocation_id := new_uuid in
              gated_call req
                (mkToolInvocation invocation_id session_id (rt_server_id route)
                   (rt_upstream_tool_name route) args (rt_descriptor_hash route) 0) route
          end
      end
  end.

(** ** Dispatch *)

Definition handle_request (req : JsonRpcRequest) : HubM (option JsonRpcResponse) :=
  if negb (String.eqb (jsonrpc req) "2.0") then
    if is_notification req then ret None
    else respond (error req INVALID_REQUEST "expected jsonrpc=2.0" None)
  else
    let method m := String.eqb (rq_method req) m in
    if method "initialize" then handle_initialize req
    else if method "initialized" || method "notifications/initialized" then ret None
    else if method "shutdown" then respond (success req JNull)
    else if method "ping" then respond (success req (JObj []))
    else if method "notifications/cancelled" then ret None
    else if method "server/discover" then
      respond (error req METHOD_NOT_FOUND legacy_era_discover_hint None)
    else if method "tools/list" then handle_tools_list req
    else if method "tools/call" then handle_tools_call req
    else respond (error req METHOD_NOT_FOUND ("method not supported: " +:+ rq_method req) None).
End Hub.
