(* ===== verification/HubFacts.v ===== *)
(** * What each operation of the hub may change

    The frame of the hub's operations: what they do to the ledger, and that only
    [call_upstream] extends the history of calls. *)

From S2P Require Import Prelude Types Policy Scorer Deps Db Hash Ledger LedgerFacts Approvals ApprovalFacts Outbox Registry Span Namespace Redact Preflight Firewall FirewallProps Text Alias AliasProps Protocol ToolResult Hub.

(** ** On the ledger *)

(** Rows may be added to the log; the approval queue is left alone. *)
Definition off_queue `{Crates} `{Redaction} : LedgerState → LedgerState → Prop :=
  both log_step (both (same approvals) (same published)).

Lemma preserves_mono {S E A} (R1 R2 : S → S → Prop) (m : M S E A) :
  (∀ s s', R1 s s' → R2 s s') → preserves R1 m → preserves R2 m.
Proof. intros Hi Hm s. apply Hi, Hm. Qed.

Section Ledger.
Context `{CratesLaws} `{Redaction}.

#[export] Instance off_queue_preorder : PreOrder off_queue.
Proof. unfold off_queue. apply _. Qed.

Lemma off_queue_approval s s' : off_queue s s' → approval_step s s'.
Proof. intros (Hl & Ha & Hp). by apply approval_step_log. Qed.

(** A change of another table. *)
Lemma off_queue_other s s' :
  events s' = events s → event_seq s' = event_seq s → event_fts s' = event_fts s →
  approvals s' = approvals s → published s' = published s → off_queue s s'.
Proof. intros. split; [by apply log_step_other|by split]. Qed.

Lemma append_event_internal_quiet now sid et p rt :
  preserves off_queue (append_event_internal now sid et p rt).
Proof. intros s. append_cases err ev l n f Hlog; [reflexivity|]. by split. Qed.

Lemma append_event_quiet now sid et p rt : preserves off_queue (append_event now sid et p rt).
Proof.
  intros s. destruct (append_event_cases now sid et p rt s) as [[err ->]| ->];
    [reflexivity|]. apply append_event_internal_quiet.
Qed.
#[local] Hint Resolve append_event_internal_quiet append_event_quiet : vigil.

Lemma update_outbox_quiet id p f reason : preserves off_queue (update_outbox id p f reason).
Proof. unfold update_outbox, invalid. preserve. intros. by apply off_queue_other. Qed.

Lemma update_server_quiet id p f : preserves off_queue (update_server id p f).
Proof. unfold update_server. preserve. intros. by apply off_queue_other. Qed.

Lemma update_tool_quiet key p f : preserves off_queue (update_tool key p f).
Proof. unfold update_tool. preserve. intros. by apply off_queue_other. Qed.
#[local] Hint Resolve update_outbox_quiet update_server_quiet update_tool_quiet : vigil.

Lemma draft_outbox_quiet now id inv sid kind preview :
  preserves off_queue (draft_outbox now id inv sid kind preview).
Proof. unfold draft_outbox. preserve. intros. by apply off_queue_other. Qed.

Lemma outbox_marks_quiet now id :
  preserves off_queue (mark_outbox_approved now id) ∧
  preserves off_queue (mark_outbox_denied now id) ∧
  preserves off_queue (mark_outbox_expired now id) ∧
  preserves off_queue (mark_outbox_executed now id) ∧
  preserves off_queue (mark_outbox_failed now id) ∧ preserves off_queue (cancel_outbox id).
Proof. split_and!; apply update_outbox_quiet. Qed.

Lemma record_decision_quiet now sid d e : preserves off_queue (record_decision now sid d e).
Proof. apply append_event_internal_quiet. Qed.

Lemma start_session_quiet now id source app : preserves off_queue (start_session now id source app).
Proof. unfold start_session. preserve. intros. by apply off_queue_other. Qed.

Lemma bump_session_risk_quiet now sid delta : preserves off_queue (bump_session_risk now sid delta).
Proof. unfold bump_session_risk. preserve. intros. by apply off_queue_other. Qed.
#[local] Hint Resolve bump_session_risk_quiet : vigil.

Lemma finish_injection_audit_quiet `{ResultRedaction} t1 t2 job score :
  preserves off_queue (finish_injection_audit t1 t2 job score).
Proof. unfold finish_injection_audit. preserve. Qed.

Lemma drop_quiet {st} now (sp : ToolCallSpan st) : preserves off_queue (drop now sp).
Proof. unfold drop, count_drop_failure. preserve. intros. by apply off_queue_other. Qed.
#[local] Hint Resolve drop_quiet : vigil.

Lemma consuming_quiet {st A} now (sp : ToolCallSpan st) write (out : A) :
  preserves off_queue write → preserves off_queue (consuming now sp write out).
Proof. intros. unfold consuming. preserve. Qed.

Lemma tool_call_span_quiet now inv sid : preserves off_queue (tool_call_span now inv sid).
Proof. unfold tool_call_span. preserve. Qed.

Lemma decision_recorded_quiet now now' sp d : preserves off_queue (decision_recorded now now' sp d).
Proof. apply consuming_quiet, append_event_internal_quiet. Qed.

Lemma executed_quiet now now' sp summary : preserves off_queue (executed now now' sp summary).
Proof. apply consuming_quiet, append_event_internal_quiet. Qed.

Lemma execute_failed_quiet now now' sp reason :
  preserves off_queue (execute_failed now now' sp reason).
Proof. apply consuming_quiet, append_event_internal_quiet. Qed.

Lemma check_server_command_drift_quiet now id argv h :
  preserves off_queue (check_server_command_drift now id argv h).
Proof. unfold check_server_command_drift, invalid. preserve. Qed.

Lemma check_server_resolved_program_drift_quiet id path :
  preserves off_queue (check_server_resolved_program_drift id path).
Proof. unfold check_server_resolved_program_drift. preserve. Qed.

Lemma pin_tool_descriptor_quiet now id tool h :
  preserves off_queue (pin_tool_descriptor now id tool h).
Proof. unfold pin_tool_descriptor, invalid. preserve. intros. by apply off_queue_other. Qed.

Lemma approve_tool_descriptor_quiet now now' id tool :
  preserves off_queue (approve_tool_descriptor now now' id tool).
Proof. unfold approve_tool_descriptor, require_changed, invalid. preserve. Qed.

Lemma set_descriptor_hash_quiet id h : preserves off_queue (set_descriptor_hash id h).
Proof. unfold set_descriptor_hash, require_changed, invalid. preserve. Qed.
End Ledger.

#[export] Hint Resolve append_event_internal_quiet append_event_quiet update_outbox_quiet
  draft_outbox_quiet record_decision_quiet start_session_quiet bump_session_risk_quiet
  finish_injection_audit_quiet tool_call_span_quiet decision_recorded_quiet executed_quiet
  execute_failed_quiet check_server_command_drift_quiet
  check_server_resolved_program_drift_quiet pin_tool_descriptor_quiet
  approve_tool_descriptor_quiet set_descriptor_hash_quiet : vigil.

(** ** On the hub *)

(** The ledger moves by [R]; no call is made, and no upstream or route changes. *)
Definition hub_step (R : LedgerState → LedgerState → Prop) (s s' : HubState) : Prop :=
  R (hs_ledger s) (hs_ledger s') ∧ hs_sent s' = hs_sent s ∧ hs_upstreams s' = hs_upstreams s
  ∧ hs_router s' = hs_router s ∧ hs_session_id s' = hs_session_id s.

#[export] Instance hub_step_preorder R : PreOrder R → PreOrder (hub_step R).
Proof.
  intros HR. split; unfold hub_step.
  - intros s. by split.
  - intros s t u (Ha & -> & -> & -> & ->) (Hb & -> & -> & -> & ->). split; [by etransitivity|done].
Qed.

Lemma hub_step_mono (R1 R2 : LedgerState → LedgerState → Prop) s s' :
  (∀ l l', R1 l l' → R2 l l') → hub_step R1 s s' → hub_step R2 s s'.
Proof. intros Hi (Hr & ?). split; auto. Qed.

Section Frame.
Context (R : LedgerState → LedgerState → Prop) `{!PreOrder R}.

Lemma ledger_op_step {A} (m : LedgerM A) : preserves R m → preserves (hub_step R) (on_ledger m).
Proof.
  intros Hm s. unfold on_ledger. specialize (Hm (hs_ledger s)).
  destruct (m (hs_ledger s)) as [r l]. simpl in *. by split.
Qed.

Lemma read_step {A} (f : nat → A) : preserves (hub_step R) (read f).
Proof. intros s. unfold read. simpl. split; [|done]. simpl. reflexivity. Qed.

Lemma count_leak_step : preserves (hub_step R) count_leak.
Proof. intros s. split; [|done]. simpl. reflexivity. Qed.

Lemma note_tools_list_step id msg : preserves (hub_step R) (note_tools_list id msg).
Proof.
  intros s. unfold note_tools_list. run_m. destruct (String.eqb _ msg); [reflexivity|].
  split; [|done]. simpl. reflexivity.
Qed.
End Frame.

#[export] Hint Resolve ledger_op_step read_step count_leak_step note_tools_list_step : vigil.

Lemma on_ledger_inv {A} (m : LedgerM A) s a s' :
  on_ledger m s = (Ok a, s') →
  ∃ l, m (hs_ledger s) = (Ok a, l)
    ∧ s' = set_fw (mkFirewallState l (audit_persist_failures (hs_fw s))) s.
Proof.
  unfold on_ledger. destruct (m (hs_ledger s)) as [[a'|e] l]; simpl; [|done].
  intros [= <- <-]. by exists l.
Qed.

Lemma bind_inv {S E A B} (m : M S E A) (k : A → M S E B) s b s' :
  bind m k s = (Ok b, s') → ∃ a s1, m s = (Ok a, s1) ∧ k a s1 = (Ok b, s').
Proof. unfold bind. destruct (m s) as [[a|e] s1]; [|done]. intros E0. by exists a, s1. Qed.

Lemma outbox_quiet `{CratesLaws} `{Redaction} oid mark : (∀ id, preserves off_queue (mark id)) →
  preserves (hub_step off_queue) (try_outbox oid mark) ∧
  preserves (hub_step off_queue) (on_outbox oid mark).
Proof. intros Hm. unfold try_outbox, on_outbox. split; preserve. Qed.

Section HubFrame.
Context `{CratesLaws} `{Redaction} `{ResultRedaction}.
Context (env : Env) (hub : Hub).
Abbreviation quiet := (preserves (hub_step off_queue)).

Lemma now_quiet : quiet (now env).
Proof. apply read_step; apply _. Qed.

Lemma new_uuid_quiet : quiet (new_uuid env).
Proof. apply read_step; apply _. Qed.
#[local] Hint Resolve now_quiet new_uuid_quiet : vigil.

Lemma try_event_quiet sid et p text : quiet (try_event env sid et p text).
Proof. unfold try_event. preserve. Qed.
#[local] Hint Resolve try_event_quiet : vigil.

Lemma audit_injection_quiet job : quiet (audit_injection env job).
Proof. unfold audit_injection. preserve. Qed.
#[local] Hint Resolve audit_injection_quiet : vigil.

Lemma redact_reflection_quiet inv did injected v :
  quiet (redact_reflection env inv did injected v).
Proof. unfold redact_reflection. preserve. Qed.

Lemma leak_scan_quiet inv did text v : quiet (leak_scan env hub inv did text v).
Proof. unfold leak_scan. preserve. Qed.
#[local] Hint Resolve redact_reflection_quiet leak_scan_quiet : vigil.

Lemma clean_result_quiet inv did injected v : quiet (clean_result env hub inv did injected v).
Proof. unfold clean_result, audit_result_injection. preserve. Qed.
#[local] Hint Resolve clean_result_quiet : vigil.

Lemma finish_call_quiet req inv route oid d sp injected answer :
  quiet (finish_call env hub req inv route oid d sp injected answer).
Proof.
  assert (∀ t, quiet (try_outbox oid (mark_outbox_failed t))) as Hf
    by (intros t; apply outbox_quiet; intros; apply outbox_marks_quiet).
  assert (∀ t, quiet (on_outbox oid (mark_outbox_executed t))) as He
    by (intros t; apply outbox_quiet; intros; apply outbox_marks_quiet).
  unfold finish_call, respond. preserve.
Qed.

Lemma refuse_quiet inv dec et payload : quiet (refuse env inv dec et payload).
Proof. unfold refuse. preserve. Qed.
#[local] Hint Resolve refuse_quiet : vigil.

Lemma refuse_raw_secret_quiet req inv route rule sh :
  quiet (refuse_raw_secret env req inv route rule sh).
Proof. unfold refuse_raw_secret, respond. preserve. Qed.

Lemma refuse_alias_quiet req inv route e : quiet (refuse_alias env req inv route e).
Proof. unfold refuse_alias, respond. preserve. Qed.

Lemma draft_for_approval_quiet inv route e a : quiet (draft_for_approval env hub inv route e a).
Proof. unfold draft_for_approval, submit_outbox_for_approval. preserve. Qed.

Lemma command_drift_quiet id argv : quiet (check_upstream_command_drift env id argv).
Proof. unfold check_upstream_command_drift, current_session_id, or_json. preserve. Qed.

Lemma program_drift_quiet id bare path :
  quiet (check_upstream_resolved_program_drift env id bare path).
Proof. unfold check_upstream_resolved_program_drift, current_session_id. preserve. Qed.
End HubFrame.

#[export] Hint Resolve now_quiet new_uuid_quiet try_event_quiet audit_injection_quiet
  clean_result_quiet finish_call_quiet refuse_quiet refuse_raw_secret_quiet refuse_alias_quiet
  draft_for_approval_quiet command_drift_quiet program_drift_quiet : vigil.
