(* ===== verification/HubProps.v ===== *)
(** * What the hub guarantees

    A call reaches an upstream only through the gates and by a decision that was
    recorded before it; what comes back has been cleaned; a tool is listed only
    once its descriptor is approved; a server is connected only with the command
    that was approved. *)

From stdpp Require Import pretty.
From S2P Require Import Prelude Types Policy PolicyFacts Scorer Deps Concrete Db Hash Ledger LedgerFacts Approvals ApprovalFacts ApprovalProps Outbox Registry Oracle RegistryFacts RegistryProps Span Namespace Redact Preflight Firewall FirewallProps Text Alias AliasProps Protocol ToolResult Hub HubFacts.

(** ** Rows *)

Section Rows.
Context `{CratesLaws} `{Redaction}.

(** An event of the invocation's session. *)
Definition row_is (inv : ToolInvocation) (event_type : string) (payload : Value)
    (row : EventRow) : Prop :=
  e_event_type row = event_type ∧ e_session_id row = ti_session_id inv
  ∧ jcs_to_vec payload = Some (e_payload_json row).

Definition recorded (inv : ToolInvocation) (d : DecisionRecord) (l : list EventRow) : Prop :=
  ∃ row e, row ∈ l ∧ row_is inv "decision.recorded" (decision_payload d e) row.

Lemma append_row now inv et p rt s ev s' :
  append_event_internal now (ti_session_id inv) et p rt s = (Ok ev, s') →
  ∃ row, events s' = events s ++ [row] ∧ row_is inv et p row.
Proof.
  destruct (append_event_internal_inv now (ti_session_id inv) et p rt s)
    as [[err ->]|(text & h & _ & _ & Hj & _ & _ & _ & ->)]; [done|].
  intros [= <- <-]. eexists. split; [reflexivity|]. by split_and!.
Qed.

Lemma record_decision_row now inv d e s ev s' :
  record_decision now (ti_session_id inv) d e s = (Ok ev, s') → recorded inv d (events s').
Proof.
  intros (row & -> & Hr)%append_row. exists row, e. split; [|done]. apply elem_of_app. right.
  by left.
Qed.

Lemma recorded_app inv d l l' : recorded inv d l → recorded inv d (l ++ l').
Proof. intros (row & e & Hin & Hr). exists row, e. split; [|done]. apply elem_of_app. by left. Qed.

Lemma tool_call_span_row now inv s sp s' :
  tool_call_span now (ti_invocation_id inv) (ti_session_id inv) s = (Ok sp, s') →
  (∃ row, events s' = events s ++ [row] ∧
     row_is inv "tool_call.opened" (opened_payload (ti_invocation_id inv)) row)
  ∧ sp = mkSpan (ti_invocation_id inv) (ti_session_id inv) false.
Proof.
  unfold tool_call_span. intros (ev & s1 & Hev & [= <- <-])%bind_inv. split; [|done].
  by eapply append_row.
Qed.

Lemma decision_recorded_row now now' inv d s sp s' :
  decision_recorded now now' (mkSpan (ti_invocation_id inv) (ti_session_id inv) false) d s
    = (Ok sp, s') →
  ∃ row, events s' = events s ++ [row] ∧
    row_is inv "tool_call.decided" (decided_payload (ti_invocation_id inv) d) row.
Proof.
  unfold decision_recorded, consuming, attempt, bind. simpl.
  destruct (append_event_internal _ _ _ _ _ s) as [[ev|err] s1] eqn:E.
  - intros [= _ <-]. by eapply append_row.
  - unfold throw. by destruct (drop _ _ s1) as [[[]|] ?].
Qed.
End Rows.

(** ** Authority *)

Section Props.
Context `{CratesLaws} `{Redaction} `{ResultRedaction} `{PiiScanner} `{!PiiScannerLaws}
  `{DescriptorOracle LedgerState}.
Context (env : Env) (hub : Hub).

(** What entitles the hub to make a call: the policy, an approval of the user for
    the session or for this call, or monitor mode. [tbl] is the approval queue. *)
Inductive authority (inv : ToolInvocation) (tbl : gmap string ApprovalRow)
    (d : DecisionRecord) : Prop :=
| ByPolicy e rd scopes f f' :
    evaluate (hub_firewall hub) rd inv scopes f = (Ok (FirewallOutcome.Allowed d e), f') →
    authority inv tbl d
| BySessionScope id row now h :
    dr_decision d = DecisionKind.Allow → dr_policy_ids d = ["session-scope-allow"] →
    jcs_sha256 (ti_args inv) = Some h → tbl !! id = Some row →
    session_scope_match now (ti_session_id inv) (ti_server_id inv) (ti_tool_name inv) h row
      = true →
    authority inv tbl d
| ByApproval e a row rd scopes f f' :
    evaluate (hub_firewall hub) rd inv scopes f = (Ok (FirewallOutcome.Approve d e a), f') →
    tbl !! ar_approval_id a = Some row → a_status row = "Approved" →
    authority inv tbl d
| ByMonitorApproval e a row rd scopes f f' :
    monitor_mode (hub_config hub) = true → is_descriptor_drift d = false →
    evaluate (hub_firewall hub) rd inv scopes f = (Ok (FirewallOutcome.Approve d e a), f') →
    tbl !! ar_approval_id a = Some row → a_status row = "Approved" →
    a_resolved_by row = Some "vigil-monitor-mode" →
    authority inv tbl d
| ByMonitorFloor e d0 rd scopes f f' :
    monitor_mode (hub_config hub) = true →
    evaluate (hub_firewall hub) rd inv scopes f = (Ok (FirewallOutcome.Denied d0 e), f') →
    dr_policy_ids d0 = [DEFAULT_DENY_POLICY_ID] →
    dr_decision d = DecisionKind.Allow → dr_policy_ids d = ["vigil-monitor-mode"] →
    authority inv tbl d.

(** The call that goes out: the tool, and the arguments with the values in. *)
Definition outgoing (inv : ToolInvocation) (route : ToolRoute) (up : McpUpstream) : Sent :=
  mkSent (rt_server_id route) up "tools/call"
    (Some (JObj [("name", JStr (rt_upstream_tool_name route));
                 ("arguments", map_leaves (inject (hub_secret_aliases hub)) (ti_args inv))]))
    (upstream_call_timeout (hub_config hub)).

Record mediated (inv : ToolInvocation) (route : ToolRoute) (d : DecisionRecord)
    (s s' : HubState) : Prop := {
  md_call : ∃ up, hs_upstreams s !! rt_server_id route = Some up
    ∧ hs_sent s' = hs_sent s ++ [outgoing inv route up];
  md_aliases : Forall (usable (rt_server_id route) (hub_secret_aliases hub))
      (alias_tokens (ti_args inv))
    ∧ Forall (λ k, str_contains ALIAS_PREFIX k = false) (keys (ti_args inv));
  md_rows : ∃ before opened decided after,
    events (hs_ledger s') = before ++ [opened; decided] ++ after ∧ recorded inv d before
    ∧ row_is inv "tool_call.opened" (opened_payload (ti_invocation_id inv)) opened
    ∧ row_is inv "tool_call.decided" (decided_payload (ti_invocation_id inv) d) decided;
  md_authority : authority inv (approvals (hs_ledger s')) d;
}.

(** A result in the response is what [clean_result] made of the answer. *)
Definition answers_cleaned (inv : ToolInvocation) (d : DecisionRecord)
    (r : result HubError (option JsonRpcResponse)) : Prop :=
  ∀ resp v, r = Ok (Some resp) → rs_result resp = Some v →
    ∃ answer t t', clean_result env hub inv (dr_decision_id d)
      (uses (hub_secret_aliases hub) <$> alias_tokens (ti_args inv)) answer t = (Ok v, t').

Definition no_result (r : result HubError (option JsonRpcResponse)) : Prop :=
  ∀ resp, r = Ok (Some resp) → rs_result resp = None.

Definition guarded (inv : ToolInvocation) (route : ToolRoute) (s : HubState)
    (out : result HubError (option JsonRpcResponse) * HubState) : Prop :=
  approval_step (hs_ledger s) (hs_ledger out.2) ∧
  ((hs_sent out.2 = hs_sent s ∧ no_result out.1) ∨
   ∃ d, mediated inv route d s out.2 ∧ answers_cleaned inv d out.1).

Lemma guarded_after inv route s s1 out :
  hub_step approval_step s s1 → guarded inv route s1 out → guarded inv route s out.
Proof.
  intros (Hl & Hs & Hu & _) (Hl' & Hg). split; [by etransitivity|].
  destruct Hg as [[E Hn]|(d & [Hc Ha Hr Hau] & Hcl)]; [left; by rewrite E|right].
  exists d. split; [|done]. split; [|done..]. by rewrite <- Hu, <- Hs.
Qed.

Lemma guarded_quiet inv route s (m : HubM (option JsonRpcResponse)) :
  preserves (hub_step approval_step) m → no_result (m s).1 → guarded inv route s (m s).
Proof. intros Hm Hn. destruct (Hm s) as (Hl & Hs & _). split; [done|]. by left. Qed.

Lemma guarded_bind {A} inv route s (m : HubM A) (k : A → HubM (option JsonRpcResponse)) :
  preserves (hub_step approval_step) m →
  (∀ a s1, m s = (Ok a, s1) → hub_step approval_step s s1 → guarded inv route s1 (k a s1)) →
  guarded inv route s (bind m k s).
Proof.
  intros Hm Hk. specialize (Hm s). unfold bind.
  destruct (m s) as [[a|e] s1] eqn:E; simpl in Hm.
  - apply (guarded_after _ _ _ s1 _ Hm). by apply Hk.
  - destruct Hm as (Hl & Hs & _). split; [done|]. left. by split.
Qed.

Lemma quiet_approval {A} (m : HubM A) :
  preserves (hub_step off_queue) m → preserves (hub_step approval_step) m.
Proof. apply preserves_mono. intros s s'. apply hub_step_mono, off_queue_approval. Qed.

Lemma read_inv {A} (f : nat → A) s a s1 :
  read f s = (Ok a, s1) → s1 = set_reads (S (hs_reads s)) s.
Proof. by intros [= _ <-]. Qed.

Lemma bind_gets {S E A B} (f : S → A) (k : A → M S E B) s : bind (gets f) k s = k (f s) s.
Proof. reflexivity. Qed.

Lemma bind_read {A B} (f : nat → A) (k : A → HubM B) s :
  bind (read f) k s = k (f (hs_reads s)) (set_reads (S (hs_reads s)) s).
Proof. reflexivity. Qed.

(** ** The call *)

Lemma finish_call_result req inv route oid d sp injected answer s resp v s' :
  finish_call env hub req inv route oid d sp injected answer s = (Ok (Some resp), s') →
  rs_result resp = Some v →
  ∃ a t t', clean_result env hub inv (dr_decision_id d) injected a t = (Ok v, t').
Proof.
  unfold finish_call. destruct answer as [a|e].
  - intros (w & s1 & Hw & (t1 & s2 & _ & (t2 & s3 & _ & (u1 & s4 & _ & (t3 & s5 & _ &
      (u2 & s6 & _ & Hr)%bind_inv)%bind_inv)%bind_inv)%bind_inv)%bind_inv)%bind_inv.
    injection Hr as <- <-. intros [= ->]. by eauto.
  - intros (t1 & s2 & _ & (t2 & s3 & _ & (u1 & s4 & _ & (t3 & s5 & _ &
      (u2 & s6 & _ & Hr)%bind_inv)%bind_inv)%bind_inv)%bind_inv)%bind_inv.
    by injection Hr as <- <-.
Qed.

Lemma refusal_guarded inv route s (m : HubM unit) req c msg dat :
  preserves (hub_step off_queue) m →
  guarded inv route s ((m ;! respond (error req c msg dat)) s).
Proof.
  intros Hm. apply guarded_quiet.
  - apply quiet_approval. unfold respond. preserve.
  - unfold bind. destruct (m s) as [[u|e] s1]; intros resp; [by intros [= <-]|done].
Qed.

(** The upstream call and what follows it, from the state the span was decided in. *)
Lemma call_guarded req inv route oid d up sp s before opened decided :
  hs_upstreams s !! rt_server_id route = Some up →
  Forall (usable (rt_server_id route) (hub_secret_aliases hub)) (alias_tokens (ti_args inv)) →
  Forall (λ k, str_contains ALIAS_PREFIX k = false) (keys (ti_args inv)) →
  events (hs_ledger s) = before ++ [opened; decided] →
  recorded inv d before →
  row_is inv "tool_call.opened" (opened_payload (ti_invocation_id inv)) opened →
  row_is inv "tool_call.decided" (decided_payload (ti_invocation_id inv) d) decided →
  authority inv (approvals (hs_ledger s)) d →
  guarded inv route s
    ((let! answer := call_upstream env (rt_server_id route) up "tools/call"
        (Some (JObj [("name", JStr (rt_upstream_tool_name route));
                     ("arguments", map_leaves (inject (hub_secret_aliases hub)) (ti_args inv))]))
        (upstream_call_timeout (hub_config hub)) in
      finish_call env hub req inv route oid d sp
        (uses (hub_secret_aliases hub) <$> alias_tokens (ti_args inv)) answer) s).
Proof.
  intros Hup Hal Hk Hev Hrec Hop Hde Hau. unfold call_upstream, read, modify, bind. simpl.
  set (s1 := set_reads _ _). set (answer := env_answer env _).
  pose proof (finish_call_quiet env hub req inv route oid d sp
    (uses (hub_secret_aliases hub) <$> alias_tokens (ti_args inv)) answer s1) as Hq.
  pose proof (λ resp v s', finish_call_result req inv route oid d sp
    (uses (hub_secret_aliases hub) <$> alias_tokens (ti_args inv)) answer s1 resp v s') as Hres.
  destruct (finish_call _ _ _ _ _ _ _ _ _ _ s1) as [r s2]. simpl in Hq.
  destruct Hq as (Hl & Hs & _). pose proof Hl as (Hlog & Ha & _).
  split; [apply off_queue_approval; exact Hl|]. right. exists d. split; [split|].
  - exists up. split; [done|]. simpl. by rewrite Hs.
  - done.
  - destruct Hlog as (_ & after & Ea). exists before, opened, decided, after.
    split; [|done]. simpl. rewrite Ea. change (hs_ledger s1) with (hs_ledger s).
    by rewrite Hev, <- app_assoc.
  - simpl. rewrite Ha. exact Hau.
  - intros resp v. simpl. intros -> Hv. by eapply Hres.
Qed.

Lemma invoke_guarded req inv route oid d s :
  recorded inv d (events (hs_ledger s)) → authority inv (approvals (hs_ledger s)) d →
  guarded inv route s (invoke_upstream env hub req inv route oid d s).
Proof.
  intros Hrec Hau. unfold invoke_upstream.
  assert (∀ t, preserves (hub_step off_queue) (try_outbox oid (mark_outbox_failed t))) as Hf
    by (intros t; apply outbox_quiet; intros; apply outbox_marks_quiet).
  unfold bind at 1, gets at 1. destruct (hs_upstreams s !! rt_server_id route) as [up|] eqn:Hup.
  2:{ apply guarded_bind; [apply quiet_approval, now_quiet|]. intros t s1 _ _.
      by apply refusal_guarded. }
  pose proof (validate_erase (ti_args inv) (rt_server_id route) (hub_secret_aliases hub) []) as Hv.
  destruct (detokenize_alias_refs _ _ _ []) as [[args injected]|err] eqn:Hd.
  2:{ apply guarded_bind; [apply quiet_approval, now_quiet|]. intros t s1 _ _.
      by apply refusal_guarded. }
  simpl in Hv. apply validate_refs_ok in Hv as [Hal Hk]. apply detokenize_ok in Hd as [= -> ->].
  apply guarded_bind; [apply quiet_approval, now_quiet|]. intros t1 s1 ->%read_inv _.
  apply guarded_bind; [apply quiet_approval, ledger_op_step, tool_call_span_quiet|].
  intros sp s2 (l2 & Hsp & ->)%on_ledger_inv _.
  pose proof (tool_call_span_quiet t1 (ti_invocation_id inv) (ti_session_id inv)
    (hs_ledger (set_reads (S (hs_reads s)) s))) as Hq2. rewrite Hsp in Hq2.
  apply tool_call_span_row in Hsp as [(opened & Ho & Hop) ->].
  apply guarded_bind; [apply quiet_approval, now_quiet|]. intros t2 s2' ->%read_inv _.
  apply guarded_bind; [apply quiet_approval, now_quiet|]. intros t3 s2'' ->%read_inv _.
  apply guarded_bind; [apply quiet_approval, ledger_op_step, decision_recorded_quiet|].
  intros sp3 s3 (l3 & Hsp3 & ->)%on_ledger_inv _.
  match type of Hsp3 with decision_recorded _ _ _ _ ?l = _ =>
    pose proof (decision_recorded_quiet t2 t3
      (mkSpan (ti_invocation_id inv) (ti_session_id inv) false) d l) as Hq3 end.
  rewrite Hsp3 in Hq3. apply decision_recorded_row in Hsp3 as (decided & Hde & Hdec).
  destruct Hq2 as (_ & Ha2 & _), Hq3 as (_ & Ha3 & _). unfold same, hs_ledger in Ha2, Ha3, Ho, Hde. simpl in Ha2, Ha3, Ho, Hde.
  eapply call_guarded; [done..| |exact Hrec|exact Hop|exact Hdec|].
  - unfold hs_ledger. simpl. by rewrite Hde, Ho, <- app_assoc.
  - unfold hs_ledger. simpl. by rewrite Ha3, Ha2.
Qed.

(** ** The ways to a decision *)

Lemma recorded_step inv d l l' :
  approval_step l l' → recorded inv d (events l) → recorded inv d (events l').
Proof. intros [[_ [x ->]] _]. apply recorded_app. Qed.

Lemma logged_recorded inv d e f : decision_logged inv d e f → recorded inv d (events (ledger f)).
Proof. intros (row & Hin & Ht & Hs & Hj). exists row, e. by split_and!. Qed.

Lemma evaluate_approval_id fw rd inv scopes f d e a f' :
  evaluate fw rd inv scopes f = (Ok (FirewallOutcome.Approve d e a), f') →
  ar_approval_id a = rd_approval_id rd.
Proof.
  unfold evaluate. destruct (existsb _ _); [done|].
  intros (st & s1 & _ & E)%bind_inv. destruct (score _ _ _) as [base reasons].
  apply bind_inv in E as (pf & s2 & _ & E). apply bind_inv in E as (pdec & s3 & _ & E).
  apply bind_inv in E as (rec & s4 & _ & E). apply bind_inv in E as (ok & s5 & _ & E).
  apply bind_inv in E as (au & s6 & _ & E). unfold conclude in E.
  destruct (pd_action pdec); [by injection E|by injection E|].
  destruct (summarize _ _ _) as [title summary].
  apply bind_inv in E as (h & s7 & _ & E). apply bind_inv in E as (r & s8 & Hr & E).
  apply bind_inv in E as (req & s9 & Hq & E). injection E as _ _ -> _.
  unfold or_fail, lift in Hq. destruct r as [req'|]; [|done]. injection Hq as -> _.
  unfold Preflight.on_ledger in Hr. destruct (create_approval _ _ _ _ _ _ _ _ _ _ _) as [r l] eqn:Ec.
  injection Hr as -> _. unfold create_approval in Ec.
  apply bind_inv in Ec as (u & l1 & _ & Ec). apply bind_inv in Ec as (v & l2 & _ & Ec).
  by injection Ec as <- _.
Qed.

Lemma invoke_allowed_guarded req inv route risk reason pid s :
  (∀ d, dr_decision d = DecisionKind.Allow → dr_policy_ids d = [pid] →
     authority inv (approvals (hs_ledger s)) d) →
  guarded inv route s (invoke_allowed env hub req inv route risk reason pid s).
Proof.
  intros Hau. unfold invoke_allowed.
  apply guarded_bind; [apply quiet_approval, new_uuid_quiet|]. intros did s1 ->%read_inv _.
  apply guarded_bind; [apply quiet_approval, now_quiet|]. intros t s1 ->%read_inv _.
  set (dec := mkDecisionRecord _ _ _ _ _ _ _).
  apply guarded_bind; [apply quiet_approval, ledger_op_step, record_decision_quiet|].
  intros ev s1 (l & Hrec & ->)%on_ledger_inv _.
  match type of Hrec with record_decision _ _ _ _ ?l0 = _ =>
    pose proof (record_decision_quiet t (ti_session_id inv) dec effect_vector_default l0) as Hq end.
  rewrite Hrec in Hq. destruct Hq as (_ & Ha & _). apply record_decision_row in Hrec.
  apply invoke_guarded; [exact Hrec|]. change (authority inv (approvals l) dec).
  simpl in Ha. rewrite Ha. by apply Hau.
Qed.

(** The firewall's outcome, as the rest of the call finds it. *)
Definition decided (inv : ToolInvocation) (o : FirewallOutcome) (l : LedgerState) : Prop :=
  (∃ rd scopes f f', evaluate (hub_firewall hub) rd inv scopes f = (Ok o, f')
     ∧ match o with
       | FirewallOutcome.Approve d e a =>
           ∃ row, approvals l !! ar_approval_id a = Some row ∧ a_status row = "Pending"
       | _ => True
       end)
  ∧ recorded inv (FirewallOutcome.decision o) (events l).

Lemma evaluate_decided rd inv scopes f o f' :
  evaluate (hub_firewall hub) rd inv scopes f = (Ok o, f') → decided inv o (ledger f').
Proof.
  intros E. pose proof (evaluate_spec (hub_firewall hub) rd inv scopes f) as Hs.
  cbv zeta in Hs. rewrite E in Hs. destruct Hs as (_ & pf & risk & pdec & _ & _ & _ & Hk & _ & _ &
    _ & Hlog & Hq).
  split; [|by apply logged_recorded in Hlog]. exists rd, scopes, f, f'. split; [done|].
  destruct o as [| |d e a]; [done..|]. simpl in Hk.
  destruct Hq as (row & h & Hrow & Hp & _).
  { by destruct (pd_action pdec). }
  exists row. split; [|done]. by rewrite (evaluate_approval_id _ _ _ _ _ _ _ _ _ E).
Qed.

Lemma conclude_denied_guarded req inv route d e s :
  decided inv (FirewallOutcome.Denied d e) (hs_ledger s) →
  guarded inv route s (conclude_denied env hub req inv route d s).
Proof.
  intros [(rd & scopes & f & f' & E & _) _]. unfold conclude_denied.
  destruct (monitor_mode (hub_config hub)) eqn:Hm; simpl.
  2:{ apply (refusal_guarded _ _ _ (ret tt)). by intros t. }
  case_bool_decide as Hpol.
  - apply invoke_allowed_guarded. intros d' Hd Hp. by eapply ByMonitorFloor.
  - apply (refusal_guarded _ _ _ (ret tt)). by intros t.
Qed.

Lemma conclude_resolution_guarded req inv route oid d e a res rd scopes f f' s :
  evaluate (hub_firewall hub) rd inv scopes f = (Ok (FirewallOutcome.Approve d e a), f') →
  recorded inv d (events (hs_ledger s)) → told (ar_approval_id a) (hs_ledger s) res →
  guarded inv route s (conclude_resolution env hub req inv route oid d res s).
Proof.
  intros E Hrec Htold. unfold conclude_resolution.
  apply guarded_bind; [apply quiet_approval, now_quiet|]. intros t s1 ->%read_inv _.
  pose proof (outbox_marks_quiet t) as Hmarks.
  destruct res as [r|]; [|apply refusal_guarded, outbox_quiet; intros id; apply Hmarks].
  destruct (res_status r) eqn:Hst;
    try (apply refusal_guarded, outbox_quiet; intros id; apply Hmarks).
  apply guarded_bind; [apply quiet_approval, outbox_quiet; intros id; apply Hmarks|].
  intros u s1 Hs1 Hstep.
  assert (hub_step off_queue (set_reads (S (hs_reads s)) s) s1) as (Hq & _).
  { pose proof (proj2 (outbox_quiet oid (mark_outbox_approved t) (λ id, proj1 (Hmarks id)))
      (set_reads (S (hs_reads s)) s)) as Hq. by rewrite Hs1 in Hq. }
  destruct Htold as (row & Hrow & (_ & Hstat & _)). rewrite Hst in Hstat.
  apply invoke_guarded.
  - eapply recorded_step; [apply off_queue_approval; exact Hq|exact Hrec].
  - destruct Hq as (_ & Ha & _). eapply ByApproval; [exact E| |exact Hstat]. rewrite Ha. exact Hrow.
Qed.

Definition env_lawful : Prop :=
  ∀ n, Forall (λ f, ∀ l, approval_step l (f l)) (env_wait env n).

(** Monitor mode: the hub approves in the user's place. *)
Lemma monitored_guarded req inv route oid d e a row rd scopes f f' s :
  monitor_mode (hub_config hub) = true → is_descriptor_drift d = false →
  evaluate (hub_firewall hub) rd inv scopes f = (Ok (FirewallOutcome.Approve d e a), f') →
  approvals (hs_ledger s) !! ar_approval_id a = Some row → a_status row = "Pending" →
  recorded inv d (events (hs_ledger s)) →
  guarded inv route s
    ((let! t1 := now env in
      let! t2 := now env in
      on_ledger (approve t1 t2 (ar_approval_id a) ApprovalScope.Once
                   (Some "vigil-monitor-mode")) ;!
      let! t3 := now env in
      on_outbox oid (mark_outbox_approved t3) ;!
      invoke_upstream env hub req inv route oid d) s).
Proof.
  intros Hm Hdrift E Hrow Hp Hrec.
  apply guarded_bind; [apply quiet_approval, now_quiet|]. intros t1 s2 ->%read_inv _.
  apply guarded_bind; [apply quiet_approval, now_quiet|]. intros t2 s2 ->%read_inv _.
  apply guarded_bind; [apply ledger_op_step, approve_step|].
  intros r s2 (l & Hap & ->)%on_ledger_inv (Hst & _). simpl in Hst.
  apply (approve_ok _ _ _ _ _ _ row) in Hap; [|exact Hrow|done].
  apply guarded_bind; [apply quiet_approval, now_quiet|]. intros t3 s2 ->%read_inv _.
  pose proof (proj2 (outbox_quiet oid (mark_outbox_approved t3)
    (λ id, proj1 (outbox_marks_quiet t3 id)))) as Hmq.
  apply guarded_bind; [by apply quiet_approval|]. intros u s3 Hs3 _.
  match type of Hs3 with on_outbox _ _ ?x = _ => specialize (Hmq x) end.
  rewrite Hs3 in Hmq. destruct Hmq as (Hq3 & _). pose proof Hq3 as (_ & Ha3 & _).
  apply invoke_guarded.
  - eapply recorded_step; [apply off_queue_approval; exact Hq3|].
    by eapply recorded_step.
  - simpl in Ha3. eapply ByMonitorApproval; [done..|exact E|rewrite Ha3; exact Hap|done|done].
Qed.

(** Otherwise it waits for the user. *)
Lemma waited_guarded req inv route oid d e a rd scopes f f' s :
  env_lawful → approvals_inv (hs_ledger s) →
  evaluate (hub_firewall hub) rd inv scopes f = (Ok (FirewallOutcome.Approve d e a), f') →
  recorded inv d (events (hs_ledger s)) →
  guarded inv route s
    ((let! t := now env in
      let! slices := read (env_wait env) in
      let! resolution := on_ledger (wait_for_resolution t (ar_approval_id a) slices) in
      conclude_resolution env hub req inv route oid d resolution) s).
Proof.
  intros Henv Hinv E Hrec.
  apply guarded_bind; [apply quiet_approval, now_quiet|]. intros t s1 ->%read_inv _.
  apply guarded_bind; [apply read_step; apply _|].
  intros slices s1 Hsl _. pose proof Hsl as ->%read_inv. injection Hsl as <-.
  pose proof (Henv (hs_reads (set_reads (S (hs_reads s)) s))) as Hlaw.
  apply guarded_bind; [by apply ledger_op_step, wait_step|].
  intros res s1 (l & Hw & ->)%on_ledger_inv (Hst & _).
  eapply conclude_resolution_guarded; [exact E|by eapply recorded_step|].
  match type of Hw with wait_for_resolution _ _ ?sl ?x = _ =>
    destruct (wait_told t (ar_approval_id a) sl x) as (o & l' & Hw' & _ & Ht) end; [done..|].
  rewrite Hw in Hw'. by injection Hw' as -> ->.
Qed.

Lemma conclude_approve_guarded req inv route d e a s :
  env_lawful → approvals_inv (hs_ledger s) →
  decided inv (FirewallOutcome.Approve d e a) (hs_ledger s) →
  guarded inv route s (conclude_approve env hub req inv route d e a s).
Proof.
  intros Henv Hinv [(rd & scopes & f & f' & E & row & Hrow & Hp) Hrec]. unfold conclude_approve.
  pose proof (draft_for_approval_quiet env hub inv route e a) as Hdq.
  apply guarded_bind; [by apply quiet_approval|]. intros oid s1 Hs1 _.
  specialize (Hdq s). rewrite Hs1 in Hdq. destruct Hdq as (Hq1 & _).
  pose proof Hq1 as (_ & Ha1 & _). simpl in Ha1. apply off_queue_approval in Hq1.
  pose proof (recorded_step inv d _ _ Hq1 Hrec) as Hrec1.
  destruct (monitor_mode (hub_config hub) && _) eqn:Hmon.
  - apply andb_true_iff in Hmon as [Hm Hdrift%negb_true_iff].
    eapply monitored_guarded; try done. by rewrite Ha1.
  - eapply waited_guarded; try done. destruct Hq1 as (_ & _ & Hk). by apply Hk.
Qed.

Lemma evaluate_and_conclude_guarded req inv route s :
  env_lawful → approvals_inv (hs_ledger s) →
  guarded inv route s (evaluate_and_conclude env hub req inv route s).
Proof.
  intros Henv Hinv. unfold evaluate_and_conclude. unfold bind at 1, gets.
  apply guarded_bind; [apply read_step; apply _|]. intros rd s1 ->%read_inv _.
  set (scopes := match hs_oauth_scopes s !! _ with Some _ => _ | None => _ end).
  unfold bind, on_firewall.
  pose proof (evaluate_spec (hub_firewall hub) rd inv scopes (hs_fw (set_reads (S (hs_reads s)) s)))
    as Hs. cbv zeta in Hs.
  destruct (evaluate (hub_firewall hub) rd inv scopes _) as [r f'] eqn:E. destruct Hs as [Hstep _].
  set (s1 := set_fw f' _).
  assert (hub_step approval_step s s1) as Hs1 by by split.
  apply (guarded_after _ _ _ (set_reads (S (hs_reads s)) s)); [by split; [reflexivity|]|].
  destruct r as [o|err]; simpl.
  2:{ split; [exact Hstep|]. by left. }
  apply evaluate_decided in E as Hdec. apply (guarded_after _ _ _ s1); [by split|].
  destruct o as [d e|d e|d e a].
  - destruct Hdec as [(rd' & sc & f1 & f2 & E' & _) Hrec].
    apply invoke_guarded; [exact Hrec|]. by eapply ByPolicy.
  - by eapply conclude_denied_guarded.
  - apply conclude_approve_guarded; [done| |done]. destruct Hstep as (_ & _ & Hk). by apply Hk.
Qed.

Lemma decide_call_guarded req inv route s :
  ti_server_id inv = rt_server_id route → ti_tool_name inv = rt_upstream_tool_name route →
  env_lawful → approvals_inv (hs_ledger s) →
  guarded inv route s (decide_call env hub req inv route s).
Proof.
  intros Hsrv Htool Henv Hinv. unfold decide_call.
  apply guarded_bind; [apply preserves_lift; apply _|]. intros h s1 Hh _.
  assert (jcs_sha256 (ti_args inv) = Some h ∧ s1 = s) as [Hh' ->].
  { unfold or_json, lift in Hh. destruct (jcs_sha256 _); [|done]. by injection Hh as -> ->. }
  apply guarded_bind; [apply quiet_approval, now_quiet|]. intros t s1 ->%read_inv _.
  apply guarded_bind; [apply ledger_op_step; intros l; reflexivity|].
  intros allowed s1 (l & Hl & ->)%on_ledger_inv _. injection Hl as Hl <-.
  destruct allowed as [r|].
  2:{ apply evaluate_and_conclude_guarded; [done|exact Hinv]. }
  apply invoke_allowed_guarded. intros d Hd Hp.
  set (p := session_scope_match _ _ _ _ _) in Hl.
  destruct (head _) as [[id row]|] eqn:Eh in Hl; [|done].
  assert ((id, row) ∈ List.filter (λ kv, p kv.2) (map_to_list (approvals (hs_ledger s))))
    as Hin.
  { rewrite <- (Sort.sort_perm later_resolved).
    destruct (Sort.sort _ _); [done|]. injection Eh as ->. by left. }
  apply list_elem_of_In, filter_In in Hin as [Hin Hm].
  apply list_elem_of_In, elem_of_map_to_list in Hin.
  eapply BySessionScope; [done..|exact Hin|]. rewrite Hsrv, Htool. exact Hm.
Qed.

Lemma gated_call_guarded req inv route s :
  ti_server_id inv = rt_server_id route → ti_tool_name inv = rt_upstream_tool_name route →
  env_lawful → approvals_inv (hs_ledger s) →
  guarded inv route s (gated_call env hub req inv route s) ∧
  (holds_only_aliases (ti_args inv) ∨
   no_result (gated_call env hub req inv route s).1 ∧
   hs_sent (gated_call env hub req inv route s).2 = hs_sent s).
Proof.
  intros Hsrv Htool Henv Hinv. unfold gated_call.
  pose proof (scan_passed (ti_args inv)) as Hpass.
  pose proof (decide_call_guarded req inv route s Hsrv Htool Henv Hinv) as Hdec.
  assert (∀ e, guarded inv route s (refuse_alias env req inv route e s)) as Hal.
  { intros e. unfold refuse_alias. apply guarded_bind; [apply quiet_approval, new_uuid_quiet|].
    intros id s1 ->%read_inv _. apply refusal_guarded, refuse_quiet. }
  destruct (scan_args_for_raw_secrets (ti_args inv)) as [| |rule sh].
  3:{ assert (guarded inv route s (refuse_raw_secret env req inv route rule sh s)) as Hg.
      { unfold refuse_raw_secret. apply guarded_bind; [apply quiet_approval, new_uuid_quiet|].
        intros id s1 ->%read_inv _. apply refusal_guarded, refuse_quiet. }
      split; [done|]. right. split.
      - unfold refuse_raw_secret, new_uuid, read, bind. simpl.
        destruct (refuse _ _ _ _ _ _) as [[u|e] s2]; intros resp; [by intros [= <-]|done].
      - apply (refuse_raw_secret_quiet env req inv route rule sh s). }
  all: split; [destruct (validate_alias_refs _ _ _); done|left; by apply Hpass].
Qed.

Lemma handle_tools_call_guarded req s :
  env_lawful → approvals_inv (hs_ledger s) →
  let out := handle_tools_call env hub req s in
  (hs_sent out.2 = hs_sent s ∧ no_result out.1 ∧ approval_step (hs_ledger s) (hs_ledger out.2)) ∨
  ∃ params public route inv,
    rq_params req = Some params ∧ json_str "name" params = Some public
    ∧ hs_router s !! public = Some route
    ∧ ti_session_id inv = default "no-session" (hs_session_id s)
    ∧ ti_server_id inv = rt_server_id route ∧ ti_tool_name inv = rt_upstream_tool_name route
    ∧ ti_args inv = default JNull (json_get "arguments" params)
    ∧ ti_descriptor_hash inv = rt_descriptor_hash route
    ∧ holds_only_aliases (ti_args inv) ∧ guarded inv route s out.
Proof.
  intros Henv Hinv. cbv zeta. unfold handle_tools_call.
  assert (∀ c msg, let out := respond (error req c msg None) s in
    hs_sent out.2 = hs_sent s ∧ no_result out.1 ∧ approval_step (hs_ledger s) (hs_ledger out.2))
    as Hrefuse.
  { intros c msg. split_and!; [done|by intros resp [= <-]|reflexivity]. }
  destruct (rq_params req) as [params|] eqn:Hparams; [|left; apply Hrefuse].
  destruct (json_str "name" params) as [public|] eqn:Hname; [|left; apply Hrefuse].
  rewrite bind_gets. unfold resolve.
  destruct (hs_router s !! public) as [route|] eqn:Hroute; [|left; apply Hrefuse].
  rewrite bind_gets. unfold new_uuid. rewrite bind_read. set (s1 := set_reads _ _).
  set (inv := mkToolInvocation _ _ _ _ _ _ _).
  destruct (gated_call_guarded req inv route s1 eq_refl eq_refl Henv Hinv) as [Hg Hgate].
  apply (guarded_after _ _ s) in Hg; [|by split; [reflexivity|]].
  destruct Hgate as [Hgate|[Hn Hs]]; [right|left].
  - exists params, public, route, inv. by split_and!.
  - split_and!; [done|done|]. apply Hg.
Qed.

(** ** The other requests *)

Definition is_listing (c : Sent) : Prop := sent_method c = "tools/list" ∧ sent_params c = None.

(** Only the upstreams' lists of tools are asked for. *)
Definition lists (s s' : HubState) : Prop :=
  approval_step (hs_ledger s) (hs_ledger s') ∧
  ∃ l, hs_sent s' = hs_sent s ++ l ∧ Forall is_listing l.

#[local] Instance lists_preorder : PreOrder lists.
Proof.
  split; unfold lists.
  - intros s. split; [reflexivity|]. exists []. by rewrite app_nil_r.
  - intros s t u (Ha & l1 & E1 & F1) (Hb & l2 & E2 & F2). split; [by etransitivity|].
    exists (l1 ++ l2). rewrite E2, E1, app_assoc. split; [done|]. by apply Forall_app.
Qed.

Lemma quiet_lists {A} (m : HubM A) : preserves (hub_step off_queue) m → preserves lists m.
Proof.
  apply preserves_mono. intros s s' (Hq & Hs & _). split; [by apply off_queue_approval|].
  exists []. by rewrite Hs, app_nil_r.
Qed.

#[local] Ltac quietly :=
  intros; apply quiet_lists; solve [auto with vigil | unfold current_session_id; preserve].

Lemma list_approved_lists : preserves lists (on_ledger list_approved_servers).
Proof. apply quiet_lists, ledger_op_step. intros l. reflexivity. Qed.

Lemma list_exposed_lists id tool h t acc : preserves lists (list_exposed id tool h t acc).
Proof. unfold list_exposed. preserve. apply quiet_lists, ledger_op_step. intros l. reflexivity. Qed.
#[local] Hint Resolve list_exposed_lists : vigil.

Lemma list_tool_lists id acc t : preserves lists (list_tool env hub id acc t).
Proof.
  unfold list_tool, or_json, current_session_id, audit_descriptor_meta_instructions.
  preserve; quietly.
Qed.
#[local] Hint Resolve list_tool_lists : vigil.

Lemma list_tools_lists id acc tools : preserves lists (list_tools env hub id acc tools).
Proof. revert acc. induction tools as [|t tools IH]; intros acc; simpl; preserve. Qed.
#[local] Hint Resolve list_tools_lists : vigil.

Lemma call_upstream_lists id up timeout :
  preserves lists (call_upstream env id up "tools/list" None timeout).
Proof.
  intros s. split; [simpl; reflexivity|]. simpl. eexists. split; [done|]. by repeat constructor.
Qed.
#[local] Hint Resolve call_upstream_lists : vigil.

Lemma note_lists id msg : preserves lists (note_tools_list id msg).
Proof. apply quiet_lists, note_tools_list_step; apply _. Qed.
#[local] Hint Resolve note_lists : vigil.

Lemma list_server_lists ups acc id : preserves lists (list_server env hub ups acc id).
Proof.
  unfold list_server. preserve; quietly.
Qed.
#[local] Hint Resolve list_server_lists : vigil.

Lemma list_servers_lists ups acc ids : preserves lists (list_servers env hub ups acc ids).
Proof. revert acc. induction ids as [|id ids IH]; intros acc; simpl; preserve. Qed.
#[local] Hint Resolve list_servers_lists list_approved_lists : vigil.

Lemma handle_tools_list_lists req : preserves lists (handle_tools_list env hub req).
Proof. unfold handle_tools_list. preserve. Qed.

Lemma handle_initialize_lists req : preserves lists (handle_initialize env req).
Proof.
  unfold handle_initialize. preserve. quietly.
Qed.

(** Every request but [tools/call]. *)
Lemma other_requests_list req s :
  rq_method req ≠ "tools/call" ∨ jsonrpc req ≠ "2.0" →
  lists s (handle_request env hub req s).2.
Proof.
  intros Hm. unfold handle_request, respond.
  destruct (String.eqb_spec (jsonrpc req) "2.0"); simpl; [|destruct (is_notification req); reflexivity].
  repeat match goal with
         | |- context [String.eqb (rq_method req) ?x] =>
             destruct (String.eqb_spec (rq_method req) x); simpl;
               try reflexivity; try (apply handle_initialize_lists);
               try (apply handle_tools_list_lists)
         end.
  by destruct Hm.
Qed.

(** ** Calls *)


(** ** Results *)

(** What the hub passes on for [answer]: the injected values are out of it; and if
    what is left holds a secret and results are redacted, it is scrubbed. *)
Definition passed_on (injected : list (string * string)) (answer v : Value) : Prop :=
  ∃ w,
    (w = withheld_tool_result REFLECTED_NOTE ∨
     w = map_leaves (λ s, (put_back injected s).1) answer
     ∧ Forall (free_of injected) (leaves w) ∧ Forall (free_of injected) (keys w))
    ∧ match jcs_to_vec w with
      | None => v = w
      | Some text =>
          if detect_hard_secret text is Some _ then
            if redact_tool_results (hub_config hub) then
              v = withheld_tool_result LEAKED_NOTE ∨
              v = scrub_json_strings w ∧
              ∃ t, jcs_to_vec v = Some t ∧ detect_hard_secret t = None
            else v = w
          else v = w
      end.

Lemma leak_scan_spec inv did text w v t t' :
  leak_scan env hub inv did text w t = (Ok v, t') →
  if detect_hard_secret text is Some _ then
    if redact_tool_results (hub_config hub) then
      v = withheld_tool_result LEAKED_NOTE ∨
      v = scrub_json_strings w ∧ ∃ t, jcs_to_vec v = Some t ∧ detect_hard_secret t = None
    else v = w
  else v = w.
Proof.
  unfold leak_scan. destruct (detect_hard_secret text) as [rule|]; [|by intros [= <- _]].
  intros (u & t1 & _ & E)%bind_inv. destruct (redact _) as [payload txt].
  apply bind_inv in E as (u' & t2 & _ & E). injection E as <- _.
  destruct (redact_tool_results (hub_config hub)); [|done]. unfold scrub_result.
  destruct (jcs_to_vec (scrub_json_strings w)) as [x|] eqn:Ej; [|by left].
  destruct (detect_hard_secret x) eqn:Ed; [by left|right]. split; [done|]. by exists x.
Qed.

Lemma clean_result_passed inv did injected answer v t t' :
  clean_result env hub inv did injected answer t = (Ok v, t') → passed_on injected answer v.
Proof.
  unfold clean_result. intros (w & t1 & Hw & E)%bind_inv. exists w. split.
  - assert ((redact_injected_reflection answer injected).1 = w) as Hr.
    { destruct injected as [|i injected].
      - injection Hw as <- _. pose proof (no_reflection_unchanged answer []) as Hn.
        rewrite Hn; [done|..]; apply Forall_forall; intros x _ alias value Hin; by apply elem_of_nil in Hin.
      - unfold redact_reflection in Hw.
        destruct (redact_injected_reflection _ _) as [w' [hits fc]]. simpl.
        apply bind_inv in Hw as (u & t2 & _ & Hw). by injection Hw as -> _. }
    destruct (reflection_cases answer injected) as [Hc|Hc]; rewrite Hr in Hc; auto.
  - destruct (jcs_to_vec w) as [text|]; [|by injection E as <- _].
    apply bind_inv in E as (v' & t2 & Hl & E). apply leak_scan_spec in Hl.
    apply bind_inv in E as (u & t3 & _ & E). by injection E as <- _.
Qed.

End Props.

(** ** Witnesses *)

Section Toy.
Import Toy.

#[local] Existing Instance toy_rules.
#[local] Existing Instance DefaultScanner.
#[local] Existing Instance RegistryDescriptorOracle.

(** A clock that stands still, numbered ids, and an upstream that echoes a secret. *)
Definition sample_env : Env :=
  mkEnv (λ _, 10%Z) (λ n, "id" +:+ pretty n) (λ _, sample_readings) (λ _, [id])
    (λ _, Ok (JObj [("content", JStr "the key is s3cret")])).

Definition sample_hub : Hub :=
  mkHub sample_firewall (mkHubConfig 300 10 30 true false true false)
    {["tok" := mkAliasEntry "s3cret" "srv"]}.

Definition sample_hub_state : HubState :=
  mkHubState sample_state {["srv__read" := mkToolRoute "srv__read" "srv" "read" sample_hash]}
    {["srv" := 7]} ∅ (Some "s1") 0 ∅ [] 0.

Definition sample_request : JsonRpcRequest :=
  mkJsonRpcRequest "2.0" (Some (JNum 1)) "tools/call"
    (Some (JObj [("name", JStr "srv__read");
                 ("arguments", JObj [("path", JStr "/p/a"); ("auth", JStr "secret://tok")])])).

Lemma sample_env_lawful : env_lawful sample_env.
Proof. intros n. constructor; [|constructor]. intros l. reflexivity. Qed.

Lemma sample_queue_inv : approvals_inv (hs_ledger sample_hub_state).
Proof.
  assert (approvals (hs_ledger sample_hub_state) = ∅
          ∧ published (hs_ledger sample_hub_state) = ∅) as [Ha Hp] by (by vm_compute).
  split; rewrite ?Ha, ?Hp; [apply map_Forall_empty|].
  intros id r Hr. by rewrite lookup_empty in Hr.
Qed.

Lemma sample_sent :
  hs_sent (handle_request sample_env sample_hub sample_request sample_hub_state).2 =
  [mkSent "srv" 7 "tools/call"
     (Some (JObj [("name", JStr "read");
                  ("arguments", JObj [("path", JStr "/p/a"); ("auth", JStr "s3cret")])])) 30].
Proof. vm_compute. reflexivity. Qed.


End Toy.
