(* ===== verification/HubServers.v ===== *)
(** * Servers and their tools

    What has to be approved before a server is connected and before one of its
    tools is listed: the command, the program it resolves to, the descriptor. *)

From stdpp Require Import pretty.
From S2P Require Import Prelude Types Policy Scorer Deps Concrete Db Hash Ledger LedgerFacts Approvals ApprovalFacts Registry Oracle RegistryFacts RegistryProps Span Namespace Redact Preflight Firewall FirewallProps Text Alias Protocol ToolResult Hub HubFacts HubProps.

(** ** Connecting a server *)

(** If a command was approved for the server, it is this one. *)
Definition command_approved `{Crates} (server_id : string) (argv : list string)
    (l : LedgerState) : Prop :=
  ∀ row h, server_profiles l !! server_id = Some row → sv_command_hash row = Some h →
    h = argv_hash argv.

(** If a program was pinned for the server's command, it is this one. *)
Definition program_approved (server_id resolved : string) (l : LedgerState) : Prop :=
  ∀ row h p, server_profiles l !! server_id = Some row → sv_command_hash row = Some h →
    sv_resolved_program_path row = Some p → p = resolved.

(** Only pending columns and pins of the server's row may move. *)
Definition same_commands (l l' : LedgerState) : Prop :=
  ∀ id, (λ r, (sv_command_hash r, sv_resolved_program_path r)) <$> server_profiles l' !! id
      = (λ r, (sv_command_hash r, sv_resolved_program_path r)) <$> server_profiles l !! id.

Section Servers.
Context `{CratesLaws} `{Redaction}.
Context (env : Env).

Lemma argv_hash_spec argv h : compute_argv_hash argv = Some h → argv_hash argv = h.
Proof.
  unfold compute_argv_hash, jcs_sha256, argv_hash.
  destruct (jcs_to_vec (json_strs argv)); simpl; [|done]. by intros [= <-].
Qed.

Lemma update_server_same id p f l :
  (∀ r, sv_command_hash (f r) = sv_command_hash r ∧
        sv_resolved_program_path (f r) = sv_resolved_program_path r) →
  same_commands l (update_server id p f l).2.
Proof.
  intros Hf id'. unfold update_server, update_where. run_m.
  destruct (server_profiles l !! id) as [r|] eqn:Hr; simpl; [|done].
  destruct (p r); simpl; [|done].
  destruct (decide (id' = id)) as [->|Hne].
  - rewrite lookup_insert_eq, Hr. simpl. destruct (Hf r) as [-> ->]. done.
  - by rewrite lookup_insert_ne.
Qed.

Lemma command_drift_none now id argv h l l' :
  check_server_command_drift now id argv h l = (Ok None, l') →
  command_approved id argv l ∧ refuse_secret_argv argv = Ok tt ∧ same_commands l l'.
Proof.
  unfold check_server_command_drift.
  destruct (String.eqb_spec (argv_hash argv) h) as [<-|]; simpl; [|done].
  destruct (refuse_secret_argv argv) as [[]|]; [|done]. unfold bind at 1, lift at 1.
  unfold bind at 1, gets at 1.
  destruct (server_profiles l !! id) as [r|] eqn:Hr.
  2:{ intros [= <-]. split_and!; [|done|done]. intros row h. by rewrite Hr. }
  destruct (sv_command_hash r) as [c|] eqn:Hc.
  2:{ intros [= <-]. split_and!; [|done|done]. intros row h. rewrite Hr. intros [= <-]. congruence. }
  destruct (String.eqb_spec c (argv_hash argv)) as [->|Hne].
  - intros E. split_and!; [|done|].
    { intros row h. rewrite Hr. intros [= <-]. congruence. }
    apply bind_inv in E as (u & l1 & E1 & E2). injection E2 as <-.
    destruct (sv_pending_command_hash r); [|by injection E1 as _ <-].
    apply bind_inv in E1 as (n & l2 & E1 & E2). injection E2 as _ <-.
    pose proof (update_server_same id (λ _, true)
      (λ r, sv_set_command (sv_command_json r) (sv_command_hash r) None None None r) l
      (λ r, conj eq_refl eq_refl)) as Hs. by rewrite E1 in Hs.
  - intros E. apply bind_inv in E as (n & l2 & _ & E). by injection E.
Qed.

Lemma program_drift_ok id path l o l' :
  check_server_resolved_program_drift id path l = (Ok o, l') →
  match o with
  | ResolvedProgramOutcome.Drifted _ _ => ¬ program_approved id path l
  | _ => program_approved id path l
  end.
Proof.
  unfold check_server_resolved_program_drift, program_approved. unfold bind at 1, gets at 1.
  destruct (server_profiles l !! id) as [r|]; [|by intros [= <- _]].
  destruct (sv_command_hash r) as [c|] eqn:Hc; [|intros [= <- _] row h p [= <-]; congruence].
  destruct (sv_resolved_program_path r) as [p|] eqn:Hp.
  2:{ intros (u & l1 & _ & [= <- _])%bind_inv row h p [= <-]. congruence. }
  destruct (String.eqb_spec p path) as [->|Hne].
  - intros (u & l1 & _ & [= <- _])%bind_inv row h p [= <-]. congruence.
  - intros (u & l1 & _ & [= <- _])%bind_inv Ha. destruct Hne. by eapply (Ha r).
Qed.

Lemma command_gate_ok id argv s s' :
  check_upstream_command_drift env id argv s = (Ok tt, s') →
  command_approved id argv (hs_ledger s) ∧ same_commands (hs_ledger s) (hs_ledger s')
  ∧ hs_upstreams s' = hs_upstreams s.
Proof.
  intros E. pose proof (command_drift_quiet env id argv s) as (_ & _ & Hu & _). rewrite E in Hu.
  unfold check_upstream_command_drift in E. apply bind_inv in E as (h & s1 & Hh & E).
  assert (s1 = s) as -> by (unfold or_json, lift in Hh; by injection Hh).
  apply bind_inv in E as (t & s1 & ->%read_inv & E).
  apply bind_inv in E as (drift & s1 & (l & Hd & ->)%on_ledger_inv & E).
  destruct drift as [d|].
  - by apply bind_inv in E as (sid & s2 & _ & (u & s3 & _ & E)%bind_inv).
  - injection E as <-. apply command_drift_none in Hd as (Ha & _ & Hs). by split_and!.
Qed.

Lemma insert_upstream_ok id up s s' :
  insert_upstream id up s = (Ok tt, s') →
  hs_upstreams s !! id = None ∧ hs_upstreams s' = <[id := up]> (hs_upstreams s)
  ∧ hs_ledger s' = hs_ledger s.
Proof.
  unfold insert_upstream. rewrite bind_gets.
  destruct (hs_upstreams s !! id) eqn:Hid; [done|]. by intros [= <-].
Qed.

Lemma insert_upstream_err id up s e s' :
  insert_upstream id up s = (Err e, s') → hs_upstreams s' = hs_upstreams s.
Proof.
  unfold insert_upstream. rewrite bind_gets.
  destruct (hs_upstreams s !! id) eqn:Hid; [|done]. by intros [= _ <-].
Qed.

(** A connection only with the approved command. If a server is attached, its
    name is valid, it was not connected before, and the command it was started
    with is the one approved for it, if one was; then the connection is in the
    table, and no other entry changed. If it is refused, the table of connections
    is as it was. *)
Theorem attached_with_the_approved_command id argv up s :
  let '(r, s') := attach_upstream env id argv up s in
  match r with
  | Ok _ => SERVER_ID_RE id = true ∧ hs_upstreams s !! id = None
      ∧ command_approved id argv (hs_ledger s)
      ∧ hs_upstreams s' = <[id := up]> (hs_upstreams s)
  | Err _ => hs_upstreams s' = hs_upstreams s
  end.
Proof.
  unfold attach_upstream, validate_server_id.
  destruct (SERVER_ID_RE id) eqn:Hid; [|done]. unfold bind at 1, lift. cbn [map_err].
  unfold bind at 1. pose proof (command_drift_quiet env id argv s) as (_ & _ & Hu & _).
  destruct (check_upstream_command_drift env id argv s) as [[[]|e] s1] eqn:Ec; [|exact Hu].
  simpl in Hu. apply command_gate_ok in Ec as (Ha & _ & _).
  destruct (insert_upstream id up s1) as [[[]|e] s2] eqn:Ei.
  - apply insert_upstream_ok in Ei as (Hn & -> & _). rewrite Hu in Hn. by rewrite Hu.
  - apply insert_upstream_err in Ei as ->. exact Hu.
Qed.

Lemma program_gate_ok id bare path s s' :
  check_upstream_resolved_program_drift env id bare path s = (Ok tt, s') →
  program_approved id path (hs_ledger s).
Proof.
  unfold check_upstream_resolved_program_drift.
  intros (o & s1 & (l & Hd & ->)%on_ledger_inv & E)%bind_inv. apply program_drift_ok in Hd.
  destruct o; [done|done|].
  by apply bind_inv in E as (sid & s2 & _ & (u & s3 & _ & E)%bind_inv).
Qed.

Lemma program_approved_same id path l l' :
  same_commands l l' → program_approved id path l' → program_approved id path l.
Proof.
  intros Hs Ha row h p Hrow Hh Hp. specialize (Hs id). rewrite Hrow in Hs. simpl in Hs.
  destruct (server_profiles l' !! id) as [row'|] eqn:Hrow'; [|done]. injection Hs as Hc Hr.
  eapply (Ha row' h p); congruence.
Qed.

(** Every gate before the spawn. *)
Definition spawn_gates (resolve : string → result string string) (id : string)
    (argv : list string) (s : HubState) : Prop :=
  ∃ program rest resolved,
    argv = program :: rest ∧ SERVER_ID_RE id = true ∧ hs_upstreams s !! id = None
    ∧ resolve program = Ok resolved ∧ command_approved id argv (hs_ledger s)
    ∧ program_approved id resolved (hs_ledger s).

End Servers.

(** ** Listing tools *)

Section Listing.
Context `{CratesLaws} `{Redaction} `{ResultRedaction}.
Context (env : Env) (hub : Hub).

(** The row of a tool carries this hash. *)
Definition tool_hashed (id tool h : string) (l : LedgerState) : Prop :=
  ∃ t, tool_descriptors l !! (id, tool) = Some t ∧ t_descriptor_hash t = h.

(** An approved descriptor stays approved, with its hash. *)
Definition keeps_pins (l l' : LedgerState) : Prop :=
  ∀ id tool h, tool_pinned id tool h l → tool_pinned id tool h l'.

(** No descriptor's hash moves, and approvals stay. *)
Definition keeps_hashes (l l' : LedgerState) : Prop :=
  keeps_pins l l' ∧ ∀ id tool h, tool_hashed id tool h l → tool_hashed id tool h l'.

#[export] Instance keeps_pins_preorder : PreOrder keeps_pins.
Proof. split; [by intros l id tool h|]. intros l1 l2 l3 Ha Hb id tool h Hp. by apply Hb, Ha. Qed.

#[export] Instance keeps_hashes_preorder : PreOrder keeps_hashes.
Proof.
  split; [by intros l; split|]. intros l1 l2 l3 [Ha Ha'] [Hb Hb']. split; [by etransitivity|].
  intros id tool h Hh. by apply Hb', Ha'.
Qed.

Lemma same_tools_keep l l' : tool_descriptors l' = tool_descriptors l → keeps_hashes l l'.
Proof. intros E. split; intros id tool h; unfold tool_pinned, tool_hashed; by rewrite E. Qed.

Lemma append_event_keeps now sid et p rt : preserves keeps_hashes (append_event now sid et p rt).
Proof.
  intros l. destruct (append_event_cases now sid et p rt l) as [[err ->]| ->]; [reflexivity|].
  append_cases err ev l' n f Hlog; [reflexivity|]. by apply same_tools_keep.
Qed.

Lemma append_internal_keeps now sid et p rt :
  preserves keeps_hashes (append_event_internal now sid et p rt).
Proof.
  intros l. append_cases err ev l' n f Hlog; [reflexivity|]. by apply same_tools_keep.
Qed.
#[local] Hint Resolve append_event_keeps append_internal_keeps : vigil.

Lemma bump_keeps now sid delta : preserves keeps_hashes (bump_session_risk now sid delta).
Proof. unfold bump_session_risk. preserve. intros. by apply same_tools_keep. Qed.

Lemma set_descriptor_hash_keeps id h : preserves keeps_hashes (set_descriptor_hash id h).
Proof.
  unfold set_descriptor_hash, require_changed, invalid, update_server. preserve. intros.
  by apply same_tools_keep.
Qed.
#[local] Hint Resolve bump_keeps set_descriptor_hash_keeps : vigil.

Lemma audit_keeps t1 t2 job score : preserves keeps_hashes (finish_injection_audit t1 t2 job score).
Proof. unfold finish_injection_audit. preserve. Qed.
#[local] Hint Resolve audit_keeps : vigil.

(** What an update may do to the row of a tool. *)
Lemma update_tool_keeps key p f :
  (∀ r, t_descriptor_hash (f r) = t_descriptor_hash r) →
  (∀ r, is_Some (t_approved_at r) → is_Some (t_approved_at (f r))) →
  preserves keeps_hashes (update_tool key p f).
Proof.
  intros Hh Ha l. unfold update_tool, update_where. run_m.
  destruct (tool_descriptors l !! key) as [r|] eqn:Hr; simpl; [|by apply same_tools_keep].
  destruct (p r); simpl; [|by apply same_tools_keep].
  split; intros id tool h (t & Ht & Hx); unfold tool_pinned, tool_hashed; simpl.
  - destruct (decide ((id, tool) = key)) as [<-|Hne].
    + rewrite lookup_insert_eq. rewrite Hr in Ht. injection Ht as ->. exists (f t).
      destruct Hx as [Hx <-]. by split_and!; [|apply Ha|apply Hh].
    + rewrite lookup_insert_ne by done. by exists t.
  - destruct (decide ((id, tool) = key)) as [<-|Hne].
    + rewrite lookup_insert_eq. rewrite Hr in Ht. injection Ht as ->. exists (f t).
      rewrite Hh. by split.
    + rewrite lookup_insert_ne by done. by exists t.
Qed.

Lemma approve_tool_keeps now now' id tool :
  preserves keeps_hashes (approve_tool_descriptor now now' id tool).
Proof.
  unfold approve_tool_descriptor, require_changed, invalid.
  apply preserves_bind; [apply _|by apply update_tool_keeps|]. intros n. preserve.
Qed.

(** Pinning what was just seen never moves an approved hash; unless it drifted,
    the row carries the hash that was seen. *)
Lemma pin_tool_keeps now id tool h l :
  let '(r, l') := pin_tool_descriptor now id tool h l in
  keeps_pins l l' ∧
  match r with
  | Ok (PinOutcome.FirstSeen | PinOutcome.Unchanged) => tool_hashed id tool h l'
  | _ => True
  end.
Proof.
  unfold pin_tool_descriptor, invalid. destruct (Str.is_empty h); [by split|].
  rewrite bind_gets. unfold update_tool, update_where. run_m.
  destruct (tool_descriptors l !! (id, tool)) as [r|] eqn:Hr; simpl.
  2:{ split.
      - intros id' tool' h' (t & Ht & Hx). unfold tool_pinned. simpl.
        rewrite lookup_insert_ne; [by exists t|]. intros [= -> ->]. congruence.
      - eexists. simpl. by rewrite lookup_insert_eq. }
  assert (∀ f, (is_Some (t_approved_at r) → is_Some (t_approved_at (f r))
                 ∧ t_descriptor_hash (f r) = t_descriptor_hash r) →
    keeps_pins l (set_tool_descriptors (<[(id, tool) := f r]> (tool_descriptors l)) l)) as Hk.
  { intros f Hf id' tool' h' (t & Ht & Ha & Hx). unfold tool_pinned. simpl.
    destruct (decide ((id', tool') = (id, tool))) as [[= -> ->]|Hne].
    - rewrite lookup_insert_eq. rewrite Hr in Ht. injection Ht as ->. destruct (Hf Ha) as [Hf1 Hf2].
      exists (f t). by rewrite Hf2.
    - rewrite lookup_insert_ne by done. by exists t. }
  destruct (String.eqb_spec (t_descriptor_hash r) h) as [Hh|Hh].
  - run_m. rewrite Hr. simpl. split.
    + apply (Hk (λ r, match t_pending_hash r with Some _ => _ | None => _ end)).
      intros Ha. by destruct (t_pending_hash r).
    + eexists. simpl. rewrite lookup_insert_eq. split; [done|]. by destruct (t_pending_hash r).
  - destruct (t_approved_at r) eqn:Happ; run_m; rewrite Hr; simpl.
    + split; [|done]. apply (Hk (λ r, _)). by rewrite Happ.
    + split; [|by eexists; simpl; rewrite lookup_insert_eq].
      apply (Hk (λ r, _)). by intros [? ?].
Qed.

(** *** The loops *)

(** The hub's ledger moves by [R]. *)
Definition ledger_step (R : LedgerState → LedgerState → Prop) (s s' : HubState) : Prop :=
  R (hs_ledger s) (hs_ledger s').

#[export] Instance ledger_step_preorder R : PreOrder R → PreOrder (ledger_step R).
Proof.
  intros HR. split; unfold ledger_step; [by intros s|].
  intros s t u Ha Hb. by etransitivity.
Qed.

Lemma lift_keeps {A} (m : LedgerM A) (R : LedgerState → LedgerState → Prop) :
  preserves R m → preserves (ledger_step R) (on_ledger m).
Proof.
  intros Hm s. unfold on_ledger, ledger_step. specialize (Hm (hs_ledger s)).
  by destruct (m (hs_ledger s)).
Qed.

Lemma read_keeps {A} (f : nat → A) : preserves (ledger_step keeps_hashes) (read f).
Proof. intros s. unfold read, ledger_step. reflexivity. Qed.

Lemma now_keeps : preserves (ledger_step keeps_hashes) (now env).
Proof. apply read_keeps. Qed.
#[local] Hint Resolve now_keeps lift_keeps approve_tool_keeps : vigil.

Lemma try_event_keeps sid et p text :
  preserves (ledger_step keeps_hashes) (try_event env sid et p text).
Proof. unfold try_event. preserve. Qed.

Lemma audit_injection_keeps job : preserves (ledger_step keeps_hashes) (audit_injection env job).
Proof. unfold audit_injection. preserve. Qed.
#[local] Hint Resolve try_event_keeps audit_injection_keeps : vigil.

Lemma audit_descriptor_keeps id tool d schema :
  preserves (ledger_step keeps_hashes) (audit_descriptor_meta_instructions env id tool d schema).
Proof. unfold audit_descriptor_meta_instructions, current_session_id. preserve. Qed.

(** A tool as it is shown: renamed, and its descriptor the approved one. *)
Definition exposed (l : LedgerState) (t' : Value) : Prop :=
  ∃ id tool t public h,
    json_str "name" t = Some tool ∧ make_public id tool = Ok public
    ∧ t' = set_name public t
    ∧ descriptor_hash id tool (default JNull (json_get "inputSchema" t))
        (json_str "description" t) (default JNull (json_get "annotations" t)) = Some h
    ∧ tool_pinned id tool h l.

Definition route_approved (l : LedgerState) (route : ToolRoute) : Prop :=
  tool_pinned (rt_server_id route) (rt_upstream_tool_name route) (rt_descriptor_hash route) l.

Definition listing_ok (rt : ToolRouter) (tools : list Value) (l : LedgerState) : Prop :=
  map_Forall (λ _, route_approved l) rt ∧ Forall (exposed l) tools.

Lemma listing_keeps rt tools l l' :
  keeps_pins l l' → listing_ok rt tools l → listing_ok rt tools l'.
Proof.
  intros Hk [Hr Ht]. split.
  - intros public route Hin. by apply Hk, (Hr public).
  - eapply Forall_impl; [exact Ht|].
    intros t' (id & tool & t & public & h & Hn & Hp & He & Hd & Hpin).
    exists id, tool, t, public, h. split_and!; try done. by apply Hk.
Qed.

Lemma register_route id tool h rt public rt' :
  register id tool h rt = (Ok public, rt') →
  make_public id tool = Ok public ∧ rt' = <[public := mkToolRoute public id tool h]> rt.
Proof.
  unfold register, bind, lift. destruct (make_public id tool) as [p|]; [|done]. simpl.
  destruct (match rt !! p with Some _ => _ | None => _ end); [done|].
  by intros [= <- <-].
Qed.

Lemma list_exposed_ok id tool t acc acc' s s' h :
  json_str "name" t = Some tool →
  descriptor_hash id tool (default JNull (json_get "inputSchema" t))
    (json_str "description" t) (default JNull (json_get "annotations" t)) = Some h →
  tool_hashed id tool h (hs_ledger s) →
  listing_ok (ls_router acc) (ls_tools acc) (hs_ledger s) →
  list_exposed id tool h t acc s = (Ok acc', s') →
  listing_ok (ls_router acc') (ls_tools acc') (hs_ledger s').
Proof.
  intros Hname Hd (r & Hr & Hh) [Hrt Ht]. unfold list_exposed.
  intros (pinned & s1 & (l & Hp & ->)%on_ledger_inv & E)%bind_inv.
  unfold get_pinned_tool_hash in Hp. injection Hp as Hp <-. rewrite Hr in Hp.
  assert (∀ x, t_approved_at r = Some x → tool_pinned id tool h (hs_ledger s)) as Hpin
    by (intros x Hx; exists r; by rewrite Hx).
  destruct (t_approved_at r) as [x|]; subst pinned; [|by injection E as <- <-].
  specialize (Hpin x eq_refl).
  destruct (register id tool h (ls_router acc)) as [[public|e] rt'] eqn:Er; [|done].
  apply register_route in Er as [Hpub ->]. injection E as <- <-. simpl. split.
  - apply map_Forall_insert_2; [exact Hpin|exact Hrt].
  - apply Forall_app. split; [exact Ht|]. constructor; [|done].
    by exists id, tool, t, public, h.
Qed.

Lemma list_tool_ok id acc t acc' s s' :
  listing_ok (ls_router acc) (ls_tools acc) (hs_ledger s) →
  list_tool env hub id acc t s = (Ok acc', s') →
  listing_ok (ls_router acc') (ls_tools acc') (hs_ledger s').
Proof.
  intros Hok. unfold list_tool. destruct (json_str "name" t) as [tool|] eqn:Hname;
    [|by intros [= <- <-]].
  intros (h & s1 & Hh & E)%bind_inv. unfold or_json, lift in Hh.
  destruct (descriptor_hash id tool _ _ _) as [h'|] eqn:Hd; [|done]. injection Hh as <- <-.
  apply bind_inv in E as (tm & s1 & ->%read_inv & E).
  apply bind_inv in E as (o & s1 & (l & Hpin & ->)%on_ledger_inv & E).
  match type of Hpin with pin_tool_descriptor _ _ _ _ ?x = _ =>
    pose proof (pin_tool_keeps tm id tool h' x) as Hk end.
  rewrite Hpin in Hk. destruct Hk as [Hk Hhash].
  assert (listing_ok (ls_router acc) (ls_tools acc) l) as Hok1.
  { eapply listing_keeps; [exact Hk|exact Hok]. }
  destruct o as [| |old new].
  - set (s1 := set_fw _ _) in E.
    apply bind_inv in E as (u & s2 & Ha & E). apply bind_inv in E as (u' & s3 & Hb & E).
    pose proof (audit_descriptor_keeps id tool (json_str "description" t)
      (default JNull (json_get "inputSchema" t)) s1) as [K1 K1'].
    rewrite Ha in K1, K1'. simpl in K1, K1'.
    assert (ledger_step keeps_hashes s2 s3) as [K2 K2'].
    { destruct (auto_approve_first_seen_tools (hub_config hub)); [|injection Hb as _ <-; reflexivity].
      assert (preserves (ledger_step keeps_hashes)
        (let! t1 := now env in let! t2 := now env in
         on_ledger (approve_tool_descriptor t1 t2 id tool))) as Hp by preserve.
      specialize (Hp s2). by rewrite Hb in Hp. }
    eapply list_exposed_ok; [done|exact Hd| | |exact E].
    + apply K2', K1'. exact Hhash.
    + eapply listing_keeps; [exact K2|]. eapply listing_keeps; [exact K1|exact Hok1].
  - eapply list_exposed_ok; [done|exact Hd| | |exact E]; [exact Hhash|exact Hok1].
  - apply bind_inv in E as (sid & s2 & Hs2 & E). injection Hs2 as _ <-.
    apply bind_inv in E as (u & s3 & Hev & E). injection E as <- <-.
    match type of Hev with try_event _ ?a ?b ?c ?d ?x = _ =>
      pose proof (try_event_keeps a b c d x) as [K _] end.
    rewrite Hev in K. eapply listing_keeps; [exact K|exact Hok1].
Qed.

Lemma list_tools_ok id tools acc acc' s s' :
  listing_ok (ls_router acc) (ls_tools acc) (hs_ledger s) →
  list_tools env hub id acc tools s = (Ok acc', s') →
  listing_ok (ls_router acc') (ls_tools acc') (hs_ledger s').
Proof.
  revert acc s. induction tools as [|t tools IH]; intros acc s Hok; simpl.
  - by intros [= <- <-].
  - intros (acc1 & s1 & E1 & E2)%bind_inv. eapply IH; [|exact E2]. by eapply list_tool_ok.
Qed.

Lemma list_server_ok ups acc id acc' s s' :
  listing_ok acc.1 acc.2 (hs_ledger s) → list_server env hub ups acc id s = (Ok acc', s') →
  listing_ok acc'.1 acc'.2 (hs_ledger s').
Proof.
  intros Hok. unfold list_server. destruct (ups !! id) as [up|]; [|by intros [= <- <-]].
  intros (answer & s1 & Ha & E)%bind_inv.
  assert (hs_ledger s1 = hs_ledger s) as Hl by (injection Ha as _ <-; done).
  rewrite <- Hl in Hok. clear Hl Ha.
  assert (∀ msg u x x', note_tools_list id msg x = (Ok u, x') → hs_ledger x' = hs_ledger x) as Hnote.
  { intros msg u x x' [= _ <-]. by destruct (String.eqb _ _). }
  destruct answer as [v|e].
  2:{ apply bind_inv in E as (u & s2 & Hn & E). injection E as <- <-.
      by rewrite (Hnote _ _ _ _ Hn). }
  destruct (json_array "tools" v) as [tools|]; [|by injection E as <- <-].
  apply bind_inv in E as (l & s2 & Hlist & E). apply list_tools_ok in Hlist; [|exact Hok].
  apply bind_inv in E as (u & s3 & Hn & E). apply Hnote in Hn.
  apply bind_inv in E as (u' & s4 & Hset & E). injection E as <- <-. simpl.
  set (h := hex_encode _) in Hset.
  assert (preserves (ledger_step keeps_hashes) (ignore (on_ledger (set_descriptor_hash id h)))) as Hp
    by preserve.
  specialize (Hp s3). rewrite Hset in Hp. destruct Hp as [Hp _]. simpl in Hp.
  eapply listing_keeps; [exact Hp|]. by rewrite Hn.
Qed.

Lemma list_servers_ok ups ids acc acc' s s' :
  listing_ok acc.1 acc.2 (hs_ledger s) → list_servers env hub ups acc ids s = (Ok acc', s') →
  listing_ok acc'.1 acc'.2 (hs_ledger s').
Proof.
  revert acc s. induction ids as [|id ids IH]; intros acc s Hok; simpl.
  - by intros [= <- <-].
  - intros (acc1 & s1 & E1 & E2)%bind_inv. eapply IH; [|exact E2]. by eapply list_server_ok.
Qed.

(** C21. Only approved descriptors are shown. When the hub answers [tools/list],
    every tool in the answer was sent by its upstream with a descriptor - name,
    schema, description, annotations - whose hash is, in the ledger the answer
    leaves behind, the approved pin of that very tool; only its name is changed, to
    the public one. And every route it then keeps leads to a tool pinned and
    approved with the route's own hash. *)
Theorem only_approved_tools_are_listed req s resp s' :
  handle_tools_list env hub req s = (Ok (Some resp), s') →
  map_Forall (λ _, route_approved (hs_ledger s')) (hs_router s') ∧
  ∃ tools, rs_result resp = Some (JObj [("tools", JArr tools)]) ∧
    Forall (exposed (hs_ledger s')) tools.
Proof.
  unfold handle_tools_list. intros (approved & s1 & _ & E)%bind_inv.
  apply bind_inv in E as (ups & s2 & _ & E). apply bind_inv in E as (r & s3 & Hl & E).
  apply list_servers_ok in Hl as [Hr Ht]; [|split; [apply map_Forall_empty|constructor]].
  apply bind_inv in E as (u & s4 & Hset & E). injection Hset as _ <-.
  injection E as <- <-. split; [exact Hr|]. exists r.2. by split.
Qed.
End Listing.

(** ** Witnesses *)

Section Toy.
Import Toy.

#[local] Existing Instance toy_rules.
#[local] Existing Instance DefaultScanner.

(** An upstream with one tool nobody has seen, approved at first sight, and one
    that changed since it was approved. *)
Definition listing_env : Env :=
  mkEnv (λ _, 10%Z) (λ n, "id" +:+ pretty n) (λ _, sample_readings) (λ _, [])
    (λ _, Ok (JObj [("tools", JArr [JObj [("name", JStr "ls")]; JObj [("name", JStr "read")]])])).

Definition listing_hub : Hub :=
  mkHub sample_firewall (mkHubConfig 300 10 30 true true false false) ∅.

Definition listing_request : JsonRpcRequest :=
  mkJsonRpcRequest "2.0" (Some (JNum 1)) "tools/list" None.

Lemma only_approved_tools_are_listed_witness :
  ∃ s', map_Forall (λ _, route_approved (hs_ledger s')) (hs_router s')
    ∧ is_Some (hs_router s' !! "srv__ls") ∧ hs_router s' !! "srv__read" = None.
Proof.
  assert (rt_upstream_tool_name <$>
    hs_router (handle_tools_list listing_env listing_hub listing_request sample_hub_state).2
      !! "srv__ls" = Some "ls") as Hls by (vm_compute; reflexivity).
  assert (hs_router (handle_tools_list listing_env listing_hub listing_request sample_hub_state).2
      !! "srv__read" = None) as Hread by (vm_compute; reflexivity).
  destruct (handle_tools_list listing_env listing_hub listing_request sample_hub_state)
    as [[[resp|]|e] s'] eqn:E; [|exfalso..].
  2, 3: apply (f_equal fst) in E; vm_compute in E; discriminate E.
  exists s'. destruct (only_approved_tools_are_listed _ _ _ _ _ _ E) as [Hr _].
  split_and!; [exact Hr| |exact Hread]. simpl in Hls.
  destruct (hs_router s' !! "srv__ls"); [by eexists|discriminate Hls].
Defined.
(** A server nobody has approved a command for yet. *)
Definition sample_resolve (program : string) : result string string :=
  Ok ("/usr/bin/" +:+ program).


Lemma attached_with_the_approved_command_witness :
  hs_upstreams (attach_upstream listing_env "new" ["tool"; "-x"] 8 sample_hub_state).2 !! "new"
    = Some 8
  ∧ command_approved "new" ["tool"; "-x"] (hs_ledger sample_hub_state).
Proof.
  pose proof (attached_with_the_approved_command listing_env "new" ["tool"; "-x"] 8
                sample_hub_state) as Ha.
  destruct (attach_upstream listing_env "new" ["tool"; "-x"] 8 sample_hub_state)
    as [[u|e] s'] eqn:E.
  2: { exfalso. apply (f_equal fst) in E. vm_compute in E. discriminate E. }
  destruct Ha as (_ & _ & Ha & Hu). split; [|exact Ha].
  change (hs_upstreams s' !! "new" = Some 8). rewrite Hu. apply lookup_insert_eq.
Defined.
End Toy.
