(* ===== verification/Guard.v ===== *)
(** * The command guard

    [src/apps/vigil-hub-cli/src/command_guard.rs]: what the hook makes of a shell
    command an agent wants to run, and of a file it wants to write. A command
    is cut into segments, each into words; wrappers ([sudo], [env] and the
    like) are stripped, and the scripts of nested shells and of [env -S] are
    classified in turn, four levels deep. Characters are bytes here: every
    separator is ASCII, and a longer character is kept as it is. *)

From S2P Require Import Prelude Types Text Deps.

(** ** Data *)

Module GuardTier.
Inductive GuardTier := Catastrophic | Dangerous.

#[global] Instance GuardTier_eq_dec : EqDecision GuardTier.
Proof. solve_decision. Defined.
End GuardTier.
Abbreviation GuardTier := GuardTier.GuardTier.

Module GuardCategory.
Inductive GuardCategory :=
| FilesystemWipe | DeviceOrDiskWrite | ForkBomb | RemoteExecInstall | Persistence
| OutsideProjectDeletion | SuspiciousExpansion.

#[global] Instance GuardCategory_eq_dec : EqDecision GuardCategory.
Proof. solve_decision. Defined.

Definition audit_tag (c : GuardCategory) : string :=
  match c with
  | FilesystemWipe => "filesystem_wipe"
  | DeviceOrDiskWrite => "device_or_disk_write"
  | ForkBomb => "fork_bomb"
  | RemoteExecInstall => "remote_exec_install"
  | Persistence => "persistence"
  | OutsideProjectDeletion => "outside_project_deletion"
  | SuspiciousExpansion => "suspicious_expansion"
  end.
End GuardCategory.
Abbreviation GuardCategory := GuardCategory.GuardCategory.

Record CommandRisk := mkCommandRisk {
  tier : GuardTier;
  category : GuardCategory;
  cr_detail : string;
}.

Definition tier_rank (t : GuardTier) : nat :=
  match t with
  | GuardTier.Dangerous => 1
  | GuardTier.Catastrophic => 2
  end.

(** [consider(r)]: a hit replaces the best one only if its tier is higher. *)
Definition consider (best : option CommandRisk) (r : CommandRisk) : option CommandRisk :=
  match best with
  | None => Some r
  | Some b => if (tier_rank (tier b) <? tier_rank (tier r))%nat then Some r else best
  end.

(** The hits in the order the code considers them. *)
Definition best_of (l : list CommandRisk) : option CommandRisk := foldl consider None l.

Definition hit_if (b : bool) (r : CommandRisk) : list CommandRisk := if b then [r] else [].

Definition one_of (l : list string) (s : string) : bool := existsb (String.eqb s) l.

(** ** Patterns *)

Definition DQ : string := String "034"%char EmptyString.

Definition FORK_BOMB : string :=
  "[A-Za-z_:][A-Za-z0-9_:]*\s*\(\s*\)\s*\{[^}]*\|[^}]*&[^}]*\}".
Definition REMOTE_PIPE_SHELL : string :=
  "(?i)\b(curl|wget|fetch)\b[^|]*\|\s*(sudo\s+)?(sh|bash|zsh|ksh|dash|python[0-9.]*|perl|ruby|node)\b".
Definition EVAL_DOWNLOAD : string :=
  "(?i)(eval\s+[" +:+ DQ +:+ "']?\$\((\s*(curl|wget))|(iex|invoke-expression)\b.*(downloadstring|invoke-webrequest|iwr|net\.webclient)|(downloadstring|iwr|invoke-webrequest)\b.*\|\s*(iex|invoke-expression))".
Definition PIPE_TO_SHELL : string :=
  "(?i)\|\s*(sudo\s+)?(sh|bash|zsh|ksh|dash|python[0-9.]*|perl|ruby|node)\b".
Definition WRITE_INDICATOR : string := "(>>|>|\btee\b|\bsed\b\s+-i|\bcp\b|\bmv\b|\binstall\b)".
Definition SENSITIVE_PERSIST_FILE : string :=
  "(?i)(\.bashrc|\.bash_profile|\.bash_login|\.zshrc|\.zprofile|\.zshenv|\.profile|/\.ssh/authorized_keys|/etc/cron|/var/spool/cron|/etc/systemd/system|/\.config/systemd/user|/library/launchagents|/library/launchdaemons|\.git/hooks/|start menu\\programs\\startup)".
Definition CRONTAB : string := "(?i)\bcrontab\b".
Definition PERSIST_VERB : string :=
  "(?i)(systemctl\s+(--user\s+)?enable\b|launchctl\s+(load|bootstrap)\b|schtasks\s+/create\b|\breg\b\s+add\b[^\n]*\\run)".
Definition HAS_DESTRUCTIVE_WORD : string :=
  "(?i)\b(rm|rmdir|shred|mkfs|dd|fdisk|format|del|erase)\b".
Definition BARE_VAR : string := "^\$\{?[A-Za-z_][A-Za-z0-9_]*\}?/".

(** ** Words and paths *)

Definition strip_quotes (s : string) : string := trim_matches is_quote s.
Definition is_slash (a : ascii) : bool := Ascii.eqb a "/".

Definition basename (p : string) : string :=
  let after c := match rfind c p with Some i => S i | None => 0%nat end in
  Str.drop (Nat.max (after "/"%char) (after "\"%char)) p.

(** The lower-case name of the binary a word stands for. *)
Definition bin_name (word : string) : string :=
  let b := to_ascii_lowercase (basename word) in default b (strip_suffix ".exe" b).

Definition RC_FILES : list string :=
  [".bashrc"; ".bash_profile"; ".bash_login"; ".zshrc"; ".zprofile"; ".zshenv"; ".profile"].

Definition SENSITIVE_PATHS : list string :=
  ["/.ssh/authorized_keys"; "/etc/cron"; "/var/spool/cron"; "/etc/systemd/system";
   "/.config/systemd/user"; "/library/launchagents"; "/library/launchdaemons"; "/.git/hooks/";
   "start menu/programs/startup"].

Definition is_persistence_write_target (path : string) : bool :=
  if Str.is_empty path then false
  else
    let norm := to_ascii_lowercase (str_replace "\" "/" path) in
    one_of RC_FILES (default norm (last (split_char "/" norm)))
    || existsb (λ s, str_contains s norm) SENSITIVE_PATHS.

Definition classify_file_write (file_path : string) : option CommandRisk :=
  if is_persistence_write_target (strip_quotes (trim file_path)) then
    Some (mkCommandRisk GuardTier.Dangerous GuardCategory.Persistence
      "writes to a shell startup file, SSH authorized_keys, a cron/systemd/launchd unit, or a git hook — a persistence foothold that runs code automatically")
  else None.

Definition SYSTEM : list string :=
  [""; "/etc"; "/usr"; "/var"; "/bin"; "/sbin"; "/lib"; "/lib64"; "/boot"; "/sys"; "/proc";
   "/dev"; "/opt"; "/root"; "/home"; "/System"; "/Library"; "/Applications"; "C:\Windows";
   "C:\Program Files"; "C:"; "C:\"].

Definition is_system_root_path (t : string) : bool :=
  let t := trim_end_matches is_slash t in
  Str.is_empty t || String.eqb t "/" || one_of SYSTEM t.

Definition is_catastrophic_rm_target (t : string) : bool :=
  let t := trim_end_matches is_slash t in
  Str.is_empty t
  || one_of ["~"; "$HOME"; "${HOME}"; "%USERPROFILE%"; "/*"; "~/*"; "$HOME/*"] t
  || is_system_root_path t || String.eqb t "/.".

Definition is_current_dir_wipe (t : string) : bool :=
  one_of ["."; "./"; "*"; "./*"; ".*"; "$PWD"; "${PWD}"; "$PWD/*"; "${PWD}/*"] t.

Definition path_under (path root : string) : bool :=
  let p := trim_end_matches is_slash path in
  String.eqb p root || Str.starts_with (root +:+ "/") p.

Definition is_windows_abs (t : string) : bool :=
  match t with
  | String a (String b (String c _)) =>
      is_ascii_alphabetic a && Ascii.eqb b ":" && (Ascii.eqb c "\" || Ascii.eqb c "/")
  | _ => false
  end.

Definition is_windows_drive_only (t : string) : bool :=
  match t with
  | String a (String b r) =>
      (String.length r <=? 1)%nat && is_ascii_alphabetic a && Ascii.eqb b ":"
  | _ => false
  end.

Definition is_outside_project (t : string) (project_root : option string) : bool :=
  let home_like := Str.starts_with "~/" t || Str.starts_with "$HOME" t
                   || Str.starts_with "${HOME}" t in
  let abs := Str.starts_with "/" t || is_windows_abs t in
  match project_root with
  | Some root =>
      let root := trim_end_matches is_slash root in
      if abs then negb (path_under t root)
      else if home_like then negb (Str.starts_with root t)
      else str_contains "../" t || String.eqb t ".."
  | None => home_like || (abs && negb (is_windows_drive_only t))
  end.

(** ** Segments *)

Definition keep_segment (cur : string) : list string := if is_blank cur then [] else [cur].

(** [cur] is the segment read so far. *)
Fixpoint segments_from (cur s : string) : list string :=
  match s with
  | EmptyString => keep_segment cur
  | String c s' =>
      if Ascii.eqb c "&" || Ascii.eqb c "|" then
        match s' with
        | String d s'' =>
            if Ascii.eqb d c then keep_segment cur ++ segments_from "" s''
            else keep_segment cur ++ segments_from "" s'
        | EmptyString => keep_segment cur
        end
      else if Ascii.eqb c ";" || byte_is 10 c then keep_segment cur ++ segments_from "" s'
      else segments_from (cur +:+ String c EmptyString) s'
  end.

Definition segments (command : string) : list string := segments_from "" command.

(** ** Wrappers *)

Definition CMD_WRAPPERS : list string :=
  ["sudo"; "doas"; "env"; "nohup"; "nice"; "ionice"; "time"; "command"; "setsid"; "stdbuf";
   "timeout"; "xargs"].

Definition SHELL_INTERP : list string := ["sh"; "bash"; "zsh"; "ksh"; "dash"; "ash"; "busybox"].
Definition EVAL_FLAGS : list string := ["-c"; "-lc"; "-ic"; "--command"].

(** The short options of a wrapper that take an argument, as the text of their
    letters. *)
Definition wrapper_arg_short_opts (w : string) : string :=
  if String.eqb w "sudo" then "CDghpRrtTUu"
  else if String.eqb w "doas" then "Cu"
  else if String.eqb w "env" then "uCS"
  else if String.eqb w "nice" then "n"
  else if String.eqb w "ionice" then "cnpt"
  else if String.eqb w "time" then "of"
  else if String.eqb w "timeout" then "sk"
  else if String.eqb w "stdbuf" then "ioe"
  else if String.eqb w "xargs" then "adEILnPs"
  else "".

Definition wrapper_arg_long_opts (w : string) : list string :=
  if String.eqb w "sudo" then
    ["chdir"; "close-from"; "group"; "host"; "prompt"; "role"; "type"; "other-user"; "user";
     "command-timeout"]
  else if String.eqb w "env" then
    ["unset"; "chdir"; "block-signal"; "default-signal"; "ignore-signal"]
  else if String.eqb w "nice" then ["adjustment"]
  else if String.eqb w "ionice" then ["class"; "classdata"; "pid"]
  else if String.eqb w "time" then ["output"; "format"]
  else if String.eqb w "timeout" then ["signal"; "kill-after"]
  else if String.eqb w "stdbuf" then ["input"; "output"; "error"]
  else if String.eqb w "xargs" then
    ["arg-file"; "delimiter"; "eof"; "replace"; "max-lines"; "max-args"; "max-procs"; "max-chars"]
  else [].

Definition char_in (c : ascii) (s : string) : bool := any (Ascii.eqb c) s.

(** The first letter of a cluster that takes an argument: is it the last one? *)
Fixpoint cluster_consumes_next (arg_chars cluster : string) : bool :=
  match cluster with
  | EmptyString => false
  | String c rest =>
      if char_in c arg_chars then Str.is_empty rest else cluster_consumes_next arg_chars rest
  end.

Definition option_consumes_next (w token : string) : bool :=
  match strip_prefix "--" token with
  | Some long =>
      negb (Str.is_empty long) && negb (str_contains "=" long)
      && one_of (wrapper_arg_long_opts w) long
  | None =>
      match strip_prefix "-" token with
      | Some cluster => cluster_consumes_next (wrapper_arg_short_opts w) cluster
      | None => false
      end
  end.

Definition is_duration_char (c : ascii) : bool :=
  Str.is_ascii_digit c || char_in c ".smhd".

(** An option, an assignment or a duration, which a wrapper has before its command. *)
Definition is_operand (a : string) : bool :=
  Str.starts_with "-" a
  || (str_contains "=" a && negb (Str.starts_with "/" a))
  || (any Str.is_ascii_digit a && Str.all is_duration_char a).

(** What is left after the operands of [w]. *)
Fixpoint skip_wrapper_operands (w : string) (argv : list string) : list string :=
  match argv with
  | [] => []
  | a :: rest =>
      if option_consumes_next w a then
        match rest with
        | [] => []
        | _ :: rest' => skip_wrapper_operands w rest'
        end
      else if is_operand a then skip_wrapper_operands w rest
      else argv
  end.

Definition is_ident_start (c : ascii) : bool := is_ascii_alphabetic c || Ascii.eqb c "_".
Definition is_ident_char (c : ascii) : bool := is_ascii_alphanumeric c || Ascii.eqb c "_".

Definition is_env_assignment (tok : string) : bool :=
  match split_once "=" tok with
  | Some (name, _) =>
      match name with
      | EmptyString => false
      | String c _ => is_ident_start c && Str.all is_ident_char name
      end
  | None => false
  end.

Fixpoint skip_assignments (argv : list string) : list string :=
  match argv with
  | a :: rest => if is_env_assignment a then skip_assignments rest else argv
  | [] => []
  end.

(** The outer loop; each turn that goes on consumes a word, so the number of
    words is fuel enough. *)
Fixpoint unwrap_loop (fuel : nat) (argv : list string) : list string :=
  match fuel with
  | O => argv
  | S n =>
      match skip_assignments argv with
      | [] => []
      | a :: rest =>
          if one_of CMD_WRAPPERS (bin_name a)
          then unwrap_loop n (skip_wrapper_operands (bin_name a) rest)
          else a :: rest
      end
  end.

Definition unwrap_argv (argv : list string) : list string := unwrap_loop (length argv) argv.

(** ** [env -S] *)

(** The words after [env], where [env] is the command of the segment. *)
Fixpoint env_command_loop (fuel : nat) (argv : list string) : option (list string) :=
  match fuel with
  | O => None
  | S n =>
      match skip_assignments argv with
      | [] => None
      | a :: rest =>
          if String.eqb (bin_name a) "env" then Some rest
          else if one_of CMD_WRAPPERS (bin_name a)
          then env_command_loop n (skip_wrapper_operands (bin_name a) rest)
          else None
      end
  end.

Definition env_command_position (argv : list string) : option (list string) :=
  env_command_loop (S (length argv)) argv.

(** What a token of [env] says: its payload, the end of the search, or nothing. *)
Inductive EnvToken :=
| Payload (p : option string)
| Stop
| Next.

(** A cluster of short options; [next] is the word after it. *)
Fixpoint env_cluster (next : option string) (cluster : string) : EnvToken :=
  match cluster with
  | EmptyString => Next
  | String c rest =>
      if Ascii.eqb c "S" then Payload (if Str.is_empty rest then next else Some rest)
      else if Ascii.eqb c "0" then Stop
      else if Ascii.eqb c "i" || Ascii.eqb c "v" then env_cluster next rest
      else Next
  end.

Definition env_token (next : option string) (a : string) : EnvToken :=
  if String.eqb a "--" then Stop
  else match strip_prefix "--" a with
       | Some long =>
           let '(name, glued) := match split_once "=" long with
                                 | Some (n, v) => (n, Some v)
                                 | None => (long, None)
                                 end in
           if negb (Str.is_empty name) && Str.starts_with name "null" then Stop
           else if negb (Str.is_empty name) && Str.starts_with name "split-string" then
             Payload (match glued with Some v => Some v | None => next end)
           else Next
       | None =>
           match strip_prefix "-" a with
           | Some cluster => env_cluster next cluster
           | None => Next
           end
       end.

Fixpoint env_tokens (argv : list string) : option string :=
  match argv with
  | [] => None
  | a :: rest =>
      match env_token (head rest) a with
      | Payload p => p
      | Stop => None
      | Next => env_tokens rest
      end
  end.

Definition env_split_string_payload (argv : list string) : option string :=
  match env_command_position argv with
  | Some rest => env_tokens rest
  | None => None
  end.

Definition is_env_space (c : ascii) : bool := byte_is 32 c || Str.between 9 13 c.

Definition take_token (cur : option string) : list string :=
  match cur with
  | Some t => [t]
  | None => []
  end.

(** [cur.push(c); has_tok = true] *)
Definition push_char (cur : option string) (c : ascii) : option string :=
  Some (default "" cur +:+ String c EmptyString).

(** The character an escape puts into the current word. *)
Definition env_escape (c : ascii) : ascii :=
  if Ascii.eqb c "t" then "009"%char
  else if Ascii.eqb c "n" then "010"%char
  else if Ascii.eqb c "r" then "013"%char
  else if Ascii.eqb c "f" then "012"%char
  else if Ascii.eqb c "v" then "011"%char
  else c.

(** [cur] is the word being read ([None]: [!has_tok]), [quote] the open quote. *)
Fixpoint env_s_split_from (cur : option string) (quote : option ascii) (s : string)
    : list string :=
  match s with
  | EmptyString => take_token cur
  | String c s' =>
      match quote with
      | Some q =>
          if Ascii.eqb c q then env_s_split_from cur None s'
          else if Ascii.eqb c "\" && byte_is 34 q then
            match s' with
            | String n s'' => env_s_split_from (push_char cur n) quote s''
            | EmptyString => take_token cur
            end
          else env_s_split_from (push_char cur c) quote s'
      | None =>
          if is_env_space c then take_token cur ++ env_s_split_from None None s'
          else if is_quote c then env_s_split_from (Some (default "" cur)) (Some c) s'
          else if Ascii.eqb c "\" then
            match s' with
            | EmptyString => take_token cur
            | String n s'' =>
                if Ascii.eqb n "_" then take_token cur ++ env_s_split_from None None s''
                else if Ascii.eqb n "c" then take_token cur
                else env_s_split_from (push_char cur (env_escape n)) None s''
            end
          else env_s_split_from (push_char cur c) None s'
      end
  end.

Definition env_s_split (payload : string) : list string := env_s_split_from None None payload.

Definition is_bare_char (c : ascii) : bool := is_ascii_alphanumeric c || char_in c "-_./=:+@%,".

Definition env_s_quote (t : string) : string :=
  if negb (Str.is_empty t) && Str.all is_bare_char t then t
  else "'" +:+ (str_replace "'" "'\''" t +:+ "'").

Definition env_s_join (tokens : list string) : string := Str.join " " (env_s_quote <$> tokens).

(** ** [rm] *)

Definition is_recursive_flag (a : string) : bool :=
  one_of ["-r"; "-R"; "--recursive"] a
  || (Str.starts_with "-" a && negb (Str.starts_with "--" a)
      && (str_contains "r" a || str_contains "R" a)).

Definition WIPE_ROOT : CommandRisk :=
  mkCommandRisk GuardTier.Catastrophic GuardCategory.FilesystemWipe
    "rm --no-preserve-root — explicitly permits deleting the filesystem root".
Definition WIPE_TARGET : CommandRisk :=
  mkCommandRisk GuardTier.Catastrophic GuardCategory.FilesystemWipe
    "recursive rm targeting the filesystem root, a system directory, or the whole home directory".
Definition BARE_EXPANSION : CommandRisk :=
  mkCommandRisk GuardTier.Dangerous GuardCategory.SuspiciousExpansion
    "recursive rm on an unquoted `$VAR/…` path — expands to the filesystem root if the variable is empty".
Definition CURRENT_DIR_WIPE : CommandRisk :=
  mkCommandRisk GuardTier.Dangerous GuardCategory.OutsideProjectDeletion
    "recursive rm of the entire current directory (`.`/`*`) — wipes everything here, e.g. the whole project".
Definition OUTSIDE_PROJECT : CommandRisk :=
  mkCommandRisk GuardTier.Dangerous GuardCategory.OutsideProjectDeletion
    "recursive rm targeting a path outside the project directory (home/system/absolute)".

Section Classify.
Context `{TextCrates}.

Definition is_bare_var_expansion (t : string) : bool := regex_is_match BARE_VAR t.

Definition rm_target_risk (project_root : option string) (t : string) : list CommandRisk :=
  if is_catastrophic_rm_target t then [WIPE_TARGET]
  else if is_bare_var_expansion t then [BARE_EXPANSION]
  else if is_current_dir_wipe t then [CURRENT_DIR_WIPE]
  else hit_if (is_outside_project t project_root) OUTSIDE_PROJECT.

Definition rm_targets (argv : list string) : list string :=
  strip_quotes <$> List.filter (λ a, negb (Str.starts_with "-" a)) (tail argv).

Definition classify_rm (argv : list string) (project_root : option string) : option CommandRisk :=
  if existsb is_recursive_flag (tail argv) then
    best_of (hit_if (existsb (String.eqb "--no-preserve-root") argv) WIPE_ROOT
             ++ flat_map (rm_target_risk project_root) (rm_targets argv))
  else None.

Definition opt_list (o : option CommandRisk) : list CommandRisk :=
  match o with
  | Some r => [r]
  | None => []
  end.

(** ** The other binaries *)

Definition dd_to_device (argv : list string) : bool :=
  existsb (λ a, match strip_prefix "of=" a with
                | Some t => Str.starts_with "/dev/" t
                | None => false
                end) argv.

Definition chmod_system (argv : list string) : bool :=
  existsb (λ a, one_of ["-R"; "--recursive"] a || Str.starts_with "-R" a) (tail argv)
  && existsb (λ a, is_system_root_path (strip_quotes a)) (tail argv).

Definition find_deletes_root (argv : list string) : bool :=
  match argv with
  | _ :: a :: _ =>
      let t := strip_quotes a in
      String.eqb t "/" || is_system_root_path t || one_of ["~"; "$HOME"] t
  | _ => false
  end
  && (existsb (one_of ["-delete"; "-exec"]) argv && existsb (one_of ["-delete"; "rm"]) argv).

(** The match on the binary; the arms with a guard fall through when it fails. *)
Definition argv_risks (bin : string) (argv : list string) (project_root : option string)
    : list CommandRisk :=
  if String.eqb bin "rm" then opt_list (classify_rm argv project_root)
  else if String.eqb bin "dd" && dd_to_device argv then
    [mkCommandRisk GuardTier.Catastrophic GuardCategory.DeviceOrDiskWrite
       "dd writes directly to a block device (of=/dev/…) — overwrites a disk/partition"]
  else if Str.starts_with "mkfs" bin then
    [mkCommandRisk GuardTier.Catastrophic GuardCategory.DeviceOrDiskWrite
       "mkfs formats a filesystem — destroys all data on the target device"]
  else if String.eqb bin "shred" && existsb (Str.starts_with "/dev/") (tail argv) then
    [mkCommandRisk GuardTier.Catastrophic GuardCategory.DeviceOrDiskWrite
       "shred targets a block device (/dev/…) — irrecoverably wipes a disk"]
  else if one_of ["chmod"; "chown"] bin then
    hit_if (chmod_system argv)
      (mkCommandRisk GuardTier.Catastrophic GuardCategory.FilesystemWipe
         "recursive chmod/chown over a system root — corrupts OS-wide permissions/ownership")
  else if String.eqb bin "find" then
    hit_if (find_deletes_root argv)
      (mkCommandRisk GuardTier.Catastrophic GuardCategory.FilesystemWipe
         "find rooted at / (or a system dir) with -delete/-exec rm — mass deletion")
  else [].

(** ** The whole command *)

Definition classify_persistence (command : string) : option CommandRisk :=
  let has_write := regex_is_match WRITE_INDICATOR command in
  if has_write && regex_is_match SENSITIVE_PERSIST_FILE command then
    Some (mkCommandRisk GuardTier.Dangerous GuardCategory.Persistence
      "writes to a shell startup file, SSH authorized_keys, or a service/autostart unit — a common persistence foothold")
  else
    let crontab_install :=
      regex_is_match CRONTAB command && negb (str_contains "crontab -l" command) in
    if crontab_install || regex_is_match PERSIST_VERB command then
      Some (mkCommandRisk GuardTier.Dangerous GuardCategory.Persistence
        "installs a scheduled task / service / autostart entry (cron, systemd, launchd, schtasks, or a registry Run key)")
    else None.

Definition text_risks (command : string) : list CommandRisk :=
  hit_if (regex_is_match FORK_BOMB command)
    (mkCommandRisk GuardTier.Catastrophic GuardCategory.ForkBomb
       "fork bomb pattern (recursively self-spawning function) — exhausts the process table")
  ++ (if regex_is_match REMOTE_PIPE_SHELL command || regex_is_match EVAL_DOWNLOAD command then
        [mkCommandRisk GuardTier.Catastrophic GuardCategory.RemoteExecInstall
           "downloads remote content and pipes it straight into a shell/interpreter — arbitrary remote code execution"]
      else hit_if (regex_is_match PIPE_TO_SHELL command)
        (mkCommandRisk GuardTier.Dangerous GuardCategory.RemoteExecInstall
           "pipes command output directly into a shell/interpreter — a common obfuscated code-execution vector"))
  ++ opt_list (classify_persistence command).

(** The word after the first evaluation flag. *)
Fixpoint eval_flag_script (argv : list string) : option string :=
  match argv with
  | [] => None
  | a :: rest => if one_of EVAL_FLAGS a then head rest else eval_flag_script rest
  end.

Definition UNPARSED : CommandRisk :=
  mkCommandRisk GuardTier.Dangerous GuardCategory.FilesystemWipe
    "a destructive command that could not be parsed safely (blocked conservatively)".

(** The payload of [env -S] as a command line, if its program can be run. *)
Definition env_payload_command (raw_argv : list string) : option string :=
  match env_split_string_payload raw_argv with
  | Some payload =>
      let tokens := env_s_split payload in
      match tokens with
      | p :: _ => if has_whitespace p then None else Some (env_s_join tokens)
      | [] => None
      end
  | None => None
  end.

(** One segment; [nested] classifies the scripts within it, and is [None] on the
    deepest level. *)
Definition segment_risks (nested : option (string → option CommandRisk))
    (project_root : option string) (seg : string) : list CommandRisk :=
  match shlex_split seg with
  | Some (x :: xs) =>
      let raw_argv := x :: xs in
      let deeper (script : option string) :=
        match nested, script with
        | Some f, Some s => opt_list (f s)
        | _, _ => []
        end in
      deeper (env_payload_command raw_argv)
      ++ match unwrap_argv raw_argv with
         | [] => []
         | a :: rest =>
             let bin := bin_name a in
             (if one_of SHELL_INTERP bin then deeper (eval_flag_script rest) else [])
             ++ argv_risks bin (a :: rest) project_root
         end
  | _ => hit_if (regex_is_match HAS_DESTRUCTIVE_WORD seg) UNPARSED
  end.

Definition command_risks (nested : option (string → option CommandRisk))
    (project_root : option string) (command : string) : list CommandRisk :=
  text_risks command ++ flat_map (segment_risks nested project_root) (segments command).

(** [levels] is what is left of [MAX_NEST_DEPTH]. *)
Fixpoint classify_depth (levels : nat) (project_root : option string) (command : string)
    : option CommandRisk :=
  best_of (command_risks (match levels with
                          | O => None
                          | S n => Some (classify_depth n project_root)
                          end) project_root command).

Definition MAX_NEST_DEPTH : nat := 4.

Definition classify (command : string) (project_root : option string) : option CommandRisk :=
  classify_depth MAX_NEST_DEPTH project_root command.
End Classify.
