(* ===== verification/GuardProps.v ===== *)
(** * What the command guard guarantees

    The verdict is the worst of what is found; wrappers hide nothing; nested
    shells hide nothing down to the fourth level; and [env -S] payloads keep
    their words on the way to the next level. *)

From stdpp Require Import list.
From S2P Require Import Prelude Types Text Deps Guard.

(** ** The best hit *)

Definition catastrophic (r : CommandRisk) : Prop := tier r = GuardTier.Catastrophic.

Lemma foldl_consider l b :
  match foldl consider b l with
  | Some r => (b = Some r ∨ r ∈ l) ∧
      ∀ x, (b = Some x ∨ x ∈ l) → (tier_rank (tier x) ≤ tier_rank (tier r))%nat
  | None => b = None ∧ l = []
  end.
Proof.
  revert b. induction l as [|y l IH]; intros b; simpl.
  { destruct b as [r|]; [|done]. split; [by left|].
    intros x [[= ->]|Hx]; [done|by apply not_elem_of_nil in Hx]. }
  specialize (IH (consider b y)). destruct (foldl consider (consider b y) l) as [r|].
  2:{ destruct IH as [Hc _]. unfold consider in Hc. destruct b as [b|]; [|done].
      by destruct (_ <? _)%nat. }
  destruct IH as [Hr Hmax]. unfold consider in *. destruct b as [b|].
  - destruct (Nat.ltb_spec (tier_rank (tier b)) (tier_rank (tier y))) as [Hlt|Hle].
    + split.
      { destruct Hr as [[= ->]|Hr]; right; [by left|by right]. }
      pose proof (Hmax y (or_introl eq_refl)) as Hy.
      intros x [[= ->]|[->|Hx]%elem_of_cons]; [lia|done|]. by apply Hmax; right.
    + split.
      { destruct Hr as [Hr|Hr]; [by left|right; by right]. }
      pose proof (Hmax b (or_introl eq_refl)) as Hb.
      intros x [[= ->]|[->|Hx]%elem_of_cons]; [done|lia|]. by apply Hmax; right.
  - split.
    { right. destruct Hr as [[= ->]|Hr]; [by left|by right]. }
    intros x [?|[->|Hx]%elem_of_cons]; [done|by apply Hmax; left|by apply Hmax; right].
Qed.

Lemma best_of_none l : best_of l = None ↔ l = [].
Proof.
  unfold best_of. pose proof (foldl_consider l None) as Hb. split; [|by intros ->].
  intros E. rewrite E in Hb. apply Hb.
Qed.

Lemma best_of_in l r : best_of l = Some r → r ∈ l.
Proof.
  unfold best_of. intros E. pose proof (foldl_consider l None) as Hb. rewrite E in Hb.
  by destruct Hb as [[?|?] _].
Qed.

Lemma best_of_catastrophic l x :
  x ∈ l → catastrophic x → ∃ r, best_of l = Some r ∧ catastrophic r.
Proof.
  intros Hx Hc. unfold best_of. pose proof (foldl_consider l None) as Hb.
  destruct (foldl consider None l) as [r|].
  - exists r. split; [done|]. destruct Hb as [_ Hmax].
    specialize (Hmax x (or_intror Hx)). unfold catastrophic in *. rewrite Hc in Hmax.
    destruct (tier r); [done|]. simpl in Hmax. lia.
  - destruct Hb as [_ ->]. by apply not_elem_of_nil in Hx.
Qed.

Lemma elem_of_hit_if b r x : x ∈ hit_if b r ↔ b = true ∧ x = r.
Proof. unfold hit_if. destruct b; [rewrite list_elem_of_singleton|rewrite elem_of_nil]; naive_solver. Qed.

Lemma elem_of_opt_list o x : x ∈ opt_list o ↔ o = Some x.
Proof. destruct o; simpl; [rewrite list_elem_of_singleton|rewrite elem_of_nil]; naive_solver. Qed.

Lemma elem_of_flat_map {A B} (f : A → list B) l y : y ∈ flat_map f l ↔ ∃ x, x ∈ l ∧ y ∈ f x.
Proof.
  rewrite list_elem_of_In, in_flat_map. by setoid_rewrite list_elem_of_In.
Qed.

(** ** [rm] *)

Section Rm.
Context `{TextCrates}.

(** A target no rule objects to. *)
Definition harmless (project_root : option string) (t : string) : Prop :=
  is_catastrophic_rm_target t = false ∧ is_bare_var_expansion t = false
  ∧ is_current_dir_wipe t = false ∧ is_outside_project t project_root = false.

Lemma rm_target_risk_nil project_root t : rm_target_risk project_root t = [] ↔ harmless project_root t.
Proof.
  unfold rm_target_risk, harmless, hit_if.
  destruct (is_catastrophic_rm_target t), (is_bare_var_expansion t), (is_current_dir_wipe t),
    (is_outside_project t project_root); naive_solver.
Qed.

Lemma rm_target_risk_worst project_root t r :
  r ∈ rm_target_risk project_root t → catastrophic r ↔ is_catastrophic_rm_target t = true.
Proof.
  unfold rm_target_risk. destruct (is_catastrophic_rm_target t).
  { by intros ->%list_elem_of_singleton. }
  destruct (is_bare_var_expansion t); [by intros ->%list_elem_of_singleton|].
  destruct (is_current_dir_wipe t); [by intros ->%list_elem_of_singleton|].
  by intros [_ ->]%elem_of_hit_if.
Qed.

(** The verdict on [rm]. A deletion is objected to only if it is recursive. It
    is catastrophic exactly when it says [--no-preserve-root] or one of its
    targets is the root, a system directory or the whole home; otherwise it is
    dangerous exactly when some target begins with a variable, is the whole
    current directory, or lies outside the project. *)
Theorem rm_verdict argv project_root :
  let recursive := existsb is_recursive_flag (tail argv) = true in
  let wipes := "--no-preserve-root" ∈ argv
               ∨ Exists (λ t, is_catastrophic_rm_target t = true) (rm_targets argv) in
  match classify_rm argv project_root with
  | None => ¬ recursive ∨ (¬ wipes ∧ Forall (harmless project_root) (rm_targets argv))
  | Some r => recursive ∧ (catastrophic r ↔ wipes)
      ∧ (¬ wipes → ¬ Forall (harmless project_root) (rm_targets argv))
  end.
Proof.
  cbv zeta. unfold classify_rm. destruct (existsb is_recursive_flag (tail argv)); [|by left].
  set (l := hit_if _ _ ++ _).
  assert (∀ r, r ∈ l → catastrophic r → "--no-preserve-root" ∈ argv
               ∨ Exists (λ t, is_catastrophic_rm_target t = true) (rm_targets argv)) as Hback.
  { intros r [[Hn _]%elem_of_hit_if|(t & Ht & Hr)%elem_of_flat_map]%elem_of_app Hc.
    - left. apply existsb_exists in Hn as (x & Hx & <-%String.eqb_eq). by apply list_elem_of_In.
    - right. apply Exists_exists. exists t. split; [done|]. by apply (rm_target_risk_worst _ _ _ Hr). }
  assert ("--no-preserve-root" ∈ argv ∨ Exists (λ t, is_catastrophic_rm_target t = true) (rm_targets argv)
          → ∃ r, best_of l = Some r ∧ catastrophic r) as Hforth.
  { intros [Hn|(t & Ht & Hc)%Exists_exists].
    - apply (best_of_catastrophic l WIPE_ROOT); [|done]. apply elem_of_app. left.
      apply elem_of_hit_if. split; [|done]. apply existsb_exists. eexists.
      split; [by apply list_elem_of_In|apply String.eqb_refl].
    - apply (best_of_catastrophic l WIPE_TARGET); [|done]. apply elem_of_app. right.
      apply elem_of_flat_map. exists t. split; [done|]. unfold rm_target_risk. rewrite Hc. by left. }
  destruct (best_of l) as [r|] eqn:E.
  - split; [done|]. pose proof (best_of_in _ _ E) as Hr. split.
    + split; [by apply Hback|]. intros (r' & [= <-] & Hc)%Hforth. done.
    + intros Hw Hall. apply elem_of_app in Hr as [[Hn ->]%elem_of_hit_if|(t & Ht & Hr)%elem_of_flat_map].
      * apply Hw. left. apply existsb_exists in Hn as (x & Hx & <-%String.eqb_eq).
        by apply list_elem_of_In.
      * rewrite Forall_forall in Hall. specialize (Hall t Ht). apply rm_target_risk_nil in Hall.
        rewrite Hall in Hr. by apply not_elem_of_nil in Hr.
  - right. split; [by intros (r' & ? & _)%Hforth|]. apply best_of_none in E.
    apply app_eq_nil in E as [_ E]. apply Forall_forall. intros t Ht. apply rm_target_risk_nil.
    destruct (rm_target_risk project_root t) as [|y ys] eqn:Et; [done|].
    assert (y ∈ flat_map (rm_target_risk project_root) (rm_targets argv)) as Hy.
    { apply elem_of_flat_map. exists t. rewrite Et. split; [done|by left]. }
    rewrite E in Hy. by apply not_elem_of_nil in Hy.
Qed.
End Rm.

(** ** Wrappers *)

(** Operands of the wrapper [w], each complete. *)
Inductive operands (w : string) : list string → Prop :=
| operands_nil : operands w []
| operands_option a x ops :
    option_consumes_next w a = true → operands w ops → operands w (a :: x :: ops)
| operands_word a ops :
    option_consumes_next w a = false → is_operand a = true → operands w ops →
    operands w (a :: ops).

(** What may stand before a command without changing which command is run. *)
Inductive wrapping : list string → Prop :=
| wrapping_nil : wrapping []
| wrapping_assignment a p : is_env_assignment a = true → wrapping p → wrapping (a :: p)
| wrapping_wrapper w ops p :
    one_of CMD_WRAPPERS (bin_name w) = true → is_operand w = false →
    operands (bin_name w) ops → wrapping p → wrapping (w :: ops ++ p).

(** A word that is itself the command. *)
Definition plain_command (cmd : string) : Prop :=
  is_operand cmd = false ∧ one_of CMD_WRAPPERS (bin_name cmd) = false.

Lemma consumes_operand w a : option_consumes_next w a = true → is_operand a = true.
Proof.
  unfold option_consumes_next, is_operand, strip_prefix.
  destruct (Str.starts_with "-" a) eqn:E; [done|].
  destruct (Str.starts_with "--" a) eqn:E2; [|done].
  apply Str.starts_with_spec in E2 as [t ->]. discriminate E.
Qed.

Lemma split_once_find c s name v : split_once c s = Some (name, v) → str_contains (String c EmptyString) s = true.
Proof.
  unfold split_once, str_contains. destruct (Str.find _ s); [done|discriminate].
Qed.

Lemma assignment_operand a :
  is_env_assignment a = true → is_operand a = true ∧ ∀ w, option_consumes_next w a = false.
Proof.
  unfold is_env_assignment. destruct (split_once "=" a) as [[name v]|] eqn:E; [|done].
  pose proof (split_once_find _ _ _ _ E) as Hc.
  destruct name as [|c name]; [done|]. intros [Hc1 _]%andb_true_iff.
  assert (∃ rest, a = String c rest) as [rest ->].
  { unfold split_once in E. destruct (Str.find _ a) as [i|]; [|done]. injection E as E _.
    destruct i, a as [|b a]; try done. simpl in E. injection E as -> _. by eexists. }
  assert (Str.starts_with "/" (String c rest) = false ∧ Str.starts_with "-" (String c rest) = false)
    as [Hs Hd].
  { cbn [Str.starts_with]. rewrite !andb_true_r. split; apply not_true_iff_false;
      intros <-%Ascii.eqb_eq; discriminate Hc1. }
  split.
  - unfold is_operand. rewrite Hc, Hs. by rewrite orb_true_r.
  - intros w. destruct (option_consumes_next w (String c rest)) eqn:Ew; [|done].
    unfold option_consumes_next, strip_prefix in Ew. rewrite Hd in Ew.
    destruct (Str.starts_with "--" (String c rest)) eqn:E2; [|done].
    apply Str.starts_with_spec in E2 as [t Et]. rewrite Et in Hd. discriminate Hd.
Qed.

Lemma skip_plain w cmd args :
  is_operand cmd = false → skip_wrapper_operands w (cmd :: args) = cmd :: args.
Proof.
  intros Ho. cbn [skip_wrapper_operands].
  destruct (option_consumes_next w cmd) eqn:E; [by rewrite (consumes_operand w cmd E) in Ho|].
  by rewrite Ho.
Qed.

Lemma skip_operands w ops l :
  operands w ops → skip_wrapper_operands w (ops ++ l) = skip_wrapper_operands w l.
Proof.
  induction 1 as [|a x ops Ha _ IH|a ops Ha Ho _ IH]; [done|..]; cbn [app skip_wrapper_operands].
  - by rewrite Ha.
  - by rewrite Ha, Ho.
Qed.

(** What a wrapper leaves of a wrapping is a wrapping. *)
Lemma skip_wrapping w p cmd args :
  wrapping p → is_operand cmd = false →
  ∃ q, wrapping q ∧ skip_wrapper_operands w (p ++ cmd :: args) = q ++ cmd :: args
       ∧ (length q ≤ length p)%nat.
Proof.
  intros Hp Ho. induction Hp as [|a p Ha Hp IH|w' ops p Hw Hwo Hops Hp _].
  - exists []. split; [constructor|]. split; [by apply skip_plain|done].
  - destruct (assignment_operand a Ha) as [Hao Hn]. destruct IH as (q & Hq & E & Hl).
    exists q. split; [done|]. cbn [app skip_wrapper_operands]. rewrite Hn, Hao.
    split; [done|]. simpl. lia.
  - exists (w' :: ops ++ p). split; [by constructor|]. split; [|done]. by apply skip_plain.
Qed.

Lemma skip_assignments_plain cmd args :
  is_operand cmd = false → skip_assignments (cmd :: args) = cmd :: args.
Proof.
  intros Ho. cbn [skip_assignments]. destruct (is_env_assignment cmd) eqn:E; [|done].
  apply assignment_operand in E as [E _]. by rewrite E in Ho.
Qed.

Lemma unwrap_loop_wrapping fuel p cmd args :
  wrapping p → plain_command cmd → (length (p ++ cmd :: args) ≤ fuel)%nat →
  unwrap_loop fuel (p ++ cmd :: args) = cmd :: args.
Proof.
  intros Hp [Ho Hc]. revert p Hp. induction fuel as [|n IH]; intros p Hp Hl.
  { rewrite length_app in Hl. simpl in Hl. lia. }
  cbn [unwrap_loop].
  assert (∃ q, wrapping q ∧ skip_assignments (p ++ cmd :: args) = q ++ cmd :: args
    ∧ (length q ≤ length p)%nat ∧ match q with [] => True | w :: _ => is_env_assignment w = false end)
    as (q & Hq & -> & Hql & Hqh).
  { clear Hl IH. induction Hp as [|a p Ha Hp IHp|w ops p Hw Hwo Hops Hp _].
    - exists []. split_and!; try done; [constructor|]. by apply skip_assignments_plain.
    - destruct IHp as (q & Hq & E & Hl & Hh). exists q. cbn [app skip_assignments]. rewrite Ha.
      split_and!; try done. simpl. lia.
    - exists (w :: ops ++ p). split_and!; [by constructor|by apply skip_assignments_plain|done|].
      destruct (is_env_assignment w) eqn:E; [|done].
      apply assignment_operand in E as [E _]. by rewrite E in Hwo. }
  destruct Hq as [|a q Ha Hq|w ops q Hw Hwo Hops Hq]; cbn [app].
  - by rewrite Hc.
  - by rewrite Ha in Hqh.
  - rewrite Hw, <- app_assoc, (skip_operands _ _ _ Hops).
    destruct (skip_wrapping (bin_name w) q cmd args Hq Ho) as (q' & Hq' & -> & Hl').
    apply IH; [done|]. revert Hl Hql. simpl. rewrite !length_app. simpl. lia.
Qed.

Lemma unwrap_wrapping p cmd args :
  wrapping p → plain_command cmd → unwrap_argv (p ++ cmd :: args) = cmd :: args.
Proof. intros Hp Hc. by apply unwrap_loop_wrapping. Qed.

Lemma skip_operands_suffix w l : ∃ p, l = p ++ skip_wrapper_operands w l.
Proof.
  induction l as [l IH] using (induction_ltof1 _ (@length string)). unfold ltof in IH.
  destruct l as [|a rest]; [by exists []|]. cbn [skip_wrapper_operands].
  destruct (option_consumes_next w a).
  - destruct rest as [|x rest]; [by exists [a]|].
    destruct (IH rest) as [p Hp]; [simpl; lia|]. exists (a :: x :: p). simpl. by rewrite <- Hp.
  - destruct (is_operand a); [|by exists []].
    destruct (IH rest) as [p Hp]; [simpl; lia|]. exists (a :: p). simpl. by rewrite <- Hp.
Qed.

Lemma skip_assignments_suffix l : ∃ p, l = p ++ skip_assignments l.
Proof.
  induction l as [|a l [p IH]]; [by exists []|]. cbn [skip_assignments].
  destruct (is_env_assignment a); [exists (a :: p); simpl; by rewrite <- IH|by exists []].
Qed.

Lemma skip_assignments_head l a rest : skip_assignments l = a :: rest → is_env_assignment a = false.
Proof.
  induction l as [|b l IH]; [done|]. cbn [skip_assignments].
  destruct (is_env_assignment b) eqn:E; [done|]. by intros [= <- _].
Qed.

Lemma unwrap_loop_result fuel l :
  (length l ≤ fuel)%nat →
  (∃ p, l = p ++ unwrap_loop fuel l) ∧
  match unwrap_loop fuel l with
  | [] => True
  | a :: _ => is_env_assignment a = false ∧ one_of CMD_WRAPPERS (bin_name a) = false
  end.
Proof.
  revert l. induction fuel as [|n IH]; intros l Hl.
  { destruct l; [by split; [exists []|]|simpl in Hl; lia]. }
  cbn [unwrap_loop]. destruct (skip_assignments_suffix l) as [p Hp].
  destruct (skip_assignments l) as [|a rest] eqn:E.
  { split; [|done]. exists l. by rewrite app_nil_r. }
  destruct (one_of CMD_WRAPPERS (bin_name a)) eqn:Hw.
  - destruct (skip_operands_suffix (bin_name a) rest) as [k Hk].
    set (tl := skip_wrapper_operands (bin_name a) rest) in *.
    destruct (IH tl) as [[m Hm] Hh].
    { rewrite Hp, Hk in Hl. rewrite !length_app in Hl. simpl in Hl. rewrite length_app in Hl. lia. }
    split; [|done]. exists (p ++ a :: k ++ m). rewrite Hp, Hk at 1.
    by rewrite <- app_assoc, <- app_comm_cons, <- app_assoc, <- Hm.
  - split; [by exists p|]. split; [by eapply skip_assignments_head|done].
Qed.

(** Wrappers hide nothing. Whatever assignments and wrappers, with options and
    their arguments, stand before a command, what is classified is that command
    with its arguments; and what is left of any line of words is an end of it
    that begins neither with an assignment nor with a wrapper. *)
Theorem wrappers_are_transparent argv :
  (∀ p cmd args, argv = p ++ cmd :: args → wrapping p → plain_command cmd →
     unwrap_argv argv = cmd :: args)
  ∧ (∃ p, argv = p ++ unwrap_argv argv)
  ∧ match unwrap_argv argv with
    | [] => True
    | a :: _ => is_env_assignment a = false ∧ one_of CMD_WRAPPERS (bin_name a) = false
    end.
Proof.
  split; [|by apply unwrap_loop_result]. intros p cmd args ->. apply unwrap_wrapping.
Qed.

(** ** Sequences *)

Definition separates (c : ascii) : Prop := c = ";"%char ∨ c = "010"%char.

Lemma keep_blank : keep_segment "" = [].
Proof. done. Qed.

Lemma segments_sequence c1 cur sep c2 :
  separates sep →
  segments_from cur (c1 +:+ String sep c2) = segments_from cur c1 ++ segments c2.
Proof.
  intros Hsep. revert cur.
  assert (∀ n c1 cur, (String.length c1 ≤ n)%nat →
    segments_from cur (c1 +:+ String sep c2) = segments_from cur c1 ++ segments c2) as Hn;
    [|by intros cur; apply (Hn (String.length c1))].
  clear c1. induction n as [|n IH]; intros c1 cur Hl; (destruct c1 as [|c s]; [|simpl in Hl]).
  1, 3: by destruct Hsep as [-> | ->].
  - lia.
  - rewrite Str.append_cons. cbn [segments_from].
    destruct (Ascii.eqb c "&" || Ascii.eqb c "|") eqn:Hc.
    + destruct s as [|d s].
      * change ("" +:+ String sep c2) with (String sep c2). cbv iota.
        assert (Ascii.eqb sep c = false) as ->.
        { apply Ascii.eqb_neq. intros ->. by destruct Hsep as [-> | ->]. }
        f_equal. by destruct Hsep as [-> | ->].
      * rewrite Str.append_cons. simpl in Hl. destruct (Ascii.eqb d c).
        -- rewrite IH by lia. by rewrite app_assoc.
        -- rewrite <- Str.append_cons, IH by (simpl; lia). by rewrite app_assoc.
    + destruct (Ascii.eqb c ";" || byte_is 10 c).
      * rewrite IH by lia. by rewrite app_assoc.
      * rewrite IH by lia. done.
Qed.

(** ** Nesting *)

Section Nesting.
Context `{TextCrates}.

(** [executes n command argv]: the command line runs [argv], inside at most [n]
    nested shells or [env -S]. *)
Inductive executes : nat → string → list string → Prop :=
| executes_segment n command seg words argv :
    seg ∈ segments command → shlex_split seg = Some words → unwrap_argv words = argv →
    argv ≠ [] → executes n command argv
| executes_shell n command seg words a rest script argv :
    seg ∈ segments command → shlex_split seg = Some words → unwrap_argv words = a :: rest →
    one_of SHELL_INTERP (bin_name a) = true → eval_flag_script rest = Some script →
    executes n script argv → executes (S n) command argv
| executes_env n command seg words script argv :
    seg ∈ segments command → shlex_split seg = Some words →
    env_payload_command words = Some script →
    executes n script argv → executes (S n) command argv.

Lemma executes_words words argv seg :
  shlex_split seg = Some words → unwrap_argv words = argv → argv ≠ [] →
  ∃ x xs, words = x :: xs.
Proof. destruct words; [by intros _ <-|eauto]. Qed.

Lemma classify_segment n root command seg r :
  seg ∈ segments command →
  r ∈ segment_risks (match n with O => None | S n => Some (classify_depth n root) end) root seg →
  catastrophic r → ∃ r, classify_depth n root command = Some r ∧ catastrophic r.
Proof.
  intros Hs Hr Hc.
  assert (classify_depth n root command = best_of (command_risks
    (match n with O => None | S n => Some (classify_depth n root) end) root command)) as ->
    by (by destruct n).
  apply (best_of_catastrophic _ r); [|done]. unfold command_risks. apply elem_of_app. right.
  apply elem_of_flat_map. by exists seg.
Qed.

Lemma executes_classified n root command a rest r :
  executes n command (a :: rest) → r ∈ argv_risks (bin_name a) (a :: rest) root → catastrophic r →
  ∃ r, classify_depth n root command = Some r ∧ catastrophic r.
Proof.
  intros He. remember (a :: rest) as argv eqn:Ea. revert Ea.
  induction He as [n command seg words argv Hs Hw Hu Hne
    |n command seg words a' rest' script argv Hs Hw Hu Hi Hf _ IH
    |n command seg words script argv Hs Hw Hp _ IH]; intros -> Hr Hc.
  - destruct (executes_words _ _ _ Hw Hu Hne) as (x & xs & ->).
    apply (classify_segment n root command seg r Hs); [|done].
    unfold segment_risks. rewrite Hw, Hu. rewrite !elem_of_app. by right; right.
  - destruct (IH eq_refl Hr Hc) as (r' & Hr' & Hc').
    destruct (executes_words _ _ _ Hw Hu) as (x & xs & ->); [done|].
    apply (classify_segment (S n) root command seg r' Hs); [|done].
    unfold segment_risks. rewrite Hw, Hu, Hi, Hf, Hr'. rewrite !elem_of_app. right; left. by left.
  - destruct (IH eq_refl Hr Hc) as (r' & Hr' & Hc').
    destruct words as [|x xs]; [by unfold env_payload_command in Hp|].
    apply (classify_segment (S n) root command seg r' Hs); [|done].
    unfold segment_risks. rewrite Hw, Hp, Hr'. rewrite elem_of_app. left. by left.
Qed.

Lemma executes_sequence n before sep command after argv :
  separates sep → executes n command argv →
  executes n (before +:+ String sep command) argv ∧ executes n (command +:+ String sep after) argv.
Proof.
  intros Hsep He.
  assert (∀ seg, seg ∈ segments command →
    seg ∈ segments (before +:+ String sep command) ∧ seg ∈ segments (command +:+ String sep after))
    as Hin.
  { intros seg Hs. unfold segments at 1 2. rewrite !segments_sequence by done.
    split; apply elem_of_app; [by right|by left]. }
  destruct He as [n command seg words argv Hs ? ? ?|n command seg words a rest script argv Hs ? ? ? ? ?
    |n command seg words script argv Hs ? ? ?]; destruct (Hin seg Hs).
  - split; eapply executes_segment; eassumption.
  - split; eapply executes_shell; eassumption.
  - split; eapply executes_env; eassumption.
Qed.

End Nesting.

(** ** [env -S] *)

Lemma replace_char c r a s :
  str_replace (String c EmptyString) r (String a s) =
  if Ascii.eqb c a then r +:+ str_replace (String c EmptyString) r s
  else String a (str_replace (String c EmptyString) r s).
Proof. unfold str_replace. cbn [replace_from Str.starts_with]. by rewrite andb_true_r. Qed.

Lemma snoc_assoc acc a s : (acc +:+ String a EmptyString) +:+ s = acc +:+ String a s.
Proof. by rewrite <- Str.append_assoc. Qed.

Lemma split_quoted t acc rest :
  env_s_split_from (Some acc) (Some "'"%char) (str_replace "'" "'\''" t +:+ String "'" rest)
  = env_s_split_from (Some (acc +:+ t)) None rest.
Proof.
  revert acc. induction t as [|a t IH]; intros acc.
  { change (str_replace "'" "'\''" "") with "". change ("" +:+ ?x) with x.
    cbn [env_s_split_from]. rewrite Ascii.eqb_refl. by rewrite Str.append_nil_r. }
  rewrite replace_char. destruct (Ascii.eqb "'" a) eqn:Ha.
  - apply Ascii.eqb_eq in Ha as <-. rewrite <- Str.append_assoc.
    change (env_s_split_from (Some acc) (Some "'"%char) ("'\''" +:+ ?x))
      with (env_s_split_from (Some (acc +:+ "'")) (Some "'"%char) x).
    rewrite IH. by rewrite <- Str.append_assoc.
  - rewrite Str.append_cons. cbn [env_s_split_from]. rewrite Ascii.eqb_sym, Ha.
    change (byte_is 34 "'") with false. rewrite andb_false_r. unfold push_char, default.
    simpl. rewrite IH. by rewrite snoc_assoc.
Qed.

(** A character that needs no quotes ends no word and opens nothing. *)
Lemma bare_char_plain c :
  is_bare_char c = true →
  is_env_space c = false ∧ is_quote c = false ∧ Ascii.eqb c "\" = false.
Proof.
  destruct c as [b0 b1 b2 b3 b4 b5 b6 b7].
  destruct b0, b1, b2, b3, b4, b5, b6, b7; vm_compute; intuition discriminate.
Qed.

Lemma split_bare t cur rest :
  Str.all is_bare_char t = true → t ≠ "" →
  env_s_split_from cur None (t +:+ rest) = env_s_split_from (Some (default "" cur +:+ t)) None rest.
Proof.
  revert cur. induction t as [|a t IH]; [done|]. intros cur Hall _. cbn [Str.all] in Hall.
  apply andb_true_iff in Hall as [Ha Hall]. destruct (bare_char_plain a Ha) as (E1 & E2 & E3).
  rewrite Str.append_cons. cbn [env_s_split_from]. rewrite E1, E2, E3. unfold push_char.
  destruct t as [|b t]; [done|]. rewrite IH by done. simpl. by rewrite snoc_assoc.
Qed.

Lemma split_token t rest :
  env_s_split_from None None (env_s_quote t +:+ rest) = env_s_split_from (Some t) None rest.
Proof.
  unfold env_s_quote. destruct (negb (Str.is_empty t) && Str.all is_bare_char t) eqn:E.
  - apply andb_true_iff in E as [E1 E2]. rewrite split_bare; [done|done|]. intros ->. done.
  - rewrite <- !Str.append_assoc. change ("'" +:+ ?x) with (String "'" x).
    change (env_s_split_from None None (String "'" ?x))
      with (env_s_split_from (Some "") (Some "'"%char) x).
    apply (split_quoted t "" rest).
Qed.

(** The words of an [env -S] payload survive the way to the next level: joined
    with [env_s_join], whatever characters they have, they are read back as the
    same words by the quoting rules of [env -S]. *)
Theorem env_s_join_roundtrip tokens : env_s_split (env_s_join tokens) = tokens.
Proof.
  unfold env_s_split, env_s_join. induction tokens as [|t [|u tokens] IH]; [done|..].
  - cbn [fmap list_fmap Str.join]. rewrite <- (Str.append_nil_r (env_s_quote t)). by rewrite split_token.
  - change (Str.join " " (env_s_quote <$> t :: u :: tokens)) with
      (env_s_quote t +:+ (" " +:+ Str.join " " (env_s_quote <$> u :: tokens))).
    rewrite split_token. change (" " +:+ ?x) with (String " " x). cbn [env_s_split_from].
    change (is_env_space " ") with true. cbn [take_token app]. by rewrite IH.
Qed.

(** ** Witnesses *)

Section Toy.

(** Words by the quoting rules of [env -S]; no pattern matches. *)
#[local] Instance toy_text : TextCrates := {
  regex_is_match _ _ := false;
  regex_find_iter _ _ := [];
  url_host _ := None;
  shlex_split s := Some (env_s_split s);
}.

Definition sample_command : string :=
  "A=1 sudo -u root bash -c " +:+ DQ +:+ "env -S 'rm -rf /'" +:+ DQ +:+ " && true".

Lemma sample_executes : executes MAX_NEST_DEPTH sample_command ["rm"; "-rf"; "/"].
Proof.
  eapply (executes_shell 3); [left| | | | |]; [vm_compute; reflexivity..|].
  eapply (executes_env 2); [left| | |]; [vm_compute; reflexivity..|].
  eapply executes_segment; [left| | |]; [vm_compute; reflexivity..|discriminate].
Qed.


(** [env_s_join] quotes the semicolon of a word, but [segments] does not look at
    quotes: the word is cut in two. *)
Example segments_cut_quoted_words :
  env_s_join ["echo"; "a;b"] = "echo 'a;b'" ∧ segments "echo 'a;b'" = ["echo 'a"; "b'"].
Proof. vm_compute. split; reflexivity. Qed.
End Toy.
