(* ===== verification/HookEvent.v ===== *)
(** * Hook events and answers

    [src/apps/vigil-hub-cli/src/hook.rs], the parts without effects: what an agent's
    command line sends to a hook ([normalize_event], [normalize_event_name],
    [peek_event_name]), what the hook can decide ([HookOutcome]) and how each
    command line is told ([respond]), the detection of raw credentials beside
    aliases, and the names that are safe to show. *)

From S2P Require Import Prelude Text Types Json Deps Holes Rules HardRedact Alias Posture Ipc Lease.

Definition MAX_HOOK_INPUT_BYTES : Z := 16 * 1024 * 1024.
Definition ML_TOTAL_BUDGET_MS : Z := 2500.
Definition ML_MIN_SEG_LEN : nat := 8.
Definition ML_SCAN_TEXT_CAP : nat := 16 * 1024.
Definition ML_MAX_QUERIES_PER_RESPONSE : nat := 64.
Definition CO_APPROVAL_WAIT_SECS_DEFAULT : Z := 45.
Definition CO_APPROVAL_WAIT_SECS_CODEX : Z := 86000.
Definition EXECUTION_BOUNDARY_TOOLS : list string := ["Bash"; "shell"].
Definition FILE_WRITE_TOOLS : list string := ["Write"; "Edit"; "MultiEdit"; "write_file"; "replace"].
Definition HOOK_INJECT_SERVER_ID : string := "hook-native".
Definition SECRET_ALIAS_PREFIX : string := "secret://".
Definition CODEX_BLOCK_REASON_MAX_BYTES : nat := 64 * 1024.
Definition META_INSTRUCTION_RISK_DELTA : Z := 8.

Module CliKind.
Inductive CliKind := Claude | Codex | Gemini | Cursor.

#[global] Instance CliKind_eq_dec : EqDecision CliKind.
Proof. solve_decision. Defined.

Definition as_str (c : CliKind) : string :=
  match c with
  | Claude => "claude"
  | Codex => "codex"
  | Gemini => "gemini"
  | Cursor => "cursor"
  end.

Definition co_approval_wait_secs (c : CliKind) : Z :=
  match c with
  | Codex => CO_APPROVAL_WAIT_SECS_CODEX
  | Claude | Gemini | Cursor => CO_APPROVAL_WAIT_SECS_DEFAULT
  end.
End CliKind.
Abbreviation CliKind := CliKind.CliKind.

(** The store is the one of the surrounding state; a map is iterated in an order of
    its own. *)
Record InjectionConfig := mkInjectionConfig {
  ic_enabled : bool;
  ic_secrets : gmap string string;
  ic_ttl_secs : Z;
}.

Record HookArgs := mkHookArgs {
  ha_ledger_path : option string;
  ha_cli : CliKind;
  ha_posture_path : option string;
  ha_co_approval_wait_secs : option Z;
  ha_injection : option InjectionConfig;
  ha_redact_results : bool;
  ha_engine : option EngineMode;
}.

Definition ml_enabled (args : HookArgs) : bool :=
  match ha_engine args with
  | Some EngineMode.Ml | Some EngineMode.Auto => true
  | _ => false
  end.

Definition ml_is_strict (args : HookArgs) : bool := bool_decide (ha_engine args = Some EngineMode.Ml).

Record NormalizedEvent := mkNormalizedEvent {
  ne_session_id : option string;
  ne_cwd : option string;
  ne_tool_name : string;
  ne_tool_input : Value;
}.

Module HookOutcome.
Inductive HookOutcome :=
| Allow
| Deny (reason : string)
| DenyPrompt (reason : string)
| Ask (reason : string)
| Inject (updated_input : Value) (note : string)
| RedactOutput (updated_output : Value) (note : string).
End HookOutcome.
Abbreviation HookOutcome := HookOutcome.HookOutcome.

Record HookResponse := mkHookResponse {
  hr_exit_code : Z;
  hr_stdout : option string;
  hr_stderr : option string;
}.

(** ** Answers *)

(** The bodies of the answers, before [to_string]. *)
Definition claude_inject_body (updated_input : Value) (note : string) : Value :=
  JObj [("hookSpecificOutput", JObj [
    ("hookEventName", JStr "PreToolUse"); ("permissionDecision", JStr "allow");
    ("permissionDecisionReason", JStr note); ("updatedInput", updated_input)])].

Definition claude_redact_body (updated_output : Value) (note : string) : Value :=
  JObj [("hookSpecificOutput", JObj [
    ("hookEventName", JStr "PostToolUse"); ("additionalContext", JStr note);
    ("updatedToolOutput", updated_output)])].

Definition claude_decision_body (decision reason : string) : Value :=
  JObj [("hookSpecificOutput", JObj [
    ("hookEventName", JStr "PreToolUse"); ("permissionDecision", JStr decision);
    ("permissionDecisionReason", JStr reason)])].

Definition decision_body (decision reason : string) : Value :=
  JObj [("decision", JStr decision); ("reason", JStr reason)].

Definition cursor_permission_body (permission : string) (reason : option string) : Value :=
  let body := [("permission", JStr permission)] in
  JObj (match reason with
        | Some r => map_insert "agent_message" (JStr r) (map_insert "user_message" (JStr r) body)
        | None => body
        end).

Section Respond.
Context `{Crates}.

Definition claude_inject_json (updated_input : Value) (note : string) : string :=
  json_to_string (claude_inject_body updated_input note).

Definition claude_redact_json (updated_output : Value) (note : string) : string :=
  json_to_string (claude_redact_body updated_output note).

Definition claude_decision_json (decision reason : string) : string :=
  json_to_string (claude_decision_body decision reason).

Definition cursor_permission_json (permission : string) (reason : option string) : string :=
  json_to_string (cursor_permission_body permission reason).

(** The text of the redacted result, cut at a character. *)
Definition codex_result_text (updated_output : Value) : string :=
  let text := match updated_output with
              | JStr s => s
              | other => json_to_string other
              end in
  if (CODEX_BLOCK_REASON_MAX_BYTES <? String.length text)%nat then
    Str.take (boundary_below text CODEX_BLOCK_REASON_MAX_BYTES) text
    +:+ newline_str +:+ "[Vigil: redacted result truncated]"
  else text.

Definition codex_block_reason (updated_output : Value) (note : string) : string :=
  note +:+ newline_str +:+ newline_str
  +:+ "[Vigil] The raw tool result was withheld because it matched credential patterns (hard fingerprints or KEY=value assignments); this is the same result with those values replaced by placeholders:"
  +:+ newline_str +:+ codex_result_text updated_output.

Definition codex_block_with_redacted_json (updated_output : Value) (note : string) : string :=
  json_to_string (decision_body "block" (codex_block_reason updated_output note)).

Definition silent : HookResponse := mkHookResponse 0 None None.

(** [Deny], and what falls back to it: exit code 0, a decision on standard output. *)
Definition deny_response (reason : string) (cli : CliKind) : HookResponse :=
  match cli with
  | CliKind.Claude => mkHookResponse 2 None (Some reason)
  | CliKind.Codex => mkHookResponse 0 (Some (claude_decision_json "deny" reason)) (Some reason)
  | CliKind.Gemini => mkHookResponse 0 (Some (json_to_string (decision_body "deny" reason))) (Some reason)
  | CliKind.Cursor => mkHookResponse 0 (Some (cursor_permission_json "deny" (Some reason))) (Some reason)
  end.

Definition respond (outcome : HookOutcome) (cli : CliKind) : HookResponse :=
  match outcome with
  | HookOutcome.Allow =>
      match cli with
      | CliKind.Cursor => mkHookResponse 0 (Some (cursor_permission_json "allow" None)) None
      | CliKind.Claude | CliKind.Codex | CliKind.Gemini => silent
      end
  | HookOutcome.Deny reason => deny_response reason cli
  | HookOutcome.DenyPrompt reason =>
      match cli with
      | CliKind.Codex => mkHookResponse 0 (Some (json_to_string (decision_body "block" reason))) (Some reason)
      | CliKind.Claude | CliKind.Gemini | CliKind.Cursor => mkHookResponse 2 None (Some reason)
      end
  | HookOutcome.Ask reason =>
      match cli with
      | CliKind.Claude => mkHookResponse 0 (Some (claude_decision_json "ask" reason)) None
      | CliKind.Cursor => mkHookResponse 0 (Some (cursor_permission_json "ask" (Some reason))) None
      | CliKind.Codex | CliKind.Gemini => deny_response reason cli
      end
  | HookOutcome.Inject updated_input note =>
      match cli with
      | CliKind.Claude => mkHookResponse 0 (Some (claude_inject_json updated_input note)) None
      | CliKind.Codex | CliKind.Gemini | CliKind.Cursor => deny_response note cli
      end
  | HookOutcome.RedactOutput updated_output note =>
      match cli with
      | CliKind.Claude => mkHookResponse 0 (Some (claude_redact_json updated_output note)) None
      | CliKind.Codex =>
          mkHookResponse 0 (Some (codex_block_with_redacted_json updated_output note)) (Some note)
      | CliKind.Gemini => silent
      | CliKind.Cursor => mkHookResponse 0 (Some (cursor_permission_json "allow" None)) None
      end
  end.

Definition INTERNAL_ERROR : string := "Vigil hook: internal error (blocked fail-closed).".

(** The exit code of the process, and the answer written in place of that of a closure
    that panicked ([None]). *)
Definition exit_code_guarded (cli : CliKind) (f : option Z) : Z * option HookResponse :=
  match f with
  | Some code => (code, None)
  | None =>
      let resp := respond (HookOutcome.Deny INTERNAL_ERROR) cli in
      (hr_exit_code resp, Some resp)
  end.
End Respond.

(** ** Events *)

Fixpoint extract_from (map : list (string * Value)) (keys : list string) : option string :=
  match keys with
  | [] => None
  | k :: rest =>
      match assoc_get k map ≫= as_str with
      | Some s => Some s
      | None => extract_from map rest
      end
  end.

Definition extract_str (obj : Value) (keys : list string) : option string :=
  map ← as_object obj; extract_from map keys.

Definition extract_value (obj : Value) (keys : list string) : option Value :=
  map ← as_object obj; find_map (λ k, assoc_get k map) keys.

Definition SESSION_KEYS : list string := ["session_id"; "sessionId"].
Definition TOOL_KEYS : list string := ["tool_name"; "toolName"; "tool"].
Definition RESPONSE_KEYS : list string := ["tool_response"; "toolResponse"; "tool_output"; "toolOutput"].
Definition EVENT_KEYS : list string := ["hook_event_name"; "hookEventName"; "event_name"; "eventName"].

Definition MISSING_TOOL : string :=
  "Vigil hook: PreToolUse event is missing a recognizable tool name (blocked fail-closed).".
Definition MISSING_INPUT : string :=
  "Vigil hook: PreToolUse event is missing `tool_input` (blocked fail-closed).".

Definition normalize_event (raw : Value) (cli : CliKind) : result string NormalizedEvent :=
  let session_id := extract_str raw SESSION_KEYS in
  let cwd := extract_str raw ["cwd"; "working_directory"; "workingDirectory"] in
  let tool_name := extract_str raw TOOL_KEYS in
  let tool_input := extract_value raw ["tool_input"; "toolInput"; "input"; "arguments"; "args"] in
  match tool_name, tool_input with
  | Some name, Some input => Ok (mkNormalizedEvent session_id cwd name input)
  | None, _ =>
      if bool_decide (cli = CliKind.Cursor) && bool_decide (is_Some (extract_str raw ["command"])) then
        Ok (mkNormalizedEvent session_id cwd "shell" raw)
      else Err MISSING_TOOL
  | Some _, None => Err MISSING_INPUT
  end.

(** The names a command line has of its own. *)
Definition specific_event_name (cli : CliKind) (raw : string) : option string :=
  match cli with
  | CliKind.Gemini =>
      if String.eqb raw "BeforeTool" then Some "PreToolUse"
      else if String.eqb raw "AfterTool" then Some "PostToolUse"
      else None
  | CliKind.Cursor =>
      if existsb (String.eqb raw) ["beforeShellExecution"; "beforeMCPExecution"; "beforeMcpToolExecution"]
      then Some "PreToolUse"
      else if existsb (String.eqb raw) ["afterShellExecution"; "afterMCPExecution"; "afterMcpToolExecution"]
      then Some "PostToolUse"
      else None
  | CliKind.Claude | CliKind.Codex => None
  end.

(** [.chars().filter(f)], for a filter that keeps everything outside ASCII. *)
Fixpoint filter_chars (f : ascii → bool) (s : string) : string :=
  match s with
  | EmptyString => EmptyString
  | String c s' => if f c then String c (filter_chars f s') else filter_chars f s'
  end.

Definition fold_event_name (raw : string) : string :=
  to_ascii_lowercase (filter_chars (λ c, negb (Ascii.eqb c "_") && negb (Ascii.eqb c "-")) raw).

Definition normalize_event_name (cli : CliKind) (raw : string) : string :=
  let raw := trim raw in
  match specific_event_name cli raw with
  | Some s => s
  | None =>
      let folded := fold_event_name raw in
      if String.eqb folded "pretooluse" then "PreToolUse"
      else if String.eqb folded "posttooluse" then "PostToolUse"
      else raw
  end.

(** The first of the keys in the buffer: [filter_map] and [min_by_key]. *)
Definition earlier_key (buf : string) (best : option (nat * string)) (k : string)
    : option (nat * string) :=
  match Str.find k buf, best with
  | Some p, Some (b, _) => if (p <? b)%nat then Some (p, k) else best
  | Some p, None => Some (p, k)
  | None, _ => best
  end.

Definition peek_event_name (buf : string) : option string :=
  '(pos, key) ← foldl (earlier_key buf) None ((λ k, dq +:+ k +:+ dq) <$> EVENT_KEYS);
  let rest := trim_start (Str.drop (pos + String.length key) buf) in
  rest ← Text.strip_prefix ":" rest;
  rest ← Text.strip_prefix dq (trim_start rest);
  end_ ← Str.find dq rest;
  let name := Str.take end_ rest in
  if (end_ <=? 64)%nat && negb (str_contains "\" name) then Some name else None.

(** ** Tools *)

Definition is_execution_boundary_tool (tool_name : string) : bool :=
  existsb (String.eqb tool_name) EXECUTION_BOUNDARY_TOOLS.

Definition is_file_write_tool (tool_name : string) : bool :=
  existsb (String.eqb tool_name) FILE_WRITE_TOOLS.

Definition cli_supports_updated_input (cli : CliKind) : bool := bool_decide (cli = CliKind.Claude).

Definition cli_supports_result_redaction (cli : CliKind) : bool :=
  bool_decide (cli = CliKind.Claude) || bool_decide (cli = CliKind.Codex).

Definition injection_on (args : HookArgs) : bool :=
  match ha_injection args with
  | Some i => ic_enabled i
  | None => false
  end.

Definition result_redaction_active (args : HookArgs) : bool :=
  (injection_on args || ha_redact_results args || ml_enabled args
   || bool_decide (ha_cli args = CliKind.Codex))
  && cli_supports_result_redaction (ha_cli args).

Definition nonempty_str (s : string) : option string := if Str.is_empty s then None else Some s.

Definition shell_command_of (input : NormalizedEvent) : option string :=
  find_map (λ k, v ← json_get k (ne_tool_input input); s ← as_str v; nonempty_str s)
    ["command"; "cmd"].

Definition file_path_of (input : NormalizedEvent) : option string :=
  v ← json_get "file_path" (ne_tool_input input); s ← as_str v; nonempty_str s.

(** ** Names to show *)

(** [.chars().take(n)], with every character that is not kept as a question mark. *)
Fixpoint safe_chars (keep : ascii → bool) (n : nat) (s : string) : string :=
  match s with
  | EmptyString => EmptyString
  | String c s' =>
      if Str.between 128 191 c then safe_chars keep n s'
      else match n with
           | O => EmptyString
           | S m => String (if keep c then c else "?"%char) (safe_chars keep m s')
           end
  end.

Definition sanitize (keep : ascii → bool) (name : string) : string :=
  safe_chars keep 64 name +:+ (if (64 <? char_count name)%nat then "~" else "").

Definition one_char_of (l : list ascii) (c : ascii) : bool := existsb (Ascii.eqb c) l.

Definition safe_tool_name (name : string) : string :=
  sanitize (λ c, is_ascii_alphanumeric c || one_char_of ["_"; "-"; "."]%char c) name.

Definition safe_alias (alias : string) : string :=
  sanitize (λ c, is_ascii_alphanumeric c || one_char_of ["_"; "-"; "."; "/"]%char c) alias.

Definition is_shell_safe_secret (s : string) : bool :=
  Str.all (λ c, is_ascii_alphanumeric c
                || one_char_of ["-"; "_"; "="; "."; "+"; "/"; ":"; "@"]%char c) s.

(** ** Aliases *)

Record AliasToken := mkAliasToken { at_start : nat; at_end : nat; at_alias : string }.

(** At byte [i]; [skip] bytes of what was found last are still to pass. A prefix
    without a body is passed over. *)
Fixpoint scan_aliases_from (skip i : nat) (s : string) : list AliasToken :=
  match s with
  | EmptyString => []
  | String _ s' =>
      match skip with
      | S k => scan_aliases_from k (S i) s'
      | O =>
          if Str.starts_with SECRET_ALIAS_PREFIX s then
            let body := take_while is_alias_body_char (Str.drop (String.length SECRET_ALIAS_PREFIX) s) in
            let len := (String.length SECRET_ALIAS_PREFIX + String.length body)%nat in
            (if Str.is_empty body then [] else [mkAliasToken i (i + len) body])
            ++ scan_aliases_from (len - 1) (S i) s'
          else scan_aliases_from 0 (S i) s'
      end
  end.

Definition scan_secret_aliases (s : string) : list AliasToken := scan_aliases_from 0 0 s.

Definition token_hole (t : AliasToken) : Hole := mkHole (at_start t) (at_end t) (at_alias t).

(** The text with every token, and every bare prefix, as a NUL. *)
Definition strip_alias_tokens (text : string) : string :=
  str_replace SECRET_ALIAS_PREFIX NUL
    (assembled (λ _, NUL) 0 (token_hole <$> scan_secret_aliases text) text).

Section Detect.
Context `{Regexes} `{Base64}.

Definition has_env_assignment (hits : list string) : bool := existsb (String.eqb "env_assignment") hits.

Definition detect_raw_secret_alias_aware (text : string) : option string :=
  match find_map (λ t, Hard.detect_hard_secret (at_alias t)) (scan_secret_aliases text) with
  | Some kind => Some kind
  | None =>
      let hits := Hard.scan_hard_findings text in
      match List.find (λ k, negb (String.eqb k "env_assignment")) hits with
      | Some kind => Some kind
      | None =>
          if negb (has_env_assignment hits) then None
          else
            let stripped := strip_alias_tokens text in
            if String.eqb stripped text then Some "env_assignment"
            else if has_env_assignment (Hard.scan_hard_findings stripped) then Some "env_assignment"
            else None
      end
  end.
End Detect.

(** ** Sentinels in a tree *)

Fixpoint strip_untrusted_markers_in_value `{Regexes} (v : Value) : Value * bool :=
  match v with
  | JStr s => let '(stripped, changed) := Hard.strip_sentinel_markers s in (JStr stripped, changed)
  | JArr items =>
      let out := map strip_untrusted_markers_in_value items in
      (JArr out.*1, existsb id out.*2)
  | JObj obj =>
      let out := map (λ kv, (kv.1, strip_untrusted_markers_in_value kv.2)) obj in
      (JObj (collect_map ((λ r, (r.1, r.2.1)) <$> out)), existsb (λ r, r.2.2) out)
  | other => (other, false)
  end.

Fixpoint wrap_untrusted (open_ close : string) (v : Value) : Value :=
  match v with
  | JStr s => JStr (open_ +:+ s +:+ close)
  | JArr items => JArr (map (wrap_untrusted open_ close) items)
  | JObj obj => JObj (collect_map (map (λ kv, (kv.1, wrap_untrusted open_ close kv.2)) obj))
  | other => other
  end.

(** ** Secrets in a tree *)

Definition str_contains_any_secret (resolved : gmap string string) (s : string) : bool :=
  existsb (λ n, negb (Str.is_empty n) && str_contains n s) ((map_to_list resolved).*2).

Fixpoint value_contains_any_secret (resolved : gmap string string) (v : Value) : bool :=
  match v with
  | JStr s => str_contains_any_secret resolved s
  | JArr items => existsb (value_contains_any_secret resolved) items
  | JObj obj =>
      existsb (λ kv, str_contains_any_secret resolved kv.1
                     || value_contains_any_secret resolved kv.2) obj
  | _ => false
  end.

Definition meta_risk_delta (meta_hits : nat) : Z :=
  Z.min (META_INSTRUCTION_RISK_DELTA * Z.of_nat meta_hits) (META_INSTRUCTION_RISK_DELTA * 3).

Definition hook_source (cli : CliKind) : string := CliKind.as_str cli +:+ "-hook".
