(* ===== verification/HookConcrete.v ===== *)
(** * A concrete world around the hook

    Instances on which the witnesses run: a host without faults, a ledger that
    opens, no daemon, and a person who approves the fifth id. Nothing here models
    the program. *)

From stdpp Require Import pretty.
From S2P Require Import Prelude Text Types Json Deps Db Ledger Approvals Lease Wire Redact Ipc.
From S2P Require Import Rules HardRedact HardRedactProps HardSpansProps Files Posture Guard.
From S2P Require Import HookEvent Hook Concrete.

Module ToyHook.
Import Toy ToyRules.

#[export] Instance hook_host : Host := {|
  fault _ := None;
  meddle _ files := files;
  modified_now _ := 0%Z;
|}.

#[export] Instance hook_posture_file : Document PostureFileV1 := {|
  to_string_pretty f := Some (PostureProfile.as_str (pf_posture f));
  from_str s := if String.eqb s "low" then Some (mkPostureFile 1 PostureProfile.Low) else None;
|}.

#[export] Instance hook_daemon_info : Document DaemonInfo := {|
  to_string_pretty _ := None;
  from_str _ := None;
|}.

#[export] Instance hook_text : TextCrates := {|
  regex_is_match _ _ := false;
  regex_find_iter _ _ := [];
  url_host _ := None;
  shlex_split s := Some (split_whitespace s);
|}.

#[export] Instance hook_hello : Codec Hello := {| to_vec _ := None; from_slice _ := None |}.
#[export] Instance hook_request : Codec Request := {| to_vec _ := None; from_slice _ := None |}.
#[export] Instance hook_response : Codec Response := {| to_vec _ := None; from_slice _ := None |}.

Definition id_of (n : nat) : string := "id" +:+ pretty n.

Definition approver (s : LedgerState) : LedgerState :=
  (approve (H0 := hard_redaction) 20 20 (id_of 5) ApprovalScope.Once (Some "user") s).2.

#[export] Instance hook_surroundings : Surroundings := {|
  clock n i := 10%Z;
  instant n := 0%Z;
  fresh_id := id_of;
  ledger_opens _ := true;
  random_bytes _ := None;
  others _ := [approver];
  lease_readings n i := mkLeaseReadings ("lease" +:+ id_of i) 10 10 10 10 10;
  hash_order := map_to_list;
  connect_and_verify _ _ _ := None;
  daemon_writer _ _ := None;
  in_time _ := true;
  default_posture_path := None;
  daemon_info_path := None;
|}.

Definition toy_world : World (gmap string string) :=
  mkWorld empty_ledger {[ "ref" := "s3cr3t" ]} (mkDisk ∅ 0) 0.

Definition toy_injection : InjectionConfig := mkInjectionConfig true {[ "a" := "ref" ]} 30.

Definition toy_args : HookArgs :=
  mkHookArgs (Some "ledger") CliKind.Claude None None (Some toy_injection) false None.

(** A call of a tool, as the bytes of an event. *)
Definition tool_call (tool : string) (input : Value) : Stdin :=
  mkStdin (json_to_string (JObj [("tool_name", JStr tool); ("tool_input", input)])) false.

Definition bashrc_input : Value := JObj [("file_path", JStr "/home/u/.bashrc")].
Definition deploy_input : Value := JObj [("command", JStr "deploy secret://a now"); ("x", JNum 1)].
Definition token_input : Value := JObj [("command", JStr ("echo " +:+ TOKEN))].

Example approved_write :
  returned (run toy_args (tool_call "Write" bashrc_input) toy_world).1 = HookOutcome.Allow.
Proof. vm_compute. reflexivity. Qed.

Example injected_deploy :
  ∃ note, returned (run toy_args (tool_call "Bash" deploy_input) toy_world).1
    = HookOutcome.Inject (JObj [("command", JStr "deploy s3cr3t now"); ("x", JNum 1)]) note.
Proof. eexists. vm_compute. reflexivity. Qed.

Definition result_event : Value :=
  JObj [("hook_event_name", JStr "PostToolUse"); ("tool_name", JStr "Bash"); ("session_id", JStr "s");
        ("tool_response", JObj [("stdout", JStr "the s3cr3t is out")])].

Definition result_stdin : Stdin := mkStdin (json_to_string result_event) false.

Example redacted_result :
  ∃ note, returned (run toy_args result_stdin toy_world).1
    = HookOutcome.RedactOutput (JObj [("stdout", JStr "the secret://a is out")]) note.
Proof. eexists. vm_compute. reflexivity. Qed.
End ToyHook.
