(* ===== verification/HookProps.v ===== *)
(** * What the hook guarantees

    What an answer that lets a tool run implies, what is denied whatever the
    settings, that input which cannot be read blocks, how each command line reads
    the answers, what an injected command is made of, that results come back
    without the values of the declared secrets, and how much risk one event adds. *)

From S2P Require Import Prelude Text Types Json Deps Db Hash Holes Ledger Approvals LedgerFacts.
From S2P Require Import ApprovalFacts ApprovalProps Lease LeaseProps Wire Redact Ipc Rules.
From S2P Require Import HardRedact HardRedactProps HardSpansProps Alias Files Posture Guard.
From S2P Require Import GuardProps HookEvent Hook Concrete HookConcrete.

(** ** Frames *)

Section Frames.
Context `{CratesLaws} `{Redaction}.

(** The queue takes a step, the store of secrets is as it was. *)
Definition on_queue {St} (w w' : World St) : Prop :=
  approval_step (hw_ledger w) (hw_ledger w') ∧ hw_store w' = hw_store w.

#[export] Instance on_queue_preorder {St} : PreOrder (on_queue (St := St)).
Proof.
  split; [by intros w|]. intros w1 w2 w3 [Ha Hb] [Hc Hd]. split; [by etransitivity|congruence].
Qed.

Lemma approval_step_other (s s' : LedgerState) :
  events s' = events s → event_seq s' = event_seq s → event_fts s' = event_fts s →
  approvals s' = approvals s → published s' = published s → approval_step s s'.
Proof. intros. apply approval_step_log; [by apply log_step_other|done|done]. Qed.

Lemma start_session_step now id source app :
  preserves approval_step (start_session now id source app).
Proof. unfold start_session. preserve. intros. by apply approval_step_other. Qed.

(** A new handle: nothing is published. *)
Lemma reopen_step :
  preserves approval_step
    (modify (λ s, set_drop_failure_count 0 (set_published ∅ s)) : LedgerM unit).
Proof.
  intros s. split; [by apply log_step_other|]. split; [|by intros [? _]].
  intros id. simpl. destruct (approvals s !! id); [by left|done].
Qed.
End Frames.

#[export] Hint Resolve start_session_step reopen_step create_approval_step cancel_step
  sweep_expired_step : vigil.

Section WorldFrames.
Context `{CratesLaws} `{Redaction} `{Host} `{Surroundings} {St R : Type}.

Lemma on_ledger_queue {A} (m : LedgerM A) :
  preserves approval_step m → preserves on_queue (on_ledger m : HookM St R _).
Proof.
  intros Hm w. specialize (Hm (hw_ledger w)). unfold on_ledger.
  by destruct (m (hw_ledger w)) as [r l].
Qed.

Lemma on_disk_queue {A} (m : FileM A) : preserves on_queue (on_disk m : HookM St R _).
Proof. intros w. unfold on_disk. by destruct (m (hw_disk w)). Qed.

Lemma tick_queue : preserves on_queue (tick : HookM St R nat).
Proof. by intros w. Qed.

Lemma open_ledger_queue : preserves on_queue (open_ledger : HookM St R bool).
Proof.
  unfold open_ledger. apply preserves_bind; [apply _|apply tick_queue|]. intros n.
  destruct (ledger_opens n); [|preserve].
  apply preserves_bind; [apply _|apply on_ledger_queue, reopen_step|]. preserve.
Qed.

Lemma new_session_queue source app : preserves on_queue (new_session source app : HookM St R _).
Proof.
  unfold new_session. apply preserves_bind; [apply _|apply tick_queue|]. intros n.
  apply on_ledger_queue, start_session_step.
Qed.

Lemma call_preserves {S R' A} (rel : S → S → Prop) (m : M S A A) :
  preserves rel m → preserves rel (call m : M S R' A).
Proof. intros Hm w. specialize (Hm w). unfold call. by destruct (m w). Qed.
End WorldFrames.

#[export] Hint Resolve on_disk_queue tick_queue open_ledger_queue new_session_queue
  on_ledger_queue call_preserves : vigil.

(** ** Computations that do not end the function they are called in *)

Section Total.
Context {S E : Type}.

Definition total {A} (m : M S E A) : Prop := ∀ s, ∃ a s', m s = (Ok a, s').

Lemma bind_total {A B} (m : M S E A) (k : A → M S E B) s r s' :
  total m → bind m k s = (r, s') → ∃ a s1, m s = (Ok a, s1) ∧ k a s1 = (r, s').
Proof. intros Hm. unfold bind. destruct (Hm s) as (a & s1 & ->). eauto. Qed.

Lemma total_bind {A B} (m : M S E A) (k : A → M S E B) :
  total m → (∀ a, total (k a)) → total (bind m k).
Proof.
  intros Hm Hk s. unfold bind. destruct (Hm s) as (a & s1 & ->). apply Hk.
Qed.

Lemma total_ret {A} (a : A) : total (ret a).
Proof. intros s. by exists a, s. Qed.

Lemma preserves_run {A} (rel : S → S → Prop) (m : M S E A) s r s' :
  preserves rel m → m s = (r, s') → rel s s'.
Proof. intros Hm Es. specialize (Hm s). by rewrite Es in Hm. Qed.
End Total.

Section WorldTotal.
Context `{Crates} `{Host} `{Surroundings} {St R : Type}.

Lemma tick_total : total (tick : HookM St R nat).
Proof. intros w. by eexists _, _. Qed.

Lemma on_ledger_total {A} (m : LedgerM A) : total (on_ledger m : HookM St R _).
Proof. intros w. unfold on_ledger. destruct (m (hw_ledger w)). by eexists _, _. Qed.

Lemma on_disk_total {A} (m : FileM A) : total (on_disk m : HookM St R _).
Proof. intros w. unfold on_disk. destruct (m (hw_disk w)). by eexists _, _. Qed.

Lemma with_broker_total {A} (m : M (BrokerState St) LeaseError A) :
  total (with_broker m : HookM St R _).
Proof. intros w. unfold with_broker. destruct (m _). by eexists _, _. Qed.

Lemma call_total {S R' A} (m : M S A A) : total (call m : M S R' A).
Proof. intros w. unfold call. destruct (m w). by eexists _, _. Qed.
End WorldTotal.

#[export] Hint Resolve total_bind total_ret tick_total on_ledger_total on_disk_total
  with_broker_total call_total : vigil.

(** Split the total computations off the head of a body. *)
Ltac totally :=
  repeat (intros; first
    [ solve [auto with vigil nocore typeclass_instances]
    | apply total_bind
    | match goal with
      | |- total (match ?x with _ => _ end) => destruct x
      | |- total (let _ := ?x in _) => cbn zeta
      end ]).

Ltac next H a w E :=
  apply bind_total in H as (a & w & E & H); [|solve [totally]].

Section AuditTotal.
Context `{Crates} `{Host} `{Regexes} `{Base64} `{Surroundings} {St R : Type}.

Lemma open_ledger_total : total (open_ledger : HookM St R bool).
Proof. unfold open_ledger. totally. Qed.

Lemma new_session_total source app : total (new_session source app : HookM St R _).
Proof. unfold new_session. totally. Qed.
#[local] Hint Resolve open_ledger_total new_session_total : vigil.

Lemma audit_event_total path source app et p summary :
  total (audit_event path source app et p summary : HookM St R unit).
Proof. unfold audit_event. totally. Qed.

Lemma await_verdict_total id : total (await_verdict id : HookM St R _).
Proof. unfold await_verdict. totally. Qed.

Lemma audit_coapproval_total args sid disp id hash p resolver outcome :
  total (audit_coapproval args sid disp id hash p resolver outcome : HookM St _ _).
Proof. unfold audit_coapproval. totally. Qed.
End AuditTotal.

#[export] Hint Resolve open_ledger_total new_session_total audit_event_total await_verdict_total
  audit_coapproval_total : vigil.

(** ** Approvals *)

Section CoApproval.
Context `{Host} `{Document PostureFileV1} `{Document DaemonInfo} `{CratesLaws} `{Regexes} `{Base64}
  `{TextCrates} `{Codec Hello} `{Codec Request} `{Codec Response} `{Surroundings} {St : Type}
  `{SecretStore St}.

(** What the other processes do while the hook waits is steps of the queue. *)
Definition others_step : Prop :=
  ∀ n, Forall (λ f, ∀ s, approval_step s (f s)) (others n).

Lemma audit_event_queue {R} path source app et p summary :
  preserves on_queue (audit_event path source app et p summary : HookM St R unit).
Proof.
  unfold audit_event. destruct path; [|preserve].
  apply preserves_bind; [apply _|auto with vigil|]. intros [].
  2:{ simpl. preserve. }
  apply preserves_bind; [apply _|auto with vigil|]. intros []; [|preserve].
  apply preserves_bind; [apply _|auto with vigil|]. intros n.
  apply preserves_bind; [apply _|auto with vigil|]. preserve.
Qed.

(** The approval of an input: a row the call made, for the tool and the digest of the
    input, that another process has approved. *)
Definition approved_now (tool_display serialized : string) (w w' : World St) : Prop :=
  ∃ id row, approvals (hw_ledger w) !! id = None ∧ approvals (hw_ledger w') !! id = Some row ∧
    a_status row = "Approved" ∧ a_tool_name row = Some tool_display ∧
    a_args_hash row = Some (sha256_hex serialized).

Lemma create_approval_row now now' id sid d eff ti su ttl ctx (s s' : LedgerState) req :
  create_approval now now' id sid d eff ti su ttl ctx s = (Ok req, s') →
  ar_approval_id req = id ∧ approvals s !! id = None ∧
  ∃ row, approvals s' !! id = Some row ∧ a_status row = "Pending" ∧
    a_args_hash row = ctx_args_hash ctx ∧ a_tool_name row = ctx_tool_name ctx.
Proof.
  unfold create_approval, insert_approval, record_approval_created. run_m.
  destruct (approvals s !! id) eqn:Hid; [done|]. append_cases err ev l n f Hlog; [done|].
  intros [= <- <-]. simpl. split_and!; [done|done|]. rewrite lookup_insert_eq. by eexists.
Qed.

(** What a status the wait ends with says of the row. *)
Lemma await_verdict_told id (w w' : World St) st {R} :
  others_step → approvals_inv (hw_ledger w) → is_Some (approvals (hw_ledger w) !! id) →
  (await_verdict id : HookM St R _) w = (Ok (Some st), w') →
  on_queue w w' ∧ ∃ row, approvals (hw_ledger w') !! id = Some row ∧ a_status row = status_str st.
Proof.
  intros Ho Hi Hid. unfold await_verdict, on_ledger, tick. run_m.
  pose proof (wait_told (clock (hw_tick w) 0) id (others (hw_tick w)) (hw_ledger w) (Ho _) Hi)
    as (o & s1 & E & Hi1 & Ht).
  pose proof (wait_step (clock (hw_tick w) 0) id (others (hw_tick w)) (Ho _) (hw_ledger w)) as Hs.
  rewrite E in *. simpl in Hs. destruct o as [r|]; simpl.
  - intros [= <- <-]. simpl. split; [done|]. destruct Ht as (row & Hrow & _ & Hst & _). eauto.
  - set (n := S (hw_tick w)).
    pose proof (cancel_step (clock n 0) (clock n 1) id (Some "vigil-hook-timeout") s1) as Hc.
    destruct (cancel (clock n 0) (clock n 1) id (Some "vigil-hook-timeout") s1) as [[r|e] s2] eqn:Ec;
      simpl; [|done].
    intros [= <- <-]. simpl in *. split; [split; [by etransitivity|done]|].
    destruct Hid as [row0 Hrow0]. destruct Hs as (_ & Hev & _). specialize (Hev id).
    rewrite Hrow0 in Hev. destruct (approvals s1 !! id) as [row1|] eqn:Hrow1; [|done].
    pose proof (Ht row1 eq_refl) as Hp.
    pose proof (resolve_pending (clock n 0) (clock n 1) id ApprovalStatus.Cancelled None
      (Some "vigil-hook-timeout") s1 row1 Hrow1 Hp) as Hr.
    unfold cancel in Ec. rewrite Ec in Hr. cbn zeta in Hr.
    destruct (row_request _ _); [|done].
    destruct (record_approval_resolved _ _ _ _) as [[ev|e] s3] eqn:Es; [|done].
    injection Hr as -> ->. simpl.
    pose proof Hc as (_ & Hev2 & _). specialize (Hev2 id). rewrite Hrow1 in Hev2. simpl in Hev2.
    assert (approvals s3 = <[id := resolved_row (clock n 0) ApprovalStatus.Cancelled None
      (Some "vigil-hook-timeout") row1]> (approvals s1)) as Ea.
    { unfold record_approval_resolved in Es.
      revert Es. append_cases err ev' l m f Hlog; [done|]. by intros [= <- <-]. }
    rewrite Ea, lookup_insert_eq. eauto.
Qed.

Lemma evolved_lookup (w w' : World St) id row :
  on_queue w w' → approvals (hw_ledger w) !! id = Some row →
  ∃ row', approvals (hw_ledger w') !! id = Some row' ∧
    a_args_hash row' = a_args_hash row ∧ a_tool_name row' = a_tool_name row ∧
    (a_status row ≠ "Pending" → a_status row' = a_status row).
Proof.
  intros [(_ & Hev & _) _] Hrow. specialize (Hev id). rewrite Hrow in Hev.
  destruct (approvals (hw_ledger w') !! id) as [row'|]; [|done]. exists row'. split; [done|].
  destruct Hev as [->|(Hp & st & n & b & sc & _ & ->)]; naive_solver.
Qed.

Lemma evolved_missing (w w' : World St) id :
  on_queue w w' → approvals (hw_ledger w') !! id = None → approvals (hw_ledger w) !! id = None.
Proof.
  intros Hq Hn. destruct (approvals (hw_ledger w) !! id) as [row|] eqn:Hrow; [|done].
  destruct (evolved_lookup w w' id row Hq Hrow) as (row' & ? & _). congruence.
Qed.

Lemma await_verdict_queue {R} id :
  others_step → preserves on_queue (await_verdict id : HookM St R _).
Proof.
  intros Ho. unfold await_verdict. apply preserves_bind; [apply _|auto with vigil|]. intros n.
  apply preserves_bind; [apply _|by apply on_ledger_queue, wait_step|].
  intros [[r|]|e]; [preserve| |preserve].
  apply preserves_bind; [apply _|auto with vigil|]. intros n'.
  apply preserves_bind; [apply _|auto with vigil|]. intros [r|e]; preserve.
Qed.

Lemma audit_coapproval_queue args sid disp id hash p resolver outcome :
  preserves on_queue (audit_coapproval args sid disp id hash p resolver outcome : HookM St _ _).
Proof.
  unfold audit_coapproval. apply preserves_bind; [apply _|auto with vigil|]. intros n.
  apply preserves_bind; [apply _|auto with vigil|]. preserve.
Qed.

Lemma co_approve_queue args input disp serialized profile copy :
  others_step → preserves on_queue (co_approve args input disp serialized profile copy : HookM St _ _).
Proof.
  intros Ho. pose proof (λ id, await_verdict_queue (R := HookOutcome) id Ho) as Hw.
  pose proof audit_coapproval_queue as Ha.
  unfold co_approve. destruct (ha_ledger_path args); [|preserve].
  repeat (intros; first
    [ apply Ha | apply Hw
    | progress auto with vigil nocore typeclass_instances
    | apply preserves_bind; [apply _| |]
    | match goal with
      | |- preserves _ (match ?x with _ => _ end) => destruct x
      end ]).
Qed.

(** What a confirmation can end with. *)
Lemma co_approve_outcome args input disp serialized profile copy (w w' : World St) r :
  others_step → approvals_inv (hw_ledger w) →
  co_approve args input disp serialized profile copy w = (r, w') →
  (returned r = HookOutcome.Allow ∧ approved_now disp serialized w w') ∨
  returned r = HookOutcome.Deny (co_denied_reason disp) ∨
  returned r = HookOutcome.Ask (cc_ask_reason copy).
Proof.
  intros Ho Hi. unfold co_approve. destruct (ha_ledger_path args); [|intros [= <- _]; auto].
  intros Hm. next Hm opened w1 E1. apply (preserves_run on_queue) in E1; [|auto with vigil].
  destruct opened; [|injection Hm as <- _; auto]. cbn [negb] in Hm.
  next Hm sid w2 E2. apply (preserves_run on_queue) in E2; [|auto with vigil].
  destruct sid as [sid|e]; [|injection Hm as <- _; auto].
  next Hm n w3 E3. apply (preserves_run on_queue) in E3; [|auto with vigil].
  next Hm swept w4 E4. apply (preserves_run on_queue) in E4; [|auto with vigil].
  cbn zeta in Hm. next Hm n1 w5 E5. apply (preserves_run on_queue) in E5; [|auto with vigil].
  next Hm n2 w6 E6. apply (preserves_run on_queue) in E6; [|auto with vigil].
  next Hm n3 w7 E7. apply (preserves_run on_queue) in E7; [|auto with vigil].
  next Hm approval w8 E8.
  assert (on_queue w w7) as Q7 by (repeat (etransitivity; [eassumption|]); reflexivity).
  clear E1 E2 E3 E4 E5 E6 E7.
  pose proof E8 as Q8. apply (preserves_run on_queue) in Q8; [|auto with vigil].
  destruct approval as [req|e]; [|injection Hm as <- _; auto].
  unfold on_ledger in E8. destruct (create_approval _ _ _ _ _ _ _ _ _ _ _) as [rc l8] eqn:Ec.
  injection E8 as -> <-. apply create_approval_row in Ec as (Hid & Hnone & row & Hrow & Hp & Hh & Ht).
  rewrite Hid in Hm. set (id := fresh_id n3) in *. clearbody id.
  next Hm status w9 E9. set (w8 := mkWorld l8 _ _ _) in *.
  assert (approvals_inv (hw_ledger w8)) as Hi8.
  { destruct Q7 as [(_ & _ & Hk7) _], Q8 as [(_ & _ & Hk8) _]. by apply Hk8, Hk7. }
  pose proof E9 as Q9. apply (preserves_run on_queue) in Q9; [|by apply await_verdict_queue].
  destruct (co_approval_verdict <$> status) as [[]|] eqn:Ev;
    next Hm u w10 E10; injection Hm as <- <-; auto.
  left. split; [done|]. destruct status as [[]|]; try done.
  apply (preserves_run on_queue) in E10; [|apply audit_coapproval_queue].
  destruct (await_verdict_told id w8 w9 ApprovalStatus.Approved Ho Hi8 (ex_intro _ _ Hrow) E9)
    as (_ & row9 & Hrow9 & Hst9).
  destruct (evolved_lookup w8 w9 id row Q9 Hrow) as (row9' & E & Hh9 & Ht9 & _).
  rewrite Hrow9 in E. injection E as <-.
  destruct (evolved_lookup w9 w10 id row9 E10 Hrow9) as (row10 & Hrow10 & Hh10 & Ht10 & Hst10).
  exists id, row10. split_and!; [by eapply evolved_missing|done| | |].
  - rewrite Hst10; by rewrite Hst9.
  - by rewrite Ht10, Ht9, Ht.
  - by rewrite Hh10, Hh9, Hh.
Qed.
End CoApproval.

(** ** Tool inputs *)

Section Guarding.
Context `{Host} `{Document PostureFileV1} `{Document DaemonInfo} `{CratesLaws} `{Regexes} `{Base64}
  `{TextCrates} `{Codec Hello} `{Codec Request} `{Codec Response} `{Surroundings} {St : Type}
  `{SecretStore St}.

Lemma expose_in_session_total {R} args inj sid tool l :
  total (expose_in_session args inj sid tool l : HookM St R _).
Proof. unfold expose_in_session. totally. Qed.

Lemma load_effective_posture_total {R} args sid :
  total (load_effective_posture args sid : HookM St R _).
Proof. unfold load_effective_posture, load_base_posture, read_session_risk. totally. Qed.
#[local] Hint Resolve expose_in_session_total load_effective_posture_total : vigil.

(** The event that standard input holds, if it can be read. *)
Definition hook_input (stdin : Stdin) : option Value :=
  let '(buf, read) := read_limited stdin in
  if negb read || (MAX_HOOK_INPUT_BYTES <? Z.of_nat (String.length buf))%Z then None
  else json_from_str buf.

(** It has no name, or that of the event before a tool runs. *)
Definition is_tool_event (args : HookArgs) (raw : Value) : Prop :=
  default "PreToolUse" (normalize_event_name (ha_cli args) <$> extract_str raw EVENT_KEYS) = "PreToolUse".

Lemma run_tool_event args stdin raw (w : World St) :
  hook_input stdin = Some raw → is_tool_event args raw → run args stdin w = guard_event args raw w.
Proof.
  unfold hook_input, run, is_tool_event. destruct (read_limited stdin) as [buf []]; [|done]. simpl.
  destruct (Z.ltb _ _); [done|]. intros -> He.
  destruct (normalize_event_name (ha_cli args) <$> extract_str raw EVENT_KEYS); [|done].
  simpl in He. by subst.
Qed.

Lemma injection_aside args input disp serialized (w w' : World St) r :
  try_boundary_injection args input disp serialized w = (r, w') → returned r = None → w' = w.
Proof.
  unfold try_boundary_injection. destruct (ha_injection args) as [inj|]; [|by intros [= <- <-]].
  destruct (_ || _); [by intros [= <- <-]|].
  destruct (mbind _ _) as [command|]; [|by intros [= <- <-]].
  destruct (scan_secret_aliases command) as [|t ts]; [by intros [= <- <-]|].
  destruct (List.find _ _).
  - intros Hm Hr. unfold audit_deny in Hm. next Hm u w1 E. by injection Hm as <- _.
  - intros Hm Hr. next Hm out w1 E. destruct out as [[sid resolved]|]; [|by injection Hm as <- _].
    destruct (rewrite_command _ _ _ _ _); [|by injection Hm as <- _].
    destruct (as_object _); [|by injection Hm as <- _].
    next Hm n w2 E2. next Hm u w3 E3. by injection Hm as <- _.
Qed.

(** What lets a native tool run: nothing was found, or the posture is the lowest, or
    it was approved. *)
Definition native_input_cleared (args : HookArgs) (input : NormalizedEvent) (w w' : World St) : Prop :=
  let serialized := json_to_string (ne_tool_input input) in
  let approved := approved_now (safe_tool_name (ne_tool_name input)) serialized w w' in
  match native_risk input with
  | Some risk => tier risk = GuardTier.Dangerous ∧ approved
  | None =>
      has_placeholder serialized = false ∨ approved ∨
      ∃ w1, (load_effective_posture args (ne_session_id input) : HookM St HookOutcome _) w
              = (Ok PostureProfile.Low, w1)
  end.

Lemma load_effective_posture_queue {R} args sid :
  preserves on_queue (load_effective_posture args sid : HookM St R _).
Proof.
  assert (∀ sid, preserves approval_step (get_session_risk sid)) as Hg
    by (intros; unfold get_session_risk; preserve).
  unfold load_effective_posture. apply preserves_bind; [apply _| |].
  - unfold load_base_posture. cbn zeta.
    assert (∀ p, preserves on_queue (on_disk (load_posture p) : HookM St R _)) by auto with vigil.
    destruct (ha_posture_path args), default_posture_path;
      first [by preserve|apply preserves_bind; [apply _|done|]; preserve].
  - intros base. apply preserves_bind; [apply _| |preserve].
    unfold read_session_risk. preserve.
Qed.

Lemma approved_earlier disp serialized (w0 w w' : World St) :
  on_queue w0 w → approved_now disp serialized w w' → approved_now disp serialized w0 w'.
Proof.
  intros Hq (id & row & Hn & Hrest). exists id, row. split; [by eapply evolved_missing|done].
Qed.

Lemma decide_dangerous_asks p : decide p RiskClass.DangerousCommand ≠ PostureAction.Allow.
Proof. by destruct p. Qed.

Lemma command_risk_outcome {R} risk args input disp serialized (w w' : World St) o :
  others_step → approvals_inv (hw_ledger w) →
  (decide_command_risk risk args input disp serialized : HookM St R _) w = (Ok o, w') →
  match tier risk with
  | GuardTier.Catastrophic =>
      o = Some (HookOutcome.Deny (command_reason disp (cr_detail risk) PostureProfile.Low))
  | GuardTier.Dangerous =>
      ∃ o', o = Some o' ∧ (o' = HookOutcome.Allow → approved_now disp serialized w w') ∧
        (∀ v note, o' ≠ HookOutcome.Inject v note)
  end.
Proof.
  intros Ho Hi. unfold decide_command_risk. destruct (tier risk); cbn [risk_class].
  - unfold bind at 1, ret at 1. cbn [decide]. intros Hm. unfold audit_deny in Hm.
    next Hm u w1 E. by injection Hm as <- _.
  - intros Hm. next Hm p w1 E1. apply (preserves_run on_queue) in E1; [|by apply load_effective_posture_queue].
    assert (approvals_inv (hw_ledger w1)) as Hi1 by (destruct E1 as [(_ & _ & Hk) _]; by apply Hk).
    destruct (decide p RiskClass.DangerousCommand) eqn:Ed; [by apply decide_dangerous_asks in Ed| |].
    + unfold co_approve_command, call, bind in Hm.
      destruct (co_approve _ _ _ _ _ _ w1) as [r w2] eqn:Ec. injection Hm as <- <-.
      eexists. split; [done|].
      destruct (co_approve_outcome _ _ _ _ _ _ _ _ _ Ho Hi1 Ec) as [[-> Ha]|[->| ->]]; [|done|done].
      split; [|done]. intros _. by eapply approved_earlier.
    + unfold audit_deny in Hm. next Hm u w2 E. injection Hm as <- _. eexists. by split.
Qed.

Lemma injection_not_allow args input disp serialized (w w' : World St) r :
  try_boundary_injection args input disp serialized w = (r, w') →
  returned r ≠ Some HookOutcome.Allow.
Proof.
  unfold try_boundary_injection. destruct (ha_injection args) as [inj|]; [|by intros [= <- <-]].
  destruct (_ || _); [by intros [= <- <-]|].
  destruct (mbind _ _) as [command|]; [|by intros [= <- <-]].
  destruct (scan_secret_aliases command) as [|t ts]; [by intros [= <- <-]|].
  destruct (List.find _ _).
  - intros Hm. unfold audit_deny in Hm. next Hm u w1 E. by injection Hm as <- _.
  - intros Hm. next Hm out w1 E. destruct out as [[sid resolved]|]; [|by injection Hm as <- _].
    destruct (rewrite_command _ _ _ _ _) as [cmd|d] eqn:Er.
    + destruct (as_object _); [|by injection Hm as <- _].
      next Hm n w2 E2. next Hm u w3 E3. by injection Hm as <- _.
    + injection Hm as <- _. simpl. intros [= ->]. revert Er. generalize 0%nat. generalize (t :: ts).
      intros l; induction l as [|x l IH]; intros c; simpl; [done|].
      destruct (resolved !! at_alias x); [|done]. destruct (negb _); [done|].
      destruct (rewrite_command _ _ _ (at_end x) l) eqn:E2; [done|]. simpl. intros [= ->].
      by eapply IH.
Qed.

Lemma guard_allows args input (w w' : World St) r :
  others_step → approvals_inv (hw_ledger w) →
  guard_tool_input args input w = (r, w') → returned r = HookOutcome.Allow →
  detect_raw_secret_alias_aware (json_to_string (ne_tool_input input)) = None ∧
  (Str.starts_with "mcp__" (ne_tool_name input) = true ∨ native_input_cleared args input w w').
Proof.
  intros Ho Hi. unfold guard_tool_input, native_input_cleared. cbn zeta.
  set (serialized := json_to_string (ne_tool_input input)).
  set (disp := safe_tool_name (ne_tool_name input)).
  destruct (detect_raw_secret_alias_aware serialized).
  { intros Hm Hr. unfold audit_deny in Hm. next Hm u w1 E. by injection Hm as <- _. }
  destruct (Str.starts_with "mcp__" (ne_tool_name input)) eqn:Emcp; [by split; [|left]|].
  rewrite andb_true_r. intros Hm Hr. split; [done|]. right.
  destruct (native_risk input) as [risk|].
  - unfold bind at 1 2 in Hm.
    destruct (decide_command_risk risk args input disp serialized w) as [[o|o] w1] eqn:Ed.
    + pose proof (command_risk_outcome _ _ _ _ _ _ _ _ Ho Hi Ed) as Hout.
      destruct (tier risk); [by subst o; injection Hm as <- _|].
      destruct Hout as (o' & -> & Ha & _). injection Hm as <- <-. simpl in Hr. split; [done|by apply Ha].
    + exfalso. revert Ed. unfold decide_command_risk. destruct (risk_class _) as [rc kl].
      intros Hd. next Hd p w2 E2. destruct (decide p rc); [done| |].
      * by next Hd x w3 E3.
      * unfold audit_deny in Hd. by next Hd x w3 E3.
  - unfold bind at 1, ret at 1 in Hm. destruct (has_placeholder serialized); [|by left]. right.
    unfold call, bind at 1 in Hm.
    destruct (try_boundary_injection args input disp serialized w) as [ri w1] eqn:Ei.
    destruct (returned ri) as [decision|] eqn:Eri.
    { injection Hm as <- _. simpl in Hr. subst decision. by apply injection_not_allow in Ei. }
    apply injection_aside in Ei as ->; [|done].
    unfold decide_placeholder in Hm. next Hm eff w1 E1.
    destruct (decide eff RiskClass.PlaceholderNative) eqn:Ed.
    + right. exists w1. rewrite E1. by destruct eff.
    + left. pose proof E1 as Q. apply (preserves_run on_queue) in Q; [|by apply load_effective_posture_queue].
      assert (approvals_inv (hw_ledger w1)) as Hi1 by (destruct Q as [(_ & _ & Hk) _]; by apply Hk).
      destruct (co_approve_outcome _ _ _ _ _ _ _ _ _ Ho Hi1 Hm) as [[_ Ha]|[E|E]];
        [by eapply approved_earlier|congruence|congruence].
    + unfold audit_deny in Hm. next Hm u w2 E2. by injection Hm as <- _.
Qed.

(** C4. What [Allow] means. When the hook lets a tool run on an input it could read,
    the text of the input holds no credential outside the aliases, and, unless the
    tool is one of the gateway's own, one of three things is so: no command in it is
    dangerous and it has no placeholder; it has a placeholder, and the posture in effect
    is the lowest; or another process has approved, in this very call, a request made
    in it for this tool and the digest of this input. A catastrophic command is never
    let through, approved or not. *)
Theorem allowed_input_was_checked args stdin raw input (w w' : World St) r :
  others_step → approvals_inv (hw_ledger w) →
  hook_input stdin = Some raw → is_tool_event args raw →
  normalize_event raw (ha_cli args) = Ok input →
  run args stdin w = (r, w') → returned r = HookOutcome.Allow →
  detect_raw_secret_alias_aware (json_to_string (ne_tool_input input)) = None ∧
  (Str.starts_with "mcp__" (ne_tool_name input) = true ∨ native_input_cleared args input w w').
Proof.
  intros Ho Hi Hin Hev Hn. rewrite (run_tool_event args stdin raw w Hin Hev).
  unfold guard_event. rewrite Hn. by apply guard_allows.
Qed.

(** C5. What is denied whatever the settings. A credential in the input of any tool is
    denied, and so is a catastrophic command of a native one: no posture, no approval,
    no failure of the ledger or of a file, no configuration of the hook changes the
    answer, and the message has the name of the rule, not the credential. *)
Theorem secrets_and_catastrophes_are_denied args stdin raw input (w w' : World St) r :
  hook_input stdin = Some raw → is_tool_event args raw →
  normalize_event raw (ha_cli args) = Ok input →
  run args stdin w = (r, w') →
  let disp := safe_tool_name (ne_tool_name input) in
  match detect_raw_secret_alias_aware (json_to_string (ne_tool_input input)), native_risk input with
  | Some kind, _ => returned r = HookOutcome.Deny (raw_secret_reason disp kind)
  | None, Some risk =>
      tier risk = GuardTier.Catastrophic → Str.starts_with "mcp__" (ne_tool_name input) = false →
      returned r = HookOutcome.Deny (command_reason disp (cr_detail risk) PostureProfile.Low)
  | None, None => True
  end.
Proof.
  intros Hin Hev Hn. rewrite (run_tool_event args stdin raw w Hin Hev).
  unfold guard_event. rewrite Hn. unfold guard_tool_input. cbn zeta.
  destruct (detect_raw_secret_alias_aware _) as [kind|].
  { intros Hm. unfold audit_deny in Hm. next Hm u w1 E. by injection Hm as <- _. }
  destruct (native_risk input) as [risk|]; [|done]. intros Hm Ht Hmcp. rewrite Hmcp in Hm.
  unfold bind at 1 2, decide_command_risk in Hm. rewrite Ht in Hm. cbn [risk_class] in Hm.
  unfold bind at 1, ret at 1 in Hm. cbn [decide] in Hm. unfold audit_deny in Hm.
  unfold bind at 1 in Hm.
  match type of Hm with context [audit_event ?a ?b ?c ?d ?e ?f ?w0] =>
    destruct (audit_event_total (R := HookOutcome) (St := St) a b c d e f w0) as (u & w1 & E)
  end.
  rewrite E in Hm. by injection Hm as <- _.
Qed.

(** What a blocking answer is, for an event of each name. *)
Definition unreadable_answer (args : HookArgs) (name : option string) (reason : string) : HookOutcome :=
  match name with
  | Some "PostToolUse" =>
      if result_redaction_active args then HookOutcome.RedactOutput (JStr (unparsed_note reason)) reason
      else HookOutcome.Allow
  | Some "UserPromptSubmit" => HookOutcome.DenyPrompt reason
  | _ => HookOutcome.Deny reason
  end.

Lemma fail_closed_answer args buf reason :
  fail_closed_unparsed args buf reason =
  unreadable_answer args (normalize_event_name (ha_cli args) <$> peek_event_name buf) reason.
Proof.
  unfold fail_closed_unparsed, unreadable_answer.
  destruct (normalize_event_name (ha_cli args) <$> peek_event_name buf) as [ev|]; [|done].
  destruct (String.eqb_spec ev "PostToolUse") as [->|]; [done|].
  destruct (String.eqb_spec ev "UserPromptSubmit") as [->|]; [done|].
  repeat case_match; done || congruence.
Qed.


(** ** Values from the store *)

Lemma expose_secret_spec rd at_ req ctx (b b' : BrokerState St) r :
  expose_secret rd at_ req ctx b = (r, b') →
  br_store b' = br_store b ∧ (br_cache b = ∅ → br_cache b' = ∅) ∧
  ∀ v, r = Ok v → store_get (mr_secret_ref req) (br_store b) = Ok v.
Proof.
  unfold expose_secret. unfold bind at 1.
  destruct (store_get (mr_secret_ref req) (br_store b)) as [v|e] eqn:Hv.
  - pose proof (mint_ok rd req b v Hv) as Hm. destruct (mint_lease rd req b) as [rm b1].
    destruct Hm as (-> & Hs1 & Hc1). unfold bind at 1, attempt.
    pose proof (resolve_ok (lr_now_resolve rd) (lr_now_misuse rd) (lease_id (lease_for rd req)) ctx b1) as Hok.
    pose proof (resolve_table (lr_now_resolve rd) (lr_now_misuse rd) (lease_id (lease_for rd req)) ctx b1) as Htab.
    pose proof (resolve_store (lr_now_resolve rd) (lr_now_misuse rd) (lease_id (lease_for rd req)) ctx b1) as Hs2.
    destruct (resolve_value _ _ _ ctx b1) as [rv b2]. unfold bind, ignore, lift. cbn [fst snd] in *.
    pose proof (revoke_table at_ (lease_id (lease_for rd req)) b2) as [Hc3 Hs3].
    destruct (revoke_lease at_ (lease_id (lease_for rd req)) b2) as [rr b3]. cbn [snd] in *.
    intros [= <- <-]. split; [congruence|]. split.
    + intros He. rewrite Hc3. apply map_eq. intros k. rewrite lookup_empty.
      change (lease_id (lease_for rd req)) with (lr_id rd) in *.
      destruct (String.eqb_spec (lr_id rd) k) as [<-|Hk]; [by rewrite lookup_delete_eq|].
      rewrite lookup_delete_ne by done. rewrite Htab, Hc1, He.
      by rewrite lookup_insert_ne by done.
    + intros v' ->. destruct (proj1 (Hok v') eq_refl) as (c & Hc & _ & _ & <-).
      rewrite Hc1 in Hc. change (lease_id (lease_for rd req)) with (lr_id rd) in Hc.
      rewrite lookup_insert_eq in Hc. by injection Hc as <-.
  - pose proof (mint_err rd req b e Hv) as Hm. destruct (mint_lease rd req b) as [rm b1].
    destruct Hm as (-> & Hs1 & Hc1). intros [= <- <-]. by rewrite Hc1.
Qed.

(** Whatever is exposed is what the store has for the declared reference, and no lease
    is left. *)
Lemma expose_aliases_spec rds at_ inj sid tool l : ∀ i resolved (b b' : BrokerState St) resolved',
  expose_aliases rds at_ inj sid tool i l resolved b = (Ok resolved', b') →
  br_store b' = br_store b ∧ (br_cache b = ∅ → br_cache b' = ∅) ∧
  (∀ a v, resolved' !! a = Some v →
     (∃ ref, (a, Some ref) ∈ l ∧ store_get ref (br_store b) = Ok v) ∨ resolved !! a = Some v) ∧
  (∀ a, a ∈ l.*1 ∨ is_Some (resolved !! a) → is_Some (resolved' !! a)).
Proof.
  induction l as [|[a [ref|]] l IH]; intros i resolved b b' resolved'; [|simpl|done].
  { intros [= <- <-]. split_and!; try done; [by right|]. by intros a [?%elem_of_nil|]. }
  unfold bind. destruct (expose_secret _ _ _ _ b) as [[v|e] b1] eqn:E1; [|done].
  apply expose_secret_spec in E1 as (Hs1 & Hc1 & Hv). specialize (Hv v eq_refl).
  intros Hl. apply IH in Hl as (Hs2 & Hc2 & Hin & Hdom). rewrite Hs1 in Hs2, Hin.
  split; [done|]. split; [by auto|]. split.
  - intros a' v' Hr. destruct (Hin a' v' Hr) as [(ref' & Hl & Hg)|Hr'].
    + left. exists ref'. split; [by right|done].
    + destruct (base.decide (a = a')) as [<-|Hne].
      * rewrite lookup_insert_eq in Hr'. injection Hr' as <-. left. exists ref. split; [by left|done].
      * rewrite lookup_insert_ne in Hr' by done. by right.
  - intros a' Ha. apply Hdom. destruct (base.decide (a = a')) as [<-|Hne].
    + right. by rewrite lookup_insert_eq.
    + rewrite lookup_insert_ne by done. destruct Ha as [Ha|Ha]; [|by right].
      left. by apply elem_of_cons in Ha as [?|?].
Qed.

Lemma expose_in_session_spec {R} args inj session tool l (w w' : World St) sid resolved :
  (expose_in_session args inj session tool l : HookM St R _) w = (Ok (Some (sid, resolved)), w') →
  hw_store w' = hw_store w ∧
  (∀ a v, resolved !! a = Some v → ∃ ref, (a, Some ref) ∈ l ∧ store_get ref (hw_store w) = Ok v) ∧
  (∀ a, a ∈ l.*1 → is_Some (resolved !! a)).
Proof.
  unfold expose_in_session. destruct (ha_ledger_path args); [|done]. intros Hm.
  next Hm opened w1 E1. apply (preserves_run on_queue) in E1 as [_ Hs1]; [|auto with vigil].
  destruct opened; [|done]. cbn [negb] in Hm.
  next Hm sess w2 E2. apply (preserves_run on_queue) in E2 as [_ Hs2]; [|auto with vigil].
  destruct sess as [sess|]; [|done].
  next Hm n w3 E3. apply (preserves_run on_queue) in E3 as [_ Hs3]; [|auto with vigil].
  next Hm out w4 E4. unfold with_broker in E4.
  destruct (expose_aliases _ _ _ _ _ _ _ _ _) as [rr b] eqn:E. injection E4 as <- <-.
  injection Hm as Hr <-. destruct rr as [values|]; [|done]. injection Hr as <- <-.
  apply expose_aliases_spec in E as (Hs & _ & Hin & Hdom). simpl in *.
  assert (hw_store w3 = hw_store w) as Ew by congruence. rewrite Ew in Hs, Hin.
  split; [done|]. split.
  - intros a v Hv. by destruct (Hin a v Hv) as [?|?%lookup_empty_Some].
  - intros a Ha. apply Hdom. by left.
Qed.

(** The value of an alias, for a text in which every alias has one. *)
Definition value_of (resolved : gmap string string) (a : string) : string :=
  default "" (resolved !! a).

Lemma rewrite_command_spec resolved disp command tokens : ∀ cursor out,
  rewrite_command resolved disp command cursor tokens = Ok out →
  out = assembled (value_of resolved) cursor (token_hole <$> tokens) command ∧
  ∀ t, t ∈ tokens → resolved !! at_alias t = Some (value_of resolved (at_alias t)) ∧
    is_shell_safe_secret (value_of resolved (at_alias t)) = true.
Proof.
  induction tokens as [|t tokens IH]; intros cursor out; cbn [rewrite_command fmap list_fmap assembled].
  { intros [= <-]. split; [done|]. by intros t ?%elem_of_nil. }
  destruct (resolved !! at_alias t) as [v|] eqn:Hv; [|done].
  destruct (is_shell_safe_secret v) eqn:Hs; [|done]. cbn [negb].
  destruct (rewrite_command _ _ _ (at_end t) tokens) as [after|] eqn:Er; [|done].
  assert (value_of resolved (at_alias t) = v) as Ev by (unfold value_of; by rewrite Hv).
  intros [= <-]. destruct (IH _ _ Er) as [-> Hrest]. cbn [h_start h_end h_kind token_hole].
  rewrite Ev. split; [done|]. intros t' [->|Ht']%elem_of_cons; [|by apply Hrest]. by rewrite Ev.
Qed.

Lemma injection_outcome args input disp serialized (w w' : World St) r v note :
  try_boundary_injection args input disp serialized w = (r, w') →
  returned r = Some (HookOutcome.Inject v note) →
  ∃ inj command obj value,
    ha_injection args = Some inj ∧ ic_enabled inj = true ∧ ha_cli args = CliKind.Claude ∧
    is_execution_boundary_tool (ne_tool_name input) = true ∧
    ne_tool_input input = JObj obj ∧ assoc_get "command" obj = Some (JStr command) ∧
    scan_secret_aliases command ≠ [] ∧
    v = JObj (map_insert "command"
          (JStr (assembled value 0 (token_hole <$> scan_secret_aliases command) command)) obj) ∧
    (∀ t, t ∈ scan_secret_aliases command →
       ∃ ref, ic_secrets inj !! at_alias t = Some ref ∧
         store_get ref (hw_store w) = Ok (value (at_alias t)) ∧
         is_shell_safe_secret (value (at_alias t)) = true) ∧
    hw_store w' = hw_store w.
Proof.
  unfold try_boundary_injection. destruct (ha_injection args) as [inj|]; [|by intros [= <- <-]].
  destruct (ic_enabled inj) eqn:Hen; [|by intros [= <- <-]].
  destruct (cli_supports_updated_input (ha_cli args)) eqn:Hcli; [|by intros [= <- <-]].
  destruct (is_execution_boundary_tool (ne_tool_name input)) eqn:Htool; [|by intros [= <- <-]].
  cbn [negb orb]. destruct (ne_tool_input input) as [| | | | | |obj] eqn:Hin;
    cbn [json_get mbind option_bind]; try by intros [= <- <-].
  destruct (assoc_get "command" obj) as [cv|] eqn:Hc; [|by intros [= <- <-]].
  cbn [mbind option_bind]. destruct cv as [| | | |command| |]; cbn [as_str]; try by intros [= <- <-].
  destruct (scan_secret_aliases command) as [|t0 ts] eqn:Hts; [by intros [= <- <-]|].
  rewrite <- Hts. assert (scan_secret_aliases command ≠ []) as Hne by (by rewrite Hts). clear Hts t0 ts.
  destruct (List.find _ _) as [a|] eqn:Hf.
  { intros Hm. unfold audit_deny in Hm. next Hm u w1 E. by injection Hm as <- _. }
  intros Hm Hr. next Hm out w1 E. destruct out as [[sid resolved]|]; [|injection Hm as <- _; done].
  destruct (rewrite_command _ _ _ _ _) as [cmd|d] eqn:Er.
  2:{ exfalso. injection Hm as <- _. simpl in Hr. injection Hr as ->. revert Er.
      generalize 0%nat. generalize (scan_secret_aliases command).
      intros l; induction l as [|x l IH]; intros c; simpl; [done|].
      destruct (resolved !! at_alias x); [|done]. destruct (negb _); [done|].
      destruct (rewrite_command _ _ _ (at_end x) l) eqn:E2; [done|]. simpl. intros [= ->].
      by eapply IH. }
  cbn [as_object] in Hm. next Hm n w2 E2. next Hm u w3 E3.
  injection Hm as <- <-. simpl in Hr. injection Hr as <- _.
  apply (preserves_run on_queue) in E2 as [_ Hs2]; [|auto with vigil].
  apply (preserves_run on_queue) in E3 as [_ Hs3]; [|auto with vigil].
  apply expose_in_session_spec in E as (Hs1 & Hval & _).
  apply rewrite_command_spec in Er as [-> Hsafe].
  exists inj, command, obj, (value_of resolved). split_and!; try done.
  - unfold cli_supports_updated_input in Hcli. by apply bool_decide_eq_true in Hcli.
  - intros t Ht. destruct (Hsafe t Ht) as [Hv Hs]. destruct (Hval _ _ Hv) as (ref & Hl & Hg).
    exists ref. split; [|done]. apply list_elem_of_fmap in Hl as (a & [= -> Ha] & _). done.
  - congruence.
Qed.

(** A confirmation never injects. *)
Definition no_injection (o : HookOutcome) : Prop := ∀ v note, o ≠ HookOutcome.Inject v note.

Lemma co_approve_no_injection args input disp serialized profile copy (w w' : World St) r :
  co_approve args input disp serialized profile copy w = (r, w') → no_injection (returned r).
Proof.
  unfold co_approve. destruct (ha_ledger_path args); [|by intros [= <- _]]. intros Hm.
  next Hm opened w1 E1. destruct opened; [|by injection Hm as <- _]. cbn [negb] in Hm.
  next Hm sid w2 E2. destruct sid as [sid|e]; [|by injection Hm as <- _].
  next Hm n w3 E3. next Hm swept w4 E4. cbn zeta in Hm. next Hm n1 w5 E5. next Hm n2 w6 E6.
  next Hm n3 w7 E7. next Hm approval w8 E8. destruct approval as [req|e]; [|by injection Hm as <- _].
  next Hm status w9 E9.
  destruct (co_approval_verdict <$> status) as [[]|]; next Hm u w10 E10; by injection Hm as <- _.
Qed.

Lemma command_risk_no_injection risk args input disp serialized (w w' : World St) o :
  (decide_command_risk risk args input disp serialized : HookM St HookOutcome _) w = (o, w') →
  ∃ o', o = Ok (Some o') ∧ no_injection o'.
Proof.
  unfold decide_command_risk. destruct (risk_class (tier risk)) as [rc kl] eqn:Erc. intros Hm.
  assert (∀ p, decide p rc ≠ PostureAction.Allow) as Hd.
  { intros p. destruct (tier risk); injection Erc as <- _; by destruct p. }
  next Hm p w1 E1. destruct (decide p rc) eqn:Ed; [by apply Hd in Ed| |].
  - unfold co_approve_command, call, bind in Hm.
    destruct (co_approve _ _ _ _ _ _ w1) as [r w2] eqn:Ec. injection Hm as <- <-.
    apply co_approve_no_injection in Ec. eauto.
  - unfold audit_deny in Hm. next Hm u w2 E. injection Hm as <- _. by eexists.
Qed.

(** C6. What the hook injects. An answer that rewrites the input of a tool is one for a
    command line that takes it, with injection switched on, of a tool that runs commands,
    on an input without raw credentials and without a dangerous command. The new command
    is the old one with each alias replaced, in place, by the value the store has for the
    reference it is declared with; each value is made of characters no shell gives a
    meaning to; everything else in the input is as it was, and so is the store. *)
Theorem injection_is_in_place args stdin raw input (w w' : World St) r v note :
  hook_input stdin = Some raw → is_tool_event args raw →
  normalize_event raw (ha_cli args) = Ok input →
  run args stdin w = (r, w') → returned r = HookOutcome.Inject v note →
  ha_cli args = CliKind.Claude ∧ is_execution_boundary_tool (ne_tool_name input) = true ∧
  detect_raw_secret_alias_aware (json_to_string (ne_tool_input input)) = None ∧
  native_risk input = None ∧
  ∃ inj command obj value,
    ha_injection args = Some inj ∧ ic_enabled inj = true ∧
    ne_tool_input input = JObj obj ∧ assoc_get "command" obj = Some (JStr command) ∧
    v = JObj (map_insert "command"
          (JStr (assembled value 0 (token_hole <$> scan_secret_aliases command) command)) obj) ∧
    (∀ t, t ∈ scan_secret_aliases command →
       ∃ ref, ic_secrets inj !! at_alias t = Some ref ∧
         store_get ref (hw_store w) = Ok (value (at_alias t)) ∧
         is_shell_safe_secret (value (at_alias t)) = true) ∧
    hw_store w' = hw_store w.
Proof.
  intros Hin Hev Hn. rewrite (run_tool_event args stdin raw w Hin Hev).
  unfold guard_event. rewrite Hn. unfold guard_tool_input. cbn zeta.
  set (serialized := json_to_string (ne_tool_input input)).
  set (disp := safe_tool_name (ne_tool_name input)).
  destruct (detect_raw_secret_alias_aware serialized).
  { intros Hm Hr. unfold audit_deny in Hm. next Hm u w1 E. by injection Hm as <- _. }
  destruct (Str.starts_with "mcp__" (ne_tool_name input)).
  { rewrite andb_false_r. by intros [= <- _]. }
  rewrite andb_true_r. intros Hm Hr. destruct (native_risk input) as [risk|].
  { exfalso. unfold bind at 1 2 in Hm.
    destruct (decide_command_risk _ _ _ _ _ w) as [o w1] eqn:Ed.
    apply command_risk_no_injection in Ed as (o' & -> & Hno). injection Hm as <- _. by eapply Hno. }
  unfold bind at 1, ret at 1 in Hm. destruct (has_placeholder serialized); [|by injection Hm as <- _].
  unfold call, bind at 1 in Hm.
  destruct (try_boundary_injection args input disp serialized w) as [ri w1] eqn:Ei.
  destruct (returned ri) as [decision|] eqn:Eri.
  - injection Hm as <- <-. simpl in Hr. subst decision.
    apply (injection_outcome _ _ _ _ _ _ _ _ _ Ei) in Eri
      as (inj & command & obj & value & ? & ? & ? & ? & ? & ? & _ & ? & ? & ?).
    split_and!; try done. by exists inj, command, obj, value.
  - exfalso. unfold decide_placeholder in Hm. next Hm eff w2 E2.
    destruct (decide eff RiskClass.PlaceholderNative).
    + by injection Hm as <- _.
    + apply co_approve_no_injection in Hm. by eapply Hm.
    + unfold audit_deny in Hm. next Hm u w3 E3. by injection Hm as <- _.
Qed.
End Guarding.

(** ** Answers *)

(** What a command line does on an answer. *)
Inductive HostAction :=
| Proceeds
| ProceedsWith (input : Value)
| Blocked
| AsksUser
| ReplacesResult (output : Value).

Definition field (path : list string) (v : Value) : option Value :=
  foldl (λ o k, v ← o; json_get k v) (Some v) path.

Definition str_field (path : list string) (v : Value) : option string := v ← field path v; as_str v.

(** The contracts of the command lines, as the comments of [respond] have them: exit code
    2 blocks; Claude and Codex read [hookSpecificOutput], Codex and Gemini a decision at
    the top, Cursor a permission. [None]: not an answer the command line knows. *)
Definition host_reads (cli : CliKind) (exit_code : Z) (body : option Value) : option HostAction :=
  if (exit_code =? 2)%Z then Some Blocked
  else
    match cli, body with
    | CliKind.Cursor, None => None
    | _, None => Some Proceeds
    | CliKind.Claude, Some b =>
        match field ["hookSpecificOutput"; "updatedToolOutput"] b with
        | Some out => Some (ReplacesResult out)
        | None =>
            match str_field ["hookSpecificOutput"; "permissionDecision"] b with
            | Some "ask" => Some AsksUser
            | Some "deny" => Some Blocked
            | Some "allow" => ProceedsWith <$> field ["hookSpecificOutput"; "updatedInput"] b
            | _ => None
            end
        end
    | CliKind.Codex, Some b =>
        match str_field ["hookSpecificOutput"; "permissionDecision"] b, str_field ["decision"] b with
        | Some "deny", _ | None, Some "block" => Some Blocked
        | _, _ => None
        end
    | CliKind.Gemini, Some b =>
        match str_field ["decision"] b with
        | Some "deny" => Some Blocked
        | _ => None
        end
    | CliKind.Cursor, Some b =>
        match str_field ["permission"] b with
        | Some "allow" => Some Proceeds
        | Some "ask" => Some AsksUser
        | Some "deny" => Some Blocked
        | _ => None
        end
    end.

(** What an outcome is to bring about. *)
Definition intended (o : HookOutcome) (cli : CliKind) : HostAction :=
  match o, cli with
  | HookOutcome.Allow, _ => Proceeds
  | HookOutcome.Deny _, _ | HookOutcome.DenyPrompt _, _ => Blocked
  | HookOutcome.Ask _, (CliKind.Claude | CliKind.Cursor) => AsksUser
  | HookOutcome.Ask _, _ => Blocked
  | HookOutcome.Inject v _, CliKind.Claude => ProceedsWith v
  | HookOutcome.Inject _ _, _ => Blocked
  | HookOutcome.RedactOutput v _, CliKind.Claude => ReplacesResult v
  | HookOutcome.RedactOutput _ _, CliKind.Codex => Blocked
  | HookOutcome.RedactOutput _ _, _ => Proceeds
  end.

Lemma boundary_below_le text n : (boundary_below text n ≤ n)%nat.
Proof. induction n as [|n IH]; [done|]. cbn [boundary_below]. case_match; lia. Qed.

(** C9. Every answer is one its command line knows, and means what was decided. Read by
    the contract of the command line, the exit code and the body of [respond] let a tool
    proceed only on [Allow], or on a redacted result where results cannot be replaced;
    a denial, a denied prompt and a panic block everywhere; a question where nobody can
    be asked, and a rewritten input where it would not be taken, block as well. The
    redacted result in Codex's reason is at most 64 KiB and a notice. *)
Theorem answers_mean_the_decision `{Crates} o cli :
  (∃ body, hr_stdout (respond o cli) = json_to_string <$> body ∧
     host_reads cli (hr_exit_code (respond o cli)) body = Some (intended o cli)) ∧
  (∃ code resp body, exit_code_guarded cli None = (code, Some resp) ∧
     hr_stdout resp = json_to_string <$> body ∧ host_reads cli code body = Some Blocked) ∧
  ∀ v, (String.length (codex_result_text v) ≤ CODEX_BLOCK_REASON_MAX_BYTES + 35)%nat.
Proof.
  split_and!.
  - destruct o, cli; cbn [respond deny_response silent hr_stdout hr_exit_code];
      first [by exists None | by eexists (Some _)].
  - destruct cli; eexists _, _; cbn [exit_code_guarded respond deny_response hr_exit_code];
      [exists None|eexists (Some _)..]; by split_and!.
  - intros v. unfold codex_result_text. cbv zeta.
    set (text := match v with JStr s => s | other => json_to_string other end). clearbody text.
    destruct (Nat.ltb_spec CODEX_BLOCK_REASON_MAX_BYTES (String.length text)); [|lia].
    rewrite !Str.length_append. change (String.length newline_str) with 1%nat.
    change (String.length "[Vigil: redacted result truncated]") with 34%nat.
    assert (∀ n, (String.length (Str.take n text) ≤ n)%nat) as Ht.
    { intros n. generalize text. induction n as [|n IH]; intros [|a t]; simpl; [lia..|].
      specialize (IH t). lia. }
    specialize (Ht (boundary_below text CODEX_BLOCK_REASON_MAX_BYTES)).
    pose proof (boundary_below_le text CODEX_BLOCK_REASON_MAX_BYTES). lia.
Qed.

(** ** Witnesses *)

Import Toy ToyRules ToyHook.

Lemma toy_others_step : others_step.
Proof. intros n. constructor; [|constructor]. intros s. apply approve_step. Qed.

Lemma toy_queue_inv : approvals_inv (hw_ledger toy_world).
Proof. split; [apply map_Forall_empty|]. intros id r Hr. cbn in Hr. by apply lookup_empty_Some in Hr. Qed.

(** A write to a startup file, approved while the hook waits. *)
Lemma allowed_input_was_checked_witness :
  ∃ w', native_risk (mkNormalizedEvent None None "Write" bashrc_input) ≠ None ∧
    native_input_cleared toy_args (mkNormalizedEvent None None "Write" bashrc_input) toy_world w'.
Proof.
  destruct (run toy_args (tool_call "Write" bashrc_input) toy_world) as [r w'] eqn:E.
  exists w'. split; [by vm_compute|].
  destruct (allowed_input_was_checked toy_args (tool_call "Write" bashrc_input)
    (JObj [("tool_name", JStr "Write"); ("tool_input", bashrc_input)])
    (mkNormalizedEvent None None "Write" bashrc_input) toy_world w' r
    toy_others_step toy_queue_inv) as [_ [Hm|Hc]].
  - vm_compute. reflexivity.
  - vm_compute. reflexivity.
  - vm_compute. reflexivity.
  - exact E.
  - pose proof approved_write as Ha. rewrite E in Ha. exact Ha.
  - by vm_compute in Hm.
  - exact Hc.
Defined.

Lemma secrets_and_catastrophes_are_denied_witness :
  returned (run toy_args (tool_call "Bash" token_input) toy_world).1
    = HookOutcome.Deny (raw_secret_reason "Bash" "github_token").
Proof.
  destruct (run toy_args (tool_call "Bash" token_input) toy_world) as [r w'] eqn:E.
  pose proof (secrets_and_catastrophes_are_denied toy_args (tool_call "Bash" token_input)
    (JObj [("tool_name", JStr "Bash"); ("tool_input", token_input)])
    (mkNormalizedEvent None None "Bash" token_input) toy_world w' r) as Ht.
  replace (detect_raw_secret_alias_aware
    (json_to_string (ne_tool_input (mkNormalizedEvent None None "Bash" token_input))))
    with (Some "github_token") in Ht by (vm_compute; reflexivity).
  apply Ht; [vm_compute; reflexivity|vm_compute; reflexivity|vm_compute; reflexivity|exact E].
Defined.

Lemma injection_is_in_place_witness :
  ∃ command value, scan_secret_aliases command ≠ [] ∧
    assembled value 0 (token_hole <$> scan_secret_aliases command) command = "deploy s3cr3t now".
Proof.
  destruct injected_deploy as [note Hi].
  destruct (run toy_args (tool_call "Bash" deploy_input) toy_world) as [r w'] eqn:E.
  destruct (injection_is_in_place toy_args (tool_call "Bash" deploy_input)
    (JObj [("tool_name", JStr "Bash"); ("tool_input", deploy_input)])
    (mkNormalizedEvent None None "Bash" deploy_input) toy_world w' r
    (JObj [("command", JStr "deploy s3cr3t now"); ("x", JNum 1)]) note)
    as (_ & _ & _ & _ & inj & command & obj & value & _ & _ & Ho & Hc & Hv & _).
  - vm_compute. reflexivity.
  - vm_compute. reflexivity.
  - vm_compute. reflexivity.
  - exact E.
  - exact Hi.
  - injection Ho as <-. injection Hc as <-. exists "deploy secret://a now", value.
    split; [by vm_compute|]. cbn [map_insert String.eqb Ascii.eqb Bool.eqb] in Hv.
    symmetry.
    exact (f_equal (λ v, match v with JObj ((_, JStr s) :: _) => s | _ => "" end) Hv).
Defined.

