(* ===== verification/HookResultProps.v ===== *)
(** * What the hook makes of results

    No value of a declared secret is left in what is handed back of a command's
    result, a pass that changes nothing hands back the same, the loop around the
    placeholders ends, and how much risk a result adds to a session. *)

From Stdlib Require Import Sorting.Sorted.
From S2P Require Import Prelude Text Types Json Deps Db Hash Holes Ledger Approvals LedgerFacts.
From S2P Require Import ApprovalFacts Secrets Lease Wire Redact Ipc Rules HardRedact.
From S2P Require Import HardRedactProps Holes HardSpansProps Alias Files Posture Guard.
From S2P Require Import HookEvent Hook HookProps Concrete HookConcrete.

(** ** The loop around the placeholders *)

Section Loop.
Context `{Regexes} `{Base64}.

Lemma earliest_from buf ks best pos p :
  foldl (earlier_key buf) best ks = Some (pos, p) →
  best = Some (pos, p) ∨ p ∈ ks ∧ Str.find p buf = Some pos.
Proof.
  revert best; induction ks as [|k ks IH]; intros best; simpl; [by left|].
  intros [E|[Hp Hf]]%IH; [|right; by split; [right|]].
  unfold earlier_key in E. destruct (Str.find k buf) as [q|] eqn:Hk; [|by left].
  destruct best as [[b x]|].
  - destruct (q <? b)%nat; [|by left]. injection E as -> ->. right. by split; [left|].
  - injection E as -> ->. right. by split; [left|].
Qed.

Lemma earliest_found ps rest pos p :
  earliest_placeholder ps rest = Some (pos, p) → p ∈ ps ∧ Str.find p rest = Some pos.
Proof. intros [E|?]%earliest_from; [done|done]. Qed.

Lemma find_length p s pos : Str.find p s = Some pos → (pos + String.length p ≤ String.length s)%nat.
Proof.
  revert pos; induction s as [|a s IH]; intros pos; cbn [Str.find].
  - destruct (Str.starts_with p "") eqn:E; [|done]. intros [= <-].
    apply Str.starts_with_spec in E as [r E]. apply (f_equal String.length) in E.
    rewrite Str.length_append in E. simpl in *. lia.
  - destruct (Str.starts_with p (String a s)) eqn:E.
    + intros [= <-]. apply Str.starts_with_spec in E as [r E]. apply (f_equal String.length) in E.
      rewrite Str.length_append in E. simpl in *. lia.
    + destruct (Str.find p s) as [k|]; [|done]. intros [= <-]. specialize (IH k eq_refl). simpl. lia.
Qed.

Lemma scrub_loop_ends ps : Forall (λ p, p ≠ "") ps → ∀ fuel rest result spans report,
  (String.length rest < fuel)%nat → is_Some (scrub_loop fuel ps rest result spans report).
Proof.
  intros Hps. induction fuel as [|n IH]; intros rest result spans report Hn; [lia|].
  cbn [scrub_loop]. destruct (earliest_placeholder ps rest) as [[pos p]|] eqn:E.
  - apply earliest_found in E as [Hp Hf]. apply find_length in Hf.
    rewrite Forall_forall in Hps. specialize (Hps p Hp).
    destruct (scrub_one (Str.take pos rest) report) as [[scrubbed sub] report1]. cbv zeta.
    apply IH. rewrite Holes.length_drop. destruct p; [done|]. simpl in *. lia.
  - destruct (scrub_one rest report) as [[scrubbed sub] report1]. by eexists.
Qed.
End Loop.

(** ** The text around the placeholders *)

Section Around.
Context `{HardLaws} `{Base64}.

(** A segment as [scrub_one] leaves it. *)
Definition scrubbed_segment (seg : string) : string :=
  match Hard.scan_hard_findings seg with
  | [] => seg
  | _ => (Hard.scrub_text_with_spans seg).1
  end.

(** Segments, each followed by a placeholder, and the last segment. *)
Definition joined (l : list (string * string)) (last : string) : string :=
  foldr (λ sp rest, sp.1 +:+ sp.2 +:+ rest) last l.

(** One of the texts that are kept, or a marker. *)
Definition kept_place (ps : list string) (t : string) (x : nat * nat) : Prop :=
  is_placeholder t x ∨ (x.1 ≤ x.2 ≤ String.length t)%nat ∧ slice x.1 x.2 t ∈ ps.

Lemma kept_append ps u v x : kept_place ps u x → kept_place ps (u +:+ v) x.
Proof.
  intros [[Hx (r & Hr & E)]|[Hx E]]; [left|right]; (split; [rewrite Str.length_append; lia|]);
    rewrite slice_append_l by lia; [by exists r|done].
Qed.

Lemma kept_shift ps u v spans :
  Forall (is_placeholder v) spans →
  Forall (kept_place ps (u +:+ v)) (shift_spans (String.length u) spans).
Proof.
  intros Hs. apply Forall_fmap. eapply Forall_impl; [exact Hs|]. intros [a b] [Hx (r & Hr & E)].
  left. simpl in *. split; [simpl; rewrite Str.length_append; lia|]. exists r. split; [done|].
  simpl. by rewrite slice_append_r.
Qed.

Lemma scrub_one_spans seg report out spans report' :
  scrub_one seg report = (out, spans, report') →
  out = scrubbed_segment seg ∧ StronglySorted before spans ∧ Forall (is_placeholder out) spans.
Proof.
  unfold scrub_one, scrubbed_segment. destruct (Hard.scan_hard_findings seg).
  { intros [= <- <- _]. split_and!; constructor. }
  destruct (Hard.scrub_text_with_spans seg) as [o sp] eqn:E. intros [= <- <- _].
  by apply scrub_spans_spec in E as (? & ? & _).
Qed.

(** Spans in order that end by [n], and more that begin there. *)
Definition sorted_to (n : nat) (spans : list (nat * nat)) : Prop :=
  StronglySorted before spans ∧ Forall (λ x, x.2 ≤ n)%nat spans.

Lemma sorted_extend n m spans more :
  sorted_to n spans → StronglySorted before more → (n ≤ m)%nat →
  Forall (λ x, n ≤ x.1 ∧ x.2 ≤ m)%nat more → sorted_to m (spans ++ more).
Proof.
  intros [Hs He] Hm Hn Hb. rewrite Forall_forall in Hb. split.
  - revert He. induction Hs as [|x spans Hs IH Hx]; intros He; [done|].
    apply Forall_cons in He as [Hex He]. simpl. constructor; [by apply IH|].
    apply Forall_app. split; [done|]. apply Forall_forall. intros y Hy. unfold before.
    specialize (Hb y Hy). lia.
  - apply Forall_app. split; [eapply Forall_impl; [exact He|]; simpl; lia|].
    apply Forall_forall. intros y Hy. specialize (Hb y Hy). lia.
Qed.

Lemma sorted_snoc spans x :
  StronglySorted before spans → Forall (λ y, before y x) spans → StronglySorted before (spans ++ [x]).
Proof.
  induction 1 as [|y spans Hs IH Hy]; intros Hx; [by repeat constructor|].
  apply Forall_cons in Hx as [Hyx Hx]. simpl. constructor; [by apply IH|].
  apply Forall_app. by repeat constructor.
Qed.

Lemma shift_sorted n spans : StronglySorted before spans → StronglySorted before (shift_spans n spans).
Proof.
  induction 1 as [|x spans _ IH Hx]; [constructor|]. constructor; [done|].
  apply Forall_fmap. eapply Forall_impl; [exact Hx|]. intros y. unfold before. simpl. lia.
Qed.

Lemma shift_within n v spans :
  Forall (is_placeholder v) spans →
  Forall (λ x, n ≤ x.1 ∧ x.2 ≤ n + String.length v)%nat (shift_spans n spans).
Proof.
  intros Hs. apply Forall_fmap. eapply Forall_impl; [exact Hs|]. intros [a b] [Hx _]. simpl in *. lia.
Qed.

Lemma find_split p s pos :
  Str.find p s = Some pos → s = Str.take pos s +:+ p +:+ Str.drop (pos + String.length p) s.
Proof.
  revert pos; induction s as [|a s IH]; intros pos; cbn [Str.find].
  - destruct (Str.starts_with p "") eqn:E; [|done]. intros [= <-].
    apply Str.starts_with_spec in E as [r E]. by destruct p.
  - destruct (Str.starts_with p (String a s)) eqn:E.
    + intros [= <-]. apply Str.starts_with_spec in E as [r E]. rewrite E.
      change (Str.take 0 (p +:+ r)) with "". change ("" +:+ ?x) with x.
      by rewrite Nat.add_0_l, Str.drop_length_append.
    + destruct (Str.find p s) as [k|]; [|done]. intros [= <-]. cbn [Str.take Nat.add Str.drop].
      rewrite Str.append_cons. f_equal. by apply IH.
Qed.

Lemma scrub_loop_spec ps fuel : ∀ rest result spans report out spans' report',
  scrub_loop fuel ps rest result spans report = Some (out, spans', report') →
  sorted_to (String.length result) spans → Forall (kept_place ps result) spans →
  StronglySorted before spans' ∧ Forall (kept_place ps out) spans' ∧
  ∃ l last, rest = joined l last ∧ Forall (λ sp, sp.2 ∈ ps) l ∧
    out = result +:+ joined (prod_map scrubbed_segment id <$> l) (scrubbed_segment last).
Proof.
  induction fuel as [|n IH]; intros rest result spans report out spans' report'; [done|].
  cbn [scrub_loop]. destruct (earliest_placeholder ps rest) as [[pos p]|] eqn:Ee.
  - apply earliest_found in Ee as [Hp Hf].
    destruct (scrub_one (Str.take pos rest) report) as [[scrubbed sub] report1] eqn:Es. cbv zeta.
    apply scrub_one_spans in Es as (-> & Hsub & Hpl). set (seg := Str.take pos rest) in *.
    intros Hloop Hso Hk. apply IH in Hloop as (Hs' & Hk' & l & last & El & Hl & ->).
    + split; [done|]. split; [done|]. exists ((seg, p) :: l), last. split_and!.
      * rewrite (find_split p rest pos Hf). by rewrite El.
      * by constructor.
      * rewrite fmap_cons. cbn [joined foldr prod_map fst snd id]. by rewrite !Str.append_assoc.
    + rewrite <- app_assoc. eapply sorted_extend; [exact Hso| | |].
      * apply sorted_snoc; [by apply shift_sorted|].
        pose proof (shift_within (String.length result) _ _ Hpl) as Hw.
        eapply Forall_impl; [exact Hw|]. intros x [_ Hx]. unfold before. cbn [fst].
        by rewrite Str.length_append.
      * rewrite !Str.length_append. lia.
      * apply Forall_app. split.
        -- eapply Forall_impl; [by apply shift_within|]. intros x Hx.
           rewrite !Str.length_append. simpl in *. lia.
        -- constructor; [|done]. cbn [fst snd]. rewrite !Str.length_append. lia.
    + rewrite !Forall_app. split_and!.
      * eapply Forall_impl; [exact Hk|]. intros x Hx. by do 2 apply kept_append.
      * eapply Forall_impl; [by apply kept_shift|]. intros x. apply kept_append.
      * constructor; [|done]. right. cbn [fst snd]. rewrite !Str.length_append. split; [lia|].
        set (u := result +:+ scrubbed_segment seg).
        replace (String.length result + String.length (scrubbed_segment seg))%nat
          with (String.length u + 0)%nat by (unfold u; rewrite Str.length_append; lia).
        rewrite <- Nat.add_assoc, Nat.add_0_l, slice_append_r. by rewrite slice_whole.
  - destruct (scrub_one rest report) as [[scrubbed sub] report1] eqn:Es.
    apply scrub_one_spans in Es as (-> & Hsub & Hpl). intros [= <- <- _] Hso Hk. split_and!.
    + eapply (sorted_extend _ (String.length result + String.length (scrubbed_segment rest))) in Hso as [? _];
        [done|by apply shift_sorted|lia|by apply shift_within].
    + apply Forall_app. split; [|by apply kept_shift].
      eapply Forall_impl; [exact Hk|]. intros x. apply kept_append.
    + by exists [], rest.
Qed.

End Around.

(** ** A pass over a result *)

Section Passes.
Context `{Host} `{Document PostureFileV1} `{Document DaemonInfo} `{CratesLaws} `{Regexes} `{Base64}
  `{TextCrates} `{Codec Hello} `{Codec Request} `{Codec Response} `{Surroundings} {St R : Type}
  `{SecretStore St}.

Lemma scrub_one_changes seg report out spans report' :
  scrub_one seg report = (out, spans, report') → rr_changed report' = false →
  rr_changed report = false ∧ out = seg ∧ report' = report.
Proof.
  unfold scrub_one. destruct (Hard.scan_hard_findings seg); [by intros [= <- <- <-]|].
  by intros [= _ <-].
Qed.

Lemma reverse_changes l acc out written report :
  foldl reverse_secret acc l = (out, written, report) → rr_changed report = false →
  acc = (out, written, report).
Proof.
  revert acc; induction l as [|[alias needle] l IH]; intros [[s w] rep]; simpl; [done|].
  intros E Hc. specialize (IH _ E Hc). revert IH. destruct (_ || _); [done|].
  intros [= _ _ <-]. done.
Qed.

Lemma scrub_loop_changes ps fuel : ∀ rest result spans report out spans' report',
  scrub_loop fuel ps rest result spans report = Some (out, spans', report') →
  rr_changed report' = false → rr_changed report = false.
Proof.
  induction fuel as [|n IH]; intros rest result spans report out spans' report'; [done|].
  cbn [scrub_loop]. destruct (earliest_placeholder ps rest) as [[pos p]|].
  - destruct (scrub_one (Str.take pos rest) report) as [[scrubbed sub] report1] eqn:Es. cbv zeta.
    intros El Hc. specialize (IH _ _ _ _ _ _ _ El Hc). by apply scrub_one_changes in Es as (? & _).
  - destruct (scrub_one rest report) as [[scrubbed sub] report1] eqn:Es.
    intros [= _ _ ->] Hc. by apply scrub_one_changes in Es as (? & _).
Qed.

Lemma redact_leaf_changes s resolved report out spans report' :
  redact_leaf s resolved report = (out, spans, report') → rr_changed report' = false →
  rr_changed report = false ∧ out = s.
Proof.
  unfold redact_leaf.
  destruct (foldl reverse_secret (s, [], report) (hash_order resolved)) as [[out1 written] report1] eqn:E.
  unfold scrub_preserving_placeholders. intros Hs Hc.
  assert (rr_changed report1 = false) as Hc1.
  { destruct written as [|p ps]; [by apply scrub_one_changes in Hs as (? & _)|].
    destruct (scrub_loop _ _ _ _ _ _) as [[[o sp] rep]|] eqn:El; simpl in Hs; simplify_eq; [|done].
    by eapply scrub_loop_changes. }
  apply reverse_changes in E; [|done]. injection E as <- <- ->. split; [done|].
  by apply scrub_one_changes in Hs as (_ & ? & _).
Qed.

Lemma wire_no_hits seg n findings protected out :
  apply_wire_spans seg n findings protected = (out, 0%nat) → out = seg.
Proof.
  unfold apply_wire_spans. destruct (wire_spans seg n findings); [by intros [= <-]|].
  intros [= <- Hl]. destruct (final_spans _ _); done.
Qed.

Lemma augment_spec seg protected (p : Pass (St := St)) :
  ∃ out (p' : Pass (St := St)), (augment seg protected : M Pass R string) p = (Ok out, p') ∧
    (rr_changed (ps_report p') = false → rr_changed (ps_report p) = false ∧ out = seg).
Proof.
  unfold augment, in_pass, tick. generalize ML_MAX_QUERIES_PER_RESPONSE ML_SCAN_TEXT_CAP ML_MIN_SEG_LEN.
  intros max cap min. run_m. case_match; [eauto|]. case_match; [eauto|].
  case_match; [eauto|]. simpl. case_match; simpl; [by eexists _, _|].
  match goal with |- context [query_daemon ?req ?w] =>
    assert (∃ a w', (query_daemon req : HookM St R _) w = (Ok a, w')) as (answer & w' & ->)
      by (unfold query_daemon; destruct daemon_info_path; [|by eexists _, _];
          unfold on_disk, tick; run_m; repeat case_match; simplify_eq; by eexists _, _)
  end.
  destruct answer as [[| [|f fs] | | |]|]; simpl; try by eexists _, _.
  destruct (apply_wire_spans _ _ _ _) as [out hits] eqn:Ew. destruct hits as [|n]; simpl.
  - apply wire_no_hits in Ew as ->. by eexists _, _.
  - by eexists _, _.
Qed.
(** What a pass returns, and that it is the value itself when nothing changed. *)
Definition faithful {A} (x : A) (m : M (Pass (St := St)) R A) : Prop := ∀ p,
  ∃ out p', m p = (Ok out, p') ∧
    (rr_changed (ps_report p') = false → rr_changed (ps_report p) = false ∧ out = x).

Lemma faithful_map {A B} (f : A → M Pass R B) (g : A → B) l :
  Forall (λ x, faithful (g x) (f x)) l → faithful (g <$> l) (map_m f l).
Proof.
  induction 1 as [|x l Hx _ IH]; intros p; [by eexists _, _|].
  cbn [map_m]. unfold bind. destruct (Hx p) as (y & p1 & -> & H1').
  destruct (IH p1) as (ys & p2 & -> & H2'). eexists _, _. split; [done|].
  intros Hc. destruct (H2' Hc) as [Hc1 ->]. by destruct (H1' Hc1) as [? ->].
Qed.

Lemma redact_faithful resolved v : wf_json v → faithful v (redact_and_augment_value resolved v).
Proof.
  induction v as [|b|z|t|s|l IH|fs IH] using value_ind; intros Hw; try by (intros p; eexists _, _).
  - intros p. cbn [redact_and_augment_value]. unfold bind at 1, gets at 1.
    destruct (redact_leaf s resolved (ps_report p)) as [[out protected] report] eqn:El.
    unfold bind at 1, modify at 1.
    assert (rr_changed report = false → rr_changed (ps_report p) = false ∧ out = s) as Hl
      by (intros Hc; by eapply redact_leaf_changes).
    destruct (str_contains_any_secret resolved out).
    + eexists _, _. split; [done|]. simpl. intros Hc. by destruct (Hl Hc) as [? ->].
    + unfold bind. destruct (augment_spec out protected (set_report report p)) as (out' & p' & -> & Ha).
      eexists _, _. split; [done|]. intros Hc. destruct (Ha Hc) as [Hc' ->]. simpl in Hc'.
      by destruct (Hl Hc') as [? ->].
  - apply wf_arr in Hw. intros p. cbn [redact_and_augment_value].
    destruct (faithful_map (redact_and_augment_value resolved) id l) with (p := p)
      as (out & p' & E & Hc).
    { rewrite Forall_forall in IH, Hw |- *. intros x Hx. by apply IH; [|apply Hw]. }
    unfold bind. rewrite E. eexists _, _. split; [done|]. intros Hch.
    destruct (Hc Hch) as [? ->]. by rewrite list_fmap_id.
  - apply wf_obj in Hw as [Hd Hw]. intros p. cbn [redact_and_augment_value].
    set (f := λ kv : string * Value, let! v := redact_and_augment_value resolved kv.2 in
                                     ret (kv.1, v)).
    destruct (faithful_map f id fs) with (p := p) as (out & p' & E & Hc).
    { rewrite Forall_forall in IH, Hw |- *. intros [k x] Hx p1. unfold f, bind. cbn [fst snd].
      destruct (IH _ Hx (Hw _ Hx) p1) as (y & p2 & Ey & Hy). cbn [snd] in Ey. rewrite Ey.
      eexists _, _. split; [done|]. intros Hch. destruct (Hy Hch) as [? ->]. done. }
    unfold bind. rewrite E. eexists _, _. split; [done|]. intros Hch.
    destruct (Hc Hch) as [? ->]. rewrite list_fmap_id. by rewrite collect_map_nodup.
Qed.
End Passes.

(** ** Values in a result *)

(** A text occurs in a string leaf or in a key. *)
Fixpoint occurs_in (s : string) (v : Value) : bool :=
  match v with
  | JStr t => str_contains s t
  | JArr items => existsb (occurs_in s) items
  | JObj obj => existsb (λ kv, str_contains s kv.1 || occurs_in s kv.2) obj
  | _ => false
  end.

Lemma str_clean resolved a s t :
  resolved !! a = Some s → s ≠ "" → str_contains_any_secret resolved t = false →
  str_contains s t = false.
Proof.
  intros Ha Hne Hc. destruct (str_contains s t) eqn:E; [|done]. exfalso.
  apply not_true_iff_false in Hc. apply Hc. unfold str_contains_any_secret.
  apply existsb_exists. exists s. split; [|rewrite E; by destruct s].
  apply list_elem_of_In, list_elem_of_fmap. exists (a, s). split; [done|].
  by apply elem_of_map_to_list.
Qed.

Lemma existsb_weaken {A} (f g : A → bool) l :
  (∀ x, x ∈ l → f x = false → g x = false) → existsb f l = false → existsb g l = false.
Proof.
  induction l as [|x l IH]; intros Hfg; [done|]. simpl. intros [Hx Hl]%orb_false_iff.
  rewrite (Hfg x) by (done || by left). simpl. apply IH; [|done]. intros y Hy. apply Hfg. by right.
Qed.

Lemma value_clean resolved a s v :
  resolved !! a = Some s → s ≠ "" → value_contains_any_secret resolved v = false →
  occurs_in s v = false.
Proof.
  intros Ha Hne. induction v as [| | | |t|l IH|fs IH] using value_ind; try done; simpl.
  - by eapply str_clean.
  - rewrite Forall_forall in IH. by apply existsb_weaken.
  - rewrite Forall_forall in IH. apply existsb_weaken. intros kv Hkv [Hk Hv]%orb_false_iff.
    by rewrite (str_clean _ _ _ _ Ha Hne Hk), (IH kv Hkv Hv).
Qed.

Section Results.
Context `{Host} `{Document PostureFileV1} `{Document DaemonInfo} `{CratesLaws} `{Regexes} `{Base64}
  `{TextCrates} `{Codec Hello} `{Codec Request} `{Codec Response} `{Surroundings} {St : Type}
  `{SecretStore St}.

(** A map is iterated over its entries, in whatever order. *)
Definition iterates_all : Prop := ∀ m : gmap string string, hash_order m ≡ₚ map_to_list m.

(** The value the store has for a declared secret. *)
Definition declared_value (args : HookArgs) (store : St) (s : string) : Prop :=
  s ≠ "" ∧ ∃ inj a ref, ha_injection args = Some inj ∧ ic_secrets inj !! a = Some ref ∧
    store_get ref store = Ok s.

Definition hidden (args : HookArgs) (store : St) (v : Value) : Prop :=
  ∀ s, declared_value args store s → occurs_in s v = false.

Lemma values_to_hide_spec {R} args session tool (w w' : World St) values :
  iterates_all → injection_on args = true → is_execution_boundary_tool tool = true →
  (values_to_hide args session tool : HookM St R _) w = (Ok (Some values), w') →
  ∀ v, value_contains_any_secret values v = false → hidden args (hw_store w) v.
Proof.
  unfold injection_on, values_to_hide. intros Hall Hon Htool.
  destruct (ha_injection args) as [inj|] eqn:Hinj; [|done]. rewrite Hon, Htool. cbn [andb].
  intros Hm v Hv s (Hne & inj' & a & ref & Hi & Hs & Hg). rewrite Hinj in Hi. injection Hi as <-.
  rewrite bool_decide_eq_false_2 in Hm by (intros E; by rewrite E in Hs). cbn [negb] in Hm.
  apply bind_total in Hm as (out & w1 & E & Hm); [|apply expose_in_session_total].
  destruct out as [[sid resolved]|]; [|done]. injection Hm as <- _.
  apply expose_in_session_spec in E as (_ & Hval & Hdom).
  set (l := (λ kv, (kv.1, Some kv.2)) <$> hash_order (ic_secrets inj)) in *.
  assert (∀ a o, (a, o) ∈ l → ∃ ref, o = Some ref ∧ ic_secrets inj !! a = Some ref) as Hl.
  { intros a' o ([k r] & [= -> ->] & Hk)%list_elem_of_fmap. exists r. split; [done|].
    rewrite (Hall _) in Hk. by apply elem_of_map_to_list in Hk. }
  assert ((a, ref) ∈ hash_order (ic_secrets inj)) as Hin.
  { rewrite (Hall _). by apply elem_of_map_to_list. }
  destruct (Hdom a) as [s' Hs'].
  { apply list_elem_of_fmap. exists (a, Some ref). split; [done|]. apply list_elem_of_fmap.
    by exists (a, ref). }
  destruct (Hval a s' Hs') as (ref' & Hl' & Hg'). apply Hl in Hl' as (r & [= <-] & Hr).
  assert (s' = s) as -> by congruence. by eapply value_clean.
Qed.

Lemma result_redaction_hides args raw tool resp (w w' : World St) r :
  iterates_all → injection_on args = true → cli_supports_result_redaction (ha_cli args) = true →
  extract_str raw TOOL_KEYS = Some tool → is_execution_boundary_tool tool = true →
  extract_value raw RESPONSE_KEYS = Some resp → wf_json resp →
  try_result_redaction args raw w = (r, w') →
  match returned r with
  | None => hidden args (hw_store w) resp
  | Some o => ∃ out note, o = HookOutcome.RedactOutput out note ∧
      (out = WITHHELD ∨ hidden args (hw_store w) out)
  end.
Proof.
  intros Hall Hon Hcli Htool Hb Hresp Hwf. unfold try_result_redaction.
  assert (result_redaction_active args = true) as -> by (unfold result_redaction_active; by rewrite Hon, Hcli).
  cbn [negb]. rewrite Htool.
  assert (Str.starts_with "mcp__" tool = false) as ->.
  { unfold is_execution_boundary_tool in Hb. apply existsb_exists in Hb as (x & Hx & ->%String.eqb_eq).
    destruct Hx as [<-|[<-|[]]]; done. }
  rewrite Hresp. intros Hm.
  assert (total (values_to_hide args (extract_str raw SESSION_KEYS) tool
    : HookM St (option HookOutcome) _)) as Ht.
  { pose proof (λ R inj sid t l, expose_in_session_total (R := R) args inj sid t l) as He.
    unfold values_to_hide. destruct (ha_injection args); [|apply total_ret].
    destruct (_ && _); [|apply total_ret]. apply total_bind; [apply He|]. intros; apply total_ret. }
  apply bind_total in Hm as (values & w1 & E1 & Hm); [|done].
  destruct values as [resolved|]; [|injection Hm as <- _; eexists _, _; split; [done|by left]].
  pose proof (values_to_hide_spec _ _ _ _ _ _ Hall Hon Hb E1) as Hhide.
  unfold bind at 1 in Hm.
  destruct (redact_faithful (R := option HookOutcome) resolved resp Hwf
    (mkPass w1 (new_ml_scrub args) empty_report)) as (out & p' & Ep & Hc).
  rewrite Ep in Hm. cbn [res_bind] in Hm.
  destruct (value_contains_any_secret resolved out) eqn:Ec; [injection Hm as <- _; eexists _, _; split; [done|by left]|].
  destruct (rr_changed (ps_report p')) eqn:Ech; cbn [negb] in Hm.
  - unfold audit_redaction in Hm. next Hm u w2 E2. injection Hm as <- _.
    eexists _, _. split; [done|]. right. by apply Hhide.
  - injection Hm as <- _. simpl. apply Hhide. by destruct (Hc eq_refl) as [_ <-].
Qed.

Lemma query_daemon_total {R} req : total (query_daemon req : HookM St R _).
Proof. unfold query_daemon. totally. Qed.
#[local] Hint Resolve query_daemon_total : vigil.

Lemma classify_injection_total {R} args sid text :
  total (classify_injection args sid text : HookM St R unit).
Proof. unfold classify_injection. totally. Qed.

Lemma bump_meta_risk_total {R} args sid hits : total (bump_meta_risk args sid hits : HookM St R unit).
Proof. unfold bump_meta_risk. totally. Qed.

Lemma audit_injection_defense_total {R} args sid tool kind hits text :
  total (audit_injection_defense args sid tool kind hits text : HookM St R unit).
Proof. apply audit_event_total. Qed.
#[local] Hint Resolve classify_injection_total bump_meta_risk_total audit_injection_defense_total : vigil.

(** The answer, from what the redaction gave. *)
Lemma post_tool_use_answer args raw (w w' : World St) r :
  handle_post_tool_use args raw w = (r, w') →
  ∃ rr w1, try_result_redaction args raw w = (rr, w1) ∧
    (returned r = default HookOutcome.Allow (returned rr) ∨
     ha_cli args = CliKind.Claude ∧ ∃ open_ close note,
       returned r = HookOutcome.RedactOutput
         (wrap_untrusted open_ close (strip_untrusted_markers_in_value
            match returned rr with
            | Some (HookOutcome.RedactOutput out _) => out
            | _ => default (JStr "") (extract_value raw RESPONSE_KEYS)
            end).1) note).
Proof.
  unfold handle_post_tool_use. cbn zeta. unfold call, bind at 1.
  destruct (try_result_redaction args raw w) as [rr w1]. intros Hm. exists rr, w1. split; [done|].
  next Hm u w2 E2. next Hm u2 w3 E3.
  destruct (_ && bool_decide (ha_cli args = CliKind.Claude)) eqn:Eb.
  - apply andb_true_iff in Eb as [_ Hcli%bool_decide_eq_true].
    next Hm u3 w4 E4. next Hm n w5 E5. unfold Hard.make_untrusted_marker in Hm.
    injection Hm as <- _. right. split; [done|]. by eexists _, _, _.
  - next Hm u3 w4 E4. injection Hm as <- _. by left.
Qed.

(** C7. No value of a declared secret comes back in the result of a command. With
    injection on, for a command line whose results can be replaced, whatever the ledger,
    the store, the daemon and its answers do: a result handed on as it is has no declared
    value in any string or key; one that is replaced has none either, or is the notice
    that it is withheld; and one that is wrapped as untrusted data is such a result with
    the markers in it stripped, between new markers. *)
Theorem results_hide_declared_values args stdin raw tool resp (w w' : World St) r :
  iterates_all → injection_on args = true → cli_supports_result_redaction (ha_cli args) = true →
  hook_input stdin = Some raw →
  normalize_event_name (ha_cli args) <$> extract_str raw EVENT_KEYS = Some "PostToolUse" →
  extract_str raw TOOL_KEYS = Some tool → is_execution_boundary_tool tool = true →
  extract_value raw RESPONSE_KEYS = Some resp → wf_json resp →
  run args stdin w = (r, w') →
  match returned r with
  | HookOutcome.Allow => hidden args (hw_store w) resp
  | HookOutcome.RedactOutput out _ =>
      ∃ clean, (clean = WITHHELD ∨ hidden args (hw_store w) clean) ∧
        (out = clean ∨
         ∃ open_ close, out = wrap_untrusted open_ close (strip_untrusted_markers_in_value clean).1)
  | _ => False
  end.
Proof.
  intros Hall Hon Hcli Hin Hev Htool Hb Hresp Hwf. unfold run, hook_input in *.
  destruct (read_limited stdin) as [buf []]; [|done]. cbn [negb orb] in *.
  destruct (Z.ltb _ _); [done|]. rewrite Hin, Hev. cbn [String.eqb Ascii.eqb Bool.eqb].
  intros Hm. apply post_tool_use_answer in Hm as (rr & w1 & Ett & Hans).
  pose proof (result_redaction_hides _ _ _ _ _ _ _ Hall Hon Hcli Htool Hb Hresp Hwf Ett) as Hh.
  rewrite Hresp in Hans. destruct (returned rr) as [o|].
  - destruct Hh as (out & note & -> & Hout). simpl in Hans.
    destruct Hans as [->|(_ & o' & c & n & ->)]; exists out; (split; [done|eauto]).
  - simpl in Hans. destruct Hans as [->|(_ & o' & c & n & ->)]; [done|].
    exists resp. split; [by right|eauto].
Qed.

(** ** Risk *)

Lemma meta_risk_delta_bounds hits : (0 ≤ meta_risk_delta hits ≤ 24)%Z.
Proof. unfold meta_risk_delta, META_INSTRUCTION_RISK_DELTA. lia. Qed.

Definition risk_of (l : LedgerState) (sid : string) : Z :=
  from_option s_risk_score 0%Z (sessions l !! sid).

(** No session's risk changes. *)
Definition same_risk (l l' : LedgerState) : Prop := ∀ sid, risk_of l' sid = risk_of l sid.

#[local] Instance same_risk_preorder : PreOrder same_risk.
Proof. split; [by intros l|]. intros l1 l2 l3 Ha Hb sid. by rewrite Hb, Ha. Qed.

Lemma same_risk_other l l' : sessions l' = sessions l → same_risk l l'.
Proof. intros E sid. unfold risk_of. by rewrite E. Qed.

Lemma append_event_risk now sid et p rt : preserves same_risk (append_event now sid et p rt).
Proof.
  intros l. destruct (append_event_cases now sid et p rt l) as [[err ->]| ->]; [reflexivity|].
  append_cases err ev rows n f Hlog; [reflexivity|]. by apply same_risk_other.
Qed.

Lemma start_session_risk now id source app : preserves same_risk (start_session now id source app).
Proof.
  intros l. unfold start_session. run_m. destruct (validate_nonempty "source" source); [|reflexivity].
  destruct (sessions l !! id) eqn:E; [reflexivity|]. simpl. intros sid. unfold risk_of. simpl.
  destruct (base.decide (id = sid)) as [<-|Hne]; [by rewrite lookup_insert_eq, E|].
  by rewrite lookup_insert_ne.
Qed.

Lemma ensure_session_risk now id source : preserves same_risk (ensure_session now id source).
Proof.
  intros l. unfold ensure_session. run_m. destruct (validate_nonempty "session_id" id); [|reflexivity].
  destruct (validate_nonempty "source" source); [|reflexivity]. simpl. intros sid.
  unfold risk_of, insert_or_ignore_session. simpl. destruct (sessions l !! id) eqn:E; [done|].
  destruct (base.decide (id = sid)) as [<-|Hne]; [by rewrite lookup_insert_eq, E|].
  by rewrite lookup_insert_ne.
Qed.

(** A bump adds to the one session, or fails and adds nothing. *)
Lemma bump_session_risk_adds now id delta l sid :
  (0 ≤ delta)%Z →
  let l' := (bump_session_risk now id delta l).2 in
  (risk_of l sid ≤ risk_of l' sid ≤ risk_of l sid + delta)%Z ∧ (sid ≠ id → risk_of l' sid = risk_of l sid).
Proof.
  intros Hd. unfold bump_session_risk. run_m.
  destruct (validate_nonempty "session_id" id); simpl; [|split; [lia|done]].
  unfold update_where, insert_or_ignore_session.
  destruct (sessions l !! id) as [row|] eqn:E; rewrite ?lookup_insert_eq; cbn -[Z.leb];
    rewrite ?E; cbn -[Z.leb]; rewrite ?lookup_insert_eq; cbn -[Z.leb];
    (destruct (_ && _); simpl; [|split; [lia|done]]);
    unfold risk_of; simpl; (destruct (base.decide (id = sid)) as [<-|Hne];
      [rewrite lookup_insert_eq, E; simpl; split; [lia|done]
      |rewrite !lookup_insert_ne by done; split; [lia|done]]).
Qed.

Definition on_risk (w w' : World St) : Prop := same_risk (hw_ledger w) (hw_ledger w').

#[local] Instance on_risk_preorder : PreOrder on_risk.
Proof. split; [by intros w|]. intros w1 w2 w3. unfold on_risk. by intros; etransitivity. Qed.

Lemma on_ledger_risk {R A} (m : LedgerM A) :
  preserves same_risk m → preserves on_risk (on_ledger m : HookM St R _).
Proof.
  intros Hm w. specialize (Hm (hw_ledger w)). unfold on_ledger.
  by destruct (m (hw_ledger w)) as [r l].
Qed.

Lemma on_disk_risk {R A} (m : FileM A) : preserves on_risk (on_disk m : HookM St R _).
Proof. intros w. unfold on_disk. by destruct (m (hw_disk w)). Qed.

Lemma tick_risk {R} : preserves on_risk (tick : HookM St R nat).
Proof. by intros w. Qed.

(** What a broker does to the ledger it works on. *)
Definition broker_risk (b b' : BrokerState St) : Prop := same_risk (br_ledger b) (br_ledger b').

#[local] Instance broker_risk_preorder : PreOrder broker_risk.
Proof. split; [by intros w|]. intros w1 w2 w3. unfold broker_risk. by intros; etransitivity. Qed.

Lemma audit_risk {A} (m : LedgerM A) :
  preserves same_risk m → preserves broker_risk (Lease.audit m : M (BrokerState St) LeaseError unit).
Proof. intros Hm b. apply (Hm (br_ledger b)). Qed.

Lemma touch_risk now ref : preserves same_risk (touch_secret_ref now ref).
Proof. unfold touch_secret_ref. preserve. intros. by apply same_risk_other. Qed.

Lemma set_cache_risk f : preserves broker_risk (modify (λ b : BrokerState St, set_cache (f b) b) : M _ LeaseError unit).
Proof. by intros b. Qed.
#[local] Hint Resolve append_event_risk start_session_risk ensure_session_risk on_ledger_risk
  on_disk_risk tick_risk audit_risk touch_risk set_cache_risk : vigil.

Lemma with_broker_risk {R A} (m : M (BrokerState St) LeaseError A) :
  preserves broker_risk m → preserves on_risk (with_broker m : HookM St R _).
Proof.
  intros Hm w. specialize (Hm (mkBrokerState (hw_ledger w) ∅ (hw_store w))). unfold with_broker.
  by destruct (m _) as [r b].
Qed.

Lemma mint_risk rd req : preserves broker_risk (mint_lease rd req : M (BrokerState St) _ _).
Proof. unfold mint_lease. preserve. Qed.

Lemma resolve_value_risk now nm id ctx :
  preserves broker_risk (resolve_value now nm id ctx : M (BrokerState St) _ _).
Proof. unfold resolve_value, misuse. preserve. Qed.

Lemma revoke_risk now id : preserves broker_risk (revoke_lease now id : M (BrokerState St) _ _).
Proof. unfold revoke_lease, revoked_event. preserve. Qed.
#[local] Hint Resolve mint_risk resolve_value_risk revoke_risk with_broker_risk : vigil.

Lemma expose_aliases_risk rds at_ inj sid tool l : ∀ i resolved,
  preserves broker_risk (expose_aliases rds at_ inj sid tool i l resolved : M (BrokerState St) _ _).
Proof.
  induction l as [|[a [ref|]] l IH]; intros i resolved; cbn [expose_aliases]; [preserve| |preserve].
  apply preserves_bind; [apply _| |intros; apply IH]. unfold expose_secret. preserve.
Qed.
#[local] Hint Resolve expose_aliases_risk : vigil.

Lemma open_ledger_risk {R} : preserves on_risk (open_ledger : HookM St R bool).
Proof.
  unfold open_ledger. preserve. apply on_ledger_risk. intros l. by apply same_risk_other.
Qed.

Lemma new_session_risk {R} source app : preserves on_risk (new_session source app : HookM St R _).
Proof. unfold new_session. preserve. Qed.
#[local] Hint Resolve open_ledger_risk new_session_risk : vigil.

Lemma audit_event_risk {R} path source app et p summary :
  preserves on_risk (audit_event path source app et p summary : HookM St R unit).
Proof. unfold audit_event. preserve. Qed.
#[local] Hint Resolve audit_event_risk : vigil.

Lemma query_daemon_risk {R} req : preserves on_risk (query_daemon req : HookM St R _).
Proof. unfold query_daemon. preserve. Qed.

Lemma values_to_hide_risk {R} args session tool :
  preserves on_risk (values_to_hide args session tool : HookM St R _).
Proof. unfold values_to_hide, expose_in_session. preserve. Qed.
#[local] Hint Resolve query_daemon_risk values_to_hide_risk : vigil.

Definition pass_risk (p p' : Pass (St := St)) : Prop := on_risk (ps_world p) (ps_world p').

#[local] Instance pass_risk_preorder : PreOrder pass_risk.
Proof. split; [by intros p|]. intros p1 p2 p3. unfold pass_risk. by intros; etransitivity. Qed.

Lemma in_pass_risk {R A} (m : HookM St R A) : preserves on_risk m → preserves pass_risk (in_pass m).
Proof. intros Hm p. specialize (Hm (ps_world p)). unfold in_pass. by destruct (m (ps_world p)). Qed.

Lemma set_ml_risk {R} ml : preserves pass_risk (modify (set_ml ml) : M _ R unit).
Proof. by intros p. Qed.

Lemma set_report_risk {R} f : preserves pass_risk (modify (λ p, set_report (f p) p) : M _ R unit).
Proof. by intros p. Qed.
#[local] Hint Resolve in_pass_risk set_ml_risk set_report_risk : vigil.

Lemma augment_risk {R} seg protected : preserves pass_risk (augment seg protected : M Pass R string).
Proof.
  unfold augment. generalize ML_MAX_QUERIES_PER_RESPONSE ML_SCAN_TEXT_CAP ML_MIN_SEG_LEN.
  intros max cap min. preserve.
Qed.

Lemma map_m_risk {R A B} (f : A → M Pass R B) l :
  Forall (λ x, preserves pass_risk (f x)) l → preserves pass_risk (map_m f l).
Proof. induction 1 as [|x l Hx _ IH]; cbn [map_m]; preserve. Qed.

Lemma redact_risk {R} resolved v : preserves pass_risk (redact_and_augment_value resolved v : M Pass R Value).
Proof.
  pose proof (@augment_risk R) as Ha.
  induction v as [| | | |s|l IH|fs IH] using value_ind; cbn [redact_and_augment_value]; try by preserve.
  - apply preserves_bind; [apply _|by apply map_m_risk|]. preserve.
  - apply preserves_bind; [apply _| |preserve]. apply map_m_risk.
    eapply Forall_impl; [exact IH|]. intros [k x] Hx. simpl in *. preserve.
Qed.

Lemma try_result_redaction_risk args raw : preserves on_risk (try_result_redaction args raw : HookM St _ _).
Proof.
  unfold try_result_redaction. destruct (negb _); [preserve|]. destruct (extract_str raw TOOL_KEYS); [|preserve].
  destruct (Str.starts_with _ _); [preserve|]. destruct (extract_value _ _) as [resp|]; [|preserve].
  apply preserves_bind; [apply _|auto with vigil|]. intros [resolved|]; [|preserve].
  apply preserves_bind; [apply _| |].
  - intros w. pose proof (redact_risk (R := option HookOutcome) resolved resp
      (mkPass w (new_ml_scrub args) empty_report)) as Hr.
    by destruct (redact_and_augment_value resolved resp _) as [r p].
  - intros [redacted report]. unfold audit_redaction. preserve.
Qed.

Lemma bump_meta_risk_adds {R} args session hits (w : World St) sid :
  let w' := ((bump_meta_risk args session hits : HookM St R unit) w).2 in
  (risk_of (hw_ledger w) sid ≤ risk_of (hw_ledger w') sid ≤ risk_of (hw_ledger w) sid + 24)%Z ∧
  (session ≠ Some sid → risk_of (hw_ledger w') sid = risk_of (hw_ledger w) sid).
Proof.
  unfold bump_meta_risk. destruct session as [s|]; [|split; simpl; [lia|done]].
  destruct (ha_ledger_path args); [|split; simpl; [lia|done]].
  destruct (bind open_ledger _ w) as [r w'] eqn:Hm. cbn [snd].
  next Hm opened w1 E1. apply (preserves_run on_risk) in E1; [|auto with vigil].
  destruct opened; [|injection Hm as _ <-; rewrite E1; split; [lia|done]]. cbn [negb] in Hm.
  next Hm n w2 E2. apply (preserves_run on_risk) in E2; [|auto with vigil].
  next Hm u w3 E3. apply (preserves_run on_risk) in E3; [|auto with vigil].
  next Hm n' w4 E4. apply (preserves_run on_risk) in E4; [|auto with vigil].
  next Hm b w5 E5. injection Hm as _ <-. unfold on_ledger in E5.
  pose proof (bump_session_risk_adds (clock n' 0) s (meta_risk_delta hits) (hw_ledger w4) sid) as Hb.
  destruct (bump_session_risk _ _ _ (hw_ledger w4)) as [rb l]. injection E5 as _ <-. cbn [snd hw_ledger] in *.
  assert (risk_of (hw_ledger w4) sid = risk_of (hw_ledger w) sid) as E by (by rewrite E4, E3, E2, E1).
  pose proof (meta_risk_delta_bounds hits). rewrite E in Hb. destruct Hb as [Hb Hne]; [lia|].
  split; [lia|]. intros Hs. apply Hne. congruence.
Qed.

(** One result adds little risk. Whatever it says, and however often, handling it
    lowers no session's risk, raises that of the session it belongs to by at most 24, the
    step from one posture to the next, and leaves every other as it was; a result without
    instructions in it changes none. *)
Theorem one_result_adds_one_step args raw (w w' : World St) r sid :
  handle_post_tool_use args raw w = (r, w') →
  (risk_of (hw_ledger w) sid ≤ risk_of (hw_ledger w') sid
     ≤ risk_of (hw_ledger w) sid + SESSION_RISK_ESCALATION_THRESHOLD)%Z ∧
  (extract_str raw SESSION_KEYS ≠ Some sid ∨
   Hard.scan_meta_instructions
     (default "" (json_to_string <$> extract_value raw RESPONSE_KEYS)) = [] →
   risk_of (hw_ledger w') sid = risk_of (hw_ledger w) sid).
Proof.
  unfold handle_post_tool_use. cbn zeta. set (text := default "" _). intros Hm.
  next Hm rr w1 E1. apply (preserves_run on_risk) in E1; [|apply call_preserves, try_result_redaction_risk].
  set (hits := Hard.scan_meta_instructions text) in *.
  next Hm u w2 E2.
  assert (on_risk w2 w') as Q2.
  { apply (preserves_run on_risk) in Hm; [done|]. unfold classify_injection, audit_injection_defense.
    preserve. }
  rewrite (Q2 sid), <- (E1 sid). destruct (0 <? length hits)%nat eqn:Eh.
  - next E2 u2 w3 E3. apply (preserves_run on_risk) in E2; [|unfold audit_injection_defense; preserve].
    pose proof (bump_meta_risk_adds (R := HookOutcome) args (extract_str raw SESSION_KEYS) (length hits) w1 sid)
      as [Hb Hne]. rewrite E3 in Hb, Hne. cbn [snd] in *. rewrite (E2 sid). split; [exact Hb|].
    intros [Hs|Hz]; [by apply Hne|]. by rewrite Hz in Eh.
  - injection E2 as _ <-. unfold SESSION_RISK_ESCALATION_THRESHOLD. split; [lia|done].
Qed.
End Results.

(** ** Witnesses *)

Import Toy ToyRules ToyHook.

Lemma results_hide_declared_values_witness :
  ∃ clean : Value, (clean = WITHHELD ∨ hidden toy_args (hw_store toy_world) clean) ∧
    declared_value toy_args (hw_store toy_world) "s3cr3t" ∧
    (JObj [("stdout", JStr "the secret://a is out")] = clean ∨
     ∃ open_ close, JObj [("stdout", JStr "the secret://a is out")]
       = wrap_untrusted open_ close (strip_untrusted_markers_in_value clean).1).
Proof.
  destruct redacted_result as [note Hr].
  destruct (run toy_args result_stdin toy_world) as [r w'] eqn:E. cbn [fst] in Hr.
  assert (iterates_all) as Hall by (intros m; reflexivity).
  pose proof (results_hide_declared_values toy_args result_stdin result_event "Bash"
    (JObj [("stdout", JStr "the s3cr3t is out")]) toy_world w' r Hall eq_refl eq_refl) as Ht.
  rewrite Hr in Ht. destruct Ht as (clean & Hc & Ho).
  - vm_compute. reflexivity.
  - vm_compute. reflexivity.
  - reflexivity.
  - reflexivity.
  - reflexivity.
  - apply wf_obj. split; [apply NoDup_singleton|by constructor].
  - exact E.
  - exists clean. split; [exact Hc|]. split; [|exact Ho]. split; [done|].
    exists toy_injection, "a", "ref". split_and!; reflexivity.
Defined.

Lemma one_result_adds_one_step_witness :
  (risk_of (hw_ledger (handle_post_tool_use toy_args result_event toy_world).2) "s" ≤ 24)%Z.
Proof.
  destruct (handle_post_tool_use toy_args result_event toy_world) as [r w'] eqn:E.
  destruct (one_result_adds_one_step toy_args result_event toy_world w' r "s" E) as [[_ Hle] _].
  exact Hle.
Defined.


(** The markers are stripped after the values were taken out: what a marker held apart
    comes together again. *)
Example stripping_joins `{Hr : Regexes} :
  captures_iter SENTINEL_MARKER_RE "s3<vigil-untrusted-x>cr3t" = [[Some (2, 21)%nat]] →
  occurs_in "s3cr3t" (JStr "s3<vigil-untrusted-x>cr3t") = false ∧
  (strip_untrusted_markers_in_value (JStr "s3<vigil-untrusted-x>cr3t")).1 = JStr "s3cr3t".
Proof.
  intros E. split; [done|]. cbn [strip_untrusted_markers_in_value]. unfold Hard.strip_sentinel_markers.
  replace (str_contains Hard.UNTRUSTED_SENTINEL_PREFIX "s3<vigil-untrusted-x>cr3t") with true by done.
  cbn [negb]. unfold remove_all, find_iter. rewrite E. done.
Qed.
