(* ===== verification/Outbound.v ===== *)
(** * The gate on requests to model APIs

    [src/crates/vigil-outbound/src]: the routes to the fixed upstreams
    ([route.rs]), the replacement of credentials in a JSON body and the search for
    one that is left ([rewrite.rs]), and what the proxy does with a request
    ([server.rs]). hyper, reqwest and the threads under them are left out: a
    request is its method, path, headers and body, and what an upstream answers is
    an interface. *)

From stdpp Require Import pretty.
From S2P Require Import Prelude Text Types Json Deps Holes Rules HardRedact ToolResult Ipc.

(** ** The libraries *)

(** [HeaderValue::to_str().ok()]; [serde_json::to_vec] of a value. *)
Class Wires := {
  to_str : string → option string;
  to_vec : Value → option string;
}.

(** JSON is written as UTF-8. *)
Class WiresLaws `{Wires} : Prop := {
  to_vec_utf8 v s : to_vec v = Some s → is_utf8 s = true;
}.

(** [hyper::HeaderMap]: names are lower case, a name may occur more than once. *)
Abbreviation Headers := (list (string * string)).

Definition header_get (name : string) (hs : Headers) : option string :=
  snd <$> List.find (λ h, String.eqb h.1 name) hs.

Definition contains_key (name : string) (hs : Headers) : bool :=
  bool_decide (is_Some (header_get name hs)).

(** ** Routes *)

Module RouteKind.
Inductive RouteKind := Anthropic | Openai | Codex | Gemini.

Definition as_str (k : RouteKind) : string :=
  match k with
  | Anthropic => "anthropic"
  | Openai => "openai"
  | Codex => "codex"
  | Gemini => "gemini"
  end.
End RouteKind.
Abbreviation RouteKind := RouteKind.RouteKind.

Record Routes := mkRoutes {
  ro_anthropic : string;
  ro_openai : string;
  ro_codex_chatgpt : string;
  ro_gemini : string;
}.

Definition default_routes : Routes :=
  mkRoutes "https://api.anthropic.com" "https://api.openai.com/v1"
    "https://chatgpt.com/backend-api/codex" "https://generativelanguage.googleapis.com".

Record Resolved := mkResolved { rs_kind : RouteKind; rs_url : string }.

(** [strip_prefix] of [route.rs]: the prefix, and then the end, a [/] or a [?]. *)
Definition strip_route (path prefix : string) : option string :=
  rest ← Text.strip_prefix prefix path;
  if Str.is_empty rest || Str.starts_with "/" rest || Str.starts_with "?" rest
  then Some rest else None.

Section Routes.
Context `{Wires}.

Definition is_chatgpt_auth (headers : Headers) : bool :=
  contains_key "chatgpt-account-id" headers
  || match (v ← header_get "authorization" headers; to_str v) with
     | Some v =>
         let v := trim v in
         (7 <? String.length v)%nat
         && Str.eq_ignore_ascii_case (Str.take 7 v) "bearer "
         && Str.starts_with "eyJ" (trim_start (Str.drop 7 v))
     | None => false
     end.

(** The prefix of the path decides; for Codex, the kind of login too. *)
Definition route_of (routes : Routes) (path_and_query : string) (headers : Headers)
    : option (RouteKind * string * string) :=
  match strip_route path_and_query "/anthropic" with
  | Some rest => Some (RouteKind.Anthropic, ro_anthropic routes, rest)
  | None =>
      match strip_route path_and_query "/openai" with
      | Some rest => Some (RouteKind.Openai, ro_openai routes, rest)
      | None =>
          match strip_route path_and_query "/gemini" with
          | Some rest => Some (RouteKind.Gemini, ro_gemini routes, rest)
          | None =>
              rest ← strip_route path_and_query "/codex";
              Some (RouteKind.Codex,
                    if is_chatgpt_auth headers then ro_codex_chatgpt routes else ro_openai routes,
                    rest)
          end
      end
  end.

Definition resolve (routes : Routes) (path_and_query : string) (headers : Headers)
    : option Resolved :=
  '(kind, base, rest) ← route_of routes path_and_query headers;
  Some (mkResolved kind (trim_end_matches (λ c, Ascii.eqb c "/") base +:+ rest)).
End Routes.

(** ** Rewriting *)

(** [AliasSink::alias_for(kind, value)] *)
Class AliasSink := { alias_for : string → string → option string }.

Definition NoAlias : AliasSink := {| alias_for _ _ := None |}.

Record RewriteReport := mkRewriteReport {
  rp_kinds : list (string * nat);
  rp_aliases : list string;
  rp_skipped_envelope_fields : nat;
}.

Definition empty_rewrite : RewriteReport := mkRewriteReport [] [] 0.

Definition rewrote (r : RewriteReport) : bool :=
  match rp_kinds r with
  | [] => false
  | _ => true
  end.

Fixpoint bump_kind (kind : string) (kinds : list (string * nat)) : list (string * nat) :=
  match kinds with
  | [] => [(kind, 1%nat)]
  | (k, n) :: rest => if String.eqb k kind then (k, S n) :: rest else (k, n) :: bump_kind kind rest
  end.

Definition bump (kind : string) (r : RewriteReport) : RewriteReport :=
  mkRewriteReport (bump_kind kind (rp_kinds r)) (rp_aliases r) (rp_skipped_envelope_fields r).

Definition ENVELOPE_KEYS : list string :=
  ["model"; "role"; "type"; "name"; "object"; "status"; "format"; "media_type"; "mime_type";
   "cache_control"; "signature"; "thinking"; "redacted_thinking"; "encrypted_content";
   "anthropic_version"; "tool_name"; "finish_reason"].

Definition is_envelope_key (key : string) : bool :=
  String.eqb key "id" || Str.ends_with "_id" key || existsb (String.eqb key) ENVELOPE_KEYS.

Definition spans_applicable (s : string) (bounds : list (nat * nat)) : bool :=
  forallb (λ b, (b.1 <=? b.2)%nat && (b.2 <=? String.length s)%nat
                && is_char_boundary s b.1 && is_char_boundary s b.2) bounds.

Section Rewrite.
Context `{Regexes} `{Base64} `{AliasSink}.

(** One span of the loop, which goes from the last to the first. *)
Definition replace_span (span : Hole) (acc : string * RewriteReport) : string * RewriteReport :=
  let '(out, report) := acc in
  let value := slice (h_start span) (h_end span) out in
  let '(replacement, report) :=
    match alias_for (h_kind span) value with
    | Some body =>
        ("secret://" +:+ body,
         mkRewriteReport (rp_kinds report) (Hard.push_new (rp_aliases report) body)
           (rp_skipped_envelope_fields report))
    | None => (Hard.marker (h_kind span), report)
    end in
  (Str.take (h_start span) out +:+ replacement +:+ Str.drop (h_end span) out,
   bump (h_kind span) report).

Definition rewrite_text (s : string) (report : RewriteReport) : option string * RewriteReport :=
  let spans := Hard.hard_secret_spans s in
  match spans with
  | [] => (None, report)
  | _ =>
      if negb (spans_applicable s ((λ h, (h_start h, h_end h)) <$> spans)) then (None, report)
      else let '(out, report) := foldr replace_span (s, report) spans in (Some out, report)
  end.

Definition BY_KEY_NAME : string := "[REDACTED env_assignment]".

(** A string under a key that names a secret, and long enough to be one. *)
Definition is_named_secret (key s : string) : bool :=
  Hard.is_secret_key_name key && (secret_value_min_chars key <=? char_count s)%nat.

Definition skip_envelope (r : RewriteReport) : RewriteReport :=
  mkRewriteReport (rp_kinds r) (rp_aliases r) (S (rp_skipped_envelope_fields r)).

Definition rewrite_leaf (s : string) (report : RewriteReport) : Value * RewriteReport :=
  let '(new, report) := rewrite_text s report in (JStr (default s new), report).

(** [walk]: the values in place, the keys as they are. *)
Fixpoint walk (v : Value) (report : RewriteReport) : Value * RewriteReport :=
  match v with
  | JStr s => rewrite_leaf s report
  | JArr items => let '(items, report) := map_acc walk items report in (JArr items, report)
  | JObj obj =>
      let '(obj, report) :=
        map_acc (λ kv report,
          match kv with
          | (key, JStr s) =>
              if is_envelope_key key then ((key, JStr s), skip_envelope report)
              else if is_named_secret key s
              then ((key, JStr BY_KEY_NAME), bump "env_assignment" report)
              else let '(val, report) := rewrite_leaf s report in ((key, val), report)
          | (key, val) => let '(val, report) := walk val report in ((key, val), report)
          end) obj report in
      (JObj obj, report)
  | _ => (v, report)
  end.

Definition rewrite_json (v : Value) : Value * RewriteReport := walk v empty_rewrite.
End Rewrite.

(** ** Where a credential is left *)

Definition LOCATE_MAX_LEAVES : Z := 20000.
Definition LOCATE_MAX_BYTES : Z := 2 * 1024 * 1024.

Inductive Seg := Key (k : string) | Index (i : nat).

Record LocateBudget := mkLocateBudget { lb_leaves : Z; lb_bytes : Z }.

(** Whether a leaf of this length may be looked at; one too many is passed over. *)
Definition allows (len : nat) (b : LocateBudget) : bool * LocateBudget :=
  if (LOCATE_MAX_LEAVES <=? lb_leaves b)%Z then (false, b)
  else if (Z.max 0 (LOCATE_MAX_BYTES - lb_bytes b) <? Z.of_nat len)%Z then (false, b)
  else (true, mkLocateBudget (lb_leaves b + 1) (lb_bytes b + Z.of_nat len)).

Module LocatePass.
Inductive LocatePass := EnvelopeOnly | Rest.
End LocatePass.
Abbreviation LocatePass := LocatePass.LocatePass.

Definition wanted (pass : LocatePass) (parent_key : option string) : bool :=
  let skipped := match parent_key with
                 | Some k => is_envelope_key k
                 | None => false
                 end in
  match pass with
  | LocatePass.EnvelopeOnly => skipped
  | LocatePass.Rest => negb skipped
  end.

Section Locate.
Context `{Regexes} `{Base64}.

Definition is_key_char (c : ascii) : bool :=
  Str.is_ascii_lower c || Str.is_ascii_digit c || Ascii.eqb c "_".

Definition starts_lower (key : string) : bool :=
  match key with
  | String c _ => Str.is_ascii_lower c
  | EmptyString => false
  end.

Definition safe_key (key : string) : string :=
  if negb (Str.is_empty key) && (String.length key <=? 24)%nat && starts_lower key
     && Str.all is_key_char key
     && bool_decide (Hard.detect_hard_secret key = None)
  then key else "<field>".

Definition render_seg (out : string) (seg : Seg) : string :=
  match seg with
  | Key k => (if Str.is_empty out then out else out +:+ ".") +:+ safe_key k
  | Index i => out +:+ "[" +:+ pretty i +:+ "]"
  end.

Definition render_path (path : list Seg) : string :=
  match path with
  | [] => "the request body"
  | _ => foldl render_seg "" path
  end.

(** The loops over the children end with the first hit. *)
Fixpoint locate_walk (v : Value) (parent_key : option string) (path : list Seg) (pass : LocatePass)
    (budget : LocateBudget) : option string * LocateBudget :=
  match v with
  | JStr s =>
      if negb (wanted pass parent_key) then (None, budget)
      else
        let '(allowed, budget) := allows (String.length s) budget in
        if negb allowed then (None, budget)
        else
          match Hard.detect_hard_secret s with
          | Some _ => (Some (render_path path), budget)
          | None => (None, budget)
          end
  | JArr items =>
      (fix go (i : nat) (items : list Value) budget :=
         match items with
         | [] => (None, budget)
         | item :: rest =>
             match locate_walk item None (path ++ [Index i]) pass budget with
             | (Some hit, budget) => (Some hit, budget)
             | (None, budget) => go (S i) rest budget
             end
         end) 0%nat items budget
  | JObj obj =>
      (fix go (obj : list (string * Value)) budget :=
         match obj with
         | [] => (None, budget)
         | (k, val) :: rest =>
             match locate_walk val (Some k) (path ++ [Key k]) pass budget with
             | (Some hit, budget) => (Some hit, budget)
             | (None, budget) => go rest budget
             end
         end) obj budget
  | _ => (None, budget)
  end.

Definition locate_residual (v : Value) : option string :=
  let '(hit, budget) := locate_walk v None [] LocatePass.EnvelopeOnly (mkLocateBudget 0 0) in
  match hit with
  | Some at_ => Some at_
  | None => (locate_walk v None [] LocatePass.Rest budget).1
  end.
End Locate.
