(* ===== verification/OutboundGate.v ===== *)
(** * What the gate does with a request

    [src/crates/vigil-outbound/src/server.rs]: [handle], from the request of the
    agent to what goes upstream and what comes back, with the counters and the
    audit it leaves. The sockets and the runtime are left out; what an upstream
    answers is an interface ([Upstream]), and so is who keeps the audit
    ([GateAudit]). *)

From S2P Require Import Prelude Text Types Json Deps Holes Rules HardRedact Ipc Outbound.

(** ** Requests and answers *)

(** The bytes a client sends, and whether the stream then breaks. *)
Record Body := mkBody { bo_bytes : string; bo_fails : bool }.

Record HttpRequest := mkHttpRequest {
  hq_method : string;
  (** [None]: the target has no path. *)
  hq_path_and_query : option string;
  hq_headers : Headers;
  hq_body : Body;
}.

(** [None] is a chunk that could not be read. *)
Record HttpResponse := mkHttpResponse {
  hp_status : Z;
  hp_headers : Headers;
  hp_chunks : list (option string);
}.

Record UpstreamRequest := mkUpstreamRequest {
  uq_method : string;
  uq_url : string;
  uq_headers : Headers;
  uq_body : option string;
}.

Record SendError := mkSendError { is_timeout : bool; is_connect : bool }.

(** What the [n]-th request to an upstream gets, and how long the gate is up then. *)
Class Upstream := {
  send : nat → UpstreamRequest → result SendError HttpResponse;
  uptime_secs : nat → Z;
}.

(** [trait GateAudit] *)
Class GateAudit (A : Type) := {
  audit_rewritten : RouteKind → RewriteReport → A → A;
  audit_blocked : option RouteKind → string → A → A;
  audit_upstream_error : RouteKind → string → A → A;
  dropped_events : A → Z;
}.

(** [NoopAudit] *)
Definition NoopAudit : GateAudit unit := {|
  audit_rewritten _ _ a := a;
  audit_blocked _ _ a := a;
  audit_upstream_error _ _ a := a;
  dropped_events _ := 0%Z;
|}.

(** ** The gate *)

Definition DEFAULT_LISTEN : string := "127.0.0.1:8445".
Definition DEFAULT_MAX_BODY_BYTES : Z := 64 * 1024 * 1024.

Record GateConfig := mkGateConfig { gc_routes : Routes; gc_max_body_bytes : Z }.

Definition default_gate_config : GateConfig := mkGateConfig default_routes DEFAULT_MAX_BODY_BYTES.

Record Counters := mkCounters {
  co_requests : Z;
  co_rewritten : Z;
  co_blocked : Z;
  co_upstream_errors : Z;
}.

(** The counters, the audit, and what has gone to upstreams so far. *)
Record Gate (A : Type) := mkGate {
  ga_counters : Counters;
  ga_audit : A;
  ga_sent : list UpstreamRequest;
}.
Arguments mkGate {A} _ _ _.
Arguments ga_counters {A} _.
Arguments ga_audit {A} _.
Arguments ga_sent {A} _.

(** The connections at once: the peer must be on this host, and a slot free. *)
Definition MAX_INFLIGHT_CONNECTIONS : nat := 64.

Definition accept_peer (is_loopback : bool) (inflight : nat) : nat * bool :=
  if negb is_loopback then (inflight, false)
  else
    let '(counter, full) := fetch_add inflight MAX_INFLIGHT_CONNECTIONS in
    if full then ((counter - 1)%nat, false) else (counter, true).

(** ** Headers and bodies *)

Definition HOP_BY_HOP : list string :=
  ["connection"; "keep-alive"; "proxy-authenticate"; "proxy-authorization"; "te"; "trailer";
   "transfer-encoding"; "upgrade"].

Definition is_hop_by_hop (name : string) : bool := existsb (String.eqb name) HOP_BY_HOP.

(** The headers that go upstream, and those that come back. *)
Definition request_headers (hs : Headers) : Headers :=
  List.filter (λ h, negb (is_hop_by_hop h.1 || String.eqb h.1 "host"
                          || String.eqb h.1 "content-length" || String.eqb h.1 "expect")) hs.

Definition response_headers (hs : Headers) : Headers :=
  List.filter (λ h, negb (String.eqb h.1 "connection"))
    (List.filter (λ h, negb (is_hop_by_hop h.1 || String.eqb h.1 "content-length"
                             || String.eqb h.1 "transfer-encoding")) hs).

Definition is_ascii_whitespace (c : ascii) : bool :=
  existsb (λ n, byte_is n c) [32; 9; 10; 12; 13]%nat.

Definition has_body (method : string) : bool :=
  negb (existsb (String.eqb method) ["GET"; "HEAD"; "OPTIONS"; "DELETE"]).

(** [Limited::new(body, max).collect()] *)
Definition collect_limited (max : Z) (body : Body) : option string :=
  if bo_fails body || (max <? Z.of_nat (String.length (bo_bytes body)))%Z then None
  else Some (bo_bytes body).

(** The chunks as they come; nothing is read after one that fails. *)
Fixpoint relay (chunks : list (option string)) : list (option string) :=
  match chunks with
  | [] => []
  | Some bytes :: rest => Some bytes :: relay rest
  | None :: _ => [None]
  end.

Definition residual_message (kind at_ : string) : string :=
  "a " +:+ kind +:+ " credential survives at " +:+ at_
  +:+ ", a part of the request the gate cannot safely rewrite (a protocol envelope field such as a signed `thinking` block, or a duplicate JSON key); refusing to forward it. Signed reasoning blocks are replayed on every later turn, so this will keep happening for the rest of this session: drop that one assistant turn, or start a new session, and remove the credential from whatever the agent is reading".

Section Gate.
Context `{Crates} `{Regexes} `{Base64} `{Wires} `{AliasSink} `{Upstream} {A : Type} `{GateAudit A}.
Abbreviation GateM := (M (Gate A) HttpResponse).

(** [serde_json::from_slice] *)
Definition from_slice (bytes : string) : option Value :=
  if is_utf8 bytes then json_from_str bytes else None.

Definition looks_like_json (content_type : option string) (body : string) : bool :=
  match (ct ← content_type; to_str ct) with
  | Some ct => str_contains "json" (to_ascii_lowercase ct)
  | None => false
  end
  || match trim_start_matches is_ascii_whitespace body with
     | String c _ => Ascii.eqb c "{" || Ascii.eqb c "["
     | EmptyString => false
     end.

Definition error_response (status : Z) (code message : string) : HttpResponse :=
  mkHttpResponse status [("content-type", "application/json")]
    [Some (json_to_string
       (JObj [("type", JStr "error");
              ("error", JObj [("type", JStr ("vigil_outbound_" +:+ code));
                              ("message", JStr ("Vigil outbound gate: " +:+ message))])]))].

(** ** Counting *)

Definition count_request (c : Counters) : Counters :=
  mkCounters (co_requests c + 1) (co_rewritten c) (co_blocked c) (co_upstream_errors c).
Definition count_rewritten (c : Counters) : Counters :=
  mkCounters (co_requests c) (co_rewritten c + 1) (co_blocked c) (co_upstream_errors c).
Definition count_blocked (c : Counters) : Counters :=
  mkCounters (co_requests c) (co_rewritten c) (co_blocked c + 1) (co_upstream_errors c).
Definition count_upstream_error (c : Counters) : Counters :=
  mkCounters (co_requests c) (co_rewritten c) (co_blocked c) (co_upstream_errors c + 1).

Definition note (count : Counters → Counters) (audit : A → A) : GateM unit :=
  modify (λ g, mkGate (count (ga_counters g)) (audit (ga_audit g)) (ga_sent g)).

(** [Gate::block] *)
Definition block (route : option RouteKind) (status : Z) (code message : string)
    : GateM HttpResponse :=
  note count_blocked (audit_blocked route code) ;!
  ret (error_response status code message).

(** [return Ok(gate.block(..))] *)
Definition refuse {X} (route : option RouteKind) (status : Z) (code message : string) : GateM X :=
  let! response := block route status code message in throw response.

(** ** The steps of [handle] *)

Definition healthz : GateM HttpResponse :=
  let! g := gets id in
  let c := ga_counters g in
  ret (mkHttpResponse 200 [("content-type", "application/json")]
    [Some (json_to_string
       (JObj [("ok", JBool true); ("requests", JNum (co_requests c));
              ("rewritten", JNum (co_rewritten c)); ("blocked", JNum (co_blocked c));
              ("upstream_errors", JNum (co_upstream_errors c));
              ("audit_dropped", JNum (dropped_events (ga_audit g)));
              ("uptime_secs", JNum (uptime_secs (length (ga_sent g))))]))]).

Definition read_body (max : Z) (route : RouteKind) (req : HttpRequest) : GateM string :=
  if negb (has_body (hq_method req)) then ret ""
  else if contains_key "content-encoding" (hq_headers req) then
    refuse (Some route) 415 "request_content_encoding"
      "compressed request bodies cannot be inspected; send the body uncompressed"
  else
    match collect_limited max (hq_body req) with
    | Some bytes => ret bytes
    | None =>
        refuse (Some route) 413 "body_too_large" "request body exceeds the inspection limit"
    end.

(** The body to forward, and the value it was parsed to. *)
Definition inspect_body (route : RouteKind) (headers : Headers) (bytes : string)
    : GateM (option Value * string) :=
  if Str.is_empty bytes then ret (None, bytes)
  else if negb (looks_like_json (header_get "content-type" headers) bytes) then
    refuse (Some route) 415 "non_json_body"
      "only JSON request bodies can be inspected; non-JSON bodies are refused"
  else
    match from_slice bytes with
    | None => refuse (Some route) 400 "unparseable_json" "request body is not valid JSON"
    | Some value =>
        let '(value, report) := rewrite_json value in
        if rewrote report then
          note count_rewritten (audit_rewritten route report) ;!
          match to_vec value with
          | Some out => ret (Some value, out)
          | None =>
              refuse (Some route) 500 "reserialize_failed"
                "rewritten body could not be serialized"
          end
        else ret (Some value, bytes)
    end.

(** The look at the bytes that are about to go. *)
Definition check_residual (route : RouteKind) (parsed : option Value) (forwarded : string)
    : GateM unit :=
  if Str.is_empty forwarded || negb (is_utf8 forwarded) then ret tt
  else
    match Hard.detect_hard_secret forwarded with
    | None => ret tt
    | Some kind =>
        let at_ := default "a duplicated JSON key, a field name, or a part too large to pin down"
                     (v ← parsed; locate_residual v) in
        refuse (Some route) 422 "residual_secret" (residual_message kind at_)
    end.

Definition send_failure (e : SendError) : Z * string * string :=
  if is_timeout e then (504%Z, "upstream_timeout", "upstream did not answer in time")
  else if is_connect e then (502%Z, "upstream_connect", "could not connect to the upstream API")
  else (502%Z, "upstream_error", "upstream request failed").

Definition forward (route : RouteKind) (request : UpstreamRequest) : GateM HttpResponse :=
  let! n := gets (λ g, length (ga_sent g)) in
  modify (λ g, mkGate (ga_counters g) (ga_audit g) (ga_sent g ++ [request])) ;!
  match send n request with
  | Ok resp =>
      ret (mkHttpResponse (hp_status resp) (response_headers (hp_headers resp))
             (relay (hp_chunks resp)))
  | Err e =>
      let '(status, code, msg) := send_failure e in
      note count_upstream_error (audit_upstream_error route code) ;!
      throw (error_response status code msg)
  end.

Definition handle_routed (cfg : GateConfig) (resolved : Resolved) (req : HttpRequest)
    : GateM HttpResponse :=
  let route := rs_kind resolved in
  let! bytes := read_body (gc_max_body_bytes cfg) route req in
  let! inspected := inspect_body route (hq_headers req) bytes in
  let '(parsed, forwarded) := inspected in
  check_residual route parsed forwarded ;!
  forward route
    (mkUpstreamRequest (hq_method req) (rs_url resolved) (request_headers (hq_headers req))
       (if has_body (hq_method req) then Some forwarded else None)).

Definition handle (cfg : GateConfig) (req : HttpRequest) : GateM HttpResponse :=
  note count_request id ;!
  let path_and_query := default "/" (hq_path_and_query req) in
  if contains_key "origin" (hq_headers req) then
    refuse None 403 "browser_origin" "browser-originated requests are not accepted"
  else if String.eqb (hq_method req) "GET" && String.eqb path_and_query "/vigil/healthz" then healthz
  else
    match resolve (gc_routes cfg) path_and_query (hq_headers req) with
    | None =>
        refuse None 404 "unknown_route"
          "unknown route prefix (expected /anthropic, /openai, /codex or /gemini)"
    | Some resolved => handle_routed cfg resolved req
    end.
End Gate.
