(* ===== verification/OutboundProps.v ===== *)
(** * What the gate guarantees

    The replacement of credentials in a body is exact and keeps its structure; the
    search for one that is left looks at a bounded part of it and says where, not
    what; and no request goes to an upstream with a body in which a credential is
    still found. *)

From S2P Require Import Prelude Text Types Json Deps Holes Rules HardRedact HardRedactProps.
From S2P Require Import HardSpansProps ToolResult Ipc Outbound OutboundGate Concrete.

(** ** Rewriting a text *)

Section Text.
Context `{Regexes} `{Base64} `{AliasSink}.

(** What takes the place of a credential, and the span with it in. *)
Definition replacement (s : string) (h : Hole) : string :=
  match alias_for (h_kind h) (slice (h_start h) (h_end h) s) with
  | Some body => "secret://" +:+ body
  | None => Hard.marker (h_kind h)
  end.

Definition filled (s : string) (h : Hole) : Hole := mkHole (h_start h) (h_end h) (replacement s h).

(** A text, whole, with every credential replaced in place. *)
Definition without_credentials (s : string) : string :=
  assembled id 0 (filled s <$> Hard.hard_secret_spans s) s.

Definition total_of (kinds : list (string * nat)) : nat := foldr (λ kn n, kn.2 + n)%nat 0%nat kinds.

(** The number of replacements a report counts. *)
Definition kind_total (r : RewriteReport) : nat := total_of (rp_kinds r).

Lemma bump_kind_total kind kinds : total_of (bump_kind kind kinds) = S (total_of kinds).
Proof.
  induction kinds as [|[k n] rest IH]; [done|]. cbn [bump_kind].
  destruct (String.eqb k kind); simpl in *; lia.
Qed.

Lemma bump_total kind r : kind_total (bump kind r) = S (kind_total r).
Proof. apply bump_kind_total. Qed.

Lemma filled_ordered s p hs : ordered p hs → ordered p (filled s <$> hs).
Proof. revert p. induction hs as [|h hs IH]; intros p; [done|]. simpl. intros [? ?]. auto. Qed.

Lemma filled_within s n hs : within n hs → within n (filled s <$> hs).
Proof. intros Hw. by apply Forall_fmap. Qed.

(** From the last span to the first, each sees the bytes of the original. *)
Lemma replace_spans s p hs report :
  ordered p hs → within (String.length s) hs →
  let '(out, report') := foldr replace_span (s, report) hs in
  out = replace_holes id (filled s <$> hs) s ∧
  kind_total report' = (kind_total report + length hs)%nat.
Proof.
  revert p. induction hs as [|h hs IH]; intros p; simpl; [intros _ _; split; [done|lia]|].
  intros [Hp Ho] [Hw Hws]%Forall_cons. specialize (IH _ Ho Hws).
  destruct (foldr replace_span (s, report) hs) as [out r]. destruct IH as [-> Hr].
  rewrite (replace_holes_cons id (filled s h)). cbn [filled h_start h_end h_kind id replace_span].
  assert (slice (h_start h) (h_end h) (replace_holes id (filled s <$> hs) s)
          = slice (h_start h) (h_end h) s) as E.
  { unfold slice. f_equal. apply replaced_prefix; [by apply filled_ordered|by apply filled_within|done]. }
  rewrite E. unfold replacement. destruct (alias_for _ _) as [body|]; (split; [done|]);
    rewrite bump_total; change (kind_total (mkRewriteReport (rp_kinds r) _ _)) with (kind_total r); lia.
Qed.

Definition applicable (s : string) : bool :=
  spans_applicable s ((λ h, (h_start h, h_end h)) <$> Hard.hard_secret_spans s).

(** A leaf, as it is forwarded. *)
Definition rewritten (s : string) : string := if applicable s then without_credentials s else s.

Lemma without_nothing s : Hard.hard_secret_spans s = [] → without_credentials s = s.
Proof. unfold without_credentials. by intros ->. Qed.

End Text.

Section Rewriting.
Context `{HardLaws} `{Base64} `{AliasSink}.

Lemma hard_spans_within s :
  ordered 0 (Hard.hard_secret_spans s) ∧ within (String.length s) (Hard.hard_secret_spans s).
Proof.
  unfold Hard.hard_secret_spans. destruct (is_match PEM_RE s).
  - simpl. split; [lia|]. constructor; [simpl; lia|constructor].
  - destruct (merged_spec _ _ (all_hits_within s)) as (Ho & Hw & _). by split.
Qed.

Lemma rewrite_text_spec s report :
  let '(new, report') := rewrite_text s report in
  default s new = rewritten s ∧
  kind_total report' = (kind_total report
    + if applicable s then length (Hard.hard_secret_spans s) else 0)%nat.
Proof.
  unfold rewrite_text, rewritten. fold (applicable s).
  destruct (Hard.hard_secret_spans s) as [|h hs] eqn:E.
  { rewrite without_nothing by done. split; [by destruct (applicable s)|].
    destruct (applicable s); simpl; lia. }
  rewrite <- E. fold (applicable s). destruct (applicable s); simpl; [|split; [done|lia]].
  destruct (hard_spans_within s) as [Ho Hw]. pose proof (replace_spans s 0 _ report Ho Hw) as Hr.
  destruct (foldr replace_span (s, report) _) as [out r]. destruct Hr as [-> Hr]. split; [|done].
  unfold without_credentials. simpl. apply replaced_whole; [by apply filled_ordered|by apply filled_within].
Qed.

(** ** Rewriting a body *)

(** The value that is forwarded for [v]. *)
Fixpoint rewritten_tree (v : Value) : Value :=
  match v with
  | JStr s => JStr (rewritten s)
  | JArr items => JArr (map rewritten_tree items)
  | JObj obj =>
      JObj (map (λ kv,
        (kv.1,
         match kv.2 with
         | JStr s =>
             JStr (if is_envelope_key kv.1 then s
                   else if Hard.is_secret_key_name kv.1
                           && (secret_value_min_chars kv.1 <=? char_count s)%nat
                   then "[REDACTED env_assignment]" else rewritten s)
         | _ => rewritten_tree kv.2
         end)) obj)
  | _ => v
  end.

(** A computation over a tree that leaves the report as it is has changed nothing. *)
Definition walked (v v' : Value) (r r' : RewriteReport) : Prop :=
  v' = rewritten_tree v ∧ (kind_total r ≤ kind_total r')%nat ∧
  (kind_total r' = kind_total r → v' = v).

Lemma rewrite_leaf_walked s r :
  walked (JStr s) (rewrite_leaf s r).1 r (rewrite_leaf s r).2.
Proof.
  unfold rewrite_leaf. pose proof (rewrite_text_spec s r) as Hs.
  destruct (rewrite_text s r) as [new r']. destruct Hs as [-> Hr]. unfold walked. simpl.
  split_and!; [done|lia|]. intros E. unfold rewritten. destruct (applicable s); [|done].
  rewrite without_nothing; [done|]. apply length_zero_iff_nil. lia.
Qed.

Lemma map_acc_walked {A} (f : A → RewriteReport → A * RewriteReport) (g : A → A) l r :
  Forall (λ x, ∀ r, (f x r).1 = g x ∧ (kind_total r ≤ kind_total (f x r).2)%nat ∧
                    (kind_total (f x r).2 = kind_total r → (f x r).1 = x)) l →
  let '(l', r') := map_acc f l r in
  l' = map g l ∧ (kind_total r ≤ kind_total r')%nat ∧ (kind_total r' = kind_total r → l' = l).
Proof.
  intros Hl. revert r. induction Hl as [|x l Hx _ IH]; intros r; simpl; [split_and!; done|].
  specialize (Hx r). destruct (f x r) as [y r1]. simpl in Hx. destruct Hx as (-> & Hle & Hsame).
  specialize (IH r1). destruct (map_acc f l r1) as [ys r2]. destruct IH as (-> & Hle2 & Hsame2).
  split_and!; [done|lia|]. intros E. f_equal; [apply Hsame; lia|apply Hsame2; lia].
Qed.

Lemma walk_walked v : ∀ r, walked v (walk v r).1 r (walk v r).2.
Proof.
  induction v as [|b|z|t|s|items IH|obj IH] using value_ind; intros r;
    try (unfold walked; simpl; split_and!; done || lia).
  - apply rewrite_leaf_walked.
  - cbn [walk]. pose proof (map_acc_walked walk rewritten_tree items r) as Hm.
    destruct (map_acc walk items r) as [l r'].
    destruct Hm as (-> & Hle & Hs); [|unfold walked; split_and!; [done|done|by intros E; rewrite (Hs E)]].
    exact IH.
  - cbn [walk]. match goal with |- context [map_acc ?f obj r] =>
      pose proof (map_acc_walked f (λ kv, (kv.1, match kv.2 with
         | JStr s => JStr (if is_envelope_key kv.1 then s
                   else if Hard.is_secret_key_name kv.1
                           && (secret_value_min_chars kv.1 <=? char_count s)%nat
                   then "[REDACTED env_assignment]" else rewritten s)
         | _ => rewritten_tree kv.2 end)) obj r) as Hm; destruct (map_acc f obj r) as [l r'] end.
    destruct Hm as (-> & Hle & Hs); [|unfold walked; split_and!; [done|done|by intros E; rewrite (Hs E)]].
    eapply Forall_impl; [exact IH|]. intros [k val] Hv r0. simpl in Hv.
    destruct val as [|b|z|t|s|items|fields]; simpl; try (split_and!; done || lia).
    + destruct (is_envelope_key k); [split_and!; done|].
      unfold is_named_secret. destruct (Hard.is_secret_key_name k && _).
      { cbn [fst snd]. rewrite bump_total. split_and!; [done|lia|lia]. }
      destruct (rewrite_leaf_walked s r0) as (E & Hle1 & Hs1).
      destruct (rewrite_leaf s r0) as [val r1]. simpl in *. subst.
      split_and!; [done|done|]. intros E. by rewrite (Hs1 E).
    + destruct (Hv r0) as (E & Hle1 & Hs1). cbn [walk] in *.
      destruct (map_acc walk items r0) as [l1 r1]. simpl in *. split_and!; [by rewrite E|done|].
      intros E1. by rewrite (Hs1 E1).
    + destruct (Hv r0) as (E & Hle1 & Hs1). cbn [walk] in *.
      destruct (map_acc _ fields r0) as [l1 r1]. simpl in *. split_and!; [by rewrite E|done|].
      intros E1. by rewrite (Hs1 E1).
Qed.

(** C12. A body is rewritten in place and nowhere else. Keys, numbers, the shape and the
    fields of the protocol stay; under a key that names a secret a string gives way to a
    placeholder; in every other string each span of a credential, and only that, is
    replaced by its placeholder or by the alias made for it. Without aliases, the text
    that is forwarded does not depend on what is in the spans. And a body of which
    nothing is reported is unchanged. *)
Theorem bodies_are_rewritten_in_place v :
  let '(v', report) := rewrite_json v in
  v' = rewritten_tree v ∧
  (rewrote report = false → v' = v) ∧
  (∀ s t, (∀ kind value, alias_for kind value = None) →
     Hard.hard_secret_spans t = Hard.hard_secret_spans s → applicable t = applicable s →
     applicable s = true →
     agree_on (λ i, ¬ Exists (in_hole i) (Hard.hard_secret_spans s)) s t → rewritten s = rewritten t).
Proof.
  unfold rewrite_json. destruct (walk_walked v empty_rewrite) as (E & _ & Hs).
  destruct (walk v empty_rewrite) as [v' report]. simpl in *. split_and!; [done| |].
  - intros Hr. apply Hs. unfold rewrote, kind_total in *. by destruct (rp_kinds report).
  - intros s t Ha Hsp Hap Hok Hag. unfold rewritten. rewrite Hap, Hok. unfold without_credentials.
    rewrite Hsp. assert (filled t <$> Hard.hard_secret_spans s = filled s <$> Hard.hard_secret_spans s) as ->.
    { apply list_fmap_ext. intros _ h _. unfold filled, replacement. by rewrite !Ha. }
    destruct (hard_spans_within s) as [Ho _]. apply assembled_agree; [by apply filled_ordered|].
    destruct Hag as [Hl Hag]. split; [done|]. intros i [_ Hni]. apply Hag. intros Hex. apply Hni.
    by apply Exists_fmap.
Qed.
End Rewriting.

(** ** Requests *)

Section Requests.
Context `{Crates} `{Regexes} `{Base64} `{WiresLaws} `{AliasSink} `{Upstream} {A : Type} `{GateAudit A}.

(** The gate answers by itself: the refusal is counted and in the audit. *)
Definition refused {X} (route : option RouteKind) (g : Gate A) (r : result HttpResponse X)
    (g' : Gate A) : Prop :=
  ∃ status code message, (400 ≤ status)%Z ∧ r = Err (error_response status code message) ∧
    ga_counters g' = count_blocked (ga_counters g) ∧
    ga_audit g' = audit_blocked route code (ga_audit g) ∧ ga_sent g' = ga_sent g.

Lemma refuse_refused {X} route status code message (g : Gate A) r g' :
  (400 ≤ status)%Z → refuse route status code message g = (r : result HttpResponse X, g') →
  refused route g r g'.
Proof. intros Hs [= <- <-]. by exists status, code, message. Qed.

Definition body_of (max : Z) (req : HttpRequest) (bytes : string) : Prop :=
  if has_body (hq_method req)
  then contains_key "content-encoding" (hq_headers req) = false ∧
       collect_limited max (hq_body req) = Some bytes
  else bytes = "".

Lemma read_body_spec max route req (g : Gate A) r g' :
  read_body max route req g = (r, g') →
  refused (Some route) g r g' ∨ ∃ bytes, r = Ok bytes ∧ g' = g ∧ body_of max req bytes.
Proof.
  unfold read_body, body_of. destruct (has_body _); simpl.
  - destruct (contains_key _ _); [intros Hr%refuse_refused; [by left|lia]|].
    destruct (collect_limited _ _) as [bytes|]; [|intros Hr%refuse_refused; [by left|lia]].
    intros [= <- <-]. right. by exists bytes.
  - intros [= <- <-]. right. by exists "".
Qed.

(** What may be forwarded for a body: itself or, if anything in it was replaced, what
    it was rewritten to. *)
Definition inspected (bytes forwarded : string) : Prop :=
  bytes = "" ∧ forwarded = "" ∨
  is_utf8 forwarded = true ∧
  ∃ v, from_slice bytes = Some v ∧
    if rewrote (rewrite_json v).2 then to_vec (rewrite_json v).1 = Some forwarded
    else forwarded = bytes.

(** The gate after it has counted a rewritten body, or the same gate. *)
Definition maybe_rewritten (route : RouteKind) (g g' : Gate A) : Prop :=
  g' = g ∨ ∃ report, g' = mkGate (count_rewritten (ga_counters g))
                            (audit_rewritten route report (ga_audit g)) (ga_sent g).

Lemma from_slice_utf8 bytes v : from_slice bytes = Some v → is_utf8 bytes = true.
Proof. unfold from_slice. by destruct (is_utf8 bytes). Qed.

Lemma inspect_body_spec route hs bytes (g : Gate A) r g' :
  inspect_body route hs bytes g = (r, g') →
  ∃ g1, maybe_rewritten route g g1 ∧
    (refused (Some route) g1 r g' ∨
     ∃ parsed forwarded, r = Ok (parsed, forwarded) ∧ g' = g1 ∧ inspected bytes forwarded).
Proof.
  unfold inspect_body. destruct (Str.is_empty bytes) eqn:Ee.
  { intros [= <- <-]. apply Str.is_empty_spec in Ee as ->. exists g. split; [by left|]. right.
    eexists _, _. split; [done|]. split; [done|]. by left. }
  destruct (looks_like_json _ _); simpl;
    [|intros Hr%refuse_refused; [exists g; split; [by left|by left]|lia]].
  destruct (from_slice bytes) as [v|] eqn:Ev;
    [|intros Hr%refuse_refused; [exists g; split; [by left|by left]|lia]].
  destruct (rewrite_json v) as [v' report] eqn:Er. destruct (rewrote report) eqn:Ew.
  - unfold note, modify, bind. destruct (to_vec v') as [out|] eqn:Eo.
    + intros [= <- <-]. eexists. split; [by right; exists report|]. right. eexists _, _.
      split; [done|]. split; [done|]. right. split; [by eapply to_vec_utf8|]. exists v.
      split; [done|]. rewrite Er. simpl. by rewrite Ew.
    + intros Hr%refuse_refused; [|lia]. eexists. split; [by right; exists report|]. by left.
  - intros [= <- <-]. exists g. split; [by left|]. right. eexists _, _. split; [done|]. split; [done|].
    right. split; [by eapply from_slice_utf8|]. exists v. split; [done|]. rewrite Er. simpl. by rewrite Ew.
Qed.

Lemma check_residual_spec route parsed bytes forwarded (g : Gate A) r g' :
  inspected bytes forwarded → check_residual route parsed forwarded g = (r, g') →
  refused (Some route) g r g' ∨
  r = Ok tt ∧ g' = g ∧ (forwarded = "" ∨ Hard.detect_hard_secret forwarded = None).
Proof.
  intros Hi. unfold check_residual. destruct (Str.is_empty forwarded) eqn:Ee.
  { apply Str.is_empty_spec in Ee as ->. intros [= <- <-]. right. by split_and!; [..|left]. }
  destruct Hi as [[_ ->]|[Hu _]]; [done|]. rewrite Hu. simpl.
  destruct (Hard.detect_hard_secret forwarded) as [kind|].
  - intros Hr%refuse_refused; [by left|lia].
  - intros [= <- <-]. right. by split_and!; [..|right].
Qed.

Lemma forward_spec route u (g : Gate A) r g' :
  forward route u g = (r, g') →
  ga_sent g' = ga_sent g ++ [u] ∧ co_requests (ga_counters g') = co_requests (ga_counters g).
Proof.
  unfold forward, gets, modify, bind. destruct (send _ u) as [resp|e].
  - by intros [= <- <-].
  - destruct (send_failure e) as [[status code] msg]. by intros [= <- <-].
Qed.

(** What one request may send. *)
Definition checked_request (cfg : GateConfig) (req : HttpRequest) (u : UpstreamRequest) : Prop :=
  contains_key "origin" (hq_headers req) = false ∧
  (∃ kind base rest,
     route_of (gc_routes cfg) (default "/" (hq_path_and_query req)) (hq_headers req)
       = Some (kind, base, rest) ∧
     uq_url u = trim_end_matches (λ c, Ascii.eqb c "/") base +:+ rest) ∧
  uq_method u = hq_method req ∧ uq_headers u = request_headers (hq_headers req) ∧
  match uq_body u with
  | None => has_body (hq_method req) = false
  | Some forwarded =>
      ∃ bytes, body_of (gc_max_body_bytes cfg) req bytes ∧ inspected bytes forwarded ∧
        (forwarded = "" ∨ Hard.detect_hard_secret forwarded = None)
  end.

Definition is_health_check (req : HttpRequest) : Prop :=
  hq_method req = "GET" ∧ hq_path_and_query req = Some "/vigil/healthz".

Lemma handle_routed_spec cfg kind base rest req (g : Gate A) r g' :
  contains_key "origin" (hq_headers req) = false →
  route_of (gc_routes cfg) (default "/" (hq_path_and_query req)) (hq_headers req)
    = Some (kind, base, rest) →
  handle_routed cfg (mkResolved kind (trim_end_matches (λ c, Ascii.eqb c "/") base +:+ rest)) req g
    = (r, g') →
  (∃ g1, maybe_rewritten kind g g1 ∧ refused (Some kind) g1 r g') ∨
  ∃ u, ga_sent g' = ga_sent g ++ [u] ∧ co_requests (ga_counters g') = co_requests (ga_counters g) ∧
    checked_request cfg req u.
Proof.
  intros Ho Hrt. unfold handle_routed. cbn [rs_kind rs_url]. unfold bind at 1.
  destruct (read_body _ kind req g) as [rb g1] eqn:Eb.
  apply read_body_spec in Eb as [Hr|(bytes & -> & -> & Hb)].
  { destruct Hr as (st & code & msg & Hs & -> & Hr). intros [= <- <-]. left. exists g.
    split; [by left|]. by exists st, code, msg. }
  unfold bind at 1. destruct (inspect_body kind _ bytes g) as [ri g2] eqn:Ei.
  apply inspect_body_spec in Ei as (g1 & Hm & [Hr|(parsed & forwarded & -> & -> & Hi)]).
  { destruct Hr as (st & code & msg & Hs & -> & Hr). intros [= <- <-]. left. exists g1.
    split; [done|]. by exists st, code, msg. }
  unfold bind at 1. destruct (check_residual kind parsed forwarded g1) as [rc g3] eqn:Ec.
  apply (check_residual_spec _ _ _ _ _ _ _ Hi) in Ec as [Hr|(-> & -> & Hc)].
  { destruct Hr as (st & code & msg & Hs & -> & Hr). intros [= <- <-]. left. exists g1.
    split; [done|]. by exists st, code, msg. }
  intros [Hf Hq]%forward_spec. right. eexists. split; [|split].
  { rewrite Hf. f_equal. by destruct Hm as [->|[report ->]]. }
  { rewrite Hq. by destruct Hm as [->|[report ->]]. }
  unfold checked_request. cbn [uq_url uq_method uq_headers uq_body]. split_and!; try done.
  { by exists kind, base, rest. }
  destruct (has_body (hq_method req)) eqn:Eh; [|done]. by exists bytes.
Qed.

(** C11. No body goes to a model with a credential that can be found in it. Every request
    to the gate sends at most one upstream, and none if a browser made it or its path has
    no route. What is sent goes to the upstream configured for its route, with its method
    and its end-to-end headers. Its body, unless empty, was JSON, and is that body, byte
    for byte, or what it was rewritten to; in the bytes that go out no hard rule finds a
    credential. Whatever is not sent is refused, with an error the counters and the audit
    have, or was the question whether the gate is up. *)
Theorem no_body_leaves_with_a_credential cfg req (g : Gate A) r g' :
  handle cfg req g = (r, g') →
  co_requests (ga_counters g') = (co_requests (ga_counters g) + 1)%Z ∧
  ((∃ u, ga_sent g' = ga_sent g ++ [u] ∧ checked_request cfg req u) ∨
   ga_sent g' = ga_sent g ∧
   ((∃ route status code message, (400 ≤ status)%Z ∧ r = Err (error_response status code message) ∧
       co_blocked (ga_counters g') = (co_blocked (ga_counters g) + 1)%Z ∧
       ∃ a, ga_audit g' = audit_blocked route code a) ∨
    is_health_check req ∧ is_ok r = true ∧ ga_audit g' = ga_audit g)).
Proof.
  unfold handle. unfold bind at 1, note at 1, modify at 1. cbn zeta.
  set (g0 := mkGate (count_request (ga_counters g)) (id (ga_audit g)) (ga_sent g)).
  destruct (contains_key "origin" (hq_headers req)) eqn:Eo.
  { intros (st & code & msg & Hs & -> & Ec & Ea & Es)%refuse_refused; [|lia]. rewrite Ec, Es.
    split; [done|]. right. split; [done|]. left. exists None, st, code, msg.
    split_and!; [done|done|done|]. by eexists. }
  destruct (_ && _) eqn:Eh.
  { apply andb_true_iff in Eh as [Em%String.eqb_eq Ep%String.eqb_eq]. intros [= <- <-].
    split; [done|]. right. split; [done|]. right. split_and!; [|done|done]. split; [done|].
    destruct (hq_path_and_query req); simpl in Ep; by simplify_eq. }
  unfold resolve. destruct (route_of _ _ _) as [[[kind base] rest]|] eqn:Er; simpl.
  - intros [(g1 & Hm & st & code & msg & Hs & -> & Ec & Ea & Es)|(u & Es & Eq & Hu)]%handle_routed_spec;
      [| |done|done].
    + split; [rewrite Ec; by destruct Hm as [->|[report ->]]|]. right.
      split; [rewrite Es; by destruct Hm as [->|[report ->]]|]. left. exists (Some kind), st, code, msg.
      split_and!; [done|done| |by eexists]. rewrite Ec. by destruct Hm as [->|[report ->]].
    + rewrite Eq. split; [done|]. left. by exists u.
  - intros (st & code & msg & Hs & -> & Ec & Ea & Es)%refuse_refused; [|lia]. rewrite Ec, Es.
    split; [done|]. right. split; [done|]. left. exists None, st, code, msg.
    split_and!; [done|done|done|]. by eexists.
Qed.
End Requests.

(** ** Where a credential is left *)

Section Locating.
Context `{Regexes} `{Base64}.

(** The leaves of a value in the order of the text: where each is, the key it stands
    under, the string. *)
Record Leaf := mkLeaf { lf_path : list Seg; lf_key : option string; lf_text : string }.

Fixpoint leaf_list (v : Value) (key : option string) (path : list Seg) : list Leaf :=
  match v with
  | JStr s => [mkLeaf path key s]
  | JArr items =>
      (fix go (i : nat) (items : list Value) :=
         match items with
         | [] => []
         | item :: rest => leaf_list item None (path ++ [Index i]) ++ go (S i) rest
         end) 0%nat items
  | JObj obj => flat_map (λ kv, leaf_list kv.2 (Some kv.1) (path ++ [Key kv.1])) obj
  | _ => []
  end.

(** The search over them as one loop. *)
Fixpoint search (pass : LocatePass) (l : list Leaf) (budget : LocateBudget)
    : option string * LocateBudget :=
  match l with
  | [] => (None, budget)
  | leaf :: rest =>
      if negb (wanted pass (lf_key leaf)) then search pass rest budget
      else
        let '(allowed, budget) := allows (String.length (lf_text leaf)) budget in
        if negb allowed then search pass rest budget
        else
          match Hard.detect_hard_secret (lf_text leaf) with
          | Some _ => (Some (render_path (lf_path leaf)), budget)
          | None => search pass rest budget
          end
  end.

Lemma search_app pass l1 l2 b :
  search pass (l1 ++ l2) b =
  match search pass l1 b with
  | (Some hit, b') => (Some hit, b')
  | (None, b') => search pass l2 b'
  end.
Proof.
  revert b. induction l1 as [|leaf l1 IH]; intros b; [done|]. cbn [search app].
  destruct (wanted pass (lf_key leaf)); simpl; [|apply IH].
  destruct (allows _ b) as [[] b']; simpl; [|apply IH].
  destruct (Hard.detect_hard_secret _); [done|apply IH].
Qed.

Lemma locate_walk_search v : ∀ key path pass b,
  locate_walk v key path pass b = search pass (leaf_list v key path) b.
Proof.
  induction v as [|x|z|t|s|items IH|obj IH] using value_ind; intros key path pass b; try done.
  - cbn [locate_walk leaf_list]. revert b. generalize 0%nat as i.
    induction IH as [|item rest Hitem _ IHr]; intros i b; [done|].
    rewrite search_app, <- Hitem.
    destruct (locate_walk item _ _ pass b) as [[hit|] b1]; [done|]. apply IHr.
  - cbn [locate_walk leaf_list]. revert b. induction IH as [|[k val] rest Hval _ IHr]; intros b; [done|].
    simpl in Hval. cbn [flat_map fst snd]. rewrite search_app, <- Hval.
    destruct (locate_walk val _ _ pass b) as [[hit|] b1]; [done|]. apply IHr.
Qed.

(** ** What the search finds *)

Definition leaf_bytes (l : list Leaf) : Z :=
  foldr (λ leaf n, Z.of_nat (String.length (lf_text leaf)) + n)%Z 0%Z l.

Definition clean (leaf : Leaf) : Prop := Hard.detect_hard_secret (lf_text leaf) = None.

(** The leaves of one pass. *)
Definition of_pass (pass : LocatePass) (l : list Leaf) : list Leaf :=
  List.filter (λ leaf, wanted pass (lf_key leaf)) l.

Definition within_budget (b : LocateBudget) : Prop :=
  (0 ≤ lb_leaves b ≤ LOCATE_MAX_LEAVES)%Z ∧ (0 ≤ lb_bytes b ≤ LOCATE_MAX_BYTES)%Z.

(** What was looked at between two budgets, up to the hit. *)
Definition looked_at (l : list Leaf) (b : LocateBudget) (hit : option string) (b' : LocateBudget)
    (looked : list Leaf) : Prop :=
  looked `sublist_of` l ∧
  lb_leaves b' = (lb_leaves b + Z.of_nat (length looked))%Z ∧
  lb_bytes b' = (lb_bytes b + leaf_bytes looked)%Z ∧
  match hit with
  | Some at_ => ∃ before leaf, looked = before ++ [leaf] ∧ Forall clean before ∧ ¬ clean leaf ∧
                  at_ = render_path (lf_path leaf)
  | None =>
      Forall clean looked ∧
      ((lb_leaves b + Z.of_nat (length l) ≤ LOCATE_MAX_LEAVES)%Z →
       (lb_bytes b + leaf_bytes l ≤ LOCATE_MAX_BYTES)%Z → looked = l)
  end.

Lemma leaf_bytes_app l1 l2 : leaf_bytes (l1 ++ l2) = (leaf_bytes l1 + leaf_bytes l2)%Z.
Proof. induction l1 as [|leaf l1 IH]; simpl; lia. Qed.

Lemma leaf_bytes_nonneg l : (0 ≤ leaf_bytes l)%Z.
Proof. induction l as [|leaf l IH]; simpl; lia. Qed.

Lemma allows_spec len b b' allowed :
  within_budget b → allows len b = (allowed, b') →
  within_budget b' ∧
  if allowed then lb_leaves b' = (lb_leaves b + 1)%Z ∧ lb_bytes b' = (lb_bytes b + Z.of_nat len)%Z
  else b' = b ∧ ((LOCATE_MAX_LEAVES < lb_leaves b + 1) ∨ (LOCATE_MAX_BYTES < lb_bytes b + Z.of_nat len))%Z.
Proof.
  unfold within_budget, allows. intros [Hl Hb].
  destruct (Z.leb_spec LOCATE_MAX_LEAVES (lb_leaves b)); [intros [= <- <-]; split_and!; [lia..|done|left; lia]|].
  destruct (Z.ltb_spec (Z.max 0 (LOCATE_MAX_BYTES - lb_bytes b)) (Z.of_nat len));
    intros [= <- <-]; simpl; [split_and!; [lia..|done|right; lia]|split_and!; lia].
Qed.

Lemma search_spec pass l : ∀ b hit b',
  within_budget b → search pass l b = (hit, b') →
  within_budget b' ∧ ∃ looked, looked_at (of_pass pass l) b hit b' looked.
Proof.
  induction l as [|leaf l IH]; intros b hit b' Hb; cbn [search of_pass List.filter].
  { intros [= <- <-]. split; [done|]. exists []. unfold looked_at. simpl. split_and!; done || lia. }
  fold (of_pass pass l). destruct (wanted pass (lf_key leaf)); simpl; [|by apply IH].
  destruct (allows _ b) as [allowed b1] eqn:Ea. apply (allows_spec _ _ _ _ Hb) in Ea as [Hb1 Ha].
  destruct allowed; simpl.
  - destruct Ha as [El Eb]. destruct (Hard.detect_hard_secret (lf_text leaf)) as [k|] eqn:Ed.
    + intros [= <- <-]. split; [done|]. exists [leaf]. unfold looked_at. simpl.
      split_and!; [apply sublist_skip, sublist_nil_l|lia|lia|]. exists [], leaf.
      split_and!; [done|done|unfold clean; by rewrite Ed|done].
    + intros Hs. apply IH in Hs as (Hb' & looked & Hsub & Hl & Hby & Hhit); [|done]. split; [done|].
      exists (leaf :: looked). unfold looked_at. cbn [length leaf_bytes foldr].
      split_and!; [by apply sublist_skip|lia|fold (leaf_bytes looked); lia|].
      destruct hit as [at_|].
      * destruct Hhit as (before & x & -> & Hc & Hx & ->). exists (leaf :: before), x.
        split_and!; [done|by constructor|done|done].
      * destruct Hhit as [Hc Hall]. split; [by constructor|]. fold (leaf_bytes (of_pass pass l)).
        intros. f_equal. apply Hall; lia.
  - destruct Ha as [-> Hx]. intros Hs. apply IH in Hs as (Hb' & looked & Hsub & Hl & Hby & Hhit); [|done].
    split; [done|]. exists looked. unfold looked_at. split_and!; [by apply sublist_cons|done|done|].
    destruct hit as [at_|]; [done|]. destruct Hhit as [Hc _]. split; [done|]. cbn [length leaf_bytes foldr].
    fold (leaf_bytes (of_pass pass l)). pose proof (leaf_bytes_nonneg (of_pass pass l)). lia.
Qed.

(** The two passes share the leaves out. *)
Lemma passes_partition l :
  of_pass LocatePass.EnvelopeOnly l ++ of_pass LocatePass.Rest l ≡ₚ l ∧
  (leaf_bytes (of_pass LocatePass.EnvelopeOnly l) + leaf_bytes (of_pass LocatePass.Rest l)
   = leaf_bytes l)%Z.
Proof.
  induction l as [|leaf l [IHp IHb]]; [done|]. unfold of_pass, wanted in *. cbn [List.filter].
  destruct (match lf_key leaf with Some k => is_envelope_key k | None => false end); simpl.
  - split; [by rewrite IHp|lia].
  - split; [by rewrite <- Permutation_middle, IHp|lia].
Qed.

End Locating.

(** ** Witnesses *)

Module ToyGate.
Import Toy ToyRules.

#[export] Instance toy_wires : Wires := {|
  to_str s := Some s;
  to_vec v := let s := json_to_string v in if is_utf8 s then Some s else None;
|}.

#[export] Instance toy_wires_laws : WiresLaws.
Proof.
  split. intros v s. unfold to_vec, toy_wires. cbv zeta.
  destruct (is_utf8 (json_to_string v)) eqn:E; [by intros [= <-]|done].
Qed.

#[export] Instance toy_aliases : AliasSink := NoAlias.
#[export] Instance toy_audit : GateAudit unit := NoopAudit.

#[export] Instance toy_upstream : Upstream := {|
  send _ _ := Ok (mkHttpResponse 200 [] [Some "ok"]);
  uptime_secs _ := 0%Z;
|}.

Definition toy_gate : Gate unit := mkGate (mkCounters 0 0 0 0) tt [].

Definition toy_body : Value := JObj [("model", JStr "m"); ("content", JStr SAMPLE)].

Definition toy_request : HttpRequest :=
  mkHttpRequest "POST" (Some "/anthropic/v1/messages")
    [("content-type", "application/json"); ("x-api-key", "k")] (mkBody (json_to_string toy_body) false).
End ToyGate.

Import Toy ToyRules ToyGate.

Lemma bodies_are_rewritten_in_place_witness :
  (rewrite_json toy_body).1 =
  JObj [("model", JStr "m");
        ("content", JStr ("a [REDACTED github_token] b [REDACTED base64_payload]."))].
Proof.
  pose proof (bodies_are_rewritten_in_place toy_body) as Ht.
  destruct (rewrite_json toy_body) as [v report]. destruct Ht as [-> _]. vm_compute. reflexivity.
Defined.

Lemma no_body_leaves_with_a_credential_witness :
  ∃ u, ga_sent (handle default_gate_config toy_request toy_gate).2 = [u] ∧
    checked_request default_gate_config toy_request u.
Proof.
  destruct (handle default_gate_config toy_request toy_gate) as [r g'] eqn:E.
  destruct (no_body_leaves_with_a_credential _ _ _ _ _ E) as (_ & [(u & Hs & Hu)|[Hs _]]).
  - exists u. split; [exact Hs|exact Hu].
  - exfalso. vm_compute in E. injection E as <- <-. discriminate Hs.
Defined.
