(* ===== verification/OutboundSetup.v ===== *)
(** * Switching the outbound gate on and off

    [src/apps/vigil-hub-cli/src/outbound.rs]: the setting of the gate and its file,
    the settings of Claude Code and Codex that send their requests to the gate, what
    is kept of the values that were there before, and the audit of the gate in the
    ledger. What is printed and the request that asks a running gate how it is are
    left out; the crate [url] is an interface. Paths are those of a POSIX host. *)

From stdpp Require Import pretty.
From S2P Require Import Prelude Text Types Json Deps Db Ledger Extract Files Setup SetupMcp Documents SetupToml SetupHooks.
From S2P Require Import Outbound OutboundGate.

(** ** Socket addresses

    The textual form of [std::net::SocketAddr] as [str::parse] reads it: decimal
    octets without leading zeros, hexadecimal groups with one [::] that stands for
    at least one group, a trailing IPv4 part, a scope, a port. *)

Inductive IpAddr :=
| V4 (octets : list Z)
| V6 (groups : list Z).

Record SocketAddr := mkSocketAddr { sa_ip : IpAddr; sa_port : Z }.

(** A parser takes what it can from the front, or nothing. *)
Definition Parser (A : Type) : Type := string → option (A * string).

(** ** Numbers *)

Definition to_digit (radix : Z) (a : ascii) : option Z :=
  let n := Z.of_nat (nat_of_ascii a) in
  let d := if Str.between 48 57 a then (n - 48)%Z
           else if Str.between 97 122 a then (n - 87)%Z
           else if Str.between 65 90 a then (n - 55)%Z
           else 36%Z in
  if (d <? radix)%Z then Some d else None.

(** The digits at the front: their value, their number, what follows. *)
Fixpoint read_digits (radix acc : Z) (count : nat) (s : string) : Z * nat * string :=
  match s with
  | EmptyString => (acc, count, s)
  | String a s' =>
      match to_digit radix a with
      | Some d => read_digits radix (acc * radix + d) (S count) s'
      | None => (acc, count, s)
      end
  end.

(** [bound] is the largest value of the type. *)
Definition read_number (radix bound : Z) (max_digits : option nat) (allow_zero_prefix : bool)
    : Parser Z := λ s,
  let '(value, count, rest) := read_digits radix 0 0 s in
  if (count =? 0)%nat then None
  else if match max_digits with Some m => (m <? count)%nat | None => false end then None
  else if negb allow_zero_prefix && Str.starts_with "0" s && (1 <? count)%nat then None
  else if (bound <? value)%Z then None
  else Some (value, rest).

Definition read_given_char (c : ascii) : Parser unit := λ s,
  match s with
  | String a s' => if Ascii.eqb a c then Some (tt, s') else None
  | EmptyString => None
  end.

(** The separator comes before every part but the first. *)
Definition read_separator {A} (sep : ascii) (index : nat) (inner : Parser A) : Parser A := λ s,
  if (index =? 0)%nat then inner s else r ← read_given_char sep s; inner r.2.

(** ** Addresses *)

Definition read_octet (index : nat) : Parser Z :=
  read_separator "."%char index (read_number 10 255 (Some 3%nat) false).

Definition read_ipv4_addr : Parser (list Z) := λ s,
  a ← read_octet 0 s; b ← read_octet 1 a.2; c ← read_octet 2 b.2; d ← read_octet 3 c.2;
  Some ([a.1; b.1; c.1; d.1], d.2).

(** Up to [n] groups, of which [acc] are read; whether the last two are an IPv4
    address. *)
Fixpoint read_groups (n : nat) (acc : list Z) (s : string) : list Z * bool * string :=
  match n with
  | O => (acc, false, s)
  | S n' =>
      let i := length acc in
      match (if (n' =? 0)%nat then None else read_separator ":"%char i read_ipv4_addr s) with
      | Some ([a; b; c; d], rest) => (acc ++ [a * 256 + b; c * 256 + d]%Z, true, rest)
      | _ =>
          match read_separator ":"%char i (read_number 16 65535 (Some 4%nat) true) s with
          | Some (g, rest) => read_groups n' (acc ++ [g]) rest
          | None => (acc, false, s)
          end
      end
  end.

Definition read_ipv6_addr : Parser (list Z) := λ s,
  let '(head, head_ipv4, rest) := read_groups 8 [] s in
  if (length head =? 8)%nat then Some (head, rest)
  else if head_ipv4 then None
  else
    c1 ← read_given_char ":"%char rest;
    c2 ← read_given_char ":"%char c1.2;
    let '(tail, _, rest) := read_groups (8 - (length head + 1)) [] c2.2 in
    Some (head ++ replicate (8 - length head - length tail) 0%Z ++ tail, rest).

Definition read_port : Parser Z := λ s,
  c ← read_given_char ":"%char s; read_number 10 65535 None true c.2.

Definition read_socket_addr_v4 : Parser SocketAddr := λ s,
  ip ← read_ipv4_addr s; port ← read_port ip.2; Some (mkSocketAddr (V4 ip.1) port.1, port.2).

(** A scope that cannot be read is left for the bracket to stumble on. *)
Definition read_scope_id : string → string := λ s,
  match (c ← read_given_char "%"%char s; read_number 10 (2 ^ 32 - 1) None true c.2) with
  | Some (_, rest) => rest
  | None => s
  end.

Definition read_socket_addr_v6 : Parser SocketAddr := λ s,
  b ← read_given_char "["%char s;
  ip ← read_ipv6_addr b.2;
  e ← read_given_char "]"%char (read_scope_id ip.2);
  port ← read_port e.2;
  Some (mkSocketAddr (V6 ip.1) port.1, port.2).

(** [s.parse::<SocketAddr>().ok()] *)
Definition parse_socket_addr (s : string) : option SocketAddr :=
  match (match read_socket_addr_v4 s with
         | Some r => Some r
         | None => read_socket_addr_v6 s
         end) with
  | Some (addr, EmptyString) => Some addr
  | _ => None
  end.

Definition is_loopback (ip : IpAddr) : bool :=
  match ip with
  | V4 (a :: _) => (a =? 127)%Z
  | V4 [] => false
  | V6 groups => bool_decide (groups = [0; 0; 0; 0; 0; 0; 0; 1]%Z)
  end.

(** ** Examples *)

Example loopback_v4 : parse_socket_addr "127.0.0.1:8445" = Some (mkSocketAddr (V4 [127; 0; 0; 1]%Z) 8445).
Proof. reflexivity. Qed.

Example loopback_v6 :
  parse_socket_addr "[::1]:8445" = Some (mkSocketAddr (V6 [0; 0; 0; 0; 0; 0; 0; 1]%Z) 8445).
Proof. reflexivity. Qed.

Example mapped_v4 :
  parse_socket_addr "[::ffff:10.0.0.1%3]:08"
  = Some (mkSocketAddr (V6 [0; 0; 0; 0; 0; 65535; 2560; 1]%Z) 8).
Proof. reflexivity. Qed.

Example not_addresses :
  map parse_socket_addr ["127.0.0.01:1"; "127.0.0.1:65536"; "localhost:1"; "127.0.0.1"; "[::1]:1 "; "[1::2::3]:1"]
  = [None; None; None; None; None; None].
Proof. reflexivity. Qed.

(** ** The setting *)

Definition OUTBOUND_FILE_VERSION : Z := 1.
Definition CODEX_PROVIDER_ID : string := "vigil".
Definition CLAUDE_BASE_URL_KEY : string := "ANTHROPIC_BASE_URL".
Definition CLAUDE_TOOL_SEARCH_KEY : string := "ENABLE_TOOL_SEARCH".
Definition CLAUDE_UNSUPPORTED_MODES : list string :=
  ["CLAUDE_CODE_USE_BEDROCK"; "CLAUDE_CODE_USE_VERTEX"; "CLAUDE_CODE_USE_FOUNDRY"].

(** What is needed to put the settings of Claude Code back. *)
Record ClaudeApplied := mkClaudeApplied {
  cl_config_path : string;
  cl_previous_base_url : option string;
  cl_set_tool_search : bool;
}.

Record CodexApplied := mkCodexApplied {
  cx_config_path : string;
  cx_previous_model_provider : option string;
}.

Record AppliedAgents := mkAppliedAgents {
  aa_claude : option ClaudeApplied;
  aa_codex : option CodexApplied;
}.

Record OutboundFile := mkOutboundFile {
  of_version : Z;
  of_enabled : bool;
  of_listen : string;
  of_upstreams : Routes;
  of_agents : AppliedAgents;
}.

Definition default_outbound_file : OutboundFile :=
  mkOutboundFile OUTBOUND_FILE_VERSION false DEFAULT_LISTEN default_routes (mkAppliedAgents None None).

Record LoadedOutbound := mkLoadedOutbound { lo_file : OutboundFile; lo_warning : option string }.

Definition parse_listen (listen : string) : result string SocketAddr :=
  match parse_socket_addr listen with
  | None => Err ("invalid listen address `" +:+ listen +:+ "` (expected host:port)")
  | Some addr =>
      if negb (is_loopback (sa_ip addr)) then
        Err ("listen address `" +:+ listen +:+ "` is not loopback; the gate forwards your API credentials and must stay local")
      else Ok addr
  end.

Section SettingFile.
Context `{Host} `{Document OutboundFile}.

Definition load_outbound (path : string) : FileM LoadedOutbound :=
  let fail_closed reason :=
    ret (mkLoadedOutbound default_outbound_file
      (Some ("outbound config at " +:+ path +:+ " is " +:+ reason +:+ "; treating the gate as disabled"))) in
  let! raw := attempt (read_to_string path) in
  match raw with
  | Err IoError.NotFound => ret (mkLoadedOutbound default_outbound_file None)
  | Err _ => fail_closed "unreadable"
  | Ok raw =>
      match from_str raw with
      | None => fail_closed "malformed"
      | Some parsed =>
          if negb (of_version parsed =? OUTBOUND_FILE_VERSION)%Z
          then fail_closed "of an unrecognized version"
          else if negb (is_ok (parse_listen (of_listen parsed)))
          then fail_closed "pointing at a non-loopback or invalid listen address"
          else ret (mkLoadedOutbound parsed None)
      end
  end.

Definition store_outbound (path : string) (file : OutboundFile) : FileM unit :=
  create_parent path ;!
  let! rendered := lift (ok_or (to_string_pretty file) IoError.Other) in
  replace_file (ret tt) path (rendered +:+ newline_str).
End SettingFile.

(** ** The state of an agent *)

Module AgentState.
Inductive AgentState :=
| NotInstalled
| NotConfigured
| Active
| Stale
| Foreign (url : string)
| Unsupported (reason : string).

Definition as_str (s : AgentState) : string :=
  match s with
  | NotInstalled => "not_installed"
  | NotConfigured => "not_configured"
  | Active => "active"
  | Stale => "stale"
  | Foreign _ => "foreign"
  | Unsupported _ => "unsupported"
  end.

Definition detail (s : AgentState) : option string :=
  match s with
  | Foreign s | Unsupported s => Some s
  | _ => None
  end.
End AgentState.
Abbreviation AgentState := AgentState.AgentState.

Record AgentOutcome := mkAgentOutcome {
  ao_state : AgentState;
  ao_changed : bool;
  ao_backup : option string;
}.

Definition outcome (state : AgentState) : AgentOutcome := mkAgentOutcome state false None.

(** ** URLs *)

Record Url := mkUrl {
  ur_scheme : string;
  ur_username : string;
  ur_password : option string;
  ur_host : option string;
  ur_path : string;
}.

(** [Url::parse(s).ok()]; the text of a URL without its user name and password. *)
Class UrlCrate := {
  url_parse : string → option Url;
  url_without_userinfo : string → string;
}.

Section Urls.
Context `{UrlCrate}.

Definition is_gate_url (raw expected_path : string) : bool :=
  match url_parse (trim raw) with
  | None => false
  | Some u =>
      if negb (String.eqb (ur_scheme u) "http") || negb (Str.is_empty (ur_username u))
         || bool_decide (is_Some (ur_password u)) then false
      else
        match ur_host u with
        | Some h => existsb (String.eqb h) ["127.0.0.1"; "localhost"; "::1"]
        | None => false
        end
        && String.eqb (trim_end_matches (λ c, Ascii.eqb c "/") (ur_path u)) expected_path
  end.

Definition is_vigil_gate_url (raw : string) : bool := is_gate_url raw "/anthropic".

Definition redact_userinfo (raw : string) : string :=
  match url_parse (trim raw) with
  | Some u =>
      if negb (Str.is_empty (ur_username u)) || bool_decide (is_Some (ur_password u))
      then url_without_userinfo (trim raw) else raw
  | None => raw
  end.
End Urls.

(** ** Claude Code *)

Definition claude_gate_url (listen : string) : string := "http://" +:+ listen +:+ "/anthropic".

Definition env_truthy (v : Value) : bool :=
  match v with
  | JBool b => b
  | JStr s => existsb (String.eqb (to_ascii_lowercase (trim s))) ["1"; "true"; "yes"]
  | JNum n => bool_decide (Bytes.is_i64 n) && negb (n =? 0)%Z
  | _ => false
  end.

Definition claude_env_map (settings : Value) (path : string)
    : result SetupError (option (list (string * Value))) :=
  match settings with
  | JObj root =>
      match assoc_get "env" root with
      | None => Ok None
      | Some (JObj m) => Ok (Some m)
      | Some _ => Err (SetupError.UnsupportedConfigShape path "env")
      end
  | _ => Err (SetupError.UnsupportedConfigShape path "root")
  end.

Definition claude_unsupported (env : option (list (string * Value))) : option string :=
  m ← env;
  k ← List.find (λ k, match assoc_get k m with
                      | Some v => env_truthy v
                      | None => false
                      end) CLAUDE_UNSUPPORTED_MODES;
  Some (k +:+ " is set: Bedrock / Vertex / Foundry traffic does not go through ANTHROPIC_BASE_URL (Bedrock also signs the request body)").

(** The base URL that is set, if it is a text and not blank. *)
Definition current_base_url (env : option (list (string * Value))) : option string :=
  m ← env;
  v ← assoc_get CLAUDE_BASE_URL_KEY m;
  s ← as_str v;
  if Str.is_empty (trim s) then None else Some (trim s).

Definition has_tool_search (env : option (list (string * Value))) : bool :=
  match env with
  | Some m => bool_decide (is_Some (assoc_get CLAUDE_TOOL_SEARCH_KEY m))
  | None => false
  end.

(** What is to be done with settings. *)
Inductive ClaudePlan :=
| PlanUnsupported (reason : string)
| PlanAlready (record : ClaudeApplied)
| PlanWrite (record : ClaudeApplied) (settings : Value).

Section Claude.
Context `{UrlCrate}.

(** The value is one Vigil has written. *)
Definition is_managed_url (listen : string) (url : option string) : bool :=
  match url with
  | Some u => String.eqb u (claude_gate_url listen) || is_vigil_gate_url u
  | None => false
  end.

Definition claude_record (path listen : string) (prior : option ClaudeApplied)
    (env : option (list (string * Value))) : ClaudeApplied :=
  let current := current_base_url env in
  let managed := is_managed_url listen current in
  let previous_base_url := if managed then prior ≫= cl_previous_base_url else current in
  let set_tool_search :=
    if has_tool_search env
    then managed && match prior with Some p => cl_set_tool_search p | None => false end
    else true in
  mkClaudeApplied path previous_base_url set_tool_search.

(** [root.entry("env").or_insert_with(..)], and the values put in. *)
Definition point_at_gate (listen : string) (tool_search_present : bool) (root : list (string * Value))
    : list (string * Value) :=
  let m := match assoc_get "env" root with
           | Some (JObj m) => m
           | _ => []
           end in
  let m := map_insert CLAUDE_BASE_URL_KEY (JStr (claude_gate_url listen)) m in
  let m := if tool_search_present then m else map_insert CLAUDE_TOOL_SEARCH_KEY (JStr "true") m in
  map_insert "env" (JObj m) root.

Definition claude_plan (path listen : string) (prior : option ClaudeApplied) (settings : Value)
    : result SetupError ClaudePlan :=
  let? env := claude_env_map settings path in
  match claude_unsupported env with
  | Some reason => Ok (PlanUnsupported reason)
  | None =>
      let record := claude_record path listen prior env in
      let already := bool_decide (current_base_url env = Some (claude_gate_url listen)) in
      if already && has_tool_search env then Ok (PlanAlready record)
      else match settings with
           | JObj root => Ok (PlanWrite record (JObj (point_at_gate listen (has_tool_search env) root)))
           | _ => Err (SetupError.UnsupportedConfigShape path "root")
           end
  end.

(** The values taken back: whether anything changes, and the settings then. *)
Definition revert_base_url (listen : string) (applied : option ClaudeApplied)
    (env : list (string * Value)) : bool * list (string * Value) :=
  let ours := match assoc_get CLAUDE_BASE_URL_KEY env ≫= as_str with
              | Some u => String.eqb (trim u) (claude_gate_url listen) || is_vigil_gate_url (trim u)
              | None => false
              end in
  if ours then
    (true, match applied ≫= cl_previous_base_url with
           | Some prev => map_insert CLAUDE_BASE_URL_KEY (JStr prev) env
           | None => map_remove CLAUDE_BASE_URL_KEY env
           end)
  else (false, env).

Definition revert_tool_search (applied : option ClaudeApplied) (env : list (string * Value))
    : bool * list (string * Value) :=
  if match applied with Some a => cl_set_tool_search a | None => false end
     && str_is "true" (assoc_get CLAUDE_TOOL_SEARCH_KEY env)
  then (true, map_remove CLAUDE_TOOL_SEARCH_KEY env) else (false, env).

Definition give_back (path listen : string) (applied : option ClaudeApplied) (settings : Value)
    : result SetupError (bool * Value) :=
  match settings with
  | JObj root =>
      match assoc_get "env" root with
      | Some (JObj env) =>
          let '(changed1, env) := revert_base_url listen applied env in
          let '(changed2, env) := revert_tool_search applied env in
          Ok (changed1 || changed2,
              JObj (match env with
                    | [] => map_remove "env" root
                    | _ => map_insert "env" (JObj env) root
                    end))
      | _ => Ok (false, settings)
      end
  | _ => Err (SetupError.UnsupportedConfigShape path "root")
  end.
End Claude.

(** What is known of the host besides its files: [claude_detected(home)], directories
    and the search path; [Path::is_dir]. *)
Class Installed := {
  claude_detected : string → bool;
  is_dir : string → bool;
}.

Section ClaudeFile.
Context `{Host} `{Document Value} `{UrlCrate} `{Installed}.

Definition claude_state (home listen : string) : SetupM AgentState :=
  if negb (claude_detected home) then ret AgentState.NotInstalled
  else
    let path := claude_settings_path home in
    let! settings := read_settings path in
    match settings with
    | None => ret AgentState.NotConfigured
    | Some settings =>
        let! env := lift (claude_env_map settings path) in
        match claude_unsupported env with
        | Some reason => ret (AgentState.Unsupported reason)
        | None =>
            ret (match current_base_url env with
                 | None => AgentState.NotConfigured
                 | Some url =>
                     if String.eqb url (claude_gate_url listen) then AgentState.Active
                     else if is_vigil_gate_url url then AgentState.Stale
                     else AgentState.Foreign url
                 end)
        end
    end.

Definition claude_apply (home listen : string) (prior : option ClaudeApplied)
    : SetupM (AgentOutcome * option ClaudeApplied) :=
  if negb (claude_detected home) then ret (outcome AgentState.NotInstalled, None)
  else
    let path := claude_settings_path home in
    let! stamp := attempt (stamp_for_existing path) in
    let! existing := read_settings path in
    let stamp := match existing, stamp with
                 | Some _, Ok s => Some s
                 | _, _ => None
                 end in
    let! plan := lift (claude_plan path listen prior (default (JObj []) existing)) in
    match plan with
    | PlanUnsupported reason => ret (outcome (AgentState.Unsupported reason), None)
    | PlanAlready record => ret (outcome AgentState.Active, Some record)
    | PlanWrite record settings =>
        let parent := path_push home ".claude" in
        map_io "create Claude config directory" parent create_dir_all ;!
        let! backup := atomic_write_with_backup path settings stamp in
        ret (mkAgentOutcome AgentState.Active true backup, Some record)
    end.

Definition claude_revert (home listen : string) (applied : option ClaudeApplied)
    : SetupM AgentOutcome :=
  if negb (claude_detected home) then ret (outcome AgentState.NotInstalled)
  else
    let path := claude_settings_path home in
    let! settings := read_settings path in
    match settings with
    | None => ret (outcome AgentState.NotConfigured)
    | Some settings =>
        let! stamp := stamp_for_existing path in
        let! back := lift (give_back path listen applied settings) in
        let '(changed, settings) := back in
        if negb changed then let! st := claude_state home listen in ret (outcome st)
        else
          let! backup := atomic_write_with_backup path settings (Some stamp) in
          let! st := claude_state home listen in
          ret (mkAgentOutcome st true backup)
    end.
End ClaudeFile.

(** ** Codex *)

Definition codex_gate_url (listen : string) : string := "http://" +:+ listen +:+ "/codex".

Definition codex_in_use (other : string) : string :=
  "model_provider `" +:+ other +:+ "` is in use; the gate only takes over the built-in openai provider".

Definition codex_name_taken : string :=
  "a model provider named `" +:+ CODEX_PROVIDER_ID
  +:+ "` already exists and does not point at the gate; refusing to overwrite it".

Section Codex.
Context `{Toml} `{UrlCrate}.

Definition codex_provider_base_url (doc : Table) : option string :=
  providers ← table_at "model_providers" doc;
  p ← table_at CODEX_PROVIDER_ID providers;
  str_of "base_url" p.

Definition codex_model_provider (doc : Table) : option string := str_of "model_provider" doc.

(** The model provider is the built-in one. *)
Definition is_openai (provider : option string) : bool :=
  match provider with
  | None => true
  | Some p => String.eqb p "openai"
  end.

Definition codex_doc_state (doc : Table) (listen : string) : AgentState :=
  let provider := codex_model_provider doc in
  let base := codex_provider_base_url doc in
  if bool_decide (provider = Some CODEX_PROVIDER_ID) then
    if bool_decide (base = Some (codex_gate_url listen)) then AgentState.Active else AgentState.Stale
  else if is_openai provider then
    match base with
    | Some _ => AgentState.Stale
    | None => AgentState.NotConfigured
    end
  else AgentState.Unsupported (codex_in_use (default "" provider)).

(** The provider Vigil puts in. *)
Definition gate_provider (listen : string) : Table :=
  toml_insert "requires_openai_auth" (value_bool true)
    (toml_insert "wire_api" (value_str "responses")
      (toml_insert "base_url" (value_str (codex_gate_url listen))
        (toml_insert "name" (value_str "Vigil outbound gate") new_table))).

Inductive CodexPlan :=
| CodexUnsupported (reason : string)
| CodexAlready
| CodexWrite (previous_model_provider : option string) (doc : Table).

Definition codex_takeover (path listen : string) (previous : option string) (doc : Table)
    : result SetupError CodexPlan :=
  let doc := toml_assign "model_provider" (value_str CODEX_PROVIDER_ID) doc in
  let providers := default empty_table (toml_get "model_providers" doc) in
  match as_table_like providers with
  | Some table =>
      if negb (is_table providers)
      then Err (SetupError.UnsupportedConfigShape path "model_providers")
      else
        let table := toml_insert CODEX_PROVIDER_ID (table_item (gate_provider listen))
                       (set_implicit table) in
        Ok (CodexWrite previous (toml_assign "model_providers" (put_table table providers) doc))
  | None => Err (SetupError.UnsupportedConfigShape path "model_providers")
  end.

Definition codex_plan (path listen : string) (doc : Table) : result SetupError CodexPlan :=
  let current := codex_model_provider doc in
  let gate_url := codex_gate_url listen in
  if negb (is_openai current) && negb (bool_decide (current = Some CODEX_PROVIDER_ID))
  then Ok (CodexUnsupported (codex_in_use (default "" current)))
  else
    let previous := if is_openai current then current else None in
    let base := codex_provider_base_url doc in
    if match base with
       | Some u => negb (String.eqb u gate_url) && negb (is_gate_url u "/codex")
       | None => false
       end
    then Ok (CodexUnsupported codex_name_taken)
    else if bool_decide (current = Some CODEX_PROVIDER_ID) && bool_decide (base = Some gate_url)
    then Ok CodexAlready
    else codex_takeover path listen previous doc.

(** The provider is taken out if it still points at the gate. *)
Definition codex_still_ours (listen : string) (doc : Table) : bool :=
  match codex_provider_base_url doc with
  | Some u => String.eqb u (codex_gate_url listen) || is_gate_url u "/codex"
  | None => false
  end.

Definition revert_model_provider (applied : option CodexApplied) (doc : Table) : bool * Table :=
  if bool_decide (codex_model_provider doc = Some CODEX_PROVIDER_ID) then
    (true, match applied ≫= cx_previous_model_provider with
           | Some prev => toml_assign "model_provider" (value_str prev) doc
           | None => toml_remove "model_provider" doc
           end)
  else (false, doc).

Definition remove_provider (doc : Table) : bool * Table :=
  match toml_get "model_providers" doc with
  | Some item =>
      match as_table_like item with
      | Some table =>
          match toml_get CODEX_PROVIDER_ID table with
          | Some _ =>
              (true, toml_assign "model_providers"
                       (put_table (toml_remove CODEX_PROVIDER_ID table) item) doc)
          | None => (false, doc)
          end
      | None => (false, doc)
      end
  | None => (false, doc)
  end.

Definition codex_give_back (listen : string) (applied : option CodexApplied) (doc : Table)
    : bool * Table :=
  if codex_still_ours listen doc then
    let '(changed1, doc) := revert_model_provider applied doc in
    let '(changed2, doc) := remove_provider doc in
    (changed1 || changed2, doc)
  else (false, doc).
End Codex.

Section CodexFile.
Context `{Host} `{Toml} `{UrlCrate} `{Installed}.

Definition codex_toml (codex_home : string) : string := path_push codex_home "config.toml".

Definition codex_state (codex_home listen : string) : SetupM AgentState :=
  if negb (is_dir codex_home) then ret AgentState.NotInstalled
  else
    let! doc := read_codex_config (codex_toml codex_home) in
    ret (match doc with
         | None => AgentState.NotConfigured
         | Some doc => codex_doc_state doc listen
         end).

Definition codex_apply (codex_home listen : string) : SetupM (AgentOutcome * option CodexApplied) :=
  if negb (is_dir codex_home) then ret (outcome AgentState.NotInstalled, None)
  else
    let path := codex_toml codex_home in
    let! existing := read_codex_config path in
    let! stamp :=
      match existing with
      | Some _ => let! s := stamp_for_existing path in ret (Some s)
      | None => ret None
      end in
    let! plan := lift (codex_plan path listen (default new_table existing)) in
    match plan with
    | CodexUnsupported reason => ret (outcome (AgentState.Unsupported reason), None)
    | CodexAlready => ret (outcome AgentState.Active, Some (mkCodexApplied path None))
    | CodexWrite previous doc =>
        let! backup := atomic_write_str_with_backup path (toml_print doc) stamp in
        ret (mkAgentOutcome AgentState.Active true backup, Some (mkCodexApplied path previous))
    end.

Definition codex_revert (codex_home listen : string) (applied : option CodexApplied)
    : SetupM AgentOutcome :=
  if negb (is_dir codex_home) then ret (outcome AgentState.NotInstalled)
  else
    let path := codex_toml codex_home in
    let! stamp := stamp_for_existing path in
    let! doc := read_codex_config path in
    match doc with
    | None => ret (outcome AgentState.NotConfigured)
    | Some doc =>
        let '(changed, doc) := codex_give_back listen applied doc in
        if negb changed then let! st := codex_state codex_home listen in ret (outcome st)
        else
          let! backup := atomic_write_str_with_backup path (toml_print doc) (Some stamp) in
          let! st := codex_state codex_home listen in
          ret (mkAgentOutcome st true backup)
    end.
End CodexFile.

(** ** The audit of the gate *)

(** The ledger, the session once there is one, the events that were lost, and the
    number of operations so far. *)
Record LedgerAudit := mkLedgerAudit {
  la_ledger : LedgerState;
  la_session : option string;
  la_dropped : Z;
  la_ops : nat;
}.

Definition new_ledger_audit (ledger : LedgerState) : LedgerAudit := mkLedgerAudit ledger None 0 0.

(** The clock, and the identifiers of new sessions. *)
Class AuditClock := { audit_now : nat → Z; session_id : nat → string }.

Section Audit.
Context `{Crates} `{Redaction} `{AuditClock}.

(** The session of the gate, started at the first event. *)
Definition gate_session (a : LedgerAudit) : option string * LedgerAudit :=
  match la_session a with
  | Some s => (Some s, a)
  | None =>
      let n := la_ops a in
      match start_session (audit_now n) (session_id n) "vigil-outbound" None (la_ledger a) with
      | (Ok s, ledger) => (Some s, mkLedgerAudit ledger (Some s) (la_dropped a) (S n))
      | (Err _, ledger) => (None, mkLedgerAudit ledger None (la_dropped a) (S n))
      end
  end.

Definition drop_event (a : LedgerAudit) : LedgerAudit :=
  mkLedgerAudit (la_ledger a) (la_session a) (la_dropped a + 1) (la_ops a).

Definition audit_append (event_type : string) (payload : Value) (summary : string) (a : LedgerAudit)
    : LedgerAudit :=
  match gate_session a with
  | (None, a) => drop_event a
  | (Some sid, a) =>
      let '(r, ledger) :=
        append_event (audit_now (la_ops a)) sid event_type payload (Some summary) (la_ledger a) in
      let a := mkLedgerAudit ledger (la_session a) (la_dropped a) (S (la_ops a)) in
      match r with
      | Ok _ => a
      | Err _ => drop_event a
      end
  end.

Definition rewritten_listing (kinds : list (string * nat)) : string :=
  Str.join ", " (map (λ kn, kn.1 +:+ " x" +:+ pretty kn.2) kinds).

#[global] Instance ledger_audit : GateAudit LedgerAudit := {|
  audit_rewritten route report :=
    let total := foldr (λ kn n, (kn.2 + n)%nat) 0%nat (rp_kinds report) in
    audit_append "outbound.request.redacted"
      (JObj [("route", JStr (RouteKind.as_str route));
             ("kinds", JArr (map (λ kn, JObj [("kind", JStr kn.1); ("count", JNum (Z.of_nat kn.2))])
                                 (rp_kinds report)));
             ("aliases", json_strs (rp_aliases report))])
      ("outbound: redacted " +:+ pretty total +:+ " secret span(s) on " +:+ RouteKind.as_str route
       +:+ " (" +:+ rewritten_listing (rp_kinds report) +:+ ")");
  audit_blocked route code :=
    audit_append "outbound.request.blocked"
      (JObj [("route", json_opt_str (RouteKind.as_str <$> route)); ("code", JStr code)])
      ("outbound: blocked request (" +:+ code +:+ ")");
  audit_upstream_error route code :=
    audit_append "outbound.upstream.error"
      (JObj [("route", JStr (RouteKind.as_str route)); ("code", JStr code)])
      ("outbound: upstream error on " +:+ RouteKind.as_str route +:+ " (" +:+ code +:+ ")");
  dropped_events := la_dropped;
|}.
End Audit.

(** ** Running the gate *)

Definition gate_config (file : OutboundFile) : result string (SocketAddr * GateConfig) :=
  let? addr := parse_listen (of_listen file) in
  Ok (addr, mkGateConfig (of_upstreams file) DEFAULT_MAX_BODY_BYTES).

(** ** On and off *)

Module Lang.
Inductive Lang := En | Zh.
End Lang.
Abbreviation Lang := Lang.Lang.

Definition tr (lang : Lang) (en zh : string) : string :=
  match lang with
  | Lang.En => en
  | Lang.Zh => zh
  end.

Definition no_data_dir (lang : Lang) : string :=
  tr lang "cannot locate the local data directory for outbound.json" "无法定位本机数据目录(outbound.json)".

Definition no_home (lang : Lang) : string :=
  tr lang "cannot locate the home directory" "无法定位用户主目录".

(** Where things are: [default_outbound_path()], [dirs::home_dir()], and the value of
    [CODEX_HOME]. *)
Record Places := mkPlaces {
  pl_outbound : option string;
  pl_home : option string;
  pl_codex_home : option string;
}.

(** The text of an error of [std::io]. *)
Class IoText := { io_text : IoError → string }.

(** A computation that may fail, of which the result is looked at. *)
Definition result_of {S E E' A} (m : M S E A) : M S E' (result E A) := λ s,
  let '(r, s') := m s in (Ok r, s').

Definition set_claude (rec : option ClaudeApplied) (file : OutboundFile) : OutboundFile :=
  mkOutboundFile (of_version file) (of_enabled file) (of_listen file) (of_upstreams file)
    (mkAppliedAgents rec (aa_codex (of_agents file))).
Definition set_codex (rec : option CodexApplied) (file : OutboundFile) : OutboundFile :=
  mkOutboundFile (of_version file) (of_enabled file) (of_listen file) (of_upstreams file)
    (mkAppliedAgents (aa_claude (of_agents file)) rec).
Definition set_anthropic (url : string) (file : OutboundFile) : OutboundFile :=
  let r := of_upstreams file in
  mkOutboundFile (of_version file) (of_enabled file) (of_listen file)
    (mkRoutes url (ro_openai r) (ro_codex_chatgpt r) (ro_gemini r)) (of_agents file).
Definition set_listen (listen : string) (file : OutboundFile) : OutboundFile :=
  mkOutboundFile (of_version file) (of_enabled file) listen (of_upstreams file) (of_agents file).
Definition set_enabled (enabled : bool) (file : OutboundFile) : OutboundFile :=
  mkOutboundFile (of_version file) enabled (of_listen file) (of_upstreams file) (of_agents file).

(** What an application leaves in the setting. *)
Definition note_claude (rec : option ClaudeApplied) (file : OutboundFile) : OutboundFile :=
  match rec with
  | Some r =>
      set_claude (Some r)
        (match cl_previous_base_url r with
         | Some prev => set_anthropic (trim_end_matches (λ c, Ascii.eqb c "/") prev) file
         | None => file
         end)
  | None => file
  end.

Definition note_codex (rec : option CodexApplied) (file : OutboundFile) : OutboundFile :=
  match rec with
  | Some r => set_codex (Some r) file
  | None => file
  end.

Definition is_active_outcome {A} (r : result SetupError (AgentOutcome * A)) : bool :=
  match r with
  | Ok (o, _) => match ao_state o with
                 | AgentState.Active => true
                 | _ => false
                 end
  | Err _ => false
  end.

(** [r.map(|(o, rec)| { .. })]: what becomes of the setting. *)
Definition noted {A} (r : result SetupError (AgentOutcome * option A))
    (note : option A → OutboundFile → OutboundFile) (file : OutboundFile) : OutboundFile :=
  match r with
  | Ok (_, rec) => note rec file
  | Err _ => file
  end.

Section Switching.
Context `{Host} `{Document Value} `{Document OutboundFile} `{Toml} `{UrlCrate} `{Installed}.
Context `{FileSystem} `{IoText} (places : Places) (lang : Lang).

Definition codex_home_from_env (home : string) : string := resolve_codex_home home (pl_codex_home places).

(** [load_outbound] does not fail. *)
Definition load_setting (path : string) : M Disk string OutboundFile := λ d,
  let '(r, d') := load_outbound path d in
  (Ok (match r with
       | Ok l => lo_file l
       | Err _ => default_outbound_file
       end), d').

Definition store_setting (path : string) (file : OutboundFile) : M Disk string unit :=
  let! stored := result_of (store_outbound path file) in
  match stored with
  | Ok _ => ret tt
  | Err e => throw ("write " +:+ path +:+ ": " +:+ io_text e)
  end.

Definition run_on (listen : option string) : M Disk string unit :=
  let! path := lift (ok_or (pl_outbound places) (no_data_dir lang)) in
  let! home := lift (ok_or (pl_home places) (no_home lang)) in
  let! file := load_setting path in
  let! file :=
    match listen with
    | Some l => lift (let? _ := parse_listen l in Ok (set_listen l file))
    | None => ret file
    end in
  let! claude := result_of (claude_apply home (of_listen file) (aa_claude (of_agents file))) in
  let file := noted claude note_claude file in
  let! codex := result_of (codex_apply (codex_home_from_env home) (of_listen file)) in
  let file := noted codex note_codex file in
  let any_active := is_active_outcome claude || is_active_outcome codex in
  store_setting path (set_enabled any_active file) ;!
  if negb any_active then
    throw (tr lang "no agent could be pointed at the gate; the switch was left off"
                   "没有任何 agent 被成功指向闸门;开关保持关闭")
  else if negb (is_ok claude) || negb (is_ok codex) then
    throw (tr lang "at least one detected agent could not be wired to the gate (see above); its traffic still bypasses the gate"
                   "至少有一个已检测到的 agent 没能接到闸门(见上);它的流量仍然绕过闸门")
  else ret tt.

Definition run_off : M Disk string unit :=
  let! path := lift (ok_or (pl_outbound places) (no_data_dir lang)) in
  let! home := lift (ok_or (pl_home places) (no_home lang)) in
  let! file := load_setting path in
  let! claude := result_of (claude_revert home (of_listen file) (aa_claude (of_agents file))) in
  let! codex := result_of (codex_revert (codex_home_from_env home) (of_listen file)
                             (aa_codex (of_agents file))) in
  let file := set_enabled false file in
  let file := if is_ok claude then set_anthropic (ro_anthropic default_routes) (set_claude None file)
              else file in
  let file := if is_ok codex then set_codex None file else file in
  store_setting path file.

(** What the daemon starts with, if the setting says so; binding the address is left
    out. *)
Definition spawn_for_daemon : M Disk string (option (SocketAddr * GateConfig)) :=
  match pl_outbound places with
  | None => ret None
  | Some path =>
      let! file := load_setting path in
      if negb (of_enabled file) then ret None
      else ret (match gate_config file with
                | Ok cfg => Some cfg
                | Err _ => None
                end)
  end.
End Switching.
