(* ===== verification/OutboundSetupProps.v ===== *)
(** * What switching the outbound gate on and off guarantees

    However often the gate is switched on, switching it off puts back what the
    settings said before; nothing else is touched; and the setting says that the gate
    is on only if an agent's configuration sends its requests there. *)

From stdpp Require Import pretty.
From S2P Require Import Prelude Text Types Json Deps Concrete Db Ledger Extract Files HookEntries Setup SetupProps SetupMcp.
From S2P Require Import Documents SetupToml SetupHooks OutboundSetup Outbound OutboundGate.

(** ** The settings of Claude Code *)

(** The variables that are set. *)
Definition env_of (v : Value) : list (string * Value) :=
  match json_get "env" v with
  | Some (JObj m) => m
  | _ => []
  end.

(** The URL Claude Code sends its requests to, if one is set. *)
Definition base_url (v : Value) : option string := current_base_url (Some (env_of v)).

(** The same settings; of the base URL, white space around it may go, and a value that
    is no URL. *)
Definition same_settings (u v : Value) : Prop :=
  (∀ k, k ≠ "env" → json_get k u = json_get k v) ∧
  (∀ k, k ≠ CLAUDE_BASE_URL_KEY → assoc_get k (env_of u) = assoc_get k (env_of v)) ∧
  assoc_get CLAUDE_BASE_URL_KEY (env_of u) = JStr <$> base_url v.

Lemma gate_url_trimmed listen : trim (claude_gate_url listen) = claude_gate_url listen.
Proof.
  unfold trim, trim_start, claude_gate_url.
  assert ("http://" +:+ listen +:+ "/anthropic" = String "h" ("ttp://" +:+ listen +:+ "/anthropic")) as E
    by reflexivity.
  rewrite E. cbn [trim_from]. rewrite <- E.
  assert (ws_len ("http://" +:+ listen +:+ "/anthropic") = 0%nat) as -> by reflexivity.
  replace ("http://" +:+ listen +:+ "/anthropic")
    with (("http://" +:+ listen +:+ "/anthropi") +:+ String "c" "") by by rewrite <- !Str.append_assoc.
  apply trim_end_kept; [by apply Nat.ltb_lt|done].
Qed.

Lemma gate_url_filled listen : Str.is_empty (claude_gate_url listen) = false.
Proof. reflexivity. Qed.

Lemma env_map_env settings path env :
  claude_env_map settings path = Ok env →
  ∃ root, settings = JObj root ∧ env_of settings = default [] env ∧
    match env with
    | Some m => assoc_get "env" root = Some (JObj m)
    | None => assoc_get "env" root = None
    end.
Proof.
  unfold claude_env_map, env_of. destruct settings as [| | | | | |root]; try done. simpl.
  destruct (assoc_get "env" root) as [[]|] eqn:E; try done; intros [= <-]; by exists root.
Qed.

Lemma current_default env : current_base_url env = current_base_url (Some (default [] env)).
Proof. by destruct env. Qed.

Lemma tool_search_default env : has_tool_search env = has_tool_search (Some (default [] env)).
Proof. by destruct env. Qed.

Lemma wf_env v : wf_json v → NoDup (env_of v).*1 ∧ wf_json (JObj (env_of v)).
Proof.
  intros Hw. unfold env_of. assert (wf_json (JObj [])) as H0.
  { apply wf_obj. split; [apply NoDup_nil_2|constructor]. }
  destruct (json_get "env" v) as [[| | | | | |m]|] eqn:E; try (split; [apply NoDup_nil_2|done]).
  pose proof (wf_get _ _ _ Hw E) as Hm. split; [|done]. by apply wf_obj in Hm as [? _].
Qed.

Section Claude.
Context `{UrlCrate}.

(** The settings [v] are [v0] with the gate in them, and [rec] tells the way back. *)
Record taken (v0 : Value) (rec : ClaudeApplied) (listen : string) (v : Value) : Prop := {
  tk_wf : wf_json v;
  tk_root k : k ≠ "env" → json_get k v = json_get k v0;
  tk_env k : k ≠ CLAUDE_BASE_URL_KEY → k ≠ CLAUDE_TOOL_SEARCH_KEY →
    assoc_get k (env_of v) = assoc_get k (env_of v0);
  tk_obj : json_get "env" v = Some (JObj (env_of v));
  tk_url : assoc_get CLAUDE_BASE_URL_KEY (env_of v) = Some (JStr (claude_gate_url listen));
  tk_previous : cl_previous_base_url rec = base_url v0;
  tk_tool : if cl_set_tool_search rec
            then assoc_get CLAUDE_TOOL_SEARCH_KEY (env_of v) = Some (JStr "true")
                 ∧ assoc_get CLAUDE_TOOL_SEARCH_KEY (env_of v0) = None
            else is_Some (assoc_get CLAUDE_TOOL_SEARCH_KEY (env_of v0))
                 ∧ assoc_get CLAUDE_TOOL_SEARCH_KEY (env_of v)
                   = assoc_get CLAUDE_TOOL_SEARCH_KEY (env_of v0);
}.

Lemma taken_url v0 rec listen v : taken v0 rec listen v → base_url v = Some (claude_gate_url listen).
Proof.
  intros T. unfold base_url, current_base_url. simpl. rewrite (tk_url _ _ _ _ T). simpl.
  by rewrite gate_url_trimmed.
Qed.

Lemma taken_tool v0 rec listen v : taken v0 rec listen v → has_tool_search (Some (env_of v)) = true.
Proof.
  intros T. apply bool_decide_eq_true. pose proof (tk_tool _ _ _ _ T) as Ht.
  destruct (cl_set_tool_search rec); [destruct Ht as [-> _]; eauto|]. by destruct Ht as [? ->].
Qed.

(** What is written into settings. *)
Lemma pointed root env path listen tool :
  wf_json (JObj root) → claude_env_map (JObj root) path = Ok env →
  let v := JObj (point_at_gate listen tool root) in
  wf_json v ∧ (∀ k, k ≠ "env" → json_get k v = json_get k (JObj root)) ∧
  json_get "env" v = Some (JObj (env_of v)) ∧
  env_of v = (let m := map_insert CLAUDE_BASE_URL_KEY (JStr (claude_gate_url listen)) (default [] env) in
              if tool then m else map_insert CLAUDE_TOOL_SEARCH_KEY (JStr "true") m).
Proof.
  intros Hw He v. destruct (env_map_env _ _ _ He) as (r & [= <-] & Hd & Hg).
  assert (match assoc_get "env" root with Some (JObj m) => m | _ => [] end = default [] env) as Em
    by (destruct env; by rewrite Hg).
  assert (env_of v = (let m := map_insert CLAUDE_BASE_URL_KEY (JStr (claude_gate_url listen)) (default [] env) in
              if tool then m else map_insert CLAUDE_TOOL_SEARCH_KEY (JStr "true") m)) as Ev.
  { unfold v, env_of, point_at_gate. cbn [json_get]. by rewrite assoc_get_insert, Em. }
  split; [|split; [|split; [|done]]].
  - unfold v, point_at_gate. rewrite Em. destruct (wf_env _ Hw) as [_ Hm]. rewrite Hd in Hm.
    apply wf_insert; [done|]. destruct tool; repeat (apply wf_insert; [|done]); done.
  - intros k Hk. unfold v, point_at_gate. cbn [json_get]. by apply assoc_get_insert_ne.
  - unfold v at 1, point_at_gate. cbn [json_get]. rewrite assoc_get_insert, Em. by rewrite Ev.
Qed.

#[local] Ltac by_tool :=
  match goal with |- context [has_tool_search ?e] => destruct (has_tool_search e) end.

(** The first time the gate is switched on. *)
Lemma first_on path listen prior v0 rec v :
  wf_json v0 → is_managed_url listen (base_url v0) = false →
  claude_plan path listen prior v0 = Ok (PlanWrite rec v) → taken v0 rec listen v.
Proof.
  intros Hw Hm. unfold claude_plan, res_bind. destruct (claude_env_map v0 path) as [env|] eqn:He; [|done].
  destruct (env_map_env _ _ _ He) as (root & -> & Hd & Hg).
  destruct (claude_unsupported env); [done|]. destruct (_ && _); [done|]. intros [= <- <-].
  assert (current_base_url env = base_url (JObj root)) as Ec by (unfold base_url; by rewrite Hd, <- current_default).
  assert (has_tool_search env = has_tool_search (Some (env_of (JObj root)))) as Et
    by by rewrite Hd, <- tool_search_default.
  destruct (pointed root env path listen (has_tool_search env) Hw He) as (Hwv & Hk & Ho & Hv).
  set (v := JObj (point_at_gate listen (has_tool_search env) root)) in *.
  unfold claude_record. rewrite Ec, Hm. rewrite Et in *. cbn zeta in Hv.
  split; cbn [cl_previous_base_url cl_set_tool_search]; try done; rewrite ?Hv, ?Hd.
  - intros k Hk1 Hk2. by_tool; by rewrite !assoc_get_insert_ne.
  - by_tool; [|rewrite assoc_get_insert_ne by done]; by rewrite assoc_get_insert.
  - unfold has_tool_search. case_bool_decide as Ht; simpl.
    + split; [done|]. by rewrite assoc_get_insert_ne.
    + rewrite assoc_get_insert. split; [done|]. by apply eq_None_not_Some.
Qed.

(** Every further time: the record stays what it was. *)
Lemma further_on path listen listen' v0 rec v rec' :
  taken v0 rec listen v → cl_config_path rec = path →
  listen = listen' ∨ is_vigil_gate_url (claude_gate_url listen) = true →
  (claude_plan path listen' (Some rec) v = Ok (PlanAlready rec') → rec' = rec ∧ taken v0 rec listen' v) ∧
  ∀ v', claude_plan path listen' (Some rec) v = Ok (PlanWrite rec' v') → rec' = rec ∧ taken v0 rec listen' v'.
Proof.
  intros T Hp Hl. pose proof (taken_url _ _ _ _ T) as Hu. pose proof (taken_tool _ _ _ _ T) as Ht.
  assert (∀ env, claude_env_map v path = Ok env → claude_record path listen' (Some rec) env = rec) as Hrec.
  { intros env (root & _ & Hd & _)%env_map_env. unfold claude_record.
    rewrite (current_default env), <- Hd. fold (base_url v). rewrite Hu.
    rewrite (tool_search_default env), <- Hd, Ht.
    assert (is_managed_url listen' (Some (claude_gate_url listen)) = true) as ->.
    { simpl. destruct Hl as [->| ->]; [by rewrite String.eqb_refl|apply orb_true_r]. }
    destruct rec. simpl in *. by subst. }
  unfold claude_plan, res_bind. destruct (claude_env_map v path) as [env|] eqn:He; [|by split].
  specialize (Hrec env eq_refl). destruct (env_map_env _ _ _ He) as (root & -> & Hd & Hg).
  destruct (claude_unsupported env); [by split|].
  rewrite (tool_search_default env), <- Hd, Ht, andb_true_r.
  case_bool_decide as Ha; (split; [|intros v']); [|by intros [=]|by intros [=]|].
  - rewrite Hrec. intros [= <-]. split; [done|].
    rewrite (current_default env), <- Hd in Ha. fold (base_url (JObj root)) in Ha. rewrite Hu in Ha.
    assert (claude_gate_url listen = claude_gate_url listen') as E by congruence.
    destruct T. split; try done. by rewrite <- E.
  - rewrite Hrec. intros [= <- <-]. split; [done|].
    destruct (pointed root env path listen' true (tk_wf _ _ _ _ T) He) as (Hwv & Hk & Ho & Hv).
    set (v' := JObj (point_at_gate listen' true root)) in *.
    cbn zeta in Hv. destruct T as [_ Tr Te _ _ Tp Tt]. rewrite Hd in Te, Tt.
    split; try done; rewrite ?Hv.
    + intros k Hne. rewrite Hk by done. by apply Tr.
    + intros k Hk1 Hk2. rewrite assoc_get_insert_ne by done. by apply Te.
    + by rewrite assoc_get_insert.
    + by rewrite !assoc_get_insert_ne by done.
Qed.

Lemma str_is_true s v : str_is s v = true ↔ v = Some (JStr s).
Proof.
  unfold str_is. destruct v as [[]|]; simpl; try done. rewrite String.eqb_eq. naive_solver.
Qed.

(** Switching off. *)
Lemma taken_back path listen v0 rec v :
  taken v0 rec listen v →
  ∃ u, give_back path listen (Some rec) v = Ok (true, u) ∧ same_settings u v0.
Proof.
  intros T. destruct (wf_env _ (tk_wf _ _ _ _ T)) as [Hnd Hwe].
  pose proof (tk_obj _ _ _ _ T) as Ho. destruct v as [| | | | | |root]; try done. cbn [json_get] in Ho.
  pose proof (tk_wf _ _ _ _ T) as [Hr _]%wf_obj.
  pose proof (tk_url _ _ _ _ T) as Hurl. set (m := env_of (JObj root)) in *. unfold give_back. rewrite Ho.
  unfold revert_base_url. rewrite Hurl. cbn [mbind option_bind as_str].
  rewrite gate_url_trimmed, String.eqb_refl. cbn [orb].
  rewrite (tk_previous _ _ _ _ T).
  set (m1 := match base_url v0 with Some prev => _ | None => _ end).
  assert (NoDup m1.*1 ∧ (∀ k, assoc_get k m1 = if String.eqb k CLAUDE_BASE_URL_KEY then JStr <$> base_url v0
                              else assoc_get k m)) as [Hnd1 H1].
  { unfold m1. destruct (base_url v0) as [prev|]; simpl.
    - split; [by pose proof (wf_insert CLAUDE_BASE_URL_KEY (JStr prev) m Hwe I) as [? _]%wf_obj|].
      intros k. destruct (String.eqb_spec k CLAUDE_BASE_URL_KEY) as [->|];
        [apply assoc_get_insert|by apply assoc_get_insert_ne].
    - destruct (map_remove_keys _ _ _ Hnd Hurl) as [? _]. split; [done|].
      intros k. by rewrite (assoc_get_remove _ _ _ _ Hnd Hurl). }
  pose proof (tk_tool _ _ _ _ T) as Ht. fold m in Ht.
  assert (∃ b m2, revert_tool_search (Some rec) m1 = (b, m2) ∧
    ∀ k, assoc_get k m2 = if String.eqb k CLAUDE_BASE_URL_KEY then JStr <$> base_url v0
                          else assoc_get k (env_of v0)) as (b & m2 & -> & H2).
  { unfold revert_tool_search. rewrite (H1 CLAUDE_TOOL_SEARCH_KEY).
    change (String.eqb CLAUDE_TOOL_SEARCH_KEY CLAUDE_BASE_URL_KEY) with false. cbn iota.
    destruct (cl_set_tool_search rec).
    - destruct Ht as [Ht1 Ht2]. rewrite (proj2 (str_is_true _ _) Ht1). cbn [andb].
      eexists _, _. split; [done|]. intros k.
      rewrite (assoc_get_remove _ (JStr "true") _ _ Hnd1) by (rewrite H1; exact Ht1).
      rewrite H1. destruct (String.eqb_spec k CLAUDE_TOOL_SEARCH_KEY) as [->|Hk2]; [by rewrite Ht2|].
      destruct (String.eqb_spec k CLAUDE_BASE_URL_KEY) as [|Hk1]; [done|]. by apply (tk_env _ _ _ _ T).
    - destruct Ht as [_ Ht]. cbn [andb]. exists false, m1. split; [done|]. intros k. rewrite H1.
      destruct (String.eqb_spec k CLAUDE_BASE_URL_KEY) as [|Hk1]; [done|].
      destruct (decide (k = CLAUDE_TOOL_SEARCH_KEY)) as [->|Hk2]; [done|]. by apply (tk_env _ _ _ _ T). }
  cbn [orb].
  eexists. split; [reflexivity|]. set (u := JObj _).
  assert (env_of u = m2) as Eu.
  { unfold u, env_of. cbn [json_get]. destruct m2 as [|x m2].
    - by rewrite (assoc_get_remove _ _ _ _ Hr Ho).
    - by rewrite assoc_get_insert. }
  split; [|split].
  - intros k Hk. rewrite <- (tk_root _ _ _ _ T k Hk). unfold u. cbn [json_get]. destruct m2 as [|x m2].
    + rewrite (assoc_get_remove _ _ _ _ Hr Ho). by destruct (String.eqb_spec k "env").
    + by apply assoc_get_insert_ne.
  - intros k Hk. rewrite Eu, H2. by destruct (String.eqb_spec k CLAUDE_BASE_URL_KEY).
  - by rewrite Eu, H2.
Qed.
End Claude.

(** ** On the disk *)

Section Disk.
Context `{Host} `{Document Value} `{!DocumentLaws Value} `{UrlCrate} `{Installed}.

(** A disk that fails does not claim that a file is missing. *)
Definition faults_are_not_absence : Prop := ∀ n f, fault n = Some f → ft_error f ≠ IoError.NotFound.

(** The settings of an agent: those in its file, or none. *)
Definition settings_on (path : string) (v : Value) (d : Disk) : Prop :=
  holds path v d ∨ (dk_files d !! path = None ∧ v = JObj []).

Context (Hu : undisturbed) (Hf : faults_are_not_absence).

Abbreviation beside path := [path; tmp_path_for path; backup_path_for path].

Lemma reads_missing {A} (look : File → A) path d d' :
  reads look path d = (Err IoError.NotFound, d') → dk_files d !! path = None.
Proof using Hu Hf.
  unfold reads, simple, operate. rewrite Hu. destruct (fault (dk_ops d)) as [ft|] eqn:Ef.
  { intros [= E _]. by destruct (Hf _ _ Ef). }
  by destruct (dk_files d !! path).
Qed.

Lemma read_settings_none path d d' : read_settings path d = (Ok None, d') → dk_files d !! path = None.
Proof using Hu Hf.
  unfold read_settings, bind. rewrite io_attempt.
  destruct (read_to_string path d) as [[text|[]] d1] eqn:E; simpl; [|by eapply reads_missing in E|done].
  destruct (Str.is_empty _); [done|]. by destruct (from_str text).
Qed.

Lemma read_settings_on path d v d' :
  read_settings path d = (Ok v, d') → dk_files d' = dk_files d ∧ settings_on path (default (JObj []) v) d.
Proof using Hu Hf.
  intros E. destruct (read_settings_cases Hu _ _ _ _ E) as [Hd Hr]. split; [done|].
  destruct v as [v|]; [by left|]. right. split; [by eapply read_settings_none|done].
Qed.

Lemma holds_files path v d d' : dk_files d' !! path = dk_files d !! path → holds path v d → holds path v d'.
Proof. unfold holds. intros ->. done. Qed.

Lemma mkdir_files d r d' : create_dir_all d = (r, d') → dk_files d' = dk_files d.
Proof using Hu.
  unfold create_dir_all, simple, operate. rewrite Hu. destruct (fault _); by intros [= _ <-].
Qed.

Lemma stamped path d r d' : attempt (stamp_for_existing path) d = (r, d') →
  dk_files d' = dk_files d ∧ is_ok r = true.
Proof using Hu.
  unfold attempt. destruct (stamp_for_existing path d) as [r1 d1] eqn:E.
  apply (stamp_cases Hu) in E. by intros [= <- <-].
Qed.

(** What one application leaves. *)
Lemma claude_apply_cases home listen prior d r d' :
  let path := claude_settings_path home in
  claude_apply home listen prior d = (r, d') →
  agree_off (beside path) d d' ∧
  match r with
  | Ok (o, Some rec) =>
      ao_state o = AgentState.Active ∧ ∃ v0, settings_on path v0 d ∧
        (claude_plan path listen prior v0 = Ok (PlanAlready rec) ∧ dk_files d' = dk_files d
         ∨ ∃ v, claude_plan path listen prior v0 = Ok (PlanWrite rec v) ∧ holds path v d')
  | Ok (o, None) => ao_state o ≠ AgentState.Active ∧ dk_files d' = dk_files d
  | Err _ => dk_files d' !! path = dk_files d !! path
  end.
Proof using Hu Hf DocumentLaws0.
  intros path. unfold claude_apply. destruct (negb _); [by intros [= <- <-]|]. fold path.
  unfold bind at 1. destruct (attempt (stamp_for_existing path) d) as [rs d1] eqn:E1.
  apply stamped in E1 as [F1 Hs]. destruct rs as [stamp|]; [|done].
  unfold bind at 1. destruct (read_settings path d1) as [[existing|e] d2] eqn:E2.
  2:{ apply (read_settings_cases Hu) in E2 as [F2 _]. intros [= <- <-].
      split; [intros q _|]; by rewrite F2, F1. }
  apply read_settings_on in E2 as [F2 Hon]. rewrite F1 in F2.
  assert (settings_on path (default (JObj []) existing) d) as Hon'.
  { destruct Hon as [Hon|[Hn He]]; [left; eapply holds_files; [|exact Hon]; by rewrite F1|].
    right. by rewrite <- F1. }
  set (st := match existing with Some _ => _ | None => _ end). set (v0 := default _ existing) in *.
  unfold bind at 1, lift. destruct (claude_plan path listen prior v0) as [plan|e] eqn:Ep.
  2:{ intros [= <- <-]. split; [intros q _|]; by rewrite F2. }
  destruct plan as [reason|rec|rec v].
  - intros [= <- <-]. by split; [intros q _; rewrite F2|].
  - intros [= <- <-]. split; [intros q _; by rewrite F2|]. split; [done|]. exists v0.
    split; [done|]. by left.
  - unfold bind at 1, map_io at 1. destruct (create_dir_all d2) as [[[]|e] d3] eqn:E3; apply mkdir_files in E3.
    2:{ intros [= <- <-]. split; [intros q _|]; by rewrite E3, F2. }
    unfold bind. destruct (atomic_write_with_backup path v st d3) as [[b|e] d4] eqn:E4;
      apply (write_settings_cases Hu) in E4 as [Ha Hw]; intros [= <- <-];
      (split; [intros q Hq; by rewrite Ha, E3, F2|]).
    + split; [done|]. exists v0. split; [done|]. right. by exists v.
    + by rewrite Hw, E3, F2.
Qed.

(** Switching on, once for each address, the record of each time known the next. *)
Inductive switched_on (home : string) : option ClaudeApplied → Disk → list string → ClaudeApplied → Disk → Prop :=
| on_once prior d listen o rec d' :
    claude_apply home listen prior d = (Ok (o, Some rec), d') →
    switched_on home prior d [listen] rec d'
| on_again prior d listens rec d1 listen o rec' d' :
    switched_on home prior d listens rec d1 →
    claude_apply home listen (Some rec) d1 = (Ok (o, Some rec'), d') →
    switched_on home prior d (listens ++ [listen]) rec' d'.

Lemma settings_unique path v w d : settings_on path v d → settings_on path w d → v = w.
Proof. unfold settings_on, holds. naive_solver. Qed.

Lemma plan_path path listen prior v rec :
  (claude_plan path listen prior v = Ok (PlanAlready rec) ∨
   ∃ w, claude_plan path listen prior v = Ok (PlanWrite rec w)) → cl_config_path rec = path.
Proof.
  unfold claude_plan, res_bind. destruct (claude_env_map v path); [|naive_solver].
  destruct (claude_unsupported _); [naive_solver|]. destruct (_ && _); [|destruct v];
    intros [E|[w E]]; try done; injection E; by intros; subst.
Qed.

Lemma switched_on_taken home prior d listens rec d' v0 :
  let path := claude_settings_path home in
  switched_on home prior d listens rec d' →
  wf_json v0 → settings_on path v0 d → is_managed_url (hd "" listens) (base_url v0) = false →
  (∀ l l', l ∈ listens → l' ∈ listens → l = l' ∨ is_vigil_gate_url (claude_gate_url l) = true) →
  cl_config_path rec = path ∧ ∃ v, holds path v d' ∧ taken v0 rec (List.last listens "") v ∧
    dk_files d' !! path ≠ None.
Proof using Hu Hf DocumentLaws0.
  intros path. induction 1 as [prior d listen o rec d' Ha|prior d listens rec d1 listen o rec' d' Hs IH Ha];
    intros Hw Hon Hm Hl.
  - apply claude_apply_cases in Ha as (_ & _ & w & Hw0 & Hplan). fold path in Hw0, Hplan.
    rewrite (settings_unique _ _ _ _ Hw0 Hon) in Hplan. split.
    { eapply plan_path. destruct Hplan as [[? _]|(v & ? & _)]; [by left|right; eauto]. }
    destruct Hplan as [[Hp _]|(v & Hp & Hh)].
    + exfalso. revert Hp. unfold claude_plan, res_bind. destruct (claude_env_map v0 path) as [env|] eqn:He; [|done].
      destruct (env_map_env _ _ _ He) as (root & -> & Hd & _). destruct (claude_unsupported env); [done|].
      rewrite current_default, <- Hd. fold (base_url (JObj root)). simpl in Hm. unfold is_managed_url in Hm.
      case_bool_decide as Hb; [|done]. rewrite Hb, String.eqb_refl in Hm. done.
    + exists v. split; [done|]. split; [by eapply first_on|]. destruct Hh as (f & -> & _). done.
  - destruct listens as [|l0 ls]; [by inversion Hs; destruct listens|].
    destruct IH as (Hp & v & Hh & T & _); [done|done|done| |].
    { intros l l' Hin Hin'. apply Hl; apply elem_of_app; by left. }
    apply claude_apply_cases in Ha as (_ & _ & w & Hw0 & Hplan). fold path in Hw0, Hplan.
    rewrite (settings_unique _ w v d1 Hw0 (or_introl Hh)) in Hplan.
    rewrite List.last_last.
    assert (List.last (l0 :: ls) "" = listen ∨ is_vigil_gate_url (claude_gate_url (List.last (l0 :: ls) "")) = true)
      as Hrec.
    { apply Hl; apply elem_of_app; [left|right; by apply list_elem_of_singleton].
      apply list_elem_of_In. destruct (exists_last (l := l0 :: ls)) as (x & a & E); [done|].
      rewrite E, List.last_last. apply in_or_app. right. by left. }
    destruct (further_on path _ listen v0 rec v rec' T Hp Hrec) as [Hsame Hnew].
    destruct Hplan as [[E Hd]|(v' & E & Hh')].
    + destruct (Hsame E) as [-> T']. split; [done|]. exists v. split; [eapply holds_files; [|exact Hh]; by rewrite Hd|].
      split; [done|]. destruct Hh as (f & Hh & _). by rewrite Hd, Hh.
    + destruct (Hnew v' E) as [-> T']. split; [done|]. exists v'. split; [done|]. split; [done|].
      by destruct Hh' as (f & -> & _).
Qed.

Lemma claude_state_files home listen d r d' :
  claude_state home listen d = (r, d') → dk_files d' = dk_files d.
Proof using Hu.
  unfold claude_state, lift, ret, throw, bind. destruct (negb _); [by intros [= <- <-]|].
  destruct (read_settings _ d) as [[ex|e] d1] eqn:E; apply (read_settings_cases Hu) in E as [F _];
    [|by intros [= <- <-]]. destruct ex as [v|]; [|by intros [= <- <-]].
  destruct (claude_env_map v _) as [env|]; [|by intros [= <- <-]].
  destruct (claude_unsupported env); by intros [= <- <-].
Qed.

(** What taking the values back leaves. *)
Lemma claude_revert_cases home listen applied v d r d' :
  let path := claude_settings_path home in
  claude_detected home = true → holds path v d →
  claude_revert home listen applied d = (r, d') →
  agree_off (beside path) d d' ∧
  ∀ o, r = Ok o → ∃ changed u, give_back path listen applied v = Ok (changed, u) ∧
    ao_changed o = changed ∧ if changed then holds path u d' else dk_files d' = dk_files d.
Proof using Hu Hf DocumentLaws0.
  intros path Hdet Hh. unfold claude_revert. rewrite Hdet. cbn [negb]. fold path.
  unfold bind at 1. destruct (read_settings path d) as [[ex|e] d1] eqn:E1.
  2:{ apply (read_settings_cases Hu) in E1 as [F1 _]. intros [= <- <-]. split; [intros q _; by rewrite F1|done]. }
  apply read_settings_on in E1 as F1. destruct F1 as [F1 Hon1].
  destruct ex as [v'|].
  2:{ apply read_settings_none in E1. destruct Hh as (f & Hh & _). by rewrite E1 in Hh. }
  pose proof (settings_unique _ _ _ _ Hon1 (or_introl Hh)) as E. simpl in E. subst v'. clear Hon1 E1.
  unfold bind at 1. destruct (stamp_for_existing path d1) as [[st|e] d2] eqn:E2; apply (stamp_cases Hu) in E2;
    rewrite F1 in E2; [|intros [= <- <-]; split; [intros q _; by rewrite E2|done]].
  unfold bind at 1, lift. destruct (give_back path listen applied v) as [[changed u]|e] eqn:Eg.
  2:{ intros [= <- <-]. split; [intros q _; by rewrite E2|done]. }
  destruct changed; cbn [negb].
  - unfold bind at 1. destruct (atomic_write_with_backup path u (Some st) d2) as [[b|e] d3] eqn:E3;
      apply (write_settings_cases Hu) in E3 as [Ha Hw].
    2:{ intros [= <- <-]. split; [intros q Hq; by rewrite Ha, E2|done]. }
    unfold bind. destruct (claude_state home listen d3) as [[s|e] d4] eqn:E4; apply claude_state_files in E4;
      intros [= <- <-]; (split; [intros q Hq; by rewrite E4, Ha, E2|]); [|done].
    intros ? [= <-]. exists true, u. split; [done|]. split; [done|]. eapply holds_files; [|exact Hw].
    by rewrite E4.
  - unfold bind. destruct (claude_state home listen d2) as [[s|e] d4] eqn:E4; apply claude_state_files in E4;
      intros [= <- <-]; (split; [intros q Hq; by rewrite E4, E2|]); [|done].
    intros ? [= <-]. exists false, u. split; [done|]. split; [done|]. by rewrite E4.
Qed.

(** C14. Switching the gate off puts the settings back. However often it was switched
    on before, at whatever addresses, as long as those are recognised as the gate's:
    if Claude Code did not use the gate at first, then after switching off its
    settings are what they were then, every variable and every other key; the base
    URL is the one that was set, or none. Operations of the disk may fail on the way,
    as long as each switching reports success. *)
Theorem off_undoes_every_on home listens rec v0 d d1 o d2 :
  let path := claude_settings_path home in
  claude_detected home = true →
  wf_json v0 → settings_on path v0 d → is_managed_url (hd "" listens) (base_url v0) = false →
  (∀ l l', l ∈ listens → l' ∈ listens → l = l' ∨ is_vigil_gate_url (claude_gate_url l) = true) →
  switched_on home None d listens rec d1 →
  claude_revert home (List.last listens "") (Some rec) d1 = (Ok o, d2) →
  ao_changed o = true ∧ agree_off (beside path) d1 d2 ∧ ∃ u, holds path u d2 ∧ same_settings u v0.
Proof using Hu Hf DocumentLaws0.
  intros path Hdet Hw Hon Hm Hl Hs Hr.
  destruct (switched_on_taken _ _ _ _ _ _ _ Hs Hw Hon Hm Hl) as (Hp & v & Hh & T & _). fold path in Hp, Hh.
  destruct (claude_revert_cases _ _ _ _ _ _ _ Hdet Hh Hr) as [Ha Ho].
  destruct (taken_back path _ _ _ _ T) as (u & Hg & Hsame).
  destruct (Ho o eq_refl) as (changed & u' & Hg' & <- & Hd). fold path in Hg'. rewrite Hg in Hg'.
  injection Hg' as E1 E2. rewrite <- E1 in *. subst u'. split_and!; [done|done|]. by exists u.
Qed.
End Disk.

(** ** The configuration of Codex *)

Section Codex.
Context `{TomlLaws} `{UrlCrate}.

(** The places Vigil has a say in: the provider in use, and its own provider. *)
Definition vigils (path : list string) (key : string) : Prop :=
  (path = [] ∧ key = "model_provider") ∨ (∃ rest, path = "model_provider" :: rest)
  ∨ (path = ["model_providers"] ∧ key = CODEX_PROVIDER_ID)
  ∨ ∃ rest, path = "model_providers" :: CODEX_PROVIDER_ID :: rest.

(** Two documents say the same, but for what is Vigil's. *)
Definition same_elsewhere (u t : Table) : Prop :=
  ∀ path key, ¬ vigils path key → str_at path key u = str_at path key t.

(** Two documents with the same texts in them. *)
Definition same_texts (u t : Table) : Prop := ∀ path key, str_at path key u = str_at path key t.

Lemma same_provider u t : same_texts u t →
  codex_model_provider u = codex_model_provider t ∧
  codex_provider_base_url u = codex_provider_base_url t.
Proof.
  intros Hs. split; [exact (Hs [] "model_provider")|].
  exact (Hs ["model_providers"; CODEX_PROVIDER_ID] "base_url").
Qed.

Lemma str_assign k s t :
  str_of k (toml_assign k (value_str s) t) = Some s ∧
  ∀ path key, ¬ (path = [] ∧ key = k) → (∀ rest, path ≠ k :: rest) →
    str_at path key (toml_assign k (value_str s) t) = str_at path key t.
Proof.
  split; [unfold str_of; rewrite toml_get_assign; simpl; by rewrite toml_str_value|].
  intros [|k' rest] key Hn Hp; cbn [str_at].
  - unfold str_of. rewrite toml_get_assign_ne; [done|]. intros ->. by apply Hn.
  - unfold table_at. rewrite toml_get_assign_ne; [done|]. intros ->. by eapply Hp.
Qed.

Lemma str_remove k t path key :
  (path = [] ∧ key = k → str_at path key (toml_remove k t) = None) ∧
  (¬ (path = [] ∧ key = k) → (∀ rest, path ≠ k :: rest) →
    str_at path key (toml_remove k t) = str_at path key t).
Proof.
  split.
  - intros [-> ->]. cbn [str_at]. unfold str_of. by rewrite toml_get_remove.
  - destruct path as [|k' rest]; intros Hn Hp; cbn [str_at].
    + unfold str_of. rewrite toml_get_remove_ne; [done|]. intros ->. by apply Hn.
    + unfold table_at. rewrite toml_get_remove_ne; [done|]. intros ->. by eapply Hp.
Qed.

(** A table of a document changed in place. *)
Lemma str_put k table table' item t path key :
  as_table_like item = Some table →
  str_at path key (toml_assign k (put_table table' item) t)
  = match path with
    | [] => if String.eqb key k then None else str_at path key t
    | k' :: rest => if String.eqb k' k then str_at rest key table' else str_at path key t
    end.
Proof.
  intros Hi. assert (as_table_like (put_table table' item) = Some table') as Ht
    by (apply toml_put_table; eauto).
  destruct path as [|k' rest]; cbn [str_at].
  - unfold str_of. destruct (String.eqb_spec key k) as [->|Hne].
    + rewrite toml_get_assign. simpl. apply toml_table_str. eauto.
    + by rewrite toml_get_assign_ne.
  - unfold table_at. destruct (String.eqb_spec k' k) as [->|Hne].
    + rewrite toml_get_assign. simpl. by rewrite Ht.
    + by rewrite toml_get_assign_ne.
Qed.

Lemma gate_provider_url listen : str_of "base_url" (gate_provider listen) = Some (codex_gate_url listen).
Proof.
  unfold str_of, gate_provider. rewrite !toml_get_insert_ne, toml_get_insert by done. simpl.
  by rewrite toml_str_value.
Qed.

Lemma str_new path key : str_at path key new_table = None.
Proof.
  destruct path; cbn [str_at]; unfold str_of, table_at; by rewrite toml_get_new.
Qed.

#[local] Ltac next_test :=
  match goal with |- (if ?c then _ else _) = _ → _ => destruct c eqn:?; [by intros|] end.

(** Taking Codex over. *)
Lemma codex_taken path listen doc prev u :
  codex_plan path listen doc = Ok (CodexWrite prev u) →
  codex_model_provider u = Some CODEX_PROVIDER_ID ∧
  codex_provider_base_url u = Some (codex_gate_url listen) ∧ same_elsewhere u doc ∧
  (is_openai (codex_model_provider doc) = true → prev = codex_model_provider doc).
Proof.
  unfold codex_plan. do 3 next_test.
  unfold codex_takeover. set (doc1 := toml_assign "model_provider" (value_str CODEX_PROVIDER_ID) doc).
  destruct (str_assign "model_provider" CODEX_PROVIDER_ID doc) as [Hm Hoff]. fold doc1 in Hm, Hoff.
  set (item := default empty_table (toml_get "model_providers" doc1)).
  destruct (as_table_like item) as [table|] eqn:Et; [|done]. destruct (negb (is_table item)); [done|].
  intros [= <- <-]. set (table' := toml_insert _ _ _).
  pose proof (λ p k, str_put "model_providers" table table' item doc1 p k Et) as Hput.
  assert (∀ rest key, str_at ("model_providers" :: rest) key doc1 = str_at rest key table) as Htab.
  { intros rest key. cbn [str_at]. unfold table_at. unfold item in Et.
    destruct (toml_get "model_providers" doc1) as [i|]; simpl in Et |- *; [by rewrite Et|].
    rewrite toml_empty_table in Et. injection Et as <-. by rewrite str_new. }
  split_and!.
  - change (str_at [] "model_provider" (toml_assign "model_providers" (put_table table' item) doc1)
      = Some CODEX_PROVIDER_ID). by rewrite Hput.
  - transitivity (str_at ["model_providers"; CODEX_PROVIDER_ID] "base_url"
      (toml_assign "model_providers" (put_table table' item) doc1)); [done|].
    rewrite Hput. cbn [String.eqb Ascii.eqb Bool.eqb str_at]. unfold table_at, table'.
    rewrite toml_get_insert. simpl. rewrite toml_table_item. simpl. apply gate_provider_url.
  - intros p key Hv. rewrite Hput. destruct p as [|k' rest].
    + destruct (String.eqb_spec key "model_providers") as [->|Hne].
      * rewrite <- (Hoff [] "model_providers") by naive_solver. cbn [str_at]. unfold str_of, item in *.
        destruct (toml_get "model_providers" doc1) as [i|]; [|done]. simpl in *. symmetry.
        apply toml_table_str. eauto.
      * apply Hoff; [|by intros]. intros [_ ->]. apply Hv. by left.
    + destruct (String.eqb_spec k' "model_providers") as [->|Hne].
      * rewrite <- (Hoff ("model_providers" :: rest) key) by naive_solver. rewrite Htab.
        unfold table'. destruct rest as [|k2 rest]; cbn [str_at]; unfold str_of, table_at.
        -- rewrite toml_get_insert_ne, toml_get_implicit; [done|]. intros ->. apply Hv. by do 2 right; left.
        -- rewrite toml_get_insert_ne, toml_get_implicit; [done|]. intros ->. apply Hv. do 3 right.
           by exists rest.
      * apply Hoff; [by intros [? _]|]. intros r [= -> _]. apply Hv. right. left. by exists rest.
  - by intros ->.
Qed.

Lemma codex_already path listen doc :
  codex_plan path listen doc = Ok CodexAlready → codex_doc_state doc listen = AgentState.Active.
Proof.
  unfold codex_plan. do 2 next_test. destruct (bool_decide _ && bool_decide _) eqn:E.
  - intros _. apply andb_true_iff in E as [Em Eu]. unfold codex_doc_state. cbv zeta. rewrite Em, Eu. done.
  - unfold codex_takeover. destruct (as_table_like _); [|done].
    destruct (negb (is_table _)); intros E'; discriminate E'.
Qed.

(** Taking it back, from a document that says the same as the one that was written. *)
Lemma codex_back path listen prev u :
  codex_model_provider u = Some CODEX_PROVIDER_ID →
  codex_provider_base_url u = Some (codex_gate_url listen) →
  ∃ w, codex_give_back listen (Some (mkCodexApplied path prev)) u = (true, w) ∧
    codex_model_provider w = prev ∧
    (∀ rest key, str_at ("model_providers" :: CODEX_PROVIDER_ID :: rest) key w = None) ∧
    same_elsewhere w u.
Proof.
  intros Hm Hb. unfold codex_give_back, codex_still_ours. rewrite Hb, String.eqb_refl. cbn [orb].
  unfold revert_model_provider. rewrite bool_decide_true by done. cbn [mbind option_bind cx_previous_model_provider].
  set (u1 := match prev with Some p => _ | None => _ end).
  assert (codex_model_provider u1 = prev ∧ ∀ p key, ¬ (p = [] ∧ key = "model_provider") →
    (∀ rest, p ≠ "model_provider" :: rest) → str_at p key u1 = str_at p key u) as [Hm1 Hoff].
  { unfold u1. destruct prev as [q|].
    - destruct (str_assign "model_provider" q u) as [E Hoff]. split; [exact E|exact Hoff].
    - split; [by apply (str_remove "model_provider" u [] "model_provider")|].
      intros p key. apply str_remove. }
  assert (codex_provider_base_url u1 = Some (codex_gate_url listen)) as Hb1.
  { rewrite <- Hb. apply (Hoff ["model_providers"; CODEX_PROVIDER_ID] "base_url"); [by intros []|by intros]. }
  unfold remove_provider. revert Hb1. unfold codex_provider_base_url, table_at.
  destruct (toml_get "model_providers" u1) as [item|] eqn:Ei; [|done]. cbn [mbind option_bind].
  destruct (as_table_like item) as [table|] eqn:Et; [|done]. cbn [mbind option_bind].
  destruct (toml_get CODEX_PROVIDER_ID table) as [pi|] eqn:Ep; [|done]. intros _.
  eexists. split; [reflexivity|].
  pose proof (λ p k, str_put "model_providers" table (toml_remove CODEX_PROVIDER_ID table) item u1 p k Et) as Hput.
  set (w := toml_assign _ _ u1) in *.
  split_and!.
  - transitivity (str_at [] "model_provider" w); [done|]. by rewrite Hput.
  - intros rest key. rewrite Hput. cbn [String.eqb Ascii.eqb Bool.eqb str_at]. unfold table_at.
    by rewrite toml_get_remove.
  - intros p key Hv. rewrite Hput. destruct p as [|k' rest].
    + destruct (String.eqb_spec key "model_providers") as [->|Hne].
      * rewrite <- (Hoff [] "model_providers") by naive_solver. cbn [str_at]. unfold str_of. rewrite Ei.
        simpl. symmetry. apply toml_table_str. eauto.
      * apply Hoff; [|by intros]. intros [_ ->]. apply Hv. by left.
    + destruct (String.eqb_spec k' "model_providers") as [->|Hne].
      * rewrite <- (Hoff ("model_providers" :: rest) key) by naive_solver.
        assert (str_at ("model_providers" :: rest) key u1 = str_at rest key table) as ->
          by (cbn [str_at]; unfold table_at; rewrite Ei; simpl; by rewrite Et).
        destruct rest as [|k2 rest]; cbn [str_at]; unfold str_of, table_at.
        -- rewrite toml_get_remove_ne; [done|]. intros ->. apply Hv. by do 2 right; left.
        -- rewrite toml_get_remove_ne; [done|]. intros ->. apply Hv. do 3 right. by exists rest.
      * apply Hoff; [by intros [? _]|]. intros r [= -> _]. apply Hv. right. left. by exists rest.
Qed.

End Codex.

(** ** The switch *)

Section Switch.
Context `{Host} `{Document Value} `{!DocumentLaws Value} `{Document OutboundFile} `{!DocumentLaws OutboundFile}.
Context `{TomlLaws} `{UrlCrate} `{Installed} `{FileSystem} `{IoText}.
Context (Hu : undisturbed) (Hf : faults_are_not_absence).

(** The setting in its file. *)
Definition stored (path : string) (file : OutboundFile) (d : Disk) : Prop :=
  ∃ f, dk_files d !! path = Some f ∧ from_str (fl_text f) = Some file.

(** The setting can be read back, and names a local address. *)
Definition sound (file : OutboundFile) : Prop :=
  of_version file = OUTBOUND_FILE_VERSION ∧
  ∃ addr, parse_listen (of_listen file) = Ok addr ∧ is_loopback (sa_ip addr) = true.

Definition claude_routed (home listen : string) (d : Disk) : Prop :=
  ∃ v, holds (claude_settings_path home) v d ∧ base_url v = Some (claude_gate_url listen).

Definition codex_routed (codex_home listen : string) (d : Disk) : Prop :=
  ∃ f doc, dk_files d !! codex_toml codex_home = Some f ∧ toml_parse (fl_text f) = Some doc ∧
    codex_doc_state doc listen = AgentState.Active.

Lemma listens_locally listen :
  is_ok (parse_listen listen) = true → ∃ addr, parse_listen listen = Ok addr ∧ is_loopback (sa_ip addr) = true.
Proof using Type.
  unfold parse_listen. destruct (parse_socket_addr listen) as [a|]; [|done].
  destruct (is_loopback (sa_ip a)) eqn:E; [|done]. by exists a.
Qed.

Lemma default_sound : sound default_outbound_file.
Proof using Type. split; [done|]. apply listens_locally. by vm_compute. Qed.

Lemma load_cases path d r d' :
  load_setting path d = (r, d') → dk_files d' = dk_files d ∧ ∃ file, r = Ok file ∧ sound file.
Proof using Hu.
  unfold load_setting, load_outbound. unfold bind, attempt, ret.
  destruct (read_to_string path d) as [r1 d1] eqn:E. apply (reads_cases Hu) in E as [F _].
  pose proof default_sound. destruct r1 as [raw|[]]; [|intros [= <- <-]; eauto..].
  destruct (from_str raw) as [file|]; [|intros [= <- <-]; eauto].
  destruct (of_version file =? _)%Z eqn:Ev; cbn [negb]; [|intros [= <- <-]; eauto].
  destruct (is_ok (parse_listen (of_listen file))) eqn:El; cbn [negb]; intros [= <- <-]; [|eauto].
  split; [done|]. exists file. split; [done|]. split; [by apply Z.eqb_eq|by apply listens_locally].
Qed.

Lemma store_cases path file d r d' :
  store_setting path file d = (r, d') →
  agree_off [path; tmp_path_for path] d d' ∧
  match r with
  | Ok _ => stored path file d'
  | Err _ => dk_files d' !! path = dk_files d !! path
  end.
Proof using Hu DocumentLaws1.
  unfold store_setting, result_of. unfold bind at 1.
  destruct (store_outbound path file d) as [r1 d1] eqn:E. intros Hr.
  assert (d' = d1 ∧ is_ok r = is_ok r1) as [-> Hok] by (destruct r1; by injection Hr as <- <-). clear Hr.
  revert E. unfold store_outbound. unfold bind at 1.
  pose proof (keeps_create_parent Hu path d) as Hc.
  destruct (create_parent path d) as [r2 d2]. simpl in Hc.
  assert (∀ q, dk_files d2 !! q = dk_files d !! q) as F by (intros q; apply Hc, not_elem_of_nil).
  destruct r2 as [[]|].
  2:{ intros [= <- <-]. destruct r; [done|]. by split; [intros q _|]. }
  unfold bind, lift. destruct (to_string_pretty file) as [text|] eqn:Et; cbn [ok_or].
  2:{ intros [= <- <-]. destruct r; [done|]. by split; [intros q _|]. }
  intros [Ha Hm]%(replace_file_atomic Hu _ _ _ _ _ _ (keeps_ret [] tt)).
  split; [intros q Hq; by rewrite Ha|]. destruct r1, r; try done; [|by rewrite Hm].
  destruct Hm as [Hm _]. unfold stored. destruct (dk_files d1 !! path) as [f|]; [|done].
  injection Hm as Hm. exists f. split; [done|]. rewrite Hm. by apply document_roundtrip.
Qed.

Lemma claude_applied home listen prior d r d' :
  claude_apply home listen prior d = (r, d') →
  agree_off [claude_settings_path home; tmp_path_for (claude_settings_path home);
             backup_path_for (claude_settings_path home)] d d' ∧
  (is_active_outcome r = true → claude_routed home listen d').
Proof using Hu Hf DocumentLaws0.
  intros E. apply (claude_apply_cases Hu Hf) in E as [Ha Hc]. split; [done|].
  destruct r as [[o rec]|e]; [|done]. destruct rec as [rec|]; simpl.
  2:{ destruct Hc as [Hc _]. by destruct (ao_state o). }
  destruct Hc as (-> & v0 & Hon & Hplan). intros _.
  destruct Hplan as [[Hp Hd]|(v & Hp & Hh)].
  - assert (base_url v0 = Some (claude_gate_url listen)) as Hb.
    { revert Hp. unfold claude_plan, res_bind. destruct (claude_env_map v0 _) as [env|] eqn:He; [|done].
      destruct (env_map_env _ _ _ He) as (root & -> & Hd' & _). destruct (claude_unsupported env); [done|].
      rewrite current_default, <- Hd'. fold (base_url (JObj root)). by case_bool_decide. }
    exists v0. split; [|done]. destruct Hon as [Hon|[_ ->]]; [|done].
    eapply holds_files; [|exact Hon]. by rewrite Hd.
  - exists v. split; [done|]. revert Hp. unfold claude_plan, res_bind.
    destruct (claude_env_map v0 _) as [env|]; [|done]. destruct (claude_unsupported env); [done|].
    destruct (_ && _); [done|]. destruct v0 as [| | | | | |root]; try done. intros [= _ <-].
    unfold base_url, env_of, point_at_gate. cbn [json_get]. rewrite assoc_get_insert.
    unfold current_base_url. cbn [mbind option_bind].
    match goal with |- context [assoc_get CLAUDE_BASE_URL_KEY ?m] =>
      assert (assoc_get CLAUDE_BASE_URL_KEY m = Some (JStr (claude_gate_url listen))) as ->
    end.
    { destruct (has_tool_search env); [|rewrite assoc_get_insert_ne by done]; apply assoc_get_insert. }
    cbn [mbind option_bind as_str]. by rewrite gate_url_trimmed, gate_url_filled.
Qed.

Lemma read_codex_cases path d r d' :
  read_codex_config path d = (r, d') → dk_files d' = dk_files d ∧
  ∀ doc, r = Ok (Some doc) → ∃ f, dk_files d !! path = Some f ∧ toml_parse (fl_text f) = Some doc.
Proof using Hu.
  unfold read_codex_config. unfold bind at 1. rewrite io_attempt.
  destruct (metadata path d) as [r1 d1] eqn:E1. apply (reads_cases Hu) in E1 as [F1 _]. simpl.
  destruct r1 as [[mt len]|[]]; [|by intros [= <- <-]|by intros [= <- <-]].
  destruct (_ <? len)%Z; [by intros [= <- <-]|].
  unfold bind, map_io. destruct (read_to_string path d1) as [r2 d2] eqn:E2.
  apply (reads_cases Hu) in E2 as [F2 Hr]. rewrite F1 in F2, Hr.
  destruct r2 as [raw|]; [|by intros [= <- <-]]. destruct Hr as (f & Hl & ->).
  destruct (toml_parse (fl_text f)) as [doc|] eqn:Ep; intros [= <- <-]; (split; [done|]); [|done].
  intros ? [= <-]. by exists f.
Qed.

Lemma codex_applied codex_home listen d r d' :
  codex_apply codex_home listen d = (r, d') →
  agree_off [codex_toml codex_home; tmp_path_for (codex_toml codex_home);
             backup_path_for (codex_toml codex_home)] d d' ∧
  (is_active_outcome r = true → codex_routed codex_home listen d').
Proof using Hu H3.
  unfold codex_apply. destruct (negb _); [by intros [= <- <-]|]. set (path := codex_toml codex_home).
  unfold bind at 1. destruct (read_codex_config path d) as [[existing|e] d1] eqn:E1;
    apply read_codex_cases in E1 as [F1 Hex].
  2:{ intros [= <- <-]. split; [intros q _; by rewrite F1|done]. }
  unfold bind at 1.
  match goal with |- context [match existing with Some _ => ?a | None => ?b end d1] =>
    destruct (match existing with Some _ => a | None => b end d1) as [[stamp|e] d2] eqn:E2
  end; (assert (dk_files d2 = dk_files d1) as F2;
    [destruct existing; [|by injection E2 as _ <-]; revert E2; unfold bind;
     destruct (stamp_for_existing path d1) as [[st|] d3] eqn:E3; apply (stamp_cases Hu) in E3;
     by intros [= _ <-]|]).
  2:{ intros [= <- <-]. split; [intros q _; by rewrite F2, F1|done]. }
  unfold bind at 1, lift. destruct (codex_plan path listen _) as [plan|e] eqn:Ep.
  2:{ intros [= <- <-]. split; [intros q _; by rewrite F2, F1|done]. }
  destruct plan as [reason| |prev u].
  - intros [= <- <-]. split; [intros q _; by rewrite F2, F1|done].
  - intros [= <- <-]. split; [intros q _; by rewrite F2, F1|]. intros _.
    assert (codex_doc_state (default new_table existing) listen = AgentState.Active) as Hact.
    { by eapply codex_already. }
    destruct existing as [doc|].
    + destruct (Hex doc eq_refl) as (f & Hl & Hp). exists f, doc. by rewrite F2, F1.
    + revert Hact. unfold codex_doc_state, codex_model_provider, codex_provider_base_url, str_of, table_at.
      simpl. by rewrite !toml_get_new.
  - destruct (codex_taken _ _ _ _ _ Ep) as (Hm & Hb & _).
    unfold bind. destruct (atomic_write_str_with_backup path (toml_print u) stamp d2) as [r3 d3] eqn:E3.
    destruct (proj1 (atomic_write_cases _ _ _ _ _ _ E3) Hu) as [Ha Hw].
    destruct r3 as [bak|]; intros [= <- <-]; (split; [intros q Hq; by rewrite Ha, F2, F1|]); [|done].
    intros _. destruct Hw as [Hw _]. unfold codex_routed. fold path.
    destruct (dk_files d3 !! path) as [f|]; [|done].
    injection Hw as Hw. destruct (toml_reread u) as (v & Hv & Hre).
    destruct (same_provider v u Hre) as [Hm' Hb']. exists f, v. rewrite Hw. split_and!; [done|done|].
    unfold codex_doc_state. by rewrite Hm', Hb', Hm, Hb, !bool_decide_true.
Qed.

Context (places : Places) (lang : Lang) (path home : string).
Context (Hpath : pl_outbound places = Some path) (Hhome : pl_home places = Some home).

Abbreviation codex_home := (codex_home_from_env places home).

(** The files of the gate and of the agents are different ones. *)
Definition apart : Prop :=
  (∀ q, q ∈ [claude_settings_path home; codex_toml codex_home] → q ∉ [path; tmp_path_for path]) ∧
  path ∉ [claude_settings_path home; tmp_path_for (claude_settings_path home);
          backup_path_for (claude_settings_path home)] ∧
  path ∉ [codex_toml codex_home; tmp_path_for (codex_toml codex_home); backup_path_for (codex_toml codex_home)] ∧
  claude_settings_path home ∉ [codex_toml codex_home; tmp_path_for (codex_toml codex_home);
                               backup_path_for (codex_toml codex_home)].

Lemma noted_sound {A} (r : result SetupError (AgentOutcome * option A)) note file :
  (∀ rec file, of_version (note rec file) = of_version file ∧ of_listen (note rec file) = of_listen file) →
  of_version (noted r note file) = of_version file ∧ of_listen (noted r note file) = of_listen file.
Proof using Type. intros Hn. unfold noted. destruct r as [[o rec]|]; [apply Hn|done]. Qed.

(** C15. The switch says on only if there is traffic. Whatever fails while the gate is
    switched on, the setting on the disk is afterwards either the one before, or a new
    one that is sound: it can be read back, and its address is a local one; and if
    that says the gate is enabled, then the configuration of Claude Code or that of
    Codex, as it is on the disk, sends the requests to that very address. Success
    means that the setting is a new one, and says enabled. *)
Theorem gate_is_on_only_if_routed listen d r d' :
  apart → run_on places lang listen d = (r, d') →
  (dk_files d' !! path = dk_files d !! path ∧ is_ok r = false) ∨
  ∃ file, stored path file d' ∧ sound file ∧
    (of_enabled file = true →
       claude_routed home (of_listen file) d' ∨ codex_routed codex_home (of_listen file) d') ∧
    (r = Ok tt → of_enabled file = true).
Proof using All.
  intros (Hcx & Hpc & Hpx & Hc). unfold run_on. unfold bind at 1, lift at 1. rewrite Hpath. cbn [ok_or].
  unfold bind at 1, lift at 1. rewrite Hhome. cbn [ok_or].
  unfold bind at 1. destruct (load_setting path d) as [r1 d1] eqn:E1.
  apply load_cases in E1 as (F1 & file0 & -> & Hs0).
  unfold bind at 1.
  match goal with |- context [match listen with Some l => @?a l | None => ?b end d1] =>
    destruct (match listen with Some l => a l | None => b end d1) as [r2 d2] eqn:E2 end.
  assert (d2 = d1 ∧ ∀ file, r2 = Ok file → sound file) as [-> Hs1].
  { destruct listen as [l|]; [|injection E2 as <- <-; naive_solver].
    revert E2. unfold lift, res_bind. destruct (parse_listen l) as [addr|] eqn:El; intros [= <- <-]; (split; [done|]); [|done].
    intros ? [= <-]. split; [apply Hs0|]. apply listens_locally. simpl. by rewrite El. }
  destruct r2 as [file1|]; [|intros [= <- <-]; left; by rewrite F1].
  specialize (Hs1 file1 eq_refl). clear E2.
  unfold bind at 1, result_of at 1. destruct (claude_apply _ _ _ d1) as [rc d2] eqn:Ec.
  apply claude_applied in Ec as [Ha2 Hrc].
  assert (of_version (noted rc note_claude file1) = of_version file1 ∧
          of_listen (noted rc note_claude file1) = of_listen file1) as [Hv2 Hl2].
  { apply noted_sound. intros [rec|] file; [|done]. simpl. by destruct (cl_previous_base_url rec). }
  set (file2 := noted rc note_claude file1) in *.
  unfold bind at 1, result_of at 1. destruct (codex_apply _ _ d2) as [rx d3] eqn:Ex.
  apply codex_applied in Ex as [Ha3 Hrx].
  assert (of_version (noted rx note_codex file2) = of_version file2 ∧
          of_listen (noted rx note_codex file2) = of_listen file2) as [Hv3 Hl3].
  { apply noted_sound. by intros [rec|] file. }
  set (file3 := noted rx note_codex file2) in *. set (active := is_active_outcome rc || is_active_outcome rx).
  unfold bind at 1. destruct (store_setting path (set_enabled active file3) d3) as [rs d4] eqn:Es.
  apply store_cases in Es as [Ha4 Hst].
  destruct rs as [[]|].
  2:{ intros [= <- <-]. left. split; [|done]. by rewrite Hst, Ha3, Ha2, F1. }
  assert (∀ x, (if negb active then throw (tr lang
     "no agent could be pointed at the gate; the switch was left off" "没有任何 agent 被成功指向闸门;开关保持关闭")
     else x) d4 = (r, d') → x d4 = (r, d') ∨ r ≠ Ok tt) as Hneg.
  { intros x. destruct (negb active); [intros [= <- _]; by right|by left]. }
  intros Hr. right. exists (set_enabled active file3).
  assert (d' = d4 ∧ (r = Ok tt → active = true)) as [-> Hact].
  { destruct active; cbn [negb] in Hr; [|by injection Hr as <- <-].
    destruct (negb (is_ok rc) || negb (is_ok rx)); by injection Hr as <- <-. }
  split_and!; [done| | |done].
  - destruct Hs1 as [Hv Hl]. split; simpl; [congruence|]. by rewrite Hl3, Hl2.
  - simpl. rewrite Hl3, Hl2. intros [Hact1|Hact1]%orb_true_iff.
    + left. destruct (Hrc Hact1) as (v & Hh & Hb). exists v. split; [|done].
      eapply holds_files; [|exact Hh]. rewrite Ha4 by (apply Hcx; set_solver). by apply Ha3.
    + right. destruct (Hrx Hact1) as (f & doc & Hh & Hb). exists f, doc.
      rewrite Hl2 in Hb. rewrite Ha4 by (apply Hcx; set_solver). done.
Qed.
End Switch.

(** ** Witnesses *)

Import Toy.

#[local] Instance steady_host : Host := {|
  fault _ := None;
  meddle _ files := files;
  modified_now n := Z.of_nat n;
|}.

(** A reader of URLs good enough for the examples: a scheme, no user, a host and
    perhaps a port, a path. *)
#[local] Instance simple_urls : UrlCrate := {|
  url_parse s :=
    rest ← Text.strip_prefix "http://" s;
    let host := if Str.starts_with "[" rest then "[::1]" else default rest (fst <$> split_once ":" rest) in
    match split_once "/" rest with
    | Some (_, p) => Some (mkUrl "http" "" None (Some host) ("/" +:+ p))
    | None => Some (mkUrl "http" "" None (Some host) "/")
    end;
  url_without_userinfo s := s;
|}.

#[local] Instance all_installed : Installed := {| claude_detected _ := true; is_dir _ := true |}.
#[local] Instance no_texts : IoText := {| io_text _ := "" |}.

#[local] Instance OutboundFile_eq_dec : EqDecision OutboundFile.
Proof. unfold EqDecision, Decision. repeat decide equality. Defined.

#[local] Instance OutboundFile_countable : Countable OutboundFile.
Proof.
  refine (inj_countable'
    (λ f, (of_version f, of_enabled f, of_listen f,
           (let r := of_upstreams f in (ro_anthropic r, ro_openai r, ro_codex_chatgpt r, ro_gemini r)),
           (λ c, (cl_config_path c, cl_previous_base_url c, cl_set_tool_search c)) <$> aa_claude (of_agents f),
           (λ c, (cx_config_path c, cx_previous_model_provider c)) <$> aa_codex (of_agents f)))
    (λ '(v, e, l, (ra, ro, rc, rg), cl, cx),
      mkOutboundFile v e l (mkRoutes ra ro rc rg)
        (mkAppliedAgents ((λ '(p, b, t), mkClaudeApplied p b t) <$> cl) ((λ '(p, m), mkCodexApplied p m) <$> cx)))
    _).
  by intros [v e l [ra ro rc rg] [[[]|] [[]|]]].
Defined.

#[local] Instance setting_document : Document OutboundFile := coded_as.
#[local] Instance setting_laws : DocumentLaws OutboundFile := coded_laws.

Lemma steady : undisturbed.
Proof. by intros n files. Qed.

Lemma steady_faults : faults_are_not_absence.
Proof. by intros n f. Qed.

(** A user whose Claude Code goes through a gateway of the company. *)
Definition with_gateway : Value :=
  JObj [("env", JObj [("ANTHROPIC_BASE_URL", JStr "https://gw.corp"); ("HTTP_PROXY", JStr "p")]);
        ("theme", JStr "dark")].

Definition gateway_disk : Disk :=
  mkDisk {["/h/.claude/settings.json" := mkFile (digits (encode with_gateway)) 1;
           "/h/.codex/config.toml" := mkFile (toml_print ([("model", JStr "m")] : Table)) 2]} 0.

Lemma gateway_wf : wf_json with_gateway.
Proof.
  apply wf_obj. split; [by nodup_keys|]. rewrite !Forall_cons, Forall_nil. split; [|done].
  apply wf_obj. split; [by nodup_keys|]. by rewrite !Forall_cons, Forall_nil.
Qed.

Lemma gateway_settings : settings_on "/h/.claude/settings.json" with_gateway gateway_disk.
Proof. left. eexists. split; [reflexivity|]. vm_compute. reflexivity. Qed.

(** Switched on at two addresses, one after the other. *)
Abbreviation first_run := (claude_apply "/h" "127.0.0.1:8445" None gateway_disk).
Abbreviation record_of r := (match r with Ok (_, Some rec) => rec | _ => mkClaudeApplied "" None false end).
Abbreviation second_run := (claude_apply "/h" "127.0.0.1:9000" (Some (record_of first_run.1)) first_run.2).
Abbreviation last_run :=
  (claude_revert "/h" "127.0.0.1:9000" (Some (record_of second_run.1)) second_run.2).

Definition applied_ok (r : result SetupError (AgentOutcome * option ClaudeApplied)) : bool :=
  match r with
  | Ok (_, Some _) => true
  | _ => false
  end.

Lemma applied_run r d : applied_ok r = true → ∃ o, (r, d : Disk) = (Ok (o, Some (record_of r)), d).
Proof. destruct r as [[o [rec|]]|]; [by exists o|done..]. Qed.

Lemma both_runs : applied_ok first_run.1 && applied_ok second_run.1 && is_ok last_run.1 = true.
Proof. vm_compute. reflexivity. Qed.

Lemma two_addresses l l' :
  l ∈ ["127.0.0.1:8445"; "127.0.0.1:9000"] → l' ∈ ["127.0.0.1:8445"; "127.0.0.1:9000"] →
  l = l' ∨ is_vigil_gate_url (claude_gate_url l) = true.
Proof.
  intros Hl _. right. rewrite !elem_of_cons in Hl.
  destruct Hl as [->|[->|Hl]]; [by vm_compute|by vm_compute|by apply not_elem_of_nil in Hl].
Qed.

Lemma run_pair {A B} (p : A * B) : (p.1, p.2) = p.
Proof. by destruct p. Qed.

Lemma off_undoes_every_on_witness :
  ∃ u, holds "/h/.claude/settings.json" u last_run.2 ∧ same_settings u with_gateway.
Proof.
  pose proof both_runs as Hb. apply andb_true_iff in Hb as [Hb H3]. apply andb_true_iff in Hb as [H1 H2].
  destruct (applied_run _ first_run.2 H1) as [o1 E1]. rewrite run_pair in E1.
  destruct (applied_run _ second_run.2 H2) as [o2 E2]. rewrite run_pair in E2.
  assert (∃ o, last_run = (Ok o, last_run.2)) as [o E3].
  { destruct last_run as [[o|e] d]; [by exists o|discriminate H3]. }
  exact (proj2 (proj2 (off_undoes_every_on steady steady_faults "/h"
    ["127.0.0.1:8445"; "127.0.0.1:9000"] _ with_gateway gateway_disk _ o _
    eq_refl gateway_wf gateway_settings eq_refl two_addresses
    (on_again _ _ _ _ _ _ _ _ _ _ (on_once _ _ _ _ _ _ _ E1) E2) E3))).
Defined.

Definition openai_doc : Table :=
  [("model", JStr "m"); ("model_provider", JStr "openai"); ("model_providers", JObj [("mine", JObj [])])].


Definition places : Places := mkPlaces (Some "/d/outbound.json") (Some "/h") None.

Lemma places_apart : apart places "/d/outbound.json" "/h".
Proof. unfold apart. split_and!; [|set_solver..]. intros q. set_solver. Qed.

Abbreviation gate_run := (run_on places Lang.En (Some "127.0.0.1:9000") gateway_disk).

Lemma gate_goes_on : gate_run.1 = Ok tt.
Proof. vm_compute. reflexivity. Qed.

Lemma gate_is_on_only_if_routed_witness :
  ∃ file, stored "/d/outbound.json" file gate_run.2 ∧ of_enabled file = true ∧
    (claude_routed "/h" (of_listen file) gate_run.2 ∨ codex_routed "/h/.codex" (of_listen file) gate_run.2).
Proof.
  pose proof gate_goes_on as Hok.
  destruct (gate_is_on_only_if_routed steady steady_faults places Lang.En "/d/outbound.json" "/h"
    eq_refl eq_refl (Some "127.0.0.1:9000") gateway_disk gate_run.1 gate_run.2 places_apart
    (eq_sym (run_pair gate_run)))
    as [[_ Hd]|(file & Hs & _ & Hr & He)]; [rewrite Hok in Hd; discriminate Hd|].
  exists file. split; [exact Hs|]. split; [exact (He Hok)|exact (Hr (He Hok))].
Defined.

(** An address the gate may listen at, but that is not taken for the gate's: switching
    on at another address records it as the user's own. *)
Definition after_first (listen : string) : Disk := (run_on places Lang.En (Some listen) gateway_disk).2.

Definition recorded (d : Disk) : option (option string * option string * string) :=
  f ← dk_files d !! "/d/outbound.json";
  file ← (from_str (fl_text f) : option OutboundFile);
  Some (aa_claude (of_agents file) ≫= cl_previous_base_url,
        aa_codex (of_agents file) ≫= cx_previous_model_provider, ro_anthropic (of_upstreams file)).

Example an_own_address_is_taken_for_a_gateway :
  is_ok (parse_listen "127.0.0.2:8445") = true ∧
  recorded (after_first "127.0.0.2:8445") = Some (Some "https://gw.corp", None, "https://gw.corp") ∧
  recorded (run_on places Lang.En (Some "127.0.0.1:9000") (after_first "127.0.0.2:8445")).2
    = Some (Some "http://127.0.0.2:8445/anthropic", None, "http://127.0.0.2:8445/anthropic").
Proof. split_and!; vm_compute; reflexivity. Qed.

(** A second time at the same address leaves no way back to the provider that was
    named in the configuration. *)
Example the_second_time_forgets_the_provider :
  let d := mkDisk {["/h/.codex/config.toml" := mkFile (toml_print openai_doc) 1]} 0 in
  let d1 := (run_on places Lang.En None d).2 in
  let d2 := (run_on places Lang.En None d1).2 in
  (x ← recorded d1; Some x.1.2) = Some (Some "openai") ∧
  (x ← recorded d2; Some x.1.2) = Some None.
Proof. split; vm_compute; reflexivity. Qed.

(** A provider of Vigil's name without an address is overwritten. *)
Example a_provider_without_address_is_overwritten :
  let doc : Table := [("model_providers", JObj [("vigil", JObj [("name", JStr "mine")])])] in
  match codex_plan "/c" "127.0.0.1:8445" doc with
  | Ok (CodexWrite _ u) => str_at ["model_providers"; "vigil"] "name" u
  | _ => None
  end = Some "Vigil outbound gate".
Proof. vm_compute. reflexivity. Qed.

(** The way to a gateway that is no longer in the settings is kept. *)
Example a_gateway_of_the_past_is_kept :
  let d := after_first "127.0.0.1:8445" in
  let d := mkDisk (<["/h/.claude/settings.json" := mkFile (digits (encode (JObj []))) 9]> (dk_files d)) (dk_ops d) in
  recorded (run_on places Lang.En None d).2 = Some (None, None, "https://gw.corp").
Proof. vm_compute. reflexivity. Qed.
