(* ===== verification/HttpAuth.v ===== *)
(** * Tokens for remote servers

    [src/crates/vigil-http-auth], with the HTTP client of
    [src/crates/vigil-http-transport/src/client.rs]: the metadata of a protected
    resource (RFC 9728), the requests to an authorization server, the reading of
    access tokens, the store of tokens with its refresh and its cache of
    introspection answers, and the planner that puts a token on a request.

    Everything these functions share is one state ([AuthState]); the requests sent so
    far are part of it, with what each was answered. The crates [url], [base64] and
    [reqwest], the readers serde derives, the clocks and what other threads do while a
    lock is waited for are interfaces. Locks themselves, which no thread panics under,
    are left out, as is the wiping of secrets. *)

From stdpp Require Import pretty.
From S2P Require Import Prelude Text Types Json Deps Db Ledger Secrets HardRedact Lease.

Module HttpAuthError.
Inductive HttpAuthError :=
| InvalidPrm (reason : string)
| MissingAuthorizationServer
| BearerHeaderNotSupported
| ScopeNotSupported (scope : string)
| UnsupportedTokenFormat
| JwtDecodeFailed
| AudienceMismatch (expected actual : string)
| ScopeMissing (scope : string)
| TokenExpired
| MissingToken
| TokenStoreError (reason : string)
| TokenRejectedWrongIssuer (expected actual : string)
| TokenRehydrateRequired (reason_code : string)
| JwtSignatureInvalid
| JwtAlgRejected (reason : string)
| JwksKidNotFound
| HttpError (reason : string)
| Internal (reason : string).
End HttpAuthError.
Abbreviation HttpAuthError := HttpAuthError.HttpAuthError.

(** ** URLs and requests *)

(** What is asked of a [url::Url]; two are equal when their texts are. *)
Record WebUrl := mkWebUrl {
  wu_text : string;
  wu_scheme : string;
  wu_host_str : option string;
  wu_port_or_known_default : option Z;
}.

(** [str.parse::<Url>().ok()], [url.join(..).ok()], [query_pairs_mut().append_pair(..)] *)
Class Urls := {
  url_of : string → option WebUrl;
  url_join : WebUrl → string → option WebUrl;
  append_pairs : WebUrl → list (string * string) → WebUrl;
}.

(** A URL is read back from its text. *)
Class UrlsLaws `{Urls} : Prop := { url_of_text s u : url_of s = Some u → url_of (wu_text u) = Some u }.

Module HttpMethod.
Inductive HttpMethod := Get | PostForm | Post.
End HttpMethod.
Abbreviation HttpMethod := HttpMethod.HttpMethod.

Abbreviation HeaderList := (list (string * string)).

Record HttpRequest := mkHttpRequest {
  rq_url : WebUrl;
  rq_method : HttpMethod;
  rq_headers : HeaderList;
  rq_body : option string;
}.

Record HttpResponseFull := mkHttpResponseFull {
  rp_status : Z;
  rp_body : string;
  rp_headers : HeaderList;
}.

(** What reaches the network. *)
Record WireRequest := mkWireRequest {
  wr_post : bool;
  wr_url : string;
  wr_headers : HeaderList;
  wr_body : option string;
  wr_timeout : option Z;
}.

(** What comes back; a header value that is no text is [None]. *)
Record RawResponse := mkRawResponse {
  rr_status : Z;
  rr_headers : list (string * option string);
  rr_body : option string;
}.

Record ReqwestError := mkReqwestError { re_timeout : bool; re_connect : bool; re_request : bool }.

(** What the [n]-th request gets. *)
Class HttpTransport := { http_send : nat → WireRequest → result ReqwestError RawResponse }.

Record Exchange := mkExchange {
  ex_request : WireRequest;
  ex_answer : result ReqwestError RawResponse;
}.

(** ** Documents *)

Record ProtectedResourceMetadata := mkPrm {
  pm_resource : WebUrl;
  pm_authorization_servers : list WebUrl;
  pm_bearer_methods_supported : list string;
  pm_scopes_supported : list string;
  pm_resource_documentation : option WebUrl;
}.

Record JoseHeader := mkJoseHeader { jh_alg : string; jh_kid : option string; jh_typ : option string }.

Record DecodedAccessToken := mkDecodedAccessToken {
  da_iss : option string;
  da_aud : option Value;
  da_resource : option string;
  da_scope : option string;
  da_exp : option Z;
}.

Record TokenResponse := mkTokenResponse {
  tr_access_token : string;
  tr_token_type : option string;
  tr_expires_in : option Z;
  tr_refresh_token : option string;
  tr_scope : option string;
}.

Record IntrospectionResponse := mkIntrospectionResponse {
  ir_active : bool;
  ir_scope : option string;
  ir_exp : option Z;
  ir_iss : option string;
  ir_aud : option Value;
  ir_username : option string;
  ir_token_type : option string;
}.

(** One key of a set: the members that are read, and the others as they came. *)
Record Jwk := mkJwk {
  jk_kid : string;
  jk_kty : string;
  jk_alg : option string;
  jk_extra : list (string * Value);
}.

Record JwkSet := mkJwkSet { ks_keys : list Jwk }.

Record AuthorizationServerMetadata := mkAuthorizationServerMetadata {
  am_issuer : string;
  am_jwks_uri : string;
  am_token_endpoint : option string;
  am_authorization_endpoint : option string;
  am_response_types_supported : list string;
  am_code_challenge_methods_supported : list string;
  am_introspection_endpoint : option string;
}.

(** The readers serde derives ([serde_json::from_slice(..).ok()]). *)
Class AuthDocuments := {
  read_prm : string → option ProtectedResourceMetadata;
  read_jose_header : string → option JoseHeader;
  read_access_token : string → option DecodedAccessToken;
  read_token_response : string → option TokenResponse;
  read_introspection : string → option IntrospectionResponse;
  read_jwk_set : string → option JwkSet;
  read_as_metadata : string → option AuthorizationServerMetadata;
}.

(** [STANDARD.encode(s)] *)
Class Base64Encode := { encode_standard : string → string }.

(** [find_by_kid] *)
Definition find_by_kid (kid : string) (set : JwkSet) : option Jwk :=
  List.find (λ k, String.eqb (jk_kid k) kid) (ks_keys set).

(** The texts of an [aud] member. *)
Definition audience (aud : option Value) : list string :=
  match aud with
  | Some (JStr s) => [s]
  | Some (JArr arr) => omap as_str arr
  | _ => []
  end.

(** [SCOPES_CLAIM_DELIMITER] *)
Definition scope_words (scope : option string) : list string :=
  match scope with
  | Some s => List.filter (λ t, negb (Str.is_empty t)) (split_char " "%char s)
  | None => []
  end.

(** ** The state *)

Module TokenKind.
Inductive TokenKind := Access | Refresh.

#[global] Instance TokenKind_eq_dec : EqDecision TokenKind.
Proof. solve_decision. Defined.

Definition as_str (k : TokenKind) : string :=
  match k with Access => "access" | Refresh => "refresh" end.

Definition of_str (s : string) : option TokenKind :=
  if String.eqb s "access" then Some Access
  else if String.eqb s "refresh" then Some Refresh
  else None.
End TokenKind.
Abbreviation TokenKind := TokenKind.TokenKind.

Record OAuthTokenMetadata := mkOAuthTokenMetadata {
  mt_token_ref : string;
  mt_resource : string;
  mt_authorization_server : string;
  mt_issuer : string;
  mt_scope_set : list string;
  mt_token_kind : TokenKind;
  mt_expires_at : option Z;
  mt_created_at : Z;
}.

Record ResolvedAccessToken := mkResolvedAccessToken {
  rt_raw : SecretValue;
  rt_resource : string;
  rt_scope_set : list string;
  rt_expires_at : option Z;
}.

Record CachedIntrospection := mkCachedIntrospection {
  ci_response : IntrospectionResponse;
  ci_expires_at : Z;
}.

Record JwksEntry := mkJwksEntry { je_set : JwkSet; je_fetched_at : Z; je_last_network_fetch_at : Z }.

(** [refreshed] is what the locks of [refresh_locks] hold: when a refresh last ended.
    [ticks] and [waits] count the readings of a clock and the waits for a lock. *)
Record AuthState (St : Type) := mkAuthState {
  au_ledger : LedgerState;
  au_secrets : St;
  au_refreshed : gmap string Z;
  au_introspections : gmap string CachedIntrospection;
  au_as_metadata : gmap string (AuthorizationServerMetadata * Z);
  au_jwks : gmap (string * string) JwksEntry;
  au_exchanges : list Exchange;
  au_ticks : nat;
  au_waits : nat;
}.
Arguments mkAuthState {St}.
Arguments au_ledger {St}. Arguments au_secrets {St}. Arguments au_refreshed {St}.
Arguments au_introspections {St}. Arguments au_as_metadata {St}. Arguments au_jwks {St}.
Arguments au_exchanges {St}. Arguments au_ticks {St}. Arguments au_waits {St}.

Abbreviation AuthM St := (M (AuthState St) HttpAuthError).

(** [Instant::now()] in nanoseconds; the seconds since the epoch, unless it is before
    it; the milliseconds the ledger reads. *)
Class AuthClock := {
  instant_at : nat → Z;
  since_epoch : nat → option Z;
  ledger_time : nat → Z;
}.

(** What other threads do while the [n]-th lock is waited for. *)
Class Elsewhere (St : Type) := { meanwhile : nat → AuthState St → AuthState St }.

Section State.
Context {St : Type}.

Definition set_auth_ledger (x : LedgerState) (s : AuthState St) : AuthState St :=
  mkAuthState x (au_secrets s) (au_refreshed s) (au_introspections s) (au_as_metadata s)
    (au_jwks s) (au_exchanges s) (au_ticks s) (au_waits s).
Definition set_secrets (x : St) (s : AuthState St) : AuthState St :=
  mkAuthState (au_ledger s) x (au_refreshed s) (au_introspections s) (au_as_metadata s)
    (au_jwks s) (au_exchanges s) (au_ticks s) (au_waits s).
Definition set_refreshed (x : gmap string Z) (s : AuthState St) : AuthState St :=
  mkAuthState (au_ledger s) (au_secrets s) x (au_introspections s) (au_as_metadata s)
    (au_jwks s) (au_exchanges s) (au_ticks s) (au_waits s).
Definition set_introspections (x : gmap string CachedIntrospection) (s : AuthState St)
    : AuthState St :=
  mkAuthState (au_ledger s) (au_secrets s) (au_refreshed s) x (au_as_metadata s)
    (au_jwks s) (au_exchanges s) (au_ticks s) (au_waits s).
Definition set_as_metadata (x : gmap string (AuthorizationServerMetadata * Z))
    (s : AuthState St) : AuthState St :=
  mkAuthState (au_ledger s) (au_secrets s) (au_refreshed s) (au_introspections s) x
    (au_jwks s) (au_exchanges s) (au_ticks s) (au_waits s).
Definition set_jwks (x : gmap (string * string) JwksEntry) (s : AuthState St) : AuthState St :=
  mkAuthState (au_ledger s) (au_secrets s) (au_refreshed s) (au_introspections s)
    (au_as_metadata s) x (au_exchanges s) (au_ticks s) (au_waits s).
Definition set_exchanges (x : list Exchange) (s : AuthState St) : AuthState St :=
  mkAuthState (au_ledger s) (au_secrets s) (au_refreshed s) (au_introspections s)
    (au_as_metadata s) (au_jwks s) x (au_ticks s) (au_waits s).
Definition set_ticks (x : nat) (s : AuthState St) : AuthState St :=
  mkAuthState (au_ledger s) (au_secrets s) (au_refreshed s) (au_introspections s)
    (au_as_metadata s) (au_jwks s) (au_exchanges s) x (au_waits s).
Definition set_waits (x : nat) (s : AuthState St) : AuthState St :=
  mkAuthState (au_ledger s) (au_secrets s) (au_refreshed s) (au_introspections s)
    (au_as_metadata s) (au_jwks s) (au_exchanges s) (au_ticks s) x.

Definition tick (clock : nat → Z) : AuthM St Z :=
  let! n := gets au_ticks in
  modify (set_ticks (S n)) ;! ret (clock n).

(** [Instant::now()] *)
Definition now_instant `{AuthClock} : AuthM St Z := tick instant_at.

(** [SystemTime::now().duration_since(UNIX_EPOCH)], as [i64] seconds. *)
Definition now_since_epoch `{AuthClock} : AuthM St (option Z) :=
  let! n := gets au_ticks in
  modify (set_ticks (S n)) ;!
  ret ((λ secs, Int.i64_wrapping_add secs 0) <$> since_epoch n).

Definition now_unix_secs `{AuthClock} : AuthM St Z :=
  let! t := now_since_epoch in ret (default 0%Z t).

(** A lock is taken: others may have run before it is had. *)
Definition take_lock `{Elsewhere St} : AuthM St unit := λ s,
  (Ok tt, meanwhile (au_waits s) (set_waits (S (au_waits s)) s)).

(** A call of the ledger whose error is replaced. *)
Definition with_ledger {A} (reason : string) (m : LedgerM A) : AuthM St A := λ s,
  let '(r, l) := m (au_ledger s) in
  (match r with Ok a => Ok a | Err _ => Err (HttpAuthError.TokenStoreError reason) end,
   set_auth_ledger l s).
End State.

(** ** The HTTP client *)

Section Client.
Context `{HttpTransport} {St : Type}.

Definition map_reqwest_error (e : ReqwestError) : HttpAuthError :=
  if re_timeout e then HttpAuthError.HttpError "reqwest_timeout"
  else if re_connect e then HttpAuthError.HttpError "reqwest_connect_failed"
  else if re_request e then HttpAuthError.HttpError "reqwest_request_invalid"
  else HttpAuthError.HttpError "reqwest_other".

Definition content_type_of (method : HttpMethod) : HeaderList :=
  match method with
  | HttpMethod.Get => []
  | HttpMethod.PostForm => [("content-type", "application/x-www-form-urlencoded")]
  | HttpMethod.Post => [("content-type", "application/json")]
  end.

(** The content type is that of the method; one that the caller gives is dropped. *)
Definition wire_request (method : HttpMethod) (url : string) (headers : HeaderList)
    (body : option string) (per_call_timeout : option Z) : WireRequest :=
  mkWireRequest
    match method with HttpMethod.Get => false | _ => true end
    url
    (content_type_of method
     ++ List.filter (λ kv, negb (Str.eq_ignore_ascii_case kv.1 "content-type")) headers)
    body per_call_timeout.

Definition send_inner (method : HttpMethod) (url : string) (headers : HeaderList)
    (body : option string) (per_call_timeout : option Z) : AuthM St HttpResponseFull :=
  let request := wire_request method url headers body per_call_timeout in
  let! sent := gets au_exchanges in
  let answer := http_send (length sent) request in
  modify (set_exchanges (sent ++ [mkExchange request answer])) ;!
  match answer with
  | Err e => throw (map_reqwest_error e)
  | Ok resp =>
      let headers := omap (λ kv, v ← kv.2; Some (kv.1, v)) (rr_headers resp) in
      match rr_body resp with
      | None => throw (HttpAuthError.HttpError "reqwest_body_read_failed")
      | Some bytes => ret (mkHttpResponseFull (rr_status resp) bytes headers)
      end
  end.

(** [HttpClient::send] *)
Definition send (req : HttpRequest) : AuthM St HttpResponseFull :=
  send_inner (rq_method req) (wu_text (rq_url req)) (rq_headers req) (rq_body req) None.

(** [AuthorizedSender::send_authorized_full_with_timeout] *)
Definition send_authorized (req : HttpRequest) (timeout : Z) : AuthM St HttpResponseFull :=
  send_inner (rq_method req) (wu_text (rq_url req)) (rq_headers req) (rq_body req) (Some timeout).
End Client.

Definition is_2xx (status : Z) : bool := (200 <=? status)%Z && (status <? 300)%Z.

(** ** Protected resource metadata *)

Definition validate_prm_struct (prm : ProtectedResourceMetadata) : result HttpAuthError unit :=
  match pm_authorization_servers prm with
  | [] => Err HttpAuthError.MissingAuthorizationServer
  | _ =>
      if negb (existsb (String.eqb "header") (pm_bearer_methods_supported prm))
      then Err HttpAuthError.BearerHeaderNotSupported
      else match pm_scopes_supported prm with
           | [] => Err (HttpAuthError.InvalidPrm "scopes_supported_empty")
           | _ => Ok tt
           end
  end.

Definition fetch_and_validate_prm `{Urls} `{AuthDocuments} `{HttpTransport} {St}
    (resource_base : WebUrl) : AuthM St ProtectedResourceMetadata :=
  let! well_known := lift (ok_or (url_join resource_base ".well-known/oauth-protected-resource")
    (HttpAuthError.InvalidPrm "cannot_join_well_known")) in
  let! resp := send (mkHttpRequest well_known HttpMethod.Get [] None) in
  if negb (rp_status resp =? 200)%Z then throw (HttpAuthError.InvalidPrm "non_200_status")
  else
    let! prm := lift (ok_or (read_prm (rp_body resp)) (HttpAuthError.InvalidPrm "malformed_json")) in
    lift (validate_prm_struct prm) ;!
    if negb (String.eqb (wu_text (pm_resource prm)) (wu_text resource_base))
    then throw (HttpAuthError.InvalidPrm "resource_base_mismatch")
    else ret prm.

(** ** Requests to an authorization server *)

(** [format!("{b:02X}")], digit by digit. *)
Definition hex_upper (n : nat) : ascii := ascii_of_nat (if (n <? 10)%nat then 48 + n else 55 + n).

Definition is_unreserved (a : ascii) : bool :=
  is_ascii_alphanumeric a || byte_is 45 a || byte_is 46 a || byte_is 95 a || byte_is 126 a.

Fixpoint percent_encode (s : string) : string :=
  match s with
  | EmptyString => EmptyString
  | String b s' =>
      if is_unreserved b then String b (percent_encode s')
      else if byte_is 32 b then String "+" (percent_encode s')
      else String "%" (String (hex_upper (nat_of_ascii b / 16))
             (String (hex_upper (nat_of_ascii b mod 16)) (percent_encode s')))
  end.

Definition form_urlencode (pairs : list (string * string)) : string :=
  Str.join "&" ((λ kv, percent_encode kv.1 +:+ "=" +:+ percent_encode kv.2) <$> pairs).

Definition FORM_CONTENT_TYPE : string * string :=
  ("Content-Type", "application/x-www-form-urlencoded").

Definition build_authorization_url `{Urls} (authorization_endpoint : WebUrl) (client_id : string)
    (redirect_uri : WebUrl) (scopes : list string) (state challenge : string)
    (resource : WebUrl) : WebUrl :=
  append_pairs authorization_endpoint
    [("response_type", "code"); ("client_id", client_id);
     ("redirect_uri", wu_text redirect_uri); ("scope", Str.join " " scopes);
     ("state", state); ("code_challenge", challenge); ("code_challenge_method", "S256");
     ("resource", wu_text resource)].

Definition bearer_type (token_type : option string) : bool :=
  match token_type with
  | Some kind => Str.eq_ignore_ascii_case kind "Bearer"
  | None => true
  end.

Section Oauth.
Context `{AuthDocuments} `{HttpTransport} {St : Type}.

(** The part that both exchanges for a token share: post the form, read the answer. *)
Definition post_for_token (token_endpoint : WebUrl) (form : list (string * string))
    (non_2xx malformed : string) : AuthM St TokenResponse :=
  let! resp := send (mkHttpRequest token_endpoint HttpMethod.PostForm [FORM_CONTENT_TYPE]
                       (Some (form_urlencode form))) in
  if negb (is_2xx (rp_status resp)) then throw (HttpAuthError.HttpError non_2xx)
  else
    let! tr := lift (ok_or (read_token_response (rp_body resp)) (HttpAuthError.HttpError malformed)) in
    if negb (bearer_type (tr_token_type tr))
    then throw (HttpAuthError.HttpError "token_type_not_bearer")
    else ret tr.

Definition exchange_code_for_token (token_endpoint : WebUrl) (client_id : string)
    (redirect_uri : WebUrl) (code verifier : string) (resource : WebUrl)
    : AuthM St TokenResponse :=
  post_for_token token_endpoint
    [("grant_type", "authorization_code"); ("code", code);
     ("redirect_uri", wu_text redirect_uri); ("client_id", client_id);
     ("code_verifier", verifier); ("resource", wu_text resource)]
    "token_endpoint_non_2xx" "token_response_malformed_json".

Definition exchange_refresh_token_for_token (token_endpoint : WebUrl)
    (client_id refresh_token : string) (resource : WebUrl) : AuthM St TokenResponse :=
  post_for_token token_endpoint
    [("grant_type", "refresh_token"); ("refresh_token", refresh_token);
     ("client_id", client_id); ("resource", wu_text resource)]
    "refresh_endpoint_non_2xx" "refresh_response_malformed_json".

(** The request of [introspect_token]. *)
Definition introspection_request `{Base64Encode} (endpoint : WebUrl)
    (client_id client_secret token : string) : HttpRequest :=
  mkHttpRequest endpoint HttpMethod.PostForm
    [FORM_CONTENT_TYPE;
     ("Authorization",
      "Basic " +:+ encode_standard (percent_encode client_id +:+ ":" +:+ percent_encode client_secret))]
    (Some (form_urlencode [("token", token); ("token_type_hint", "access_token")])).

Definition introspect_token `{Base64Encode} (endpoint : WebUrl)
    (client_id client_secret token : string) : AuthM St IntrospectionResponse :=
  let! resp := send (introspection_request endpoint client_id client_secret token) in
  if negb (is_2xx (rp_status resp)) then throw (HttpAuthError.HttpError "introspection_non_2xx")
  else
    let! ir := lift (ok_or (read_introspection (rp_body resp))
      (HttpAuthError.HttpError "introspection_response_malformed_json")) in
    if negb (bearer_type (ir_token_type ir))
    then throw (HttpAuthError.HttpError "token_type_not_bearer")
    else ret ir.
End Oauth.

(** ** Access tokens *)

(** An endpoint that may be told secrets: over TLS, or on this host. *)
Definition is_safe_endpoint (url : WebUrl) : bool :=
  if String.eqb (wu_scheme url) "https" then true
  else if String.eqb (wu_scheme url) "http" then
    let host := default "" (wu_host_str url) in
    String.eqb host "127.0.0.1" || String.eqb host "::1"
    || Str.eq_ignore_ascii_case host "localhost"
  else false.

Record IntrospectionConfig := mkIntrospectionConfig {
  ic_endpoint : WebUrl;
  ic_client_id : string;
  ic_client_secret_ref : string;
  ic_cache_max_ttl_secs : Z;
}.

Definition INTROSPECTION_CACHE_HARD_CAP_SECS : Z := 300.
Definition INTROSPECTION_CACHE_DEFAULT_TTL_SECS : Z := 60.

(** [IntrospectionConfig::new] *)
Definition introspection_config (endpoint : WebUrl) (client_id client_secret_ref : string)
    : result HttpAuthError IntrospectionConfig :=
  if negb (is_safe_endpoint endpoint)
  then Err (HttpAuthError.HttpError "introspection_endpoint_must_be_https_or_loopback")
  else Ok (mkIntrospectionConfig endpoint client_id client_secret_ref
             INTROSPECTION_CACHE_DEFAULT_TTL_SECS).

Definition with_cache_max_ttl_secs (secs : Z) (c : IntrospectionConfig) : IntrospectionConfig :=
  mkIntrospectionConfig (ic_endpoint c) (ic_client_id c) (ic_client_secret_ref c)
    (Z.min secs INTROSPECTION_CACHE_HARD_CAP_SECS).

(** [key_verifier] is the method of the trait object, with what it does to the state. *)
Record ExpectedBinding (St : Type) := mkExpectedBinding {
  eb_resource : string;
  eb_issuer : string;
  eb_scopes : list string;
  eb_key_verifier : string → JoseHeader → string → AuthM St unit;
  eb_introspection : option IntrospectionConfig;
}.
Arguments mkExpectedBinding {St}. Arguments eb_resource {St}. Arguments eb_issuer {St}.
Arguments eb_scopes {St}. Arguments eb_key_verifier {St}. Arguments eb_introspection {St}.

Section Jwt.
Context `{AuthDocuments} `{Base64}.

Definition decode_jwt_access_token (token : string)
    : result HttpAuthError (JoseHeader * DecodedAccessToken) :=
  match split_char "."%char token with
  | [header; payload; _] =>
      let? header_bytes := ok_or (decode_url_safe header) HttpAuthError.UnsupportedTokenFormat in
      let? header := ok_or (read_jose_header header_bytes) HttpAuthError.JwtDecodeFailed in
      let? payload_bytes := ok_or (decode_url_safe payload) HttpAuthError.UnsupportedTokenFormat in
      let? payload := ok_or (read_access_token payload_bytes) HttpAuthError.JwtDecodeFailed in
      Ok (header, payload)
  | _ => Err HttpAuthError.UnsupportedTokenFormat
  end.

(** The claim [resource], or else an audience that is the expected resource. *)
Definition actual_resource (decoded : DecodedAccessToken) (expected_resource : string)
    : result HttpAuthError string :=
  match da_resource decoded with
  | Some r => Ok r
  | None =>
      match audience (da_aud decoded) with
      | [] => Err (HttpAuthError.AudienceMismatch expected_resource "")
      | auds =>
          if existsb (String.eqb expected_resource) auds then Ok expected_resource
          else Err (HttpAuthError.AudienceMismatch expected_resource (Str.join "," auds))
      end
  end.

(** [exp] of a token, if it has one, lies ahead. *)
Definition check_exp (exp : option Z) (now : Z) : result HttpAuthError unit :=
  match exp with
  | Some e => if (e <=? now)%Z then Err HttpAuthError.TokenExpired else Ok tt
  | None => Ok tt
  end.

(** The first scope asked for that the token lacks. *)
Fixpoint check_scopes (requested token_scopes : list string) : result HttpAuthError unit :=
  match requested with
  | [] => Ok tt
  | req :: rest =>
      if existsb (String.eqb req) token_scopes then check_scopes rest token_scopes
      else Err (HttpAuthError.ScopeMissing req)
  end.

Definition validate_and_resolve_access_token (raw_token : SecretValue)
    (expected_resource : string) (requested_scopes : list string) (now_unix_secs : Z)
    : result HttpAuthError ResolvedAccessToken :=
  let? (_, decoded) := decode_jwt_access_token raw_token in
  let? resource := actual_resource decoded expected_resource in
  if negb (String.eqb resource expected_resource)
  then Err (HttpAuthError.AudienceMismatch expected_resource resource)
  else
    let? _ := check_exp (da_exp decoded) now_unix_secs in
    let token_scopes := scope_words (da_scope decoded) in
    let? _ := check_scopes requested_scopes token_scopes in
    Ok (mkResolvedAccessToken raw_token resource token_scopes (da_exp decoded)).
End Jwt.

(** The issuer a token names is the one expected. *)
Definition check_issuer (issuer : string) (iss : option string) : result HttpAuthError unit :=
  match iss with
  | None => Err (HttpAuthError.TokenRejectedWrongIssuer issuer "(missing)")
  | Some i => if negb (String.eqb i issuer)
              then Err (HttpAuthError.TokenRejectedWrongIssuer issuer i) else Ok tt
  end.

(** ** The planner *)

Definition STRIPPED_HEADER_NAMES : list string :=
  ["authorization"; "proxy-authorization"; "x-forwarded-authorization"; "x-auth-token";
   "x-api-key"].

Definition is_stripped (name : string) : bool :=
  existsb (λ s, Str.eq_ignore_ascii_case s name) STRIPPED_HEADER_NAMES.

Definition same_origin (a b : WebUrl) : bool :=
  String.eqb (wu_scheme a) (wu_scheme b)
  && bool_decide (wu_host_str a = wu_host_str b)
  && bool_decide (wu_port_or_known_default a = wu_port_or_known_default b).

(** The loop over the incoming headers: those that are kept, the names of the others. *)
Fixpoint strip_headers (incoming kept : HeaderList) (stripped : list string)
    : HeaderList * list string :=
  match incoming with
  | [] => (kept, stripped)
  | (name, value) :: rest =>
      if is_stripped name then strip_headers rest kept (stripped ++ [name])
      else strip_headers rest (kept ++ [(name, value)]) stripped
  end.

(** The request and the names of the headers that were stripped. *)
Definition plan_authorized_request `{Urls} (incoming_headers : HeaderList)
    (resolved : ResolvedAccessToken) (upstream_url : WebUrl) (method : HttpMethod)
    (body : option string) : result HttpAuthError (HttpRequest * list string) :=
  let? resource_url := ok_or (url_of (rt_resource resolved))
    (HttpAuthError.Internal "resolved_resource_not_url") in
  if negb (same_origin resource_url upstream_url)
  then Err (HttpAuthError.AudienceMismatch (rt_resource resolved) (wu_text upstream_url))
  else
    let '(kept, stripped) := strip_headers incoming_headers [] [] in
    Ok (mkHttpRequest upstream_url method
          (kept ++ [("Authorization", "Bearer " +:+ rt_raw resolved)]) body, stripped).

Definition plan_unauthorized_request (incoming_headers : HeaderList) (upstream_url : WebUrl)
    (method : HttpMethod) (body : option string) : HttpRequest * list string :=
  let '(kept, stripped) := strip_headers incoming_headers [] [] in
  (mkHttpRequest upstream_url method kept body, stripped).

(** ** The store of tokens *)

Section TokenStore.
Context `{Crates} `{Redaction} `{Urls} `{AuthDocuments} `{Base64} `{Base64Encode}
  `{HttpTransport} `{AuthClock} {St : Type} `{SecretStore St} `{Elsewhere St}.

Definition sha256_text (s : string) : string := hex_encode (sha256 s).

Definition token_ref_for_access (resource client_id : string) : string :=
  "token://oauth/access/" +:+ sha256_text resource +:+ "/" +:+ sha256_text client_id.

Definition token_ref_for_refresh (resource client_id : string) : string :=
  "token://oauth/refresh/" +:+ sha256_text resource +:+ "/" +:+ sha256_text client_id.

(** The token and the endpoint, a zero byte between them. *)
Definition introspection_preimage (token_raw endpoint : string) : string :=
  token_raw +:+ String "000"%char endpoint.

Definition make_introspection_cache_key (token_raw endpoint : string) : string :=
  hex_encode (sha256 (introspection_preimage token_raw endpoint)).

(** [exp - now] wraps. *)
Definition compute_cache_ttl (response : IntrospectionResponse)
    (now_unix_secs cache_max_ttl_secs : Z) : Z :=
  let hard_cap := Z.min INTROSPECTION_CACHE_HARD_CAP_SECS cache_max_ttl_secs in
  if (hard_cap <=? 0)%Z then 0%Z
  else match ir_exp response with
       | Some exp =>
           let remaining := Int.i64_wrapping_add exp (- now_unix_secs) in
           if (remaining <=? 0)%Z then 0%Z else Z.min remaining hard_cap
       | None => hard_cap
       end.

(** [self.store.put(..)], [self.store.get(..)] *)
Definition secret_put (key value : string) : AuthM St unit := λ s,
  let '(r, st) := store_put key value (au_secrets s) in
  (match r with
   | Ok _ => Ok tt
   | Err _ => Err (HttpAuthError.TokenStoreError "secret_store_put_failed")
   end, set_secrets st s).

Definition secret_get (key reason : string) : AuthM St SecretValue := λ s,
  (match store_get key (au_secrets s) with
   | Ok v => Ok v
   | Err _ => Err (HttpAuthError.TokenStoreError reason)
   end, s).

Definition put_with_kind (metadata : OAuthTokenMetadata) (value : SecretValue)
    (expected_kind : TokenKind) : AuthM St unit :=
  if bool_decide (mt_token_kind metadata ≠ expected_kind)
  then throw (HttpAuthError.TokenStoreError "token_kind_mismatch")
  else
    secret_put (mt_token_ref metadata) value ;!
    let! now_ev := tick ledger_time in
    let! now := tick ledger_time in
    with_ledger "metadata_insert_failed"
      (register_oauth_token_metadata now_ev now (mt_token_ref metadata) (mt_resource metadata)
         (mt_authorization_server metadata) (mt_scope_set metadata)
         (TokenKind.as_str (mt_token_kind metadata)) (mt_expires_at metadata)
         (mt_issuer metadata)).

Definition put_access_token (metadata : OAuthTokenMetadata) (value : SecretValue) : AuthM St unit :=
  put_with_kind metadata value TokenKind.Access.

Definition put_refresh_token (metadata : OAuthTokenMetadata) (value : SecretValue) : AuthM St unit :=
  put_with_kind metadata value TokenKind.Refresh.

Definition resolve_access_value (token_ref : string) : AuthM St (option SecretValue) := λ s,
  (match store_get token_ref (au_secrets s) with
   | Ok v => Ok (Some v)
   | Err SecretStoreError.NotFound => Ok None
   | Err _ => Err (HttpAuthError.TokenStoreError "secret_store_get_failed")
   end, s).

Definition row_to_typed (r : OAuthTokenMetadataRow) : result HttpAuthError OAuthTokenMetadata :=
  let? kind := ok_or (TokenKind.of_str (om_token_kind r))
    (HttpAuthError.TokenStoreError "unknown_token_kind") in
  let? issuer := ok_or (om_issuer r)
    (HttpAuthError.TokenStoreError "issuer_missing_legacy_row") in
  Ok (mkOAuthTokenMetadata (om_token_ref r) (om_resource r) (om_authorization_server r) issuer
        (om_scope_set r) kind (om_expires_at r) (om_created_at r)).

Definition get_metadata (token_ref : string) : AuthM St (option OAuthTokenMetadata) :=
  let! row := with_ledger "metadata_query_failed" (get_oauth_token_metadata token_ref) in
  match row with
  | None => ret None
  | Some r => let! m := lift (row_to_typed r) in ret (Some m)
  end.

Fixpoint rows_to_typed (rows : list OAuthTokenMetadataRow)
    : result HttpAuthError (list OAuthTokenMetadata) :=
  match rows with
  | [] => Ok []
  | r :: rest =>
      let? m := row_to_typed r in
      let? out := rows_to_typed rest in
      Ok (m :: out)
  end.

Definition list_metadata : AuthM St (list OAuthTokenMetadata) :=
  let! rows := with_ledger "metadata_query_failed" list_oauth_token_metadata in
  lift (rows_to_typed rows).

(** *** Introspection *)

(** A hit that has expired is removed. *)
Definition cache_lookup (key : string) (now_unix_secs : Z)
    : AuthM St (option IntrospectionResponse) := λ s,
  match au_introspections s !! key with
  | Some entry =>
      if (now_unix_secs <? ci_expires_at entry)%Z then (Ok (Some (ci_response entry)), s)
      else (Ok None, set_introspections (delete key (au_introspections s)) s)
  | None => (Ok None, s)
  end.

Definition cache_store (key : string) (response : IntrospectionResponse) (expires_at : Z)
    : AuthM St unit :=
  modify (λ s, set_introspections
    (<[key := mkCachedIntrospection response expires_at]> (au_introspections s)) s).

Definition introspect_uncached (token_raw : string) (cfg : IntrospectionConfig)
    : AuthM St IntrospectionResponse :=
  let! client_secret := secret_get (ic_client_secret_ref cfg) "client_secret_missing" in
  introspect_token (ic_endpoint cfg) (ic_client_id cfg) client_secret token_raw.

(** An answer that the token is active is kept for as long as [compute_cache_ttl] says. *)
Definition remember_active (cache_key : string) (fresh : IntrospectionResponse)
    (now_unix_secs cache_ttl : Z) : AuthM St unit :=
  if ir_active fresh then
    let ttl := compute_cache_ttl fresh now_unix_secs cache_ttl in
    if (0 <? ttl)%Z
    then cache_store cache_key fresh (Int.i64_wrapping_add now_unix_secs ttl)
    else ret tt
  else ret tt.

(** Steps 0 to 2: the answer about the token, from the cache or from the server. *)
Definition introspect_cached (raw : SecretValue) (cfg : IntrospectionConfig)
    (now_unix_secs : Z) : AuthM St IntrospectionResponse :=
  let cache_key := make_introspection_cache_key raw (wu_text (ic_endpoint cfg)) in
  let cache_ttl := ic_cache_max_ttl_secs cfg in
  if (cache_ttl =? 0)%Z then introspect_uncached raw cfg
  else
    let! hit := cache_lookup cache_key now_unix_secs in
    match hit with
    | Some hit => ret hit
    | None =>
        take_lock ;!
        let! hit := cache_lookup cache_key now_unix_secs in
        match hit with
        | Some hit => ret hit
        | None =>
            let! fresh := introspect_uncached raw cfg in
            remember_active cache_key fresh now_unix_secs cache_ttl ;!
            ret fresh
        end
    end.

(** Steps 3 to 8. *)
Definition check_introspection (raw : SecretValue) (expected : ExpectedBinding St)
    (ir : IntrospectionResponse) (now_unix_secs : Z) : result HttpAuthError ResolvedAccessToken :=
  if negb (ir_active ir) then Err HttpAuthError.TokenExpired
  else
    let? _ := check_issuer (eb_issuer expected) (ir_iss ir) in
    let auds := audience (ir_aud ir) in
    if negb (existsb (String.eqb (eb_resource expected)) auds)
    then Err (HttpAuthError.AudienceMismatch (eb_resource expected) (Str.join "," auds))
    else
      let? _ := check_exp (ir_exp ir) now_unix_secs in
      let token_scopes := scope_words (ir_scope ir) in
      let? _ := check_scopes (eb_scopes expected) token_scopes in
      Ok (mkResolvedAccessToken raw (eb_resource expected) token_scopes (ir_exp ir)).

Definition resolve_opaque_via_introspection (raw : SecretValue) (expected : ExpectedBinding St)
    (cfg : IntrospectionConfig) (now_unix_secs : Z) : AuthM St ResolvedAccessToken :=
  let! ir := introspect_cached raw cfg now_unix_secs in
  lift (check_introspection raw expected ir now_unix_secs).

(** *** Resolution *)

Definition resolve_access_token (token_ref : string) (expected : ExpectedBinding St)
    (now_unix_secs : Z) : AuthM St ResolvedAccessToken :=
  let! row := get_metadata token_ref in
  let! metadata := lift (ok_or row HttpAuthError.MissingToken) in
  if negb (String.eqb (mt_issuer metadata) (eb_issuer expected))
  then throw (HttpAuthError.TokenRejectedWrongIssuer (eb_issuer expected) (mt_issuer metadata))
  else
    let! value := resolve_access_value token_ref in
    let! raw := lift (ok_or value
      (HttpAuthError.TokenRehydrateRequired "secret_missing_for_known_metadata")) in
    match decode_jwt_access_token raw with
    | Ok (header, claims) =>
        eb_key_verifier expected raw header (eb_issuer expected) ;!
        lift (check_issuer (eb_issuer expected) (da_iss claims)) ;!
        lift (validate_and_resolve_access_token raw (eb_resource expected)
                (eb_scopes expected) now_unix_secs)
    | Err HttpAuthError.UnsupportedTokenFormat =>
        match eb_introspection expected with
        | Some cfg => resolve_opaque_via_introspection raw expected cfg now_unix_secs
        | None => throw HttpAuthError.UnsupportedTokenFormat
        end
    | Err other => throw other
    end.

(** *** Refresh *)

(** The metadata of the new access token; [now] is the time since the epoch. *)
Definition refreshed_metadata (access_meta : OAuthTokenMetadata) (tr : TokenResponse)
    (now : option Z) : OAuthTokenMetadata :=
  mkOAuthTokenMetadata (mt_token_ref access_meta) (mt_resource access_meta)
    (mt_authorization_server access_meta) (mt_issuer access_meta)
    match tr_scope tr with
    | Some _ => scope_words (tr_scope tr)
    | None => mt_scope_set access_meta
    end
    TokenKind.Access
    ((λ secs, match now with Some t => Int.i64_wrapping_add t secs | None => 0%Z end)
       <$> tr_expires_in tr)
    (mt_created_at access_meta).

(** A rotated refresh token replaces the one that has metadata. *)
Definition store_rotated (refresh_token_ref : string) (new_refresh : option string)
    : AuthM St unit :=
  match new_refresh with
  | None => ret tt
  | Some value =>
      let! meta := get_metadata refresh_token_ref in
      match meta with
      | Some refresh_meta => put_refresh_token refresh_meta value
      | None => ret tt
      end
  end.

(** Steps 2 to 8, under the lock of this token; [my_arrival] was read before it. *)
Definition refresh_locked (my_arrival : Z) (access_token_ref client_id : string)
    (token_endpoint : WebUrl) : AuthM St bool :=
  let! last_completion := gets (λ s, au_refreshed s !! access_token_ref) in
  if match last_completion with Some t => (my_arrival <=? t)%Z | None => false end
  then ret false
  else
    let! meta := get_metadata access_token_ref in
    let! access_meta := lift (ok_or meta HttpAuthError.MissingToken) in
    if bool_decide (mt_token_kind access_meta ≠ TokenKind.Access)
    then throw (HttpAuthError.TokenStoreError "not_an_access_token_ref")
    else
      let refresh_token_ref := token_ref_for_refresh (mt_resource access_meta) client_id in
      let! refresh_value := secret_get refresh_token_ref "refresh_token_missing" in
      let! resource := lift (ok_or (url_of (mt_resource access_meta))
        (HttpAuthError.TokenStoreError "refresh_resource_parse_failed")) in
      let! tr := exchange_refresh_token_for_token token_endpoint client_id refresh_value resource in
      let! now := match tr_expires_in tr with
                  | Some _ => now_since_epoch
                  | None => ret None
                  end in
      put_access_token (refreshed_metadata access_meta tr now) (tr_access_token tr) ;!
      store_rotated refresh_token_ref (tr_refresh_token tr) ;!
      let! completion := now_instant in
      modify (λ s, set_refreshed (<[access_token_ref := completion]> (au_refreshed s)) s) ;!
      ret true.

Definition try_refresh_access_token (access_token_ref client_id : string)
    (token_endpoint : WebUrl) : AuthM St bool :=
  let! my_arrival := now_instant in
  take_lock ;!
  refresh_locked my_arrival access_token_ref client_id token_endpoint.
End TokenStore.
