(* ===== verification/HttpTransport.v ===== *)
(** * The HTTP transport of remote servers

    [src/crates/vigil-http-transport]: the keys of an authorization server and the
    signatures checked with them ([jwks.rs], [verifier.rs]), the two upstreams that
    speak to a remote server ([upstream.rs], [streamable.rs]), the server that waits
    for the answer to an authorization in the browser ([loopback.rs]); with what the
    command line builds from them ([add_remote.rs] and the HTTP part of [serve.rs] in
    [src/apps/vigil-hub-cli]). The crate [jsonwebtoken] is an interface, and what
    arrives on a socket is an argument. *)

From stdpp Require Import pretty.
From S2P Require Import Prelude Text Types Json Deps Db Ledger Secrets HardRedact Lease Protocol.
From S2P Require Import OutboundGate OutboundSetup HttpAuth.

(** Seconds as nanoseconds. *)
Definition secs (n : Z) : Z := n * 10 ^ 9.

(** [map_err(f)] *)
Definition map_err {S E E' A} (f : E → E') (m : M S E A) : M S E' A := λ s,
  let '(r, s') := m s in (match r with Ok a => Ok a | Err e => Err (f e) end, s').

(** ** The keys of an authorization server *)

Definition as_metadata_ttl : Z := secs 3600.
Definition jwks_ttl : Z := secs 600.
Definition min_refresh_interval : Z := secs 5.

Definition ACCEPT_JSON : HeaderList := [("accept", "application/json")].

(** What [jsonwebtoken::errors::ErrorKind] is told apart. *)
Module JwtErrorKind.
Inductive JwtErrorKind := InvalidSignature | InvalidAlgorithm | InvalidAlgorithmName | Other.
End JwtErrorKind.
Abbreviation JwtErrorKind := JwtErrorKind.JwtErrorKind.

Module Algorithm.
Inductive Algorithm := RS256 | ES256.
End Algorithm.
Abbreviation Algorithm := Algorithm.Algorithm.

(** [serde_json::to_value(jwk)], [from_value::<jsonwebtoken::jwk::Jwk>],
    [DecodingKey::from_jwk]; [decode] with every check of claims switched off. *)
Class JwtCrate := {
  jwt_jwk : Type;
  decoding_key : Type;
  jwk_to_value : Jwk → option Value;
  jwk_from_value : Value → option jwt_jwk;
  key_from_jwk : jwt_jwk → option decoding_key;
  jwt_decode : string → decoding_key → Algorithm → result JwtErrorKind unit;
}.

Section Jwks.
Context `{Urls} `{AuthDocuments} `{HttpTransport} `{AuthClock} {St : Type} `{Elsewhere St}.

(** [at.elapsed()] *)
Definition elapsed (at_ : Z) : AuthM St Z :=
  let! now := now_instant in ret (Z.max 0 (now - at_)).

Definition as_metadata_hit (as_url : string) : AuthM St (option AuthorizationServerMetadata) :=
  let! cached := gets (λ s, au_as_metadata s !! as_url) in
  match cached with
  | Some (m, at_) =>
      let! age := elapsed at_ in
      ret (if (age <? as_metadata_ttl)%Z then Some m else None)
  | None => ret None
  end.

Definition fetch_as_metadata (as_url : string) : AuthM St AuthorizationServerMetadata :=
  let! hit := as_metadata_hit as_url in
  match hit with
  | Some m => ret m
  | None =>
      let invalid := HttpAuthError.HttpError "invalid_as_url" in
      let! base := lift (ok_or (url_of as_url) invalid) in
      let! discovery_url := lift (ok_or
        (url_join base "/.well-known/oauth-authorization-server") invalid) in
      let! resp := send (mkHttpRequest discovery_url HttpMethod.Get ACCEPT_JSON None) in
      if negb (rp_status resp =? 200)%Z then throw (HttpAuthError.HttpError "as_metadata_non_200")
      else
        let! meta := lift (ok_or (read_as_metadata (rp_body resp))
          (HttpAuthError.HttpError "as_metadata_json_invalid")) in
        if Str.is_empty (am_issuer meta)
        then throw (HttpAuthError.HttpError "as_metadata_empty_issuer")
        else if Str.is_empty (am_jwks_uri meta)
        then throw (HttpAuthError.HttpError "as_metadata_empty_jwks_uri")
        else
          let! now := now_instant in
          modify (λ s, set_as_metadata (<[as_url := (meta, now)]> (au_as_metadata s)) s) ;!
          ret meta
  end.

Definition has_key (set : JwkSet) (kid : option string) : bool :=
  match kid with
  | None => true
  | Some k => bool_decide (is_Some (find_by_kid k set))
  end.

(** Step 1: a set in the cache that is fresh and, if a key is asked for, has it. *)
Definition jwks_hit (key : string * string) (kid : option string) : AuthM St (option JwkSet) :=
  let! cached := gets (λ s, au_jwks s !! key) in
  match cached with
  | Some entry =>
      let! age := elapsed (je_fetched_at entry) in
      ret (if (age <? jwks_ttl)%Z && has_key (je_set entry) kid
           then Some (je_set entry) else None)
  | None => ret None
  end.

(** Step 3, under the lock: besides, a set fetched a moment ago that lacks the key is
    not fetched again. *)
Definition jwks_hit_locked (key : string * string) (kid : option string)
    : AuthM St (option JwkSet) :=
  let! cached := gets (λ s, au_jwks s !! key) in
  match cached with
  | Some entry =>
      let! age := elapsed (je_fetched_at entry) in
      if (age <? jwks_ttl)%Z then
        if has_key (je_set entry) kid then ret (Some (je_set entry))
        else
          let! fetched := elapsed (je_last_network_fetch_at entry) in
          if (fetched <? min_refresh_interval)%Z then throw HttpAuthError.JwksKidNotFound
          else ret None
      else ret None
  | None => ret None
  end.

(** Steps 4 to 6. *)
Definition fetch_jwks (key : string * string) (kid : option string) : AuthM St JwkSet :=
  let! url := lift (ok_or (url_of key.2) (HttpAuthError.HttpError "invalid_jwks_uri")) in
  let! resp := send (mkHttpRequest url HttpMethod.Get ACCEPT_JSON None) in
  if negb (rp_status resp =? 200)%Z then throw (HttpAuthError.HttpError "jwks_non_200")
  else
    let! set := lift (ok_or (read_jwk_set (rp_body resp)) (HttpAuthError.HttpError "jwks_json_invalid")) in
    let! now := now_instant in
    modify (λ s, set_jwks (<[key := mkJwksEntry set now now]> (au_jwks s)) s) ;!
    if negb (has_key set kid) then throw HttpAuthError.JwksKidNotFound else ret set.

(** [HttpJwksSource::get] *)
Definition jwks_get (issuer jwks_uri : string) (force_refresh_for_kid : option string)
    : AuthM St JwkSet :=
  let key := (issuer, jwks_uri) in
  let! hit := jwks_hit key force_refresh_for_kid in
  match hit with
  | Some set => ret set
  | None =>
      take_lock ;!
      let! hit := jwks_hit_locked key force_refresh_for_kid in
      match hit with
      | Some set => ret set
      | None => fetch_jwks key force_refresh_for_kid
      end
  end.

(** ** Signatures *)

Definition alg_from_str (alg : string) : result HttpAuthError Algorithm :=
  if String.eqb alg "RS256" then Ok Algorithm.RS256
  else if String.eqb alg "ES256" then Ok Algorithm.ES256
  else if String.eqb alg "none" then Err (HttpAuthError.JwtAlgRejected "alg_none_rejected")
  else Err (HttpAuthError.JwtAlgRejected "alg_not_in_whitelist").

Context `{JwtCrate}.

Definition jwk_to_decoding_key (jwk : Jwk) : result HttpAuthError decoding_key :=
  let? json := ok_or (jwk_to_value jwk) (HttpAuthError.Internal "jwk_serialize_failed") in
  let? jwt_jwk := ok_or (jwk_from_value json) HttpAuthError.JwtSignatureInvalid in
  ok_or (key_from_jwk jwt_jwk) HttpAuthError.JwtSignatureInvalid.

Definition map_jwt_error (e : JwtErrorKind) : HttpAuthError :=
  match e with
  | JwtErrorKind.InvalidSignature => HttpAuthError.JwtSignatureInvalid
  | JwtErrorKind.InvalidAlgorithm | JwtErrorKind.InvalidAlgorithmName =>
      HttpAuthError.JwtAlgRejected "decode_rejected_alg"
  | JwtErrorKind.Other => HttpAuthError.JwtSignatureInvalid
  end.

Definition check_typ (typ : option string) : result HttpAuthError unit :=
  match typ with
  | Some t => if negb (Str.eq_ignore_ascii_case t "JWT")
              then Err (HttpAuthError.JwtAlgRejected "typ_not_jwt") else Ok tt
  | None => Ok tt
  end.

Definition check_jwk_alg (jwk : Jwk) (header : JoseHeader) : result HttpAuthError unit :=
  match jk_alg jwk with
  | Some a => if negb (String.eqb a (jh_alg header))
              then Err (HttpAuthError.JwtAlgRejected "jwk_alg_header_alg_mismatch") else Ok tt
  | None => Ok tt
  end.

(** [JwksSignatureVerifier::verify]; [jwks_uri] is its field. *)
Definition verify (jwks_uri raw_jwt : string) (header : JoseHeader) (expected_issuer : string)
    : AuthM St unit :=
  let! alg := lift (alg_from_str (jh_alg header)) in
  lift (check_typ (jh_typ header)) ;!
  let! kid := lift (ok_or (jh_kid header) HttpAuthError.JwksKidNotFound) in
  let! cached := attempt (jwks_get expected_issuer jwks_uri None) in
  let! set := match cached with
              | Ok set => if has_key set (Some kid) then ret set
                          else jwks_get expected_issuer jwks_uri (Some kid)
              | Err _ => jwks_get expected_issuer jwks_uri (Some kid)
              end in
  let! jwk := lift (ok_or (find_by_kid kid set) HttpAuthError.JwksKidNotFound) in
  lift (check_jwk_alg jwk header) ;!
  let! key := lift (jwk_to_decoding_key jwk) in
  lift match jwt_decode raw_jwt key alg with
       | Ok _ => Ok tt
       | Err e => Err (map_jwt_error e)
       end.
End Jwks.

(** ** What an upstream answers *)

Definition map_auth_error (e : HttpAuthError) : UpstreamError :=
  match e with
  | HttpAuthError.MissingToken => UpstreamError.Unauthorized "missing_token"
  | HttpAuthError.TokenRehydrateRequired reason_code =>
      UpstreamError.TokenRehydrateRequired reason_code
  | HttpAuthError.TokenExpired => UpstreamError.Unauthorized "token_expired"
  | HttpAuthError.TokenRejectedWrongIssuer _ _ => UpstreamError.AuthError "wrong_issuer"
  | HttpAuthError.AudienceMismatch _ _ => UpstreamError.AuthError "audience_mismatch"
  | HttpAuthError.ScopeMissing _ => UpstreamError.AuthError "scope_missing"
  | HttpAuthError.JwtSignatureInvalid => UpstreamError.AuthError "jwt_signature_invalid"
  | HttpAuthError.JwtAlgRejected _ => UpstreamError.AuthError "jwt_alg_rejected"
  | HttpAuthError.JwksKidNotFound => UpstreamError.AuthError "jwks_kid_not_found"
  | HttpAuthError.HttpError _ => UpstreamError.TransportIo "http_error"
  | _ => UpstreamError.AuthError "auth_other"
  end.

Definition as_i64 (v : Value) : option Z :=
  match v with
  | JNum z => if (Int.i64_min <=? z)%Z && (z <=? Int.i64_max)%Z then Some z else None
  | _ => None
  end.

Section Answers.
Context `{Crates}.

Definition upstream_message_fingerprint (message : string) : string :=
  hex_encode (sha256 message).

(** [json_rpc_value_to_result]: the text of an error is told as its digest only. *)
Definition json_rpc_value_to_result (v : Value) : result UpstreamError Value :=
  match json_get "error" v with
  | Some err =>
      let code := default (-1)%Z (c ← json_get "code" err; as_i64 c) in
      let msg := default "" (m ← json_get "message" err; as_str m) in
      Err (UpstreamError.JsonRpc (pretty code) (upstream_message_fingerprint msg))
  | None => Ok (default JNull (json_get "result" v))
  end.

End Answers.

(** ** [HttpUpstream] *)

Record AutoRefreshConfig := mkAutoRefreshConfig {
  ar_token_endpoint : WebUrl;
  ar_client_id : string;
}.

Definition is_safe_token_endpoint (url : WebUrl) : bool :=
  if String.eqb (wu_scheme url) "https" then true
  else if String.eqb (wu_scheme url) "http" then
    let host := default "" (wu_host_str url) in
    existsb (String.eqb host) ["127.0.0.1"; "localhost"; "::1"; "[::1]"]
    || Str.eq_ignore_ascii_case host "localhost"
  else false.

(** [AutoRefreshConfig::new] *)
Definition auto_refresh_config (token_endpoint : WebUrl) (client_id : string)
    : result HttpAuthError AutoRefreshConfig :=
  if negb (is_safe_token_endpoint token_endpoint)
  then Err (HttpAuthError.HttpError "auto_refresh_token_endpoint_must_be_https_or_loopback")
  else Ok (mkAutoRefreshConfig token_endpoint client_id).

Record HttpUpstream (St : Type) := mkHttpUpstream {
  hu_server_id : string;
  hu_mcp_url : WebUrl;
  hu_expected : ExpectedBinding St;
  hu_token_ref : string;
  hu_auto_refresh : option AutoRefreshConfig;
}.
Arguments mkHttpUpstream {St}. Arguments hu_server_id {St}. Arguments hu_mcp_url {St}.
Arguments hu_expected {St}. Arguments hu_token_ref {St}. Arguments hu_auto_refresh {St}.

Definition json_rpc (id : Z) (method : string) (params : option Value) : Value :=
  JObj [("jsonrpc", JStr "2.0"); ("id", JNum id); ("method", JStr method);
        ("params", default JNull params)].

(** The reasons for which a call is tried once more. *)
Definition refreshable (reason_code : string) : bool :=
  existsb (String.eqb reason_code) ["token_expired"; "upstream_401"; "missing_token"].

Section HttpUpstream.
Context `{Crates} `{Redaction} `{Urls} `{AuthDocuments} `{Base64} `{Base64Encode}
  `{HttpTransport} `{AuthClock} {St : Type} `{SecretStore St} `{Elsewhere St}.

Definition answer_of (resp : HttpResponseFull) : result UpstreamError Value :=
  if (rp_status resp =? 200)%Z then
    let? v := ok_or (from_slice (rp_body resp)) (UpstreamError.Internal "rpc_decode_failed") in
    json_rpc_value_to_result v
  else if (rp_status resp =? 401)%Z then Err (UpstreamError.Unauthorized "upstream_401")
  else if (rp_status resp =? 403)%Z then Err UpstreamError.Forbidden
  else Err (UpstreamError.TransportIo "upstream_non_2xx").

Definition call_once (up : HttpUpstream St) (method : string) (params : option Value)
    (timeout : Z) : M (AuthState St) UpstreamError Value :=
  let! resp := map_err map_auth_error
    (let! now := now_unix_secs in
     let! resolved := resolve_access_token (hu_token_ref up) (hu_expected up) now in
     let! planned := lift (plan_authorized_request [] resolved (hu_mcp_url up) HttpMethod.Post
                             (Some (json_to_string (json_rpc 1 method params)))) in
     send_authorized planned.1 timeout) in
  lift (answer_of resp).

(** [HttpUpstream::call] *)
Definition call (up : HttpUpstream St) (method : string) (params : option Value)
    (timeout : Z) : M (AuthState St) UpstreamError Value :=
  let! first := attempt (call_once up method params timeout) in
  match first, hu_auto_refresh up with
  | Ok v, _ => ret v
  | Err (UpstreamError.Unauthorized reason_code as e), Some cfg =>
      if refreshable reason_code then
        map_err map_auth_error
          (try_refresh_access_token (hu_token_ref up) (ar_client_id cfg) (ar_token_endpoint cfg)) ;!
        call_once up method params timeout
      else throw e
  | Err other, _ => throw other
  end.
End HttpUpstream.

(** ** [StreamableHttpUpstream] *)

(** *** Server-sent events *)

(** The loop over the lines: the payloads so far, the data lines of the event at hand. *)
Fixpoint sse_loop (lines cur out : list string) : list string :=
  match lines with
  | [] => match cur with [] => out | _ => out ++ [Str.join newline_str cur] end
  | raw :: rest =>
      let line := default raw (Text.strip_suffix (String carriage_return "") raw) in
      if Str.is_empty line then
        match cur with
        | [] => sse_loop rest [] out
        | _ => sse_loop rest [] (out ++ [Str.join newline_str cur])
        end
      else if Str.starts_with ":" line then sse_loop rest cur out
      else match Text.strip_prefix "data:" line with
           | Some d => sse_loop rest (cur ++ [default d (Text.strip_prefix " " d)]) out
           | None => sse_loop rest cur out
           end
  end.

Definition sse_data_payloads (text : string) : list string :=
  sse_loop (split_char newline text) [] [].

(** The text is read as it is after [from_utf8_lossy], which changes no white space
    and no ASCII. *)
Definition looks_like_sse (body : string) : bool :=
  let t := trim_start body in
  Str.starts_with "data:" t || Str.starts_with "event:" t || Str.starts_with "id:" t
  || Str.starts_with "retry:" t || Str.starts_with ":" t.

Definition MAX_SSE_BYTES : N := 8 * 1024 * 1024.
Definition MAX_SESSION_ID_LEN : nat := 256.

Definition SUPPORTED_PROTOCOL_VERSIONS : list string :=
  ["2025-11-25"; "2025-06-18"; "2025-03-26"; "2024-11-05"].
Definition LATEST_PROTOCOL_VERSION : string := "2025-11-25".
Definition MODERN_PROBE_VERSION : string := "2026-07-28".
Definition UNSUPPORTED_PROTOCOL_VERSION_CODE : Z := -32022.
Definition MAX_SUPPORTED_LISTED : nat := 8.
Definition CARGO_PKG_VERSION : string := "0.8.0-beta.1".

Inductive StreamableAuth (St : Type) :=
| AuthNone
| AuthBearer (token : SecretValue)
| AuthOAuth (token_ref : string) (expected : ExpectedBinding St).
Arguments AuthNone {St}. Arguments AuthBearer {St}. Arguments AuthOAuth {St}.

Record StreamableUpstream (St : Type) := mkStreamableUpstream {
  su_server_id : string;
  su_mcp_url : WebUrl;
  su_auth : StreamableAuth St;
}.
Arguments mkStreamableUpstream {St}. Arguments su_server_id {St}. Arguments su_mcp_url {St}.
Arguments su_auth {St}.

(** The fields of the upstream that change, beside the state it shares. *)
Record StreamState (St : Type) := mkStreamState {
  ss_shared : AuthState St;
  ss_session_id : option string;
  ss_protocol_version : string;
  ss_next_id : Z;
}.
Arguments mkStreamState {St}. Arguments ss_shared {St}. Arguments ss_session_id {St}.
Arguments ss_protocol_version {St}. Arguments ss_next_id {St}.

Section Streamable.
Context `{Crates} `{Redaction} `{Urls} `{AuthDocuments} `{Base64} `{Base64Encode}
  `{HttpTransport} `{AuthClock} {St : Type} `{SecretStore St} `{Elsewhere St}.
Abbreviation StreamM := (M (StreamState St) UpstreamError).

(** A new upstream. *)
Definition stream_state (s : AuthState St) : StreamState St :=
  mkStreamState s None LATEST_PROTOCOL_VERSION 1.

Definition set_stream_shared (x : AuthState St) (s : StreamState St) : StreamState St :=
  mkStreamState x (ss_session_id s) (ss_protocol_version s) (ss_next_id s).
Definition set_stream_session (x : option string) (s : StreamState St) : StreamState St :=
  mkStreamState (ss_shared s) x (ss_protocol_version s) (ss_next_id s).
Definition set_stream_version (x : string) (s : StreamState St) : StreamState St :=
  mkStreamState (ss_shared s) (ss_session_id s) x (ss_next_id s).

Definition on_shared {A} (m : AuthM St A) : StreamM A := λ s,
  let '(r, x) := m (ss_shared s) in
  (match r with Ok a => Ok a | Err e => Err (map_auth_error e) end, set_stream_shared x s).

(** [fetch_add(1)] of an [AtomicU64] *)
Definition fresh_id : StreamM Z := λ s,
  (Ok (ss_next_id s),
   mkStreamState (ss_shared s) (ss_session_id s) (ss_protocol_version s)
     ((ss_next_id s + 1) `mod` 2 ^ 64)).

Fixpoint final_response (payloads : list string) : result UpstreamError Value :=
  match payloads with
  | [] => Err (UpstreamError.TransportIo "sse_no_final_response")
  | data :: rest =>
      match json_from_str data with
      | Some v =>
          if bool_decide (is_Some (json_get "result" v)) || bool_decide (is_Some (json_get "error" v))
          then json_rpc_value_to_result v
          else final_response rest
      | None => final_response rest
      end
  end.

Definition parse_sse_final_response (body : string) : result UpstreamError Value :=
  if (MAX_SSE_BYTES <? N.of_nat (String.length body))%N
  then Err (UpstreamError.TransportIo "sse_stream_too_large")
  else if negb (is_utf8 body) then Err (UpstreamError.Internal "sse_not_utf8")
  else final_response (sse_data_payloads body).

Definition parse_json_rpc_result (body : string) : result UpstreamError Value :=
  if looks_like_sse body then parse_sse_final_response body
  else
    let? v := ok_or (from_slice body) (UpstreamError.Internal "rpc_decode_failed") in
    json_rpc_value_to_result v.

(** *** Requests *)

Definition stream_headers (s : StreamState St) : HeaderList :=
  [("Accept", "application/json, text/event-stream");
   ("MCP-Protocol-Version", ss_protocol_version s)]
  ++ match ss_session_id s with Some sid => [("Mcp-Session-Id", sid)] | None => [] end.

(** The request that the planner makes of the headers and the body. *)
Definition plan_stream (up : StreamableUpstream St) (incoming : HeaderList) (body : string)
    : AuthM St HttpRequest :=
  match su_auth up with
  | AuthNone => ret (plan_unauthorized_request incoming (su_mcp_url up) HttpMethod.Post (Some body)).1
  | AuthBearer token =>
      let resolved := mkResolvedAccessToken token (wu_text (su_mcp_url up)) [] None in
      let! planned := lift (plan_authorized_request incoming resolved (su_mcp_url up)
                              HttpMethod.Post (Some body)) in
      ret planned.1
  | AuthOAuth token_ref expected =>
      let! now := now_unix_secs in
      let! resolved := resolve_access_token token_ref expected now in
      let! planned := lift (plan_authorized_request incoming resolved (su_mcp_url up)
                              HttpMethod.Post (Some body)) in
      ret planned.1
  end.

Definition send_rpc (up : StreamableUpstream St) (rpc : Value) (timeout : Z)
    : StreamM HttpResponseFull :=
  let! incoming := gets stream_headers in
  on_shared (let! req := plan_stream up incoming (json_to_string rpc) in
             send_authorized req timeout).

(** A 404 ends the session, if there was one. *)
Definition map_status (resp : HttpResponseFull) : StreamM Value :=
  let status := rp_status resp in
  if (status =? 200)%Z then lift (parse_json_rpc_result (rp_body resp))
  else if (status =? 202)%Z || (status =? 204)%Z then ret JNull
  else if (status =? 401)%Z then throw (UpstreamError.Unauthorized "upstream_401")
  else if (status =? 403)%Z then throw UpstreamError.Forbidden
  else if (status =? 404)%Z then
    let! had_session := gets ss_session_id in
    modify (set_stream_session None) ;!
    throw (UpstreamError.TransportIo
      match had_session with Some _ => "upstream_session_expired" | None => "upstream_non_2xx" end)
  else throw (UpstreamError.TransportIo "upstream_non_2xx").

Definition stream_call_once (up : StreamableUpstream St) (method : string)
    (params : option Value) (timeout : Z) : StreamM Value :=
  let! id := fresh_id in
  let! resp := send_rpc up (json_rpc id method params) timeout in
  map_status resp.

(** *** The handshake *)

(** Visible ASCII, and not too long. *)
Definition session_id_of (headers : HeaderList) : option string :=
  '(_, v) ← List.find (λ kv, Str.eq_ignore_ascii_case kv.1 "mcp-session-id") headers;
  let v := trim v in
  if negb (Str.is_empty v) && (String.length v <=? MAX_SESSION_ID_LEN)%nat
     && Str.all (Str.between 33 126) v
  then Some v else None.

Definition safe_protocol_version (negotiated : string) : string :=
  if negb (Str.is_empty negotiated) && (String.length negotiated <=? 20)%nat
     && Str.all (λ c, Str.is_ascii_digit c || byte_is 45 c || byte_is 46 c) negotiated
  then negotiated
  else "sha256:" +:+ upstream_message_fingerprint negotiated.

Definition CLIENT_INFO : Value :=
  JObj [("name", JStr "vigil-hub"); ("version", JStr CARGO_PKG_VERSION)].

Definition initialize_params : Value :=
  JObj [("protocolVersion", JStr LATEST_PROTOCOL_VERSION); ("capabilities", JObj []);
        ("clientInfo", CLIENT_INFO)].

Definition probe_params : Value :=
  JObj [("_meta", JObj [("io.modelcontextprotocol/protocolVersion", JStr MODERN_PROBE_VERSION);
                        ("io.modelcontextprotocol/clientCapabilities", JObj []);
                        ("io.modelcontextprotocol/clientInfo", CLIENT_INFO)])].

Definition NO_VERSION_LIST : string := "no version list".

(** What the answer to the probe says about the server that refused [initialize]. *)
Definition probe_verdict (orig : UpstreamError) (answer : result UpstreamError Value)
    : UpstreamError :=
  match answer with
  | Ok result =>
      let listed := match (v ← json_get "supportedVersions" result; as_array v) with
                    | Some arr => safe_protocol_version <$> take MAX_SUPPORTED_LISTED (omap as_str arr)
                    | None => []
                    end in
      UpstreamError.ModernOnlyUpstream
        match listed with [] => NO_VERSION_LIST | _ => Str.join ", " listed end
        LATEST_PROTOCOL_VERSION
  | Err (UpstreamError.JsonRpc code _) =>
      if String.eqb code (pretty UNSUPPORTED_PROTOCOL_VERSION_CODE)
      then UpstreamError.ModernOnlyUpstream NO_VERSION_LIST LATEST_PROTOCOL_VERSION
      else orig
  | Err _ => orig
  end.

Definition classify_initialize_rejection (up : StreamableUpstream St) (orig : UpstreamError)
    (probe_timeout : Z) : StreamM UpstreamError :=
  let! answer := attempt (stream_call_once up "server/discover" (Some probe_params) probe_timeout) in
  ret (probe_verdict orig answer).

(** The version the server chose, if it names one, is one that is spoken here. *)
Definition accept_version (result : Value) : StreamM unit :=
  match (v ← json_get "protocolVersion" result; as_str v) with
  | None => ret tt
  | Some neg =>
      if negb (existsb (String.eqb neg) SUPPORTED_PROTOCOL_VERSIONS)
      then throw (UpstreamError.ProtocolVersionUnsupported (safe_protocol_version neg)
                    (Str.join ", " SUPPORTED_PROTOCOL_VERSIONS))
      else modify (set_stream_version neg)
  end.

Definition initialize_handshake (up : StreamableUpstream St) (timeout : Z) : StreamM unit :=
  let! id := fresh_id in
  let! resp := send_rpc up (json_rpc id "initialize" (Some initialize_params)) timeout in
  let sid := session_id_of (rp_headers resp) in
  let! answer := attempt (map_status resp) in
  match answer with
  | Err (UpstreamError.JsonRpc _ _ as orig) =>
      let! e := classify_initialize_rejection up orig (Z.min timeout (secs 5)) in throw e
  | Err e => throw e
  | Ok result =>
      accept_version result ;!
      modify (set_stream_session sid) ;!
      let! r := send_rpc up (JObj [("jsonrpc", JStr "2.0");
                                   ("method", JStr "notifications/initialized")]) timeout in
      if negb (is_2xx (rp_status r))
      then throw (UpstreamError.TransportIo "initialized_notification_rejected")
      else ret tt
  end.
End Streamable.

(** ** The server that waits for the browser *)

(** [String::from_utf8_lossy]: each maximal part that is no UTF-8 becomes U+FFFD. *)
Definition REPLACEMENT : string := String "239" (String "191" (String "189" "")).

Fixpoint lossy_from (pending : string) (more lo hi : nat) (s : string) : string :=
  match s with
  | EmptyString => match more with O => "" | S _ => REPLACEMENT end
  | String a s' =>
      let start :=
        match utf8_lead a with
        | Some (O, _, _) => String a (lossy_from "" 0 128 191 s')
        | Some (n, l, h) => lossy_from (String a "") n l h s'
        | None => REPLACEMENT +:+ lossy_from "" 0 128 191 s'
        end in
      match more with
      | O => start
      | S n =>
          if Str.between lo hi a then
            match n with
            | O => pending +:+ String a (lossy_from "" 0 128 191 s')
            | S _ => lossy_from (pending +:+ String a "") n 128 191 s'
            end
          else REPLACEMENT +:+ start
      end
  end.

Definition from_utf8_lossy (s : string) : string := lossy_from "" 0 128 191 s.

Definition hex_val (c : ascii) : option nat :=
  let n := nat_of_ascii c in
  if Str.between 48 57 c then Some (n - 48)%nat
  else if Str.between 97 102 c then Some (n - 97 + 10)%nat
  else if Str.between 65 70 c then Some (n - 65 + 10)%nat
  else None.

(** The loop of [url_decode]: an escape that is none stands for itself. *)
Fixpoint url_decode_bytes (s : string) : string :=
  match s with
  | EmptyString => EmptyString
  | String a s' =>
      if byte_is 43 a then String " " (url_decode_bytes s')
      else if byte_is 37 a then
        match s' with
        | String h (String l s'') =>
            match hex_val h, hex_val l with
            | Some h, Some l =>
                String (ascii_of_nat (Nat.lor (Nat.shiftl h 4) l)) (url_decode_bytes s'')
            | _, _ => String a (url_decode_bytes s')
            end
        | _ => String a (url_decode_bytes s')
        end
      else String a (url_decode_bytes s')
  end.

Definition url_decode (s : string) : string := from_utf8_lossy (url_decode_bytes s).

(** One step of the loop of [parse_query]. *)
Definition add_param (out : gmap string string) (pair : string) : gmap string string :=
  if Str.is_empty pair then out
  else
    let '(k, v) := default (pair, "") (split_once "="%char pair) in
    <[url_decode k := url_decode v]> out.

Definition parse_query (q : string) : gmap string string :=
  foldl add_param ∅ (split_char "&"%char q).

Definition MAX_REQUEST_BYTES : nat := 8 * 1024.

(** What a client sends before it closes the connection, or stalls until the read
    times out. *)
Record Connection := mkConnection { cn_bytes : string; cn_stalls : bool }.

Record LoopbackCallback := mkLoopbackCallback { lc_code : string; lc_state : string }.

(** The first line with its line feed, and the rest. *)
Fixpoint cut_line (s : string) : string * string :=
  match s with
  | EmptyString => ("", "")
  | String a s' =>
      if Ascii.eqb a newline then (String a "", s')
      else let '(line, rest) := cut_line s' in (String a line, rest)
  end.

(** Whether the read of a line comes to an end before the connection stalls. *)
Definition line_ends (line : string) (stalls : bool) : bool :=
  negb stalls || Str.ends_with newline_str line.

(** The loop of [consume_headers]; an error counts as the end. [fuel] bounds the lines. *)
Fixpoint header_lines (fuel : nat) (bytes : string) (stalls : bool) (remaining_budget : nat)
    : bool :=
  match fuel with
  | O => true
  | S fuel' =>
      let '(line, rest) := cut_line bytes in
      if Str.is_empty line || negb (is_utf8 line) || negb (line_ends line stalls) then true
      else if (remaining_budget <? String.length line)%nat then false
      else if String.eqb line (String carriage_return newline_str) || String.eqb line newline_str
      then true
      else header_lines fuel' rest stalls (remaining_budget - String.length line)
  end.

Definition consume_headers (bytes : string) (stalls : bool) (remaining_budget : nat) : bool :=
  header_lines (S (String.length bytes)) bytes stalls remaining_budget.

Definition RECEIVED_HTML : string :=
  "<html><body><h2>Authorization received</h2><p>You can close this window and return to the CLI.</p></body></html>".

(** From the query of a request to the expected path: what is told to the caller, and
    the status and body written to the client. *)
Definition answer_query (query expected_state : string)
    : result HttpAuthError LoopbackCallback * (Z * string) :=
  let params := parse_query query in
  match params !! "error" with
  | Some err =>
      (Err (HttpAuthError.HttpError "loopback_as_returned_error"),
       (400%Z, "OAuth error: " +:+ err +:+ " " +:+ default "" (params !! "error_description")))
  | None =>
      let got_state := default "" (params !! "state") in
      if negb (String.eqb got_state expected_state)
      then (Err (HttpAuthError.HttpError "loopback_state_mismatch"), (400%Z, "state mismatch"))
      else
        let code := default "" (params !! "code") in
        if Str.is_empty code
        then (Err (HttpAuthError.HttpError "loopback_missing_code"), (400%Z, "missing code"))
        else (Ok (mkLoopbackCallback code got_state), (200%Z, RECEIVED_HTML))
  end.

(** [None] as what is written: nothing is. *)
Definition handle_stream (c : Connection) (expected_state expected_path : string)
    : result HttpAuthError LoopbackCallback * option (Z * string) :=
  let line := (cut_line (Str.take MAX_REQUEST_BYTES (cn_bytes c))).1 in
  let full := (MAX_REQUEST_BYTES <=? String.length (cn_bytes c))%nat in
  if negb (is_utf8 line) || negb (line_ends line (cn_stalls c && negb full))
  then (Err (HttpAuthError.HttpError "loopback_read_failed"), None)
  else if negb (Str.ends_with newline_str line) || (MAX_REQUEST_BYTES <=? String.length line)%nat
  then (Err (HttpAuthError.HttpError "loopback_request_too_large"),
        Some (400%Z, "request line too large"))
  else
    match split_whitespace line with
    | [meth; target; _] =>
        if negb (String.eqb meth "GET")
        then (Err (HttpAuthError.HttpError "loopback_bad_method"), Some (400%Z, "method not allowed"))
        else if negb (consume_headers (Str.drop (String.length line) (cn_bytes c)) (cn_stalls c)
                        (MAX_REQUEST_BYTES - String.length line))
        then (Err (HttpAuthError.HttpError "loopback_headers_too_large"),
              Some (400%Z, "headers too large"))
        else
          let '(path, query) := default (target, "") (split_once "?"%char target) in
          if negb (String.eqb path expected_path)
          then (Err (HttpAuthError.HttpError "loopback_wrong_path"), Some (404%Z, "not found"))
          else let '(r, written) := answer_query query expected_state in (r, Some written)
    | _ => (Err (HttpAuthError.HttpError "loopback_bad_method"), Some (400%Z, "method not allowed"))
    end.

(** What the listener has when it is asked. *)
Inductive Accepted :=
| Accept (c : Connection)
| WouldBlock
| AcceptFailed.

(** The loop of [wait_for_callback]: each turn has the time since the start and what
    [accept] gives. Requests that are refused do not end it. *)
Fixpoint wait_for_callback (timeout : Z) (expected_state path : string)
    (last_err : option string) (turns : list (Z * Accepted))
    : option (result HttpAuthError LoopbackCallback) :=
  match turns with
  | [] => None
  | (elapsed, accepted) :: rest =>
      if (timeout <=? elapsed)%Z
      then Some (Err (HttpAuthError.HttpError (default "loopback_timeout" last_err)))
      else match accepted with
           | Accept c =>
               match (handle_stream c expected_state path).1 with
               | Ok cb => Some (Ok cb)
               | Err (HttpAuthError.HttpError reason) =>
                   wait_for_callback timeout expected_state path (Some reason) rest
               | Err other => Some (Err other)
               end
           | WouldBlock => wait_for_callback timeout expected_state path last_err rest
           | AcceptFailed =>
               wait_for_callback timeout expected_state path (Some "loopback_accept_failed") rest
           end
  end.

(** ** Where requests may go *)

(** [Url::host()], [a.origin() == b.origin()], [(domain, port).to_socket_addrs()] *)
Inductive UrlHost :=
| HostIp (ip : IpAddr)
| HostDomain (d : string).

Class Hosts := {
  url_host_of : WebUrl → option UrlHost;
  same_url_origin : WebUrl → WebUrl → bool;
  to_socket_addrs : string → Z → option (list IpAddr);
}.

Definition octet (i : nat) (octets : list Z) : Z := default 0%Z (octets !! i).

(** [Ipv6Addr::to_ipv4]: mapped and compatible addresses. *)
Definition to_ipv4 (groups : list Z) : option (list Z) :=
  match groups with
  | [0; 0; 0; 0; 0; m; ab; cd]%Z =>
      if (m =? 0)%Z || (m =? 65535)%Z
      then Some [Z.shiftr ab 8; Z.land ab 255; Z.shiftr cd 8; Z.land cd 255]
      else None
  | _ => None
  end.

Definition is_loopback (ip : IpAddr) : bool :=
  match ip with
  | V4 o => (octet 0 o =? 127)%Z
  | V6 g => bool_decide (g = [0; 0; 0; 0; 0; 0; 0; 1]%Z)
  end.

(** [Ipv4Addr::is_private], [is_link_local], [is_unspecified], [is_broadcast] *)
Definition is_private (o : list Z) : bool :=
  (octet 0 o =? 10)%Z
  || (octet 0 o =? 172)%Z && (16 <=? octet 1 o)%Z && (octet 1 o <=? 31)%Z
  || (octet 0 o =? 192)%Z && (octet 1 o =? 168)%Z.
Definition is_link_local (o : list Z) : bool := (octet 0 o =? 169)%Z && (octet 1 o =? 254)%Z.
Definition is_unspecified (o : list Z) : bool := bool_decide (o = [0; 0; 0; 0]%Z).
Definition is_broadcast (o : list Z) : bool := bool_decide (o = [255; 255; 255; 255]%Z).

Definition blocked_v4 (o : list Z) : bool :=
  is_private o || is_link_local o || is_unspecified o || is_broadcast o
  || (octet 0 o =? 0)%Z
  || (octet 0 o =? 100)%Z && (Z.land (octet 1 o) 192 =? 64)%Z.

Definition blocked_v6 (g : list Z) : bool :=
  bool_decide (g = [0; 0; 0; 0; 0; 0; 0; 0]%Z)
  || (Z.land (octet 0 g) 65472 =? 65152)%Z
  || (Z.land (octet 0 g) 65024 =? 64512)%Z
  || (octet 0 g =? 100)%Z && (octet 1 g =? 65435)%Z.

(** The recursion is on the IPv4 address that an IPv6 address stands for. *)
Definition is_blocked_ssrf_ip (ip : IpAddr) : bool :=
  if is_loopback ip then false
  else match ip with
       | V4 o => blocked_v4 o
       | V6 g => match to_ipv4 g with
                 | Some o => if is_loopback (V4 o) then false else blocked_v4 o
                 | None => blocked_v6 g
                 end
       end.

Inductive UpstreamAuth :=
| NoAuth
| Bearer (source : string)
| OAuth (resource client_id : string).

Inductive HttpTransportHint := HintStreamable | LegacySse.

Section Serve.
Context `{Urls} `{Hosts}.

(** The error is the reason of [ServeError::InvalidUpstream]. *)
Definition assert_url_safe (url : string) : result string WebUrl :=
  let? parsed := ok_or (url_of url) "url is not a valid absolute URL" in
  let host := default "" (wu_host_str parsed) in
  let? _ :=
    if String.eqb (wu_scheme parsed) "https" then Ok tt
    else if String.eqb (wu_scheme parsed) "http" then
      if existsb (String.eqb host) ["127.0.0.1"; "localhost"; "::1"; "[::1]"; "0:0:0:0:0:0:0:1"]
      then Ok tt else Err "http:// upstream allowed only for loopback (use https://)"
    else Err "upstream url scheme must be https (or http loopback)" in
  let blocked_ip := "upstream url resolves to a private/link-local/reserved IP (SSRF guard)" in
  match url_host_of parsed with
  | Some (HostIp ip) => if is_blocked_ssrf_ip ip then Err blocked_ip else Ok parsed
  | Some (HostDomain d) =>
      let port := default 443%Z (wu_port_or_known_default parsed) in
      let? addrs := ok_or (to_socket_addrs d port) "upstream host failed to resolve" in
      match addrs with
      | [] => Err "upstream host resolved to no address"
      | _ => if existsb is_blocked_ssrf_ip addrs then Err blocked_ip else Ok parsed
      end
  | None => Err "upstream url has no host"
  end.

Definition validate_http_upstream_config (name url : string) (auth : UpstreamAuth)
    (transport_hint : option HttpTransportHint) : result string WebUrl :=
  if Str.is_empty name then Err "name is empty"
  else
    let? parsed := assert_url_safe url in
    let? _ :=
      match auth with
      | NoAuth => Ok tt
      | Bearer source =>
          if Str.starts_with "env:" source || Str.starts_with "keyring:" source then Ok tt
          else Err "bearer source must be env:<VAR> or keyring:<svc>/<acct> (literal rejected)"
      | OAuth resource client_id =>
          if Str.is_empty resource || Str.is_empty client_id
          then Err "oauth auth requires non-empty resource and client_id" else Ok tt
      end in
    match transport_hint with
    | Some LegacySse => Err "legacy HTTP+SSE transport lands in ADR 0021 Slice 5"
    | _ => Ok parsed
    end.

Context `{Crates} `{Redaction} `{AuthDocuments} `{HttpTransport} `{AuthClock} {St : Type}
  `{SecretStore St} `{Elsewhere St} `{JwtCrate}.

(** The upstream, and the scopes of its token. *)
Definition build_oauth_upstream (name : string) (mcp_url : WebUrl) (resource client_id : string)
    : M (AuthState St) string (StreamableUpstream St * list string) :=
  let token_ref := token_ref_for_access resource client_id in
  let! row := map_err (λ _, "oauth token metadata query failed") (get_metadata token_ref) in
  let! meta := lift (ok_or row
    "oauth upstream not onboarded — run `add-remote-mcp` first (same --ledger)") in
  let! resource_url := lift (ok_or (url_of (mt_resource meta))
    "onboarded oauth resource is not a valid URL") in
  if negb (same_url_origin resource_url mcp_url)
  then throw "oauth upstream url origin != onboarded resource origin (audience mismatch)"
  else
    lift (assert_url_safe (mt_authorization_server meta)) ;!
    let! as_meta := map_err (λ _, "oauth AS metadata discovery failed at startup")
      (fetch_as_metadata (mt_authorization_server meta)) in
    if negb (String.eqb (am_issuer as_meta) (mt_issuer meta))
    then throw "oauth AS issuer changed since onboarding (refusing — possible AS compromise)"
    else
      lift (assert_url_safe (am_jwks_uri as_meta)) ;!
      let expected := mkExpectedBinding (mt_resource meta) (mt_issuer meta) (mt_scope_set meta)
                        (verify (am_jwks_uri as_meta)) None in
      ret (mkStreamableUpstream name mcp_url (AuthOAuth token_ref expected), mt_scope_set meta).
End Serve.

(** ** [add-remote-mcp] *)

Record AddRemoteArgs := mkAddRemoteArgs {
  aa_url : string;
  aa_client_id : string;
  aa_scopes : list string;
}.

(** What one run draws at random, and the address its server got. *)
Record Draws := mkDraws {
  dr_verifier : string;
  dr_challenge : string;
  dr_state : string;
  dr_redirect_uri : result HttpAuthError string;
}.

(** A message of its own, or that of a step with the error it got. *)
Inductive AddRemoteError :=
| Refused (message : string)
| Failed (step : string) (e : HttpAuthError).

Section AddRemote.
Context `{Crates} `{Redaction} `{Urls} `{AuthDocuments} `{HttpTransport} `{AuthClock}
  {St : Type} `{SecretStore St} `{Elsewhere St}.
Abbreviation AddM := (M (AuthState St) AddRemoteError).

Definition step {A} (name : string) (m : AuthM St A) : AddM A := map_err (Failed name) m.

(** An endpoint of the authorization server, which must be reached over TLS. *)
Definition tls_endpoint (allow_insecure_url : bool) (endpoint parse_error refusal : string)
    : result AddRemoteError unit :=
  if allow_insecure_url then Ok tt
  else
    let? u := ok_or (url_of endpoint) (Refused parse_error) in
    if negb (String.eqb (wu_scheme u) "https") then Err (Refused refusal) else Ok tt.

(** Step 10: the access token, and the refresh token that came with it. *)
Definition persist_tokens (args : AddRemoteArgs) (resource as_url issuer : string)
    (tr : TokenResponse) : AddM string :=
  let token_ref := token_ref_for_access resource (aa_client_id args) in
  let scope_set := match tr_scope tr with
                   | Some _ => scope_words (tr_scope tr)
                   | None => aa_scopes args
                   end in
  let! now := match tr_expires_in tr with
              | Some _ => step "" now_since_epoch
              | None => ret None
              end in
  let expires_at := (λ secs, match now with Some t => Int.i64_wrapping_add t secs | None => 0%Z end)
                      <$> tr_expires_in tr in
  let! created_at := step "" now_unix_secs in
  step "token persist"
    (put_access_token (mkOAuthTokenMetadata token_ref resource as_url issuer scope_set
                         TokenKind.Access expires_at created_at) (tr_access_token tr)) ;!
  match tr_refresh_token tr with
  | Some refresh_token =>
      step "refresh token persist"
        (put_refresh_token (mkOAuthTokenMetadata (token_ref_for_refresh resource (aa_client_id args))
           resource as_url issuer scope_set TokenKind.Refresh None created_at) refresh_token)
  | None => ret tt
  end ;!
  ret token_ref.

(** [run_with_deps]. [callback] is what the wait for the browser gives, once it was sent
    to a URL and for the state the server was bound with; the value is the reference of
    the token. *)
Definition run_with_deps (allow_insecure_url : bool) (args : AddRemoteArgs) (draws : Draws)
    (callback : WebUrl → string → result HttpAuthError LoopbackCallback) : AddM string :=
  let! base_url := lift (ok_or (url_of (aa_url args)) (Refused "invalid --url")) in
  if negb allow_insecure_url && negb (String.eqb (wu_scheme base_url) "https")
  then throw (Refused "--url must be https:// (ADR 0011 §I-11.3)")
  else if bool_decide (aa_scopes args = []) then throw (Refused "--scopes must be non-empty")
  else
    let! prm := step "prm discover" (fetch_and_validate_prm base_url) in
    let! as_url := lift (ok_or (head (pm_authorization_servers prm))
      (Refused "prm.authorization_servers is empty")) in
    let! as_meta := step "as metadata discover" (fetch_as_metadata (wu_text as_url)) in
    let! token_endpoint := lift (ok_or (am_token_endpoint as_meta)
      (Refused "AS metadata missing token_endpoint")) in
    let! authorize_endpoint := lift (ok_or (am_authorization_endpoint as_meta)
      (Refused "AS metadata missing authorization_endpoint")) in
    lift (tls_endpoint allow_insecure_url token_endpoint "token endpoint parse"
            "AS token_endpoint must be https://") ;!
    lift (tls_endpoint allow_insecure_url authorize_endpoint "authorize endpoint parse"
            "AS authorization_endpoint must be https://") ;!
    let! redirect := step "loopback bind" (lift (dr_redirect_uri draws)) in
    let! redirect_uri := lift (ok_or (url_of redirect) (Refused "loopback uri parse")) in
    let! authorize_url := lift (ok_or (url_of authorize_endpoint)
      (Refused "authorize endpoint parse")) in
    let authz_url := build_authorization_url authorize_url (aa_client_id args) redirect_uri
                       (aa_scopes args) (dr_state draws) (dr_challenge draws) (pm_resource prm) in
    let! cb := step "loopback wait" (lift (callback authz_url (dr_state draws))) in
    let! token_endpoint_url := lift (ok_or (url_of token_endpoint) (Refused "token endpoint parse")) in
    let! tr := step "exchange code"
      (exchange_code_for_token token_endpoint_url (aa_client_id args) redirect_uri (lc_code cb)
         (dr_verifier draws) (pm_resource prm)) in
    persist_tokens args (wu_text (pm_resource prm)) (wu_text as_url) (am_issuer as_meta) tr.
End AddRemote.
