(* ===== verification/HttpAuthProps.v ===== *)
(** * What holds of tokens and of the requests that carry them

    Over [HttpAuth] and [HttpTransport]: a token is accepted only on the evidence of
    answers that were received; what an upstream sends carries only such tokens, to one
    origin; refreshes are shared; forms are read back; where a request may go. *)

From stdpp Require Import pretty.
From S2P Require Import Prelude Text Types Json Deps Db Hash Ledger Secrets HardRedact Lease Concrete.
From S2P Require Import Protocol OutboundSetup HttpAuth HttpTransport.

(** ** Runs that return *)

Section Runs.
Context {S E : Type}.

Lemma bind_returns {A B} (m : M S E A) (k : A → M S E B) s b s' :
  bind m k s = (Ok b, s') → ∃ a s1, m s = (Ok a, s1) ∧ k a s1 = (Ok b, s').
Proof. unfold bind. destruct (m s) as [[a|e] s1]; [|done]. eauto. Qed.

Lemma lift_returns {A} (r : result E A) (s : S) a s' : lift r s = (Ok a, s') → r = Ok a ∧ s = s'.
Proof. by intros [= -> ->]. Qed.

Lemma ret_returns {A} (x : A) (s : S) a s' : ret x s = (Ok a : result E A, s') → x = a ∧ s = s'.
Proof. by intros [= -> ->]. Qed.

Lemma gets_returns {A} (f : S → A) s a s' : gets f s = (Ok a : result E A, s') → f s = a ∧ s = s'.
Proof. by intros [= -> ->]. Qed.

Lemma modify_returns (f : S → S) s a s' : modify f s = (Ok a : result E unit, s') → f s = s'.
Proof. by intros [= _ ->]. Qed.

Lemma throw_returns {A} (e : E) (s : S) (a : A) s' : throw e s = (Ok a, s') → False.
Proof. done. Qed.

Lemma res_bind_ok {A B} (r : result E A) (k : A → result E B) b :
  res_bind r k = Ok b → ∃ a, r = Ok a ∧ k a = Ok b.
Proof. destruct r; [|done]. eauto. Qed.

Lemma ok_or_ok {A} (o : option A) (e : E) a : ok_or o e = Ok a → o = Some a.
Proof. destruct o; [|done]. by intros [= ->]. Qed.
End Runs.

(** Follow a run that returned, step by step. *)
Ltac returned :=
  repeat (match goal with
  | H : bind _ _ _ = (Ok _, _) |- _ => apply bind_returns in H as (? & ? & ? & H)
  | H : lift _ _ = (Ok _, _) |- _ => apply lift_returns in H as [H <-]
  | H : ret _ _ = (Ok _, _) |- _ => first [apply ret_returns in H as [<- <-] | apply ret_returns in H as [H <-]]
  | H : gets _ _ = (Ok _, _) |- _ => first [apply gets_returns in H as [<- <-] | apply gets_returns in H as [H <-]]
  | H : modify _ _ = (Ok _, _) |- _ => apply modify_returns in H as <-
  | H : throw _ _ = (Ok _, _) |- _ => by destruct (throw_returns _ _ _ _ H)
  | H : res_bind _ _ = Ok _ |- _ => apply res_bind_ok in H as (? & ? & H)
  | H : ok_or _ _ = Ok _ |- _ => apply ok_or_ok in H
  | H : Err _ = Ok _ |- _ => discriminate H
  end; cbv beta in *).

(** ** The evidence *)

(** An answer to this request was received, and its status and body are such. *)
Definition answered_by (log : list Exchange) (req : HttpRequest) (P : Z → string → Prop) : Prop :=
  ∃ resp body,
    mkExchange (wire_request (rq_method req) (wu_text (rq_url req)) (rq_headers req) (rq_body req)
                  None) (Ok resp) ∈ log ∧
    rr_body resp = Some body ∧ P (rr_status resp) body.

Section Evidence.
Context `{Crates} `{Redaction} `{Urls} `{AuthDocuments} `{Base64} `{Base64Encode}
  `{HttpTransport} `{AuthClock} {St : Type} `{SecretStore St}.

(** A server said so of a token and an endpoint with this key. *)
Definition introspected (key : string) (ir : IntrospectionResponse) (log : list Exchange) : Prop :=
  ∃ endpoint client_id client_secret token,
    key = make_introspection_cache_key token (wu_text endpoint) ∧
    answered_by log (introspection_request endpoint client_id client_secret token)
      (λ status body, is_2xx status = true ∧ read_introspection body = Some ir).

(** These keys were served at this URI. *)
Definition served_keys (jwks_uri : string) (set : JwkSet) (log : list Exchange) : Prop :=
  ∃ url, url_of jwks_uri = Some url ∧
    answered_by log (mkHttpRequest url HttpMethod.Get ACCEPT_JSON None)
      (λ status body, status = 200%Z ∧ read_jwk_set body = Some set).

(** What is cached was received; an introspection is cached only if it was positive. *)
Definition introspections_received (s : AuthState St) : Prop :=
  ∀ key entry, au_introspections s !! key = Some entry →
    ir_active (ci_response entry) = true ∧ introspected key (ci_response entry) (au_exchanges s).

Definition keys_received (s : AuthState St) : Prop :=
  ∀ issuer jwks_uri entry, au_jwks s !! (issuer, jwks_uri) = Some entry →
    served_keys jwks_uri (je_set entry) (au_exchanges s).

Definition caches_sound (s : AuthState St) : Prop := introspections_received s ∧ keys_received s.

(** A step: the log grows, and the caches stay sound. *)
Definition auth_step (s s' : AuthState St) : Prop :=
  au_exchanges s `prefix_of` au_exchanges s' ∧ (caches_sound s → caches_sound s').

#[export] Instance auth_step_preorder : PreOrder auth_step.
Proof.
  split; [by intros s | intros s t u [P1 I1] [P2 I2]]. split; [by etrans|auto].
Qed.

Lemma answered_by_grows log log' req P :
  log `prefix_of` log' → answered_by log req P → answered_by log' req P.
Proof.
  intros [rest ->] (resp & body & Hin & Hrest). exists resp, body.
  split; [|done]. apply elem_of_app. by left.
Qed.

Lemma introspected_grows key ir log log' :
  log `prefix_of` log' → introspected key ir log → introspected key ir log'.
Proof.
  intros Hp (e & i & c & t & Hk & Ha). exists e, i, c, t. eauto using answered_by_grows.
Qed.

Lemma served_keys_grows uri set log log' :
  log `prefix_of` log' → served_keys uri set log → served_keys uri set log'.
Proof. intros Hp (u & Hu & Ha). exists u. eauto using answered_by_grows. Qed.

(** A step that leaves the caches as they are. *)
Lemma auth_step_logged s s' :
  au_exchanges s `prefix_of` au_exchanges s' → au_introspections s' = au_introspections s →
  au_jwks s' = au_jwks s → auth_step s s'.
Proof.
  intros Hp Hi Hk. split; [done|]. intros [HI HK]. split.
  - intros key entry E. rewrite Hi in E. destruct (HI _ _ E). eauto using introspected_grows.
  - intros iss uri entry E. rewrite Hk in E. eauto using served_keys_grows.
Qed.

Lemma auth_step_quiet s s' :
  au_exchanges s' = au_exchanges s → au_introspections s' = au_introspections s →
  au_jwks s' = au_jwks s → auth_step s s'.
Proof. intros He. apply auth_step_logged. by rewrite He. Qed.

(** ** Requests *)

Lemma send_step req : preserves auth_step (send req : AuthM St _).
Proof.
  unfold send, send_inner. intros s. run_m.
  destruct (http_send _ _) as [resp|e]; simpl.
  - destruct (rr_body resp); apply auth_step_logged; simpl; try done; by eexists.
  - apply auth_step_logged; simpl; try done; by eexists.
Qed.

Lemma send_returns req (s : AuthState St) resp s' :
  send req s = (Ok resp, s') →
  answered_by (au_exchanges s') req (λ status body, status = rp_status resp ∧ body = rp_body resp).
Proof.
  unfold send, send_inner. intros E. returned.
  destruct (http_send _ _) as [raw|e] eqn:Eh; [|done].
  destruct (rr_body raw) as [body|] eqn:Eb; [|done]. returned.
  exists raw, body. simpl. split; [|done]. apply elem_of_app. right.
  by apply list_elem_of_singleton.
Qed.

Lemma introspect_token_returns endpoint client_id client_secret token (s : AuthState St) ir s' :
  introspect_token endpoint client_id client_secret token s = (Ok ir, s') →
  introspected (make_introspection_cache_key token (wu_text endpoint)) ir (au_exchanges s').
Proof.
  unfold introspect_token. intros E.
  apply bind_returns in E as (resp & s1 & Hs & E).
  apply send_returns in Hs as (raw & body & Hin & Hb & Hst & Hbody).
  destruct (is_2xx (rp_status resp)) eqn:E2; simpl in E; returned.
  destruct (bearer_type _); simpl in E; returned.
  exists endpoint, client_id, client_secret, token. split; [done|].
  exists raw, body. split_and!; [done|done| |by subst]. by rewrite Hst.
Qed.
End Evidence.

(** ** Every operation is a step *)

Section Steps.
Context `{Crates} `{Redaction} `{Urls} `{AuthDocuments} `{Base64} `{Base64Encode}
  `{HttpTransport} `{AuthClock} {St : Type} `{SecretStore St} `{Elsewhere St}.
Hypothesis others_step : ∀ n (s : AuthState St), auth_step s (meanwhile n s).

Lemma take_lock_step : preserves auth_step (take_lock : AuthM St unit).
Proof.
  intros s. unfold take_lock. simpl. etrans; [|apply others_step]. by apply auth_step_quiet.
Qed.

Lemma tick_step clock : preserves auth_step (tick clock : AuthM St Z).
Proof. unfold tick. preserve. intros s. by apply auth_step_quiet. Qed.

Lemma now_instant_step : preserves auth_step (now_instant : AuthM St Z).
Proof. apply tick_step. Qed.

Lemma now_since_epoch_step : preserves auth_step (now_since_epoch : AuthM St _).
Proof. unfold now_since_epoch. preserve. intros s. by apply auth_step_quiet. Qed.

Lemma with_ledger_step {A} reason (m : LedgerM A) : preserves auth_step (with_ledger reason m : AuthM St A).
Proof. intros s. unfold with_ledger. destruct (m _). by apply auth_step_quiet. Qed.

Lemma secret_get_step key reason : preserves auth_step (secret_get key reason : AuthM St _).
Proof. intros s. by apply auth_step_quiet. Qed.

Lemma secret_put_step key value : preserves auth_step (secret_put key value : AuthM St _).
Proof. intros s. unfold secret_put. destruct (store_put _ _ _). by apply auth_step_quiet. Qed.

Lemma resolve_access_value_step r : preserves auth_step (resolve_access_value r : AuthM St _).
Proof. intros s. by apply auth_step_quiet. Qed.

#[local] Hint Resolve take_lock_step tick_step now_instant_step now_since_epoch_step
  with_ledger_step secret_get_step secret_put_step resolve_access_value_step send_step : vigil.

Lemma get_metadata_step r : preserves auth_step (get_metadata r : AuthM St _).
Proof. unfold get_metadata. preserve. Qed.

Lemma put_with_kind_step m v k : preserves auth_step (put_with_kind m v k : AuthM St _).
Proof. unfold put_with_kind. preserve. Qed.

Lemma post_for_token_step u form a b : preserves auth_step (post_for_token u form a b : AuthM St _).
Proof. unfold post_for_token. preserve. Qed.

Lemma introspect_uncached_step raw cfg : preserves auth_step (introspect_uncached raw cfg : AuthM St _).
Proof. unfold introspect_uncached, introspect_token. preserve. Qed.

#[local] Hint Resolve get_metadata_step put_with_kind_step post_for_token_step
  introspect_uncached_step : vigil.

Lemma cache_lookup_step key now : preserves auth_step (cache_lookup key now : AuthM St _).
Proof.
  intros s. unfold cache_lookup. destruct (_ !! key) as [entry|]; [|reflexivity].
  destruct (_ <? _)%Z; [reflexivity|]. simpl. split; [done|].
  intros [HI HK]. split; [|done]. intros k e E. apply HI. simpl in E.
  by apply lookup_delete_Some in E as [_ E].
Qed.

(** What is cached is the answer just received. *)
Lemma remember_active_sound key fresh now ttl (s : AuthState St) :
  introspected key fresh (au_exchanges s) → auth_step s (remember_active key fresh now ttl s).2.
Proof.
  intros Hi. unfold remember_active, cache_store. destruct (ir_active fresh) eqn:Ea; [|reflexivity].
  destruct (0 <? _)%Z; [|reflexivity]. simpl. split; [done|]. intros [HI HK]. split; [|done].
  intros k e E. simpl in E. apply lookup_insert_Some in E as [[<- <-]|[_ E]]; [done|by apply HI].
Qed.

Lemma introspect_uncached_returns raw cfg (s : AuthState St) ir s' :
  introspect_uncached raw cfg s = (Ok ir, s') →
  introspected (make_introspection_cache_key raw (wu_text (ic_endpoint cfg))) ir (au_exchanges s').
Proof. unfold introspect_uncached. intros E. returned. by eapply introspect_token_returns. Qed.

Lemma introspect_cached_step raw cfg now : preserves auth_step (introspect_cached raw cfg now : AuthM St _).
Proof.
  unfold introspect_cached. destruct (_ =? 0)%Z; [apply introspect_uncached_step|].
  apply preserves_bind; [typeclasses eauto|apply cache_lookup_step|]. intros [hit|]; [preserve|].
  apply preserves_bind; [typeclasses eauto|apply take_lock_step|]. intros _.
  apply preserves_bind; [typeclasses eauto|apply cache_lookup_step|]. intros [hit|]; [preserve|].
  intros s. unfold bind at 1. pose proof (introspect_uncached_step raw cfg s) as Hstep.
  destruct (introspect_uncached raw cfg s) as [[fresh|e] s1] eqn:E; [|done]. simpl in Hstep.
  apply introspect_uncached_returns in E. etrans; [exact Hstep|].
  unfold bind. pose proof (remember_active_sound _ _ now (ic_cache_max_ttl_secs cfg) _ E) as Hr.
  by destruct (remember_active _ _ _ _ s1) as [[?|?] ?].
Qed.

(** Whatever the caches say was received: the answer used is one, or one was just got. *)
Lemma introspect_cached_returns raw cfg now (s : AuthState St) ir s' :
  introspect_cached raw cfg now s = (Ok ir, s') → caches_sound s →
  introspected (make_introspection_cache_key raw (wu_text (ic_endpoint cfg))) ir (au_exchanges s').
Proof.
  unfold introspect_cached. intros E Hs. destruct (_ =? 0)%Z; [by apply introspect_uncached_returns in E|].
  assert (Hhit : ∀ (s0 : AuthState St) ir0 s1, caches_sound s0 →
    cache_lookup (make_introspection_cache_key raw (wu_text (ic_endpoint cfg))) now s0 = (Ok (Some ir0), s1) →
    introspected (make_introspection_cache_key raw (wu_text (ic_endpoint cfg))) ir0 (au_exchanges s1)).
  { intros s0 ir0 s1 [HI _] Hl. unfold cache_lookup in Hl. destruct (_ !! _) as [e|] eqn:Ek; [|done].
    destruct (_ <? _)%Z; [|done]. injection Hl as <- <-. by apply HI in Ek as [_ Ek]. }
  apply bind_returns in E as (hit & s1 & E1 & E).
  pose proof (cache_lookup_step (make_introspection_cache_key raw (wu_text (ic_endpoint cfg))) now s) as [_ K1].
  rewrite E1 in K1. destruct hit as [hit|]; [returned; by eapply Hhit|].
  apply bind_returns in E as (u & s2 & E2 & E).
  pose proof (take_lock_step s1) as [_ K2]. rewrite E2 in K2.
  apply bind_returns in E as (hit & s3 & E3 & E).
  destruct hit as [hit|]; [returned; eapply Hhit; [|exact E3]; auto|].
  apply bind_returns in E as (fresh & s4 & E4 & E). apply introspect_uncached_returns in E4.
  apply bind_returns in E as (u' & s5 & E5 & E). returned.
  pose proof (remember_active_sound _ _ now (ic_cache_max_ttl_secs cfg) _ E4) as [Hp _].
  rewrite E5 in Hp. eauto using introspected_grows.
Qed.
End Steps.

(** ** Keys *)

Section Keys.
Context `{Crates} `{Redaction} `{Urls} `{AuthDocuments} `{Base64} `{Base64Encode}
  `{HttpTransport} `{AuthClock} {St : Type} `{SecretStore St} `{Elsewhere St} `{JwtCrate}.
Hypothesis others_step : ∀ n (s : AuthState St), auth_step s (meanwhile n s).

#[local] Hint Resolve take_lock_step tick_step now_instant_step send_step : vigil.

Lemma elapsed_step at_ : preserves auth_step (elapsed at_ : AuthM St Z).
Proof. unfold elapsed. preserve. Qed.
#[local] Hint Resolve elapsed_step : vigil.

Lemma jwks_hit_step key kid : preserves auth_step (jwks_hit key kid : AuthM St _).
Proof. unfold jwks_hit. preserve. Qed.

Lemma jwks_hit_locked_step key kid : preserves auth_step (jwks_hit_locked key kid : AuthM St _).
Proof. unfold jwks_hit_locked. preserve. Qed.

(** A hit is a set of the cache. *)
Lemma jwks_hit_returns key kid (s : AuthState St) set s' :
  jwks_hit key kid s = (Ok (Some set), s') →
  ∃ entry, au_jwks s !! key = Some entry ∧ je_set entry = set.
Proof.
  unfold jwks_hit. intros E. returned. destruct (_ !! _) as [entry|] eqn:Ek; returned; [|done].
  destruct (_ && _); simplify_eq. eauto.
Qed.

Lemma jwks_hit_locked_returns key kid (s : AuthState St) set s' :
  jwks_hit_locked key kid s = (Ok (Some set), s') →
  ∃ entry, au_jwks s !! key = Some entry ∧ je_set entry = set.
Proof.
  unfold jwks_hit_locked. intros E. returned. destruct (_ !! _) as [entry|] eqn:Ek; returned; [|done].
  destruct (_ <? _)%Z; returned; [|done]. destruct (has_key _ _); returned; [simplify_eq; eauto|].
  destruct (_ <? _)%Z; returned; done.
Qed.

(** What is cached is the set just received. *)
Lemma cache_keys_step issuer uri set now (s : AuthState St) :
  served_keys uri set (au_exchanges s) →
  auth_step s (set_jwks (<[(issuer, uri) := mkJwksEntry set now now]> (au_jwks s)) s).
Proof.
  intros Hs. split; [done|]. intros [HI HK]. split; [done|]. intros i u e E. simpl in E.
  apply lookup_insert_Some in E as [[[= <- <-] <-]|[_ E]]; [done|by eapply HK].
Qed.

Lemma fetch_jwks_run issuer uri kid (s : AuthState St) r s' :
  fetch_jwks (issuer, uri) kid s = (r, s') →
  auth_step s s' ∧ ∀ set, r = Ok set → served_keys uri set (au_exchanges s').
Proof.
  unfold fetch_jwks. cbn [fst snd]. unfold bind at 1, lift at 1.
  destruct (url_of uri) as [url|] eqn:Eu; cbn [ok_or]; [|by intros [= <- <-]].
  unfold bind at 1. set (req := mkHttpRequest url HttpMethod.Get ACCEPT_JSON None).
  pose proof (send_step req s : auth_step s (send req s).2) as Hstep.
  destruct (send req s) as [[resp|e] s1] eqn:Es; cbn [snd] in Hstep; [|by intros [= <- <-]].
  apply send_returns in Es as (raw & body & Hin & Hb & Hst & Hbody).
  destruct (rp_status resp =? 200)%Z eqn:E2; cbn [negb]; [|by intros [= <- <-]].
  unfold bind at 1, lift at 1.
  destruct (read_jwk_set (rp_body resp)) as [set|] eqn:Er; cbn [ok_or]; [|by intros [= <- <-]].
  unfold bind at 1. pose proof (now_instant_step s1 : auth_step s1 (now_instant s1).2) as Hnow.
  destruct (now_instant s1) as [[now|e] s2]; cbn [snd] in Hnow;
    [|intros [= <- <-]; split; [by etrans|done]].
  assert (served_keys uri set (au_exchanges s2)) as Hserved.
  { exists url. split; [done|]. eapply answered_by_grows; [apply Hnow|].
    exists raw, body. split_and!; [done|done| |by subst]. rewrite Hst. by apply Z.eqb_eq. }
  unfold bind, modify. pose proof (cache_keys_step issuer uri set now s2 Hserved) as Hk.
  destruct (has_key set kid); cbn [negb]; intros [= <- <-];
    (split; [by do 2 (etrans; [eassumption|])|]); [by intros ? [= <-]|done].
Qed.

Lemma jwks_get_step issuer uri kid : preserves auth_step (jwks_get issuer uri kid : AuthM St _).
Proof.
  unfold jwks_get. apply preserves_bind; [typeclasses eauto|apply jwks_hit_step|].
  intros [set|]; [preserve|].
  apply preserves_bind; [typeclasses eauto|by apply take_lock_step|]. intros _.
  apply preserves_bind; [typeclasses eauto|apply jwks_hit_locked_step|].
  intros [set|]; [preserve|]. intros s.
  destruct (fetch_jwks (issuer, uri) kid s) as [r s'] eqn:E. by apply fetch_jwks_run in E as [? _].
Qed.

Lemma jwks_get_returns issuer uri kid (s : AuthState St) set s' :
  jwks_get issuer uri kid s = (Ok set, s') → caches_sound s → served_keys uri set (au_exchanges s').
Proof.
  unfold jwks_get. intros E Hs. apply bind_returns in E as (hit & s1 & E1 & E).
  pose proof (jwks_hit_step (issuer, uri) kid s) as [P1 K1]. rewrite E1 in P1, K1.
  destruct hit as [hit|].
  { apply jwks_hit_returns in E1 as (entry & Ek & <-). returned. destruct Hs as [_ HK].
    eauto using served_keys_grows. }
  apply bind_returns in E as (u & s2 & E2 & E).
  pose proof (take_lock_step others_step s1) as [_ K2]. rewrite E2 in K2.
  apply bind_returns in E as (hit & s3 & E3 & E).
  pose proof (jwks_hit_locked_step (issuer, uri) kid s2) as [P3 _]. rewrite E3 in P3.
  destruct hit as [hit|].
  { apply jwks_hit_locked_returns in E3 as (entry & Ek & <-). returned.
    destruct (K2 (K1 Hs)) as [_ HK]. eauto using served_keys_grows. }
  apply fetch_jwks_run in E as [_ E]. auto.
Qed.

#[local] Hint Resolve jwks_get_step : vigil.

Lemma verify_step uri raw header issuer : preserves auth_step (verify uri raw header issuer : AuthM St unit).
Proof.
  unfold verify. preserve.
Qed.

(** A signature that counts was checked with a key that was served at this URI, by an
    algorithm of the two that are admitted. *)
Definition signed (uri raw : string) (header : JoseHeader) (log : list Exchange) : Prop :=
  ∃ alg kid set jwk key,
    alg_from_str (jh_alg header) = Ok alg ∧ jh_kid header = Some kid ∧
    served_keys uri set log ∧ jwk ∈ ks_keys set ∧ jk_kid jwk = kid ∧
    (∀ a, jk_alg jwk = Some a → a = jh_alg header) ∧
    jwk_to_decoding_key jwk = Ok key ∧ jwt_decode raw key alg = Ok tt.

Lemma find_by_kid_some kid set jwk :
  find_by_kid kid set = Some jwk → jwk ∈ ks_keys set ∧ jk_kid jwk = kid.
Proof.
  unfold find_by_kid. intros E. apply List.find_some in E as [Hin Hk].
  apply String.eqb_eq in Hk. by apply list_elem_of_In in Hin.
Qed.

Lemma verify_returns uri raw header issuer (s : AuthState St) u s' :
  verify uri raw header issuer s = (Ok u, s') → caches_sound s →
  signed uri raw header (au_exchanges s').
Proof.
  unfold verify. intros E Hs.
  apply bind_returns in E as (alg & s1 & E1 & E). apply lift_returns in E1 as [Ealg <-].
  apply bind_returns in E as (u1 & s1 & E1 & E). apply lift_returns in E1 as [_ <-].
  apply bind_returns in E as (kid & s1 & E1 & E). apply lift_returns in E1 as [Ekid <-].
  apply ok_or_ok in Ekid. apply bind_returns in E as (cached & s1 & E1 & E).
  unfold attempt in E1. pose proof (jwks_get_step issuer uri None s) as [_ K1].
  destruct (jwks_get issuer uri None s) as [r s1'] eqn:Er. injection E1 as <- <-.
  apply bind_returns in E as (set & s2 & E2 & E).
  assert (served_keys uri set (au_exchanges s2)) as Hset.
  { destruct r as [set1|e]; [destruct (has_key set1 (Some kid))|]; returned.
    - by eapply jwks_get_returns.
    - eapply jwks_get_returns; [done|auto].
    - eapply jwks_get_returns; [done|auto]. }
  returned. destruct (jwt_decode _ _ _) as [[]|e] eqn:Ed; [|done].
  match goal with Hf : find_by_kid _ _ = Some ?j |- _ =>
    destruct (find_by_kid_some _ _ _ Hf) as [Hin Hk]; exists alg, kid, set, j end.
  eexists. split_and!; eauto. intros a Ha.
  match goal with Hc : check_jwk_alg _ _ = Ok _ |- _ => unfold check_jwk_alg in Hc; rewrite Ha in Hc;
    destruct (String.eqb_spec a (jh_alg header)); [done|discriminate Hc] end.
Qed.
End Keys.
